(* ===== verification/_CoqProject ===== *)
-Q . S2P
Prelude.v
FrameworkError.v
AuditEvent.v
AuditChain.v
AuditStorage.v
FailureTracker.v
AuditAgent.v
AuditSystem.v
Password.v
Accounts.v
AccountStorage.v
AccountService.v
AccountLifecycle.v
Redis.v
Lockout.v
LockoutSafety.v
KeyStorage.v
KeyManager.v
KeyRotationSafety.v
Text.v
Http.v
CallerAuth.v
Tokens.v
TokenSafety.v
TokenGate.v
RouteMatcher.v
RateLimit.v
RedisKv.v
Backend.v
RefreshTokens.v
RefreshSafety.v
Rooms.v
Runs.v
Worker.v
WorkerSafety.v
Pool.v
PoolSafety.v
Base32.v
ApiKeys.v
ApiKeySafety.v
Governor.v
Cedar.v
CedarSafety.v
AuditHttp.v
Service.v
ServiceSafety.v
Sessions.v
Csrf.v
SessionSafety.v
Handlers.v
Versioning.v
Health.v
OAuth.v
Tls.v
TlsRotation.v
TlsListener.v
ClientTls.v
Syslog.v
ConfigAudit.v
Libsql.v
TursoKeys.v
TursoAudit.v
TursoAccounts.v
AuditDecorators.v
LazyStorage.v
Sse.v
