(* ===== verification/Prelude.v ===== *)
(** * acton-service: a verification development

    The program is a Rust framework for HTTP and gRPC services
    ([src/acton-service/src/]). This library models its core: who may call
    (caller authorization, tokens and their keys, API keys, accounts, lockout,
    policies, rate limits), what is recorded (the tamper-evident audit log),
    what runs in the background (pools, workers, rooms), and the error type
    through which all of them answer a client.

    ** How the parts work together

    [ServiceBuilder::build] ([service_builder.rs]) assembles a service from a
    configuration. A request passes caller authorization ([caller_auth.rs]), the
    token layer ([middleware/{paseto,jwt,token,revocation}.rs]), the in-process
    limiter ([middleware/governor.rs]), request auditing
    ([audit/middleware.rs]) and Cedar ([middleware/cedar.rs]) before its handler;
    gRPC calls have a stack of their own ([grpc/middleware.rs]). Tokens are made
    by the generators of [auth/tokens/] with keys from the key manager
    ([auth/key_rotation/]), which keeps a cache in front of a storage trait and is
    driven by an agent; refresh tokens and API keys are stored in Redis,
    PostgreSQL or Turso. Handlers of the account service ([accounts/]) work on a
    storage trait, the password hasher and notification hooks; lockout counts
    failures in Redis. Their events become audit events, which the audit agent
    ([audit/agent.rs]) seals into a hash chain and writes to an audit store,
    watched by a failure tracker. Pool agents ([agents/pool.rs]) dial the back
    ends, the background worker ([agents/background_worker.rs]) runs tasks, room
    managers ([websocket/]) deliver messages. Errors become responses in
    [error.rs]. Sessions ([session/]) carry a browser's login, flash messages and
    forgery token between requests; applications build their routes with the
    version builder ([versioning.rs]) and the repository and handler types
    ([repository/], [handlers/]); OAuth logins ([auth/oauth/]) keep their state in
    Redis; health endpoints ([health.rs]) report on the back ends. Listeners take
    their credentials from sources that reload them from disk ([tls.rs]) and hand
    the verified peer chain to caller authorization; outbound clients present an
    identity that rotates likewise ([client_tls.rs]). The audit agent also exports
    its events to syslog ([audit/syslog.rs]), and the configuration in force is
    itself audited ([audit/config_audit.rs]).

    ** Files

    - [Prelude]: [Result] and [?], the state-and-error monad [M] with its
      triples, machine integers, bytes, strings and list lemmas, the hint
      database [acton] and the tactics of the development. [Text]: Rust's string
      functions. [Runs]: event systems, fair runs and leads-to.
    - [FrameworkError]: [error.rs].
    - [AuditEvent], [AuditChain], [AuditStorage], [FailureTracker],
      [AuditAgent], [AuditSystem], [AuditHttp]: [audit/event.rs], [chain.rs],
      [storage/{mod,pg}.rs] and the row conversions of
      [storage/clickhouse_impl.rs], [failure_tracker.rs] with [alert.rs],
      [agent.rs] with [archive.rs], whole service sessions on one database,
      [middleware.rs].
    - [Password]; [Accounts], [AccountStorage], [AccountService],
      [AccountLifecycle]: [auth/password.rs]; [accounts/].
    - [Redis], [Lockout], [LockoutSafety]: Redis counters, and [lockout/].
    - [KeyStorage], [KeyManager], [KeyRotationSafety]: [auth/key_rotation/].
    - [Http], [CallerAuth]: requests, claims and [middleware/request_context.rs];
      [caller_auth.rs].
    - [Tokens], [TokenSafety], [TokenGate]: token generation and validation
      ([auth/tokens/], [middleware/{paseto,jwt}.rs]), the token layer and the
      revocation list.
    - [RouteMatcher], [RateLimit], [Governor]: [middleware/route_matcher.rs],
      [rate_limit.rs], [governor.rs].
    - [RedisKv], [Backend]: Redis strings and sets, SQL tables with failing
      statements. [RefreshTokens], [RefreshSafety]: [auth/tokens/refresh.rs].
      [Base32], [ApiKeys], [ApiKeySafety]: [auth/api_keys/mod.rs].
    - [Cedar], [CedarSafety]: [middleware/cedar.rs].
    - [Service], [ServiceSafety]: [service_builder.rs] and [grpc/middleware.rs],
      the composition of the layers.
    - [Rooms]: [websocket/{rooms,broadcast}.rs].
    - [Worker], [WorkerSafety], [Pool], [PoolSafety]:
      [agents/{background_worker,messages,pool}.rs] and the retry loop of
      [database.rs], which the other back ends share.
    - [Sessions], [Csrf], [SessionSafety]: [session/].
    - [Handlers]: [repository/], [handlers/], [responses.rs]. [Versioning]:
      [versioning.rs]. [Health]: [checks.rs], [health.rs], [pool_health.rs].
      [OAuth]: [auth/oauth/].
    - [Tls], [TlsRotation], [TlsListener]: [tls.rs] with the TLS steps of
      [service_builder.rs]: loading and sources; reloads in flight; the accept
      pump with its handshake tasks. [ClientTls]: [client_tls.rs].
    - [Syslog]: [audit/syslog.rs], with a reader for its lines. [ConfigAudit]:
      [audit/config_audit.rs].
    - [Libsql]: tables reached through the libsql driver, whose connections,
      statements and reads can fail, and what it means that operations on them
      implement operations on a list. [TursoKeys], [TursoAudit],
      [TursoAccounts]: [auth/key_rotation/storage/turso.rs],
      [audit/storage/turso.rs], [accounts/storage/turso.rs].
    - [LazyStorage]: [audit/storage/lazy.rs] and the schema set-up of the audit
      backends. [AuditDecorators]: [audit/{logger,decorators}.rs].
    - [Sse]: [sse/{broadcast,connection,config}.rs].

    ** Modelling conventions

    A Rust function that returns [Result] is a function into [result]; one that
    also touches shared state is a function in the monad [M], whose state is a
    record of what the component reaches (store, clock, random source, cache,
    tasks spawned). Effects of a failing call are kept, as in the code. A
    middleware layer is its gate: the request it hands on, or the error it
    answers with. A storage trait is a class of operations, its documented
    contract a class of laws over an abstract content; clients are proved against
    the laws and the backends are instances with a proof of them. SQL and Redis
    statements can fail: the stores carry the list of faults to come, and a
    theorem that does not restrict that list holds for all of them. What runs
    concurrently (worker, pools, reloads, handshakes, lazy storage) is an event
    system with one event per await point; liveness is stated for weakly fair
    runs. Clock readings are arguments or a function of the reading's number. Integers are [Z] with their width
    where the code can reach its limit; [f64] is [SpecFloat] at precision 53.
    Code of other crates (BLAKE3, Argon2, PASETO, JWT, X.509, TypeID, base64,
    Cedar, governor, regular expressions, broadcast channels, chrono formatting,
    serde scalars) is a
    field of an environment class; where a theorem needs something of it, that is
    a class of laws, and the witnesses instantiate it.

    ** What is proved

    - The assembled service: one that starts has the protections that the
      configuration in force asks for (the default one when none can be loaded);
      a request reaches a handler only when caller authorization, token layer,
      governor and Cedar let it through, and it is recorded.
    - Identity: caller authorization and the token layer let pass exactly what
      they should; tokens round-trip, survive key rotation and stay revoked;
      refresh tokens and API keys stay revoked in the Redis, PostgreSQL and Turso
      backends short of storing their id again, families are revoked completely, an issued API key authenticates, its text decodes.
      Cedar decisions are at most the cache's time to live old.
    - Limits: per-user and per-key limits, the most specific route wins.
    - The audit log: over any number of restarts the stored rows are one chain
      sealed from genesis, and verification reports exactly the first event that
      PostgreSQL altered: one with a time finer than microseconds; two verifying
      logs under v2 with the same head hash are equal up to collisions; without
      such a time the PostgreSQL round trip keeps hashes and the
      ClickHouse one does not; the agent refines a log sealed in arrival order;
      retention archives before it purges, but only the first batch.
    - Accounts: every request follows the lifecycle table and keeps the store's
      invariant; [authenticate] is correct; disabled accounts stay out.
    - Lockout: nobody is locked early, brute force is locked in time.
    - Key rotation: at most one active key per service, nothing that verified
      stops verifying, look-ups are correct; and drained keys never retire.
    - Concurrency: the worker's limit holds, every question is accounted for,
      cancellation is answered; callers waiting for a pool are released, after the
      shared storage was written, dialling ends; rooms refine a membership relation.
    - Sessions: the forgery gate lets through exactly the requests with their own
      session's token, the byte-wise comparison is equality, rendered tokens read
      back, flash messages arrive once and in order over
      the requests whose session was saved, a login lasts until logout.
    - OAuth states are redeemed once, for the data they were created with.
    - Handlers: following the pages visits every row once; readiness is exact;
      the version of a request is the one its router was mounted for.
    - TLS: start-up fails closed; whatever reloads overlap, a listener serves a
      configuration loaded whole from its section's files and goes on demanding
      client certificates; a rotation is picked up by the next poll when reloads
      do not overlap; served connections are authenticated and peers do not block
      each other, but finished handshakes pile up without bound. A client identity is never lost or weakened by a reload.
    - Export: the syslog messages of a log, received whole and without blanks in
      their headers, are enough to verify its chain. Redacted
      configurations hold no value under a sensitive name, and drift is reported
      exactly for a change outside those values.
    - Turso: the key, audit and account backends implement operations on a list of
      records, in any sequence and with any connections, statements and reads
      failing, for times of four-digit years; which answers a failed read cuts short
      is part of the specification.
    - Lazy audit storage: concurrent callers attach one backend, set up once and
      never exchanged, without deadlock; the wrapper meets the storage contract.
      Audited storages answer as the ones they wrap and log exactly what the
      documentation says; the revocation contracts carry over.
    - Server-sent events: subscribers get the messages of their channel in order.
    - Errors: internal causes do not show in responses.
    - Behaviour that looks unintended is stated as a lemma in the section of that
      name of the file concerned.

    ** Fuel and bounds

    [AuditAgent.wait_for_storage] polls every [STORAGE_READY_POLL_INTERVAL] up to
    [STORAGE_READY_TIMEOUT]; 121 iterations are proved enough.
    [AuditAgent.cleanup_loop] is proved to need two iterations under the storage
    laws. [Pool.retry_loop] takes [max_retries + 1] rounds, proved enough.
    [Base32.emit] takes as many rounds as there are bits, and needs a fifth.
    [SessionSafety.html_unescape], a reader used in a statement, takes one round
    per character; [Syslog.read_params], likewise a reader, takes the length of
    the line, proved enough; [Handlers.walk] takes [total_pages] rounds, proved enough.
    Everything else is structural.

    ** What is not modelled

    SurrealDB back ends and ClickHouse queries (further instances of the modelled
    storage traits, in query languages of their own); audit delivery to OTLP and
    webhooks, metrics; server-sent event builders, resilience layers, GraphQL,
    templates and HTMX responders; the server loop, configuration files and
    observability (set-up of other crates); of [service_builder.rs] only the steps
    that decide about protection, sessions, TLS and configuration auditing; the
    command-line tool. *)

From stdpp Require Export prelude strings gmap list fin_maps sorting.
From Stdlib Require Export ZArith Lia Ascii.

#[export] Set Default Goal Selector "!".

(** * Results *)

(** Rust's [Result<A, E>]. *)
Inductive result (A E : Type) : Type :=
| Ok (a : A)
| Err (e : E).
Arguments Ok {A E} a.
Arguments Err {A E} e.

Definition result_bind {A B E} (r : result A E) (k : A → result B E) : result B E :=
  match r with Ok a => k a | Err e => Err e end.

Definition map_err {A E F} (f : E → F) (r : result A E) : result A F :=
  match r with Ok a => Ok a | Err e => Err (f e) end.

Definition ok_or {A E} (e : E) (o : option A) : result A E :=
  match o with Some a => Ok a | None => Err e end.

Definition is_ok {A E} (r : result A E) : bool :=
  match r with Ok _ => true | Err _ => false end.

(** [Result::unwrap_or]. *)
Definition unwrap_or {A E} (r : result A E) (d : A) : A :=
  match r with Ok a => a | Err _ => d end.

(** Rust's [?] operator. *)
Declare Scope rust_scope.
Delimit Scope rust_scope with rust.
Notation "'let?' x ':=' r 'in' k" := (result_bind r (fun x => k))
  (at level 10, x name, r at level 100, k at level 200) : rust_scope.

#[global] Instance result_eq_dec {A E} `{EqDecision A, EqDecision E} : EqDecision (result A E).
Proof. solve_decision. Defined.

Lemma result_bind_Ok {A B E} (r : result A E) (k : A → result B E) b :
  result_bind r k = Ok b ↔ ∃ a, r = Ok a ∧ k a = Ok b.
Proof. destruct r; naive_solver. Qed.

Lemma result_bind_Err {A B E} (r : result A E) (k : A → result B E) e :
  result_bind r k = Err e ↔ r = Err e ∨ ∃ a, r = Ok a ∧ k a = Err e.
Proof. destruct r; naive_solver. Qed.

Lemma map_err_Ok {A E F} (f : E → F) (r : result A E) a :
  map_err f r = Ok a ↔ r = Ok a.
Proof. destruct r; naive_solver. Qed.

Lemma ok_or_Ok {A E} (e : E) (o : option A) a : ok_or e o = Ok a ↔ o = Some a.
Proof. destruct o; naive_solver. Qed.

(** Case analysis on the code's branches: every hypothesis that says what a
    [?]-chain returned is taken apart, contradictory cases are closed. *)
Ltac inv_result :=
  repeat match goal with
  | H : result_bind _ _ = Ok _ |- _ =>
      apply result_bind_Ok in H; destruct H as (? & ? & H)
  | H : map_err _ _ = Ok _ |- _ => apply map_err_Ok in H
  | H : ok_or _ _ = Ok _ |- _ => apply ok_or_Ok in H
  | H : Ok _ = Ok _ |- _ => injection H as H; try subst
  | H : Err _ = Err _ |- _ => injection H as H; try subst
  | H : Ok _ = Err _ |- _ => discriminate H
  | H : Err _ = Ok _ |- _ => discriminate H
  end.

(** * Stateful code that can fail *)

(** [async fn(&self, ..) -> Result<A, E>] over the state [W] it can reach. The
    state survives an error. *)
Definition M (W E A : Type) : Type := W → result A E * W.

Section Monad.
Context {W E : Type}.

Definition ret {A} (a : A) : M W E A := fun w => (Ok a, w).
Definition fail {A} (e : E) : M W E A := fun w => (Err e, w).
Definition lift {A} (r : result A E) : M W E A := fun w => (r, w).
Definition bind {A B} (m : M W E A) (k : A → M W E B) : M W E B := fun w =>
  match m w with
  | (Ok a, w) => k a w
  | (Err e, w) => (Err e, w)
  end.
(** [x.await.unwrap_or(d)] and [let _ = x.await]. *)
Definition or_default {A} (d : A) (m : M W E A) : M W E A := fun w =>
  let '(r, w) := m w in (Ok (unwrap_or r d), w).
Definition ignore {A} (m : M W E A) : M W E unit := fun w => let '(_, w) := m w in (Ok tt, w).
(** [match x.await { Ok(..) => .., Err(..) => .. }]. *)
Definition attempt {A} (m : M W E A) : M W E (result A E) := fun w => let '(r, w) := m w in (Ok r, w).

Lemma bind_Ok {A B} (m : M W E A) (k : A → M W E B) w b w' :
  bind m k w = (Ok b, w') → ∃ a w1, m w = (Ok a, w1) ∧ k a w1 = (Ok b, w').
Proof. unfold bind. destruct (m w) as [[a|e] w1]; [eauto|done]. Qed.

(** Run from a state with [P], [m] ends with [Q] of its result and state. *)
Definition hoare {A} (P : W → Prop) (m : M W E A) (Q : result A E → W → Prop) : Prop :=
  ∀ w, P w → Q (m w).1 (m w).2.

(** The same from one state, for symbolic execution. *)
Definition wp {A} (m : M W E A) (Q : result A E → W → Prop) (w : W) : Prop := Q (m w).1 (m w).2.

Lemma wp_bind {A B} (m : M W E A) (k : A → M W E B) Q w :
  wp m (fun r w' => match r with Ok a => wp (k a) Q w' | Err e => Q (Err e) w' end) w →
  wp (bind m k) Q w.
Proof. unfold wp, bind. by destruct (m w) as [[a|e] w']. Qed.

Lemma wp_wand {A} (m : M W E A) (Q Q' : result A E → W → Prop) w :
  wp m Q w → (∀ r w', Q r w' → Q' r w') → wp m Q' w.
Proof. unfold wp. auto. Qed.

Lemma hoare_lift {A} (P : W → Prop) (r : result A E) Q : (∀ w, P w → Q r w) → hoare P (lift r) Q.
Proof. intros HQ w. apply HQ. Qed.

Lemma hoare_bind {A B} P (m : M W E A) (k : A → M W E B) (R : A → W → Prop) Q :
  hoare P m (fun r w => match r with Ok a => R a w | Err e => Q (Err e) w end) →
  (∀ a, hoare (R a) (k a) Q) → hoare P (bind m k) Q.
Proof.
  intros Hm Hk w Hw. specialize (Hm w Hw). unfold bind.
  destruct (m w) as [[a|e] w1]; cbn in *; [by apply Hk|done].
Qed.

Lemma hoare_or_default {A} P d (m : M W E A) (R : A → W → Prop) :
  hoare P m (fun r w => R (unwrap_or r d) w) →
  hoare P (or_default d m) (fun r w => match r with Ok a => R a w | Err _ => False end).
Proof. intros Hm w Hw. specialize (Hm w Hw). unfold or_default. by destruct (m w). Qed.
End Monad.

Declare Scope monad_scope.
Delimit Scope monad_scope with monad.
Notation "'let!' x ':=' m 'in' k" := (bind m (fun x => k))
  (at level 10, x pattern, m at level 100, k at level 200) : monad_scope.
Notation "m ;; k" := (bind m (fun _ => k))
  (at level 100, k at level 200, right associativity) : monad_scope.

(** * Machine integers *)

Open Scope Z_scope.

(** [x] fits in [w] unsigned bits. *)
Definition fits (w : Z) (x : Z) : Prop := 0 ≤ x < 2 ^ w.

#[global] Instance fits_dec w x : Decision (fits w x).
Proof. unfold fits. apply _. Defined.

(** Wrap-around at width [w]: what an [as] cast to an unsigned type keeps. *)
Definition as_unsigned (w : Z) (x : Z) : Z := x mod 2 ^ w.

(** An [as] cast to a signed [w]-bit type (two's complement). *)
Definition as_signed (w : Z) (x : Z) : Z :=
  let y := x mod 2 ^ w in if y <? 2 ^ (w - 1) then y else y - 2 ^ w.

(** [u64] addition in release builds. *)
Definition u64_add (x y : Z) : Z := as_unsigned 64 (x + y).

Lemma as_unsigned_small w x : fits w x → as_unsigned w x = x.
Proof. intros H. apply Z.mod_small, H. Qed.

Lemma u64_add_small x y : fits 64 (x + y) → u64_add x y = x + y.
Proof. apply as_unsigned_small. Qed.

(** Casting an unsigned value to the signed type of the same width and back
    loses nothing; this is how the SQL backends store [u16]/[u64] columns. *)
Lemma as_unsigned_signed w x : 0 < w → fits w x → as_unsigned w (as_signed w x) = x.
Proof.
  intros Hw Hx. unfold as_signed, as_unsigned.
  rewrite (Z.mod_small x) by exact Hx.
  destruct (x <? 2 ^ (w - 1)) eqn:E; [by apply Z.mod_small|].
  symmetry. apply Z.mod_unique with (q := -1); [left; apply Hx|lia].
Qed.

Lemma as_signed_small x : 0 ≤ x < 2 ^ 63 → as_signed 64 x = x.
Proof.
  intros Hx. unfold as_signed. rewrite Z.mod_small by lia.
  by destruct (Z.ltb_spec x (2 ^ (64 - 1))); [|lia].
Qed.

Lemma as_signed_range w x : 0 < w → - 2 ^ (w - 1) ≤ as_signed w x < 2 ^ (w - 1).
Proof.
  intros Hw. unfold as_signed.
  assert (2 ^ w = 2 * 2 ^ (w - 1)) as E2.
  { rewrite <-Z.pow_succ_r by lia. f_equal. lia. }
  pose proof (Z.mod_pos_bound x (2 ^ w) ltac:(apply Z.pow_pos_nonneg; lia)).
  destruct (Z.ltb_spec (x mod 2 ^ w) (2 ^ (w - 1))); lia.
Qed.

(** * Bytes *)

(** A byte string. Rust strings are UTF-8 byte sequences, so a [string] of
    8-bit [ascii] characters is their byte content. *)
Abbreviation bytes := (list ascii).

Definition str_bytes (s : string) : bytes := String.list_ascii_of_string s.

Lemma str_bytes_inj s t : str_bytes s = str_bytes t → s = t.
Proof.
  intros H. rewrite <-(String.string_of_list_ascii_of_string s), <-(String.string_of_list_ascii_of_string t).
  unfold str_bytes in H. congruence.
Qed.

Definition byte_of_Z (z : Z) : ascii := ascii_of_N (Z.to_N (z mod 256)).
Definition Z_of_byte (b : ascii) : Z := Z.of_N (N_of_ascii b).

Lemma Z_of_byte_of_Z z : Z_of_byte (byte_of_Z z) = z mod 256.
Proof.
  unfold Z_of_byte, byte_of_Z.
  pose proof (Z.mod_pos_bound z 256 ltac:(lia)).
  rewrite N_ascii_embedding; lia.
Qed.

(** [to_le_bytes] of an integer of [n] bytes. *)
Fixpoint le_bytes (n : nat) (z : Z) : bytes :=
  match n with
  | O => []
  | S n => byte_of_Z z :: le_bytes n (z / 256)
  end.

Fixpoint le_value (bs : bytes) : Z :=
  match bs with
  | [] => 0
  | b :: bs => Z_of_byte b + 256 * le_value bs
  end.

Lemma length_le_bytes n z : length (le_bytes n z) = n.
Proof. revert z. induction n; intros; simpl; auto. Qed.

Lemma le_value_bytes n z : 0 ≤ z < 256 ^ Z.of_nat n → le_value (le_bytes n z) = z.
Proof.
  revert z. induction n as [|n IH]; intros z Hz; simpl.
  { change (256 ^ Z.of_nat 0) with 1 in Hz. lia. }
  rewrite Nat2Z.inj_succ, Z.pow_succ_r in Hz by lia.
  rewrite IH, Z_of_byte_of_Z.
  - pose proof (Z.div_mod z 256 ltac:(lia)). lia.
  - split; [apply Z.div_pos; lia|]. apply Z.div_lt_upper_bound; lia.
Qed.

#[global] Arguments le_bytes : simpl never.
#[global] Arguments byte_of_Z : simpl never.

Lemma le_bytes_inj n x y :
  0 ≤ x < 256 ^ Z.of_nat n → 0 ≤ y < 256 ^ Z.of_nat n → le_bytes n x = le_bytes n y → x = y.
Proof. intros Hx Hy E. rewrite <-(le_value_bytes n x Hx), E. by apply le_value_bytes. Qed.

(** * Strings *)

(** [str::strip_prefix]. *)
Fixpoint strip_prefix (p s : string) : option string :=
  match p, s with
  | EmptyString, _ => Some s
  | String a p, String b s => if Ascii.eqb a b then strip_prefix p s else None
  | _, _ => None
  end.

(** [str::starts_with]. *)
Definition starts_with (s p : string) : bool :=
  match strip_prefix p s with Some _ => true | None => false end.

Lemma strip_prefix_app p s : strip_prefix p (p +:+ s) = Some s.
Proof. induction p as [|a p IH]; simpl; [done|]. by rewrite Ascii.eqb_refl. Qed.

Lemma strip_prefix_Some p s t : strip_prefix p s = Some t → s = p +:+ t.
Proof.
  revert s. induction p as [|a p IH]; intros s; simpl; [by intros [= ->]|].
  destruct s as [|b s]; [done|]. destruct (Ascii.eqb_spec a b); [|done].
  intros ->%IH. by subst.
Qed.

Lemma starts_with_app p s : starts_with (p +:+ s) p = true.
Proof. unfold starts_with. by rewrite strip_prefix_app. Qed.

Lemma string_app_inj_l (p s t : string) : p +:+ s = p +:+ t → s = t.
Proof. induction p; simpl; [done|]. intros [=]. auto. Qed.

Lemma string_app_assoc (s t u : string) : (s +:+ t) +:+ u = s +:+ (t +:+ u).
Proof. induction s as [|a s IH]; [done|]. change (String a ((s +:+ t) +:+ u) = String a (s +:+ (t +:+ u))). by rewrite IH. Qed.

(** * Lists *)

Lemma app_eq_length_inv {A} (l1 l2 k1 k2 : list A) :
  length l1 = length l2 → l1 ++ k1 = l2 ++ k2 → l1 = l2 ∧ k1 = k2.
Proof. intros Hl E. by apply app_inj_1. Qed.

(** One step of comparing two list literals, without unfolding the entries. *)
Lemma cons_eq_inv {A} (x y : A) l k : x :: l = y :: k → x = y ∧ l = k.
Proof. by intros [= -> ->]. Qed.

Lemma StronglySorted_filter {A} (R : relation A) (P : A → Prop) `{∀ x, Decision (P x)} l :
  StronglySorted R l → StronglySorted R (filter P l).
Proof.
  induction 1 as [|x l Hl IH Hx]; [constructor|].
  rewrite filter_cons. case_decide; [|done]. constructor; [done|].
  rewrite Forall_forall in *. intros y Hy. apply Hx.
  by apply list_elem_of_filter in Hy as [_ Hy].
Qed.

(** In a list with distinct keys an element is determined by its key. *)
Lemma NoDup_fmap_elem_inj {A B} (f : A → B) (l : list A) x y :
  NoDup (f <$> l) → x ∈ l → y ∈ l → f x = f y → x = y.
Proof.
  intros Hn [i Hi]%list_elem_of_lookup [j Hj]%list_elem_of_lookup E.
  assert (i = j) as ->; [|congruence].
  apply (NoDup_lookup (f <$> l) i j (f x)); [done|..]; rewrite list_lookup_fmap;
    [by rewrite Hi|rewrite Hj; simpl; by rewrite E].
Qed.

Section Filter.
Context {A} (P : A → Prop) `{!∀ x, Decision (P x)}.

Lemma filter_none (l : list A) : (∀ x, x ∈ l → ¬ P x) → filter P l = [].
Proof.
  induction l as [|x l IH]; intros Hl; [done|]. rewrite filter_cons.
  case_decide; [set_solver|]. apply IH. set_solver.
Qed.

Lemma filter_all (l : list A) : (∀ x, x ∈ l → P x) → filter P l = l.
Proof.
  induction l as [|x l IH]; intros Hl; [done|]. rewrite filter_cons.
  case_decide; [|set_solver]. f_equal. apply IH. set_solver.
Qed.

Lemma filter_nil_inv (l : list A) x : filter P l = [] → x ∈ l → ¬ P x.
Proof.
  intros Hf Hx HP. assert (x ∈ filter P l) as Hin by (by apply list_elem_of_filter).
  rewrite Hf in Hin. set_solver.
Qed.
End Filter.

(** * Hints *)

Create HintDb acton.
Create Rewrite HintDb acton.
#[export] Hint Resolve str_bytes_inj length_le_bytes starts_with_app : acton.
#[export] Hint Rewrite @length_le_bytes strip_prefix_app starts_with_app : acton.
