(* ===== verification/AuditEvent.v ===== *)
(** * Audit events

    [src/acton-service/src/audit/event.rs]: the event record, its kinds and
    severities, their wire names, and the builder methods. All optional event
    kinds are present, as in a build with the [login-lockout] and [accounts]
    features. [Uuid::new_v4] and [Utc::now] are arguments of [AuditEvent_new];
    a timestamp is the number of nanoseconds since the Unix epoch. *)

From S2P Require Import Prelude.

Local Open Scope string_scope.
Local Open Scope Z_scope.
Local Open Scope list_scope.

(** ** JSON values ([serde_json::Value]) *)

(** [serde_json::Number]: a [u64], a negative [i64] or the bits of an [f64]. *)
Inductive json_number :=
| PosInt (n : Z)
| NegInt (n : Z)
| FloatBits (b : Z).

Inductive json :=
| JNull
| JBool (b : bool)
| JNumber (n : json_number)
| JString (s : string)
| JArray (items : list json)
| JObject (entries : list (string * json)).

(** ** Kinds *)

Inductive AuditEventKind :=
| AuthLoginSuccess | AuthLoginFailed | AuthTokenMissing | AuthTokenInvalid
| AuthLogout | AuthTokenRefresh | AuthTokenRevoked | AuthPasswordChanged
| AuthApiKeyCreated | AuthApiKeyRevoked | AuthOAuthCallback | AuthPermissionDenied
| AuthAccountLocked | AuthAccountUnlocked
| AccountCreated | AccountDisabled | AccountEnabled | AccountLocked
| AccountUnlocked | AccountExpired | AccountDeleted | AccountUpdated
| AuthKeyRotated | AuthKeyRetired | AuthKeyRotationFailed
| ConfigLoaded | ConfigDriftDetected
| HttpRequest | HttpRequestDenied
| Custom (name : string).

#[global] Instance AuditEventKind_eq_dec : EqDecision AuditEventKind.
Proof. solve_decision. Defined.

(** [Display for AuditEventKind]. *)
Definition kind_to_string (k : AuditEventKind) : string :=
  match k with
  | AuthLoginSuccess => "auth.login.success"
  | AuthLoginFailed => "auth.login.failed"
  | AuthTokenMissing => "auth.token.missing"
  | AuthTokenInvalid => "auth.token.invalid"
  | AuthLogout => "auth.logout"
  | AuthTokenRefresh => "auth.token.refresh"
  | AuthTokenRevoked => "auth.token.revoked"
  | AuthPasswordChanged => "auth.password.changed"
  | AuthApiKeyCreated => "auth.apikey.created"
  | AuthApiKeyRevoked => "auth.apikey.revoked"
  | AuthOAuthCallback => "auth.oauth.callback"
  | AuthPermissionDenied => "auth.permission.denied"
  | AuthAccountLocked => "auth.account.locked"
  | AuthAccountUnlocked => "auth.account.unlocked"
  | AccountCreated => "account.created"
  | AccountDisabled => "account.disabled"
  | AccountEnabled => "account.enabled"
  | AccountLocked => "account.locked"
  | AccountUnlocked => "account.unlocked"
  | AccountExpired => "account.expired"
  | AccountDeleted => "account.deleted"
  | AccountUpdated => "account.updated"
  | AuthKeyRotated => "auth.key.rotated"
  | AuthKeyRetired => "auth.key.retired"
  | AuthKeyRotationFailed => "auth.key.rotation_failed"
  | ConfigLoaded => "config.loaded"
  | ConfigDriftDetected => "config.drift_detected"
  | HttpRequest => "http.request"
  | HttpRequestDenied => "http.request.denied"
  | Custom name => "custom." +:+ name
  end.

(** The arms of a [match] on string literals, tried in order. *)
Fixpoint match_str {A} (arms : list (string * A)) (s : string) : option A :=
  match arms with
  | [] => None
  | (lit, a) :: arms => if String.eqb s lit then Some a else match_str arms s
  end.

(** [AuditEventKind::from_wire]: the [custom.] prefix first, then the arms. *)
Definition from_wire (s : string) : option AuditEventKind :=
  match strip_prefix "custom." s with
  | Some name => Some (Custom name)
  | None =>
      match_str
        [ ("auth.login.success", AuthLoginSuccess);
          ("auth.login.failed", AuthLoginFailed);
          ("auth.token.missing", AuthTokenMissing);
          ("auth.token.invalid", AuthTokenInvalid);
          ("auth.logout", AuthLogout);
          ("auth.token.refresh", AuthTokenRefresh);
          ("auth.token.revoked", AuthTokenRevoked);
          ("auth.password.changed", AuthPasswordChanged);
          ("auth.apikey.created", AuthApiKeyCreated);
          ("auth.apikey.revoked", AuthApiKeyRevoked);
          ("auth.oauth.callback", AuthOAuthCallback);
          ("auth.permission.denied", AuthPermissionDenied);
          ("auth.account.locked", AuthAccountLocked);
          ("auth.account.unlocked", AuthAccountUnlocked);
          ("account.created", AccountCreated);
          ("account.disabled", AccountDisabled);
          ("account.enabled", AccountEnabled);
          ("account.locked", AccountLocked);
          ("account.unlocked", AccountUnlocked);
          ("account.expired", AccountExpired);
          ("account.deleted", AccountDeleted);
          ("account.updated", AccountUpdated);
          ("auth.key.rotated", AuthKeyRotated);
          ("auth.key.retired", AuthKeyRetired);
          ("auth.key.rotation_failed", AuthKeyRotationFailed);
          ("config.loaded", ConfigLoaded);
          ("config.drift_detected", ConfigDriftDetected);
          ("http.request", HttpRequest);
          ("http.request.denied", HttpRequestDenied) ] s
  end.

Lemma match_str_Some {A} (arms : list (string * A)) s a :
  match_str arms s = Some a → In (s, a) arms.
Proof.
  induction arms as [|[lit b] arms IH]; simpl; [done|].
  destruct (String.eqb_spec s lit); [intros [= ->]; subst; by left|auto].
Qed.

Lemma match_str_None {A} (arms : list (string * A)) s :
  match_str arms s = None ↔ ¬ In s (map fst arms).
Proof.
  induction arms as [|[lit b] arms IH]; simpl; [tauto|].
  destruct (String.eqb_spec s lit); [split; [done|subst; tauto]|].
  rewrite IH. intuition congruence.
Qed.

Lemma from_wire_to_string k : from_wire (kind_to_string k) = Some k.
Proof.
  by destruct k.
Qed.

Lemma kind_to_string_inj k k' : kind_to_string k = kind_to_string k' → k = k'.
Proof.
  intros E. enough (Some k = Some k') by congruence.
  by rewrite <-!from_wire_to_string, E.
Qed.

(** [from_wire] is the exact inverse of [Display]: every kind parses back
    to itself, and a string that parses is the wire string of the result. *)
Theorem from_wire_inverse s k : from_wire s = Some k ↔ kind_to_string k = s.
Proof.
  split; [|intros <-; apply from_wire_to_string].
  unfold from_wire. destruct (strip_prefix "custom." s) as [name|] eqn:E.
  - intros [= <-]. symmetry. by apply strip_prefix_Some.
  - clear E. intros H%match_str_Some. cbn [In] in H.
    repeat (destruct H as [[= <- <-]|H]; [done|]). done.
Qed.

(** ** Severities *)

Inductive AuditSeverity :=
| SevEmergency | SevAlert | SevCritical | SevError | SevWarning | SevNotice | SevInformational | SevDebug.

#[global] Instance AuditSeverity_eq_dec : EqDecision AuditSeverity.
Proof. solve_decision. Defined.

(** [AuditSeverity::as_syslog_severity]: the enum discriminant. *)
Definition as_syslog_severity (s : AuditSeverity) : Z :=
  match s with
  | SevEmergency => 0 | SevAlert => 1 | SevCritical => 2 | SevError => 3
  | SevWarning => 4 | SevNotice => 5 | SevInformational => 6 | SevDebug => 7
  end.

(** [Display for AuditSeverity]. *)
Definition severity_to_string (s : AuditSeverity) : string :=
  match s with
  | SevEmergency => "EMERGENCY" | SevAlert => "ALERT" | SevCritical => "CRITICAL"
  | SevError => "ERROR" | SevWarning => "WARNING" | SevNotice => "NOTICE"
  | SevInformational => "INFO" | SevDebug => "DEBUG"
  end.

Lemma as_syslog_severity_inj s s' : as_syslog_severity s = as_syslog_severity s' → s = s'.
Proof. by destruct s, s'. Qed.

Lemma as_syslog_severity_bound s : 0 ≤ as_syslog_severity s ≤ 7.
Proof. destruct s; simpl; lia. Qed.

(** ** Events *)

Record AuditSource := mkAuditSource {
  src_ip : option string;
  src_user_agent : option string;
  src_subject : option string;
  src_request_id : option string;
}.

(** [AuditSource::default]. *)
Definition AuditSource_default : AuditSource := mkAuditSource None None None None.

Record AuditEvent := mkAuditEvent {
  ev_id : bytes;              (* the 16 bytes of the Uuid *)
  ev_timestamp : Z;
  ev_kind : AuditEventKind;
  ev_severity : AuditSeverity;
  ev_source : AuditSource;
  ev_method : option string;
  ev_path : option string;
  ev_status_code : option Z;  (* u16 *)
  ev_duration_ms : option Z;  (* u64 *)
  ev_service_name : string;
  ev_metadata : option json;
  ev_hash : option string;
  ev_previous_hash : option string;
  ev_sequence : Z;            (* u64 *)
}.

(** [AuditEvent::new]. *)
Definition AuditEvent_new (uuid : bytes) (now : Z) (kind : AuditEventKind)
    (severity : AuditSeverity) (service_name : string) : AuditEvent :=
  mkAuditEvent uuid now kind severity AuditSource_default
    None None None None service_name None None None 0.

Definition with_source (e : AuditEvent) (source : AuditSource) : AuditEvent :=
  mkAuditEvent (ev_id e) (ev_timestamp e) (ev_kind e) (ev_severity e) source
    (ev_method e) (ev_path e) (ev_status_code e) (ev_duration_ms e)
    (ev_service_name e) (ev_metadata e) (ev_hash e) (ev_previous_hash e) (ev_sequence e).

Definition with_http (e : AuditEvent) (method path : string)
    (status_code duration_ms : option Z) : AuditEvent :=
  mkAuditEvent (ev_id e) (ev_timestamp e) (ev_kind e) (ev_severity e) (ev_source e)
    (Some method) (Some path) status_code duration_ms
    (ev_service_name e) (ev_metadata e) (ev_hash e) (ev_previous_hash e) (ev_sequence e).

(** [with_metadata] and the assignment [event.metadata = metadata] of
    [AuditLogger::log_custom]. *)
Definition set_metadata (e : AuditEvent) (metadata : option json) : AuditEvent :=
  mkAuditEvent (ev_id e) (ev_timestamp e) (ev_kind e) (ev_severity e) (ev_source e)
    (ev_method e) (ev_path e) (ev_status_code e) (ev_duration_ms e)
    (ev_service_name e) metadata (ev_hash e) (ev_previous_hash e) (ev_sequence e).

Definition with_metadata (e : AuditEvent) (metadata : json) : AuditEvent :=
  set_metadata e (Some metadata).

(** The values Rust's field types can hold: a 16-byte id, a [u16] status, a
    [u64] duration and sequence number. *)
Definition event_ok (e : AuditEvent) : Prop :=
  length (ev_id e) = 16%nat ∧
  match ev_status_code e with Some c => fits 16 c | None => True end ∧
  match ev_duration_ms e with Some d => fits 64 d | None => True end ∧
  fits 64 (ev_sequence e).

Lemma event_ok_new uuid now k sev svc :
  length uuid = 16%nat → event_ok (AuditEvent_new uuid now k sev svc).
Proof. intros H. repeat split; simpl; auto; lia. Qed.

#[export] Hint Resolve event_ok_new : acton.
