(* ===== verification/AuditChain.v ===== *)
(** * The audit hash chain

    [src/acton-service/src/audit/chain.rs]: sealing of events, the two hash
    schemes, verification. The BLAKE3 hasher, chrono's RFC 3339 rendering and
    serde_json's scalar serialization are the fields of [ChainEnv]. *)

From S2P Require Import Prelude AuditEvent.

Local Open Scope string_scope.
Local Open Scope Z_scope.
Local Open Scope list_scope.

(** What the chain uses of other crates. *)
Class ChainEnv := {
  (** [hasher.update(..)*; finalize().to_hex()]: hex digest of the bytes fed. *)
  blake3_hex : bytes → string;
  (** [DateTime<Utc>::to_rfc3339]. *)
  to_rfc3339 : Z → string;
  (** [serde_json::to_string] on scalars and strings. *)
  scalar_to_string : json → string;
}.

Section Chain.
Context `{ChainEnv}.

(** ** Canonical JSON *)

Fixpoint assoc {A} (k : string) (l : list (string * A)) : option A :=
  match l with
  | [] => None
  | (k', a) :: l => if String.eqb k k' then Some a else assoc k l
  end.

(** [canonical_json]/[write_value]. The entries are rendered first, then
    emitted in key order, each looked up by its key. *)
Fixpoint canonical_json (value : json) : string :=
  match value with
  | JObject entries =>
      let rendered := map (fun kv => (fst kv, canonical_json (snd kv))) entries in
      let keys := merge_sort String.le (map fst rendered) in
      "{" +:+ String.concat ","
        (map (fun key => scalar_to_string (JString key) +:+ ":" +:+
                         default "" (assoc key rendered)) keys) +:+ "}"
  | JArray items => "[" +:+ String.concat "," (map canonical_json items) +:+ "]"
  | scalar => scalar_to_string scalar
  end.

(** ** Hashing *)

Definition HASH_V2_PREFIX : string := "v2:".

(** The [frame] closure: presence tag, little-endian length, bytes. *)
Definition frame (b : option bytes) : bytes :=
  match b with
  | Some b => byte_of_Z 1 :: le_bytes 8 (Z.of_nat (length b)) ++ b
  | None => [byte_of_Z 0]
  end.

(** The fields [compute_hash_v2] frames, in its order. *)
Definition hash_fields_v2 (e : AuditEvent) : list (option bytes) :=
  [ Some (le_bytes 8 (ev_sequence e));
    str_bytes <$> ev_previous_hash e;
    Some (ev_id e);
    Some (str_bytes (to_rfc3339 (ev_timestamp e)));
    Some (str_bytes (kind_to_string (ev_kind e)));
    Some [byte_of_Z (as_syslog_severity (ev_severity e))];
    Some (str_bytes (ev_service_name e));
    str_bytes <$> ev_method e;
    str_bytes <$> ev_path e;
    le_bytes 2 <$> ev_status_code e;
    str_bytes <$> src_subject (ev_source e);
    str_bytes <$> src_ip (ev_source e);
    str_bytes <$> src_user_agent (ev_source e);
    str_bytes <$> src_request_id (ev_source e);
    le_bytes 8 <$> ev_duration_ms e;
    str_bytes ∘ canonical_json <$> ev_metadata e ].

Definition hash_input_v2 (e : AuditEvent) : bytes := concat (map frame (hash_fields_v2 e)).

Definition compute_hash_v2 (e : AuditEvent) : string :=
  HASH_V2_PREFIX +:+ blake3_hex (hash_input_v2 e).

(** The bytes of an optional field the v1 scheme feeds when present. *)
Definition v1_opt {A} (f : A → bytes) (o : option A) : bytes :=
  match o with Some a => f a | None => [] end.

(** [compute_hash_v1]: unframed concatenation of a subset of the fields. *)
Definition compute_hash_v1 (e : AuditEvent) : string :=
  blake3_hex
    (le_bytes 8 (ev_sequence e) ++ v1_opt str_bytes (ev_previous_hash e) ++
     ev_id e ++ str_bytes (to_rfc3339 (ev_timestamp e)) ++
     str_bytes (kind_to_string (ev_kind e)) ++
     [byte_of_Z (as_syslog_severity (ev_severity e))] ++
     str_bytes (ev_service_name e) ++
     v1_opt str_bytes (ev_method e) ++ v1_opt str_bytes (ev_path e) ++
     v1_opt (le_bytes 2) (ev_status_code e) ++
     v1_opt str_bytes (src_subject (ev_source e))).

(** [recompute_hash]: dispatch on the version the stored hash names. *)
Definition recompute_hash (e : AuditEvent) : string :=
  match ev_hash e with
  | Some h => if starts_with h HASH_V2_PREFIX then compute_hash_v2 e else compute_hash_v1 e
  | None => compute_hash_v2 e
  end.

(** ** The chain *)

Record AuditChain := mkAuditChain {
  ch_previous_hash : option string;
  ch_sequence : Z;
  ch_service_name : string;
}.

(** [AuditChain::new]. *)
Definition chain_new (service_name : string) : AuditChain := mkAuditChain None 0 service_name.

(** [AuditChain::resume]. *)
Definition chain_resume (service_name previous_hash : string) (sequence : Z) : AuditChain :=
  mkAuditChain (Some previous_hash) sequence service_name.

(** The event with its chain fields populated, before and after hashing. *)
Definition set_link (e : AuditEvent) (sequence : Z) (previous_hash : option string)
    (service_name : string) : AuditEvent :=
  mkAuditEvent (ev_id e) (ev_timestamp e) (ev_kind e) (ev_severity e) (ev_source e)
    (ev_method e) (ev_path e) (ev_status_code e) (ev_duration_ms e)
    service_name (ev_metadata e) (ev_hash e) previous_hash sequence.

Definition set_hash (e : AuditEvent) (hash : option string) : AuditEvent :=
  mkAuditEvent (ev_id e) (ev_timestamp e) (ev_kind e) (ev_severity e) (ev_source e)
    (ev_method e) (ev_path e) (ev_status_code e) (ev_duration_ms e)
    (ev_service_name e) (ev_metadata e) hash (ev_previous_hash e) (ev_sequence e).

(** [AuditChain::seal]: the sealed event and the advanced chain. *)
Definition seal (c : AuditChain) (event : AuditEvent) : AuditEvent * AuditChain :=
  let sequence := u64_add (ch_sequence c) 1 in
  let event := set_link event sequence (ch_previous_hash c) (ch_service_name c) in
  let hash := compute_hash_v2 event in
  (set_hash event (Some hash), mkAuditChain (Some hash) sequence (ch_service_name c)).

(** Sealing a sequence of events one after the other. *)
Fixpoint seal_all (c : AuditChain) (events : list AuditEvent) : list AuditEvent * AuditChain :=
  match events with
  | [] => ([], c)
  | e :: events =>
      let '(e', c') := seal c e in
      let '(es, c'') := seal_all c' events in
      (e' :: es, c'')
  end.

(** ** Verification *)

Record ChainVerificationError := mkChainVerificationError {
  cve_sequence : Z;
  cve_expected_previous_hash : option string;
  cve_actual_previous_hash : option string;
}.

(** The loop of [verify_chain]; [expected_prev] is its loop variable. *)
Fixpoint verify_from (expected_prev : option string) (events : list AuditEvent)
    : result unit ChainVerificationError :=
  match events with
  | [] => Ok tt
  | event :: events =>
      let broken := Err (mkChainVerificationError (ev_sequence event) expected_prev
                           (ev_previous_hash event)) in
      if decide (ev_previous_hash event = expected_prev) then
        if decide (ev_hash event = Some (recompute_hash event))
        then verify_from (ev_hash event) events
        else broken
      else broken
  end.

Definition verify_chain (events : list AuditEvent) : result unit ChainVerificationError :=
  match events with [] => Ok tt | _ => verify_from None events end.

Lemma verify_chain_eq events : verify_chain events = verify_from None events.
Proof. by destruct events. Qed.

(** ** Sealing produces chains that verify *)

Lemma compute_hash_v2_hash e h : compute_hash_v2 (set_hash e h) = compute_hash_v2 e.
Proof. by destruct e. Qed.

(** An event whose stored hash carries the prefix is checked under v2. *)
Lemma recompute_hash_v2 e h :
  ev_hash e = Some (HASH_V2_PREFIX +:+ h) → recompute_hash e = compute_hash_v2 e.
Proof. intros Hh. unfold recompute_hash. by rewrite Hh, starts_with_app. Qed.

Lemma seal_recompute c e :
  let e' := (seal c e).1 in ev_hash e' = Some (recompute_hash e').
Proof.
  intros e'. unfold e'. erewrite recompute_hash_v2 by done.
  unfold seal; cbn [fst]. by rewrite compute_hash_v2_hash.
Qed.

Lemma seal_link c e :
  let '(e', c') := seal c e in
  ev_previous_hash e' = ch_previous_hash c ∧ ev_hash e' = ch_previous_hash c' ∧
  ev_sequence e' = ch_sequence c' ∧ ch_service_name c' = ch_service_name c.
Proof. done. Qed.

Lemma verify_from_sealed c events :
  verify_from (ch_previous_hash c) (seal_all c events).1 = Ok tt.
Proof.
  revert c. induction events as [|e events IH]; intros c; [done|].
  cbn [seal_all]. pose proof (seal_recompute c e) as Hr. pose proof (seal_link c e) as Hl.
  destruct (seal c e) as [e' c']; simpl in Hr, Hl. destruct Hl as (Hp & Hh & _).
  specialize (IH c'). destruct (seal_all c' events) as [es c'']. cbn [fst verify_from] in *.
  rewrite decide_True by done. rewrite decide_True by done. by rewrite Hh.
Qed.

Lemma seal_all_app c es1 es2 :
  seal_all c (es1 ++ es2) =
  let '(s1, c1) := seal_all c es1 in
  let '(s2, c2) := seal_all c1 es2 in (s1 ++ s2, c2).
Proof.
  revert c. induction es1 as [|e es1 IH]; intros c; cbn [seal_all app].
  { by destruct (seal_all c es2). }
  destruct (seal c e) as [e' c']. rewrite IH.
  destruct (seal_all c' es1) as [s1 c1]. by destruct (seal_all c1 es2).
Qed.

Lemma length_seal_all c events : length (seal_all c events).1 = length events.
Proof.
  revert c. induction events as [|e events IH]; intros c; [done|].
  cbn [seal_all]. destruct (seal c e) as [e' c']. specialize (IH c').
  destruct (seal_all c' events); simpl in *. by f_equal.
Qed.

(** The sequence numbers of a sealed batch are consecutive. *)
Lemma seal_all_sequence c events i e :
  0 ≤ ch_sequence c → fits 64 (ch_sequence c + Z.of_nat (length events)) →
  (seal_all c events).1 !! i = Some e → ev_sequence e = ch_sequence c + Z.of_nat i + 1.
Proof.
  revert c i. induction events as [|e0 events IH]; intros c i H0 Hf Hi; [done|].
  cbn [seal_all] in Hi. pose proof (seal_link c e0) as Hl.
  destruct (seal c e0) as [e' c'] eqn:Es. destruct Hl as (_ & _ & Hs & _).
  assert (ch_sequence c' = ch_sequence c + 1) as Hc.
  { injection Es as _ <-. simpl. apply u64_add_small. unfold fits in *. simpl in Hf. lia. }
  specialize (IH c'). destruct (seal_all c' events) as [es c'']. simpl in *.
  destruct i as [|i]; simpl in Hi; [simplify_eq; lia|].
  rewrite (IH i) by (unfold fits in *; auto; lia). lia.
Qed.

(** ** Framing is unambiguous *)

(** A byte length Rust can represent. *)
Definition sized (o : option bytes) : Prop :=
  match o with Some b => Z.of_nat (length b) < 2 ^ 64 | None => True end.

Lemma frame_app_inj a b r r' :
  sized a → sized b → frame a ++ r = frame b ++ r' → a = b ∧ r = r'.
Proof.
  intros Ha Hb. destruct a as [a|], b as [b|]; cbn [frame app]; intros E;
    try (exfalso; vm_compute in E; discriminate E).
  2: { by injection E. }
  apply (f_equal tail) in E; cbn [tail] in E. rewrite <-!app_assoc in E.
  apply app_eq_length_inv in E as [El E]; [|by rewrite !length_le_bytes].
  apply le_bytes_inj in El; [|simpl in *; lia..].
  apply app_eq_length_inv in E as [-> ->]; [done|lia].
Qed.

Lemma frames_inj l l' :
  length l = length l' → Forall sized l → Forall sized l' →
  concat (map frame l) = concat (map frame l') → l = l'.
Proof.
  revert l'. induction l as [|a l IH]; intros [|b l'] Hlen Hl Hl' E; try done.
  inversion_clear Hl; inversion_clear Hl'. simpl in E.
  apply frame_app_inj in E as [-> E]; [|done..]. f_equal. auto.
Qed.

Definition event_sized (e : AuditEvent) : Prop := Forall sized (hash_fields_v2 e).

(** Two events agree on everything an auditor reads: every field, the
    timestamp as rendered, the metadata in canonical form. *)
Definition same_event (e e' : AuditEvent) : Prop :=
  ev_id e = ev_id e' ∧ to_rfc3339 (ev_timestamp e) = to_rfc3339 (ev_timestamp e') ∧
  ev_kind e = ev_kind e' ∧ ev_severity e = ev_severity e' ∧ ev_source e = ev_source e' ∧
  ev_method e = ev_method e' ∧ ev_path e = ev_path e' ∧
  ev_status_code e = ev_status_code e' ∧ ev_duration_ms e = ev_duration_ms e' ∧
  ev_service_name e = ev_service_name e' ∧
  canonical_json <$> ev_metadata e = canonical_json <$> ev_metadata e' ∧
  ev_previous_hash e = ev_previous_hash e' ∧ ev_sequence e = ev_sequence e'.

Lemma fmap_str_bytes_inj (o o' : option string) :
  str_bytes <$> o = str_bytes <$> o' → o = o'.
Proof. destruct o, o'; simpl; intros [=]; auto with acton f_equal. Qed.

Lemma fmap_le_bytes_inj n (w : Z) (o o' : option Z) :
  2 ^ w = 256 ^ Z.of_nat n →
  match o with Some x => fits w x | None => True end →
  match o' with Some x => fits w x | None => True end →
  le_bytes n <$> o = le_bytes n <$> o' → o = o'.
Proof.
  intros Ew Ho Ho' E. destruct o, o'; simpl in *; try done.
  apply (inj Some) in E. f_equal. eapply le_bytes_inj; [..|done]; unfold fits in *; lia.
Qed.

Lemma hash_fields_inj e e' :
  event_ok e → event_ok e' → hash_fields_v2 e = hash_fields_v2 e' → same_event e e'.
Proof.
  intros (_ & Hst & Hd & Hs) (_ & Hst' & Hd' & Hs') E.
  apply cons_eq_inv in E as [E1 E]; apply cons_eq_inv in E as [E2 E].
  apply cons_eq_inv in E as [E3%(inj Some) E]; apply cons_eq_inv in E as [E4%(inj Some) E].
  apply cons_eq_inv in E as [E5%(inj Some) E]; apply cons_eq_inv in E as [E6%(inj Some) E].
  apply cons_eq_inv in E as [E7%(inj Some) E]; apply cons_eq_inv in E as [E8 E].
  apply cons_eq_inv in E as [E9 E]; apply cons_eq_inv in E as [E10 E].
  apply cons_eq_inv in E as [E11 E]; apply cons_eq_inv in E as [E12 E].
  apply cons_eq_inv in E as [E13 E]; apply cons_eq_inv in E as [E14 E].
  apply cons_eq_inv in E as [E15 E]; apply cons_eq_inv in E as [E16 _].
  apply fmap_str_bytes_inj in E2, E8, E9, E11, E12, E13, E14.
  apply str_bytes_inj in E4, E5, E7. apply kind_to_string_inj in E5.
  assert (ev_severity e = ev_severity e').
  { apply as_syslog_severity_inj. apply cons_eq_inv in E6 as [E6 _]. apply (f_equal Z_of_byte) in E6.
    rewrite !Z_of_byte_of_Z in E6.
    pose proof (as_syslog_severity_bound (ev_severity e)).
    pose proof (as_syslog_severity_bound (ev_severity e')).
    rewrite !Z.mod_small in E6 by lia. done. }
  assert (ev_sequence e = ev_sequence e').
  { eapply le_bytes_inj with (n := 8%nat); [..|by apply (inj Some)]; done. }
  apply (fmap_le_bytes_inj 2 16) in E10; [|done..].
  apply (fmap_le_bytes_inj 8 64) in E15; [|done..].
  assert (ev_source e = ev_source e').
  { destruct (ev_source e), (ev_source e'); simpl in *; congruence. }
  rewrite !option_fmap_compose in E16. apply fmap_str_bytes_inj in E16.
  unfold same_event. tauto.
Qed.

(** ** The chain tip *)

(** After sealing at least one event the chain stands on the last one. *)
Lemma seal_all_tip c events e :
  ∃ l h, last (seal_all c (events ++ [e])).1 = Some l ∧ ev_hash l = Some h ∧
    (seal_all c (events ++ [e])).2 = mkAuditChain (Some h) (ev_sequence l) (ch_service_name c).
Proof.
  rewrite seal_all_app. revert c. induction events as [|e0 events IH]; intros c; cbn [seal_all].
  - eexists _, _. unfold seal; cbn. eauto.
  - pose proof (seal_link c e0) as Hl. destruct (seal c e0) as [e' c'].
    destruct Hl as (_ & _ & _ & Hn). destruct (IH c') as (l & h & H1 & H2 & H3).
    destruct (seal_all c' events) as [s1 c1]. cbn [seal_all] in *.
    destruct (seal c1 e) as [e'' c2]. cbn [fst snd app] in *.
    exists l, h. rewrite last_cons, H1, Hn in *. auto.
Qed.

(** ** Verification walks the links *)

Definition tail_hash (events : list AuditEvent) : option string := last events ≫= ev_hash.

Lemma verify_from_snoc p es e :
  verify_from p (es ++ [e]) = Ok tt ↔
  verify_from p es = Ok tt ∧
  ev_previous_hash e = (match es with [] => p | _ => tail_hash es end) ∧
  ev_hash e = Some (recompute_hash e).
Proof.
  revert p. induction es as [|e0 es IH]; intros p; cbn [verify_from app].
  { repeat case_decide; naive_solver. }
  repeat case_decide; [|naive_solver..].
  rewrite IH. unfold tail_hash. rewrite last_cons.
  destruct es as [|e1 es]; [naive_solver|].
  by destruct (last (e1 :: es)) eqn:El; [|by apply last_None in El].
Qed.

(** The event was sealed under the current scheme. *)
Definition is_v2 (e : AuditEvent) : Prop := ∃ h, ev_hash e = Some (HASH_V2_PREFIX +:+ h).

(** Two of the given events feed the hasher different bytes and get the same
    BLAKE3 digest. The colliding inputs are those of the two logs themselves,
    so the statement is not met by collisions that merely exist. *)
Definition blake3_collision (es es' : list AuditEvent) : Prop :=
  ∃ e e', e ∈ es ∧ e' ∈ es' ∧ hash_input_v2 e ≠ hash_input_v2 e' ∧
    blake3_hex (hash_input_v2 e) = blake3_hex (hash_input_v2 e').

Lemma blake3_collision_app es es' l l' :
  blake3_collision es es' → blake3_collision (es ++ l) (es' ++ l').
Proof. intros (e & e' & ? & ? & ?). exists e, e'. set_solver. Qed.

Lemma blake3_collision_snoc es es' e e' :
  blake3_collision [e] [e'] → blake3_collision (es ++ [e]) (es' ++ [e']).
Proof. intros (x & x' & ? & ? & ?). exists x, x'. set_solver. Qed.

Lemma v2_hash_determines e e' :
  event_ok e → event_ok e' → event_sized e → event_sized e' → is_v2 e →
  ev_hash e = Some (recompute_hash e) → ev_hash e' = Some (recompute_hash e') →
  ev_hash e = ev_hash e' → same_event e e' ∨ blake3_collision [e] [e'].
Proof.
  intros Ho Ho' Hs Hs' [h Hh] He He' E.
  rewrite (recompute_hash_v2 e h) in He by done.
  rewrite (recompute_hash_v2 e' h) in He' by congruence.
  rewrite He, He' in E. injection E as E%string_app_inj_l.
  destruct (decide (hash_input_v2 e = hash_input_v2 e')) as [Ei|Ni]; [left|right].
  - apply hash_fields_inj; auto. by apply frames_inj.
  - exists e, e'. set_solver.
Qed.

Lemma tail_hash_snoc es e : tail_hash (es ++ [e]) = ev_hash e.
Proof. unfold tail_hash. by rewrite last_snoc. Qed.

Lemma verified_prev_link es e :
  verify_from None (es ++ [e]) = Ok tt → ev_previous_hash e = tail_hash es.
Proof. intros (_ & -> & _)%verify_from_snoc. by destruct es. Qed.

(** C2: Tamper evidence of the v2 scheme. Take two logs of well-formed events with
    fields shorter than 2^64 bytes, one of them sealed under v2 throughout: if both
    verify and end in the same head hash, they hold the same events in the same
    number and order, unless two of their events are a BLAKE3 collision:
    different hasher inputs with the same digest. (The v1 scheme, which
    verification also accepts, does not delimit its fields: nothing is claimed
    for two logs that both use it.) *)
Theorem chain_tamper_evident es es' :
  Forall event_ok es → Forall event_ok es' →
  Forall event_sized es → Forall event_sized es' → Forall is_v2 es →
  verify_chain es = Ok tt → verify_chain es' = Ok tt →
  tail_hash es = tail_hash es' →
  Forall2 same_event es es' ∨ blake3_collision es es'.
Proof.
  rewrite !verify_chain_eq. revert es'.
  induction es as [|e es IH] using rev_ind; intros es' Ho Ho' Hs Hs' Hv Hc Hc' Ht.
  - destruct es' as [|e' es' _] using rev_ind; [auto|].
    apply verify_from_snoc in Hc' as (_ & _ & He'). by rewrite tail_hash_snoc, He' in Ht.
  - pose proof (verified_prev_link _ _ Hc) as Hp.
    apply verify_from_snoc in Hc as (Hc & _ & He). rewrite tail_hash_snoc in Ht.
    destruct es' as [|e' es' _] using rev_ind; [by rewrite He in Ht|].
    pose proof (verified_prev_link _ _ Hc') as Hp'.
    apply verify_from_snoc in Hc' as (Hc' & _ & He'). rewrite tail_hash_snoc in Ht.
    rewrite !Forall_app, !Forall_singleton in *. destruct_and!.
    destruct (v2_hash_determines e e') as [Hsame|?]; auto using blake3_collision_snoc.
    destruct (IH es') as [|?]; auto using blake3_collision_app.
    { destruct Hsame as (_&_&_&_&_&_&_&_&_&_&_&Hpe&_). congruence. }
    left. by apply Forall2_app; [|constructor].
Qed.

(** A chain sealed from genesis verifies. *)
Theorem chain_seal_verifies service events :
  verify_chain (seal_all (chain_new service) events).1 = Ok tt.
Proof. rewrite verify_chain_eq. apply (verify_from_sealed (chain_new service)). Qed.

Lemma seal_all_resume service es1 e es2 l h :
  last (seal_all (chain_new service) (es1 ++ [e])).1 = Some l → ev_hash l = Some h →
  (seal_all (chain_new service) (es1 ++ [e])).1 ++
    (seal_all (chain_resume service h (ev_sequence l)) es2).1 =
  (seal_all (chain_new service) ((es1 ++ [e]) ++ es2)).1.
Proof.
  intros Hl Hh. rewrite (seal_all_app _ (es1 ++ [e])).
  destruct (seal_all_tip (chain_new service) es1 e) as (l' & h' & Hl' & Hh' & Ht).
  destruct (seal_all (chain_new service) (es1 ++ [e])) as [s1 c1]; simpl in *. simplify_eq.
  unfold chain_resume. by destruct (seal_all _ es2).
Qed.

(** Resuming from the last stored event continues the same chain: sealing
    across a restart gives exactly the log sealed without it. *)
Theorem chain_resume_continues service es1 e es2 l h :
  last (seal_all (chain_new service) (es1 ++ [e])).1 = Some l → ev_hash l = Some h →
  (seal_all (chain_new service) (es1 ++ [e])).1 ++
    (seal_all (chain_resume service h (ev_sequence l)) es2).1 =
  (seal_all (chain_new service) ((es1 ++ [e]) ++ es2)).1.
Proof. apply seal_all_resume. Qed.

(** C40: [verify_chain] expects its first event to be a genesis event: the
    events of an intact chain from any later sequence number on are reported
    as broken at their first event. This is what the storage backends'
    [verify_chain(from_sequence)] passes it, and what is left after a purge. *)
Theorem verify_chain_suffix_rejected service es1 e es2 e' :
  fits 64 (Z.of_nat (length ((es1 ++ [e]) ++ e' :: es2))) →
  ∃ h, verify_chain (drop (S (length es1)) (seal_all (chain_new service) ((es1 ++ [e]) ++ e' :: es2)).1)
       = Err (mkChainVerificationError (Z.of_nat (S (length es1)) + 1) None (Some h)).
Proof.
  intros Hf. rewrite verify_chain_eq.
  pose proof (seal_all_sequence (chain_new service) ((es1 ++ [e]) ++ e' :: es2) (S (length es1))) as Hseq.
  rewrite seal_all_app in *.
  destruct (seal_all_tip (chain_new service) es1 e) as (l & h & Hl & Hh & Ht).
  pose proof (length_seal_all (chain_new service) (es1 ++ [e])) as Hlen.
  destruct (seal_all (chain_new service) (es1 ++ [e])) as [s1 c1]. cbn [fst snd] in *. subst c1.
  rewrite length_app in Hlen; simpl in Hlen.
  cbn [seal_all] in *. destruct (seal _ e') as [e'' c2] eqn:Es. injection Es as Es _.
  destruct (seal_all c2 es2) as [s2 c3]. cbn [fst snd] in *.
  rewrite lookup_app_r in Hseq by lia. replace (S (length es1) - length s1)%nat with 0%nat in Hseq by lia.
  specialize (Hseq e'' ltac:(simpl; lia)). rewrite drop_app_length' by lia.
  exists h. cbn [verify_from]. subst e''. rewrite decide_False by done.
  rewrite Hseq; [done|exact Hf|done].
Qed.

(** ** Canonical JSON does not depend on key order *)

(** Two JSON values that differ only in the order of object entries, at any
    depth. [serde_json]'s maps have unique keys. *)
Inductive json_reorder : json → json → Prop :=
| jr_refl v : json_reorder v v
| jr_trans v1 v2 v3 : json_reorder v1 v2 → json_reorder v2 v3 → json_reorder v1 v3
| jr_perm es es' : NoDup es.*1 → es ≡ₚ es' → json_reorder (JObject es) (JObject es')
| jr_item pre v v' post : json_reorder v v' →
    json_reorder (JArray (pre ++ v :: post)) (JArray (pre ++ v' :: post))
| jr_entry pre k v v' post : json_reorder v v' →
    json_reorder (JObject (pre ++ (k, v) :: post)) (JObject (pre ++ (k, v') :: post)).

Lemma sort_perm (ks ks' : list string) :
  ks ≡ₚ ks' → merge_sort String.le ks = merge_sort String.le ks'.
Proof.
  intros Hp. apply (Sorted_unique String.le); [apply Sorted_merge_sort; apply _..|].
  by rewrite !merge_sort_Permutation.
Qed.

Lemma assoc_None {A} k (l : list (string * A)) : assoc k l = None ↔ k ∉ l.*1.
Proof.
  induction l as [|[k' a] l IH]; simpl; [set_solver|].
  destruct (String.eqb_spec k k'); set_solver.
Qed.

Lemma assoc_perm {A} k (l l' : list (string * A)) :
  NoDup l.*1 → l ≡ₚ l' → assoc k l = assoc k l'.
Proof.
  intros Hn Hp. induction Hp as [|[k0 a] l l' Hp IH|[k0 a] [k1 b] l|l1 l2 l3 H1 IH1 H2 IH2];
    simpl in *; [done|..].
  - apply NoDup_cons in Hn as [_ Hn]. by destruct (String.eqb k k0); auto.
  - apply NoDup_cons in Hn as [Hn _].
    destruct (String.eqb_spec k k1), (String.eqb_spec k k0); set_solver.
  - rewrite IH1 by done. apply IH2. by rewrite <-H1.
Qed.

Lemma rendered_keys (es : list (string * json)) :
  map fst (map (fun kv => (fst kv, canonical_json (snd kv))) es) = es.*1.
Proof. by induction es; simpl; f_equal. Qed.

Lemma canonical_json_reorder v v' : json_reorder v v' → canonical_json v = canonical_json v'.
Proof.
  induction 1 as [|v1 v2 v3 _ IH1 _ IH2|es es' Hn Hp|pre v v' post _ IH|pre k v v' post _ IH];
    [done|congruence|..]; cbn [canonical_json].
  - rewrite !rendered_keys, (sort_perm es.*1 es'.*1) by (by rewrite Hp).
    do 2 f_equal. f_equal. apply map_ext. intros key.
    erewrite assoc_perm; [done|..].
    + change (NoDup (map fst (map (fun kv => (fst kv, canonical_json (snd kv))) es))).
      by rewrite rendered_keys.
    + by apply Permutation_map.
  - by rewrite !map_app; cbn [map]; rewrite IH.
  - by rewrite !map_app; cbn [map fst snd]; rewrite IH.
Qed.

(** A store that re-normalizes the key order of the metadata does not
    break the chain: the event still has the hash it was sealed with. *)
Theorem hash_metadata_order_independent e m m' :
  json_reorder m m' →
  compute_hash_v2 (with_metadata e m) = compute_hash_v2 (with_metadata e m').
Proof.
  intros E%canonical_json_reorder. unfold compute_hash_v2, hash_input_v2, hash_fields_v2.
  unfold with_metadata, set_metadata; cbn -[canonical_json le_bytes]. by rewrite E.
Qed.
End Chain.

(** ** Witnesses *)

(** A concrete environment: the identity as digest, decimal timestamps. *)
Definition witness_env : ChainEnv := {|
  blake3_hex := String.string_of_list_ascii;
  to_rfc3339 := fun t => if t <? 1000 then "1970-01-01" else "later";
  scalar_to_string := fun v => match v with JString s => s | JBool true => "true" | _ => "null" end;
|}.

Definition witness_id : bytes := replicate 16 (byte_of_Z 7).
Definition witness_event : AuditEvent :=
  with_http (AuditEvent_new witness_id 5 HttpRequest SevInformational "svc")
    "GET" "/health" (Some 200) (Some 12).
Definition witness_chain : list AuditEvent :=
  (@seal_all witness_env (chain_new "svc") [witness_event; witness_event]).1.

Lemma witness_chain_ok :
  Forall event_ok witness_chain ∧ Forall (@event_sized witness_env) witness_chain ∧
  Forall is_v2 witness_chain.
Proof.
  repeat split; repeat constructor; try (vm_compute; congruence);
    try (eexists; vm_compute; reflexivity).
Qed.

Lemma chain_tamper_evident_witness :
  Forall2 (@same_event witness_env) witness_chain witness_chain ∨
  @blake3_collision witness_env witness_chain witness_chain.
Proof.
  destruct witness_chain_ok as (Ho & Hs & Hv).
  apply (@chain_tamper_evident witness_env witness_chain witness_chain Ho Ho Hs Hs Hv);
    vm_compute; reflexivity.
Defined.

Lemma chain_resume_continues_witness :
  let s := (@seal_all witness_env (chain_new "svc") ([] ++ [witness_event])).1 in
  ∃ l h, last s = Some l ∧ ev_hash l = Some h ∧
  s ++ (@seal_all witness_env (chain_resume "svc" h (ev_sequence l)) [witness_event]).1 =
  (@seal_all witness_env (chain_new "svc") (([] ++ [witness_event]) ++ [witness_event])).1.
Proof.
  eexists _, _. split; [reflexivity|]. split; [reflexivity|].
  apply (@chain_resume_continues witness_env "svc" [] witness_event [witness_event]); reflexivity.
Defined.

Lemma verify_chain_suffix_rejected_witness :
  ∃ h, @verify_chain witness_env (drop 1 witness_chain)
       = Err (mkChainVerificationError 2 None (Some h)).
Proof.
  apply (@verify_chain_suffix_rejected witness_env "svc" [] witness_event [] witness_event).
  vm_compute. split; [discriminate|reflexivity].
Defined.

Lemma hash_metadata_order_independent_witness :
  let m := JObject [("b", JNull); ("a", JBool true)] in
  let m' := JObject [("a", JBool true); ("b", JNull)] in
  @compute_hash_v2 witness_env (with_metadata witness_event m) =
  @compute_hash_v2 witness_env (with_metadata witness_event m').
Proof.
  apply (@hash_metadata_order_independent witness_env).
  apply jr_perm; [|apply perm_swap]. repeat constructor; set_solver.
Defined.
