(* ===== verification/AuditStorage.v ===== *)
(** * Audit storage

    [src/acton-service/src/audit/storage/]: the parsers shared by the
    backends, the [AuditStorage] trait with its contract, the PostgreSQL
    backend ([pg.rs]) as operations on a table, and the ClickHouse row
    conversions ([clickhouse_impl.rs]). What a database does to a stored value
    and the text of its errors are parameters ([PgEnv], [ClickHouseEnv]). *)

From S2P Require Import Prelude FrameworkError AuditEvent AuditChain.

Local Open Scope string_scope.
Local Open Scope Z_scope.
Local Open Scope list_scope.

(** ** Parsing stored kinds and severities *)

Definition looks_like_framework_kind (s : string) : bool :=
  starts_with s "auth." || starts_with s "http." ||
  starts_with s "account." || starts_with s "config.".

(** [parse_custom_kind] returns the name; the warning it logs for a string
    [looks_like_framework_kind] accepts is the second component. *)
Definition parse_custom_kind (s : string) : string * bool :=
  (default s (strip_prefix "custom." s), looks_like_framework_kind s).

(** The [match] on the stored kind, the same in all backends. *)
Definition parse_event_kind (s : string) : AuditEventKind :=
  match
    match_str
      [ ("auth.login.success", AuthLoginSuccess);
        ("auth.login.failed", AuthLoginFailed);
        ("auth.token.missing", AuthTokenMissing);
        ("auth.token.invalid", AuthTokenInvalid);
        ("auth.logout", AuthLogout);
        ("auth.token.refresh", AuthTokenRefresh);
        ("auth.token.revoked", AuthTokenRevoked);
        ("auth.password.changed", AuthPasswordChanged);
        ("auth.apikey.created", AuthApiKeyCreated);
        ("auth.apikey.revoked", AuthApiKeyRevoked);
        ("auth.oauth.callback", AuthOAuthCallback);
        ("auth.permission.denied", AuthPermissionDenied);
        ("auth.key.rotated", AuthKeyRotated);
        ("auth.key.retired", AuthKeyRetired);
        ("auth.key.rotation_failed", AuthKeyRotationFailed);
        ("auth.account.locked", AuthAccountLocked);
        ("auth.account.unlocked", AuthAccountUnlocked);
        ("account.created", AccountCreated);
        ("account.disabled", AccountDisabled);
        ("account.enabled", AccountEnabled);
        ("account.locked", AccountLocked);
        ("account.unlocked", AccountUnlocked);
        ("account.expired", AccountExpired);
        ("account.deleted", AccountDeleted);
        ("account.updated", AccountUpdated);
        ("config.loaded", ConfigLoaded);
        ("config.drift_detected", ConfigDriftDetected);
        ("http.request", HttpRequest);
        ("http.request.denied", HttpRequestDenied) ] s
  with
  | Some k => k
  | None => Custom (parse_custom_kind s).1
  end.

Definition parse_severity (val : Z) : AuditSeverity :=
  match val with
  | 0 => SevEmergency | 1 => SevAlert | 2 => SevCritical | 3 => SevError
  | 4 => SevWarning | 5 => SevNotice | 7 => SevDebug | _ => SevInformational
  end.

Lemma parse_event_kind_to_string k : parse_event_kind (kind_to_string k) = k.
Proof. by destruct k. Qed.

Lemma parse_severity_syslog s : parse_severity (as_syslog_severity s) = s.
Proof. by destruct s. Qed.

(** ** The storage trait *)

(** [trait AuditStorage]; a call returns its result and the new backend state. *)
Class AuditStorage (S : Type) := {
  st_append : AuditEvent → S → result unit Error * S;
  st_latest : S → result (option AuditEvent) Error * S;
  st_query_range : Z → Z → nat → S → result (list AuditEvent) Error * S;
  st_query_before : Z → nat → S → result (list AuditEvent) Error * S;
  st_purge_before : Z → S → result Z Error * S;
  st_verify_chain : Z → S → result (option Z) Error * S;
  st_ensure_ready : S → result unit Error * S;
}.

(** Events with timestamps before the cutoff. *)
Definition before (cutoff : Z) (e : AuditEvent) : Prop := ev_timestamp e < cutoff.

#[global] Instance before_dec cutoff e : Decision (before cutoff e).
Proof. unfold before. apply _. Defined.

(** The trait's documented contract, over the stored log in sequence order. *)
Class AuditStorageLaws (S : Type) `{AuditStorage S} := {
  st_inv : S → Prop;
  st_contents : S → list AuditEvent;
  st_query_before_ok cutoff limit s es s' :
    st_inv s → st_query_before cutoff limit s = (Ok es, s') →
    st_inv s' ∧ st_contents s' = st_contents s ∧
    es = take limit (filter (before cutoff) (st_contents s));
  st_query_before_err cutoff limit s e s' :
    st_inv s → st_query_before cutoff limit s = (Err e, s') →
    st_inv s' ∧ st_contents s' = st_contents s;
  st_purge_before_ok cutoff s n s' :
    st_inv s → st_purge_before cutoff s = (Ok n, s') →
    st_inv s' ∧ st_contents s' = filter (fun e => ¬ before cutoff e) (st_contents s);
  st_purge_before_err cutoff s e s' :
    st_inv s → st_purge_before cutoff s = (Err e, s') →
    st_inv s' ∧ st_contents s' = st_contents s;
}.

(** ** PostgreSQL rows *)

(** What the [TIMESTAMPTZ] and [JSONB] columns keep of a value bound to them,
    and the text of a constraint violation. *)
Class PgEnv := {
  pg_timestamptz : Z → Z;
  pg_jsonb : json → json;
  pg_constraint_msg : string;
}.

Record AuditEventRow := mkAuditEventRow {
  row_id : bytes;
  row_timestamp : Z;
  row_kind : string;
  row_severity : Z;
  row_source_ip : option string;
  row_source_user_agent : option string;
  row_source_subject : option string;
  row_source_request_id : option string;
  row_method : option string;
  row_path : option string;
  row_status_code : option Z;
  row_duration_ms : option Z;
  row_service_name : string;
  row_metadata : option json;
  row_hash : option string;
  row_previous_hash : option string;
  row_sequence : Z;
}.

(** The values bound by [PgAuditStorage::append], as the columns keep them. *)
Definition pg_insert_row `{PgEnv} (e : AuditEvent) : AuditEventRow :=
  mkAuditEventRow (ev_id e) (pg_timestamptz (ev_timestamp e)) (kind_to_string (ev_kind e))
    (as_signed 16 (as_syslog_severity (ev_severity e)))
    (src_ip (ev_source e)) (src_user_agent (ev_source e))
    (src_subject (ev_source e)) (src_request_id (ev_source e))
    (ev_method e) (ev_path e)
    (as_signed 16 <$> ev_status_code e) (as_signed 64 <$> ev_duration_ms e)
    (ev_service_name e) (pg_jsonb <$> ev_metadata e)
    (ev_hash e) (ev_previous_hash e) (as_signed 64 (ev_sequence e)).

(** [From<AuditEventRow> for AuditEvent]. *)
Definition pg_row_to_event (row : AuditEventRow) : AuditEvent :=
  mkAuditEvent (row_id row) (row_timestamp row)
    (parse_event_kind (row_kind row)) (parse_severity (row_severity row))
    (mkAuditSource (row_source_ip row) (row_source_user_agent row)
       (row_source_subject row) (row_source_request_id row))
    (row_method row) (row_path row)
    (as_unsigned 16 <$> row_status_code row) (as_unsigned 64 <$> row_duration_ms row)
    (row_service_name row) (row_metadata row) (row_hash row)
    (row_previous_hash row) (as_unsigned 64 (row_sequence row)).

Lemma as_unsigned_signed_opt w (o : option Z) :
  0 < w → match o with Some x => fits w x | None => True end →
  as_unsigned w <$> (as_signed w <$> o) = o.
Proof. intros Hw Ho. destruct o; simpl; [f_equal; by apply as_unsigned_signed|done]. Qed.

(** What reading a stored event back returns: the same event with the
    timestamp and metadata the columns kept. *)
Lemma pg_row_roundtrip `{PgEnv} e :
  event_ok e →
  pg_row_to_event (pg_insert_row e) =
  mkAuditEvent (ev_id e) (pg_timestamptz (ev_timestamp e)) (ev_kind e) (ev_severity e)
    (ev_source e) (ev_method e) (ev_path e) (ev_status_code e) (ev_duration_ms e)
    (ev_service_name e) (pg_jsonb <$> ev_metadata e) (ev_hash e) (ev_previous_hash e)
    (ev_sequence e).
Proof.
  intros (_ & Hst & Hd & Hs). unfold pg_row_to_event, pg_insert_row; cbn -[as_signed as_unsigned].
  rewrite parse_event_kind_to_string, !as_unsigned_signed_opt, as_unsigned_signed by (done || lia).
  f_equal; [|by destruct (ev_source e)]. by destruct (ev_severity e).
Qed.

(** ** Hashes survive the PostgreSQL round trip *)

Section PgHash.
Context `{PgEnv} `{ChainEnv}.

(** The columns lose nothing the hash covers: the timestamp comes back as it
    was, JSONB only reorders object keys. PostgreSQL keeps microseconds, so this
    is not so of an event whose time, as [AuditEvent::new] takes it from the clock,
    is finer ([AuditSystem] states what verification then says). *)
Definition pg_faithful (e : AuditEvent) : Prop :=
  pg_timestamptz (ev_timestamp e) = ev_timestamp e ∧
  match ev_metadata e with Some m => json_reorder m (pg_jsonb m) | None => True end.

Lemma pg_roundtrip_recompute e :
  event_ok e → pg_faithful e →
  recompute_hash (pg_row_to_event (pg_insert_row e)) = recompute_hash e.
Proof.
  intros Hok [Ht Hm]. rewrite pg_row_roundtrip by done.
  unfold recompute_hash, compute_hash_v1, compute_hash_v2, hash_input_v2, hash_fields_v2;
    cbn -[canonical_json le_bytes starts_with]. rewrite Ht.
  by destruct (ev_metadata e) as [m|]; cbn -[canonical_json le_bytes starts_with];
    [rewrite <-(canonical_json_reorder m) by done|].
Qed.

Lemma verify_chain_roundtrip es :
  Forall event_ok es → Forall pg_faithful es →
  verify_chain (map (fun e => pg_row_to_event (pg_insert_row e)) es) = verify_chain es.
Proof.
  intros Hok Hf. rewrite !verify_chain_eq. generalize (@None string).
  induction es as [|e es IH]; intros p; [done|].
  inversion_clear Hok; inversion_clear Hf. cbn [map verify_from].
  rewrite pg_roundtrip_recompute by done. rewrite pg_row_roundtrip by done; cbn. by rewrite IH.
Qed.

(** A log written to and read back from PostgreSQL verifies exactly when
    the original does, whatever key order JSONB returns, provided the
    timestamps come back at the precision they were hashed with. *)
Theorem pg_roundtrip_verifies es :
  Forall event_ok es → Forall pg_faithful es →
  verify_chain (map (fun e => pg_row_to_event (pg_insert_row e)) es) = verify_chain es.
Proof. apply verify_chain_roundtrip. Qed.
End PgHash.

(** ** ClickHouse rows *)

Class ClickHouseEnv := {
  (** [serde_json::Value::to_string] and [serde_json::from_str]. *)
  json_to_string : json → string;
  json_from_str : string → option json;
  (** [DateTime::from_timestamp_millis]. *)
  from_timestamp_millis : Z → option Z;
}.

(** [AuditInsertRow], and [AuditQueryRow], which has the same columns. *)
Record AuditInsertRow := mkAuditInsertRow {
  ins_id : bytes;
  ins_timestamp : Z;
  ins_kind : string;
  ins_severity : Z;
  ins_source_ip : option string;
  ins_source_user_agent : option string;
  ins_source_subject : option string;
  ins_source_request_id : option string;
  ins_method : option string;
  ins_path : option string;
  ins_status_code : option Z;
  ins_duration_ms : option Z;
  ins_service_name : string;
  ins_metadata : option string;
  ins_hash : string;
  ins_previous_hash : option string;
  ins_sequence : Z;
}.

(** [DateTime::timestamp_millis]: nanoseconds rounded down to milliseconds. *)
Definition timestamp_millis (t : Z) : Z := t / 1000000.

(** [From<&AuditEvent> for AuditInsertRow]. *)
Definition ch_insert_row `{ClickHouseEnv} (e : AuditEvent) : AuditInsertRow :=
  mkAuditInsertRow (ev_id e) (timestamp_millis (ev_timestamp e)) (kind_to_string (ev_kind e))
    (as_syslog_severity (ev_severity e))
    (src_ip (ev_source e)) (src_user_agent (ev_source e))
    (src_subject (ev_source e)) (src_request_id (ev_source e))
    (ev_method e) (ev_path e) (ev_status_code e) (as_signed 64 <$> ev_duration_ms e)
    (ev_service_name e) (json_to_string <$> ev_metadata e)
    (default "" (ev_hash e)) (ev_previous_hash e) (ev_sequence e).

(** [From<AuditQueryRow> for AuditEvent]; [now] is what [Utc::now] returns. *)
Definition ch_row_to_event `{ClickHouseEnv} (now : Z) (row : AuditInsertRow) : AuditEvent :=
  mkAuditEvent (ins_id row) (default now (from_timestamp_millis (ins_timestamp row)))
    (parse_event_kind (ins_kind row)) (parse_severity (ins_severity row))
    (mkAuditSource (ins_source_ip row) (ins_source_user_agent row)
       (ins_source_subject row) (ins_source_request_id row))
    (ins_method row) (ins_path row) (ins_status_code row)
    (as_unsigned 64 <$> ins_duration_ms row)
    (ins_service_name row) (ins_metadata row ≫= json_from_str) (Some (ins_hash row))
    (ins_previous_hash row) (ins_sequence row).

Section ClickHouseHash.
Context `{ClickHouseEnv} `{ChainEnv}.

Lemma ch_timestamp now e :
  from_timestamp_millis (timestamp_millis (ev_timestamp e)) =
    Some (timestamp_millis (ev_timestamp e) * 1000000) →
  ev_timestamp (ch_row_to_event now (ch_insert_row e)) =
    timestamp_millis (ev_timestamp e) * 1000000.
Proof. intros Ht. simpl. by rewrite Ht. Qed.

(** An event sealed at a time that is not a whole millisecond does not
    verify after ClickHouse has stored it: the row keeps milliseconds while
    the hash covers the full timestamp (unless the sealed and the stored
    event are a BLAKE3 collision). *)
Theorem clickhouse_roundtrip_breaks_hash now c e :
  let sealed := (seal c e).1 in
  let stored := ch_row_to_event now (ch_insert_row sealed) in
  event_sized sealed → event_sized stored →
  from_timestamp_millis (timestamp_millis (ev_timestamp e)) =
    Some (timestamp_millis (ev_timestamp e) * 1000000) →
  to_rfc3339 (timestamp_millis (ev_timestamp e) * 1000000) ≠ to_rfc3339 (ev_timestamp e) →
  ev_hash stored ≠ Some (recompute_hash stored) ∨ blake3_collision [sealed] [stored].
Proof.
  intros sealed stored Hs Hs' Ht Hne.
  assert (ev_hash stored = Some (compute_hash_v2 sealed)) as Hh.
  { unfold stored, sealed, seal; simpl. by rewrite compute_hash_v2_hash. }
  assert (recompute_hash stored = compute_hash_v2 stored) as -> by (by eapply recompute_hash_v2).
  rewrite Hh. unfold compute_hash_v2.
  destruct (decide (blake3_hex (hash_input_v2 sealed) = blake3_hex (hash_input_v2 stored)))
    as [E|N]; [right|left; intros [= E%string_app_inj_l]; done].
  exists sealed, stored. split_and!; [by left|by left| |done].
  intros Ei. apply frames_inj in Ei; [|done..].
  assert (hash_fields_v2 sealed !! 3%nat = hash_fields_v2 stored !! 3%nat) as E3 by (by rewrite Ei).
  cbn -[le_bytes] in E3. rewrite Ht in E3. by injection E3 as ?%str_bytes_inj.
Qed.
End ClickHouseHash.

(** ** The PostgreSQL backend *)

(** The [audit_events] table, whether the immutability rules are in place,
    and how the statements still to be executed will fare: [Some msg] is a
    statement that fails with that message, [None] one that runs, and a
    statement beyond the list runs. *)
Record PgDb := mkPgDb {
  pg_rows : list AuditEventRow;
  pg_no_update : bool;
  pg_no_delete : bool;
  pg_faults : list (option string);
}.

Definition pg_set_rows (db : PgDb) (rows : list AuditEventRow) : PgDb :=
  mkPgDb rows (pg_no_update db) (pg_no_delete db) (pg_faults db).
Definition pg_set_no_delete (db : PgDb) (b : bool) : PgDb :=
  mkPgDb (pg_rows db) (pg_no_update db) b (pg_faults db).

(** Run one statement: its failure, if any, and the database without it. *)
Definition pg_exec (db : PgDb) : option string * PgDb :=
  match pg_faults db with
  | [] => (None, db)
  | f :: fs => (f, mkPgDb (pg_rows db) (pg_no_update db) (pg_no_delete db) fs)
  end.

Definition seq_le (r r' : AuditEventRow) : Prop := row_sequence r ≤ row_sequence r'.

#[global] Instance seq_le_dec r r' : Decision (seq_le r r').
Proof. unfold seq_le. apply _. Defined.
#[global] Instance seq_le_trans : Transitive seq_le.
Proof. intros r1 r2 r3. unfold seq_le. lia. Qed.
#[global] Instance seq_le_total : Total seq_le.
Proof. intros r1 r2. unfold seq_le. lia. Qed.

(** [ORDER BY sequence ASC]. *)
Definition order_by_sequence (rows : list AuditEventRow) : list AuditEventRow :=
  merge_sort seq_le rows.

(** A failed statement's error. *)
Definition pg_failed {A} (what msg : string) : result A Error :=
  Err (Error_Internal (what +:+ msg)).

Section PgStorage.
Context `{PgEnv} `{ChainEnv}.

(** The table's constraints: primary key [id], unique [sequence], non-null [hash]. *)
Definition pg_violates (db : PgDb) (row : AuditEventRow) : bool :=
  bool_decide (row_id row ∈ row_id <$> pg_rows db) ||
  bool_decide (row_sequence row ∈ row_sequence <$> pg_rows db) ||
  bool_decide (row_hash row = None).

Definition pg_append (e : AuditEvent) (db : PgDb) : result unit Error * PgDb :=
  let '(fault, db) := pg_exec db in
  let row := pg_insert_row e in
  match fault with
  | Some msg => (pg_failed "Failed to append audit event: " msg, db)
  | None =>
      if pg_violates db row
      then (pg_failed "Failed to append audit event: " pg_constraint_msg, db)
      else (Ok tt, pg_set_rows db (pg_rows db ++ [row]))
  end.

(** A [SELECT]: a failed statement or the rows of [query], converted. *)
Definition pg_select (what : string) (query : list AuditEventRow → list AuditEventRow)
    (db : PgDb) : result (list AuditEvent) Error * PgDb :=
  let '(fault, db) := pg_exec db in
  match fault with
  | Some msg => (pg_failed what msg, db)
  | None => (Ok (map pg_row_to_event (query (pg_rows db))), db)
  end.

Definition pg_latest (db : PgDb) : result (option AuditEvent) Error * PgDb :=
  let '(r, db) := pg_select "Failed to fetch latest audit event: "
                    (fun rows => take 1 (reverse (order_by_sequence rows))) db in
  (match r with Ok es => Ok (head es) | Err e => Err e end, db).

Definition pg_query_range (from to : Z) (limit : nat) (db : PgDb)
    : result (list AuditEvent) Error * PgDb :=
  pg_select "Failed to query audit events: "
    (fun rows => take limit (order_by_sequence
       (filter (fun r => from ≤ row_timestamp r ∧ row_timestamp r ≤ to) rows))) db.

Definition pg_query_before (cutoff : Z) (limit : nat) (db : PgDb)
    : result (list AuditEvent) Error * PgDb :=
  pg_select "Failed to query audit events before cutoff: "
    (fun rows => take limit (order_by_sequence
       (filter (fun r => row_timestamp r < cutoff) rows))) db.

(** [purge_before]: drop the rule, delete, reinstate the rule whatever the
    delete did. [DELETE] touches nothing while the rule is in place. *)
Definition pg_purge_before (cutoff : Z) (db : PgDb) : result Z Error * PgDb :=
  let '(drop_fault, db) := pg_exec db in
  match drop_fault with
  | Some msg => (pg_failed "Failed to drop audit_no_delete rule: " msg, db)
  | None =>
      let db := pg_set_no_delete db false in
      let '(delete_fault, db) := pg_exec db in
      let '(result, db) :=
        match delete_fault with
        | Some msg => (pg_failed "Failed to purge audit events: " msg, db)
        | None =>
            let kept := filter (fun r => ¬ row_timestamp r < cutoff) (pg_rows db) in
            (Ok (Z.of_nat (length (pg_rows db)) - Z.of_nat (length kept)), pg_set_rows db kept)
        end in
      let '(reinstate_fault, db) := pg_exec db in
      match reinstate_fault with
      | Some _ => (result, db)
      | None => (result, pg_set_no_delete db true)
      end
  end.

Definition pg_verify_chain (from_sequence : Z) (db : PgDb) : result (option Z) Error * PgDb :=
  let '(r, db) := pg_select "Failed to fetch audit events for verification: "
                    (fun rows => order_by_sequence
                       (filter (fun row => as_signed 64 from_sequence ≤ row_sequence row) rows)) db in
  (match r with
   | Ok events =>
       match verify_chain events with Ok _ => Ok None | Err e => Ok (Some (cve_sequence e)) end
   | Err e => Err e
   end, db).

#[global] Instance PgAuditStorage : AuditStorage PgDb := {|
  st_append := pg_append;
  st_latest := pg_latest;
  st_query_range := pg_query_range;
  st_query_before := pg_query_before;
  st_purge_before := pg_purge_before;
  st_verify_chain := pg_verify_chain;
  st_ensure_ready := fun db => (Ok tt, db);
|}.

(** *** The table invariant and the trait's contract *)

Definition pg_inv (db : PgDb) : Prop := NoDup (row_sequence <$> pg_rows db).

Definition pg_contents (db : PgDb) : list AuditEvent :=
  map pg_row_to_event (order_by_sequence (pg_rows db)).

Lemma pg_exec_rows db f db' :
  pg_exec db = (f, db') → pg_rows db' = pg_rows db ∧ pg_no_delete db' = pg_no_delete db.
Proof. unfold pg_exec. destruct (pg_faults db); by intros [= <- <-]. Qed.

Lemma order_by_sequence_filter (P : AuditEventRow → Prop) `{∀ r, Decision (P r)} rows :
  NoDup (row_sequence <$> rows) →
  order_by_sequence (filter P rows) = filter P (order_by_sequence rows).
Proof.
  intros Hn. unfold order_by_sequence. apply (Sorted_unique_strong seq_le).
  - intros r r' Hr Hr' Hle Hge.
    rewrite merge_sort_Permutation, list_elem_of_filter in Hr.
    rewrite list_elem_of_filter, merge_sort_Permutation in Hr'.
    destruct Hr as [_ Hr], Hr' as [_ Hr']. unfold seq_le in *.
    apply (NoDup_fmap_elem_inj row_sequence rows); [done..|lia].
  - apply Sorted_merge_sort; apply _.
  - apply StronglySorted_Sorted, StronglySorted_filter, StronglySorted_merge_sort; apply _.
  - by rewrite !merge_sort_Permutation.
Qed.

Lemma filter_row_to_event (P : AuditEvent → Prop) (Q : AuditEventRow → Prop)
    `{∀ e, Decision (P e)} `{∀ r, Decision (Q r)} rows :
  (∀ r, P (pg_row_to_event r) ↔ Q r) →
  filter P (map pg_row_to_event rows) = map pg_row_to_event (filter Q rows).
Proof.
  intros HPQ. induction rows as [|r rows IH]; [done|]. cbn [map]. rewrite !filter_cons, IH.
  repeat case_decide; naive_solver.
Qed.

Lemma pg_query_before_spec cutoff limit db es db' :
  pg_inv db → pg_query_before cutoff limit db = (Ok es, db') →
  pg_rows db' = pg_rows db ∧ es = take limit (filter (before cutoff) (pg_contents db)).
Proof.
  intros Hi. unfold pg_query_before, pg_select, pg_contents.
  destruct (pg_exec db) as [[f|] db1] eqn:E; [done|]; apply pg_exec_rows in E as [E _].
  intros [= <- <-]. rewrite E. split; [done|].
  rewrite order_by_sequence_filter by done.
  rewrite (filter_row_to_event _ (fun r => row_timestamp r < cutoff)) by done.
  symmetry. apply firstn_map.
Qed.

(** Purging keeps the rows or filters them, depending on the delete alone. *)
Lemma pg_purge_before_rows cutoff db r db' :
  pg_purge_before cutoff db = (r, db') →
  pg_rows db' = if is_ok r then filter (fun row => ¬ row_timestamp row < cutoff) (pg_rows db)
                else pg_rows db.
Proof.
  unfold pg_purge_before. destruct (pg_exec db) as [[f|] db1] eqn:E1; apply pg_exec_rows in E1 as [E1 _].
  { by intros [= <- <-]. }
  destruct (pg_exec (pg_set_no_delete db1 false)) as [[f|] db2] eqn:E2; apply pg_exec_rows in E2 as [E2 _];
    [destruct (pg_exec db2) as [[f'|] db3] eqn:E3
    |destruct (pg_exec (pg_set_rows db2 _)) as [[f'|] db3] eqn:E3];
    apply pg_exec_rows in E3 as [E3 _]; intros [= <- <-]; simpl in *; congruence.
Qed.

Lemma pg_inv_filter db db' (P : AuditEventRow → Prop) `{∀ r, Decision (P r)} :
  pg_inv db → pg_rows db' = filter P (pg_rows db) → pg_inv db'.
Proof.
  unfold pg_inv. intros Hi ->. eapply sublist_NoDup; [exact Hi|]. apply fmap_sublist, sublist_filter.
Qed.

(** The PostgreSQL backend meets the trait's contract. *)
#[global] Program Instance PgAuditStorageLaws : AuditStorageLaws PgDb := {|
  st_inv := pg_inv;
  st_contents := pg_contents;
|}.
Next Obligation.
  intros cutoff limit s es s' Hi Hq. apply pg_query_before_spec in Hq as [Hr ->]; [|done].
  unfold pg_contents, pg_inv. by rewrite Hr.
Qed.
Next Obligation.
  intros cutoff limit s e s' Hi. simpl. unfold pg_query_before, pg_select, pg_contents, pg_inv.
  destruct (pg_exec s) as [[f|] db1] eqn:E; [|done]; apply pg_exec_rows in E as [E _].
  intros [= <- <-]. by rewrite E.
Qed.
Next Obligation.
  intros cutoff s n s' Hi Hq%pg_purge_before_rows. simpl in Hq. split; [by eapply pg_inv_filter|].
  unfold pg_contents. rewrite Hq, order_by_sequence_filter by done.
  symmetry. by apply filter_row_to_event.
Qed.
Next Obligation.
  intros cutoff s e s' Hi Hq%pg_purge_before_rows. simpl in Hq.
  unfold pg_contents, pg_inv. by rewrite Hq.
Qed.

(** Audit rows are append-only: an append either adds the event's row at
    the end of a table that satisfied its constraints, or leaves the table
    untouched and returns an error. *)
Theorem pg_append_only e db r db' :
  pg_inv db → pg_append e db = (r, db') →
  pg_inv db' ∧ pg_no_delete db' = pg_no_delete db ∧
  match r with
  | Ok _ => pg_rows db' = pg_rows db ++ [pg_insert_row e] ∧ is_Some (ev_hash e)
  | Err _ => pg_rows db' = pg_rows db
  end.
Proof.
  unfold pg_append, pg_inv. intros Hi.
  destruct (pg_exec db) as [[f|] db1] eqn:E; apply pg_exec_rows in E as [E En].
  { intros [= <- <-]. by rewrite E. }
  destruct (pg_violates db1 _) eqn:Ev; intros [= <- <-]; simpl; rewrite E; [done|].
  unfold pg_violates in Ev. apply orb_false_iff in Ev as [[_ Hs]%orb_false_iff Hh].
  apply bool_decide_eq_false in Hs, Hh. rewrite E in Hs. split.
  - rewrite fmap_app. apply NoDup_app. split; [done|]. split; [set_solver|apply NoDup_singleton].
  - split; [done|]. split; [done|]. destruct (ev_hash e) eqn:Eh; [done|]. by rewrite <-Eh in Hh.
Qed.

(** A purge whose last statement succeeds leaves the no-delete rule in
    place, also when the delete itself failed, in which case no row is lost. *)
Theorem pg_purge_reinstates_rule cutoff db r db' :
  pg_purge_before cutoff db = (r, db') → pg_no_delete db = true →
  pg_faults db !! 2%nat ∈ [None; Some None] →
  pg_no_delete db' = true ∧
  (∀ e, r = Err e → pg_rows db' = pg_rows db).
Proof.
  intros Hp Hd Hf. split.
  2: { intros e ->. by apply pg_purge_before_rows in Hp. }
  revert Hp. unfold pg_purge_before, pg_exec.
  destruct db as [rows nu nd [|[f1|] [|[f2|] [|[f3|] fs]]]]; simpl in *;
    intros [= <- <-]; simpl; try done; set_solver.
Qed.
End PgStorage.

(** ** Witnesses *)

Definition witness_pg_env : PgEnv := {|
  pg_timestamptz := fun t => t;
  pg_jsonb := fun m => m;
  pg_constraint_msg := "duplicate key";
|}.

Definition witness_ch_env : ClickHouseEnv := {|
  json_to_string := fun _ => "{}";
  json_from_str := fun _ => None;
  from_timestamp_millis := fun ms => Some (ms * 1000000);
|}.

Definition witness_sealed : AuditEvent := (@seal witness_env (chain_new "svc") witness_event).1.
Definition witness_db : PgDb := mkPgDb [] true true [None; Some "disk full"].

Lemma pg_roundtrip_verifies_witness :
  @verify_chain witness_env
    (map (fun e => pg_row_to_event (@pg_insert_row witness_pg_env e)) witness_chain) =
  @verify_chain witness_env witness_chain.
Proof.
  destruct witness_chain_ok as (Ho & _ & _).
  apply (@pg_roundtrip_verifies witness_pg_env witness_env _ Ho).
  repeat constructor.
Defined.

Lemma clickhouse_roundtrip_breaks_hash_witness :
  let e := AuditEvent_new witness_id 1500 HttpRequest SevInformational "svc" in
  let sealed := (@seal witness_env (chain_new "svc") e).1 in
  let stored := @ch_row_to_event witness_ch_env 0 (@ch_insert_row witness_ch_env sealed) in
  ev_hash stored ≠ Some (@recompute_hash witness_env stored) ∨
  @blake3_collision witness_env [sealed] [stored].
Proof.
  apply (@clickhouse_roundtrip_breaks_hash witness_ch_env witness_env 0 (chain_new "svc"));
    [repeat constructor..|done|done].
Defined.

Lemma pg_append_only_witness :
  let db := mkPgDb [] true true [] in
  let '(r, db') := @pg_append witness_pg_env witness_sealed db in
  pg_inv db' ∧ pg_no_delete db' = pg_no_delete db ∧
  match r with
  | Ok _ => pg_rows db' = pg_rows db ++ [@pg_insert_row witness_pg_env witness_sealed] ∧
            is_Some (ev_hash witness_sealed)
  | Err _ => pg_rows db' = pg_rows db
  end.
Proof.
  apply (@pg_append_only witness_pg_env); [constructor|reflexivity].
Defined.

Lemma pg_purge_reinstates_rule_witness :
  let '(r, db') := pg_purge_before 10 witness_db in
  pg_no_delete db' = true ∧ (∀ e, r = Err e → pg_rows db' = pg_rows witness_db).
Proof.
  apply (pg_purge_reinstates_rule 10 witness_db); [reflexivity|reflexivity|].
  vm_compute. left.
Defined.
