(* ===== verification/FailureTracker.v ===== *)
(** * Audit storage failure tracking

    [src/acton-service/src/audit/failure_tracker.rs] and the alert events of
    [alert.rs]. [Instant]s and wall-clock times are nanosecond counts passed
    to the operations; an operation that would panic on an [unwrap] returns
    [None]. The specification is a function of the history of storage
    outcomes; the tracker's fields are shown to compute it. *)

From S2P Require Import Prelude.

Local Open Scope Z_scope.
Local Open Scope list_scope.

Definition nanos_per_sec : Z := 1000000000.

(** [AuditAlertEvent]. *)
Inductive AuditAlertEvent :=
| StorageUnreachable (first_failure_at : Z) (consecutive_failures : Z)
    (unreachable_duration_secs : Z) (last_error service_name : string)
| StorageRecovered (outage_started_at recovered_at outage_duration_secs : Z)
    (events_affected : Z) (service_name : string).

Record TrackerState := mkTrackerState {
  first_failure_at : option Z;
  first_failure_wall : option Z;
  consecutive_failures : Z;
  last_error : string;
  last_alert_at : option Z;
  alert_active : bool;
  events_affected_during_outage : Z;
}.

(** [FailureTracker], without its mutex-protected state. *)
Record FailureTracker := mkFailureTracker {
  ft_hooks : list string;
  ft_threshold : Z;
  ft_cooldown : Z;
  ft_notify_recovery : bool;
  ft_service_name : string;
}.

(** [FailureTracker::new]. *)
Definition tracker_new (hooks : list string) (threshold_secs cooldown_secs : Z)
    (notify_recovery : bool) (service_name : string) : FailureTracker * TrackerState :=
  (mkFailureTracker hooks (threshold_secs * nanos_per_sec) (cooldown_secs * nanos_per_sec)
     notify_recovery service_name,
   mkTrackerState None None 0 EmptyString None false 0).

(** [Instant::duration_since]: saturates at zero. *)
Definition duration_since (now earlier : Z) : Z := Z.max 0 (now - earlier).

(** [FailureTracker::record_failure]: the new state and the alert to dispatch. *)
Definition record_failure (ft : FailureTracker) (now wall : Z) (error : string)
    (st : TrackerState) : option (TrackerState * option AuditAlertEvent) :=
  let '(first, first_wall) :=
    match first_failure_at st with
    | None => (Some now, Some wall)
    | Some t => (Some t, first_failure_wall st)
    end in
  let failures := u64_add (consecutive_failures st) 1 in
  let affected := u64_add (events_affected_during_outage st) 1 in
  let st' := mkTrackerState first first_wall failures error (last_alert_at st)
               (alert_active st) affected in
  match first with
  | None => None
  | Some t =>
      let elapsed := duration_since now t in
      if ft_threshold ft <=? elapsed then
        let cooldown_ok :=
          match last_alert_at st with
          | Some last => ft_cooldown ft <=? duration_since now last
          | None => true
          end in
        if cooldown_ok then
          match first_wall with
          | None => None
          | Some w =>
              Some (mkTrackerState first first_wall failures error (Some now) true affected,
                    Some (StorageUnreachable w failures (elapsed / nanos_per_sec) error
                            (ft_service_name ft)))
          end
        else Some (st', None)
      else Some (st', None)
  end.

(** [FailureTracker::record_success]; [wall] is [Utc::now]. *)
Definition record_success (ft : FailureTracker) (wall : Z) (st : TrackerState)
    : option (TrackerState * option AuditAlertEvent) :=
  let reset := mkTrackerState None None 0 EmptyString (last_alert_at st) false 0 in
  if alert_active st && ft_notify_recovery ft then
    match first_failure_wall st with
    | None => None
    | Some started =>
        let outage := Z.max 0 (Z.quot (wall - started) nanos_per_sec) in
        Some (reset, Some (StorageRecovered started wall outage
                             (events_affected_during_outage st) (ft_service_name ft)))
    end
  else Some (reset, None).

(** [FailureTracker::dispatch]: one notification per hook. *)
Definition dispatch (ft : FailureTracker) (event : AuditAlertEvent)
    : list (string * AuditAlertEvent) := map (fun hook => (hook, event)) (ft_hooks ft).

(** ** Running a history *)

Inductive TrackerOp :=
| Failure (now wall : Z) (error : string)
| Success (wall : Z).

Definition tracker_step (ft : FailureTracker) (op : TrackerOp) (st : TrackerState)
    : option (TrackerState * option AuditAlertEvent) :=
  match op with
  | Failure now wall error => record_failure ft now wall error st
  | Success wall => record_success ft wall st
  end.

(** The state after a history and the alerts raised, each with its step. *)
Fixpoint tracker_run (ft : FailureTracker) (ops : list TrackerOp) (st : TrackerState)
    : option (TrackerState * list (TrackerOp * AuditAlertEvent)) :=
  match ops with
  | [] => Some (st, [])
  | op :: ops =>
      match tracker_step ft op st with
      | None => None
      | Some (st, alert) =>
          match tracker_run ft ops st with
          | None => None
          | Some (st, alerts) =>
              Some (st, match alert with Some a => (op, a) :: alerts | None => alerts end)
          end
      end
  end.

Definition tracker_init : TrackerState := mkTrackerState None None 0 EmptyString None false 0.

(** ** The history specification *)

(** The current outage, read off the history backwards (latest first): when
    it started (instant and wall clock) and how many failures it has had. *)
Fixpoint outage (h : list TrackerOp) : option (Z * Z * nat) :=
  match h with
  | Failure now wall _ :: h =>
      match outage h with
      | Some (t, w, n) => Some (t, w, S n)
      | None => Some (now, wall, 1%nat)
      end
  | _ => None
  end.

(** The state agrees with the outage of the history. *)
Definition tracks (h : list TrackerOp) (st : TrackerState) : Prop :=
  match outage h with
  | Some (t, w, n) =>
      first_failure_at st = Some t ∧ first_failure_wall st = Some w ∧
      consecutive_failures st = Z.of_nat n ∧ events_affected_during_outage st = Z.of_nat n
  | None =>
      first_failure_at st = None ∧ first_failure_wall st = None ∧ alert_active st = false ∧
      consecutive_failures st = 0 ∧ events_affected_during_outage st = 0
  end.

Lemma outage_length h t w n : outage h = Some (t, w, n) → (n ≤ length h)%nat.
Proof.
  revert t w n. induction h as [|[now wall e|wall] h IH]; intros t w n; simpl; try done.
  destruct (outage h) as [[[t' w'] n']|]; intros [= <- <- <-]; [|lia].
  specialize (IH _ _ _ eq_refl). lia.
Qed.

Lemma tracks_failure ft h now wall err st :
  fits 64 (Z.of_nat (S (length h))) → tracks h st →
  ∃ st' a, record_failure ft now wall err st = Some (st', a) ∧
    tracks (Failure now wall err :: h) st' ∧
    match a with
    | Some al =>
        ∃ t w n, outage (Failure now wall err :: h) = Some (t, w, n) ∧
          ft_threshold ft ≤ duration_since now t ∧
          al = StorageUnreachable w (Z.of_nat n) (duration_since now t / nanos_per_sec) err
                 (ft_service_name ft) ∧
          last_alert_at st' = Some now ∧
          (∀ l, last_alert_at st = Some l → ft_cooldown ft ≤ duration_since now l)
    | None => last_alert_at st' = last_alert_at st
    end.
Proof.
  intros Hf Ht. unfold tracks, record_failure in *. simpl outage.
  destruct (outage h) as [[[t w] n]|] eqn:Eo.
  - destruct Ht as (-> & -> & -> & ->). apply outage_length in Eo.
    rewrite !u64_add_small by (unfold fits in *; lia).
    destruct (Z.leb_spec (ft_threshold ft) (duration_since now t)); [|eexists _, None; split; [done|]; simpl; repeat split; lia].
    destruct (last_alert_at st) as [l|];
      [destruct (Z.leb_spec (ft_cooldown ft) (duration_since now l))|];
      eexists _, _; (split; [done|]); simpl; (split; [repeat split; lia|]); try done;
      exists t, w, (S n); repeat split; auto; try (f_equal; lia); by intros ? [= <-].
  - destruct Ht as (-> & _ & _ & -> & ->). rewrite !u64_add_small by (unfold fits in *; lia).
    destruct (Z.leb_spec (ft_threshold ft) (duration_since now now)); [|eexists _, None; split; [done|]; simpl; repeat split; lia].
    destruct (last_alert_at st) as [l|];
      [destruct (Z.leb_spec (ft_cooldown ft) (duration_since now l))|];
      eexists _, _; (split; [done|]); simpl; (split; [repeat split; lia|]); try done;
      exists now, wall, 1%nat; repeat split; auto; by intros ? [= <-].
Qed.

Lemma tracks_success ft h wall st :
  tracks h st →
  ∃ st' a, record_success ft wall st = Some (st', a) ∧ tracks (Success wall :: h) st' ∧
    last_alert_at st' = last_alert_at st ∧
    match a with
    | Some al =>
        ∃ t w n, outage h = Some (t, w, n) ∧
          al = StorageRecovered w wall (Z.max 0 (Z.quot (wall - w) nanos_per_sec)) (Z.of_nat n)
                 (ft_service_name ft)
    | None => True
    end.
Proof.
  intros Ht. unfold record_success, tracks in *; simpl outage.
  destruct (outage h) as [[[t w] n]|] eqn:Eo.
  - destruct Ht as (_ & -> & _ & Hn).
    destruct (alert_active st && ft_notify_recovery ft); eexists _, _; (split; [done|]);
      simpl; repeat split; auto. exists t, w, n. by rewrite Hn.
  - destruct Ht as (_ & _ & -> & _). simpl. eexists _, None. by repeat split.
Qed.

Lemma tracker_run_tracks ft ops : ∀ h st,
  fits 64 (Z.of_nat (length h + length ops)) → tracks h st →
  ∃ st' alerts, tracker_run ft ops st = Some (st', alerts) ∧ tracks (rev ops ++ h) st'.
Proof.
  induction ops as [|op ops IH]; intros h st Hf Ht; [by eexists _, _|].
  assert (∃ st1 a, tracker_step ft op st = Some (st1, a) ∧ tracks (op :: h) st1)
    as (st1 & a & Hs & Ht1).
  { destruct op as [now wall err|wall]; simpl.
    - destruct (tracks_failure ft h now wall err st) as (st1 & a & ? & ? & _);
        [unfold fits in *; simpl in *; lia|done|]. eauto.
    - destruct (tracks_success ft h wall st) as (st1 & a & ? & ? & _); [done|]. eauto. }
  destruct (IH (op :: h) st1) as (st' & alerts & Hr & Ht'); [|done|].
  { unfold fits in *; simpl in *; lia. }
  simpl. rewrite Hs, Hr, <-app_assoc. eauto.
Qed.

Lemma tracks_init : tracks [] tracker_init.
Proof. by repeat split. Qed.

(** ** Properties *)

(** No history of storage outcomes makes the tracker panic: the [unwrap]s
    on the outage start are reached only while an outage is being tracked,
    and the counters are the length of the current run of failures. *)
Theorem tracker_never_panics ft ops :
  fits 64 (Z.of_nat (length ops)) →
  ∃ st alerts, tracker_run ft ops tracker_init = Some (st, alerts) ∧
    consecutive_failures st = match outage (rev ops) with Some (_, _, n) => Z.of_nat n | None => 0 end.
Proof.
  intros Hf. destruct (tracker_run_tracks ft ops [] tracker_init) as (st & al & Hr & Ht);
    [done|apply tracks_init|]. rewrite app_nil_r in Ht. eexists _, _. split; [done|].
  unfold tracks in Ht. destruct (outage (rev ops)) as [[[t w] n]|]; naive_solver.
Qed.

(** What an alert says is what happened: an unreachable alert is raised
    only when the current outage has lasted at least the threshold, and it
    reports the outage's start, its failure count and its duration; a recovery
    reports the start and failure count of the outage it ends. *)
Theorem tracker_alert_payload ft ops st alerts op st' al :
  fits 64 (Z.of_nat (S (length ops))) →
  tracker_run ft ops tracker_init = Some (st, alerts) →
  tracker_step ft op st = Some (st', Some al) →
  match op with
  | Failure now wall err =>
      ∃ t w n, outage (op :: rev ops) = Some (t, w, n) ∧
        ft_threshold ft ≤ duration_since now t ∧
        al = StorageUnreachable w (Z.of_nat n) (duration_since now t / nanos_per_sec) err
               (ft_service_name ft)
  | Success wall =>
      ∃ t w n, outage (rev ops) = Some (t, w, n) ∧
        al = StorageRecovered w wall (Z.max 0 (Z.quot (wall - w) nanos_per_sec)) (Z.of_nat n)
               (ft_service_name ft)
  end.
Proof.
  intros Hf Hr Hs.
  destruct (tracker_run_tracks ft ops [] tracker_init) as (st0 & al0 & Hr0 & Ht);
    [unfold fits in *; simpl; lia|apply tracks_init|].
  rewrite app_nil_r in Ht. rewrite Hr in Hr0. injection Hr0 as <- <-.
  destruct op as [now wall err|wall]; simpl in Hs.
  - destruct (tracks_failure ft (rev ops) now wall err st) as (st1 & a & E & _ & Ha);
      [by rewrite length_rev|done|]. rewrite Hs in E. injection E as <- <-. naive_solver.
  - destruct (tracks_success ft (rev ops) wall st) as (st1 & a & E & _ & _ & Ha); [done|].
    rewrite Hs in E. by injection E as <- <-.
Qed.

(** The instants at which unreachable alerts were raised. *)
Definition alert_times (alerts : list (TrackerOp * AuditAlertEvent)) : list Z :=
  omap (fun '(op, al) => match op, al with
                         | Failure now _ _, StorageUnreachable _ _ _ _ _ => Some now
                         | _, _ => None
                         end) alerts.

(** [b] is at least the cooldown after [a]. *)
Definition spaced (ft : FailureTracker) (a b : Z) : Prop := ft_cooldown ft ≤ b - a.

Lemma tracker_run_spaced ft ops : 0 < ft_cooldown ft → ∀ h st st' alerts,
  fits 64 (Z.of_nat (length h + length ops)) → tracks h st →
  tracker_run ft ops st = Some (st', alerts) →
  Sorted (spaced ft) (alert_times alerts) ∧
  (∀ l, last_alert_at st = Some l → HdRel (spaced ft) l (alert_times alerts)).
Proof.
  intros Hc. induction ops as [|op ops IH]; intros h st st' alerts Hf Ht Hr.
  { injection Hr as <- <-. split; constructor. }
  simpl in Hr. destruct (tracker_step ft op st) as [[st1 a]|] eqn:Es; [|done].
  destruct (tracker_run ft ops st1) as [[st2 al]|] eqn:Er; [|done]. injection Hr as <- <-.
  destruct op as [now wall err|wall]; simpl in Es.
  - destruct (tracks_failure ft h now wall err st) as (st1' & a' & E & Ht1 & Ha);
      [unfold fits in *; simpl in *; lia|done|]. rewrite Es in E. injection E as <- <-.
    destruct (IH (Failure now wall err :: h) st1 st2 al) as [IHs IHh];
      [unfold fits in *; simpl in *; lia|done|done|].
    destruct a as [aev|]; [|by rewrite <-Ha].
    destruct Ha as (t & w & n & _ & _ & -> & Hl & Hcd). simpl. split.
    + constructor; [done|]. by apply IHh.
    + intros l Hl'. constructor. specialize (Hcd _ Hl'). unfold spaced, duration_since in *. lia.
  - destruct (tracks_success ft h wall st) as (st1' & a' & E & Ht1 & Hl & Ha); [done|].
    rewrite Es in E. injection E as <- <-.
    destruct (IH (Success wall :: h) st1 st2 al) as [IHs IHh];
      [unfold fits in *; simpl in *; lia|done|done|]. rewrite Hl in IHh.
    destruct a; simpl; auto.
Qed.

(** Any two unreachable alerts of a run are at least the cooldown apart,
    also across recoveries and whatever the clock does in between. *)
Theorem tracker_cooldown ft ops st alerts :
  0 < ft_cooldown ft → fits 64 (Z.of_nat (length ops)) →
  tracker_run ft ops tracker_init = Some (st, alerts) →
  StronglySorted (fun a b => ft_cooldown ft ≤ b - a) (alert_times alerts).
Proof.
  intros Hc Hf Hr. apply Sorted_StronglySorted; [intros a b d; lia|].
  by eapply (tracker_run_spaced ft ops Hc [] tracker_init).
Qed.

(** ** Witnesses *)

Definition witness_tracker : FailureTracker := mkFailureTracker ["pager"%string] 10 5 true "svc".
Definition witness_history : list TrackerOp :=
  [Failure 0 100 "e1"; Failure 12 112 "e2"; Failure 14 114 "e3"; Failure 20 120 "e4"].

Lemma tracker_never_panics_witness :
  ∃ st alerts, tracker_run witness_tracker witness_history tracker_init = Some (st, alerts) ∧
    consecutive_failures st = 4.
Proof. apply (tracker_never_panics witness_tracker witness_history). by vm_compute. Defined.

Lemma tracker_alert_payload_witness :
  ∃ t w n, outage (Failure 12 112 "e2" :: rev [Failure 0 100 "e1"]) = Some (t, w, n) ∧
    ft_threshold witness_tracker ≤ duration_since 12 t ∧
    StorageUnreachable 100 2 0 "e2" "svc" =
      StorageUnreachable w (Z.of_nat n) (duration_since 12 t / nanos_per_sec) "e2" "svc".
Proof.
  eapply (tracker_alert_payload witness_tracker [Failure 0 100 "e1"] _ _ (Failure 12 112 "e2"));
    [by vm_compute|reflexivity|reflexivity].
Defined.

Lemma tracker_cooldown_witness :
  ∃ st alerts, tracker_run witness_tracker witness_history tracker_init = Some (st, alerts) ∧
    StronglySorted (fun a b => 5 ≤ b - a) (alert_times alerts) ∧ alert_times alerts = [12; 20].
Proof.
  eexists _, _. split; [reflexivity|]. split; [|reflexivity].
  eapply (tracker_cooldown witness_tracker witness_history); [done|by vm_compute|reflexivity].
Defined.
