(* ===== verification/AuditAgent.v ===== *)
(** * The audit agent

    [src/acton-service/src/audit/agent.rs]: the actor that owns the hash
    chain, the writer task behind it, chain loading at start-up and retention
    cleanup, with [archive.rs]. The actor handles one message at a time, so
    it is a step function on its state; the writer's channel is a queue.
    Storage is any instance of [AuditStorage]; the theorems about cleanup
    hold for every backend that meets [AuditStorageLaws]. *)

From S2P Require Import Prelude FrameworkError AuditEvent AuditChain AuditStorage.

Local Open Scope string_scope.
Local Open Scope Z_scope.
Local Open Scope list_scope.

Definition MAX_PENDING_EVENTS : nat := Z.to_nat 1024.
Definition CLEANUP_BATCH_SIZE : nat := Z.to_nat 10000.

Lemma CLEANUP_BATCH_SIZE_pos : (0 < CLEANUP_BATCH_SIZE)%nat.
Proof. unfold CLEANUP_BATCH_SIZE. lia. Qed.

#[global] Opaque MAX_PENDING_EVENTS CLEANUP_BATCH_SIZE.

(** ** The actor *)

(** What the agent reports to the failure tracker. *)
Inductive AgentFailure :=
| PendingBufferFull (dropped : AuditEventKind)
| WriterTerminated.

Record AuditAgentState := mkAuditAgentState {
  ag_chain : option AuditChain;
  ag_pending : list AuditEvent;
  (** The writer's channel: the events sent to it, oldest first. *)
  ag_writer : option (list AuditEvent);
  (** The writer task still receives. *)
  ag_writer_alive : bool;
  ag_failure_tracker : bool;
  (** Calls of [tracker.record_failure], oldest first. *)
  ag_reported : list AgentFailure;
}.

(** The state [AuditAgent::spawn] starts the actor with. *)
Definition agent_spawn (failure_tracker : bool) : AuditAgentState :=
  mkAuditAgentState None [] (Some []) true failure_tracker [].

Definition ag_set_chain (s : AuditAgentState) (c : AuditChain) : AuditAgentState :=
  mkAuditAgentState (Some c) (ag_pending s) (ag_writer s) (ag_writer_alive s)
    (ag_failure_tracker s) (ag_reported s).
Definition ag_set_pending (s : AuditAgentState) (p : list AuditEvent) : AuditAgentState :=
  mkAuditAgentState (ag_chain s) p (ag_writer s) (ag_writer_alive s)
    (ag_failure_tracker s) (ag_reported s).
Definition ag_set_writer (s : AuditAgentState) (q : list AuditEvent) : AuditAgentState :=
  mkAuditAgentState (ag_chain s) (ag_pending s) (Some q) (ag_writer_alive s)
    (ag_failure_tracker s) (ag_reported s).
Definition ag_report (s : AuditAgentState) (f : AgentFailure) : AuditAgentState :=
  if ag_failure_tracker s then
    mkAuditAgentState (ag_chain s) (ag_pending s) (ag_writer s) (ag_writer_alive s)
      true (ag_reported s ++ [f])
  else s.

Definition buffer_pending_event (s : AuditAgentState) (event : AuditEvent) : AuditAgentState :=
  if (MAX_PENDING_EVENTS <=? length (ag_pending s))%nat
  then ag_report s (PendingBufferFull (ev_kind event))
  else ag_set_pending s (ag_pending s ++ [event]).

Section Agent.
Context `{ChainEnv}.

Definition seal_and_dispatch (s : AuditAgentState) (event : AuditEvent) : AuditAgentState :=
  match ag_chain s with
  | None => buffer_pending_event s event
  | Some chain =>
      let '(sealed, chain) := seal chain event in
      let s := ag_set_chain s chain in
      match ag_writer s with
      | None => s
      | Some q =>
          if ag_writer_alive s then ag_set_writer s (q ++ [sealed])
          else ag_report s WriterTerminated
      end
  end.

(** The messages of the actor. A [CleanupTrigger] changes no actor state; it
    runs [run_cleanup] below. *)
Inductive AgentMsg :=
| ChainLoaded (previous_hash : option string) (sequence : Z) (service_name : string)
| Event (event : AuditEvent)
| CleanupTrigger.

Definition agent_handle (msg : AgentMsg) (s : AuditAgentState) : AuditAgentState :=
  match msg with
  | ChainLoaded previous_hash sequence service_name =>
      let chain := match previous_hash with
                   | Some hash => chain_resume service_name hash sequence
                   | None => chain_new service_name
                   end in
      let pending := ag_pending s in
      fold_left seal_and_dispatch pending (ag_set_pending (ag_set_chain s chain) [])
  | Event event =>
      match ag_chain s with
      | None => buffer_pending_event s event
      | Some _ => seal_and_dispatch s event
      end
  | CleanupTrigger => s
  end.

Definition agent_run (msgs : list AgentMsg) (s : AuditAgentState) : AuditAgentState :=
  fold_left (fun s m => agent_handle m s) msgs s.

(** ** The agent seals in arrival order *)

Lemma fold_seal_and_dispatch events : ∀ s chain q,
  ag_chain s = Some chain → ag_writer s = Some q → ag_writer_alive s = true →
  fold_left seal_and_dispatch events s =
  ag_set_writer (ag_set_chain s (seal_all chain events).2) (q ++ (seal_all chain events).1).
Proof.
  induction events as [|e events IH]; intros s chain q Hc Hq Ha; cbn [fold_left seal_all].
  { destruct s; simpl in *; subst. unfold ag_set_writer, ag_set_chain; simpl. by rewrite app_nil_r. }
  unfold seal_and_dispatch at 2. rewrite Hc.
  destruct (seal chain e) as [sealed chain'] eqn:Es. cbn [ag_writer ag_set_chain ag_writer_alive].
  rewrite Hq, Ha. rewrite (IH _ chain' (q ++ [sealed])) by done.
  destruct (seal_all chain' events); cbn [fst snd].
  unfold ag_set_writer, ag_set_chain; cbn. by rewrite <-app_assoc.
Qed.

(** Before the chain exists: the first [MAX_PENDING_EVENTS] events wait, the
    others are reported. *)
Lemma agent_run_buffering events : ∀ s,
  ag_chain s = None → (length (ag_pending s) ≤ MAX_PENDING_EVENTS)%nat →
  agent_run (map Event events) s =
  mkAuditAgentState None (take MAX_PENDING_EVENTS (ag_pending s ++ events)) (ag_writer s)
    (ag_writer_alive s) (ag_failure_tracker s)
    (ag_reported s ++ if ag_failure_tracker s
                      then map (fun e => PendingBufferFull (ev_kind e))
                             (drop MAX_PENDING_EVENTS (ag_pending s ++ events))
                      else []).
Proof.
  induction events as [|e events IH]; intros s Hc Hl.
  { rewrite app_nil_r, take_ge, drop_ge by done. destruct s as [c p w a t r]; simpl in *.
    subst. by destruct t; rewrite ?app_nil_r. }
  unfold agent_run in *. cbn [map fold_left agent_handle]. rewrite Hc. unfold buffer_pending_event.
  destruct (Nat.leb_spec MAX_PENDING_EVENTS (length (ag_pending s))) as [Hm|Hm].
  - assert (length (ag_pending s) = MAX_PENDING_EVENTS) as Hm' by lia.
    rewrite IH; [|destruct s as [? ? ? ? [] ?]; simpl in *; (done || lia)..].
    destruct s as [c p w a t r]; simpl in *. rewrite <-Hm'.
    by destruct t; simpl; rewrite !take_app_length, ?drop_app_length, <-?app_assoc.
  - rewrite IH by (simpl; rewrite ?length_app; simpl; done || lia).
    destruct s as [c p w a t r]; simpl in *. by rewrite <-app_assoc.
Qed.

Lemma agent_run_loaded events s chain q :
  ag_chain s = Some chain → ag_writer s = Some q → ag_writer_alive s = true →
  agent_run (map Event events) s =
  ag_set_writer (ag_set_chain s (seal_all chain events).2) (q ++ (seal_all chain events).1).
Proof.
  intros Hc Hq Ha. rewrite <-(fold_seal_and_dispatch events s chain q) by done.
  clear q Hq Ha. revert s chain Hc.
  induction events as [|e events IH]; intros s chain Hc; [done|].
  unfold agent_run in *. cbn [map fold_left agent_handle]. rewrite Hc.
  assert (∃ c, ag_chain (seal_and_dispatch s e) = Some c) as [c Hc'].
  { unfold seal_and_dispatch. rewrite Hc. destruct (seal chain e) as [e' c'].
    exists c'. destruct s as [? ? [?|] [] [] ?]; simpl in *; done. }
  by eapply IH.
Qed.

(** The chain state a [ChainLoaded] message installs. *)
Definition loaded_chain (previous_hash : option string) (sequence : Z) (service : string)
    : AuditChain :=
  match previous_hash with
  | Some hash => chain_resume service hash sequence
  | None => chain_new service
  end.

Lemma agent_run_log tracker early prev seq svc late :
  let s := agent_run (map Event early ++ ChainLoaded prev seq svc :: map Event late)
             (agent_spawn tracker) in
  ag_writer s = Some (seal_all (loaded_chain prev seq svc)
                        (take MAX_PENDING_EVENTS early ++ late)).1 ∧
  ag_pending s = [] ∧
  ag_reported s = if tracker
                  then map (fun e => PendingBufferFull (ev_kind e)) (drop MAX_PENDING_EVENTS early)
                  else [].
Proof.
  unfold agent_run. rewrite fold_left_app. cbn [fold_left].
  change (fold_left _ (map Event early) (agent_spawn tracker))
    with (agent_run (map Event early) (agent_spawn tracker)).
  rewrite (agent_run_buffering early (agent_spawn tracker)) by (simpl; done || lia). cbn [agent_handle ag_pending agent_spawn ag_set_chain ag_set_pending].
  fold (loaded_chain prev seq svc).
  rewrite (fold_seal_and_dispatch _ _ (loaded_chain prev seq svc) []) by done.
  change (fold_left _ (map Event late) ?s) with (agent_run (map Event late) s).
  rewrite seal_all_app. destruct (seal_all (loaded_chain prev seq svc) _) as [s1 c1]; cbn [fst snd].
  erewrite agent_run_loaded by done. by destruct (seal_all c1 late).
Qed.

(** The agent refines "one log, sealed in arrival order": what it hands to
    the writer is the sealing, by the loaded chain, of the first
    [MAX_PENDING_EVENTS] events that arrived before the chain was loaded
    followed by everything that arrived after, and every event it drops is
    reported. *)
Theorem agent_refines_sealed_log tracker early prev seq svc late :
  let s := agent_run (map Event early ++ ChainLoaded prev seq svc :: map Event late)
             (agent_spawn tracker) in
  ag_writer s = Some (seal_all (loaded_chain prev seq svc)
                        (take MAX_PENDING_EVENTS early ++ late)).1 ∧
  ag_pending s = [] ∧
  ag_reported s = if tracker
                  then map (fun e => PendingBufferFull (ev_kind e)) (drop MAX_PENDING_EVENTS early)
                  else [].
Proof. apply agent_run_log. Qed.

(** The pending buffer never exceeds its cap, whatever messages arrive. *)
Theorem agent_pending_bounded tracker msgs :
  (length (ag_pending (agent_run msgs (agent_spawn tracker))) ≤ MAX_PENDING_EVENTS)%nat.
Proof.
  assert (∀ s e, (length (ag_pending s) ≤ MAX_PENDING_EVENTS)%nat →
    (length (ag_pending (buffer_pending_event s e)) ≤ MAX_PENDING_EVENTS)%nat) as Hb.
  { intros [c p w a [] r] e; unfold buffer_pending_event; simpl;
      destruct (Nat.leb_spec MAX_PENDING_EVENTS (length p)); simpl; rewrite ?length_app; simpl; lia. }
  assert (∀ s e, (length (ag_pending s) ≤ MAX_PENDING_EVENTS)%nat →
    (length (ag_pending (seal_and_dispatch s e)) ≤ MAX_PENDING_EVENTS)%nat) as Hs.
  { intros s e Hl. unfold seal_and_dispatch. destruct (ag_chain s); [|auto].
    destruct (seal _ e). by destruct s as [? ? [?|] [] [] ?]. }
  assert (length (ag_pending (agent_spawn tracker)) ≤ MAX_PENDING_EVENTS)%nat as Hi by (simpl; lia).
  revert Hi. generalize (agent_spawn tracker). unfold agent_run.
  induction msgs as [|m msgs IH]; intros s Hi; [done|]. apply IH.
  destruct m as [p q svc|e|]; simpl; [|destruct (ag_chain s); auto|done].
  assert (∀ l s', (length (ag_pending s') ≤ MAX_PENDING_EVENTS)%nat →
    (length (ag_pending (fold_left seal_and_dispatch l s')) ≤ MAX_PENDING_EVENTS)%nat) as Hf.
  { induction l as [|x l IHl]; simpl; auto. }
  apply Hf. simpl. lia.
Qed.
End Agent.

(** ** Chain loading, the writer task, retention cleanup *)

Definition STORAGE_READY_TIMEOUT : Z := 30000.
Definition STORAGE_READY_POLL_INTERVAL : Z := 250.

(** What archiving uses of other crates. *)
Class ArchiveEnv := {
  (** [serde_json::to_string] on an event. *)
  event_json : AuditEvent → result string string;
  (** [Utc::now().format("%Y%m%d_%H%M%S")]. *)
  format_stamp : Z → string;
  (** [Path::join] and [Path::display]. *)
  path_join : string → string → string;
}.

(** The files written so far, and the outcome of the file operations to come
    ([Some msg] fails), as for the database. *)
Record Fs := mkFs {
  fs_files : gmap string string;
  fs_faults : list (option string);
}.

Definition fs_exec (fs : Fs) : option string * Fs :=
  match fs_faults fs with [] => (None, fs) | f :: r => (f, mkFs (fs_files fs) r) end.

(** The JSON lines of a batch: one line per event. *)
Fixpoint jsonl `{ArchiveEnv} (events : list AuditEvent) : result string Error :=
  match events with
  | [] => Ok ""
  | e :: events =>
      match event_json e with
      | Err msg => Err (Error_Internal ("Failed to serialize audit event for archive: " +:+ msg))
      | Ok line =>
          match jsonl events with
          | Ok rest => Ok (line +:+ String "010" rest)
          | Err e => Err e
          end
      end
  end.

Definition archive_path `{ArchiveEnv} (dir : string) (now : Z) : string :=
  path_join dir ("audit_archive_" +:+ format_stamp now +:+ ".jsonl").

(** [archive_events]. *)
Definition archive_events `{ArchiveEnv} (now : Z) (events : list AuditEvent) (dir : string)
    (fs : Fs) : result string Error * Fs :=
  match events with
  | [] => (Err (Error_Internal "No events to archive"), fs)
  | _ =>
      let '(mkdir_fault, fs) := fs_exec fs in
      match mkdir_fault with
      | Some msg =>
          (Err (Error_Internal ("Failed to create archive directory " +:+ dir +:+ ": " +:+ msg)), fs)
      | None =>
          let filepath := archive_path dir now in
          match jsonl events with
          | Err e => (Err e, fs)
          | Ok lines =>
              let '(write_fault, fs) := fs_exec fs in
              match write_fault with
              | Some msg =>
                  (Err (Error_Internal ("Failed to write archive file " +:+ filepath +:+ ": " +:+ msg)), fs)
              | None => (Ok filepath, mkFs (<[filepath := lines]> (fs_files fs)) (fs_faults fs))
              end
          end
      end
  end.

Section StorageClients.
Context {S : Type} `{AuditStorage S}.

(** [wait_for_storage]: poll until ready or past the deadline, in
    milliseconds; [took i] is how long the [i]th poll took. The result says
    whether the storage was ready; [None] is running out of fuel. *)
Fixpoint wait_for_storage (fuel i : nat) (took : nat → Z) (now deadline : Z) (s : S)
    : option (bool * S) :=
  match fuel with
  | O => None
  | Datatypes.S fuel =>
      let '(r, s) := st_ensure_ready s in
      let now := now + took i in
      match r with
      | Ok _ => Some (true, s)
      | Err _ =>
          if deadline <=? now then Some (false, s)
          else wait_for_storage fuel (Datatypes.S i) took
                 (now + STORAGE_READY_POLL_INTERVAL) deadline s
      end
  end.

(** The task spawned by [after_start], after the wait: the fields of the
    [ChainLoaded] message it sends. *)
Definition load_chain_state (storage : option S) : option string * Z * option S :=
  match storage with
  | None => (None, 0, None)
  | Some s =>
      let '(r, s) := st_latest s in
      match r with
      | Ok (Some event) => (ev_hash event, ev_sequence event, Some s)
      | Ok None => (None, 0, Some s)
      | Err _ => (None, 0, Some s)
      end
  end.

(** The loop of [spawn_writer_task] on the events in its channel: the storage
    and, per event, the outcome it tells the failure tracker. *)
Fixpoint writer_task (queue : list AuditEvent) (s : S) : S * list (result unit string) :=
  match queue with
  | [] => (s, [])
  | sealed_event :: queue =>
      let '(r, s) := st_append sealed_event s in
      let '(s, outcomes) := writer_task queue s in
      (s, map_err error_to_string r :: outcomes)
  end.

(** The loop of [run_cleanup]; [stamp i] is the time at which iteration [i]
    archives, [total] is [total_purged]. *)
Fixpoint cleanup_loop `{ArchiveEnv} (fuel i : nat) (stamp : nat → Z) (cutoff : Z)
    (archive_dir : option string) (total : Z) (s : S) (fs : Fs)
    : option (result Z Error * S * Fs) :=
  match fuel with
  | O => None
  | Datatypes.S fuel =>
      let '(q, s) := st_query_before cutoff CLEANUP_BATCH_SIZE s in
      match q with
      | Err e => Some (Err e, s, fs)
      | Ok [] => Some (Ok total, s, fs)
      | Ok events =>
          let '(a, fs) := match archive_dir with
                          | Some dir =>
                              let '(r, fs) := archive_events (stamp i) events dir fs in
                              (match r with Ok _ => Ok tt | Err e => Err e end, fs)
                          | None => (Ok tt, fs)
                          end in
          match a with
          | Err e => Some (Err e, s, fs)
          | Ok _ =>
              let '(p, s) := st_purge_before cutoff s in
              match p with
              | Err e => Some (Err e, s, fs)
              | Ok purged =>
                  let total := u64_add total purged in
                  if (length events <? CLEANUP_BATCH_SIZE)%nat then Some (Ok total, s, fs)
                  else cleanup_loop fuel (Datatypes.S i) stamp cutoff archive_dir total s fs
              end
          end
      end
  end.

Definition nanos_per_day : Z := 86400 * 1000000000.

(** [run_cleanup] with its configuration values. *)
Definition run_cleanup `{ArchiveEnv} (fuel : nat) (retention_days : option Z)
    (archive_dir : option string) (now : Z) (stamp : nat → Z) (s : S) (fs : Fs)
    : option (result Z Error * S * Fs) :=
  match retention_days with
  | None => Some (Ok 0, s, fs)
  | Some days => cleanup_loop fuel 0 stamp (now - days * nanos_per_day) archive_dir 0 s fs
  end.

(** *** Waiting for storage ends *)

Lemma wait_for_storage_fuel fuel : ∀ i took now deadline s,
  (∀ j, 0 ≤ took j) → deadline - now ≤ (Z.of_nat fuel - 1) * STORAGE_READY_POLL_INTERVAL →
  (0 < fuel)%nat → is_Some (wait_for_storage fuel i took now deadline s).
Proof.
  unfold STORAGE_READY_POLL_INTERVAL.
  induction fuel as [|fuel IH]; intros i took now deadline s Ht Hd Hf; [lia|].
  cbn [wait_for_storage]. destruct (st_ensure_ready s) as [[u|e] s1]; [done|].
  specialize (Ht i) as Hti.
  destruct (Z.leb_spec deadline (now + took i)); [done|].
  unfold STORAGE_READY_POLL_INTERVAL. apply IH; [done|lia|lia].
Qed.

(** The start-up task always gets past waiting for storage, ready or not,
    after at most 121 polls, so [ChainLoaded] is always sent and no buffered
    event is stranded. *)
Theorem wait_for_storage_terminates took start s :
  (∀ j, 0 ≤ took j) →
  is_Some (wait_for_storage 121 0 took start (start + STORAGE_READY_TIMEOUT) s).
Proof.
  intros Ht. apply wait_for_storage_fuel; [done|unfold STORAGE_READY_TIMEOUT, STORAGE_READY_POLL_INTERVAL; lia|lia].
Qed.
End StorageClients.

(** ** Retention cleanup, for every lawful backend *)

Section Cleanup.
Context {S : Type} `{!AuditStorage S} `{!AuditStorageLaws S} `{!ArchiveEnv}.

Definition expired (cutoff : Z) (s : S) : list AuditEvent := filter (before cutoff) (st_contents s).
Definition retained (cutoff : Z) (s : S) : list AuditEvent :=
  filter (fun e => ¬ before cutoff e) (st_contents s).

Lemma expired_after_purge cutoff s s' :
  st_contents s' = retained cutoff s → expired cutoff s' = [] ∧ retained cutoff s' = retained cutoff s.
Proof.
  intros E. unfold expired, retained in *. rewrite E. split.
  - apply filter_none. intros x [Hx _]%list_elem_of_filter. done.
  - apply filter_all. intros x [Hx _]%list_elem_of_filter. done.
Qed.

Lemma archive_events_ok now events dir fs p fs' :
  archive_events now events dir fs = (Ok p, fs') →
  ∃ lines, jsonl events = Ok lines ∧
    fs_files fs' = <[archive_path dir now := lines]> (fs_files fs).
Proof.
  unfold archive_events, fs_exec. destruct events as [|e events]; [done|].
  destruct fs as [files [|[f|] [|[f'|] faults]]]; cbn -[jsonl]; try done;
    destruct (jsonl (e :: events)) as [lines|] eqn:El; intros E; simplify_eq; eauto.
Qed.

(** The archive file a cycle writes for the batch it read. *)
Definition archived_batch (dir : option string) (now : Z) (batch : list AuditEvent) (fs fs' : Fs)
    : Prop :=
  match dir with
  | Some dir => ∃ lines, jsonl batch = Ok lines ∧
      fs_files fs' = <[archive_path dir now := lines]> (fs_files fs)
  | None => fs' = fs
  end.

(** With nothing expired an iteration ends the loop and changes nothing. *)
Lemma cleanup_loop_idle fuel i stamp cutoff dir total s fs :
  st_inv s → expired cutoff s = [] →
  ∃ r s', cleanup_loop (Datatypes.S fuel) i stamp cutoff dir total s fs = Some (r, s', fs) ∧
    st_contents s' = st_contents s.
Proof.
  intros Hi He. cbn [cleanup_loop].
  destruct (st_query_before cutoff CLEANUP_BATCH_SIZE s) as [[es|e] s1] eqn:Eq.
  - apply st_query_before_ok in Eq as (_ & Hc & ->); [|done].
    unfold expired in He. rewrite He, take_nil. eauto.
  - apply st_query_before_err in Eq as (_ & Hc); [|done]. eauto.
Qed.

(** The purge and the rest of a cycle, once the batch [batch] is archived. *)
Lemma cleanup_purge_phase stamp cutoff dir s s1 fs fs1 batch :
  st_inv s1 → st_contents s1 = st_contents s →
  batch = take CLEANUP_BATCH_SIZE (expired cutoff s) →
  archived_batch dir (stamp 0%nat) batch fs fs1 →
  ∃ r s' fs',
    (let '(p, s) := st_purge_before cutoff s1 in
     match p with
     | Err e => Some (Err e, s, fs1)
     | Ok purged =>
         if (length batch <? CLEANUP_BATCH_SIZE)%nat then Some (Ok (u64_add 0 purged), s, fs1)
         else cleanup_loop 1 1 stamp cutoff dir (u64_add 0 purged) s fs1
     end) = Some (r, s', fs') ∧
    (is_ok r = true → st_contents s' = retained cutoff s) ∧
    (st_contents s' = st_contents s ∨ st_contents s' = retained cutoff s ∧
      archived_batch dir (stamp 0%nat) (take CLEANUP_BATCH_SIZE (expired cutoff s)) fs fs').
Proof.
  intros Hi1 Hc1 -> Ha. destruct (st_purge_before cutoff s1) as [[n|e] s2] eqn:Ep.
  - apply st_purge_before_ok in Ep as (Hi2 & Hc2); [|done]. rewrite Hc1 in Hc2.
    fold (retained cutoff s) in Hc2.
    destruct (_ <? _)%nat; [by eexists _, _, _; auto|].
    destruct (expired_after_purge cutoff s s2 Hc2) as [He _].
    destruct (cleanup_loop_idle 0 1 stamp cutoff dir (u64_add 0 n) s2 fs1 Hi2 He)
      as (r & s' & Hr & Hc'). rewrite Hr. eexists _, _, _. split; [done|].
    rewrite Hc', Hc2. auto.
  - apply st_purge_before_err in Ep as (_ & Hc2); [|done].
    eexists _, _, _. split; [done|]. split; [done|]. left. congruence.
Qed.

(** One cleanup cycle: it ends, and what it did to the store and the archive. *)
Lemma cleanup_loop_cycle stamp cutoff dir s fs :
  st_inv s →
  ∃ r s' fs', cleanup_loop 2 0 stamp cutoff dir 0 s fs = Some (r, s', fs') ∧
    (is_ok r = true → st_contents s' = retained cutoff s) ∧
    (st_contents s' = st_contents s ∨
     st_contents s' = retained cutoff s ∧
     archived_batch dir (stamp 0%nat) (take CLEANUP_BATCH_SIZE (expired cutoff s)) fs fs').
Proof.
  intros Hi. cbn [cleanup_loop].
  destruct (st_query_before cutoff CLEANUP_BATCH_SIZE s) as [[es|e] s1] eqn:Eq.
  2: { apply st_query_before_err in Eq as (_ & Hc); [|done]. eexists _, _, _. split; [done|]. split; [done|auto]. }
  apply st_query_before_ok in Eq as (Hi1 & Hc1 & Hes); [|done]. fold (expired cutoff s) in Hes.
  destruct es as [|e0 es].
  { eexists _, _, _. split; [done|]. split; [|auto]. intros _. rewrite Hc1. unfold retained.
    assert (expired cutoff s = []) as He.
    { destruct (expired cutoff s) as [|x l]; [done|].
      pose proof CLEANUP_BATCH_SIZE_pos. by destruct CLEANUP_BATCH_SIZE; [lia|]. }
    unfold expired in He. symmetry. apply filter_all. intros x Hx. by eapply filter_nil_inv. }
  destruct dir as [dir|]; [|by apply (cleanup_purge_phase stamp cutoff None s s1 fs fs (e0 :: es))].
  destruct (archive_events (stamp 0%nat) (e0 :: es) dir fs) as [[p|e] fs1] eqn:Ea.
  - apply archive_events_ok in Ea.
    by apply (cleanup_purge_phase stamp cutoff (Some dir) s s1 fs fs1 (e0 :: es)).
  - eexists _, _, _. split; [done|]. split; [done|auto].
Qed.

(** A retention cycle ends: two iterations are always enough, because the
    purge of the first leaves nothing for the second. *)
Theorem run_cleanup_terminates days dir now stamp s fs :
  st_inv s → is_Some (run_cleanup 2 days dir now stamp s fs).
Proof.
  intros Hi. destruct days as [days|]; [|done]. unfold run_cleanup.
  destruct (cleanup_loop_cycle stamp (now - days * nanos_per_day) dir s fs Hi)
    as (r & s' & fs' & -> & _). done.
Qed.

(** Nothing is purged before its batch was archived: a cycle either leaves
    the stored log as it was, or has removed exactly the expired events after
    writing the archive file; but that file holds only the first
    [CLEANUP_BATCH_SIZE] of them, while the purge removes them all. *)
Theorem run_cleanup_archives_first_batch days dir now stamp s fs r s' fs' :
  st_inv s → run_cleanup 2 (Some days) (Some dir) now stamp s fs = Some (r, s', fs') →
  let cutoff := now - days * nanos_per_day in
  (is_ok r = true → st_contents s' = retained cutoff s) ∧
  (st_contents s' = st_contents s ∨
   st_contents s' = retained cutoff s ∧
   ∃ lines, jsonl (take CLEANUP_BATCH_SIZE (expired cutoff s)) = Ok lines ∧
     fs_files fs' = <[archive_path dir (stamp 0%nat) := lines]> (fs_files fs)).
Proof.
  intros Hi Hr cutoff. unfold run_cleanup in Hr. fold cutoff in Hr.
  destruct (cleanup_loop_cycle stamp cutoff (Some dir) s fs Hi) as (r0 & s0 & fs0 & E & Hx).
  rewrite Hr in E. injection E as <- <- <-. exact Hx.
Qed.
End Cleanup.

(** ** Witnesses *)

Definition witness_archive_env : ArchiveEnv := {|
  event_json := fun e => Ok (kind_to_string (ev_kind e));
  format_stamp := fun _ => "19700101_000000";
  path_join := fun d f => d +:+ "/" +:+ f;
|}.

(** One event sealed at time 5, read three days later. *)
Definition witness_store : PgDb := mkPgDb [@pg_insert_row witness_pg_env witness_sealed] true true [].
Definition witness_now : Z := 3 * nanos_per_day.

Lemma wait_for_storage_terminates_witness :
  is_Some (@wait_for_storage PgDb (@PgAuditStorage witness_pg_env witness_env)
             121 0 (fun _ => 3) 7 (7 + STORAGE_READY_TIMEOUT) witness_store).
Proof. apply (@wait_for_storage_terminates PgDb (@PgAuditStorage witness_pg_env witness_env)). lia. Defined.

Lemma witness_store_inv : pg_inv witness_store.
Proof. apply NoDup_singleton. Qed.

Lemma run_cleanup_terminates_witness :
  is_Some (@run_cleanup PgDb (@PgAuditStorage witness_pg_env witness_env) witness_archive_env
             2 (Some 1) (Some "dir") witness_now (fun _ => witness_now) witness_store (mkFs ∅ [])).
Proof.
  apply (@run_cleanup_terminates PgDb _ (@PgAuditStorageLaws witness_pg_env witness_env)).
  apply witness_store_inv.
Defined.

Lemma run_cleanup_archives_first_batch_witness :
  ∃ r s' fs',
    @run_cleanup PgDb (@PgAuditStorage witness_pg_env witness_env) witness_archive_env
      2 (Some 1) (Some "dir") witness_now (fun _ => witness_now) witness_store (mkFs ∅ [])
    = Some (r, s', fs') ∧ r = Ok 1 ∧ pg_rows s' = [] ∧
    (is_ok r = true → pg_contents s' =
       @retained PgDb _ (@PgAuditStorageLaws witness_pg_env witness_env)
         (witness_now - 1 * nanos_per_day) witness_store).
Proof.
  destruct (@run_cleanup PgDb (@PgAuditStorage witness_pg_env witness_env) witness_archive_env
      2 (Some 1) (Some "dir") witness_now (fun _ => witness_now) witness_store (mkFs ∅ []))
    as [[[r s'] fs']|] eqn:E; [|by vm_compute in E].
  exists r, s', fs'. split; [done|].
  pose proof (@run_cleanup_archives_first_batch PgDb _ (@PgAuditStorageLaws witness_pg_env witness_env)
    witness_archive_env 1 "dir" witness_now (fun _ => witness_now) witness_store (mkFs ∅ []) r s' fs'
    witness_store_inv E) as [Hok _].
  vm_compute in E. injection E as <- <- <-. split; [done|]. split; [done|]. exact Hok.
Defined.
