(* ===== verification/AuditSystem.v ===== *)
(** * The audit pipeline end to end

    Agent, hash chain, writer task and PostgreSQL backend composed the way
    [AuditAgent::spawn] composes them: a service session loads the chain
    state from storage, seals what arrives and persists it; the next session
    does the same on the store the first one left. *)

From stdpp Require Import pretty.
From S2P Require Import Prelude FrameworkError AuditEvent AuditChain AuditStorage AuditAgent.

Local Open Scope string_scope.
Local Open Scope Z_scope.
Local Open Scope list_scope.

Section System.
Context `{PgEnv} `{ChainEnv}.

(** One run of the service: what arrives before and after the chain state
    is loaded. *)
Record session := mkSession { se_early : list AuditEvent; se_late : list AuditEvent }.

(** What of a session gets into the log: the overflow of the pending buffer
    does not. *)
Definition session_events (s : session) : list AuditEvent :=
  take MAX_PENDING_EVENTS (se_early s) ++ se_late s.

(** What the agent hands to the writer in a session. *)
Definition session_queue (prev : option string) (seq : Z) (service : string)
    (s : session) : list AuditEvent :=
  default [] (ag_writer (agent_run
    (map Event (se_early s) ++ ChainLoaded prev seq service :: map Event (se_late s))
    (agent_spawn true))).

(** A whole session of the service against the store. *)
Definition audit_session (service : string) (db : PgDb) (s : session) : PgDb :=
  let '(prev, seq, storage) := load_chain_state (Some db) in
  match storage with
  | Some db => (writer_task (session_queue prev seq service s) db).1
  | None => db
  end.

Lemma session_queue_eq prev seq service s :
  session_queue prev seq service s = (seal_all (loaded_chain prev seq service) (session_events s)).1.
Proof.
  unfold session_queue.
  by destruct (agent_run_log true (se_early s) prev seq service (se_late s)) as (-> & _).
Qed.

(** ** Sealing keeps what the database cares about *)

Lemma seal_all_ids c events : map ev_id (seal_all c events).1 = map ev_id events.
Proof.
  revert c. induction events as [|e events IH]; intros c; [done|].
  cbn [seal_all]. destruct (seal c e) as [e' c'] eqn:Es. specialize (IH c').
  destruct (seal_all c' events). simpl in *. rewrite IH. f_equal. by injection Es as <- _.
Qed.

Lemma seal_all_Forall (P Q : AuditEvent → Prop) c events :
  (∀ c e, P e → Q (seal c e).1) → Forall P events → Forall Q (seal_all c events).1.
Proof.
  intros HPQ. revert c. induction events as [|e events IH]; intros c Hp; [constructor|].
  inversion_clear Hp. pose proof (HPQ c e) as Hq. cbn [seal_all].
  destruct (seal c e) as [e' c']. specialize (IH c').
  destruct (seal_all c' events). cbn [fst] in *. constructor; auto.
Qed.

Lemma event_ok_seal c e : event_ok e → event_ok (seal c e).1.
Proof.
  intros (H1 & H2 & H3 & _). repeat split; simpl; auto; apply Z.mod_pos_bound; lia.
Qed.

Lemma seal_has_hash c e : is_Some (ev_hash (seal c e).1).
Proof. by eexists. Qed.

(** ** The writer on a healthy database *)

Lemma writer_task_healthy queue : ∀ db,
  pg_faults db = [] →
  NoDup (row_id <$> (pg_rows db ++ map pg_insert_row queue)) →
  NoDup (row_sequence <$> (pg_rows db ++ map pg_insert_row queue)) →
  Forall (fun e => is_Some (ev_hash e)) queue →
  (writer_task queue db).1 = pg_set_rows db (pg_rows db ++ map pg_insert_row queue).
Proof.
  induction queue as [|e queue IH]; intros db Hf Hi Hs Hh; cbn [writer_task map].
  { destruct db; simpl. by rewrite app_nil_r. }
  inversion_clear Hh as [|? ? He Hh'].
  assert (pg_append e db = (Ok tt, pg_set_rows db (pg_rows db ++ [pg_insert_row e]))) as Ha.
  { unfold pg_append, pg_exec. rewrite Hf.
    clear IH. rewrite fmap_app in Hi; rewrite fmap_app in Hs.
    apply NoDup_app in Hi; apply NoDup_app in Hs.
    assert (pg_violates db (pg_insert_row e) = false) as ->; [|done].
    unfold pg_violates. rewrite !bool_decide_eq_false_2; [done|..].
    - simpl. destruct He as [? ->]. done.
    - intros Hx. destruct Hs as (_ & Hs & _). specialize (Hs _ Hx). set_solver.
    - intros Hx. destruct Hi as (_ & Hi & _). specialize (Hi _ Hx). set_solver. }
  change (@st_append PgDb _ e db) with (pg_append e db). rewrite Ha.
  specialize (IH (pg_set_rows db (pg_rows db ++ [pg_insert_row e]))). simpl in IH.
  rewrite <-!app_assoc in IH. cbn [app] in IH. specialize (IH Hf Hi Hs Hh').
  destruct (writer_task queue _). simpl in *. by rewrite IH.
Qed.

(** ** Stored rows are in sequence order *)

(** The rows of a log sealed from genesis. *)
Definition log_rows (service : string) (events : list AuditEvent) : list AuditEventRow :=
  map pg_insert_row (seal_all (chain_new service) events).1.

Lemma log_rows_sequence service events i r :
  Z.of_nat (length events) < 2 ^ 63 →
  log_rows service events !! i = Some r → row_sequence r = Z.of_nat i + 1.
Proof.
  intros Hn. unfold log_rows. rewrite list_lookup_fmap. intros (e & He & ->)%fmap_Some.
  assert (i < length events)%nat as Hi.
  { rewrite <-(length_seal_all (chain_new service)). by eapply lookup_lt_Some. }
  eapply seal_all_sequence in He; [|done|unfold fits; simpl; lia].
  simpl in *. rewrite He. apply as_signed_small. lia.
Qed.

Lemma log_rows_sorted service events :
  Z.of_nat (length events) < 2 ^ 63 →
  StronglySorted (fun r r' => row_sequence r < row_sequence r') (log_rows service events).
Proof.
  intros Hn. assert (∀ i r, log_rows service events !! i = Some r → row_sequence r = Z.of_nat i + 1)
    as Hl by (intros; by eapply log_rows_sequence).
  clear Hn. revert Hl. generalize 1 (log_rows service events). clear.
  intros z l. revert z. induction l as [|r l IH]; intros z Hl; constructor.
  - apply (IH (z + 1)). intros i r' Hi. rewrite (Hl (S i) r') by done. lia.
  - apply Forall_lookup. intros i r' Hi. rewrite (Hl 0%nat r), (Hl (S i) r') by done. lia.
Qed.

Lemma sorted_sequence_NoDup rows :
  StronglySorted (fun r r' => row_sequence r < row_sequence r') rows →
  NoDup (row_sequence <$> rows).
Proof.
  induction 1 as [|r rows _ IH Hr]; [constructor|]. simpl. constructor; [|done].
  intros (r' & E & Hin)%list_elem_of_fmap. rewrite Forall_forall in Hr.
  specialize (Hr r' Hin). lia.
Qed.

Lemma order_by_sequence_sorted rows :
  StronglySorted (fun r r' => row_sequence r < row_sequence r') rows →
  order_by_sequence rows = rows.
Proof.
  intros Hs. pose proof (sorted_sequence_NoDup rows Hs) as Hn. unfold order_by_sequence.
  apply (Sorted_unique_strong seq_le).
  - intros r r' Hr Hr' Hle Hge. rewrite merge_sort_Permutation in Hr.
    unfold seq_le in *. apply (NoDup_fmap_elem_inj row_sequence rows); [done..|lia].
  - apply Sorted_merge_sort; apply _.
  - apply StronglySorted_Sorted. clear Hn. induction Hs as [|r rows Hs IH Hr]; constructor; [done|].
    eapply Forall_impl; [exact Hr|]. intros r' Hlt. unfold seq_le. simpl in Hlt. lia.
  - by rewrite merge_sort_Permutation.
Qed.

Lemma pg_latest_sorted db :
  pg_faults db = [] →
  StronglySorted (fun r r' => row_sequence r < row_sequence r') (pg_rows db) →
  pg_latest db = (Ok (pg_row_to_event <$> last (pg_rows db)), db).
Proof.
  intros Hf Hs. unfold pg_latest, pg_select, pg_exec. rewrite Hf, order_by_sequence_sorted by done.
  destruct (pg_rows db) as [|r rows _] using rev_ind; [done|].
  by rewrite reverse_snoc, last_snoc.
Qed.

(** ** Sessions *)

(** The store holds the log of [events] sealed from genesis. *)
Definition holds_log (service : string) (events : list AuditEvent) (db : PgDb) : Prop :=
  pg_faults db = [] ∧ pg_rows db = log_rows service events.

(** Events a log can hold: well-formed, distinct, not more than the sequence
    column can number. *)
Definition loggable (events : list AuditEvent) : Prop :=
  Forall event_ok events ∧ NoDup (ev_id <$> events) ∧ Z.of_nat (length events) < 2 ^ 63.

Lemma loggable_prefix es1 es2 : loggable (es1 ++ es2) → loggable es1.
Proof.
  unfold loggable. rewrite Forall_app, fmap_app, NoDup_app, length_app. intros. naive_solver lia.
Qed.

(** What the next session loads lets it seal where the last one stopped. *)
Lemma load_chain_state_log service es db new :
  loggable es → holds_log service es db →
  ∃ prev seq, load_chain_state (Some db) = (prev, seq, Some db) ∧
    pg_rows db ++ map pg_insert_row (seal_all (loaded_chain prev seq service) new).1 =
    log_rows service (es ++ new).
Proof.
  intros (Hok & _ & Hn) [Hf Hr]. unfold load_chain_state.
  change (@st_latest PgDb _ db) with (pg_latest db).
  rewrite pg_latest_sorted by (rewrite ?Hr; auto using log_rows_sorted).
  rewrite Hr. clear Hr. destruct es as [|e es _] using rev_ind.
  { eexists None, 0. done. }
  destruct (seal_all_tip (chain_new service) es e) as (l & h & Hl & Hh & _).
  unfold log_rows at 1. rewrite fmap_last, Hl. cbn [fmap option_fmap option_map].
  assert (event_ok l) as Hol.
  { pose proof (seal_all_Forall event_ok event_ok (chain_new service) _ event_ok_seal Hok) as Ho.
    rewrite Forall_forall in Ho. apply Ho. by apply last_Some_elem_of. }
  rewrite pg_row_roundtrip by done. cbn. rewrite Hh. eexists (Some h), _. split; [done|].
  unfold log_rows. rewrite <-map_app. f_equal. by apply seal_all_resume.
Qed.

Lemma log_rows_ids service es : row_id <$> log_rows service es = ev_id <$> es.
Proof.
  change (ev_id <$> es) with (map ev_id es). rewrite <-(seal_all_ids (chain_new service) es).
  unfold log_rows. change (row_id <$> ?l) with (map row_id l). by rewrite map_map.
Qed.

Lemma audit_session_log service es s db :
  loggable (es ++ session_events s) → holds_log service es db →
  holds_log service (es ++ session_events s) (audit_session service db s).
Proof.
  intros Hl Hdb. pose proof Hdb as [Hf _]. unfold audit_session.
  destruct (load_chain_state_log service es db (session_events s)) as (prev & seq & -> & Hrows);
    [by eapply loggable_prefix|done|].
  rewrite session_queue_eq. destruct Hl as (Hok & Hids & Hn).
  rewrite writer_task_healthy; rewrite ?Hrows.
  - by split.
  - done.
  - by rewrite log_rows_ids.
  - by apply sorted_sequence_NoDup, log_rows_sorted.
  - apply (seal_all_Forall (fun _ => True)); [intros ? ? _; apply seal_has_hash|by apply Forall_true].
Qed.

Lemma audit_sessions_log service sessions : ∀ es db,
  loggable (es ++ concat (map session_events sessions)) → holds_log service es db →
  holds_log service (es ++ concat (map session_events sessions))
    (fold_left (audit_session service) sessions db).
Proof.
  induction sessions as [|s sessions IH]; intros es db Hl Hdb; cbn [map concat fold_left] in *.
  { by rewrite app_nil_r. }
  rewrite app_assoc in *. apply IH; [done|].
  apply audit_session_log; [by eapply loggable_prefix|done].
Qed.

(** *** What the columns change *)

(** An event as it is read back. *)
Definition stored (e : AuditEvent) : AuditEvent := pg_row_to_event (pg_insert_row e).

(** The columns do not keep what the hash covers. *)
Definition altered (e : AuditEvent) : Prop := hash_input_v2 (stored e) ≠ hash_input_v2 e.

(** JSONB keeps the metadata but for the order of object keys. *)
Definition metadata_kept (e : AuditEvent) : Prop :=
  match ev_metadata e with Some m => json_reorder m (pg_jsonb m) | None => True end.

(** With such metadata it is the time that is altered: its text changes. *)
Lemma altered_time e :
  event_ok e → metadata_kept e → event_sized e → event_sized (stored e) →
  altered e ↔ to_rfc3339 (pg_timestamptz (ev_timestamp e)) ≠ to_rfc3339 (ev_timestamp e).
Proof.
  intros Hok Hm Hs Hs'. unfold altered. split; intros Hn E; apply Hn; clear Hn.
  - unfold stored. rewrite pg_row_roundtrip by done. unfold hash_input_v2, hash_fields_v2; cbn -[canonical_json le_bytes]. rewrite E.
    unfold metadata_kept in Hm. by destruct (ev_metadata e) as [m|]; cbn -[canonical_json le_bytes]; [rewrite <-(canonical_json_reorder m) by done|].
  - apply frames_inj in E; [|done..].
    assert (hash_fields_v2 (stored e) !! 3%nat = hash_fields_v2 e !! 3%nat) as E3 by (by rewrite E).
    cbn -[le_bytes] in E3. by injection E3 as ?%str_bytes_inj.
Qed.

(** The verdict on the rows of a sealed log names the first event that was
    altered. *)
Lemma verify_from_stored c es :
  Forall event_ok es →
  let sealed := (seal_all c es).1 in
  match verify_from (ch_previous_hash c) (map stored sealed) with Ok _ => None | Err e => Some (cve_sequence e) end =
    ev_sequence <$> head (filter altered sealed) ∨ blake3_collision sealed (map stored sealed).
Proof.
  intros Hok sealed. subst sealed. revert c. induction Hok as [|e es He Hes IH]; intros c; [by left|].
  cbn [seal_all]. pose proof (seal_recompute c e) as Hr. pose proof (seal_link c e) as Hl.
  pose proof (event_ok_seal c e He) as Ho. unfold seal in *. cbn [fst] in *. set (e' := set_hash _ _) in *.
  destruct Hl as (Hp & Hh & _). specialize (IH (mkAuditChain (Some (compute_hash_v2 (set_link e (u64_add (ch_sequence c) 1) (ch_previous_hash c)
    (ch_service_name c)))) (u64_add (ch_sequence c) 1) (ch_service_name c))).
  destruct (seal_all _ es) as [sealed c'']. cbn [fst map verify_from] in *.
  assert (ev_previous_hash (stored e') = ev_previous_hash e' ∧ ev_hash (stored e') = ev_hash e' ∧ ev_sequence (stored e') = ev_sequence e')
    as (Ep & Eh & Es) by (unfold stored; by rewrite pg_row_roundtrip).
  assert (recompute_hash e' = compute_hash_v2 e') as Ev by by eapply recompute_hash_v2.
  assert (recompute_hash (stored e') = compute_hash_v2 (stored e')) as Ev' by (eapply recompute_hash_v2; by rewrite Eh).
  rewrite Ep, Eh, Es, Hp, decide_True by done. destruct (decide (altered e')) as [Ha|Ha].
  - rewrite filter_cons_True by done. cbn [head fmap option_fmap option_map]. rewrite Hr, Ev, Ev'. destruct (decide _) as [E|]; [|by left].
    right. injection E as E%string_app_inj_l. exists e', (stored e'). split_and!; [by left|by left|by intros ?; apply Ha|done].
  - rewrite filter_cons_False by done. rewrite decide_True.
    2:{ rewrite Hr, Ev, Ev'. unfold compute_hash_v2. do 2 f_equal. f_equal. unfold altered in Ha. by apply dec_stable in Ha. }
    rewrite Hh. destruct IH as [IH|(a & b & ? & ? & ?)]; [by left|right]. exists a, b. set_solver.
Qed.

Lemma pg_verify_log service es db :
  loggable es → holds_log service es db →
  let sealed := (seal_all (chain_new service) es).1 in
  pg_verify_chain 1 db = (Ok (ev_sequence <$> head (filter altered sealed)), db) ∨ blake3_collision sealed (map stored sealed).
Proof.
  intros (Hok & _ & Hn) [Hf Hr] sealed. unfold pg_verify_chain, pg_select, pg_exec.
  rewrite Hf, filter_all, order_by_sequence_sorted; rewrite ?Hr; [|by apply log_rows_sorted|].
  - unfold log_rows. rewrite map_map, verify_chain_eq. fold stored.
    destruct (verify_from_stored (chain_new service) es Hok) as [Hv|]; [left|by right]. subst sealed. rewrite <- Hv. cbn [ch_previous_hash chain_new].
    by destruct (verify_from None _).
  - intros r [i Hi]%list_elem_of_lookup. rewrite (log_rows_sequence service es i r Hn Hi).
    rewrite as_signed_small; lia.
Qed.

(** C1: However often the service is restarted, the rows of a PostgreSQL database
    whose statements do not fail are those of a single chain sealed from genesis
    over everything the sessions logged, in order: loading the chain state from
    the latest row, sealing, and writing compose into one unbroken log. The
    database's own verification then accepts exactly the logs whose columns keep
    what the hashes cover: it reports the first event that was altered by being
    stored, and no other break, unless two events are a BLAKE3 collision. When
    JSONB only reorders object keys, an event is altered exactly if [TIMESTAMPTZ]
    changes the text of its time, as it does for times that are not whole
    microseconds. *)
Theorem audit_restarts_verify service sessions :
  let events := concat (map session_events sessions) in
  let sealed := (seal_all (chain_new service) events).1 in
  let db := fold_left (audit_session service) sessions (mkPgDb [] true true []) in
  loggable events →
  pg_rows db = map pg_insert_row sealed ∧
  (pg_verify_chain 1 db = (Ok (ev_sequence <$> head (filter altered sealed)), db) ∨ blake3_collision sealed (map stored sealed)) ∧
  (∀ e, e ∈ sealed → metadata_kept e → event_sized e → event_sized (stored e) →
     altered e ↔ to_rfc3339 (pg_timestamptz (ev_timestamp e)) ≠ to_rfc3339 (ev_timestamp e)).
Proof.
  intros events sealed db Hl.
  assert (holds_log service events db) as Hh by by apply (audit_sessions_log service sessions []).
  split; [apply Hh|]. split; [by apply pg_verify_log|]. intros e He. apply altered_time.
  assert (Forall event_ok sealed) as Hok by (apply (seal_all_Forall event_ok); [apply event_ok_seal|apply Hl]).
  rewrite Forall_forall in Hok. by apply Hok.
Qed.
End System.

(** ** Witness *)

(** Times printed in full, and a column that keeps microseconds. *)
Definition nano_env : ChainEnv := {|
  blake3_hex := blake3_hex (ChainEnv := witness_env);
  to_rfc3339 := fun t => pretty t;
  scalar_to_string := scalar_to_string (ChainEnv := witness_env);
|}.

Definition micro_env : PgEnv := {|
  pg_timestamptz := fun t => t / 1000 * 1000; pg_jsonb := fun m => m; pg_constraint_msg := "duplicate key";
|}.

Definition logged_at (id t : Z) : AuditEvent := AuditEvent_new (replicate 16 (byte_of_Z id)) t HttpRequest SevInformational "svc".

(** Two sessions: whole microseconds, and then a time of the clock. *)
Definition witness_sessions (t : Z) : list session :=
  [mkSession [logged_at 7 5000] []; mkSession [] [logged_at 8 9000; logged_at 9 t]].

Lemma audit_restarts_verify_witness :
  let db t := fold_left (@audit_session micro_env nano_env "svc") (witness_sessions t) (mkPgDb [] true true []) in
  length (pg_rows (db 12000)) = 3%nat ∧
  (@pg_verify_chain nano_env 1 (db 12000)).1 = Ok None ∧ (@pg_verify_chain nano_env 1 (db 12345)).1 = Ok (Some 3).
Proof.
  assert (∀ t, Forall event_ok [logged_at 7 5000; logged_at 8 9000; logged_at 9 t]) as Hok by (intros; repeat constructor; vm_compute; done).
  assert (∀ t, loggable (concat (map session_events (witness_sessions t)))) as Hl.
  { intros t. split; [exact (Hok t)|split; [apply (bool_decide_unpack _); vm_compute; exact I|vm_compute; reflexivity]]. }
  destruct (@audit_restarts_verify micro_env nano_env "svc" (witness_sessions 12000) (Hl _)) as (Hr & _ & _).
  split_and!; [by rewrite Hr, length_map, length_seal_all|vm_compute; reflexivity..].
Defined.
