(* ===== verification/Password.v ===== *)
(** * Password hashing

    [src/acton-service/src/auth/password.rs]: the length check in front of
    Argon2id, verification, and the decision whether a stored hash needs to be
    replaced. The [argon2] and [password_hash] crates are the parameters of
    [Argon2Env]; a salt drawn from [OsRng] is an argument of [hash]. *)

From stdpp Require Import pretty.
From S2P Require Import Prelude FrameworkError.

Local Open Scope string_scope.
Local Open Scope Z_scope.
Local Open Scope list_scope.

Record PasswordConfig := mkPasswordConfig {
  pc_memory_cost_kib : Z;
  pc_time_cost : Z;
  pc_parallelism : Z;
  pc_min_password_length : Z;
}.

(** [argon2::Params], as far as its accessors show. *)
Record Params := mkParams { m_cost : Z; t_cost : Z; p_cost : Z }.

#[global] Instance Params_eq_dec : EqDecision Params.
Proof. solve_decision. Defined.

(** [password_hash::PasswordHash]: the parts [needs_rehash] looks at; a
    parameter's [decimal()] is [None] when the value is not a number. *)
Record PhcHash := mkPhcHash {
  phc_algorithm : string;
  phc_version : option Z;
  phc_params : list (string * option Z);
  phc_rest : string;
}.

(** [password_hash::Error], split at the case the code tells apart. *)
Inductive PhcError := Phc_Password | Phc_Other (msg : string).

Class Argon2Env := {
  (** [Params::new]; [None] where the crate refuses the parameters. *)
  argon2_params : Z → Z → Z → option Params;
  (** [Argon2::hash_password(..).to_string()]. *)
  argon2_hash : Params → string → string → result string string;
  (** [PasswordHash::new]. *)
  phc_new : string → result PhcHash string;
  (** [Argon2::default().verify_password]. *)
  argon2_verify : string → PhcHash → result unit PhcError;
}.

(** What the crates document of the above. *)
Class Argon2Laws `{Argon2Env} := {
  (** A produced hash is a PHC string that records algorithm, version and
      cost parameters. *)
  argon2_hash_phc p salt pw h :
    argon2_hash p salt pw = Ok h →
    ∃ rest, phc_new h = Ok (mkPhcHash "argon2id" (Some 19)
              [("m", Some (m_cost p)); ("t", Some (t_cost p)); ("p", Some (p_cost p))] rest);
  (** The password a hash was made from verifies. *)
  argon2_hash_verify p salt pw h phc :
    argon2_hash p salt pw = Ok h → phc_new h = Ok phc → argon2_verify pw phc = Ok tt;
}.

Record PasswordHasher := mkPasswordHasher {
  ph_params : Params;
  ph_min_password_length : Z;
}.

Section Password.
Context `{Argon2Env}.

(** [PasswordHasher::new]; [None] is the panic of [expect]. *)
Definition hasher_new (config : PasswordConfig) : option PasswordHasher :=
  params ← argon2_params (pc_memory_cost_kib config) (pc_time_cost config) (pc_parallelism config);
  Some (mkPasswordHasher params (pc_min_password_length config)).

Definition hash (h : PasswordHasher) (salt password : string) : result string Error :=
  if Z.of_nat (String.length password) <? ph_min_password_length h then
    Err (Error_ValidationError ("Password must be at least " +:+
           pretty (ph_min_password_length h) +:+ " characters"))
  else
    map_err (fun e => Error_Auth ("Failed to hash password: " +:+ e))
      (argon2_hash (ph_params h) salt password).

Definition verify (password hash : string) : result bool Error :=
  match phc_new hash with
  | Err e => Err (Error_Auth ("Invalid password hash format: " +:+ e))
  | Ok parsed_hash =>
      match argon2_verify password parsed_hash with
      | Ok _ => Ok true
      | Err Phc_Password => Ok false
      | Err (Phc_Other e) => Err (Error_Auth ("Password verification failed: " +:+ e))
      end
  end.

(** [params.iter().find(|(k, _)| k == name).and_then(|(_, v)| v.decimal().ok())]. *)
Definition phc_param (name : string) (params : list (string * option Z)) : option Z :=
  match List.find (fun kv => String.eqb (fst kv) name) params with
  | Some (_, v) => v
  | None => None
  end.

Definition needs_rehash (h : PasswordHasher) (hash : string) : bool :=
  match phc_new hash with
  | Err _ => true
  | Ok parsed_hash =>
      if negb (String.eqb (phc_algorithm parsed_hash) "argon2id") then true
      else match phc_version parsed_hash with
      | None => true
      | Some version =>
          if negb (version =? 19) then true
          else
            let params := phc_params parsed_hash in
            if bool_decide (phc_param "m" params ≠ Some (m_cost (ph_params h))) then true
            else if bool_decide (phc_param "t" params ≠ Some (t_cost (ph_params h))) then true
            else if bool_decide (phc_param "p" params ≠ Some (p_cost (ph_params h))) then true
            else false
      end
  end.

Lemma hash_Ok h salt password s :
  hash h salt password = Ok s →
  ph_min_password_length h ≤ Z.of_nat (String.length password) ∧
  argon2_hash (ph_params h) salt password = Ok s.
Proof.
  unfold hash. destruct (Z.ltb_spec (Z.of_nat (String.length password)) (ph_min_password_length h)).
  - done.
  - intros E. by apply map_err_Ok in E.
Qed.

Lemma hash_too_short h salt password :
  Z.of_nat (String.length password) < ph_min_password_length h →
  ∃ msg, hash h salt password = Err (Error_ValidationError msg).
Proof. intros Hl. unfold hash. apply Z.ltb_lt in Hl as ->. eauto. Qed.

Context `{!Argon2Laws}.

Lemma verify_hash h salt password s : hash h salt password = Ok s → verify password s = Ok true.
Proof.
  intros [_ Hh]%hash_Ok. destruct (argon2_hash_phc _ _ _ _ Hh) as [rest Hp].
  unfold verify. rewrite Hp. by rewrite (argon2_hash_verify _ _ _ _ _ Hh Hp).
Qed.

(** A stored hash verifies with the password it was made from, and any
    hasher asks to replace it exactly when its own cost parameters differ
    from those of the hasher that made it. *)
Theorem password_hash_lifecycle h salt password s h' :
  hash h salt password = Ok s →
  verify password s = Ok true ∧ (needs_rehash h' s = false ↔ ph_params h' = ph_params h).
Proof.
  intros Hs. split; [by eapply verify_hash|].
  apply hash_Ok in Hs as [_ Hh]. destruct (argon2_hash_phc _ _ _ _ Hh) as [rest Hp].
  unfold needs_rehash. rewrite Hp. cbn.
  destruct (ph_params h) as [m t p], (ph_params h') as [m' t' p']; cbn.
  repeat case_bool_decide; naive_solver.
Qed.
End Password.

(** ** Witness *)

(** A stand-in for Argon2 that knows one set of parameters and does not hide
    the password. *)
Definition witness_params : Params := mkParams 8 1 1.

#[local] Instance witness_argon2 : Argon2Env := {|
  argon2_params m t p := Some (mkParams m t p);
  argon2_hash p salt pw :=
    if decide (p = witness_params) then Ok (pw +:+ "$") else Err "unsupported parameters";
  phc_new h := Ok (mkPhcHash "argon2id" (Some 19) [("m", Some 8); ("t", Some 1); ("p", Some 1)] h);
  argon2_verify pw phc :=
    if String.eqb (phc_rest phc) (pw +:+ "$") then Ok tt else Err Phc_Password;
|}.

#[local] Instance witness_argon2_laws : Argon2Laws.
Proof.
  split; cbn; intros p salt pw h; case_decide; try done; subst; [by eexists|].
  intros phc [= <-] [= <-]. cbn. by rewrite String.eqb_refl.
Qed.

Definition witness_hasher : PasswordHasher := mkPasswordHasher witness_params 8.

Lemma password_hash_lifecycle_witness :
  verify "correct horse" "correct horse$" = Ok true ∧
  (needs_rehash (mkPasswordHasher (mkParams 16 1 1) 8) "correct horse$" = false ↔
   mkParams 16 1 1 = witness_params).
Proof.
  apply (password_hash_lifecycle witness_hasher "salt" "correct horse" "correct horse$"
           (mkPasswordHasher (mkParams 16 1 1) 8)).
  reflexivity.
Defined.
