(* ===== verification/Accounts.v ===== *)
(** * Accounts: types, errors and events

    [src/acton-service/src/accounts/{types,error,notification,config}.rs] and
    the parts of [accounts/mod.rs] that need no service state: e-mail
    validation, the conversion to framework errors and the bridge from account
    events to audit events. TypeIDs come from the [mti] crate, a parameter. *)

From S2P Require Import Prelude FrameworkError AuditEvent.

Local Open Scope string_scope.
Local Open Scope Z_scope.
Local Open Scope list_scope.

(** ** Account ids *)

(** [mti]'s [MagicTypeId]; the second argument of [mti_create] stands for the
    clock and random bits of a UUIDv7. *)
Class TypeIdEnv := {
  MagicTypeId : Type;
  mti_eq_dec :: EqDecision MagicTypeId;
  mti_create : string → nat → MagicTypeId;
  mti_prefix : MagicTypeId → string;
  mti_as_str : MagicTypeId → string;
  mti_from_str : string → result MagicTypeId string;
}.

(** Printing and parsing of a TypeID are inverse, and an id is created with
    the prefix asked for. *)
Class TypeIdLaws `{TypeIdEnv} := {
  mti_from_as_str m : mti_from_str (mti_as_str m) = Ok m;
  mti_as_from_str s m : mti_from_str s = Ok m → mti_as_str m = s;
  mti_create_prefix p n : mti_prefix (mti_create p n) = p;
}.

Definition AccountId_PREFIX : string := "acct".

Record AccountId `{TypeIdEnv} := mkAccountId { aid_mti : MagicTypeId }.

#[global] Instance AccountId_eq_dec `{TypeIdEnv} : EqDecision AccountId.
Proof. solve_decision. Defined.

Inductive AccountIdError :=
| IdError_Parse (e : string)
| IdError_InvalidPrefix (expected actual : string).

Section AccountIds.
Context `{TypeIdEnv}.

Definition AccountId_new (seed : nat) : AccountId := mkAccountId _ (mti_create AccountId_PREFIX seed).

Definition aid_as_str (i : AccountId) : string := mti_as_str (aid_mti i).

Definition AccountId_from_str (s : string) : result AccountId AccountIdError :=
  match mti_from_str s with
  | Err e => Err (IdError_Parse e)
  | Ok mti =>
      if negb (String.eqb (mti_prefix mti) AccountId_PREFIX)
      then Err (IdError_InvalidPrefix AccountId_PREFIX (mti_prefix mti))
      else Ok (mkAccountId _ mti)
  end.

Context `{!TypeIdLaws}.

Lemma aid_as_str_inj i j : aid_as_str i = aid_as_str j → i = j.
Proof.
  destruct i as [i], j as [j]. unfold aid_as_str; cbn. intros E.
  pose proof (mti_from_as_str i) as Hi. rewrite E, mti_from_as_str in Hi. congruence.
Qed.

Lemma AccountId_from_str_Ok s i :
  AccountId_from_str s = Ok i ↔ aid_as_str i = s ∧ mti_prefix (aid_mti i) = AccountId_PREFIX.
Proof.
  unfold AccountId_from_str, aid_as_str. split.
  - destruct (mti_from_str s) as [m|] eqn:E; [|done].
    destruct (String.eqb_spec (mti_prefix m) AccountId_PREFIX); [|done].
    intros [= <-]. cbn. split; [by apply mti_as_from_str|done].
  - intros [<- Hp]. rewrite mti_from_as_str, Hp. by destruct i.
Qed.

Lemma AccountId_new_prefix n : mti_prefix (aid_mti (AccountId_new n)) = AccountId_PREFIX.
Proof. apply mti_create_prefix. Qed.
End AccountIds.

(** ** Lifecycle states *)

Inductive AccountStatus :=
| PendingVerification | Active | Disabled | Locked | Expired | Suspended.

#[global] Instance AccountStatus_eq_dec : EqDecision AccountStatus.
Proof. solve_decision. Defined.

Definition can_transition_to (self target : AccountStatus) : bool :=
  match self, target with
  | PendingVerification, Active
  | PendingVerification, Disabled
  | PendingVerification, Expired
  | Active, Disabled
  | Active, Locked
  | Active, Expired
  | Active, Suspended
  | Disabled, Active
  | Locked, Active
  | Locked, Disabled
  | Expired, Active
  | Expired, Disabled
  | Suspended, Active
  | Suspended, Disabled => true
  | _, _ => false
  end.

(** [Display] and [FromStr] of [AccountStatus]. *)
Definition status_to_string (s : AccountStatus) : string :=
  match s with
  | PendingVerification => "pending_verification"
  | Active => "active"
  | Disabled => "disabled"
  | Locked => "locked"
  | Expired => "expired"
  | Suspended => "suspended"
  end.

Definition status_from_str (s : string) : result AccountStatus string :=
  if String.eqb s "pending_verification" then Ok PendingVerification
  else if String.eqb s "active" then Ok Active
  else if String.eqb s "disabled" then Ok Disabled
  else if String.eqb s "locked" then Ok Locked
  else if String.eqb s "expired" then Ok Expired
  else if String.eqb s "suspended" then Ok Suspended
  else Err ("unknown account status: " +:+ s).

Lemma status_from_to_string s : status_from_str (status_to_string s) = Ok s.
Proof. by destruct s. Qed.

Lemma status_to_string_inj s s' : status_to_string s = status_to_string s' → s = s'.
Proof. by destruct s, s'. Qed.

#[export] Hint Rewrite status_from_to_string : acton.

(** ** The account record *)

(** [Account], and the row types of the SQL backends, which have the same fields
    with other types for ids, statuses, roles, flags, times and metadata. *)
Record AccountOf (I St R B T J : Type) := mkAccount {
  acc_id : I;
  acc_email : string;
  acc_username : option string;
  acc_password_hash : option string;
  acc_status : St;
  acc_roles : R;
  acc_email_verified : B;
  acc_email_verified_at : option T;
  acc_last_login_at : option T;
  acc_locked_at : option T;
  acc_locked_reason : option string;
  acc_disabled_at : option T;
  acc_disabled_reason : option string;
  acc_expires_at : option T;
  acc_password_changed_at : option T;
  acc_failed_login_count : Z;
  acc_metadata : option J;
  acc_created_at : T;
  acc_updated_at : T;
}.
Arguments mkAccount {I St R B T J}.
Arguments acc_id {I St R B T J}.
Arguments acc_email {I St R B T J}.
Arguments acc_username {I St R B T J}.
Arguments acc_password_hash {I St R B T J}.
Arguments acc_status {I St R B T J}.
Arguments acc_roles {I St R B T J}.
Arguments acc_email_verified {I St R B T J}.
Arguments acc_email_verified_at {I St R B T J}.
Arguments acc_last_login_at {I St R B T J}.
Arguments acc_locked_at {I St R B T J}.
Arguments acc_locked_reason {I St R B T J}.
Arguments acc_disabled_at {I St R B T J}.
Arguments acc_disabled_reason {I St R B T J}.
Arguments acc_expires_at {I St R B T J}.
Arguments acc_password_changed_at {I St R B T J}.
Arguments acc_failed_login_count {I St R B T J}.
Arguments acc_metadata {I St R B T J}.
Arguments acc_created_at {I St R B T J}.
Arguments acc_updated_at {I St R B T J}.

(** Assignments to the fields. *)
Section Setters.
Context {I St R B T J : Type}.
Implicit Types a : AccountOf I St R B T J.
Definition set_email (v : string) a : AccountOf I St R B T J :=
  mkAccount (acc_id a) v (acc_username a) (acc_password_hash a) (acc_status a) (acc_roles a)
    (acc_email_verified a) (acc_email_verified_at a) (acc_last_login_at a) (acc_locked_at a)
    (acc_locked_reason a) (acc_disabled_at a) (acc_disabled_reason a) (acc_expires_at a)
    (acc_password_changed_at a) (acc_failed_login_count a) (acc_metadata a) (acc_created_at a)
    (acc_updated_at a).
Definition set_username (v : option string) a : AccountOf I St R B T J :=
  mkAccount (acc_id a) (acc_email a) v (acc_password_hash a) (acc_status a) (acc_roles a)
    (acc_email_verified a) (acc_email_verified_at a) (acc_last_login_at a) (acc_locked_at a)
    (acc_locked_reason a) (acc_disabled_at a) (acc_disabled_reason a) (acc_expires_at a)
    (acc_password_changed_at a) (acc_failed_login_count a) (acc_metadata a) (acc_created_at a)
    (acc_updated_at a).
Definition set_password_hash (v : option string) a : AccountOf I St R B T J :=
  mkAccount (acc_id a) (acc_email a) (acc_username a) v (acc_status a) (acc_roles a)
    (acc_email_verified a) (acc_email_verified_at a) (acc_last_login_at a) (acc_locked_at a)
    (acc_locked_reason a) (acc_disabled_at a) (acc_disabled_reason a) (acc_expires_at a)
    (acc_password_changed_at a) (acc_failed_login_count a) (acc_metadata a) (acc_created_at a)
    (acc_updated_at a).
Definition set_status (v : St) a : AccountOf I St R B T J :=
  mkAccount (acc_id a) (acc_email a) (acc_username a) (acc_password_hash a) v (acc_roles a)
    (acc_email_verified a) (acc_email_verified_at a) (acc_last_login_at a) (acc_locked_at a)
    (acc_locked_reason a) (acc_disabled_at a) (acc_disabled_reason a) (acc_expires_at a)
    (acc_password_changed_at a) (acc_failed_login_count a) (acc_metadata a) (acc_created_at a)
    (acc_updated_at a).
Definition set_roles (v : R) a : AccountOf I St R B T J :=
  mkAccount (acc_id a) (acc_email a) (acc_username a) (acc_password_hash a) (acc_status a) v
    (acc_email_verified a) (acc_email_verified_at a) (acc_last_login_at a) (acc_locked_at a)
    (acc_locked_reason a) (acc_disabled_at a) (acc_disabled_reason a) (acc_expires_at a)
    (acc_password_changed_at a) (acc_failed_login_count a) (acc_metadata a) (acc_created_at a)
    (acc_updated_at a).
Definition set_email_verified (v : B) a : AccountOf I St R B T J :=
  mkAccount (acc_id a) (acc_email a) (acc_username a) (acc_password_hash a) (acc_status a)
    (acc_roles a) v (acc_email_verified_at a) (acc_last_login_at a) (acc_locked_at a)
    (acc_locked_reason a) (acc_disabled_at a) (acc_disabled_reason a) (acc_expires_at a)
    (acc_password_changed_at a) (acc_failed_login_count a) (acc_metadata a) (acc_created_at a)
    (acc_updated_at a).
Definition set_email_verified_at (v : option T) a : AccountOf I St R B T J :=
  mkAccount (acc_id a) (acc_email a) (acc_username a) (acc_password_hash a) (acc_status a)
    (acc_roles a) (acc_email_verified a) v (acc_last_login_at a) (acc_locked_at a)
    (acc_locked_reason a) (acc_disabled_at a) (acc_disabled_reason a) (acc_expires_at a)
    (acc_password_changed_at a) (acc_failed_login_count a) (acc_metadata a) (acc_created_at a)
    (acc_updated_at a).
Definition set_last_login_at (v : option T) a : AccountOf I St R B T J :=
  mkAccount (acc_id a) (acc_email a) (acc_username a) (acc_password_hash a) (acc_status a)
    (acc_roles a) (acc_email_verified a) (acc_email_verified_at a) v (acc_locked_at a)
    (acc_locked_reason a) (acc_disabled_at a) (acc_disabled_reason a) (acc_expires_at a)
    (acc_password_changed_at a) (acc_failed_login_count a) (acc_metadata a) (acc_created_at a)
    (acc_updated_at a).
Definition set_locked_at (v : option T) a : AccountOf I St R B T J :=
  mkAccount (acc_id a) (acc_email a) (acc_username a) (acc_password_hash a) (acc_status a)
    (acc_roles a) (acc_email_verified a) (acc_email_verified_at a) (acc_last_login_at a) v
    (acc_locked_reason a) (acc_disabled_at a) (acc_disabled_reason a) (acc_expires_at a)
    (acc_password_changed_at a) (acc_failed_login_count a) (acc_metadata a) (acc_created_at a)
    (acc_updated_at a).
Definition set_locked_reason (v : option string) a : AccountOf I St R B T J :=
  mkAccount (acc_id a) (acc_email a) (acc_username a) (acc_password_hash a) (acc_status a)
    (acc_roles a) (acc_email_verified a) (acc_email_verified_at a) (acc_last_login_at a)
    (acc_locked_at a) v (acc_disabled_at a) (acc_disabled_reason a) (acc_expires_at a)
    (acc_password_changed_at a) (acc_failed_login_count a) (acc_metadata a) (acc_created_at a)
    (acc_updated_at a).
Definition set_disabled_at (v : option T) a : AccountOf I St R B T J :=
  mkAccount (acc_id a) (acc_email a) (acc_username a) (acc_password_hash a) (acc_status a)
    (acc_roles a) (acc_email_verified a) (acc_email_verified_at a) (acc_last_login_at a)
    (acc_locked_at a) (acc_locked_reason a) v (acc_disabled_reason a) (acc_expires_at a)
    (acc_password_changed_at a) (acc_failed_login_count a) (acc_metadata a) (acc_created_at a)
    (acc_updated_at a).
Definition set_disabled_reason (v : option string) a : AccountOf I St R B T J :=
  mkAccount (acc_id a) (acc_email a) (acc_username a) (acc_password_hash a) (acc_status a)
    (acc_roles a) (acc_email_verified a) (acc_email_verified_at a) (acc_last_login_at a)
    (acc_locked_at a) (acc_locked_reason a) (acc_disabled_at a) v (acc_expires_at a)
    (acc_password_changed_at a) (acc_failed_login_count a) (acc_metadata a) (acc_created_at a)
    (acc_updated_at a).
Definition set_expires_at (v : option T) a : AccountOf I St R B T J :=
  mkAccount (acc_id a) (acc_email a) (acc_username a) (acc_password_hash a) (acc_status a)
    (acc_roles a) (acc_email_verified a) (acc_email_verified_at a) (acc_last_login_at a)
    (acc_locked_at a) (acc_locked_reason a) (acc_disabled_at a) (acc_disabled_reason a) v
    (acc_password_changed_at a) (acc_failed_login_count a) (acc_metadata a) (acc_created_at a)
    (acc_updated_at a).
Definition set_password_changed_at (v : option T) a : AccountOf I St R B T J :=
  mkAccount (acc_id a) (acc_email a) (acc_username a) (acc_password_hash a) (acc_status a)
    (acc_roles a) (acc_email_verified a) (acc_email_verified_at a) (acc_last_login_at a)
    (acc_locked_at a) (acc_locked_reason a) (acc_disabled_at a) (acc_disabled_reason a)
    (acc_expires_at a) v (acc_failed_login_count a) (acc_metadata a) (acc_created_at a)
    (acc_updated_at a).
Definition set_failed_login_count (v : Z) a : AccountOf I St R B T J :=
  mkAccount (acc_id a) (acc_email a) (acc_username a) (acc_password_hash a) (acc_status a)
    (acc_roles a) (acc_email_verified a) (acc_email_verified_at a) (acc_last_login_at a)
    (acc_locked_at a) (acc_locked_reason a) (acc_disabled_at a) (acc_disabled_reason a)
    (acc_expires_at a) (acc_password_changed_at a) v (acc_metadata a) (acc_created_at a)
    (acc_updated_at a).
Definition set_metadata (v : option J) a : AccountOf I St R B T J :=
  mkAccount (acc_id a) (acc_email a) (acc_username a) (acc_password_hash a) (acc_status a)
    (acc_roles a) (acc_email_verified a) (acc_email_verified_at a) (acc_last_login_at a)
    (acc_locked_at a) (acc_locked_reason a) (acc_disabled_at a) (acc_disabled_reason a)
    (acc_expires_at a) (acc_password_changed_at a) (acc_failed_login_count a) v
    (acc_created_at a) (acc_updated_at a).
Definition set_created_at (v : T) a : AccountOf I St R B T J :=
  mkAccount (acc_id a) (acc_email a) (acc_username a) (acc_password_hash a) (acc_status a)
    (acc_roles a) (acc_email_verified a) (acc_email_verified_at a) (acc_last_login_at a)
    (acc_locked_at a) (acc_locked_reason a) (acc_disabled_at a) (acc_disabled_reason a)
    (acc_expires_at a) (acc_password_changed_at a) (acc_failed_login_count a) (acc_metadata a)
    v (acc_updated_at a).
Definition set_updated_at (v : T) a : AccountOf I St R B T J :=
  mkAccount (acc_id a) (acc_email a) (acc_username a) (acc_password_hash a) (acc_status a)
    (acc_roles a) (acc_email_verified a) (acc_email_verified_at a) (acc_last_login_at a)
    (acc_locked_at a) (acc_locked_reason a) (acc_disabled_at a) (acc_disabled_reason a)
    (acc_expires_at a) (acc_password_changed_at a) (acc_failed_login_count a) (acc_metadata a)
    (acc_created_at a) v.
End Setters.

Abbreviation Account := (AccountOf AccountId AccountStatus (list string) bool Z json).

Record CreateAccount := mkCreateAccount {
  ca_email : string;
  ca_username : option string;
  ca_password : option string;
  ca_roles : list string;
  ca_expires_at : option Z;
  ca_metadata : option json;
  ca_require_email_verification : option bool;
}.

(** [ua_expires_at = Some None] clears the expiration. *)
Record UpdateAccount := mkUpdateAccount {
  ua_email : option string;
  ua_username : option string;
  ua_roles : option (list string);
  ua_expires_at : option (option Z);
  ua_metadata : option json;
}.

Record AccountsConfig := mkAccountsConfig {
  cfg_default_status : AccountStatus;
  cfg_require_email_verification : bool;
  cfg_inactivity_expiry_days : Z;
  cfg_unique_usernames : bool;
  cfg_audit_events : bool;
}.

Definition AccountsConfig_default : AccountsConfig :=
  mkAccountsConfig PendingVerification true 0 false true.

(** ** Errors *)

Inductive AccountError :=
| Acc_NotFound (what : string)
| Acc_AlreadyExists (what : string)
| Acc_InvalidTransition (from to : AccountStatus)
| Acc_InvalidCredentials
| Acc_AccountInactive (status : AccountStatus) (reason : string)
| Acc_Validation (msg : string)
| Acc_Storage (msg : string)
| Acc_InvalidId (msg : string).

Definition account_error_to_string (e : AccountError) : string :=
  match e with
  | Acc_NotFound s => "account not found: " +:+ s
  | Acc_AlreadyExists s => "account already exists with email: " +:+ s
  | Acc_InvalidTransition from to =>
      "invalid status transition from " +:+ status_to_string from +:+ " to " +:+ status_to_string to
  | Acc_InvalidCredentials => "invalid credentials"
  | Acc_AccountInactive status reason =>
      "account is " +:+ status_to_string status +:+ ": " +:+ reason
  | Acc_Validation s => "validation error: " +:+ s
  | Acc_Storage s => "storage error: " +:+ s
  | Acc_InvalidId s => "invalid account ID: " +:+ s
  end.

(** [From<AccountError> for Error]. *)
Definition error_from_account (err : AccountError) : Error :=
  let msg := account_error_to_string err in
  match err with
  | Acc_NotFound _ => Error_NotFound msg
  | Acc_AlreadyExists _ => Error_Conflict msg
  | Acc_InvalidTransition _ _ => Error_ValidationError msg
  | Acc_InvalidCredentials => Error_Unauthorized msg
  | Acc_AccountInactive _ _ => Error_Forbidden msg
  | Acc_Validation _ => Error_BadRequest msg
  | Acc_Storage _ => Error_Internal msg
  | Acc_InvalidId _ => Error_BadRequest msg
  end.

(** ** E-mail addresses *)

(** [str::split] at a one-byte character. *)
Fixpoint split_at (c : ascii) (s : string) : list string :=
  match s with
  | EmptyString => [EmptyString]
  | String a s =>
      if Ascii.eqb a c then EmptyString :: split_at c s
      else match split_at c s with
           | p :: ps => String a p :: ps
           | [] => [String a EmptyString]
           end
  end.

Definition is_valid_email (email : string) : bool :=
  match split_at "@" email with
  | [local; domain] =>
      negb (String.eqb local "") && negb (String.eqb domain "") && contains domain "."
  | _ => false
  end.

(** ** Events *)

Inductive AccountEvent :=
| AE_Created (account_id email : string)
| AE_Activated (account_id : string)
| AE_Disabled (account_id reason : string)
| AE_Locked (account_id reason : string)
| AE_Unlocked (account_id : string)
| AE_Suspended (account_id reason : string)
| AE_Expired (account_id : string)
| AE_Deleted (account_id : string)
| AE_EmailVerified (account_id : string)
| AE_PasswordChanged (account_id : string)
| AE_RolesUpdated (account_id : string) (roles : list string)
| AE_ProfileUpdated (account_id : string).

(** The [match] of [AuditAccountNotification::on_event]. *)
Definition account_audit_fields (event : AccountEvent) : AuditEventKind * AuditSeverity * json :=
  let obj l := JObject (map (fun kv => (fst kv, JString (snd kv))) l) in
  match event with
  | AE_Created i email =>
      (AccountCreated, SevInformational, obj [("account_id", i); ("email", email)])
  | AE_Activated i => (AccountEnabled, SevInformational, obj [("account_id", i)])
  | AE_Disabled i reason =>
      (AccountDisabled, SevWarning, obj [("account_id", i); ("reason", reason)])
  | AE_Locked i reason =>
      (AccountLocked, SevWarning, obj [("account_id", i); ("reason", reason)])
  | AE_Unlocked i => (AccountUnlocked, SevNotice, obj [("account_id", i)])
  | AE_Suspended i reason =>
      (AccountDisabled, SevWarning,
       obj [("account_id", i); ("reason", reason); ("action", "suspended")])
  | AE_Expired i => (AccountExpired, SevWarning, obj [("account_id", i)])
  | AE_Deleted i => (AccountDeleted, SevWarning, obj [("account_id", i)])
  | AE_EmailVerified i =>
      (AccountUpdated, SevInformational, obj [("account_id", i); ("action", "email_verified")])
  | AE_PasswordChanged i => (AuthPasswordChanged, SevNotice, obj [("account_id", i)])
  | AE_RolesUpdated i roles =>
      (AccountUpdated, SevNotice,
       JObject [("account_id", JString i); ("action", JString "roles_updated");
                ("roles", JArray (map JString roles))])
  | AE_ProfileUpdated i =>
      (AccountUpdated, SevInformational, obj [("account_id", i); ("action", "profile_updated")])
  end.

(** [AuditAccountNotification::on_event]: the event it logs. *)
Definition account_audit_event (id : bytes) (now : Z) (service_name : string)
    (event : AccountEvent) : AuditEvent :=
  let '(kind, severity, metadata) := account_audit_fields event in
  with_metadata (AuditEvent_new id now kind severity service_name) metadata.
