(* ===== verification/AccountStorage.v ===== *)
(** * Account storage

    [src/acton-service/src/accounts/storage/{mod,pg}.rs]: the [AccountStorage]
    trait as a class, its contract over an abstract table of accounts as a
    class of laws, and the PostgreSQL backend, whose statements act on a table
    of rows, with a proof that it meets the contract.

    Every SQL statement can fail: [pad_faults] says which do, oldest first
    (lost connections, values too long for their [VARCHAR] and so on); a
    failed statement changes nothing. The clock reading of an operation is an
    argument of it. *)

From S2P Require Import Prelude FrameworkError AuditEvent AuditStorage Accounts.

Local Open Scope string_scope.
Local Open Scope Z_scope.
Local Open Scope list_scope.

(** ** The trait *)

Class AccountStorage `{TypeIdEnv} (S : Type) := {
  as_create : Account → S → result unit Error * S;
  as_get_by_id : string → S → result (option Account) Error * S;
  as_get_by_email : string → S → result (option Account) Error * S;
  as_get_by_username : string → S → result (option Account) Error * S;
  as_update : Z → Account → S → result unit Error * S;
  as_update_status : Z → string → AccountStatus → option string → S → result unit Error * S;
  as_list : option AccountStatus → Z → Z → S → result (list Account) Error * S;
  as_count : option AccountStatus → S → result Z Error * S;
  as_delete : string → S → result bool Error * S;
  as_record_login : Z → string → S → result unit Error * S;
  as_find_expired : Z → Z → S → result (list Account) Error * S;
  as_find_inactive : Z → Z → S → result (list Account) Error * S;
}.

(** ** The contract *)

Section Table.
Context `{TypeIdEnv}.

Definition acc_key (a : Account) : string := aid_as_str (acc_id a).

(** Rows selected by a unique key, at most one. *)
Definition select_one (P : Account → Prop) `{∀ a, Decision (P a)} (l : list Account) : option Account :=
  head (filter P l).

(** [UPDATE .. WHERE id = $1]. *)
Definition update_where (id : string) (f : Account → Account) (l : list Account) : list Account :=
  map (fun a => if decide (acc_key a = id) then f a else a) l.

(** The columns [update_status] writes. *)
Definition apply_status {I R : Type} (now : Z) (status : AccountStatus) (reason : option string)
    (a : AccountOf I AccountStatus R bool Z json) : AccountOf I AccountStatus R bool Z json :=
  set_updated_at now (set_status status
    match status with
    | Disabled => set_disabled_at (Some now) (set_disabled_reason reason a)
    | Locked => set_locked_at (Some now) (set_locked_reason reason a)
    | Active => set_locked_at None (set_locked_reason None
                  (set_disabled_at None (set_disabled_reason None a)))
    | _ => a
    end).

(** The optional status filter of [list] and [count]. *)
Definition has_status (status : option AccountStatus) (a : Account) : Prop :=
  from_option (fun st => acc_status a = st) True status.
#[global] Instance has_status_dec status a : Decision (has_status status a).
Proof. destruct status; unfold has_status; cbn; apply _. Defined.

(** The columns [record_login] writes. *)
Definition apply_login {I St R : Type} (now : Z) (a : AccountOf I St R bool Z json) : AccountOf I St R bool Z json :=
  set_updated_at now (set_failed_login_count 0 (set_last_login_at (Some now) a)).
End Table.

(** A backend keeps a table of accounts with distinct ids and e-mail
    addresses. [as_stored] and [as_time] are what the columns keep of an
    account and of a clock reading. A call that fails changes nothing. *)
Class AccountStorageLaws `{TypeIdEnv} (S : Type) `{!AccountStorage S} := {
  as_inv : S → Prop;
  as_contents : S → list Account;
  as_stored : Account → Account;
  as_time : Z → Z;
  as_distinct s : as_inv s →
    NoDup (acc_key <$> as_contents s) ∧ NoDup (acc_email <$> as_contents s);
  as_stored_same a : mti_prefix (aid_mti (acc_id a)) = AccountId_PREFIX →
    acc_id (as_stored a) = acc_id a ∧ acc_email (as_stored a) = acc_email a ∧
    acc_username (as_stored a) = acc_username a ∧
    acc_password_hash (as_stored a) = acc_password_hash a ∧
    acc_status (as_stored a) = acc_status a ∧ acc_roles (as_stored a) = acc_roles a ∧
    acc_email_verified (as_stored a) = acc_email_verified a;
  as_prefixed s a : as_inv s → a ∈ as_contents s →
    mti_prefix (aid_mti (acc_id a)) = AccountId_PREFIX;
  as_create_law a s r s' :
    as_inv s → mti_prefix (aid_mti (acc_id a)) = AccountId_PREFIX → as_create a s = (r, s') →
    as_inv s' ∧ as_contents s' = if is_ok r then as_contents s ++ [as_stored a] else as_contents s;
  as_get_by_id_law id s r s' :
    as_inv s → as_get_by_id id s = (r, s') →
    as_inv s' ∧ as_contents s' = as_contents s ∧
    ∀ o, r = Ok o → o = select_one (fun a => acc_key a = id) (as_contents s);
  as_get_by_email_law email s r s' :
    as_inv s → as_get_by_email email s = (r, s') →
    as_inv s' ∧ as_contents s' = as_contents s ∧
    ∀ o, r = Ok o → o = select_one (fun a => acc_email a = email) (as_contents s);
  as_get_by_username_law username s r s' :
    as_inv s → as_get_by_username username s = (r, s') →
    as_inv s' ∧ as_contents s' = as_contents s ∧
    ∀ o, r = Ok o → o = select_one (fun a => acc_username a = Some username) (as_contents s);
  as_update_law now a s r s' :
    as_inv s → mti_prefix (aid_mti (acc_id a)) = AccountId_PREFIX → as_update now a s = (r, s') →
    as_inv s' ∧ as_contents s' =
      if is_ok r
      then update_where (acc_key a)
             (fun old => set_created_at (acc_created_at old)
                           (set_updated_at (as_time now) (as_stored a))) (as_contents s)
      else as_contents s;
  as_update_status_law now id status reason s r s' :
    as_inv s → as_update_status now id status reason s = (r, s') →
    as_inv s' ∧ as_contents s' =
      if is_ok r then update_where id (apply_status (as_time now) status reason) (as_contents s)
      else as_contents s;
  as_list_law status limit offset s r s' :
    as_inv s → as_list status limit offset s = (r, s') →
    as_inv s' ∧ as_contents s' = as_contents s ∧
    ∀ es, fits 64 limit → fits 64 offset → r = Ok es → ∃ l,
      l ≡ₚ filter (has_status status) (as_contents s) ∧
      Sorted (fun a a' => acc_created_at a' ≤ acc_created_at a) l ∧
      es = take (Z.to_nat limit) (drop (Z.to_nat offset) l);
  as_count_law status s r s' :
    as_inv s → as_count status s = (r, s') →
    as_inv s' ∧ as_contents s' = as_contents s ∧
    ∀ n, r = Ok n →
      n = as_unsigned 64 (Z.of_nat (length (filter (has_status status) (as_contents s))));
  as_delete_law id s r s' :
    as_inv s → as_delete id s = (r, s') →
    as_inv s' ∧
    as_contents s' = (if is_ok r then filter (fun a => acc_key a ≠ id) (as_contents s)
                      else as_contents s) ∧
    ∀ b, r = Ok b → b = bool_decide (id ∈ acc_key <$> as_contents s);
  as_record_login_law now id s r s' :
    as_inv s → as_record_login now id s = (r, s') →
    as_inv s' ∧ as_contents s' =
      if is_ok r then update_where id (apply_login (as_time now)) (as_contents s)
      else as_contents s;
}.

(** ** PostgreSQL *)

Abbreviation AccountRow := (AccountOf string string json bool Z json).

Record PgAccountDb := mkPgAccountDb {
  pad_rows : list AccountRow;
  pad_faults : list (option string);
  (** Randomness of [AccountId::new] in [From<AccountRow>]. *)
  pad_seed : nat;
}.

Section Pg.
Context `{TypeIdEnv} `{PgEnv}.

(** [serde_json::to_value] and [from_value] on [Vec<String>]. *)
Definition roles_to_json (roles : list string) : json := JArray (map JString roles).

Fixpoint json_strings (items : list json) : option (list string) :=
  match items with
  | [] => Some []
  | JString s :: items => cons s <$> json_strings items
  | _ :: _ => None
  end.

Definition roles_from_json (v : json) : list string :=
  match v with JArray items => default [] (json_strings items) | _ => [] end.

(** [From<AccountRow> for Account]. *)
Definition row_to_account (seed : nat) (row : AccountRow) : Account :=
  mkAccount (unwrap_or (AccountId_from_str (acc_id row)) (AccountId_new seed))
    (acc_email row) (acc_username row) (acc_password_hash row)
    (unwrap_or (status_from_str (acc_status row)) PendingVerification)
    (roles_from_json (acc_roles row))
    (acc_email_verified row) (acc_email_verified_at row) (acc_last_login_at row)
    (acc_locked_at row) (acc_locked_reason row) (acc_disabled_at row) (acc_disabled_reason row)
    (acc_expires_at row) (acc_password_changed_at row)
    (as_unsigned 32 (acc_failed_login_count row)) (acc_metadata row)
    (acc_created_at row) (acc_updated_at row).

(** The values [create] binds, as the columns keep them. *)
Definition account_to_row (a : Account) : AccountRow :=
  let ts := pg_timestamptz in
  mkAccount (aid_as_str (acc_id a)) (acc_email a) (acc_username a) (acc_password_hash a)
    (status_to_string (acc_status a)) (pg_jsonb (roles_to_json (acc_roles a)))
    (acc_email_verified a) (ts <$> acc_email_verified_at a) (ts <$> acc_last_login_at a)
    (ts <$> acc_locked_at a) (acc_locked_reason a) (ts <$> acc_disabled_at a)
    (acc_disabled_reason a) (ts <$> acc_expires_at a) (ts <$> acc_password_changed_at a)
    (as_signed 32 (acc_failed_login_count a)) (pg_jsonb <$> acc_metadata a)
    (ts (acc_created_at a)) (ts (acc_updated_at a)).

Definition pad_set_rows (rows : list AccountRow) (db : PgAccountDb) : PgAccountDb :=
  mkPgAccountDb rows (pad_faults db) (pad_seed db).

(** Run one statement: [Some msg] when the database fails it. *)
Definition pad_exec (db : PgAccountDb) : option string * PgAccountDb :=
  match pad_faults db with
  | [] => (None, db)
  | f :: fs => (f, mkPgAccountDb (pad_rows db) fs (pad_seed db))
  end.

(** A data-changing statement: its effect on the rows, or the text of the
    constraint it violates. *)
Definition pad_execute {A} (what : string)
    (stmt : list AccountRow → result (A * list AccountRow) string) (db : PgAccountDb)
    : result A Error * PgAccountDb :=
  let '(fault, db) := pad_exec db in
  match fault with
  | Some msg => (Err (Error_Internal (what +:+ msg)), db)
  | None =>
      match stmt (pad_rows db) with
      | Ok (a, rows) => (Ok a, pad_set_rows rows db)
      | Err msg => (Err (Error_Internal (what +:+ msg)), db)
      end
  end.

(** A [SELECT]: every row is converted, with randomness of its own. *)
Definition pad_fetch (what : string) (query : list AccountRow → result (list AccountRow) string)
    (db : PgAccountDb) : result (list Account) Error * PgAccountDb :=
  let '(fault, db) := pad_exec db in
  match fault with
  | Some msg => (Err (Error_Internal (what +:+ msg)), db)
  | None =>
      match query (pad_rows db) with
      | Ok rows =>
          (Ok (imap (fun i => row_to_account (pad_seed db + i)) rows),
           mkPgAccountDb (pad_rows db) (pad_faults db) (pad_seed db + length rows))
      | Err msg => (Err (Error_Internal (what +:+ msg)), db)
      end
  end.

(** [fetch_optional]. *)
Definition pad_fetch_one (what : string) (P : AccountRow → Prop) `{∀ r, Decision (P r)}
    (db : PgAccountDb) : result (option Account) Error * PgAccountDb :=
  let '(r, db) := pad_fetch what (fun rows => Ok (take 1 (filter P rows))) db in
  (match r with Ok es => Ok (head es) | Err e => Err e end, db).

Definition pad_create (a : Account) : PgAccountDb → result unit Error * PgAccountDb :=
  pad_execute "Failed to create account: " (fun rows =>
    let row := account_to_row a in
    if bool_decide (acc_id row ∈ acc_id <$> rows) || bool_decide (acc_email row ∈ acc_email <$> rows)
    then Err pg_constraint_msg else Ok (tt, rows ++ [row])).

Definition pad_get_by_id (id : string) : PgAccountDb → result (option Account) Error * PgAccountDb :=
  pad_fetch_one "Failed to get account by id: " (fun r => acc_id r = id).

Definition pad_get_by_email (email : string)
    : PgAccountDb → result (option Account) Error * PgAccountDb :=
  pad_fetch_one "Failed to get account by email: " (fun r => acc_email r = email).

Definition pad_get_by_username (username : string)
    : PgAccountDb → result (option Account) Error * PgAccountDb :=
  pad_fetch_one "Failed to get account by username: " (fun r => acc_username r = Some username).

(** [UPDATE accounts SET .. WHERE id = $1]. *)
Definition sql_update (id : string) (f : AccountRow → AccountRow) (rows : list AccountRow)
    : list AccountRow :=
  map (fun r => if decide (acc_id r = id) then f r else r) rows.

(** Every column but [id] and [created_at] is set; a row with another id and
    the same e-mail address violates [UNIQUE]. *)
Definition pad_update (now : Z) (a : Account) : PgAccountDb → result unit Error * PgAccountDb :=
  pad_execute "Failed to update account: " (fun rows =>
    let row := set_updated_at (pg_timestamptz now) (account_to_row a) in
    if bool_decide (acc_id row ∈ acc_id <$> rows) &&
       bool_decide (acc_email row ∈ acc_email <$> filter (fun r => acc_id r ≠ acc_id row) rows)
    then Err pg_constraint_msg
    else Ok (tt, sql_update (acc_id row) (fun r => set_created_at (acc_created_at r) row) rows)).

Definition pad_update_status (now : Z) (id : string) (status : AccountStatus)
    (reason : option string) : PgAccountDb → result unit Error * PgAccountDb :=
  let now := pg_timestamptz now in
  let status_str := status_to_string status in
  pad_execute "Failed to update status: " (fun rows => Ok (tt, sql_update id
    match status with
    | Disabled => fun r => set_updated_at now (set_status status_str
        (set_disabled_at (Some now) (set_disabled_reason reason r)))
    | Locked => fun r => set_updated_at now (set_status status_str
        (set_locked_at (Some now) (set_locked_reason reason r)))
    | Active => fun r => set_updated_at now (set_status status_str
        (set_locked_at None (set_locked_reason None
           (set_disabled_at None (set_disabled_reason None r)))))
    | _ => fun r => set_updated_at now (set_status status_str r)
    end rows)).

(** [LIMIT]/[OFFSET] of a [usize] bound [as i64]: negative counts are errors. *)
Definition sql_page (limit offset : Z) (rows : list AccountRow) : result (list AccountRow) string :=
  let limit := as_signed 64 limit in
  let offset := as_signed 64 offset in
  if limit <? 0 then Err "LIMIT must not be negative"
  else if offset <? 0 then Err "OFFSET must not be negative"
  else Ok (take (Z.to_nat limit) (drop (Z.to_nat offset) rows)).

Definition newest_first (r r' : AccountRow) : Prop := acc_created_at r' ≤ acc_created_at r.
#[global] Instance newest_first_dec r r' : Decision (newest_first r r').
Proof. unfold newest_first. apply _. Defined.

Definition with_status (status : option AccountStatus) (r : AccountRow) : Prop :=
  from_option (fun st => acc_status r = status_to_string st) True status.
#[global] Instance with_status_dec status r : Decision (with_status status r).
Proof. destruct status; unfold with_status; cbn; apply _. Defined.

Definition pad_list (status : option AccountStatus) (limit offset : Z)
    : PgAccountDb → result (list Account) Error * PgAccountDb :=
  pad_fetch "Failed to list accounts: " (fun rows =>
    sql_page limit offset (merge_sort newest_first (filter (with_status status) rows))).

(** The [i64] that [COUNT] returns, [as u64]. *)
Definition pad_count (status : option AccountStatus) (db : PgAccountDb)
    : result Z Error * PgAccountDb :=
  let '(fault, db) := pad_exec db in
  match fault with
  | Some msg => (Err (Error_Internal ("Failed to count accounts: " +:+ msg)), db)
  | None => (Ok (as_unsigned 64 (Z.of_nat (length (filter (with_status status) (pad_rows db))))), db)
  end.

Definition pad_delete (id : string) : PgAccountDb → result bool Error * PgAccountDb :=
  pad_execute "Failed to delete account: " (fun rows =>
    let rest := filter (fun r => acc_id r ≠ id) rows in
    Ok (bool_decide (0 < length rows - length rest)%nat, rest)).

Definition pad_record_login (now : Z) (id : string)
    : PgAccountDb → result unit Error * PgAccountDb :=
  pad_execute "Failed to record login: " (fun rows =>
    Ok (tt, sql_update id (fun r => set_updated_at (pg_timestamptz now)
      (set_failed_login_count 0 (set_last_login_at (Some (pg_timestamptz now)) r))) rows)).

(** [ORDER BY expires_at ASC]: nulls last. *)
Definition sooner (r r' : AccountRow) : Prop :=
  match acc_expires_at r, acc_expires_at r' with
  | Some t, Some t' => t ≤ t'
  | Some _, None => True
  | None, Some _ => False
  | None, None => True
  end.
#[global] Instance sooner_dec r r' : Decision (sooner r r').
Proof. unfold sooner. repeat case_match; apply _. Defined.

Definition past_expiry (now : Z) (r : AccountRow) : Prop :=
  match acc_expires_at r with
  | Some t => t < pg_timestamptz now ∧ acc_status r ≠ "expired"
  | None => False
  end.
#[global] Instance past_expiry_dec now r : Decision (past_expiry now r).
Proof. unfold past_expiry. case_match; apply _. Defined.

Definition pad_find_expired (now limit : Z) : PgAccountDb → result (list Account) Error * PgAccountDb :=
  pad_fetch "Failed to find expired accounts: " (fun rows =>
    sql_page limit 0 (merge_sort sooner (filter (past_expiry now) rows))).

(** [ORDER BY last_login_at ASC NULLS FIRST]. *)
Definition longer_ago (r r' : AccountRow) : Prop :=
  match acc_last_login_at r, acc_last_login_at r' with
  | Some t, Some t' => t ≤ t'
  | Some _, None => False
  | None, _ => True
  end.
#[global] Instance longer_ago_dec r r' : Decision (longer_ago r r').
Proof. unfold longer_ago. repeat case_match; apply _. Defined.

Definition inactive_since (cutoff : Z) (r : AccountRow) : Prop :=
  acc_status r = "active" ∧
  match acc_last_login_at r with Some t => t < pg_timestamptz cutoff | None => True end.
#[global] Instance inactive_since_dec cutoff r : Decision (inactive_since cutoff r).
Proof. unfold inactive_since. destruct (acc_last_login_at r); apply _. Defined.

Definition pad_find_inactive (cutoff limit : Z)
    : PgAccountDb → result (list Account) Error * PgAccountDb :=
  pad_fetch "Failed to find inactive accounts: " (fun rows =>
    sql_page limit 0 (merge_sort longer_ago (filter (inactive_since cutoff) rows))).

#[global] Instance PgAccountStorage : AccountStorage PgAccountDb := {|
  as_create := pad_create;
  as_get_by_id := pad_get_by_id;
  as_get_by_email := pad_get_by_email;
  as_get_by_username := pad_get_by_username;
  as_update := pad_update;
  as_update_status := pad_update_status;
  as_list := pad_list;
  as_count := pad_count;
  as_delete := pad_delete;
  as_record_login := pad_record_login;
  as_find_expired := pad_find_expired;
  as_find_inactive := pad_find_inactive;
|}.

(** ** The backend meets the contract *)

(** [JSONB] keeps arrays of strings as they are. *)
Class PgJsonbLaws := {
  pg_jsonb_strings l : pg_jsonb (JArray (map JString l)) = JArray (map JString l);
}.

(** Rows as the backend writes them: the id column parses, the status column
    is a status. *)
Definition row_ok (r : AccountRow) : Prop :=
  is_ok (AccountId_from_str (acc_id r)) = true ∧ ∃ st, acc_status r = status_to_string st.

Definition pad_inv (db : PgAccountDb) : Prop :=
  Forall row_ok (pad_rows db) ∧ NoDup (acc_id <$> pad_rows db) ∧ NoDup (acc_email <$> pad_rows db).

Definition pad_contents (db : PgAccountDb) : list Account := map (row_to_account 0) (pad_rows db).

Lemma row_to_account_seed n r : row_ok r → row_to_account n r = row_to_account 0 r.
Proof. intros [Hi _]. unfold row_to_account. by destruct (AccountId_from_str (acc_id r)). Qed.

Lemma row_to_account_status r st :
  row_ok r → acc_status (row_to_account 0 r) = st ↔ acc_status r = status_to_string st.
Proof.
  intros [_ [st' E]]. unfold row_to_account; cbn. rewrite E, status_from_to_string; cbn.
  split; [by intros ->|apply status_to_string_inj].
Qed.

Lemma imap_row_to_account n rows :
  Forall row_ok rows → imap (fun i => row_to_account (n + i)) rows = map (row_to_account 0) rows.
Proof.
  intros Hr. revert n. induction Hr as [|r rows Hr _ IH]; intros n; [done|]. cbn.
  rewrite row_to_account_seed by done. f_equal. rewrite <-(IH (S n)). apply imap_ext.
  intros i x _. cbn. f_equal. lia.
Qed.

Lemma pad_exec_rows db f db' : pad_exec db = (f, db') → pad_rows db' = pad_rows db.
Proof. unfold pad_exec. destruct (pad_faults db); by intros [= <- <-]. Qed.

Lemma pad_execute_inv {A} what (stmt : _ → result (A * _) _) db r db' :
  pad_execute what stmt db = (r, db') →
  (∃ e, r = Err e ∧ pad_rows db' = pad_rows db) ∨
  (∃ a rows, r = Ok a ∧ stmt (pad_rows db) = Ok (a, rows) ∧ pad_rows db' = rows).
Proof.
  unfold pad_execute. destruct (pad_exec db) as [f db1] eqn:E. apply pad_exec_rows in E.
  rewrite <-E. destruct f; [intros [= <- <-]; eauto|].
  destruct (stmt (pad_rows db1)) as [[a rows]|] eqn:Es; intros [= <- <-]; eauto 6.
Qed.

Lemma pad_fetch_inv what query db r db' :
  Forall row_ok (pad_rows db) → pad_fetch what query db = (r, db') →
  pad_rows db' = pad_rows db ∧
  ∀ es, r = Ok es → ∃ rows, query (pad_rows db) = Ok rows ∧
    (rows ⊆ pad_rows db → es = map (row_to_account 0) rows).
Proof.
  intros Hok. unfold pad_fetch. destruct (pad_exec db) as [f db1] eqn:E. apply pad_exec_rows in E.
  rewrite <-E in *. destruct f; [by intros [= <- <-]|].
  destruct (query (pad_rows db1)) as [rows|] eqn:Eq; intros [= <- <-]; [|done].
  split; [done|]. intros es [= <-]. exists rows. split; [done|].
  intros Hs. apply imap_row_to_account. rewrite Forall_forall in *. auto.
Qed.

Lemma pad_inv_rows db db' : pad_rows db' = pad_rows db → pad_inv db → pad_inv db'.
Proof. unfold pad_inv. by intros ->. Qed.

Lemma pad_contents_rows db db' : pad_rows db' = pad_rows db → pad_contents db' = pad_contents db.
Proof. unfold pad_contents. by intros ->. Qed.

(** Filtering accounts and filtering rows agree. *)
Lemma filter_accounts (P : Account → Prop) (Q : AccountRow → Prop)
    `{∀ a, Decision (P a)} `{∀ r, Decision (Q r)} rows :
  Forall row_ok rows → (∀ r, row_ok r → P (row_to_account 0 r) ↔ Q r) →
  filter P (map (row_to_account 0) rows) = map (row_to_account 0) (filter Q rows).
Proof.
  intros Hr HPQ. induction Hr as [|r rows Hr _ IH]; [done|].
  cbn [map]. rewrite !filter_cons. specialize (HPQ r Hr).
  repeat case_decide; try tauto; cbn [map]; by rewrite IH.
Qed.

Lemma pad_fetch_one_inv what (P : Account → Prop) (Q : AccountRow → Prop)
    `{∀ a, Decision (P a)} `{∀ r, Decision (Q r)} db r db' :
  (∀ r, row_ok r → P (row_to_account 0 r) ↔ Q r) →
  pad_inv db → pad_fetch_one what Q db = (r, db') →
  pad_inv db' ∧ pad_contents db' = pad_contents db ∧
  ∀ o, r = Ok o → o = select_one P (pad_contents db).
Proof.
  intros HPQ Hinv. unfold pad_fetch_one. destruct (pad_fetch _ _ db) as [r1 db1] eqn:E.
  pose proof Hinv as [Hok _]. apply pad_fetch_inv in E as [Hr Hes]; [|done]. intros [= <- <-].
  split; [by eapply pad_inv_rows|]. split; [by apply pad_contents_rows|].
  intros o Ho. destruct r1 as [es|]; [|done]. injection Ho as <-.
  destruct (Hes es eq_refl) as (rows & [= <-] & Hes'). rewrite Hes'; clear Hes Hes'.
  2: { intros x Hx. apply elem_of_take in Hx as (i & Hx & _).
    by apply list_elem_of_lookup_2, list_elem_of_filter in Hx as [_ ?]. }
  unfold select_one, pad_contents. rewrite (filter_accounts P Q) by done.
  by destruct (filter Q (pad_rows db)).
Qed.

Lemma sql_update_fmap {B} (g : AccountRow → B) id f rows :
  (∀ r, acc_id r = id → g (f r) = g r) → g <$> sql_update id f rows = g <$> rows.
Proof.
  intros Hf. unfold sql_update. change (map ?h rows) with (h <$> rows).
  rewrite <-list_fmap_compose. apply list_fmap_ext. intros i r _. cbn. case_decide; auto.
Qed.

Lemma sql_update_notin id f rows : id ∉ acc_id <$> rows → sql_update id f rows = rows.
Proof.
  induction rows as [|r rows IH]; [done|]. cbn. rewrite not_elem_of_cons. intros [Hr Hn].
  rewrite decide_False by done. f_equal. by apply IH.
Qed.

Lemma sql_update_ok id f rows :
  (∀ r, row_ok r → row_ok (f r)) → Forall row_ok rows → Forall row_ok (sql_update id f rows).
Proof.
  intros Hf Hr. unfold sql_update. apply Forall_map. eapply Forall_impl; [done|].
  intros r Hro. cbn. case_decide; auto.
Qed.

(** Giving one row an address no other row has keeps addresses distinct. *)
Lemma sql_update_email id f e rows :
  (∀ r, acc_email (f r) = e) → NoDup (acc_id <$> rows) → NoDup (acc_email <$> rows) →
  e ∉ acc_email <$> filter (fun r => acc_id r ≠ id) rows →
  NoDup (acc_email <$> sql_update id f rows).
Proof.
  intros Hf Hi He Hn. induction rows as [|r rows IH]; [constructor|].
  cbn in Hi, He. apply NoDup_cons in Hi as [Hi Hi'], He as [He He'].
  rewrite filter_cons in Hn. cbn. destruct (decide (acc_id r = id)) as [Hr|Hr].
  - subst id. rewrite decide_False in Hn by tauto.
    change (map _ rows) with (sql_update (acc_id r) f rows).
    rewrite sql_update_notin, Hf by done. apply NoDup_cons. split; [|done].
    rewrite filter_all in Hn; [done|]. intros x Hx E. apply Hi. rewrite <-E.
    apply list_elem_of_fmap. eauto.
  - rewrite decide_True in Hn by done. cbn in Hn. apply not_elem_of_cons in Hn as [Hne Hn].
    apply NoDup_cons. split; [|by apply IH].
    intros (x & Ex & Hx)%list_elem_of_fmap. apply list_elem_of_fmap in Hx as (y & -> & Hy).
    case_decide; [congruence|]. apply He. rewrite Ex. apply list_elem_of_fmap. eauto.
Qed.

Lemma sql_update_refines id f g rows :
  Forall row_ok rows →
  (∀ r, row_ok r → row_to_account 0 (f r) = g (row_to_account 0 r)) →
  (∀ r, row_ok r → acc_key (row_to_account 0 r) = acc_id r) →
  map (row_to_account 0) (sql_update id f rows) = update_where id g (map (row_to_account 0) rows).
Proof.
  intros Hr Hf Hk. unfold sql_update, update_where. rewrite !map_map.
  apply map_ext_in. intros r Hin. rewrite Forall_forall in Hr.
  apply list_elem_of_In in Hin. specialize (Hr r Hin). rewrite (Hk r Hr).
  case_decide; auto.
Qed.

Context `{!TypeIdLaws} `{!PgJsonbLaws}.

Lemma row_to_account_key n r : row_ok r → acc_key (row_to_account n r) = acc_id r.
Proof.
  intros [Hi _]. unfold acc_key, row_to_account; cbn.
  destruct (AccountId_from_str (acc_id r)) as [i|] eqn:E; [|done].
  by apply AccountId_from_str_Ok in E as [? _].
Qed.

Lemma row_to_account_prefix r :
  row_ok r → mti_prefix (aid_mti (acc_id (row_to_account 0 r))) = AccountId_PREFIX.
Proof.
  intros [Hi _]. unfold row_to_account; cbn.
  destruct (AccountId_from_str (acc_id r)) as [i|] eqn:E; [|done].
  by apply AccountId_from_str_Ok in E as [_ ?].
Qed.

Lemma account_to_row_ok a :
  mti_prefix (aid_mti (acc_id a)) = AccountId_PREFIX → row_ok (account_to_row a).
Proof.
  intros Hp. split; [|by eexists]. cbn.
  by rewrite (proj2 (AccountId_from_str_Ok _ (acc_id a))).
Qed.

Lemma roles_json_roundtrip roles : roles_from_json (pg_jsonb (roles_to_json roles)) = roles.
Proof.
  unfold roles_to_json. rewrite pg_jsonb_strings. cbn.
  assert (json_strings (map JString roles) = Some roles) as ->; [|done].
  induction roles as [|x roles IH]; cbn; [done|]. by rewrite IH.
Qed.

Lemma acc_key_contents rows :
  Forall row_ok rows → acc_key <$> map (row_to_account 0) rows = acc_id <$> rows.
Proof.
  induction 1 as [|r rows Hr _ IH]; [done|]. cbn in *. rewrite row_to_account_key by done.
  by f_equal.
Qed.

(** A statement that changes the rows one by one. *)
Lemma pad_execute_update what id f g db r db' :
  pad_execute what (fun rows => Ok (tt, sql_update id f rows)) db = (r, db') → pad_inv db →
  (∀ r, acc_id (f r) = acc_id r) → (∀ r, acc_email (f r) = acc_email r) →
  (∀ r, row_ok r → row_ok (f r)) →
  (∀ r, row_ok r → row_to_account 0 (f r) = g (row_to_account 0 r)) →
  pad_inv db' ∧
  pad_contents db' = if is_ok r then update_where id g (pad_contents db) else pad_contents db.
Proof.
  intros Hx Hinv Hid Hem Hok Hfg.
  apply pad_execute_inv in Hx as [(e & -> & Hr)|([] & rows & -> & [= <-] & Hr)].
  { split; [by eapply pad_inv_rows|by apply pad_contents_rows]. }
  destruct Hinv as (Ho & Hi & He). unfold pad_inv, pad_contents. rewrite Hr. split.
  - rewrite !sql_update_fmap by auto. split; [by apply sql_update_ok|done].
  - apply sql_update_refines; auto using row_to_account_key.
Qed.

Lemma row_ok_set_status r r' st :
  row_ok r → acc_id r' = acc_id r → acc_status r' = status_to_string st → row_ok r'.
Proof. intros [Hi _] E Es. split; [by rewrite E|eauto]. Qed.

Lemma pad_update_status_ok now id status reason db r db' :
  pad_inv db → pad_update_status now id status reason db = (r, db') →
  pad_inv db' ∧ pad_contents db' =
    if is_ok r then update_where id (apply_status (pg_timestamptz now) status reason) (pad_contents db)
    else pad_contents db.
Proof.
  intros Hinv Hx. unfold pad_update_status in Hx.
  eapply pad_execute_update in Hx; [exact Hx|done|..]; intros x; try (by destruct status);
    intros Hok. by destruct status; eapply row_ok_set_status.
Qed.

Lemma pad_record_login_ok now id db r db' :
  pad_inv db → pad_record_login now id db = (r, db') →
  pad_inv db' ∧ pad_contents db' =
    if is_ok r then update_where id (apply_login (pg_timestamptz now)) (pad_contents db)
    else pad_contents db.
Proof. intros Hinv Hx. by eapply pad_execute_update in Hx; [exact Hx|..]. Qed.

Lemma pad_create_ok a db r db' :
  pad_inv db → mti_prefix (aid_mti (acc_id a)) = AccountId_PREFIX → pad_create a db = (r, db') →
  pad_inv db' ∧ pad_contents db' =
    if is_ok r then pad_contents db ++ [row_to_account 0 (account_to_row a)] else pad_contents db.
Proof.
  intros Hinv Hp Hx. unfold pad_create in Hx.
  apply pad_execute_inv in Hx as [(e & -> & Hr)|([] & rows & -> & Hs & Hr)].
  { split; [by eapply pad_inv_rows|by apply pad_contents_rows]. }
  cbn in Hs. destruct (bool_decide (aid_as_str _ ∈ _)) eqn:Hi; [done|].
  destruct (bool_decide (acc_email a ∈ _)) eqn:He; [done|]. injection Hs as <-.
  apply bool_decide_eq_false in Hi, He. destruct Hinv as (Ho & Hni & Hne).
  unfold pad_inv, pad_contents. rewrite Hr, map_app, !fmap_app, Forall_app, !NoDup_app. cbn.
  split; [|done]. split; [|split].
  - split; [done|]. repeat constructor; by apply account_to_row_ok.
  - split; [done|]. split; [set_solver|apply NoDup_singleton].
  - split; [done|]. split; [set_solver|apply NoDup_singleton].
Qed.

Lemma pad_update_ok now a db r db' :
  pad_inv db → mti_prefix (aid_mti (acc_id a)) = AccountId_PREFIX → pad_update now a db = (r, db') →
  pad_inv db' ∧ pad_contents db' =
    if is_ok r
    then update_where (acc_key a)
           (fun old => set_created_at (acc_created_at old)
              (set_updated_at (pg_timestamptz now) (row_to_account 0 (account_to_row a))))
           (pad_contents db)
    else pad_contents db.
Proof.
  intros Hinv Hp Hx. unfold pad_update in Hx.
  apply pad_execute_inv in Hx as [(e & -> & Hr)|([] & rows & -> & Hs & Hr)].
  { split; [by eapply pad_inv_rows|by apply pad_contents_rows]. }
  cbn in Hs. destruct (_ && _) eqn:Hc; [done|]. injection Hs as <-.
  destruct Hinv as (Ho & Hni & Hne). unfold pad_inv, pad_contents. rewrite Hr. cbn [is_ok]. split.
  - split.
    { apply sql_update_ok; [|done]. intros x _.
      eapply (row_ok_set_status (account_to_row a)); [by apply account_to_row_ok|done..]. }
    apply andb_false_iff in Hc as [Hc|Hc]; apply bool_decide_eq_false in Hc.
    { by rewrite sql_update_notin. }
    split; [by rewrite sql_update_fmap|]. apply (sql_update_email _ _ (acc_email a)); [done..|].
    exact Hc.
  - apply sql_update_refines; auto using row_to_account_key.
Qed.

Lemma pad_delete_ok id db r db' :
  pad_inv db → pad_delete id db = (r, db') →
  pad_inv db' ∧
  pad_contents db' = (if is_ok r then filter (fun a => acc_key a ≠ id) (pad_contents db)
                      else pad_contents db) ∧
  ∀ b, r = Ok b → b = bool_decide (id ∈ acc_key <$> pad_contents db).
Proof.
  intros Hinv Hx. unfold pad_delete in Hx.
  apply pad_execute_inv in Hx as [(e & -> & Hr)|(b & rows & -> & [= <- <-] & Hr)].
  { split; [by eapply pad_inv_rows|]. split; [by apply pad_contents_rows|done]. }
  destruct Hinv as (Ho & Hi & He). unfold pad_inv, pad_contents. rewrite Hr. cbn [is_ok].
  split; [|split].
  - split.
    { rewrite Forall_forall in *. intros x [_ Hx]%list_elem_of_filter. auto. }
    split; [eapply sublist_NoDup; [exact Hi|]|eapply sublist_NoDup; [exact He|]];
      apply fmap_sublist, sublist_filter.
  - symmetry. apply filter_accounts; [done|]. intros x Hx. by rewrite row_to_account_key.
  - intros b [= <-]. apply bool_decide_ext. rewrite acc_key_contents by done.
    rewrite list_elem_of_fmap. split.
    + intros Hlt. destruct (decide (Exists (fun r => acc_id r = id) (pad_rows db))) as [Hex|Hn].
      { apply Exists_exists in Hex as (x & ? & ?). eauto. }
      rewrite filter_all in Hlt; [lia|]. intros x Hx E. apply Hn, Exists_exists. eauto.
    + intros (x & -> & Hx).
      assert (length (filter (fun r => acc_id r ≠ acc_id x) (pad_rows db)) < length (pad_rows db))%nat
        by (apply (length_filter_lt _ _ x); tauto).
      lia.
Qed.

#[global] Instance newest_first_trans : Transitive newest_first.
Proof. intros r1 r2 r3. unfold newest_first. lia. Qed.
#[global] Instance newest_first_total : Total newest_first.
Proof. intros r1 r2. unfold newest_first. lia. Qed.

Lemma sql_page_Ok limit offset rows rows' :
  fits 64 limit → fits 64 offset → sql_page limit offset rows = Ok rows' →
  rows' = take (Z.to_nat limit) (drop (Z.to_nat offset) rows).
Proof.
  intros Hl Hof. unfold sql_page.
  assert (∀ x, fits 64 x → ¬ as_signed 64 x < 0 → as_signed 64 x = x) as Hs.
  { intros x Hx Hn. unfold as_signed in *. rewrite Z.mod_small in * by exact Hx.
    destruct (x <? 2 ^ (64 - 1)); unfold fits in *; lia. }
  destruct (Z.ltb_spec (as_signed 64 limit) 0); [done|].
  destruct (Z.ltb_spec (as_signed 64 offset) 0); [done|].
  intros [= <-]. by rewrite !Hs by (done || lia).
Qed.

Lemma with_status_accounts status rows :
  Forall row_ok rows →
  filter (has_status status) (map (row_to_account 0) rows) =
  map (row_to_account 0) (filter (with_status status) rows).
Proof.
  intros Hr. apply filter_accounts; [done|]. intros r Hro.
  destruct status; cbn; [by apply row_to_account_status|done].
Qed.

Lemma pad_list_ok status limit offset db r db' :
  pad_inv db → pad_list status limit offset db = (r, db') →
  pad_inv db' ∧ pad_contents db' = pad_contents db ∧
  ∀ es, fits 64 limit → fits 64 offset → r = Ok es → ∃ l,
    l ≡ₚ filter (has_status status) (pad_contents db) ∧
    Sorted (fun a a' => acc_created_at a' ≤ acc_created_at a) l ∧
    es = take (Z.to_nat limit) (drop (Z.to_nat offset) l).
Proof.
  intros Hinv Hx. pose proof Hinv as [Ho _]. apply pad_fetch_inv in Hx as [Hr Hes]; [|done].
  split; [by eapply pad_inv_rows|]. split; [by apply pad_contents_rows|].
  intros es Hl Hof ->. destruct (Hes es eq_refl) as (rows & Hq & Hm).
  apply sql_page_Ok in Hq; [|done..].
  exists (map (row_to_account 0) (merge_sort newest_first (filter (with_status status) (pad_rows db)))).
  split; [|split].
  - unfold pad_contents. rewrite with_status_accounts by done.
    by apply Permutation_map, merge_sort_Permutation.
  - eapply Sorted_fmap, Sorted_merge_sort; [|apply _]. intros r1 r2. cbn. done.
  - rewrite Hm, Hq; [by rewrite <-firstn_map, <-skipn_map|]. intros x. rewrite Hq.
    intros (i & Hi & _)%elem_of_take. rewrite lookup_drop in Hi.
    apply list_elem_of_lookup_2 in Hi. rewrite merge_sort_Permutation in Hi.
    by apply list_elem_of_filter in Hi as [_ ?].
Qed.

Lemma pad_count_ok status db r db' :
  pad_inv db → pad_count status db = (r, db') →
  pad_inv db' ∧ pad_contents db' = pad_contents db ∧
  ∀ n, r = Ok n →
    n = as_unsigned 64 (Z.of_nat (length (filter (has_status status) (pad_contents db)))).
Proof.
  intros Hinv. pose proof Hinv as [Ho _]. unfold pad_count.
  destruct (pad_exec db) as [f db1] eqn:E. apply pad_exec_rows in E.
  destruct f; intros [= <- <-]; (split; [by eapply pad_inv_rows|]);
    (split; [by apply pad_contents_rows|]); [done|].
  intros n [= <-]. unfold pad_contents. by rewrite with_status_accounts, length_map, E.
Qed.

#[global] Instance PgAccountStorageLaws : AccountStorageLaws PgAccountDb.
Proof.
  refine {| as_inv := pad_inv; as_contents := pad_contents; as_time := pg_timestamptz;
            as_stored := fun a => row_to_account 0 (account_to_row a);
            as_create_law := pad_create_ok; as_update_law := pad_update_ok;
            as_update_status_law := pad_update_status_ok; as_list_law := pad_list_ok;
            as_count_law := pad_count_ok; as_delete_law := pad_delete_ok;
            as_record_login_law := pad_record_login_ok |}.
  - intros db (Ho & Hi & He). unfold pad_contents. rewrite acc_key_contents by done.
    split; [done|]. change (map ?f ?l) with (f <$> l). by rewrite <-list_fmap_compose.
  - intros a Hp. cbn. rewrite (proj2 (AccountId_from_str_Ok _ (acc_id a))) by done.
    by rewrite status_from_to_string, roles_json_roundtrip.
  - intros db a (Ho & _) (r & -> & Hr)%list_elem_of_fmap. rewrite Forall_forall in Ho.
    by apply row_to_account_prefix, Ho.
  - intros id db r db'. apply pad_fetch_one_inv. intros x Hx. by rewrite row_to_account_key.
  - intros email db r db'. by apply pad_fetch_one_inv.
  - intros username db r db'. by apply pad_fetch_one_inv.
Defined.
End Pg.
