(* ===== verification/AccountService.v ===== *)
(** * The account service

    [AccountService] of [src/acton-service/src/accounts/mod.rs] and the REST
    handlers of [accounts/handlers.rs], over any backend of the
    [AccountStorage] class. An operation is a function in the monad [Svc]:
    it reads and changes a [World] (the store, the clock, the source of
    randomness, the notification tasks spawned so far) and returns a [Result]. *)

From S2P Require Import Prelude FrameworkError AuditEvent AuditStorage Password Accounts AccountStorage.

Local Open Scope string_scope.
Local Open Scope Z_scope.
Local Open Scope list_scope.

(** Unicode-aware [str::trim] and [str::to_lowercase], [Utc::now] as the
    sequence of clock readings, and [SaltString::generate]. *)
Class ServiceEnv := {
  str_trim : string → string;
  str_to_lowercase : string → string;
  clock : nat → Z;
  (** [Serialize for DateTime<Utc>]. *)
  datetime_to_json : Z → string;
  salt : nat → string;
}.

Record World (S : Type) := mkWorld {
  w_store : S;
  w_tick : nat;
  w_rand : nat;
  (** Tasks spawned by [notify]: the handler and the event it is given. *)
  w_spawned : list (nat * AccountEvent);
}.
Arguments mkWorld {S}.
Arguments w_store {S}.
Arguments w_tick {S}.
Arguments w_rand {S}.
Arguments w_spawned {S}.

(** ** Steps of an operation *)

Abbreviation Svc S := (M (World S) AccountError).

Section Steps.
Context {S : Type}.

(** A storage call, its error mapped to [AccountError::Storage]. *)
Definition storage {A} (op : S → result A Error * S) : Svc S A := fun w =>
  let '(r, s) := op (w_store w) in
  (map_err (fun e => Acc_Storage (error_to_string e)) r,
   mkWorld s (w_tick w) (w_rand w) (w_spawned w)).

(** [let _ = self.storage...]: the outcome is ignored. *)
Definition storage_ignored {A} (op : S → result A Error * S) : Svc S unit := fun w =>
  let '(_, s) := op (w_store w) in (Ok tt, mkWorld s (w_tick w) (w_rand w) (w_spawned w)).

Definition utc_now `{ServiceEnv} : Svc S Z := fun w =>
  (Ok (clock (w_tick w)), mkWorld (w_store w) (Datatypes.S (w_tick w)) (w_rand w) (w_spawned w)).

Definition random : Svc S nat := fun w =>
  (Ok (w_rand w), mkWorld (w_store w) (w_tick w) (Datatypes.S (w_rand w)) (w_spawned w)).

Definition spawn (tasks : list (nat * AccountEvent)) : Svc S unit := fun w =>
  (Ok tt, mkWorld (w_store w) (w_tick w) (w_rand w) (w_spawned w ++ tasks)).
End Steps.

(** ** The service *)

Record AccountService := mkAccountService {
  svc_hasher : PasswordHasher;
  svc_config : AccountsConfig;
  (** The registered handlers, by number. *)
  svc_notifications : list nat;
}.

Section Service.
Context `{TypeIdEnv} `{Argon2Env} `{ServiceEnv} {S : Type} `{!AccountStorage S}.
Implicit Types self : AccountService.
Local Open Scope monad_scope.

Definition service_new (hasher : PasswordHasher) (config : AccountsConfig) : AccountService :=
  mkAccountService hasher config [].

Definition with_notification self (handler : nat) : AccountService :=
  mkAccountService (svc_hasher self) (svc_config self) (svc_notifications self ++ [handler]).

Definition notify self (event : AccountEvent) : Svc S unit :=
  spawn (map (fun handler => (handler, event)) (svc_notifications self)).

Definition require_account (id : string) : Svc S Account :=
  let! o := storage (as_get_by_id id) in
  lift (ok_or (Acc_NotFound id) o).

Definition validate_transition (account : Account) (target : AccountStatus)
    : result unit AccountError :=
  if negb (can_transition_to (acc_status account) target)
  then Err (Acc_InvalidTransition (acc_status account) target) else Ok tt.

Definition normalize_email (email : string) : string := str_to_lowercase (str_trim email).

(** [self.hasher.hash(password).map_err(Validation)], with a fresh salt. *)
Definition hash_password self (password : string) : Svc S string :=
  let! n := random in
  lift (map_err (fun e => Acc_Validation (error_to_string e))
          (hash (svc_hasher self) (salt n) password)).

(** The unique-username check of [create_account]. *)
Definition check_username self (username : option string) : Svc S unit :=
  if cfg_unique_usernames (svc_config self) then
    match username with
    | Some username =>
        let! existing := storage (as_get_by_username username) in
        match existing with
        | Some _ => fail (Acc_AlreadyExists ("username: " +:+ username))
        | None => ret tt
        end
    | None => ret tt
    end
  else ret tt.

Definition create_account self (data : CreateAccount) : Svc S Account :=
  let email := normalize_email (ca_email data) in
  if negb (is_valid_email email) then fail (Acc_Validation ("invalid email format: " +:+ email))
  else
  let! existing := storage (as_get_by_email email) in
  match existing with
  | Some _ => fail (Acc_AlreadyExists email)
  | None =>
  check_username self (ca_username data) ;;
  let! password_hash :=
    match ca_password data with
    | Some password => let! h := hash_password self password in ret (Some h)
    | None => ret None
    end in
  let require_verification :=
    default (cfg_require_email_verification (svc_config self)) (ca_require_email_verification data) in
  let status := if require_verification then PendingVerification else Active in
  let! now := utc_now in
  let! seed := random in
  let account := mkAccount (AccountId_new seed) email (ca_username data) password_hash status
    (ca_roles data) (negb require_verification)
    (if negb require_verification then Some now else None) None None None None None
    (ca_expires_at data) (match ca_password data with Some _ => Some now | None => None end) 0 (ca_metadata data)
    now now in
  storage (as_create account) ;;
  notify self (AE_Created (aid_as_str (acc_id account)) (acc_email account)) ;;
  ret account
  end.

Definition get_account self (id : string) : Svc S (option Account) :=
  let! account := storage (as_get_by_id id) in
  match account with
  | None => ret None
  | Some acct =>
      if bool_decide (acc_status acct ≠ Expired) then
        match acc_expires_at acct with
        | Some expires_at =>
            let! now := utc_now in
            if expires_at <? now then
              let! now := utc_now in
              storage_ignored (as_update_status now id Expired None) ;;
              notify self (AE_Expired id) ;;
              ret (Some (set_status Expired acct))
            else ret (Some acct)
        | None => ret (Some acct)
        end
      else ret (Some acct)
  end.

Definition get_account_by_email (email : string) : Svc S (option Account) :=
  storage (as_get_by_email email).

(** The e-mail part of [update_account]. *)
Definition update_email (account : Account) (email : option string) : Svc S Account :=
  match email with
  | None => ret account
  | Some email =>
      let email := normalize_email email in
      if negb (is_valid_email email) then fail (Acc_Validation ("invalid email format: " +:+ email))
      else
      let! existing := storage (as_get_by_email email) in
      match existing with
      | Some existing =>
          if bool_decide (acc_id existing ≠ acc_id account) then fail (Acc_AlreadyExists email)
          else ret (set_email email account)
      | None => ret (set_email email account)
      end
  end.

(** The roles part of [update_account]. *)
Definition update_roles self (id : string) (account : Account) (roles : option (list string))
    : Svc S Account :=
  match roles with
  | None => ret account
  | Some roles =>
      (if bool_decide (acc_roles account ≠ roles) then notify self (AE_RolesUpdated id roles)
       else ret tt) ;;
      ret (set_roles roles account)
  end.

Definition update_account self (id : string) (data : UpdateAccount) : Svc S Account :=
  let! account := require_account id in
  let! account := update_email account (ua_email data) in
  let account := if ua_username data is Some username then set_username (Some username) account
                 else account in
  let! account := update_roles self id account (ua_roles data) in
  let account := if ua_expires_at data is Some expires_at then set_expires_at expires_at account
                 else account in
  let account := if ua_metadata data is Some metadata then set_metadata (Some metadata) account
                 else account in
  let! now := utc_now in
  let account := set_updated_at now account in
  let! now := utc_now in
  storage (as_update now account) ;;
  notify self (AE_ProfileUpdated id) ;;
  ret account.

(** The administrative transitions. *)
Definition disable_account self (id reason : string) : Svc S unit :=
  let! account := require_account id in
  lift (validate_transition account Disabled) ;;
  let! now := utc_now in
  storage (as_update_status now id Disabled (Some reason)) ;;
  notify self (AE_Disabled id reason).

Definition enable_account self (id : string) : Svc S unit :=
  let! account := require_account id in
  lift (validate_transition account Active) ;;
  let! now := utc_now in
  storage (as_update_status now id Active None) ;;
  notify self (AE_Activated id).

Definition lock_account self (id reason : string) : Svc S unit :=
  let! account := require_account id in
  lift (validate_transition account Locked) ;;
  let! now := utc_now in
  storage (as_update_status now id Locked (Some reason)) ;;
  notify self (AE_Locked id reason).

Definition unlock_account self (id : string) : Svc S unit :=
  let! account := require_account id in
  lift (validate_transition account Active) ;;
  let! now := utc_now in
  storage (as_update_status now id Active None) ;;
  notify self (AE_Unlocked id).

Definition suspend_account self (id reason : string) : Svc S unit :=
  let! account := require_account id in
  lift (validate_transition account Suspended) ;;
  let! now := utc_now in
  storage (as_update_status now id Suspended (Some reason)) ;;
  notify self (AE_Suspended id reason).

Definition verify_email self (id : string) : Svc S unit :=
  let! account := require_account id in
  if acc_email_verified account then ret tt
  else
  let! now := utc_now in
  let account := set_email_verified_at (Some now) (set_email_verified true account) in
  let! now := utc_now in
  let account := set_updated_at now account in
  let account := if bool_decide (acc_status account = PendingVerification)
                 then set_status Active account else account in
  let! now := utc_now in
  storage (as_update now account) ;;
  notify self (AE_EmailVerified id) ;;
  if bool_decide (acc_status account = Active) then notify self (AE_Activated id) else ret tt.

Definition change_password self (id new_password : string) : Svc S unit :=
  let! account := require_account id in
  let! h := hash_password self new_password in
  let account := set_password_hash (Some h) account in
  let! now := utc_now in
  let account := set_password_changed_at (Some now) account in
  let! now := utc_now in
  let account := set_updated_at now account in
  let! now := utc_now in
  storage (as_update now account) ;;
  notify self (AE_PasswordChanged id).

Definition delete_account self (id : string) : Svc S unit :=
  let! deleted := storage (as_delete id) in
  if negb deleted then fail (Acc_NotFound id) else notify self (AE_Deleted id).

Definition list_accounts (status : option AccountStatus) (limit offset : Z) : Svc S (list Account) :=
  storage (as_list status limit offset).

Definition count_accounts (status : option AccountStatus) : Svc S Z :=
  storage (as_count status).

(** Why [authenticate] refuses an account that is not active. *)
Definition inactive_reason (account : Account) : string :=
  match acc_status account with
  | PendingVerification => "email not verified"
  | Disabled => default "administratively disabled" (acc_disabled_reason account)
  | Locked => default "account locked" (acc_locked_reason account)
  | Expired => "account expired"
  | Suspended => "account suspended"
  | _ => "account not active"
  end.

Definition authenticate (email password : string) : Svc S Account :=
  let email := normalize_email email in
  let! o := storage (as_get_by_email email) in
  let! account := lift (ok_or (Acc_NotFound email) o) in
  if bool_decide (acc_status account ≠ Active)
  then fail (Acc_AccountInactive (acc_status account) (inactive_reason account))
  else
  let! password_hash := lift (ok_or Acc_InvalidCredentials (acc_password_hash account)) in
  let! valid := lift (map_err (fun e => Acc_Storage (error_to_string e))
                        (verify password password_hash)) in
  if negb valid then fail Acc_InvalidCredentials
  else
  let! now := utc_now in
  storage_ignored (as_record_login now (aid_as_str (acc_id account))) ;;
  ret account.

(** ** REST handlers *)

(** [Serialize for Account]. *)
Definition account_to_json (a : Account) : json :=
  let str_opt o := from_option JString JNull o in
  let time t := JString (datetime_to_json t) in
  let time_opt o := from_option time JNull o in
  JObject [
    ("id", JString (aid_as_str (acc_id a))); ("email", JString (acc_email a));
    ("username", str_opt (acc_username a)); ("password_hash", str_opt (acc_password_hash a));
    ("status", JString (status_to_string (acc_status a)));
    ("roles", JArray (map JString (acc_roles a)));
    ("email_verified", JBool (acc_email_verified a));
    ("email_verified_at", time_opt (acc_email_verified_at a));
    ("last_login_at", time_opt (acc_last_login_at a)); ("locked_at", time_opt (acc_locked_at a));
    ("locked_reason", str_opt (acc_locked_reason a));
    ("disabled_at", time_opt (acc_disabled_at a));
    ("disabled_reason", str_opt (acc_disabled_reason a));
    ("expires_at", time_opt (acc_expires_at a));
    ("password_changed_at", time_opt (acc_password_changed_at a));
    ("failed_login_count", JNumber (PosInt (acc_failed_login_count a)));
    ("metadata", default JNull (acc_metadata a));
    ("created_at", time (acc_created_at a)); ("updated_at", time (acc_updated_at a)) ].

(** A handler's successful response: status code and JSON body. *)
Definition Handler : Type := World S → result (Z * option json) Error * World S.

(** [let x = m.await?; Ok(f x)]. *)
Definition respond {A} (m : Svc S A) (f : A → Z * option json) : Handler := fun w =>
  let '(r, w) := m w in
  (match r with Ok a => Ok (f a) | Err e => Err (error_from_account e) end, w).

Definition no_content {A} (_ : A) : Z * option json := (204, None).

Definition handle_create_account self (data : CreateAccount) : Handler :=
  respond (create_account self data) (fun a => (201, Some (account_to_json a))).
Definition handle_get_account self (id : string) : Handler :=
  respond (let! o := get_account self id in lift (ok_or (Acc_NotFound id) o))
    (fun a => (200, Some (account_to_json a))).
Definition handle_update_account self (id : string) (data : UpdateAccount) : Handler :=
  respond (update_account self id data) (fun a => (200, Some (account_to_json a))).
Definition handle_delete_account self (id : string) : Handler :=
  respond (delete_account self id) no_content.

Definition handle_list_accounts (status : option string) (limit offset : option Z) : Handler :=
  let limit := Z.min (default 50 limit) 200 in
  let offset := default 0 offset in
  let status_filter := s ← status; match status_from_str s with Ok st => Some st | Err _ => None end in
  respond (let! accounts := list_accounts status_filter limit offset in
           let! total := count_accounts status_filter in
           ret (accounts, total))
    (fun '(accounts, total) =>
       (200, Some (JObject [("accounts", JArray (map account_to_json accounts));
                            ("total", JNumber (PosInt total)); ("limit", JNumber (PosInt limit));
                            ("offset", JNumber (PosInt offset))]))).

Definition handle_disable_account self (id reason : string) : Handler :=
  respond (disable_account self id reason) no_content.
Definition handle_enable_account self (id : string) : Handler :=
  respond (enable_account self id) no_content.
Definition handle_lock_account self (id reason : string) : Handler :=
  respond (lock_account self id reason) no_content.
Definition handle_unlock_account self (id : string) : Handler :=
  respond (unlock_account self id) no_content.
Definition handle_verify_email self (id : string) : Handler :=
  respond (verify_email self id) no_content.
Definition handle_change_password self (id new_password : string) : Handler :=
  respond (change_password self id new_password) no_content.

(** ** Every operation of the service *)

Inductive AccountOp :=
| Op_Create (data : CreateAccount) | Op_Get (id : string) | Op_GetByEmail (email : string)
| Op_Update (id : string) (data : UpdateAccount)
| Op_Disable (id reason : string) | Op_Enable (id : string)
| Op_Lock (id reason : string) | Op_Unlock (id : string) | Op_Suspend (id reason : string)
| Op_VerifyEmail (id : string) | Op_ChangePassword (id new_password : string)
| Op_Delete (id : string) | Op_List (status : option AccountStatus) (limit offset : Z)
| Op_Count (status : option AccountStatus) | Op_Authenticate (email password : string).

Definition discard {A} (m : Svc S A) : Svc S unit := let! _ := m in ret tt.

Definition run_op self (op : AccountOp) : Svc S unit :=
  match op with
  | Op_Create data => discard (create_account self data)
  | Op_Get id => discard (get_account self id)
  | Op_GetByEmail email => discard (get_account_by_email email)
  | Op_Update id data => discard (update_account self id data)
  | Op_Disable id reason => disable_account self id reason
  | Op_Enable id => enable_account self id
  | Op_Lock id reason => lock_account self id reason
  | Op_Unlock id => unlock_account self id
  | Op_Suspend id reason => suspend_account self id reason
  | Op_VerifyEmail id => verify_email self id
  | Op_ChangePassword id pw => change_password self id pw
  | Op_Delete id => delete_account self id
  | Op_List status limit offset => discard (list_accounts status limit offset)
  | Op_Count status => discard (count_accounts status)
  | Op_Authenticate email password => discard (authenticate email password)
  end.

(** Requests one after another; what each returned is not kept. *)
Definition run_ops self (ops : list AccountOp) (w : World S) : World S :=
  fold_left (fun w op => (run_op self op w).2) ops w.
End Service.
