(* ===== verification/AccountLifecycle.v ===== *)
(** * What the account service guarantees

    Triples relate the table of accounts before and after an operation of
    [AccountService]; they are proved from the [AccountStorageLaws] interface
    alone, so they hold for every backend that meets it. The theorems: every
    request follows the account lifecycle, authentication lets in the right
    accounts, disabling locks out, e-mail verification is idempotent. The
    witnesses run the service on the PostgreSQL backend. *)

From S2P Require Import Prelude FrameworkError AuditEvent AuditStorage Password.
From S2P Require Import Accounts AccountStorage AccountService.

Local Open Scope string_scope.
Local Open Scope Z_scope.
Local Open Scope list_scope.

(** ** Triples over the table of accounts *)

Section Triples.
Context `{TypeIdEnv} `{!TypeIdLaws} `{ServiceEnv} {S : Type} `{!AccountStorage S} `{!AccountStorageLaws S}.

(** Run on a store that holds table [l], [m] returns [r] and leaves table [l']
    such that [Q r l']. *)
Definition triple {A} (l : list Account) (m : Svc S A)
    (Q : result A AccountError → list Account → Prop) : Prop :=
  ∀ w, as_inv (w_store w) → as_contents (w_store w) = l →
    as_inv (w_store (m w).2) ∧ Q (m w).1 (as_contents (w_store (m w).2)).

Lemma triple_lift {A} l (r : result A AccountError) Q : Q r l → triple l (lift r) Q.
Proof. intros HQ w Hi <-. done. Qed.

Lemma triple_bind {A B} l (m : Svc S A) (k : A → Svc S B) Q :
  triple l m (fun r l' => match r with Ok a => triple l' (k a) Q | Err e => Q (Err e) l' end) →
  triple l (bind m k) Q.
Proof.
  intros Hm w Hi Hl. specialize (Hm w Hi Hl) as [Hi' Hk]. unfold bind.
  destruct (m w) as [[a|e] w']; cbn in *; [by apply Hk|done].
Qed.

(** What the store's invariant says about the table. *)
Definition table_ok (l : list Account) : Prop :=
  NoDup (acc_key <$> l) ∧ NoDup (acc_email <$> l) ∧
  Forall (fun a => mti_prefix (aid_mti (acc_id a)) = AccountId_PREFIX) l.

Lemma as_table_ok s : as_inv s → table_ok (as_contents s).
Proof.
  intros Hi. destruct (as_distinct s Hi). split; [done|]. split; [done|].
  apply Forall_forall. intros a. by apply as_prefixed.
Qed.

Lemma triple_table_ok {A} l (m : Svc S A) Q :
  (table_ok l → triple l m Q) → triple l m Q.
Proof. intros Hm w Hi Hl. apply Hm; [|done..]. rewrite <-Hl. by apply as_table_ok. Qed.

Lemma triple_wand {A} l (m : Svc S A) (Q Q' : result A AccountError → list Account → Prop) :
  (∀ r l', Q r l' → Q' r l') → triple l m Q → triple l m Q'.
Proof. intros HQ Hm w Hi Hl. destruct (Hm w Hi Hl). auto. Qed.

Lemma triple_utc_now l Q : (∀ i, Q (Ok (clock i)) l) → triple l utc_now Q.
Proof. intros HQ w Hi <-. split; [done|apply HQ]. Qed.

Lemma triple_random l Q : (∀ n, Q (Ok n) l) → triple l random Q.
Proof. intros HQ w Hi <-. split; [done|apply HQ]. Qed.

Lemma triple_notify self event l Q : Q (Ok tt) l → triple l (notify self event) Q.
Proof. intros HQ w Hi <-. done. Qed.

(** One rule per storage method: it may fail and change nothing. *)
Lemma triple_storage {A} l (op : S → result A Error * S) Q :
  (∀ s r s', as_inv s → as_contents s = l → op s = (r, s') →
    as_inv s' ∧ match r with
                | Ok a => Q (Ok a) (as_contents s')
                | Err _ => as_contents s' = l
                end) →
  (∀ e, Q (Err (Acc_Storage e)) l) → triple l (storage op) Q.
Proof.
  intros Hop He w Hi Hl. unfold storage. destruct (op (w_store w)) as [r s'] eqn:E.
  destruct (Hop _ _ _ Hi Hl E) as [Hi' HQ]. cbn. split; [done|].
  destruct r as [a|e]; cbn; [done|]. rewrite HQ. apply He.
Qed.

Lemma triple_storage_ignored {A} l (op : S → result A Error * S) (Q : _ → _ → Prop) :
  (∀ s r s', as_inv s → as_contents s = l → op s = (r, s') →
    as_inv s' ∧ Q (Ok tt) (as_contents s')) →
  triple l (storage_ignored op) Q.
Proof.
  intros Hop w Hi Hl. unfold storage_ignored. destruct (op (w_store w)) as [r s'] eqn:E.
  by destruct (Hop _ _ _ Hi Hl E).
Qed.

Lemma triple_get_by_id id l Q :
  (∀ e, Q (Err (Acc_Storage e)) l) → Q (Ok (select_one (fun a => acc_key a = id) l)) l →
  triple l (storage (as_get_by_id id)) Q.
Proof.
  intros He HQ. apply triple_storage; [|done]. intros s r s' Hi <- Hop.
  apply as_get_by_id_law in Hop as (Hi' & Hc & Hr); [|done]. split; [done|]. rewrite Hc.
  destruct r as [o|]; [|done]. by rewrite (Hr o).
Qed.

Lemma triple_get_by_email email l Q :
  (∀ e, Q (Err (Acc_Storage e)) l) → Q (Ok (select_one (fun a => acc_email a = email) l)) l →
  triple l (storage (as_get_by_email email)) Q.
Proof.
  intros He HQ. apply triple_storage; [|done]. intros s r s' Hi <- Hop.
  apply as_get_by_email_law in Hop as (Hi' & Hc & Hr); [|done]. split; [done|]. rewrite Hc.
  destruct r as [o|]; [|done]. by rewrite (Hr o).
Qed.

Lemma triple_get_by_username username l Q :
  (∀ e, Q (Err (Acc_Storage e)) l) →
  Q (Ok (select_one (fun a => acc_username a = Some username) l)) l →
  triple l (storage (as_get_by_username username)) Q.
Proof.
  intros He HQ. apply triple_storage; [|done]. intros s r s' Hi <- Hop.
  apply as_get_by_username_law in Hop as (Hi' & Hc & Hr); [|done]. split; [done|]. rewrite Hc.
  destruct r as [o|]; [|done]. by rewrite (Hr o).
Qed.

Lemma triple_create a l Q :
  mti_prefix (aid_mti (acc_id a)) = AccountId_PREFIX →
  (∀ e, Q (Err (Acc_Storage e)) l) → Q (Ok tt) (l ++ [as_stored a]) →
  triple l (storage (as_create a)) Q.
Proof.
  intros Hp He HQ. apply triple_storage; [|done]. intros s r s' Hi <- Hop.
  apply as_create_law in Hop as (Hi' & Hc); [|done..]. split; [done|]. rewrite Hc.
  by destruct r as [[]|].
Qed.

(** The row an [update] writes over [old]. *)
Definition updated_row (now : Z) (a old : Account) : Account :=
  set_created_at (acc_created_at old) (set_updated_at (as_time now) (as_stored a)).

Lemma triple_update now a l Q :
  mti_prefix (aid_mti (acc_id a)) = AccountId_PREFIX →
  (∀ e, Q (Err (Acc_Storage e)) l) → Q (Ok tt) (update_where (acc_key a) (updated_row now a) l) →
  triple l (storage (as_update now a)) Q.
Proof.
  intros Hp He HQ. apply triple_storage; [|done]. intros s r s' Hi <- Hop.
  apply as_update_law in Hop as (Hi' & Hc); [|done..]. split; [done|]. rewrite Hc.
  by destruct r as [[]|].
Qed.

Lemma triple_update_status now id status reason l Q :
  (∀ e, Q (Err (Acc_Storage e)) l) →
  Q (Ok tt) (update_where id (apply_status (as_time now) status reason) l) →
  triple l (storage (as_update_status now id status reason)) Q.
Proof.
  intros He HQ. apply triple_storage; [|done]. intros s r s' Hi <- Hop.
  apply as_update_status_law in Hop as (Hi' & Hc); [|done..]. split; [done|]. rewrite Hc.
  by destruct r as [[]|].
Qed.

Lemma triple_delete id l Q :
  (∀ e, Q (Err (Acc_Storage e)) l) →
  Q (Ok (bool_decide (id ∈ acc_key <$> l))) (filter (fun a => acc_key a ≠ id) l) →
  triple l (storage (as_delete id)) Q.
Proof.
  intros He HQ. apply triple_storage; [|done]. intros s r s' Hi <- Hop.
  apply as_delete_law in Hop as (Hi' & Hc & Hb); [|done..]. split; [done|]. rewrite Hc.
  destruct r as [b|]; [|done]. by rewrite (Hb b).
Qed.
End Triples.

(** Symbolic execution: one rule per step, [cbn] in between; it stops at
    branches and at postconditions. *)
Ltac svc_step :=
  lazymatch goal with
  | |- triple _ (bind _ _) _ => apply triple_bind
  | |- triple _ (lift _) _ => apply triple_lift
  | |- triple _ (ret _) _ => apply triple_lift
  | |- triple _ (fail _) _ => apply triple_lift
  | |- triple _ utc_now _ => apply triple_utc_now; intros ?
  | |- triple _ random _ => apply triple_random; intros ?
  | |- triple _ (notify _ _) _ => apply triple_notify
  | |- triple _ (storage (as_get_by_id _)) _ => apply triple_get_by_id; [intros ?|]
  | |- triple _ (storage (as_get_by_email _)) _ => apply triple_get_by_email; [intros ?|]
  | |- triple _ (storage (as_get_by_username _)) _ => apply triple_get_by_username; [intros ?|]
  | |- triple _ (storage (as_update_status _ _ _ _)) _ => apply triple_update_status; [intros ?|]
  | |- triple _ (storage (as_delete _)) _ => apply triple_delete; [intros ?|]
  end; cbn beta iota zeta.
Ltac svc := repeat svc_step.

Section Lifecycle.
Context `{TypeIdEnv} `{!TypeIdLaws} `{Argon2Env} `{ServiceEnv} {S : Type} `{!AccountStorage S} `{!AccountStorageLaws S}.
Implicit Types self : AccountService.

Lemma select_one_Some (P : Account → Prop) `{∀ a, Decision (P a)} l a :
  select_one P l = Some a → a ∈ l ∧ P a.
Proof.
  unfold select_one. intros Hh. assert (a ∈ filter P l) as Ha.
  { destruct (filter P l); [done|]. injection Hh as ->. left. }
  by apply list_elem_of_filter in Ha as [? ?].
Qed.

Lemma select_one_None (P : Account → Prop) `{∀ a, Decision (P a)} l a :
  select_one P l = None → a ∈ l → ¬ P a.
Proof.
  unfold select_one. intros Hh Ha. assert (filter P l = []) as Hf by by destruct (filter P l).
  by eapply filter_nil_inv.
Qed.

(** With a unique key the selected row is the row with that key. *)
Lemma select_one_unique {K : Type} `{EqDecision K} (f : Account → K) l a :
  NoDup (f <$> l) → a ∈ l → select_one (fun x => f x = f a) l = Some a.
Proof.
  intros Hn Ha. destruct (select_one _ l) as [x|] eqn:E.
  - apply select_one_Some in E as [Hx Ex]. f_equal. by eapply NoDup_fmap_elem_inj.
  - by destruct (select_one_None _ _ _ E Ha).
Qed.

Lemma triple_require_account id l Q :
  (∀ e, Q (Err (Acc_Storage e)) l) → Q (Err (Acc_NotFound id)) l →
  (∀ a, a ∈ l → acc_key a = id → Q (Ok a) l) →
  triple (S := S) l (require_account id) Q.
Proof.
  intros He Hn HQ. unfold require_account. svc; [by auto|].
  destruct (select_one _ l) as [a|] eqn:E; [|done].
  apply select_one_Some in E as [? ?]. by apply HQ.
Qed.

(** What one request may do to one account: keep its id; change the status
    along the lifecycle, or to [Expired] once the account's expiration time
    has passed; change the e-mail address to a valid, normalized one. *)
Definition email_ok (email : string) : Prop :=
  is_valid_email email = true ∧ ∃ raw, email = normalize_email raw.

Definition lifecycle (a a' : Account) : Prop :=
  acc_key a' = acc_key a ∧
  (acc_status a' = acc_status a ∨ can_transition_to (acc_status a) (acc_status a') = true ∨
   acc_status a' = Expired ∧ ∃ t i, acc_expires_at a = Some t ∧ t < clock i) ∧
  (acc_email a' = acc_email a ∨ email_ok (acc_email a')).

(** What one request may do to the table. *)
Inductive table_step (l : list Account) : list Account → Prop :=
| step_same : table_step l l
| step_create a :
    acc_status a ∈ [PendingVerification; Active] → email_ok (acc_email a) →
    table_step l (l ++ [a])
| step_update id f :
    (∀ a, a ∈ l → acc_key a = id → lifecycle a (f a)) → table_step l (update_where id f l)
| step_delete id : table_step l (filter (fun a => acc_key a ≠ id) l).

Definition op_post (l : list Account) {A} (r : result A AccountError) (l' : list Account) : Prop :=
  table_step l l' ∧ (is_ok r = false → l' = l).

Lemma op_post_same l {A} (r : result A AccountError) : op_post l r l.
Proof. split; [constructor|done]. Qed.

Hint Resolve op_post_same : core.

Lemma op_post_ok l {A} (a : A) l' : table_step l l' → op_post l (Ok a) l'.
Proof. by split. Qed.

Lemma triple_discard {A} l (m : Svc S A) :
  triple l m (op_post l) → triple l (discard m) (op_post l).
Proof.
  intros Hm. apply triple_bind. eapply triple_wand; [|exact Hm].
  intros [a|e] l' Hp; [|done]. apply triple_lift. destruct Hp as [Hs _]. by split.
Qed.

(** The administrative transitions. *)
Lemma step_status id a l now status reason :
  table_ok l → a ∈ l → acc_key a = id → can_transition_to (acc_status a) status = true →
  table_step l (update_where id (apply_status now status reason) l).
Proof.
  intros (Hk & _) Ha <- Ht. apply step_update. intros x Hx Ex.
  apply (NoDup_fmap_elem_inj acc_key l) in Ex as ->; [|done..].
  split; [by destruct status|]. split; [right; left|left]; by destruct status.
Qed.

Lemma triple_transition self id target reason event l :
  triple (S := S) l
    (bind (require_account id) (fun account =>
     bind (lift (validate_transition account target)) (fun _ =>
     bind utc_now (fun now =>
     bind (storage (as_update_status now id target reason)) (fun _ => notify self event)))))
    (op_post l).
Proof.
  apply triple_table_ok. intros Hok. svc. apply triple_require_account; [auto..|].
  intros a Ha Hid. svc. unfold validate_transition.
  destruct (can_transition_to (acc_status a) target) eqn:Et; cbn; [|auto]. svc; [auto|].
  by eapply op_post_ok, step_status.
Qed.

(** Overwriting a row with a changed copy of it. *)
Lemma step_overwrite a a' now l :
  table_ok l → a ∈ l → acc_id a' = acc_id a → lifecycle a a' →
  table_step l (update_where (acc_key a') (updated_row now a') l).
Proof.
  intros (Hk & _ & Hp) Ha Hid (Hkey & Hst & Hem). apply step_update. intros x Hx Ex.
  rewrite Hkey in Ex. apply (NoDup_fmap_elem_inj acc_key l) in Ex as ->; [|done..].
  rewrite Forall_forall in Hp. destruct (as_stored_same a') as (Hi & He & _ & _ & Hs & _).
  { rewrite Hid. auto. }
  unfold lifecycle, updated_row, acc_key in *. cbn. rewrite Hi, He, Hs, Hid. auto.
Qed.

Lemma table_ok_prefix l a :
  table_ok l → a ∈ l → mti_prefix (aid_mti (acc_id a)) = AccountId_PREFIX.
Proof. intros (_ & _ & Hp). rewrite Forall_forall in Hp. apply Hp. Qed.

Lemma triple_overwrite now a a' l :
  table_ok l → a ∈ l → acc_id a' = acc_id a → lifecycle a a' →
  triple (S := S) l (storage (as_update now a')) (op_post l).
Proof.
  intros Hok Ha Hid Hlc. apply triple_update; [rewrite Hid; by eapply table_ok_prefix|auto|].
  by eapply op_post_ok, step_overwrite.
Qed.

Lemma lifecycle_refl a : lifecycle a a.
Proof. split; [done|]. split; by left. Qed.

(** The last storage call of an operation; notifications follow. *)
Lemma triple_finish {A B} l (m : Svc S A) (k : A → Svc S B) :
  triple l m (op_post l) →
  (∀ a l', triple l' (k a) (fun r l'' => is_ok r = true ∧ l'' = l')) →
  triple l m (fun r l' => match r with Ok a => triple l' (k a) (op_post l)
                          | Err e => op_post l (@Err B _ e) l' end).
Proof.
  intros Hm Hk. eapply triple_wand; [|exact Hm].
  intros [a|e] l' [Hs He]; [|by split; [|auto]]. eapply triple_wand; [|apply Hk].
  intros r l'' [Hr ->]. split; [done|]. by rewrite Hr.
Qed.

Lemma triple_update_email a email l :
  triple (S := S) l (update_email a email)
    (fun r l' => l' = l ∧ ∀ a', r = Ok a' → acc_id a' = acc_id a ∧ lifecycle a a').
Proof.
  unfold update_email. destruct email as [email|]; svc.
  - destruct (is_valid_email _) eqn:Ev; cbn [negb]; [|by svc]. svc; [done|].
    assert (lifecycle a (set_email (normalize_email email) a)).
    { split; [done|]. split; [by left|]. right. split; [done|]. by eexists. }
    destruct (select_one _ l) as [x|]; [case_bool_decide|]; svc; naive_solver.
  - split; [done|]. intros a' [= <-]. auto using lifecycle_refl.
Qed.

Lemma triple_update_roles self id a roles l :
  triple (S := S) l (update_roles self id a roles)
    (fun r l' => l' = l ∧ ∃ a', r = Ok a' ∧ acc_id a' = acc_id a ∧ acc_status a' = acc_status a ∧
                              acc_email a' = acc_email a).
Proof.
  unfold update_roles. destruct roles; svc; [case_bool_decide; svc|]; eauto 10.
Qed.

Lemma triple_update_account self id data l :
  triple (S := S) l (update_account self id data) (op_post l).
Proof.
  apply triple_table_ok. intros Hok. unfold update_account. svc.
  apply triple_require_account; [auto..|]. intros a Ha Hid. svc.
  eapply triple_wand; [|apply (triple_update_email a (ua_email data))].
  intros [a1|e] l1 [-> Ha1]; [|auto]. destruct (Ha1 a1 eq_refl) as [Hi1 Hl1]. svc.
  eapply triple_wand; [|apply triple_update_roles].
  intros r l1 (-> & a2 & -> & Hi2 & Hs2 & He2). svc.
  apply triple_finish; [|intros [] l'; by svc].
  apply (triple_overwrite _ a); [done..| |].
  - cbn. destruct (ua_metadata data), (ua_expires_at data); cbn; rewrite Hi2;
      by destruct (ua_username data).
  - unfold lifecycle, acc_key in *.
    destruct (ua_metadata data), (ua_expires_at data); cbn; rewrite ?Hi2, ?Hs2, ?He2;
      by destruct (ua_username data).
Qed.

Lemma triple_hash_password self pw l :
  triple (S := S) l (hash_password self pw)
    (fun r l' => l' = l ∧ ∀ h, r = Ok h → ∃ n, hash (svc_hasher self) (salt n) pw = Ok h).
Proof.
  unfold hash_password. svc. split; [done|]. intros h Hh. apply map_err_Ok in Hh. eauto.
Qed.

Lemma triple_verify_email self id l :
  triple (S := S) l (verify_email self id) (op_post l).
Proof.
  apply triple_table_ok. intros Hok. unfold verify_email. svc.
  apply triple_require_account; [auto..|]. intros a Ha Hid.
  destruct (acc_email_verified a); svc; [auto|].
  apply triple_finish; [|intros [] l'; svc; case_bool_decide; by svc].
  apply (triple_overwrite _ a); [done..| |]; cbn; case_bool_decide as Hs; try done.
  - split; [done|]. cbn. rewrite Hs. auto.
  - split; [done|]. cbn. auto.
Qed.

Lemma triple_change_password self id pw l :
  triple (S := S) l (change_password self id pw) (op_post l).
Proof.
  apply triple_table_ok. intros Hok. unfold change_password. svc.
  apply triple_require_account; [auto..|]. intros a Ha Hid. svc.
  eapply triple_wand; [|apply triple_hash_password]. intros [h|e] l' [-> _]; [|auto]. svc.
  apply triple_finish; [|intros [] l'; by svc].
  apply (triple_overwrite _ a); [done..|]. split; [done|]. cbn. auto.
Qed.

Lemma triple_delete_account self id l :
  triple (S := S) l (delete_account self id) (op_post l).
Proof.
  unfold delete_account. svc; [auto|]. case_bool_decide as Hid; cbn; svc.
  - apply op_post_ok. constructor.
  - split; [constructor|]. intros _. apply filter_all. intros a Ha E. apply Hid.
    apply list_elem_of_fmap. eauto.
Qed.

Lemma triple_get_account self id l :
  triple (S := S) l (get_account self id) (op_post l).
Proof.
  apply triple_table_ok. intros Hok. unfold get_account. svc; [auto|].
  destruct (select_one _ l) as [a|] eqn:E; svc; [|auto].
  apply select_one_Some in E as [Ha Hid].
  case_bool_decide; svc; [|auto]. destruct (acc_expires_at a) as [t|] eqn:Et; svc; [|auto].
  destruct (Z.ltb_spec t (clock i)); svc; [|auto].
  apply triple_storage_ignored. intros s r s' Hi <- Hop.
  apply as_update_status_law in Hop as [Hi' Hc]; [|done]. split; [done|]. rewrite Hc. svc.
  destruct r; cbn; [|auto]. apply op_post_ok, step_update. intros x Hx Ex.
  destruct Hok as (Hk & _). rewrite <-Hid in Ex.
  apply (NoDup_fmap_elem_inj acc_key (as_contents s)) in Ex as ->; [|done..].
  split; [done|]. split; [|by left]. right. right. eauto.
Qed.

Lemma triple_create_account self data l :
  triple (S := S) l (create_account self data) (op_post l).
Proof.
  unfold create_account, check_username. cbn zeta.
  destruct (is_valid_email _) eqn:Ev; cbn [negb]; [|svc; auto]. svc; [auto|].
  destruct (select_one _ l); svc; [auto|].
  assert (∀ u, triple (S := S) l (check_username self u) (fun _ l' => l' = l)) as Hu.
  { intros u. unfold check_username. destruct (cfg_unique_usernames _), u; svc; try done.
    destruct (select_one _ l); by svc. }
  eapply triple_wand; [|apply Hu]. intros [[]|e] l' ->; [|auto]. svc.
  assert (triple (S := S) l match ca_password data with
     | Some password => bind (hash_password self password) (fun h => ret (Some h))
     | None => ret None end (fun _ l' => l' = l)) as Hh.
  { destruct (ca_password data); svc; [|done]. eapply triple_wand; [|apply triple_hash_password].
    intros [h|e] l' [-> _]; by svc. }
  eapply triple_wand; [|exact Hh]. intros [h|e] l' ->; [|auto]. svc.
  apply triple_finish; [|intros [] l'; by svc].
  apply triple_create; [apply AccountId_new_prefix|auto|].
  match goal with |- op_post _ _ (_ ++ [as_stored ?a]) =>
    destruct (as_stored_same a) as (_ & He & _ & _ & Hs & _); [apply AccountId_new_prefix|] end.
  apply op_post_ok, step_create; rewrite ?Hs, ?He; cbn.
  - destruct (default _ _); set_solver.
  - split; [done|]. by eexists.
Qed.

Lemma triple_authenticate_post email pw l :
  triple (S := S) l (authenticate email pw) (op_post l).
Proof.
  unfold authenticate. svc; [auto|]. destruct (select_one _ l) as [a|] eqn:E; cbn; svc; [|auto].
  case_bool_decide; svc; [auto|]. destruct (acc_password_hash a) as [h|]; cbn; svc; [|auto].
  destruct (verify pw h) as [[]|]; cbn; svc; auto.
  apply triple_storage_ignored. intros s r s' Hi <- Hop.
  apply as_record_login_law in Hop as [Hi' Hc]; [|done]. split; [done|]. rewrite Hc. svc.
  destruct r; cbn; [|auto]. apply op_post_ok, step_update. intros x Hx Ex.
  split; [done|]. split; by left.
Qed.

Lemma triple_run_op self op l : triple (S := S) l (run_op self op) (op_post l).
Proof.
  destruct op; cbn; try apply triple_discard; try apply triple_transition;
    auto using triple_create_account, triple_get_account, triple_update_account,
      triple_verify_email, triple_change_password, triple_delete_account,
      triple_authenticate_post.
  - unfold get_account_by_email. svc; auto.
  - unfold list_accounts. apply triple_storage; [|auto]. intros s r s' Hi <- Hop.
    apply as_list_law in Hop as (Hi' & Hc & _); [|done]. rewrite Hc. destruct r; auto.
  - unfold count_accounts. apply triple_storage; [|auto]. intros s r s' Hi <- Hop.
    apply as_count_law in Hop as (Hi' & Hc & _); [|done]. rewrite Hc. destruct r; auto.
Qed.

(** C3: Every request to the account service, whatever it returns, keeps the
    store's invariant (distinct ids and e-mail addresses) and changes the
    table of accounts at most by one row: a new account that is pending or
    active, a deletion, or a change of one account that follows
    [can_transition_to], expires an account past its date, or moves it to a
    valid, normalized address. A request that fails changes nothing. *)
Theorem account_requests_follow_lifecycle self op (w : World S) :
  as_inv (w_store w) →
  let '(r, w') := run_op self op w in
  as_inv (w_store w') ∧ table_ok (as_contents (w_store w')) ∧
  table_step (as_contents (w_store w)) (as_contents (w_store w')) ∧
  (∀ e, r = Err e → as_contents (w_store w') = as_contents (w_store w)).
Proof.
  intros Hi. destruct (triple_run_op self op _ w Hi eq_refl) as [Hi' [Hs He]].
  destruct (run_op self op w) as [r w']. cbn in *.
  split; [done|]. split; [by apply as_table_ok|]. split; [done|]. intros e ->. auto.
Qed.

Lemma run_ops_inv self ops : ∀ w : World S,
  as_inv (w_store w) → as_inv (w_store (run_ops self ops w)).
Proof.
  unfold run_ops. induction ops as [|op ops IH]; intros w Hi; cbn; [done|].
  apply IH. by destruct (triple_run_op self op _ w Hi eq_refl).
Qed.

(** Every address in the table was validated and normalized. *)
Definition emails_ok (l : list Account) : Prop := Forall (fun a => email_ok (acc_email a)) l.

Lemma table_step_emails l l' : table_step l l' → emails_ok l → emails_ok l'.
Proof.
  unfold emails_ok. intros Hs Hl. destruct Hs as [|a _ He|id f Hf|id]; [done|..].
  - apply Forall_app. split; [done|by apply Forall_singleton].
  - rewrite Forall_forall in *. intros x (a & -> & Ha)%list_elem_of_fmap.
    case_decide as Hid; [|auto]. destruct (Hf a Ha Hid) as (_ & _ & [-> |?]); auto.
  - rewrite Forall_forall in *. intros x [_ Hx]%list_elem_of_filter. auto.
Qed.

(** Whatever requests the service has served since it started on an empty
    table, no two accounts share an id or an e-mail address, and every stored
    address has the normalized form that [authenticate] looks up and passes
    [is_valid_email]. *)
Theorem accounts_reachable_ok self ops (w : World S) :
  as_inv (w_store w) → as_contents (w_store w) = [] →
  let w' := run_ops self ops w in
  table_ok (as_contents (w_store w')) ∧ emails_ok (as_contents (w_store w')).
Proof.
  intros Hi Hl. assert (emails_ok (as_contents (w_store w))) as He by (rewrite Hl; constructor).
  clear Hl. unfold run_ops. revert w Hi He. induction ops as [|op ops IH]; intros w Hi He; cbn.
  { split; [by apply as_table_ok|done]. }
  destruct (triple_run_op self op _ w Hi eq_refl) as [Hi' [Hs _]].
  apply IH; [done|]. by eapply table_step_emails.
Qed.

(** ** Authentication *)

Lemma triple_authenticate email pw l :
  triple (S := S) l (authenticate email pw) (fun r _ =>
    (∃ e, r = Err (Acc_Storage e)) ∨
    match select_one (fun a => acc_email a = normalize_email email) l with
    | None => r = Err (Acc_NotFound (normalize_email email))
    | Some a =>
        if decide (acc_status a = Active) then
          match acc_password_hash a with
          | None => r = Err Acc_InvalidCredentials
          | Some h =>
              verify pw h = Ok true ∧ r = Ok a ∨ verify pw h = Ok false ∧ r = Err Acc_InvalidCredentials
          end
        else r = Err (Acc_AccountInactive (acc_status a) (inactive_reason a))
    end).
Proof.
  unfold authenticate. svc; [eauto|]. destruct (select_one _ l) as [a|] eqn:E; cbn; svc; [|eauto].
  destruct (decide (acc_status a = Active)) as [Ha|Ha]; case_bool_decide; try done; svc; [|eauto].
  destruct (acc_password_hash a) as [h|]; cbn; svc; [|eauto].
  destruct (verify pw h) as [[]|]; cbn; svc; eauto.
  apply triple_storage_ignored. intros s r s' Hi <- Hop.
  apply as_record_login_law in Hop as [Hi' Hc]; [|done]. split; [done|]. svc. eauto.
Qed.

(** C4: [authenticate] lets in exactly the accounts it should: it returns an
    account only if that account is stored under the normalized address, is
    active and has a password hash the password verifies against; and for
    such an account the only other outcome is a storage error. *)
Theorem authenticate_correct email pw (w : World S) a :
  as_inv (w_store w) →
  let r := (authenticate email pw w).1 in
  let good := a ∈ as_contents (w_store w) ∧ acc_email a = normalize_email email ∧
    acc_status a = Active ∧ ∃ h, acc_password_hash a = Some h ∧ verify pw h = Ok true in
  (r = Ok a → good) ∧ (good → r = Ok a ∨ ∃ e, r = Err (Acc_Storage e)).
Proof.
  intros Hi r good. destruct (triple_authenticate email pw _ w Hi eq_refl) as [_ Hr]. fold r in Hr.
  destruct (as_distinct _ Hi) as [_ Hn]. split.
  - intros E. rewrite E in Hr. destruct Hr as [[e Hr]|Hr]; [done|].
    destruct (select_one _ _) as [x|] eqn:Es; [|done]. apply select_one_Some in Es as [Hx Ex].
    case_decide; [|done]. destruct (acc_password_hash x) as [h|] eqn:Eh; [|done].
    destruct Hr as [[Hv [= ->]]|[_ ?]]; [|done]. repeat split; eauto.
  - intros (Ha & Ee & Es & h & Eh & Hv). destruct Hr as [Hr|Hr]; [by right|]. left.
    rewrite <-Ee, (select_one_unique acc_email) in Hr by done.
    rewrite decide_True, Eh in Hr by done. destruct Hr as [[_ ?]|[Hv' _]]; [done|congruence].
Qed.

Lemma select_one_update_where id f l email :
  (∀ a, acc_email (f a) = acc_email a) →
  select_one (fun a => acc_email a = email) (update_where id f l) =
  (fun a => if decide (acc_key a = id) then f a else a) <$>
    select_one (fun a => acc_email a = email) l.
Proof.
  intros Hf. unfold select_one, update_where. induction l as [|a l IH]; [done|].
  cbn [map]. rewrite !filter_cons.
  assert (acc_email (if decide (acc_key a = id) then f a else a) = acc_email a) as ->
    by (case_decide; auto).
  by case_decide.
Qed.

(** Disabling works: once [disable_account] has returned [Ok], no password
    gets into the account under any spelling of its address; the caller is
    told the reason that was given, unless the store fails. *)
Theorem disabled_cannot_authenticate self id reason (w w' : World S) a email pw :
  as_inv (w_store w) → disable_account self id reason w = (Ok tt, w') →
  a ∈ as_contents (w_store w) → acc_key a = id → normalize_email email = acc_email a →
  let r := (authenticate email pw w').1 in
  r = Err (Acc_AccountInactive Disabled reason) ∨ ∃ e, r = Err (Acc_Storage e).
Proof.
  intros Hi Hd Ha Hid Hem r. destruct (as_distinct _ Hi) as [Hk Hn].
  assert (triple (S := S) (as_contents (w_store w)) (disable_account self id reason) (fun r l' =>
    is_ok r = true → ∃ now, l' = update_where id (apply_status now Disabled (Some reason))
                                   (as_contents (w_store w)))) as Ht.
  { unfold disable_account. svc. apply triple_require_account; [done..|].
    intros x Hx Ex. svc. unfold validate_transition. destruct (can_transition_to _ _); cbn; [|done].
    svc; [done|]. eauto. }
  destruct (Ht w Hi eq_refl) as [Hi' Hl]. rewrite Hd in Hi', Hl. cbn in *.
  destruct (Hl eq_refl) as [now El]. clear Hl Ht.
  destruct (triple_authenticate email pw _ w' Hi' eq_refl) as [_ Hr]. fold r in Hr.
  rewrite El, select_one_update_where, Hem, (select_one_unique acc_email) in Hr by done.
  cbn in Hr. destruct (decide (acc_key a = id)); [|done]. cbn in Hr. destruct Hr; auto.
Qed.

Lemma select_one_update_key id f l :
  (∀ a, a ∈ l → acc_key a = id → acc_key (f a) = id) →
  select_one (fun a => acc_key a = id) (update_where id f l) =
  f <$> select_one (fun a => acc_key a = id) l.
Proof.
  unfold select_one, update_where. induction l as [|a l IH]; intros Hf; [done|].
  cbn [map]. rewrite !filter_cons. destruct (decide (acc_key a = id)) as [Ha|Ha].
  - rewrite decide_True; [done|]. by apply Hf; [left|].
  - rewrite decide_False by done. apply IH. intros x Hx. apply Hf. by right.
Qed.

Lemma triple_verified self id l :
  triple (S := S) l (verify_email self id) (fun r l' =>
    is_ok r = true →
    from_option (fun a => acc_email_verified a = true) False
      (select_one (fun a => acc_key a = id) l')).
Proof.
  apply triple_table_ok. intros Hok. unfold verify_email. svc.
  apply triple_require_account; [done..|]. intros a Ha Hid.
  pose proof (select_one_unique acc_key l a (proj1 Hok) Ha) as Hsel. rewrite Hid in Hsel.
  destruct (acc_email_verified a) eqn:Ev; svc.
  { intros _. by rewrite Hsel. }
  match goal with |- triple _ (storage (as_update _ ?x)) _ => set (a' := x) end.
  assert (acc_id a' = acc_id a ∧ acc_email_verified a' = true) as [Hi' Hv']
    by (unfold a'; by case_bool_decide).
  assert (mti_prefix (aid_mti (acc_id a')) = AccountId_PREFIX) as Hp
    by (rewrite Hi'; by eapply table_ok_prefix).
  destruct (as_stored_same a' Hp) as (Hsi & _ & _ & _ & _ & _ & Hsv).
  apply triple_update; [done..|]. svc.
  assert (acc_key a' = id) as -> by (unfold acc_key in *; by rewrite Hi').
  eapply (triple_wand _ _ (fun _ l' => l' = update_where id (updated_row (clock i1) a') l));
    [|case_bool_decide; by svc].
  intros r l' -> _.
  rewrite select_one_update_key, Hsel; cbn; [by rewrite Hsv|].
  intros x _ _. unfold acc_key in *. cbn. by rewrite Hsi, Hi'.
Qed.

(** [verify_email] is idempotent: called again after it succeeded it
    neither writes to the store nor notifies anyone. *)
Theorem verify_email_idempotent self id (w w' : World S) :
  as_inv (w_store w) → verify_email self id w = (Ok tt, w') →
  let '(r, w'') := verify_email self id w' in
  as_contents (w_store w'') = as_contents (w_store w') ∧ w_spawned w'' = w_spawned w' ∧
  (r = Ok tt ∨ ∃ e, r = Err (Acc_Storage e)).
Proof.
  intros Hi Hv. destruct (triple_verified self id _ w Hi eq_refl) as [Hi' Hs].
  rewrite Hv in Hi', Hs. specialize (Hs eq_refl). cbn in *.
  unfold verify_email, require_account, bind, storage, lift.
  destruct (as_get_by_id id (w_store w')) as [r s'] eqn:E.
  apply as_get_by_id_law in E as (_ & Hc & Hr); [|done].
  destruct r as [o|e]; cbn; [|by eauto]. rewrite <-(Hr o eq_refl) in Hs.
  destruct o as [a|]; cbn in *; [|done]. rewrite Hs. cbn. auto.
Qed.
End Lifecycle.

(** ** The REST interface *)

Section Handlers.
Context `{TypeIdEnv} `{Argon2Env} `{!Argon2Laws} `{ServiceEnv} {S : Type} `{!AccountStorage S}.

Lemma hash_password_Ok self pw (w w' : World S) h :
  hash_password self pw w = (Ok h, w') → verify pw h = Ok true.
Proof.
  unfold hash_password, bind, lift, random. cbn. intros [= Hh _]. apply map_err_Ok in Hh.
  by eapply verify_hash.
Qed.

(** The account handed back by [POST /accounts] is serialized with every
    field, so the response to a request that set a password contains the
    stored password hash, against which that password verifies. *)
Theorem create_response_contains_hash self data (w w' : World S) code body pw :
  handle_create_account self data w = (Ok (code, body), w') → ca_password data = Some pw →
  ∃ entries h, body = Some (JObject entries) ∧ ("password_hash", JString h) ∈ entries ∧
               verify pw h = Ok true.
Proof.
  unfold handle_create_account, respond. destruct (create_account self data w) as [[a|e] w1] eqn:E;
    [|done]. intros [= <- <- <-] Hpw. eexists _.
  enough (∃ h, acc_password_hash a = Some h ∧ verify pw h = Ok true) as (h & Eh & Hv).
  { exists h. split; [done|]. split; [|done]. rewrite Eh. cbn. do 3 right. left. }
  unfold create_account in E. rewrite Hpw in E.
  destruct (negb _); [done|].
  apply bind_Ok in E as (o & w2 & _ & E). destruct o; [done|].
  apply bind_Ok in E as (u & w3 & _ & E).
  apply bind_Ok in E as (ho & w4 & Hh & E).
  apply bind_Ok in Hh as (h & w5 & Hh%hash_password_Ok & [= <- <-]).
  repeat (apply bind_Ok in E as (? & ? & _ & E)). injection E as <- _. cbn. eauto.
Qed.
End Handlers.

(** ** Witnesses *)

(** TypeIDs as a prefix with a number, printed in unary. *)
Fixpoint zeros (n : nat) (p : string) : string :=
  match n with O => String "_" p | Datatypes.S n => String "0" (zeros n p) end.

Fixpoint parse_zeros (s : string) : result (string * nat) string :=
  match s with
  | EmptyString => Err "no separator"
  | String c s =>
      if Ascii.eqb c "_" then Ok (s, O)
      else if Ascii.eqb c "0"
           then match parse_zeros s with Ok (p, n) => Ok (p, Datatypes.S n) | Err e => Err e end
           else Err "not a digit"
  end.

#[local] Instance witness_typeid : TypeIdEnv := {|
  MagicTypeId := string * nat;
  mti_create p n := (p, n);
  mti_prefix m := m.1;
  mti_as_str m := zeros m.2 m.1;
  mti_from_str := parse_zeros;
|}.

#[local] Instance witness_typeid_laws : TypeIdLaws.
Proof.
  split; cbn; [|intros s [p n]; revert p n|done].
  - intros [p n]. cbn. induction n as [|n IH]; cbn; [done|]. by rewrite IH.
  - induction s as [|c s IH]; intros p n; cbn; [done|].
    destruct (Ascii.eqb_spec c "_") as [-> |]; [by intros [= <- <-]|].
    destruct (Ascii.eqb_spec c "0") as [-> |]; [|done].
    destruct (parse_zeros s) as [[p' n']|]; [|done]. intros [= <- <-]. cbn. f_equal. by apply (IH p').
Qed.

#[local] Existing Instance witness_pg_env.
#[local] Existing Instance witness_argon2.
#[local] Existing Instance witness_argon2_laws.

#[local] Instance witness_jsonb : PgJsonbLaws.
Proof. done. Qed.

#[local] Instance witness_service_env : ServiceEnv := {|
  str_trim s := s; str_to_lowercase s := s; clock n := 1000 + Z.of_nat n;
  datetime_to_json _ := "t"; salt _ := "salt";
|}.

Definition witness_service : AccountService :=
  mkAccountService witness_hasher (mkAccountsConfig PendingVerification false 0 true true) [0%nat].

Definition witness_world : World PgAccountDb := mkWorld (mkPgAccountDb [] [] 0) 0 0 [].

Definition witness_create (email username : string) (expires_at : option Z) : CreateAccount :=
  mkCreateAccount email (Some username) (Some "correct horse") ["user"] expires_at None None.

(** Two accounts; the first has an expiration date that has passed. *)
Definition witness_accounts : World PgAccountDb :=
  run_ops witness_service
    [Op_Create (witness_create "a@x.org" "ann" (Some 5)); Op_Create (witness_create "b@x.org" "bob" None)]
    witness_world.

Lemma witness_world_inv : as_inv (w_store witness_world).
Proof. repeat split; constructor. Qed.

Lemma witness_accounts_inv : as_inv (w_store witness_accounts).
Proof. apply run_ops_inv, witness_world_inv. Qed.

Lemma account_requests_follow_lifecycle_witness :
  let '(r, w') := run_op witness_service (Op_Lock "0_acct" "attack") witness_accounts in
  r = Ok tt ∧ map acc_status (as_contents (w_store w')) = [Locked; Active] ∧
  table_step (as_contents (w_store witness_accounts)) (as_contents (w_store w')).
Proof.
  pose proof (account_requests_follow_lifecycle witness_service (Op_Lock "0_acct" "attack")
    witness_accounts witness_accounts_inv) as Hl.
  destruct (run_op witness_service (Op_Lock "0_acct" "attack") witness_accounts) as [r w'] eqn:E.
  destruct Hl as (_ & _ & Hs & _). split; [|split; [|exact Hs]]; clear Hs;
    vm_compute in E; injection E as <- <-; vm_compute; reflexivity.
Defined.

Lemma accounts_reachable_ok_witness :
  table_ok (as_contents (w_store (run_ops witness_service
    [Op_Create (witness_create "a@x.org" "ann" None); Op_Create (witness_create "a@x.org" "eve" None)]
    witness_world))).
Proof.
  apply (accounts_reachable_ok witness_service
    [Op_Create (witness_create "a@x.org" "ann" None); Op_Create (witness_create "a@x.org" "eve" None)]
    witness_world witness_world_inv).
  reflexivity.
Defined.

(** The second witness account, as stored. *)
Definition witness_account : Account :=
  default (mkAccount (AccountId_new 0) "" None None Active [] false None None None None None None None
             None 0 None 0 0)
    (as_contents (w_store witness_accounts) !! 1%nat).

Lemma authenticate_correct_witness :
  (authenticate "b@x.org" "correct horse" witness_accounts).1 = Ok witness_account ∧
  acc_status witness_account = Active.
Proof.
  assert ((authenticate "b@x.org" "correct horse" witness_accounts).1 = Ok witness_account) as E
    by (vm_compute; reflexivity).
  destruct (authenticate_correct "b@x.org" "correct horse" witness_accounts witness_account
              witness_accounts_inv) as [Hs _].
  split; [exact E|]. apply Hs in E. apply E.
Defined.

Definition witness_disabled : World PgAccountDb :=
  (disable_account witness_service "000_acct" "fraud" witness_accounts).2.

Lemma disabled_cannot_authenticate_witness :
  (authenticate "b@x.org" "correct horse" witness_disabled).1 =
    Err (Acc_AccountInactive Disabled "fraud") ∨
  ∃ e, (authenticate "b@x.org" "correct horse" witness_disabled).1 = Err (Acc_Storage e).
Proof.
  apply (disabled_cannot_authenticate witness_service "000_acct" "fraud" witness_accounts
           witness_disabled witness_account "b@x.org" "correct horse" witness_accounts_inv).
  - vm_compute; reflexivity.
  - apply (list_elem_of_lookup_2 _ 1). vm_compute. reflexivity.
  - vm_compute; reflexivity.
  - vm_compute; reflexivity.
Defined.

(** A service that asks for e-mail verification. *)
Definition witness_pending : World PgAccountDb :=
  run_ops (mkAccountService witness_hasher AccountsConfig_default [0%nat])
    [Op_Create (witness_create "c@x.org" "cat" None)] witness_world.

Lemma witness_pending_inv : as_inv (w_store witness_pending).
Proof. apply run_ops_inv, witness_world_inv. Qed.

Definition witness_verified : World PgAccountDb :=
  (verify_email witness_service "0_acct" witness_pending).2.

Lemma verify_email_idempotent_witness :
  map acc_status (as_contents (w_store witness_pending)) = [PendingVerification] ∧
  map acc_status (as_contents (w_store witness_verified)) = [Active] ∧
  let '(r, w'') := verify_email witness_service "0_acct" witness_verified in
  as_contents (w_store w'') = as_contents (w_store witness_verified) ∧
  w_spawned w'' = w_spawned witness_verified ∧
  (r = Ok tt ∨ ∃ e, r = Err (Acc_Storage e)).
Proof.
  split; [vm_compute; reflexivity|]. split; [vm_compute; reflexivity|].
  apply (verify_email_idempotent witness_service "0_acct" witness_pending witness_verified
           witness_pending_inv).
  vm_compute. reflexivity.
Defined.

Lemma create_response_contains_hash_witness :
  ∃ entries h, (handle_create_account witness_service (witness_create "d@x.org" "dan" None)
                  witness_world).1 = Ok (201, Some (JObject entries)) ∧
    ("password_hash", JString h) ∈ entries ∧ verify "correct horse" h = Ok true.
Proof.
  destruct (handle_create_account witness_service (witness_create "d@x.org" "dan" None) witness_world)
    as [[[code body]|] w'] eqn:E; [|by vm_compute in E].
  destruct (create_response_contains_hash witness_service _ witness_world w' code body "correct horse"
              E eq_refl) as (entries & h & -> & Hin & Hv).
  exists entries, h. split; [|by split]. vm_compute in E. injection E as <- <- _. reflexivity.
Defined.

(** ** What the service lets through *)

(** An account past its expiration date still authenticates, although
    [get_account] reports the same account as expired. *)
Theorem expired_account_authenticates :
  ∃ a, (authenticate "a@x.org" "correct horse" witness_accounts).1 = Ok a ∧
       acc_expires_at a = Some 5 ∧ clock 0 = 1000 ∧
       ∃ a', (get_account witness_service "0_acct" witness_accounts).1 = Ok (Some a') ∧
             acc_status a' = Expired.
Proof.
  eexists. split; [vm_compute; reflexivity|]. split; [reflexivity|]. split; [reflexivity|].
  eexists. split; [vm_compute; reflexivity|]. reflexivity.
Qed.

(** [unlock_account] also re-enables an account that was disabled, and
    announces it as unlocked. *)
Theorem unlock_enables_disabled :
  let '(r, w) := unlock_account witness_service "000_acct" witness_disabled in
  map acc_status (as_contents (w_store witness_disabled)) = [Active; Disabled] ∧
  r = Ok tt ∧ map acc_status (as_contents (w_store w)) = [Active; Active] ∧
  last (w_spawned w) = Some (0%nat, AE_Unlocked "000_acct").
Proof. vm_compute. repeat split. Qed.

(** With [unique_usernames] set, [create_account] refuses a taken username
    and [update_account] does not. *)
Theorem update_ignores_unique_usernames :
  cfg_unique_usernames (svc_config witness_service) = true ∧
  (create_account witness_service (witness_create "e@x.org" "ann" None) witness_accounts).1 =
    Err (Acc_AlreadyExists "username: ann") ∧
  let '(r, w) := update_account witness_service "000_acct"
                   (mkUpdateAccount None (Some "ann") None None None) witness_accounts in
  is_ok r = true ∧ map acc_username (as_contents (w_store w)) = [Some "ann"; Some "ann"].
Proof. vm_compute. repeat split. Qed.

(** A [RolesUpdated] event goes out before the update is stored, and stays
    out when the update then fails. *)
Theorem roles_event_without_update :
  let broken := mkWorld (mkPgAccountDb (pad_rows (w_store witness_accounts)) [None; Some "down"] 0)
                  0 9 [] in
  let '(r, w) := update_account witness_service "000_acct"
                   (mkUpdateAccount None None (Some ["admin"]) None None) broken in
  is_ok r = false ∧ w_spawned w = [(0%nat, AE_RolesUpdated "000_acct" ["admin"])] ∧
  map acc_roles (as_contents (w_store w)) = [["user"]; ["user"]].
Proof. vm_compute. repeat split. Qed.
