(* ===== verification/Redis.v ===== *)
(** * Redis

    The server the lockout and token components keep their shared state in.
    It is not part of the program, so it is an interface: the commands the
    sources send ([Redis]) and what the Redis documentation says about them
    ([RedisLaws]), with times in milliseconds. A command whose reply is an
    error, for instance because the connection broke, may or may not have
    been carried out. [RedisStore] is an implementation with faults that meets
    the interface; witnesses use it. *)

From S2P Require Import Prelude.

Local Open Scope string_scope.
Local Open Scope Z_scope.
Local Open Scope list_scope.

(** A key's integer value and, for a volatile key, its deadline. *)
Abbreviation entry := (Z * option Z)%type.

(** The commands, at the server's time [now]. *)
Class Redis (R : Type) := {
  (** [redis_pool.get()]. *)
  rd_connect : R → result unit string * R;
  rd_ttl : Z → string → R → result Z string * R;
  rd_get : Z → string → R → result (option Z) string * R;
  rd_exists : Z → string → R → result bool string * R;
  rd_incr : Z → string → R → result Z string * R;
  rd_expire : Z → string → Z → R → result unit string * R;
  rd_set_ex : Z → string → Z → Z → R → result unit string * R;
  rd_del : Z → list string → R → result unit string * R;
}.

(** A key past its deadline does not exist. *)
Definition visible (now : Z) (e : option entry) : option entry :=
  match e with
  | Some (_, Some d) => if now <? d then e else None
  | _ => e
  end.

Lemma visible_later t t' e : t ≤ t' → visible t' (visible t e) = visible t' e.
Proof.
  intros Ht. destruct e as [[v [d|]]|]; cbn; [|done..].
  destruct (Z.ltb_spec t d); cbn; [done|]. destruct (Z.ltb_spec t' d); [lia|done].
Qed.

Lemma visible_idemp t e : visible t (visible t e) = visible t e.
Proof. by apply visible_later. Qed.

(** What the commands do to an entry. *)
Definition incr_entry (e : option entry) : option entry :=
  match e with Some (n, d) => Some (n + 1, d) | None => Some (1, None) end.

Definition expire_entry (now secs : Z) (e : option entry) : option entry :=
  match e with
  | Some (n, _) => if secs <=? 0 then None else Some (n, Some (now + 1000 * secs))
  | None => None
  end.

Section Laws.
Context {R : Type} `{!Redis R}.

Class RedisLaws := {
  (** What a client sees of a key at a time. *)
  rd_lookup : Z → string → R → option entry;
  rd_later t t' k s : t ≤ t' → rd_lookup t' k s = visible t' (rd_lookup t k s);
  rd_connect_law s r s' t k : rd_connect s = (r, s') → rd_lookup t k s' = rd_lookup t k s;
  (** [TTL]: the remaining seconds, -1 for a key without deadline, -2 for no key. *)
  rd_ttl_law now k s r s' : rd_ttl now k s = (r, s') →
    (∀ t k', rd_lookup t k' s' = rd_lookup t k' s) ∧
    ∀ n, r = Ok n →
      match rd_lookup now k s with
      | Some (_, Some d) => 0 ≤ n ∧ d - now - 1000 < 1000 * n < d - now + 1000
      | Some (_, None) => n = -1
      | None => n = -2
      end;
  rd_get_law now k s r s' : rd_get now k s = (r, s') →
    (∀ t k', rd_lookup t k' s' = rd_lookup t k' s) ∧
    ∀ o, r = Ok o → o = fst <$> rd_lookup now k s;
  rd_exists_law now k s r s' : rd_exists now k s = (r, s') →
    (∀ t k', rd_lookup t k' s' = rd_lookup t k' s) ∧
    ∀ b, r = Ok b → b = bool_decide (is_Some (rd_lookup now k s));
  rd_incr_law now k s r s' : rd_incr now k s = (r, s') →
    ∃ done : bool,
      (∀ k', rd_lookup now k' s' =
         if decide (done = true ∧ k' = k) then incr_entry (rd_lookup now k s)
         else rd_lookup now k' s) ∧
      ∀ n, r = Ok n → done = true ∧ Some n = fst <$> incr_entry (rd_lookup now k s);
  rd_expire_law now k secs s r s' : rd_expire now k secs s = (r, s') →
    ∃ done : bool,
      (∀ k', rd_lookup now k' s' =
         if decide (done = true ∧ k' = k) then expire_entry now secs (rd_lookup now k s)
         else rd_lookup now k' s) ∧
      (is_ok r = true → done = true);
  rd_set_ex_law now k v secs s r s' : rd_set_ex now k v secs s = (r, s') →
    ∃ done : bool,
      (∀ k', rd_lookup now k' s' =
         if decide (done = true ∧ k' = k) then Some (v, Some (now + 1000 * secs))
         else rd_lookup now k' s) ∧
      (is_ok r = true → done = true) ∧ (done = true → 0 < secs);
  rd_del_law now ks s r s' : rd_del now ks s = (r, s') →
    ∃ done : bool,
      (∀ k', rd_lookup now k' s' = if decide (done = true ∧ k' ∈ ks) then None else rd_lookup now k' s) ∧
      (is_ok r = true → done = true);
}.
End Laws.
Arguments RedisLaws R {_}.

(** ** An implementation *)

(** Per command: [None] when it works, else the error and whether the command
    took effect all the same. *)
Record RedisStore := mkRedisStore {
  rs_map : gmap string entry;
  rs_faults : list (option (string * bool));
}.

Section Store.
Implicit Types s : RedisStore.

Definition rs_see (now : Z) (k : string) s : option entry := visible now (rs_map s !! k).

Definition rs_put (k : string) (e : option entry) s : RedisStore :=
  mkRedisStore (partial_alter (fun _ => e) k (rs_map s)) (rs_faults s).

(** A command with reply [r] and effect [f]. *)
Definition rs_cmd {A} (r : RedisStore → A) (f : RedisStore → RedisStore) s : result A string * RedisStore :=
  match rs_faults s with
  | [] => (Ok (r s), f s)
  | None :: fs => (Ok (r s), f (mkRedisStore (rs_map s) fs))
  | Some (msg, applied) :: fs =>
      let s' := mkRedisStore (rs_map s) fs in (Err msg, if applied then f s' else s')
  end.

Definition rs_ttl (now : Z) (k : string) s : Z :=
  match rs_see now k s with
  | Some (_, Some d) => (d - now + 500) / 1000
  | Some (_, None) => -1
  | None => -2
  end.

#[global] Instance RedisStore_Redis : Redis RedisStore := {|
  rd_connect := rs_cmd (fun _ => tt) id;
  rd_ttl now k := rs_cmd (rs_ttl now k) id;
  rd_get now k := rs_cmd (fun s => fst <$> rs_see now k s) id;
  rd_exists now k := rs_cmd (fun s => bool_decide (is_Some (rs_see now k s))) id;
  rd_incr now k := rs_cmd (fun s => default 0 (fst <$> incr_entry (rs_see now k s)))
                          (fun s => rs_put k (incr_entry (rs_see now k s)) s);
  rd_expire now k secs := rs_cmd (fun _ => tt)
                            (fun s => rs_put k (expire_entry now secs (rs_see now k s)) s);
  rd_set_ex now k v secs s :=
    if secs <=? 0 then (Err "ERR invalid expire time", s)
    else rs_cmd (fun _ => tt) (rs_put k (Some (v, Some (now + 1000 * secs)))) s;
  rd_del now ks := rs_cmd (fun _ => tt) (fun s => foldr (fun k => rs_put k None) s ks);
|}.

Lemma rs_see_put now k e k' s :
  rs_see now k' (rs_put k e s) = if decide (k' = k) then visible now e else rs_see now k' s.
Proof.
  unfold rs_see, rs_put. cbn. rewrite lookup_partial_alter. repeat case_decide; congruence.
Qed.

Lemma rs_cmd_inv {A} (r : RedisStore → A) f s res s' :
  rs_cmd r f s = (res, s') →
  ∃ (done : bool) fs, (s' = if done then f (mkRedisStore (rs_map s) fs) else mkRedisStore (rs_map s) fs) ∧
    ∀ a, res = Ok a → done = true ∧ a = r s.
Proof.
  unfold rs_cmd. destruct (rs_faults s) as [|[[msg applied]|] fs] eqn:E; intros [= <- <-].
  - exists true, []. rewrite <-E. destruct s. split; [done|]. by intros a [= <-].
  - exists applied, fs. by split; [destruct applied|].
  - exists true, fs. split; [done|]. by intros a [= <-].
Qed.

#[global] Instance RedisStore_Laws : RedisLaws RedisStore.
Proof.
  refine {| rd_lookup := rs_see |}.
  - intros t t' k s Ht. unfold rs_see. by rewrite visible_later.
  - intros s r s' t k (d & fs & -> & _)%rs_cmd_inv. by destruct d.
  - intros now k s r s' (d & fs & -> & Hr)%rs_cmd_inv. split; [by destruct d|].
    intros n ->. destruct (Hr n eq_refl) as [_ ->]. unfold rs_ttl.
    destruct (rs_see now k s) as [[v [dl|]]|] eqn:E; [|done..].
    assert (now < dl).
    { unfold rs_see, visible in E. repeat case_match; simplify_eq. by apply Z.ltb_lt. }
    split; [apply Z.div_pos; lia|].
    pose proof (Z.div_mod (dl - now + 500) 1000). pose proof (Z.mod_pos_bound (dl - now + 500) 1000). lia.
  - intros now k s r s' (d & fs & -> & Hr)%rs_cmd_inv. split; [by destruct d|].
    intros o ->. by destruct (Hr o eq_refl).
  - intros now k s r s' (d & fs & -> & Hr)%rs_cmd_inv. split; [by destruct d|].
    intros o ->. by destruct (Hr o eq_refl).
  - intros now k s r s' (d & fs & -> & Hr)%rs_cmd_inv. exists d. split.
    + intros k'. destruct d; [|by rewrite decide_False by naive_solver].
      rewrite rs_see_put. unfold rs_see. cbn. repeat case_decide; try naive_solver.
      destruct (rs_map s !! k) as [[v [dl|]]|] eqn:E; cbn; [|done..].
      destruct (now <? dl) eqn:Hd; cbn; by rewrite ?Hd.
    + intros n ->. destruct (Hr n eq_refl) as [-> ->]. split; [done|].
      by destruct (rs_see now k s) as [[]|].
  - intros now k secs s r s' (d & fs & -> & Hr)%rs_cmd_inv. exists d. split.
    + intros k'. destruct d; [|by rewrite decide_False by naive_solver].
      rewrite rs_see_put. unfold rs_see. cbn. repeat case_decide; try naive_solver.
      destruct (visible now (rs_map s !! k)) as [[v o]|]; [|done]. cbn.
      destruct (Z.leb_spec secs 0); [done|]. cbn. destruct (Z.ltb_spec now (now + 1000 * secs)); [done|lia].
    + destruct r as [u|]; [|done]. intros _. by destruct (Hr u eq_refl).
  - intros now k v secs s r s' Hx. cbn in Hx. destruct (Z.leb_spec secs 0).
    { injection Hx as <- <-. exists false. split; [|done]. intros k'. by rewrite decide_False by naive_solver. }
    apply rs_cmd_inv in Hx as (d & fs & -> & Hr). exists d. split; [|split; [|done]].
    + intros k'. destruct d; [|by rewrite decide_False by naive_solver].
      rewrite rs_see_put. repeat case_decide; try naive_solver. cbn.
      destruct (Z.ltb_spec now (now + 1000 * secs)); [done|lia].
    + destruct r as [u|]; [|done]. intros _. by destruct (Hr u eq_refl).
  - intros now ks s r s' (d & fs & -> & Hr)%rs_cmd_inv. exists d. split.
    + intros k'. destruct d; [|by rewrite decide_False by naive_solver].
      induction ks as [|k ks IH]; cbn; [rewrite decide_False by set_solver; done|].
      rewrite rs_see_put, IH. repeat case_decide; set_solver.
    + destruct r as [u|]; [|done]. intros _. by destruct (Hr u eq_refl).
Defined.
End Store.
