(* ===== verification/Lockout.v ===== *)
(** * Login lockout

    [src/acton-service/src/lockout/{config,service,notification,middleware}.rs]
    and the audit bridge of [lockout/mod.rs]: failed logins are counted per
    identity in Redis; at the threshold the identity is locked for a while.
    [f64] values are IEEE 754 doubles ([SpecFloat] at precision 53); [f64::powf]
    is a parameter, since the platform's [pow] decides its last bits. *)

From stdpp Require Import pretty.
From Stdlib Require Import SpecFloat.
From S2P Require Import Prelude FrameworkError AuditEvent AuditChain Redis.

Local Open Scope string_scope.
Local Open Scope Z_scope.
Local Open Scope list_scope.

(** ** [f64] *)

Abbreviation f64 := spec_float.

Definition f64_of_Z (n : Z) : f64 := binary_normalize 53 1024 n 0 false.
Definition f64_mul : f64 → f64 → f64 := SFmul 53 1024.
Definition f64_ltb (x y : f64) : bool := SFltb x y.
Definition f64_is_finite (x : f64) : bool :=
  match x with S754_zero _ | S754_finite _ _ _ => true | _ => false end.

(** [as u64]: truncates, saturates, and maps NaN to 0. *)
Definition f64_as_u64 (x : f64) : Z :=
  match x with
  | S754_zero _ | S754_nan => 0
  | S754_infinity s => if s then 0 else 2 ^ 64 - 1
  | S754_finite s m e =>
      if s then 0
      else Z.min (2 ^ 64 - 1) (if 0 <=? e then Zpos m * 2 ^ e else Zpos m / 2 ^ (- e))
  end.

(** ** Configuration *)

Record LockoutConfig := mkLockoutConfig {
  lc_enabled : bool;
  lc_max_attempts : Z;
  lc_window_secs : Z;
  lc_lockout_duration_secs : Z;
  lc_progressive_delay_enabled : bool;
  lc_base_delay_ms : Z;
  lc_max_delay_ms : Z;
  lc_delay_multiplier : f64;
  lc_warning_threshold : Z;
  lc_key_prefix : string;
}.

Definition LockoutConfig_default : LockoutConfig :=
  mkLockoutConfig true 5 900 1800 true 1000 30000 (f64_of_Z 2) 3 "lockout".

(** [clock] is the Redis server's time at each command, in milliseconds. *)
Class LockoutEnv := {
  lk_clock : nat → Z;
  powf : f64 → f64 → f64;
  (** [str::contains(char::is_whitespace)]. *)
  contains_whitespace : string → bool;
  (** The text of a [redis::RedisError] made from a description and detail. *)
  redis_error : string → string → string;
}.

Definition lockout_validate `{LockoutEnv} (self : LockoutConfig) : result unit string :=
  if String.eqb (lc_key_prefix self) "" then Err "key_prefix must not be empty"
  else if contains (lc_key_prefix self) ":" then Err "key_prefix must not contain ':'"
  else if contains_whitespace (lc_key_prefix self) then Err "key_prefix must not contain whitespace"
  else if lc_max_attempts self =? 0 then Err "max_attempts must be greater than 0"
  else if lc_window_secs self =? 0 then Err "window_secs must be greater than 0"
  else if lc_lockout_duration_secs self =? 0 then Err "lockout_duration_secs must be greater than 0"
  else if f64_ltb (lc_delay_multiplier self) (f64_of_Z 1) then Err "delay_multiplier must be >= 1.0"
  else Ok tt.

(** ** Events *)

Inductive UnlockReason := Unlock_Expired | Unlock_SuccessfulLogin | Unlock_AdminAction.

Definition unlock_reason_to_string (r : UnlockReason) : string :=
  match r with
  | Unlock_Expired => "expired"
  | Unlock_SuccessfulLogin => "successful_login"
  | Unlock_AdminAction => "admin_action"
  end.

Inductive LockoutEvent :=
| LE_FailedAttempt (identity : string) (attempt_count max_attempts : Z)
| LE_ApproachingThreshold (identity : string) (attempt_count remaining_attempts : Z)
| LE_AccountLocked (identity : string) (attempt_count lockout_duration_secs : Z)
| LE_AccountUnlocked (identity : string) (reason : UnlockReason).

(** [AuditLockoutNotification::on_event]: the event it logs, if any. *)
Definition lockout_audit_event (id : bytes) (now : Z) (service_name : string)
    (event : LockoutEvent) : option AuditEvent :=
  match event with
  | LE_AccountLocked identity attempt_count lockout_duration_secs =>
      Some (with_metadata (AuditEvent_new id now AuthAccountLocked SevWarning service_name)
        (JObject [("identity", JString identity); ("attempt_count", JNumber (PosInt attempt_count));
                  ("lockout_duration_secs", JNumber (PosInt lockout_duration_secs))]))
  | LE_AccountUnlocked identity reason =>
      Some (with_metadata (AuditEvent_new id now AuthAccountUnlocked SevNotice service_name)
        (JObject [("identity", JString identity);
                  ("reason", JString (unlock_reason_to_string reason))]))
  | _ => None
  end.

(** ** The service *)

Record LockoutStatus := mkLockoutStatus {
  ls_locked : bool;
  ls_attempt_count : Z;
  ls_max_attempts : Z;
  ls_lockout_remaining_secs : Z;
  ls_delay_ms : Z;
}.

Record LoginLockout := mkLoginLockout {
  ll_config : LockoutConfig;
  ll_notifications : list nat;
}.

(** The Redis server, the number of commands sent to it, and the tasks
    spawned for notification handlers. *)
Record LkWorld (R : Type) := mkLkWorld {
  lk_redis : R;
  lk_tick : nat;
  lk_spawned : list (nat * LockoutEvent);
}.
Arguments mkLkWorld {R}.
Arguments lk_redis {R}.
Arguments lk_tick {R}.
Arguments lk_spawned {R}.

Section Service.
Context `{LockoutEnv} {R : Type} `{!Redis R}.
Implicit Types self : LoginLockout.
Local Open Scope monad_scope.

(** A Redis command; its error becomes [Error::Redis]. *)
Definition cmd {A} (op : Z → R → result A string * R) : M (LkWorld R) Error A := fun w =>
  let '(r, s) := op (lk_clock (lk_tick w)) (lk_redis w) in
  (map_err Error_Redis r, mkLkWorld s (S (lk_tick w)) (lk_spawned w)).

Definition get_connection : M (LkWorld R) Error unit := fun w =>
  let '(r, s) := rd_connect (lk_redis w) in
  (map_err (fun e => Error_Redis (redis_error "Failed to get Redis connection for lockout" e)) r,
   mkLkWorld s (lk_tick w) (lk_spawned w)).

(** The conversion of a reply to [u32]. *)
Definition reply_u32 (n : Z) : result Z Error :=
  if decide (fits 32 n) then Ok n
  else Err (Error_Redis (redis_error "Response was of incompatible type" "u32")).

Definition lk_notify self (event : LockoutEvent) : M (LkWorld R) Error unit := fun w =>
  (Ok tt, mkLkWorld (lk_redis w) (lk_tick w)
            (lk_spawned w ++ map (fun handler => (handler, event)) (ll_notifications self))).

Definition attempts_key self (identity : string) : string :=
  lc_key_prefix (ll_config self) +:+ ":attempts:" +:+ identity.

Definition locked_key self (identity : string) : string :=
  lc_key_prefix (ll_config self) +:+ ":locked:" +:+ identity.

Definition compute_delay self (attempt_count : Z) : Z :=
  let config := ll_config self in
  if negb (lc_progressive_delay_enabled config) || (attempt_count =? 0) then 0
  else
    let exponent := f64_of_Z (attempt_count - 1) in
    let delay := f64_mul (f64_of_Z (lc_base_delay_ms config))
                   (powf (lc_delay_multiplier config) exponent) in
    if f64_is_finite delay then Z.min (f64_as_u64 delay) (lc_max_delay_ms config)
    else lc_max_delay_ms config.

Definition get_attempt_count self (identity : string) : M (LkWorld R) Error Z :=
  get_connection ;;
  let! count := cmd (fun now => rd_get now (attempts_key self identity)) in
  match count with
  | Some n => lift (reply_u32 n)
  | None => ret 0
  end.

(** The answer while lockout is switched off. *)
Definition disabled_status self : LockoutStatus :=
  mkLockoutStatus false 0 (lc_max_attempts (ll_config self)) 0 0.

Definition check self (identity : string) : M (LkWorld R) Error LockoutStatus :=
  let config := ll_config self in
  if negb (lc_enabled config) then ret (disabled_status self)
  else
  get_connection ;;
  let! locked_ttl := or_default (-2) (cmd (fun now => rd_ttl now (locked_key self identity))) in
  if 0 <? locked_ttl then
    let! attempt_count := or_default 0 (get_attempt_count self identity) in
    ret (mkLockoutStatus true attempt_count (lc_max_attempts config) locked_ttl 0)
  else
    let! attempt_count := or_default 0 (get_attempt_count self identity) in
    ret (mkLockoutStatus false attempt_count (lc_max_attempts config) 0
           (compute_delay self attempt_count)).

Definition record_failure self (identity : string) : M (LkWorld R) Error LockoutStatus :=
  let config := ll_config self in
  if negb (lc_enabled config) then ret (disabled_status self)
  else
  get_connection ;;
  let! reply := cmd (fun now => rd_incr now (attempts_key self identity)) in
  let! count := lift (reply_u32 reply) in
  (if count =? 1
   then cmd (fun now => rd_expire now (attempts_key self identity)
                          (as_signed 64 (lc_window_secs config)))
   else ret tt) ;;
  lk_notify self (LE_FailedAttempt identity count (lc_max_attempts config)) ;;
  (if (0 <? lc_warning_threshold config) && (count =? lc_warning_threshold config)
      && (count <? lc_max_attempts config)
   then lk_notify self (LE_ApproachingThreshold identity count (lc_max_attempts config - count))
   else ret tt) ;;
  if lc_max_attempts config <=? count then
    cmd (fun now => rd_set_ex now (locked_key self identity) (now / 1000)
                      (as_signed 64 (lc_lockout_duration_secs config))) ;;
    lk_notify self (LE_AccountLocked identity count (lc_lockout_duration_secs config)) ;;
    ret (mkLockoutStatus true count (lc_max_attempts config) (lc_lockout_duration_secs config) 0)
  else
    ret (mkLockoutStatus false count (lc_max_attempts config) 0 (compute_delay self count)).

Definition record_success self (identity : string) : M (LkWorld R) Error unit :=
  if negb (lc_enabled (ll_config self)) then ret tt
  else
  get_connection ;;
  let! was_locked := or_default false (cmd (fun now => rd_exists now (locked_key self identity))) in
  cmd (fun now => rd_del now [attempts_key self identity; locked_key self identity]) ;;
  if was_locked then lk_notify self (LE_AccountUnlocked identity Unlock_SuccessfulLogin) else ret tt.

Definition unlock self (identity : string) : M (LkWorld R) Error unit :=
  get_connection ;;
  cmd (fun now => rd_del now [attempts_key self identity; locked_key self identity]) ;;
  lk_notify self (LE_AccountUnlocked identity Unlock_AdminAction).

(** ** The middleware *)

(** What the middleware reads of a request: the [Content-Type] header when it
    is text, and the body, or why it could not be read. *)
Record LkRequest := mkLkRequest {
  rq_content_type : option string;
  rq_body : result string string;
}.

(** A response's status, its [retry-after] header and its body. *)
Record LkResponse := mkLkResponse {
  rp_status : Z;
  rp_retry_after : option string;
  rp_body : option ErrorResponse;
}.

Record LockoutMiddleware := mkLockoutMiddleware {
  mw_lockout : LoginLockout;
  mw_identity_field : string;
}.

(** [serde_json::from_slice], then [v.get(field)] and [as_str]. *)
Definition extract_identity (from_slice : string → option json) (field body : string)
    : option string :=
  v ← from_slice body;
  match v with
  | JObject entries => match assoc field entries with Some (JString s) => Some s | _ => None end
  | _ => None
  end.

(** [next] is the rest of the stack; sleeping is the delay in the second
    component of the result. *)
Definition middleware (from_slice : string → option json) (mw : LockoutMiddleware)
    (next : LkRequest → M (LkWorld R) Error LkResponse) (request : LkRequest)
    : M (LkWorld R) Error (LkResponse * Z) :=
  let is_json := match rq_content_type request with
                 | Some ct => contains ct "application/json" | None => false end in
  if negb is_json then let! r := next request in ret (r, 0)
  else
  let! body := lift (map_err (fun e => Error_BadRequest ("Failed to read request body: " +:+ e))
                       (rq_body request)) in
  match extract_identity from_slice (mw_identity_field mw) body with
  | None => let! r := next request in ret (r, 0)
  | Some identity =>
      let! status := check (mw_lockout mw) identity in
      if ls_locked status then
        let retry_after := ls_lockout_remaining_secs status in
        ret (mkLkResponse 423 (Some (pretty retry_after))
               (Some (response_with_code 423 "ACCOUNT_LOCKED"
                  ("Account locked. Try again in " +:+ pretty retry_after +:+ " seconds"))), 0)
      else
        let! response := next request in
        if rp_status response =? 401 then
          let! failure_status := record_failure (mw_lockout mw) identity in
          ret (response, ls_delay_ms failure_status)
        else if (200 <=? rp_status response) && (rp_status response <? 300) then
          record_success (mw_lockout mw) identity ;; ret (response, 0)
        else ret (response, 0)
  end.
End Service.
