(* ===== verification/LockoutSafety.v ===== *)
(** * What login lockout guarantees

    Proved from the [RedisLaws] interface, for a clock that does not run
    backwards: identities do not interfere, nobody is locked early, brute
    force is stopped in time, a login clears the slate, and the middleware
    keeps a locked identity away from the handler. Redis errors, including
    commands that took effect although their reply was lost, are covered.
    The witnesses run the service on [RedisStore]. *)

From stdpp Require Import pretty.
From Stdlib Require Import SpecFloat.
From S2P Require Import Prelude FrameworkError AuditEvent AuditChain Redis Lockout.

Local Open Scope string_scope.
Local Open Scope Z_scope.
Local Open Scope list_scope.

(** ** Passage of time and untouched keys *)

Section Frame.
Context `{LockoutEnv} {R : Type} `{!Redis R} `{!RedisLaws R}.
Context (lk_clock_mono : ∀ i j, (i ≤ j)%nat → lk_clock i ≤ lk_clock j).
Implicit Types self : LoginLockout.
Implicit Types w : LkWorld R.

(** What the next command sees under a key. *)
Definition see w (k : string) : option entry :=
  rd_lookup (lk_clock (lk_tick w)) k (lk_redis w).

Definition now_of w : Z := lk_clock (lk_tick w).

(** Between [w] and [w'] time passed and keys outside [ks] were left alone. *)
Definition touches (ks : list string) w w' : Prop :=
  (lk_tick w ≤ lk_tick w')%nat ∧
  ∀ k, k ∉ ks → see w' k = visible (now_of w') (see w k).

Lemma see_visible w k : see w k = visible (now_of w) (see w k).
Proof. unfold see. by rewrite <-rd_later. Qed.

Lemma touches_refl ks w : touches ks w w.
Proof. split; [done|]. intros k _. apply see_visible. Qed.

Lemma touches_trans ks w1 w2 w3 : touches ks w1 w2 → touches ks w2 w3 → touches ks w1 w3.
Proof.
  intros [H1 K1] [H2 K2]. split; [lia|]. intros k Hk. rewrite K2, K1 by done.
  apply visible_later. unfold now_of. by apply lk_clock_mono.
Qed.

(** [m] touches only the keys [ks], whatever it returns. *)
Definition frame (ks : list string) {A} (m : M (LkWorld R) Error A) : Prop :=
  ∀ w, touches ks w (m w).2.

Lemma frame_lift ks {A} (r : result A Error) : frame ks (lift r).
Proof. intros w. apply touches_refl. Qed.

Lemma frame_bind ks {A B} (m : M (LkWorld R) Error A) (k : A → M (LkWorld R) Error B) :
  frame ks m → (∀ a, frame ks (k a)) → frame ks (bind m k).
Proof.
  intros Hm Hk w. specialize (Hm w). unfold bind. destruct (m w) as [[a|e] w1]; cbn in *; [|done].
  eapply touches_trans; [done|apply Hk].
Qed.

Lemma frame_or_default ks {A} d (m : M (LkWorld R) Error A) : frame ks m → frame ks (or_default d m).
Proof. intros Hm w. specialize (Hm w). unfold or_default. by destruct (m w). Qed.

Lemma frame_notify ks self event : frame ks (lk_notify self event).
Proof. intros w. split; [done|]. intros k _. apply (see_visible w). Qed.

Lemma frame_connect ks : frame ks get_connection.
Proof.
  intros w. unfold get_connection. destruct (rd_connect (lk_redis w)) as [r s] eqn:E. split; [done|].
  intros k _. unfold see, now_of. cbn. rewrite (rd_connect_law _ _ _ _ _ E). by rewrite <-rd_later.
Qed.

(** After a command at the time of [w]. *)
Lemma see_cmd w s k :
  see (mkLkWorld s (S (lk_tick w)) (lk_spawned w)) k =
  visible (lk_clock (S (lk_tick w))) (rd_lookup (now_of w) k s).
Proof. unfold see. cbn. apply rd_later, lk_clock_mono. lia. Qed.

Lemma frame_cmd ks {A} (op : Z → R → result A string * R) :
  (∀ now s r s', op now s = (r, s') → ∀ k, k ∉ ks → rd_lookup now k s' = rd_lookup now k s) →
  frame ks (cmd op).
Proof.
  intros Hop w. unfold cmd. destruct (op (lk_clock (lk_tick w)) (lk_redis w)) as [r s] eqn:E.
  split; [cbn; lia|]. intros k Hk. cbn [snd]. rewrite see_cmd. unfold now_of.
  by rewrite (Hop _ _ _ _ E k Hk).
Qed.

Lemma frame_read ks {A} (op : Z → R → result A string * R) :
  (∀ now s r s', op now s = (r, s') → ∀ t k, rd_lookup t k s' = rd_lookup t k s) →
  frame ks (cmd op).
Proof. intros Hop. apply frame_cmd. intros. by eapply Hop. Qed.

Lemma frame_get ks k : frame ks (cmd (fun now => rd_get now k)).
Proof. apply frame_read. intros now s r s' E. apply (rd_get_law _ _ _ _ _ E). Qed.
Lemma frame_ttl ks k : frame ks (cmd (fun now => rd_ttl now k)).
Proof. apply frame_read. intros now s r s' E. apply (rd_ttl_law _ _ _ _ _ E). Qed.
Lemma frame_exists ks k : frame ks (cmd (fun now => rd_exists now k)).
Proof. apply frame_read. intros now s r s' E. apply (rd_exists_law _ _ _ _ _ E). Qed.

Lemma frame_incr ks k : k ∈ ks → frame ks (cmd (fun now => rd_incr now k)).
Proof.
  intros Hin. apply frame_cmd. intros now s r s' E k' Hk.
  destruct (rd_incr_law _ _ _ _ _ E) as (d & -> & _). rewrite decide_False; [done|].
  intros [_ ->]. done.
Qed.

Lemma frame_expire ks k secs : k ∈ ks → frame ks (cmd (fun now => rd_expire now k secs)).
Proof.
  intros Hin. apply frame_cmd. intros now s r s' E k' Hk.
  destruct (rd_expire_law _ _ _ _ _ _ E) as (d & -> & _). rewrite decide_False; [done|].
  intros [_ ->]. done.
Qed.

Lemma frame_set_ex ks k (v : Z → Z) secs : k ∈ ks → frame ks (cmd (fun now => rd_set_ex now k (v now) secs)).
Proof.
  intros Hin. apply frame_cmd. intros now s r s' E k' Hk.
  destruct (rd_set_ex_law _ _ _ _ _ _ _ E) as (d & -> & _). rewrite decide_False; [done|].
  intros [_ ->]. done.
Qed.

Lemma frame_del ks ks' : ks' ⊆ ks → frame ks (cmd (fun now => rd_del now ks')).
Proof.
  intros Hin. apply frame_cmd. intros now s r s' E k' Hk.
  destruct (rd_del_law _ _ _ _ _ E) as (d & -> & _). rewrite decide_False; [done|]. set_solver.
Qed.

Ltac frame_tac := repeat first
  [ progress intros
  | apply frame_bind | apply frame_or_default | apply frame_connect | apply frame_lift
  | apply frame_notify | apply frame_get | apply frame_ttl | apply frame_exists
  | apply frame_incr; set_solver | apply frame_expire; set_solver
  | apply (frame_set_ex _ _ (fun now => now / 1000)); set_solver | apply frame_del; set_solver
  | case_match ].

Definition keys_of self (identity : string) : list string :=
  [attempts_key self identity; locked_key self identity].

Lemma frame_check self i : frame [] (check self i).
Proof. unfold check, get_attempt_count. frame_tac. Qed.

Lemma frame_record_failure self i : frame (keys_of self i) (record_failure self i).
Proof. unfold record_failure, keys_of. frame_tac. Qed.

Lemma frame_record_success self i : frame (keys_of self i) (record_success self i).
Proof. unfold record_success, keys_of. frame_tac. Qed.

Lemma frame_unlock self i : frame (keys_of self i) (unlock self i).
Proof. unfold unlock, keys_of. frame_tac. Qed.

Lemma keys_distinct self i j : attempts_key self i ≠ locked_key self j.
Proof. unfold attempts_key, locked_key. intros E%string_app_inj_l. done. Qed.

Lemma keys_of_disjoint self i j k : i ≠ j → k ∈ keys_of self i → k ∉ keys_of self j.
Proof.
  intros Hij. unfold keys_of. pose proof (keys_distinct self i j). pose proof (keys_distinct self j i).
  assert (attempts_key self i ≠ attempts_key self j) by by intros E%string_app_inj_l%string_app_inj_l.
  assert (locked_key self i ≠ locked_key self j) by by intros E%string_app_inj_l%string_app_inj_l.
  set_solver.
Qed.

(** ** Never locked early *)

(** At most [n] failures are on record for [i], and fewer than the threshold
    means not locked. *)
Definition few self (i : string) (n : Z) w : Prop :=
  (∀ v d, see w (attempts_key self i) = Some (v, d) → v ≤ n) ∧
  (is_Some (see w (locked_key self i)) → lc_max_attempts (ll_config self) ≤ n).

Lemma few_mono self i n n' w : n ≤ n' → few self i n w → few self i n' w.
Proof. intros Hn [Ha Hl]. split; [intros v d E; apply Ha in E; lia|intros Hs; apply Hl in Hs; lia]. Qed.

Lemma visible_Some t e x : visible t e = Some x → e = Some x.
Proof. destruct e as [[v [d|]]|]; cbn; [|done..]. by destruct (t <? d). Qed.

Lemma few_touches self i n ks w w' :
  touches ks w w' → attempts_key self i ∉ ks → locked_key self i ∉ ks → few self i n w → few self i n w'.
Proof.
  intros [_ Ht] Ha Hl [Fa Fl]. split.
  - intros v d. rewrite Ht by done. intros E%visible_Some. eauto.
  - rewrite Ht by done. intros [x E%visible_Some]. eauto.
Qed.

Lemma hoare_frame ks self i n {A} (m : M (LkWorld R) Error A) :
  frame ks m → attempts_key self i ∉ ks → locked_key self i ∉ ks →
  hoare (few self i n) m (fun _ => few self i n).
Proof. intros Hm Ha Hl w. by apply (few_touches self i n ks). Qed.

Lemma few_cmd self i n w s :
  (∀ v d, rd_lookup (now_of w) (attempts_key self i) s = Some (v, d) → v ≤ n) →
  (is_Some (rd_lookup (now_of w) (locked_key self i) s) → lc_max_attempts (ll_config self) ≤ n) →
  few self i n (mkLkWorld s (S (lk_tick w)) (lk_spawned w)).
Proof.
  intros Ha Hl. split.
  - intros v d. rewrite see_cmd. intros E%visible_Some. eauto.
  - rewrite see_cmd. intros [x E%visible_Some]. eauto.
Qed.

Lemma hoare_incr self i n :
  0 ≤ n →
  hoare (few self i n) (cmd (fun now => rd_incr now (attempts_key self i)))
    (fun r w => few self i (n + 1) w ∧ ∀ c, r = Ok c → c ≤ n + 1).
Proof.
  intros Hn w [Fa Fl]. unfold cmd. destruct (rd_incr _ _ _) as [r s] eqn:E.
  destruct (rd_incr_law _ _ _ _ _ E) as (dn & Hs & Hr). fold (now_of w) in *. cbn [fst snd].
  assert (∀ v d, incr_entry (see w (attempts_key self i)) = Some (v, d) → v ≤ n + 1) as Hi.
  { destruct (see w (attempts_key self i)) as [[v0 d0]|]; intros v d [= <- _]; [|lia].
    specialize (Fa v0 d0 eq_refl). lia. }
  split.
  - apply few_cmd.
    + intros v d. rewrite Hs. destruct (decide (_ ∧ _)); [apply Hi|]. intros E'. apply Fa in E'. lia.
    + rewrite Hs, decide_False. { intros Hx. apply Fl in Hx. lia. }
      intros [_ Ek]. by apply (keys_distinct self i i).
  - intros c Hc. destruct r as [c'|]; [|done]. injection Hc as ->.
    destruct (Hr c eq_refl) as [_ Hc]. unfold see in Hi. fold (now_of w) in Hi.
    destruct (incr_entry _) as [[v d]|]; [|done]. cbn in Hc. injection Hc as ->. by eapply Hi.
Qed.

Lemma hoare_expire self i n secs :
  hoare (few self i n) (cmd (fun now => rd_expire now (attempts_key self i) secs))
    (fun _ => few self i n).
Proof.
  intros w [Fa Fl]. unfold cmd. destruct (rd_expire _ _ _ _) as [r s] eqn:E.
  destruct (rd_expire_law _ _ _ _ _ _ E) as (dn & Hs & _). fold (now_of w) in *. apply few_cmd.
  - intros v d. rewrite Hs. destruct (decide (_ ∧ _)); [|apply Fa]. unfold expire_entry.
    change (rd_lookup (now_of w) ?k (lk_redis w)) with (see w k). destruct (see w (attempts_key self i)) as [[v0 d0]|]; [|done].
    destruct (secs <=? 0); [done|]. intros [= <- _]. by eapply Fa.
  - rewrite Hs, decide_False; [exact Fl|]. intros [_ Ek]. by apply (keys_distinct self i i).
Qed.

Lemma hoare_set_ex self i n (v : Z → Z) secs :
  lc_max_attempts (ll_config self) ≤ n →
  hoare (few self i n) (cmd (fun now => rd_set_ex now (locked_key self i) (v now) secs))
    (fun _ => few self i n).
Proof.
  intros Hn w [Fa Fl]. unfold cmd. destruct (rd_set_ex _ _ _ _ _) as [r s] eqn:E.
  destruct (rd_set_ex_law _ _ _ _ _ _ _ E) as (dn & Hs & _). fold (now_of w) in *. apply few_cmd.
  - intros v' d. rewrite Hs, decide_False; [apply Fa|]. intros [_ Ek].
    by apply (keys_distinct self i i).
  - intros _. done.
Qed.

Lemma hoare_record_failure self i n :
  0 ≤ n →
  hoare (few self i n) (record_failure self i) (fun _ => few self i (n + 1)).
Proof.
  intros Hn. assert (∀ w, few self i n w → few self i (n + 1) w) as Hm
    by (intros w; apply few_mono; lia).
  unfold record_failure. destruct (lc_enabled (ll_config self)); cbn [negb];
    [|by apply hoare_lift].
  eapply (hoare_bind _ _ _ (fun _ => few self i n)).
  { intros w Hw. pose proof (hoare_frame [] self i n _ (frame_connect []) ltac:(set_solver)
      ltac:(set_solver) w Hw). case_match; auto. }
  intros _. eapply (hoare_bind _ _ _ (fun c w => few self i (n + 1) w ∧ c ≤ n + 1)).
  { intros w Hw. destruct (hoare_incr self i n Hn w Hw) as [Hf Hc]. case_match; auto. }
  intros reply. eapply (hoare_bind _ _ _ (fun c w => few self i (n + 1) w ∧ c ≤ n + 1)).
  { apply hoare_lift. intros w [Hf Hc]. unfold reply_u32. by case_decide. }
  intros count. eapply (hoare_bind _ _ _ (fun _ w => few self i (n + 1) w ∧ count ≤ n + 1)).
  { intros w [Hf Hc]. destruct (count =? 1); [|done].
    pose proof (hoare_expire self i (n + 1) (as_signed 64 (lc_window_secs (ll_config self))) w Hf).
    case_match; auto. }
  intros _. eapply (hoare_bind _ _ _ (fun _ w => few self i (n + 1) w ∧ count ≤ n + 1)).
  { intros w [Hf Hc]. cbn. split; [|done].
    by apply (few_touches self i _ [] w _ (frame_notify [] self _ w) ltac:(set_solver) ltac:(set_solver)). }
  intros _. eapply (hoare_bind _ _ _ (fun _ w => few self i (n + 1) w ∧ count ≤ n + 1)).
  { intros w [Hf Hc]. destruct (_ && _); [|done]. cbn. split; [|done].
    by apply (few_touches self i _ [] w _ (frame_notify [] self _ w) ltac:(set_solver) ltac:(set_solver)). }
  intros _. destruct (Z.leb_spec (lc_max_attempts (ll_config self)) count); [|by intros w [Hf _]].
  eapply (hoare_bind _ _ _ (fun _ => few self i (n + 1))).
  { intros w [Hf Hc]. pose proof (hoare_set_ex self i (n + 1) (fun now => now / 1000)
      (as_signed 64 (lc_lockout_duration_secs (ll_config self))) ltac:(lia) w Hf).
    case_match; auto. }
  intros _ w Hf. by apply (few_touches self i _ [] w _ (frame_notify [] self _ w)
    ltac:(set_solver) ltac:(set_solver)).
Qed.

Lemma hoare_del self i n :
  hoare (few self i n) (cmd (fun now => rd_del now (keys_of self i)))
    (fun r w => few self i (if is_ok r then 0 else n) w).
Proof.
  intros w [Fa Fl]. unfold cmd. destruct (rd_del _ _ _) as [r s] eqn:E.
  destruct (rd_del_law _ _ _ _ _ E) as (dn & Hs & Hr). fold (now_of w) in *. cbn [fst snd].
  assert (is_ok (map_err Error_Redis r) = is_ok r) as -> by by destruct r.
  assert (∀ k, k ∈ keys_of self i →
    rd_lookup (now_of w) k s = if is_ok r then None else if dn then None else see w k) as Hk.
  { intros k Hk. rewrite Hs. destruct (is_ok r).
    - rewrite decide_True by auto. done.
    - destruct dn; [by rewrite decide_True|]. by rewrite decide_False by naive_solver. }
  unfold keys_of in Hk. apply few_cmd.
  - intros v d. rewrite Hk by set_solver. destruct (is_ok r); [done|]. destruct dn; [done|]. apply Fa.
  - rewrite Hk by set_solver. destruct (is_ok r); [by intros []|]. destruct dn; [by intros []|].
    apply Fl.
Qed.

Lemma hoare_record_success self i n :
  lc_enabled (ll_config self) = true →
  hoare (few self i n) (record_success self i) (fun r w => few self i (if is_ok r then 0 else n) w).
Proof.
  intros He. unfold record_success. rewrite He. cbn [negb].
  eapply (hoare_bind _ _ _ (fun _ => few self i n)).
  { intros w Hw. pose proof (hoare_frame [] self i n _ (frame_connect []) ltac:(set_solver)
      ltac:(set_solver) w Hw). case_match; auto. }
  intros _. eapply (hoare_bind _ _ _ (fun _ => few self i n)).
  { intros w Hw. pose proof (hoare_frame [] self i n _ (frame_or_default [] false _
      (frame_exists [] (locked_key self i))) ltac:(set_solver) ltac:(set_solver) w Hw).
    case_match; auto. }
  intros was_locked. eapply (hoare_bind _ _ _ (fun _ => few self i 0)).
  { intros w Hw. pose proof (hoare_del self i n w Hw). fold (keys_of self i). case_match; auto. }
  intros _ w Hw. destruct was_locked; [|done].
  by apply (few_touches self i _ [] w _ (frame_notify [] self _ w) ltac:(set_solver) ltac:(set_solver)).
Qed.

Lemma hoare_unlock self i n :
  hoare (few self i n) (unlock self i) (fun r w => few self i (if is_ok r then 0 else n) w).
Proof.
  unfold unlock. eapply (hoare_bind _ _ _ (fun _ => few self i n)).
  { intros w Hw. pose proof (hoare_frame [] self i n _ (frame_connect []) ltac:(set_solver)
      ltac:(set_solver) w Hw). case_match; auto. }
  intros _. eapply (hoare_bind _ _ _ (fun _ => few self i 0)).
  { intros w Hw. pose proof (hoare_del self i n w Hw). fold (keys_of self i). case_match; auto. }
  intros _ w Hw.
  by apply (few_touches self i _ [] w _ (frame_notify [] self _ w) ltac:(set_solver) ltac:(set_solver)).
Qed.

(** ** Sequences of calls *)

Inductive LkOp :=
| Lk_Check (identity : string) | Lk_Failure (identity : string)
| Lk_Success (identity : string) | Lk_Unlock (identity : string).

Definition lk_discard {A} (m : M (LkWorld R) Error A) : M (LkWorld R) Error unit := fun w =>
  let '(r, w) := m w in (match r with Ok _ => Ok tt | Err e => Err e end, w).

Definition lk_run self (op : LkOp) : M (LkWorld R) Error unit :=
  match op with
  | Lk_Check i => lk_discard (check self i)
  | Lk_Failure i => lk_discard (record_failure self i)
  | Lk_Success i => record_success self i
  | Lk_Unlock i => unlock self i
  end.

(** Failures reported for [i] since it was last cleared without an error. *)
Definition lk_count (i : string) (op : LkOp) (ok : bool) (n : Z) : Z :=
  match op with
  | Lk_Check _ => n
  | Lk_Failure j => if decide (i = j) then n + 1 else n
  | Lk_Success j | Lk_Unlock j => if decide (i = j ∧ ok = true) then 0 else n
  end.

Definition lk_step self (i : string) (st : LkWorld R * Z) (op : LkOp) : LkWorld R * Z :=
  let '(r, w) := lk_run self op st.1 in (w, lk_count i op (is_ok r) st.2).

Lemma keys_of_notin self i j :
  i ≠ j → (attempts_key self i ∉ keys_of self j) ∧ (locked_key self i ∉ keys_of self j).
Proof. intros Hij. split; apply (keys_of_disjoint self i j); set_solver. Qed.

Lemma lk_step_few self i w n op :
  lc_enabled (ll_config self) = true → 0 ≤ n → few self i n w →
  0 ≤ (lk_step self i (w, n) op).2 ∧
  few self i (lk_step self i (w, n) op).2 (lk_step self i (w, n) op).1.
Proof.
  intros He Hn Hf. unfold lk_step. cbn [fst snd].
  assert (∀ j, i ≠ j → ∀ A (m : M (LkWorld R) Error A), frame (keys_of self j) m →
    few self i n (m w).2) as Hother.
  { intros j Hij A m Hm. destruct (keys_of_notin self i j Hij). by apply (hoare_frame _ self i n m Hm). }
  destruct op as [j|j|j|j]; cbn [lk_run lk_count].
  - pose proof (hoare_frame [] self i n _ (frame_check self j) ltac:(set_solver) ltac:(set_solver) w Hf).
    unfold lk_discard. by destruct (check self j w).
  - unfold lk_discard. case_decide as Hij.
    + subst j. pose proof (hoare_record_failure self i n Hn w Hf).
      destruct (record_failure self i w). cbn in *. split; [lia|done].
    + pose proof (Hother j Hij _ _ (frame_record_failure self j)).
      by destruct (record_failure self j w).
  - destruct (decide (i = j)) as [->|Hij].
    + pose proof (hoare_record_success self j n He w Hf). destruct (record_success self j w) as [r w'].
      cbn in *. destruct (is_ok r); [rewrite decide_True by done|rewrite decide_False by naive_solver];
        auto with lia.
    + pose proof (Hother j Hij _ _ (frame_record_success self j)).
      destruct (record_success self j w). rewrite decide_False by naive_solver. done.
  - destruct (decide (i = j)) as [->|Hij].
    + pose proof (hoare_unlock self j n w Hf). destruct (unlock self j w) as [r w'].
      cbn in *. destruct (is_ok r); [rewrite decide_True by done|rewrite decide_False by naive_solver];
        auto with lia.
    + pose proof (Hother j Hij _ _ (frame_unlock self j)).
      destruct (unlock self j w). rewrite decide_False by naive_solver. done.
Qed.

(** [check] says "locked" only if the lock key is there. *)
Lemma check_locked_inv self i w st w' :
  check self i w = (Ok st, w') → ls_locked st = true →
  lc_enabled (ll_config self) = true ∧ is_Some (see w (locked_key self i)).
Proof.
  unfold check. destruct (lc_enabled (ll_config self)); cbn [negb]; [|by intros [= <- _]].
  intros Hc Hl. split; [done|].
  apply bind_Ok in Hc as ([] & w1 & Hw1 & Hc). unfold get_connection in Hw1.
  destruct (rd_connect (lk_redis w)) as [rc s1] eqn:Ec. injection Hw1 as _ <-.
  apply bind_Ok in Hc as (ttl & w2 & Ht & Hc). unfold or_default, cmd in Ht. cbn in Ht.
  destruct (rd_ttl _ _ _) as [rt s2] eqn:Et. injection Ht as Ht _.
  apply rd_ttl_law in Et as [_ Et]. rewrite (rd_connect_law _ _ _ _ _ Ec) in Et.
  destruct (Z.ltb_spec 0 ttl); [|apply bind_Ok in Hc as (? & ? & _ & [= <- _]); done].
  destruct rt as [n|]; cbn in Ht; [|lia]. specialize (Et n eq_refl). subst n.
  unfold see. destruct (rd_lookup _ _ _) as [[v d]|]; [by eexists|lia].
Qed.

(** C6: No identity is locked early: whatever calls were made for whatever
    identities, in whatever order and with whatever Redis errors, [check]
    reports an identity as locked only if at least [max_attempts] failures
    were recorded for it since it was last cleared by a successful login or
    an administrator. *)
Theorem lockout_never_early self i ops w w' n st w'' :
  see w (attempts_key self i) = None → see w (locked_key self i) = None →
  fold_left (lk_step self i) ops (w, 0) = (w', n) →
  check self i w' = (Ok st, w'') → ls_locked st = true →
  lc_max_attempts (ll_config self) ≤ n.
Proof.
  intros Ha Hl Hops Hc Hst. destruct (check_locked_inv _ _ _ _ _ Hc Hst) as [He Hlk].
  assert (∀ ops w n, 0 ≤ n → few self i n w →
    let st := fold_left (lk_step self i) ops (w, n) in few self i (snd st) (fst st)) as Hf.
  { clear - He lk_clock_mono. induction ops as [|op ops IH]; intros w n Hn Hf; [done|]. cbn.
    destruct (lk_step_few self i w n op He Hn Hf). destruct (lk_step self i (w, n) op). by apply IH. }
  specialize (Hf ops w 0 ltac:(lia)). rewrite Hops in Hf. apply Hf; [|done].
  split; [by rewrite Ha|]. rewrite Hl. by intros [].
Qed.

(** Identities do not interfere: a call for one identity leaves the
    counter and the lock of every other identity as they were, except that
    time passes. *)
Theorem lockout_isolation self op i j w k :
  op ∈ [Lk_Check i; Lk_Failure i; Lk_Success i; Lk_Unlock i] → i ≠ j → k ∈ keys_of self j →
  see (lk_run self op w).2 k = visible (now_of (lk_run self op w).2) (see w k).
Proof.
  intros Hop Hij Hk. assert (frame (keys_of self i) (lk_run self op)) as Hf.
  { assert (∀ A (m : M (LkWorld R) Error A), frame (keys_of self i) m →
      frame (keys_of self i) (lk_discard m)) as Hd.
    { intros A m Hm w0. specialize (Hm w0). unfold lk_discard. by destruct (m w0). }
    assert (frame (keys_of self i) (check self i)).
    { intros w0. destruct (frame_check self i w0) as [Ht Hs]. split; [done|]. intros k0 _.
      apply Hs. set_solver. }
    rewrite !elem_of_cons in Hop.
    destruct Hop as [->|[->|[->|[->|?%elem_of_nil]]]]; cbn [lk_run];
      auto using frame_record_failure, frame_record_success, frame_unlock; done. }
  apply Hf. by eapply keys_of_disjoint.
Qed.

(** ** Locked in time *)

(** [S n] failed logins in a row; the status the last one returned. *)
Fixpoint failures self (i : string) (n : nat) : M (LkWorld R) Error LockoutStatus :=
  match n with
  | O => record_failure self i
  | S n => bind (failures self i n) (fun _ => record_failure self i)
  end.

Section Locks.
Context (self : LoginLockout) (i : string).
Let config := ll_config self.
Context (Henabled : lc_enabled config = true).
Context (Hwindow : 0 < lc_window_secs config < 2 ^ 63).
Context (Hduration : 0 < lc_lockout_duration_secs config < 2 ^ 63).

Lemma as_signed_positive x : 0 < x < 2 ^ 63 → as_signed 64 x = x.
Proof.
  intros Hx. unfold as_signed. rewrite Z.mod_small by lia.
  by destruct (Z.ltb_spec x (2 ^ (64 - 1))); [|lia].
Qed.

(** [c] failures are on record, the first of them not before [start]. *)
Definition counted (start c : Z) w : Prop :=
  if decide (c = 0) then see w (attempts_key self i) = None
  else ∃ d, start + 1000 * lc_window_secs config ≤ d ∧ see w (attempts_key self i) = Some (c, Some d).

Lemma visible_before t v d : t < d → visible t (Some (v, Some d)) = Some (v, Some d).
Proof. intros Ht. cbn. by apply Z.ltb_lt in Ht as ->. Qed.

Lemma cmd_Ok {A} (op : Z → R → result A string * R) w a w' :
  cmd op w = (Ok a, w') →
  ∃ s, op (now_of w) (lk_redis w) = (Ok a, s) ∧ w' = mkLkWorld s (S (lk_tick w)) (lk_spawned w).
Proof.
  unfold cmd, now_of. destruct (op _ _) as [r s]. intros [= Hr <-]. destruct r; [|done].
  cbn in Hr. injection Hr as ->. eauto.
Qed.

Lemma touches_counted ks start c w w' :
  touches ks w w' → attempts_key self i ∉ ks → 0 < c →
  now_of w' < start + 1000 * lc_window_secs config → counted start c w → counted start c w'.
Proof.
  intros [_ Ht] Hk Hc Hnow. unfold counted. rewrite !decide_False by lia. intros (d & Hd & E).
  exists d. split; [done|]. rewrite Ht, E by done. apply visible_before. lia.
Qed.

(** The counter after [INCR] and, the first time, [EXPIRE]. *)
Lemma incr_counted start c w reply w1 u w2 :
  0 ≤ c → start ≤ now_of w → counted start c w →
  cmd (fun now => rd_incr now (attempts_key self i)) w = (Ok reply, w1) →
  (if reply =? 1 then cmd (fun now => rd_expire now (attempts_key self i)
                                         (as_signed 64 (lc_window_secs config)))
   else ret tt) w1 = (Ok u, w2) →
  now_of w2 < start + 1000 * lc_window_secs config →
  reply = c + 1 ∧ counted start (c + 1) w2.
Proof.
  intros Hc0 Hst Hcnt Hi He Hnow. apply cmd_Ok in Hi as (s & Ei & ->).
  destruct (rd_incr_law _ _ _ _ _ Ei) as (dn & Hs & Hr). destruct (Hr reply eq_refl) as [-> Hrep].
  clear Hr. specialize (Hs (attempts_key self i)). rewrite decide_True in Hs by done.
  change (rd_lookup (now_of w) ?k (lk_redis w)) with (see w k) in Hs, Hrep.
  unfold counted in *. rewrite decide_False by lia.
  assert (now_of w ≤ lk_clock (S (lk_tick w))) as Hlt by (apply lk_clock_mono; lia).
  destruct (decide (c = 0)) as [->|Hcz].
  - rewrite Hcnt in Hs, Hrep. cbn in Hs, Hrep. injection Hrep as ->. split; [done|].
    cbn in He. apply cmd_Ok in He as (s2 & Ee & ->).
    destruct (rd_expire_law _ _ _ _ _ _ Ee) as (dn & Hs2 & Hd). specialize (Hd eq_refl). subst dn.
    specialize (Hs2 (attempts_key self i)). rewrite decide_True in Hs2 by done.
    change (rd_lookup (now_of ?w) ?k (lk_redis ?w)) with (see w k) in Hs2. rewrite see_cmd, Hs in Hs2.
    cbn in Hs2. rewrite as_signed_positive in Hs2 by done.
    destruct (Z.leb_spec (lc_window_secs config) 0); [lia|].
    eexists. split; [|rewrite see_cmd, Hs2; apply visible_before].
    + unfold now_of. cbn. lia.
    + unfold now_of in *. cbn in *. lia.
  - destruct Hcnt as (d & Hd & Ec). rewrite Ec in Hs, Hrep. cbn in Hs, Hrep. injection Hrep as ->.
    split; [done|]. destruct (Z.eqb_spec (c + 1) 1); [lia|]. injection He as _ <-.
    exists d. split; [done|]. rewrite see_cmd, Hs. apply visible_before. unfold now_of in *. cbn in *. lia.
Qed.

(** The last part of [record_failure]. *)
Lemma lock_if_reached count w st w' :
  (if lc_max_attempts config <=? count then
     bind (cmd (fun now => rd_set_ex now (locked_key self i) (now / 1000)
                             (as_signed 64 (lc_lockout_duration_secs config)))) (fun _ =>
     bind (lk_notify self (LE_AccountLocked i count (lc_lockout_duration_secs config))) (fun _ =>
     ret (mkLockoutStatus true count (lc_max_attempts config) (lc_lockout_duration_secs config) 0)))
   else ret (mkLockoutStatus false count (lc_max_attempts config) 0 (compute_delay self count))) w
  = (Ok st, w') →
  touches [locked_key self i] w w' ∧ ls_attempt_count st = count ∧
  ls_locked st = (lc_max_attempts config <=? count) ∧
  (ls_locked st = true → ∃ v, see w' (locked_key self i) =
     visible (now_of w') (Some (v, Some (now_of w + 1000 * lc_lockout_duration_secs config)))).
Proof.
  destruct (lc_max_attempts config <=? count).
  - intros Hrun. apply bind_Ok in Hrun as ([] & w1 & Hset & [= <- <-]).
    pose proof (frame_set_ex [locked_key self i] (locked_key self i) (fun now => now / 1000)
      (as_signed 64 (lc_lockout_duration_secs config)) ltac:(set_solver) w) as Ht.
    cbn beta in Ht. rewrite Hset in Ht. split; [exact Ht|]. split; [done|]. split; [done|]. intros _.
    apply cmd_Ok in Hset as (s & Es & ->).
    destruct (rd_set_ex_law _ _ _ _ _ _ _ Es) as (dn & Hs & Hd & _). specialize (Hd eq_refl). subst dn.
    specialize (Hs (locked_key self i)). rewrite decide_True, as_signed_positive in Hs by done.
    eexists. etransitivity; [apply (see_cmd w)|]. rewrite Hs. reflexivity.
  - intros [= <- <-]. split; [apply touches_refl|]. done.
Qed.

(** The commands of a [record_failure] that succeeds. *)
Lemma record_failure_Ok w st w' :
  record_failure self i w = (Ok st, w') →
  ∃ w0 w1 w2 w4 reply u,
    lk_tick w0 = lk_tick w ∧ touches [] w w0 ∧
    cmd (fun now => rd_incr now (attempts_key self i)) w0 = (Ok reply, w1) ∧
    (if reply =? 1 then cmd (fun now => rd_expire now (attempts_key self i)
                                           (as_signed 64 (lc_window_secs config)))
     else ret tt) w1 = (Ok u, w2) ∧
    touches [] w2 w4 ∧ touches [locked_key self i] w4 w' ∧
    ls_attempt_count st = reply ∧ ls_locked st = (lc_max_attempts config <=? reply) ∧
    (ls_locked st = true → ∃ v, see w' (locked_key self i) =
       visible (now_of w') (Some (v, Some (now_of w4 + 1000 * lc_lockout_duration_secs config)))).
Proof.
  intros Hrf. unfold record_failure in Hrf. fold config in Hrf. rewrite Henabled in Hrf.
  cbn [negb] in Hrf. apply bind_Ok in Hrf as ([] & w0 & X0 & Hrf).
  apply bind_Ok in Hrf as (reply & w1 & X1 & Hrf).
  apply bind_Ok in Hrf as (count & w1' & X1' & Hrf).
  unfold lift, reply_u32 in X1'. injection X1' as X1' <-. case_decide; [|done]. injection X1' as ->.
  apply bind_Ok in Hrf as (u & w2 & X2 & Hrf).
  apply bind_Ok in Hrf as (u3 & w3 & X3 & Hrf).
  apply bind_Ok in Hrf as (u4 & w4 & X4 & Hrf).
  apply lock_if_reached in Hrf as (T4 & Ec & El & Hl).
  exists w0, w1, w2, w4, count, u.
  split. { unfold get_connection in X0. destruct (rd_connect _). by injection X0 as _ <-. }
  split. { pose proof (frame_connect [] w) as Hx. by rewrite X0 in Hx. }
  repeat (split; [done|]). split; [|auto].
  pose proof (frame_notify [] self (LE_FailedAttempt i count (lc_max_attempts config)) w2) as T3.
  rewrite X3 in T3. eapply touches_trans; [exact T3|]. cbn [snd].
  destruct (_ && _); [|injection X4 as _ <-; apply touches_refl].
  match type of X4 with lk_notify _ ?e _ = _ => pose proof (frame_notify [] self e w3) as T5 end.
  by rewrite X4 in T5.
Qed.

Lemma touches_now ks w w' : touches ks w w' → now_of w ≤ now_of w'.
Proof. intros [Ht _]. by apply lk_clock_mono. Qed.

Lemma cmd_now {A} (op : Z → R → result A string * R) w : now_of w ≤ now_of (cmd op w).2.
Proof. unfold cmd, now_of. destruct (op _ _). cbn. apply lk_clock_mono. lia. Qed.

(** What one more failure does. *)
Lemma record_failure_counted start c w st w' :
  0 ≤ c → start ≤ now_of w → counted start c w → record_failure self i w = (Ok st, w') →
  now_of w' < start + 1000 * lc_window_secs config →
  counted start (c + 1) w' ∧
  ls_attempt_count st = c + 1 ∧ ls_locked st = (lc_max_attempts config <=? c + 1) ∧
  (ls_locked st = true → ∃ v d, now_of w + 1000 * lc_lockout_duration_secs config ≤ d ∧
     see w' (locked_key self i) = visible (now_of w') (Some (v, Some d))).
Proof.
  intros Hc Hst Hcnt Hrf Hnow.
  apply record_failure_Ok in Hrf as (w0 & w1 & w2 & w4 & reply & u & Etick & T0 & X1 & X2 & T24 & T4 & Ec & El & Hl).
  assert (now_of w0 = now_of w) as En by (unfold now_of; by rewrite Etick).
  assert (counted start c w0) as Hc0.
  { destruct T0 as [_ T0]. specialize (T0 (attempts_key self i) ltac:(set_solver)).
    rewrite En, <-see_visible in T0. unfold counted. by rewrite T0. }
  pose proof (touches_now _ _ _ T24). pose proof (touches_now _ _ _ T4).
  pose proof (cmd_now (fun now => rd_incr now (attempts_key self i)) w0) as N1. rewrite X1 in N1.
  assert (now_of w1 ≤ now_of w2) as N2.
  { destruct (reply =? 1); [|by injection X2 as _ <-].
    pose proof (cmd_now (fun now => rd_expire now (attempts_key self i)
      (as_signed 64 (lc_window_secs config))) w1) as N2. by rewrite X2 in N2. }
  destruct (incr_counted start c w0 reply w1 u w2) as [-> Hc2]; [lia..|done|done|done|lia|].
  split.
  { apply (touches_counted [locked_key self i] start (c + 1) w4); [done| |lia|done|].
    - pose proof (keys_distinct self i i). set_solver.
    - apply (touches_counted [] start (c + 1) w2); [done|set_solver|lia|lia|done]. }
  split; [done|]. split; [done|]. intros Hlk. destruct (Hl Hlk) as [v Hv].
  eexists v, _. split; [|exact Hv]. cbn in *. lia.
Qed.

Lemma failures_now n w : now_of w ≤ now_of (failures self i n w).2.
Proof.
  revert w. induction n as [|n IH]; intros w; cbn [failures].
  { apply (touches_now _ _ _ (frame_record_failure self i w)). }
  specialize (IH w). unfold bind. destruct (failures self i n w) as [[st|e] w1]; cbn in *; [|done].
  pose proof (touches_now _ _ _ (frame_record_failure self i w1)). cbn in *. lia.
Qed.

(** The world in which the last of [n + 1] failures begins. *)
Definition last_start (n : nat) (w : LkWorld R) : LkWorld R :=
  match n with O => w | S n => (failures self i n w).2 end.

Lemma failures_counted n w st w' :
  see w (attempts_key self i) = None → failures self i n w = (Ok st, w') →
  now_of w' < now_of w + 1000 * lc_window_secs config →
  counted (now_of w) (Z.of_nat n + 1) w' ∧
  ls_attempt_count st = Z.of_nat n + 1 ∧
  ls_locked st = (lc_max_attempts config <=? Z.of_nat n + 1) ∧
  (ls_locked st = true → ∃ v d, now_of (last_start n w) + 1000 * lc_lockout_duration_secs config ≤ d ∧
     see w' (locked_key self i) = visible (now_of w') (Some (v, Some d))).
Proof.
  intros Hsee. revert st w'. induction n as [|n IH]; intros st w' Hf Hnow; cbn [failures] in Hf.
  { by apply (record_failure_counted (now_of w) 0 w) in Hf. }
  apply bind_Ok in Hf as (st1 & w1 & Hf & Hr).
  pose proof (failures_now n w) as N1. rewrite Hf in N1. cbn in N1.
  pose proof (touches_now _ _ _ (frame_record_failure self i w1)) as N2. rewrite Hr in N2. cbn in N2.
  destruct (IH st1 w1 Hf ltac:(lia)) as (Hc & _).
  destruct (record_failure_counted (now_of w) (Z.of_nat n + 1) w1 st w') as (Hc' & Ea & El & Hl);
    [lia|done|done|done|done|].
  replace (Z.of_nat (S n) + 1) with (Z.of_nat n + 1 + 1) by lia.
  split; [done|]. split; [done|]. split; [done|]. intros Hlk. destruct (Hl Hlk) as (v & d & Hd & Es).
  exists v, d. split; [cbn [last_start]; rewrite Hf; cbn; lia|done].
Qed.

(** A lock with at least a second left is reported, unless the [TTL] query
    itself fails. *)
Lemma check_reports_lock w v d st w' :
  see w (locked_key self i) = Some (v, Some d) → now_of w + 1000 ≤ d →
  check self i w = (Ok st, w') →
  ls_locked st = true ∨
  ∃ s e s', rd_connect (lk_redis w) = (Ok tt, s) ∧
            rd_ttl (now_of w) (locked_key self i) s = (Err e, s').
Proof.
  intros Hs Hd Hc. unfold check in Hc. fold config in Hc. rewrite Henabled in Hc. cbn [negb] in Hc.
  apply bind_Ok in Hc as ([] & w1 & X1 & Hc). unfold get_connection in X1.
  destruct (rd_connect (lk_redis w)) as [rc s1] eqn:Ec. injection X1 as Hrc <-.
  destruct rc as [[]|]; [|done]. clear Hrc.
  apply bind_Ok in Hc as (ttl & w2 & Ht & Hc). unfold or_default, cmd in Ht. cbn in Ht.
  fold (now_of w) in Ht. destruct (rd_ttl (now_of w) _ s1) as [rt s2] eqn:Et. injection Ht as Ht _.
  destruct rt as [n|e]; [left|right; eauto 6].
  apply rd_ttl_law in Et as [_ Et]. specialize (Et n eq_refl).
  rewrite (rd_connect_law _ _ _ _ _ Ec) in Et.
  change (rd_lookup (now_of w) ?k (lk_redis w)) with (see w k) in Et. rewrite Hs in Et.
  cbn in Ht. subst n. destruct (Z.ltb_spec 0 ttl); [|lia].
  by apply bind_Ok in Hc as (? & ? & _ & [= <- _]).
Qed.

(** C5: Brute force is stopped in time: failures of one identity that all fall
    into one window, starting without a record and each recorded without an
    error, are counted exactly; the call that reaches [max_attempts] says
    "locked", and from then on, while nobody touches the lock, [check] says
    "locked" for [lockout_duration_secs] counted from the beginning of that last
    call, less one second ([TTL] is in whole seconds), unless its [TTL] query
    fails, which [check] takes for no lock. *)
Theorem lockout_after_max_failures n w st w' w2 st2 w3 :
  see w (attempts_key self i) = None → failures self i n w = (Ok st, w') →
  now_of w' < now_of w + 1000 * lc_window_secs config →
  ls_attempt_count st = Z.of_nat n + 1 ∧
  ls_locked st = (lc_max_attempts config <=? Z.of_nat n + 1) ∧
  (lc_max_attempts config ≤ Z.of_nat n + 1 →
   touches [] w' w2 → now_of w2 + 1000 ≤ now_of (last_start n w) + 1000 * lc_lockout_duration_secs config →
   check self i w2 = (Ok st2, w3) →
   ls_locked st2 = true ∨
   ∃ s e s', rd_connect (lk_redis w2) = (Ok tt, s) ∧
             rd_ttl (now_of w2) (locked_key self i) s = (Err e, s')).
Proof.
  intros Hsee Hf Hnow. destruct (failures_counted n w st w' Hsee Hf Hnow) as (_ & Ea & El & Hl).
  split; [done|]. split; [done|]. intros Hmax [Htick Ht] Hleft Hc.
  rewrite El in Hl. destruct Hl as (v & d & Hd & Hs); [by apply Z.leb_le|].
  apply (check_reports_lock w2 v d st2 w3); [|lia|done].
  rewrite Ht, Hs by set_solver. rewrite visible_later by by apply lk_clock_mono.
  apply visible_before. lia.
Qed.
End Locks.

(** A login clears the slate: after [record_success] or [unlock] returned
    [Ok], neither counter nor lock of the identity is left, so a [check]
    reports it as not locked. *)
Theorem lockout_cleared self i w w' op :
  lc_enabled (ll_config self) = true → op ∈ [Lk_Success i; Lk_Unlock i] →
  0 < lc_max_attempts (ll_config self) → lk_run self op w = (Ok tt, w') →
  see w' (locked_key self i) = None ∧
  ∀ st w'', check self i w' = (Ok st, w'') → ls_locked st = false.
Proof.
  intros He Hop Hmax Hrun.
  assert (∃ n, 0 ≤ n ∧ few self i n w) as (n & Hn & Hf).
  { exists (Z.max (lc_max_attempts (ll_config self))
              (from_option fst 0 (see w (attempts_key self i)))).
    split; [lia|]. split; [|lia]. intros v d ->. cbn. lia. }
  assert (few self i 0 w') as [_ Hl].
  { apply elem_of_cons in Hop as [->|[->|?%elem_of_nil]%elem_of_cons]; [..|done]; cbn in Hrun.
    - pose proof (hoare_record_success self i n He w Hf) as Hx. by rewrite Hrun in Hx.
    - pose proof (hoare_unlock self i n w Hf) as Hx. by rewrite Hrun in Hx. }
  assert (¬ is_Some (see w' (locked_key self i))) as Hnone by (intros Hs; apply Hl in Hs; lia).
  split; [by apply eq_None_not_Some|]. intros st w'' Hc.
  destruct (ls_locked st) eqn:E; [|done]. by destruct (check_locked_inv _ _ _ _ _ Hc E).
Qed.

(** A locked identity does not get through: the middleware answers 423
    with the remaining time, and the rest of the stack is not consulted,
    whatever it is. *)
Theorem middleware_blocks_locked from_slice mw request body identity w st w' next :
  match rq_content_type request with
  | Some ct => contains ct "application/json" = true | None => False
  end →
  rq_body request = Ok body → extract_identity from_slice (mw_identity_field mw) body = Some identity →
  check (mw_lockout mw) identity w = (Ok st, w') → ls_locked st = true →
  ∃ msg, middleware from_slice mw next request w =
    (Ok (mkLkResponse 423 (Some (pretty (ls_lockout_remaining_secs st)))
           (Some (mkErrorResponse msg (Some "ACCOUNT_LOCKED") 423)), 0), w').
Proof.
  intros Hct Hbody Hid Hc Hl. unfold middleware. destruct (rq_content_type request) as [ct|]; [|done].
  rewrite Hct, Hbody. cbn [negb map_err]. unfold bind, lift. rewrite Hid, Hc, Hl. by eexists.
Qed.

(** The progressive delay never exceeds its cap. *)
Lemma compute_delay_bound self n :
  0 ≤ lc_max_delay_ms (ll_config self) → 0 ≤ compute_delay self n ≤ lc_max_delay_ms (ll_config self).
Proof.
  intros Hm. unfold compute_delay. destruct (_ || _); [lia|].
  assert (∀ x, 0 ≤ f64_as_u64 x) as Hp.
  { intros [s|[]| |[] m e]; cbn; try lia. apply Z.min_glb; [lia|].
    destruct (Z.leb_spec 0 e); [apply Z.mul_nonneg_nonneg; [lia|by apply Z.pow_nonneg]|].
    apply Z.div_pos; [lia|]. apply Z.pow_pos_nonneg; lia. }
  destruct (f64_is_finite _); [|lia].
  match goal with |- context [f64_as_u64 ?x] => specialize (Hp x) end. lia.
Qed.
End Frame.

(** ** Witnesses *)

(** A millisecond per command; [powf] on small non-negative integers, by
    repeated multiplication. *)
Fixpoint f64_pow (x : f64) (n : nat) : f64 :=
  match n with O => f64_of_Z 1 | S n => f64_mul x (f64_pow x n) end.

#[local] Instance witness_lockout_env : LockoutEnv := {|
  lk_clock n := Z.of_nat n;
  powf x y := f64_pow x (Z.to_nat (f64_as_u64 y));
  contains_whitespace s := contains s " ";
  redis_error what detail := what +:+ ": " +:+ detail;
|}.

Lemma witness_clock_mono i j : (i ≤ j)%nat → lk_clock i ≤ lk_clock j.
Proof. cbn. lia. Qed.

Definition witness_lockout : LoginLockout := mkLoginLockout LockoutConfig_default [0%nat].
Definition witness_redis : LkWorld RedisStore := mkLkWorld (mkRedisStore ∅ []) 0 [].

(** The default delays: 1, 2, 4, 8, 16 seconds, then the cap. *)
Example default_delays :
  map (compute_delay witness_lockout) [0; 1; 2; 3; 4; 5; 6; 1000000] =
  [0; 1000; 2000; 4000; 8000; 16000; 30000; 30000].
Proof. vm_compute. reflexivity. Qed.

Definition witness_ops : list LkOp :=
  [Lk_Failure "eve"; Lk_Failure "eve"; Lk_Failure "bob"; Lk_Failure "eve"; Lk_Failure "eve";
   Lk_Failure "eve"].

Lemma lockout_never_early_witness :
  let '(w, n) := fold_left (lk_step witness_lockout "eve") witness_ops (witness_redis, 0) in
  ∃ st w', check witness_lockout "eve" w = (Ok st, w') ∧ ls_locked st = true ∧ 5 ≤ n.
Proof.
  destruct (fold_left _ witness_ops (witness_redis, 0)) as [w n] eqn:E.
  assert (w = (fold_left (lk_step witness_lockout "eve") witness_ops (witness_redis, 0)).1) as Ew
    by by rewrite E.
  destruct (check witness_lockout "eve" w) as [[st|] w'] eqn:Ec;
    [|rewrite Ew in Ec; vm_compute in Ec; discriminate].
  assert (ls_locked st = true) as Hl.
  { rewrite Ew in Ec. vm_compute in Ec. by injection Ec as <- _. }
  exists st, w'. split; [done|]. split; [done|].
  apply (lockout_never_early witness_clock_mono witness_lockout "eve" witness_ops witness_redis w n st w');
    [reflexivity|reflexivity|exact E|exact Ec|exact Hl].
Defined.

Lemma lockout_isolation_witness :
  let w := (lk_run witness_lockout (Lk_Failure "bob") witness_redis).2 in
  let w' := (lk_run witness_lockout (Lk_Success "eve") w).2 in
  see w' "lockout:attempts:bob" = visible (now_of w') (see w "lockout:attempts:bob") ∧
  see w' "lockout:attempts:bob" = Some (1, Some 900001).
Proof.
  split; [|vm_compute; reflexivity].
  apply (lockout_isolation witness_clock_mono witness_lockout (Lk_Success "eve") "eve" "bob");
    [set_solver|done|left].
Defined.

Definition witness_failed : result LockoutStatus Error * LkWorld RedisStore :=
  failures witness_lockout "eve" 4 witness_redis.

Lemma lockout_after_max_failures_witness :
  ∃ st w' st2 w3, witness_failed = (Ok st, w') ∧ ls_locked st = true ∧
    check witness_lockout "eve" w' = (Ok st2, w3) ∧
    (ls_locked st2 = true ∨
     ∃ s e s', rd_connect (lk_redis w') = (Ok tt, s) ∧
               rd_ttl (now_of w') (locked_key witness_lockout "eve") s = (Err e, s')).
Proof.
  destruct witness_failed as [[st|] w'] eqn:E; [|vm_compute in E; discriminate].
  assert (w' = witness_failed.2) as Ew by by rewrite E.
  destruct (check witness_lockout "eve" w') as [[st2|] w3] eqn:Ec;
    [|rewrite Ew in Ec; vm_compute in Ec; discriminate].
  assert (now_of w' = 7) as En by (rewrite Ew; vm_compute; reflexivity).
  destruct (lockout_after_max_failures witness_clock_mono witness_lockout "eve" eq_refl
    ltac:(vm_compute; by split) ltac:(vm_compute; by split) 4 witness_redis st w' w' st2 w3)
    as (_ & El & Hl); [reflexivity|exact E|rewrite En; vm_compute; reflexivity|].
  exists st, w', st2, w3. split; [done|]. split; [by rewrite El|]. split; [done|].
  apply Hl; [vm_compute; discriminate|apply touches_refl|rewrite En; vm_compute; discriminate|done].
Defined.

Lemma lockout_cleared_witness :
  let w' := (lk_run witness_lockout (Lk_Success "eve") witness_failed.2).2 in
  see w' (locked_key witness_lockout "eve") = None ∧
  ∀ st w'', check witness_lockout "eve" w' = (Ok st, w'') → ls_locked st = false.
Proof.
  apply (lockout_cleared witness_clock_mono witness_lockout "eve" witness_failed.2 _ (Lk_Success "eve"));
    [reflexivity|left|reflexivity|vm_compute; reflexivity].
Defined.

(** A parser that knows one request body. *)
Definition witness_from_slice (s : string) : option json :=
  if String.eqb s "{'email':'eve'}" then Some (JObject [("email", JString "eve")]) else None.

Lemma middleware_blocks_locked_witness :
  ∃ msg w', middleware witness_from_slice (mkLockoutMiddleware witness_lockout "email")
    (fun _ => fail Error_RateLimitExceeded)
    (mkLkRequest (Some "application/json") (Ok "{'email':'eve'}")) witness_failed.2 =
    (Ok (mkLkResponse 423 (Some "1800") (Some (mkErrorResponse msg (Some "ACCOUNT_LOCKED") 423)), 0), w').
Proof.
  destruct (check witness_lockout "eve" witness_failed.2) as [[st|] w'] eqn:Ec;
    [|vm_compute in Ec; discriminate].
  assert (ls_locked st = true ∧ ls_lockout_remaining_secs st = 1800) as [Hl Hr].
  { vm_compute in Ec. injection Ec as <- _. by split. }
  destruct (middleware_blocks_locked witness_from_slice (mkLockoutMiddleware witness_lockout "email")
    (mkLkRequest (Some "application/json") (Ok "{'email':'eve'}")) "{'email':'eve'}" "eve"
    witness_failed.2 st w' (fun _ => fail Error_RateLimitExceeded)) as [msg Hm];
    [reflexivity|reflexivity|reflexivity|exact Ec|exact Hl|].
  rewrite Hr in Hm. exists msg, w'. exact Hm.
Defined.

(** ** A window that never ends *)

(** When the [EXPIRE] after the first failure does not get through, the
    caller sees an error, but the counter stays, without a deadline: a later
    call does not set one, so the failures of all time add up. *)
Theorem lost_expire_never_expires :
  let w0 := mkLkWorld (mkRedisStore ∅ [None; None; Some ("timeout", false)]) 0 [] in
  let '(r1, w1) := record_failure witness_lockout "eve" w0 in
  let '(r2, w2) := record_failure witness_lockout "eve" w1 in
  is_ok r1 = false ∧ is_ok r2 = true ∧
  ∀ t, rd_lookup t (attempts_key witness_lockout "eve") (lk_redis w2) = Some (2, None).
Proof. vm_compute. repeat split. Qed.
