(* ===== verification/KeyStorage.v ===== *)
(** * Signing keys and their storage

    [src/acton-service/src/auth/key_rotation/key_metadata.rs] and
    [key_rotation/storage/{mod,pg}.rs]: the key record and its lifecycle
    states, the [KeyRotationStorage] trait as a class with its contract over
    the list of stored keys, and the PostgreSQL backend with a proof that it
    meets the contract. As in the other backends, [kd_faults] says which SQL
    statements fail; a failed statement changes nothing. *)

From S2P Require Import Prelude FrameworkError AuditEvent AuditStorage.

Local Open Scope string_scope.
Local Open Scope Z_scope.
Local Open Scope list_scope.

(** ** Formats and states *)

Inductive KeyFormat := PasetoV4Local | PasetoV4Public | JwtRs256 | JwtEs256.

Definition format_to_string (f : KeyFormat) : string :=
  match f with
  | PasetoV4Local => "paseto_v4_local"
  | PasetoV4Public => "paseto_v4_public"
  | JwtRs256 => "jwt_rs256"
  | JwtEs256 => "jwt_es256"
  end.

(** [FromStr]; the error carries the [Display] text of [ParseKeyFormatError]. *)
Definition format_from_str (s : string) : result KeyFormat string :=
  if String.eqb s "paseto_v4_local" then Ok PasetoV4Local
  else if String.eqb s "paseto_v4_public" then Ok PasetoV4Public
  else if String.eqb s "jwt_rs256" then Ok JwtRs256
  else if String.eqb s "jwt_es256" then Ok JwtEs256
  else Err ("invalid key format '" +:+ s +:+ "': expected one of " +:+
            "paseto_v4_local, paseto_v4_public, jwt_rs256, jwt_es256").

Inductive KeyStatus := KeyActive | KeyDraining | KeyRetired.

#[global] Instance KeyStatus_eq_dec : EqDecision KeyStatus.
Proof. solve_decision. Defined.

Definition key_status_to_string (s : KeyStatus) : string :=
  match s with KeyActive => "active" | KeyDraining => "draining" | KeyRetired => "retired" end.

Definition key_status_from_str (s : string) : result KeyStatus string :=
  if String.eqb s "active" then Ok KeyActive
  else if String.eqb s "draining" then Ok KeyDraining
  else if String.eqb s "retired" then Ok KeyRetired
  else Err ("invalid key status '" +:+ s +:+ "': expected one of active, draining, retired").

Lemma format_from_to_string f : format_from_str (format_to_string f) = Ok f.
Proof. by destruct f. Qed.

Lemma key_status_from_to_string s : key_status_from_str (key_status_to_string s) = Ok s.
Proof. by destruct s. Qed.

Lemma key_status_to_string_inj s s' : key_status_to_string s = key_status_to_string s' → s = s'.
Proof. by destruct s, s'. Qed.

#[export] Hint Rewrite format_from_to_string key_status_from_to_string : acton.

(** ** Keys *)

(** [SigningKeyMetadata], and the row type of the SQL backend, which has the
    same fields with format and status as text. *)
Record KeyOf (F St : Type) := mkKey {
  key_kid : string;
  key_format : F;
  key_material : string;
  key_status : St;
  key_created_at : Z;
  key_activated_at : option Z;
  key_draining_since : option Z;
  key_retired_at : option Z;
  key_drain_expires_at : option Z;
  key_service_name : string;
  key_hash : string;
}.
Arguments mkKey {F St}.
Arguments key_kid {F St}.
Arguments key_format {F St}.
Arguments key_material {F St}.
Arguments key_status {F St}.
Arguments key_created_at {F St}.
Arguments key_activated_at {F St}.
Arguments key_draining_since {F St}.
Arguments key_retired_at {F St}.
Arguments key_drain_expires_at {F St}.
Arguments key_service_name {F St}.
Arguments key_hash {F St}.

Abbreviation SigningKeyMetadata := (KeyOf KeyFormat KeyStatus).
Abbreviation SigningKeyRow := (KeyOf string string).

(** [status = st] with the time stamp that goes with it. *)
Definition set_key_status {F St} (st : St) (activated draining retired : option Z) (k : KeyOf F St)
    : KeyOf F St :=
  mkKey (key_kid k) (key_format k) (key_material k) st (key_created_at k) activated draining retired
    (key_drain_expires_at k) (key_service_name k) (key_hash k).

Definition activate {F St} (st : St) (t : Z) (k : KeyOf F St) : KeyOf F St :=
  set_key_status st (Some t) (key_draining_since k) (key_retired_at k) k.
Definition drain {F St} (st : St) (t : Z) (k : KeyOf F St) : KeyOf F St :=
  set_key_status st (key_activated_at k) (Some t) (key_retired_at k) k.
Definition retire {F St} (st : St) (t : Z) (k : KeyOf F St) : KeyOf F St :=
  set_key_status st (key_activated_at k) (key_draining_since k) (Some t) k.

(** ** The trait *)

Class KeyRotationStorage (S : Type) := {
  ks_initialize : S → result unit Error * S;
  ks_store_key : SigningKeyMetadata → S → result unit Error * S;
  ks_get_active_key : string → S → result (option SigningKeyMetadata) Error * S;
  ks_get_key_by_kid : string → S → result (option SigningKeyMetadata) Error * S;
  ks_get_verification_keys : string → S → result (list SigningKeyMetadata) Error * S;
  ks_update_key_status : string → KeyStatus → Z → S → result unit Error * S;
  ks_retire_expired_draining_keys : Z → S → result Z Error * S;
}.

(** ** The contract *)

Definition active_in (service : string) (k : SigningKeyMetadata) : Prop :=
  key_service_name k = service ∧ key_status k = KeyActive.
#[global] Instance active_in_dec service k : Decision (active_in service k).
Proof. unfold active_in. apply _. Defined.

(** Keys that verify tokens. *)
Definition verifies_in (service : string) (k : SigningKeyMetadata) : Prop :=
  key_service_name k = service ∧ (key_status k = KeyActive ∨ key_status k = KeyDraining).
#[global] Instance verifies_in_dec service k : Decision (verifies_in service k).
Proof. unfold verifies_in. apply _. Defined.

(** Draining keys whose window ended at or before [now]. *)
Definition drained_by (now : Z) (k : SigningKeyMetadata) : Prop :=
  key_status k = KeyDraining ∧ match key_drain_expires_at k with Some d => d ≤ now | None => False end.
#[global] Instance drained_by_dec now k : Decision (drained_by now k).
Proof. unfold drained_by. destruct (key_drain_expires_at k); apply _. Defined.

(** The change [update_key_status] makes to a key: a key is drained only from
    active and retired only from draining, but made active from any status, also
    from retired: that update has no guard, although [key_metadata.rs] documents
    the lifecycle as Active -> Draining -> Retired. *)
Definition transition (st : KeyStatus) (t : Z) (k : SigningKeyMetadata) : option SigningKeyMetadata :=
  match st, key_status k with
  | KeyActive, _ => Some (activate KeyActive t k)
  | KeyDraining, KeyActive => Some (drain KeyDraining t k)
  | KeyRetired, KeyDraining => Some (retire KeyRetired t k)
  | _, _ => None
  end.

Definition transition_where (kid : string) (st : KeyStatus) (t : Z) (l : list SigningKeyMetadata)
    : list SigningKeyMetadata :=
  map (fun k => if decide (key_kid k = kid) then default k (transition st t k) else k) l.

Class KeyRotationStorageLaws (S : Type) `{KeyRotationStorage S} := {
  kr_inv : S → Prop;
  kr_contents : S → list SigningKeyMetadata;
  (** What the backend keeps of a key and of a time. *)
  kr_stored : SigningKeyMetadata → SigningKeyMetadata;
  kr_time : Z → Z;
  kr_distinct s : kr_inv s → NoDup (key_kid <$> kr_contents s);
  kr_stored_same k :
    key_kid (kr_stored k) = key_kid k ∧ key_status (kr_stored k) = key_status k ∧
    key_service_name (kr_stored k) = key_service_name k ∧ key_format (kr_stored k) = key_format k ∧
    key_material (kr_stored k) = key_material k ∧ key_hash (kr_stored k) = key_hash k ∧
    key_activated_at (kr_stored k) = kr_time <$> key_activated_at k ∧
    key_drain_expires_at (kr_stored k) = kr_time <$> key_drain_expires_at k;
  kr_store_law k s r s' : kr_inv s → ks_store_key k s = (r, s') →
    kr_inv s' ∧ kr_contents s' = if is_ok r then kr_contents s ++ [kr_stored k] else kr_contents s;
  kr_active_law service s r s' : kr_inv s → ks_get_active_key service s = (r, s') →
    kr_inv s' ∧ kr_contents s' = kr_contents s ∧
    ∀ o, r = Ok o → o = head (filter (active_in service) (kr_contents s));
  kr_by_kid_law kid s r s' : kr_inv s → ks_get_key_by_kid kid s = (r, s') →
    kr_inv s' ∧ kr_contents s' = kr_contents s ∧
    ∀ o, r = Ok o → o = head (filter (fun k => key_kid k = kid) (kr_contents s));
  kr_verification_law service s r s' : kr_inv s → ks_get_verification_keys service s = (r, s') →
    kr_inv s' ∧ kr_contents s' = kr_contents s ∧
    ∀ l, r = Ok l → l ≡ₚ filter (verifies_in service) (kr_contents s) ∧
      Sorted (fun k k' => key_created_at k' ≤ key_created_at k) l;
  kr_update_law kid st t s r s' : kr_inv s → ks_update_key_status kid st t s = (r, s') →
    kr_inv s' ∧
    kr_contents s' = (if is_ok r then transition_where kid st (kr_time t) (kr_contents s)
                      else kr_contents s) ∧
    (is_ok r = true →
     ∃ k, k ∈ kr_contents s ∧ key_kid k = kid ∧ is_Some (transition st (kr_time t) k));
  kr_retire_law now s r s' : kr_inv s → ks_retire_expired_draining_keys now s = (r, s') →
    kr_inv s' ∧
    kr_contents s' = (if is_ok r
      then map (fun k => if decide (drained_by (kr_time now) k) then retire KeyRetired (kr_time now) k
                         else k) (kr_contents s)
      else kr_contents s) ∧
    ∀ n, r = Ok n → n = Z.of_nat (length (filter (drained_by (kr_time now)) (kr_contents s)));
}.

(** ** PostgreSQL *)

Record PgKeyDb := mkPgKeyDb {
  kd_rows : list SigningKeyRow;
  kd_faults : list (option string);
}.

Section Pg.
Context `{PgEnv}.

Definition key_to_row (k : SigningKeyMetadata) : SigningKeyRow :=
  let ts := pg_timestamptz in
  mkKey (key_kid k) (format_to_string (key_format k)) (key_material k)
    (key_status_to_string (key_status k)) (ts (key_created_at k)) (ts <$> key_activated_at k)
    (ts <$> key_draining_since k) (ts <$> key_retired_at k) (ts <$> key_drain_expires_at k)
    (key_service_name k) (key_hash k).

(** [TryFrom<SigningKeyRow> for SigningKeyMetadata]. *)
Definition row_to_key (row : SigningKeyRow) : result SigningKeyMetadata Error :=
  (let? format := map_err (fun e => Error_Internal ("Invalid key format in database: " +:+ e))
                    (format_from_str (key_format row)) in
   let? status := map_err (fun e => Error_Internal ("Invalid key status in database: " +:+ e))
                    (key_status_from_str (key_status row)) in
   Ok (mkKey (key_kid row) format (key_material row) status (key_created_at row)
         (key_activated_at row) (key_draining_since row) (key_retired_at row)
         (key_drain_expires_at row) (key_service_name row) (key_hash row)))%rust.

(** [rows.into_iter().map(TryInto::try_into).collect()]. *)
Fixpoint rows_to_keys (rows : list SigningKeyRow) : result (list SigningKeyMetadata) Error :=
  match rows with
  | [] => Ok []
  | row :: rows => (let? k := row_to_key row in let? ks := rows_to_keys rows in Ok (k :: ks))%rust
  end.

Definition kd_exec (db : PgKeyDb) : option string * PgKeyDb :=
  match kd_faults db with
  | [] => (None, db)
  | f :: fs => (f, mkPgKeyDb (kd_rows db) fs)
  end.

(** A statement: its reply and effect on the rows, or the text of its error. *)
Definition kd_query {A} (what : string)
    (stmt : list SigningKeyRow → result (A * list SigningKeyRow) string) (db : PgKeyDb)
    : result A Error * PgKeyDb :=
  let '(fault, db) := kd_exec db in
  match fault with
  | Some msg => (Err (Error_Internal (what +:+ msg)), db)
  | None =>
      match stmt (kd_rows db) with
      | Ok (a, rows) => (Ok a, mkPgKeyDb rows (kd_faults db))
      | Err msg => (Err (Error_Internal (what +:+ msg)), db)
      end
  end.

(** [CREATE TABLE IF NOT EXISTS] and two indexes. *)
Definition pg_initialize (db : PgKeyDb) : result unit Error * PgKeyDb :=
  let stmt what := kd_query what (fun rows => Ok (tt, rows)) in
  match stmt "Failed to create signing_keys table: " db with
  | (Ok _, db) =>
      match stmt "Failed to create signing_keys status index: " db with
      | (Ok _, db) => stmt "Failed to create signing_keys service index: " db
      | e => e
      end
  | e => e
  end.

Definition pg_store_key (k : SigningKeyMetadata) : PgKeyDb → result unit Error * PgKeyDb :=
  kd_query "Failed to store signing key: " (fun rows =>
    if bool_decide (key_kid k ∈ key_kid <$> rows) then Err pg_constraint_msg
    else Ok (tt, rows ++ [key_to_row k])).

(** A [SELECT] whose rows are converted afterwards. *)
Definition kd_select {A} (what : string) (query : list SigningKeyRow → list SigningKeyRow)
    (convert : list SigningKeyRow → result A Error) (db : PgKeyDb) : result A Error * PgKeyDb :=
  let '(r, db) := kd_query what (fun rows => Ok (query rows, rows)) db in
  (result_bind r convert, db).

(** [row.map(TryInto::try_into).transpose()]. *)
Definition optional_key (rows : list SigningKeyRow) : result (option SigningKeyMetadata) Error :=
  match rows with
  | [] => Ok None
  | row :: _ => (let? k := row_to_key row in Ok (Some k))%rust
  end.

Definition pg_get_active_key (service_name : string)
    : PgKeyDb → result (option SigningKeyMetadata) Error * PgKeyDb :=
  kd_select "Failed to get active signing key: " (fun rows => take 1
    (filter (fun r => key_service_name r = service_name ∧ key_status r = "active") rows)) optional_key.

Definition pg_get_key_by_kid (kid : string)
    : PgKeyDb → result (option SigningKeyMetadata) Error * PgKeyDb :=
  kd_select "Failed to get signing key by kid: " (filter (fun r => key_kid r = kid)) optional_key.

Definition newer (r r' : SigningKeyRow) : Prop := key_created_at r' ≤ key_created_at r.
#[global] Instance newer_dec r r' : Decision (newer r r').
Proof. unfold newer. apply _. Defined.

Definition pg_get_verification_keys (service_name : string)
    : PgKeyDb → result (list SigningKeyMetadata) Error * PgKeyDb :=
  kd_select "Failed to get verification keys: " (fun rows => merge_sort newer
    (filter (fun r => key_service_name r = service_name ∧ key_status r ∈ ["active"; "draining"]) rows))
    rows_to_keys.

(** [UPDATE .. WHERE P]: the new rows and [rows_affected]. *)
Definition update_rows (P : SigningKeyRow → Prop) `{∀ r, Decision (P r)}
    (f : SigningKeyRow → SigningKeyRow) (rows : list SigningKeyRow) : nat * list SigningKeyRow :=
  (length (filter P rows), map (fun r => if decide (P r) then f r else r) rows).

Definition pg_update_key_status (kid : string) (new_status : KeyStatus) (timestamp : Z) (db : PgKeyDb)
    : result unit Error * PgKeyDb :=
  let t := pg_timestamptz timestamp in
  let '(r, db) := kd_query "Failed to update signing key status: " (fun rows => Ok
    match new_status with
    | KeyActive => update_rows (fun r => key_kid r = kid) (activate "active" t) rows
    | KeyDraining =>
        update_rows (fun r => key_kid r = kid ∧ key_status r = "active") (drain "draining" t) rows
    | KeyRetired =>
        update_rows (fun r => key_kid r = kid ∧ key_status r = "draining") (retire "retired" t) rows
    end) db in
  (match r with
   | Ok O => Err (Error_Conflict ("Key '" +:+ kid +:+ "' was not updated to '" +:+
       key_status_to_string new_status +:+
       "' -- it may not exist or is not in the expected state"))
   | Ok (Datatypes.S _) => Ok tt
   | Err e => Err e
   end, db).

(** [drain_expires_at <= $1] is not true of [NULL]. *)
Definition window_over (t : Z) (r : SigningKeyRow) : Prop :=
  key_status r = "draining" ∧ match key_drain_expires_at r with Some d => d ≤ t | None => False end.
#[global] Instance window_over_dec t r : Decision (window_over t r).
Proof. unfold window_over. destruct (key_drain_expires_at r); apply _. Defined.

Definition pg_retire_expired_draining_keys (now : Z) (db : PgKeyDb) : result Z Error * PgKeyDb :=
  let t := pg_timestamptz now in
  let '(r, db) := kd_query "Failed to retire expired draining keys: " (fun rows => Ok
    (update_rows (window_over t) (retire "retired" t) rows)) db in
  (match r with Ok n => Ok (Z.of_nat n) | Err e => Err e end, db).

#[global] Instance PgKeyRotationStorage : KeyRotationStorage PgKeyDb := {|
  ks_initialize := pg_initialize;
  ks_store_key := pg_store_key;
  ks_get_active_key := pg_get_active_key;
  ks_get_key_by_kid := pg_get_key_by_kid;
  ks_get_verification_keys := pg_get_verification_keys;
  ks_update_key_status := pg_update_key_status;
  ks_retire_expired_draining_keys := pg_retire_expired_draining_keys;
|}.

(** ** The backend meets the contract *)

(** Rows as the backend writes them. *)
Definition key_row_ok (r : SigningKeyRow) : Prop :=
  is_ok (format_from_str (key_format r)) = true ∧ ∃ st, key_status r = key_status_to_string st.

(** The key a row holds. *)
Definition key_of (r : SigningKeyRow) : SigningKeyMetadata :=
  mkKey (key_kid r) (unwrap_or (format_from_str (key_format r)) PasetoV4Local) (key_material r)
    (unwrap_or (key_status_from_str (key_status r)) KeyRetired) (key_created_at r)
    (key_activated_at r) (key_draining_since r) (key_retired_at r) (key_drain_expires_at r)
    (key_service_name r) (key_hash r).

Definition kd_inv (db : PgKeyDb) : Prop :=
  Forall key_row_ok (kd_rows db) ∧ NoDup (key_kid <$> kd_rows db).

Definition kd_contents (db : PgKeyDb) : list SigningKeyMetadata := map key_of (kd_rows db).

Lemma row_to_key_ok r : key_row_ok r → row_to_key r = Ok (key_of r).
Proof.
  intros [Hf [st Hs]]. unfold row_to_key, key_of. rewrite Hs, key_status_from_to_string.
  by destruct (format_from_str (key_format r)).
Qed.

Lemma rows_to_keys_ok rows : Forall key_row_ok rows → rows_to_keys rows = Ok (map key_of rows).
Proof.
  induction 1 as [|r rows Hr _ IH]; [done|]. cbn [rows_to_keys]. by rewrite row_to_key_ok, IH.
Qed.

Lemma key_of_status r st : key_row_ok r → key_status (key_of r) = st ↔ key_status r = key_status_to_string st.
Proof.
  intros [_ [st' E]]. unfold key_of; cbn. rewrite E, key_status_from_to_string; cbn.
  split; [by intros ->|apply key_status_to_string_inj].
Qed.

Lemma kd_query_inv {A} what (stmt : _ → result (A * _) _) db r db' :
  kd_query what stmt db = (r, db') →
  (∃ e, r = Err e ∧ kd_rows db' = kd_rows db) ∨
  (∃ a rows, r = Ok a ∧ stmt (kd_rows db) = Ok (a, rows) ∧ kd_rows db' = rows).
Proof.
  unfold kd_query. destruct (kd_exec db) as [f db1] eqn:E.
  assert (kd_rows db1 = kd_rows db) as Er.
  { unfold kd_exec in E. destruct (kd_faults db); by injection E as <- <-. }
  rewrite <-Er. destruct f; [intros [= <- <-]; eauto|].
  destruct (stmt (kd_rows db1)) as [[a rows]|] eqn:Es; intros [= <- <-]; eauto 6.
Qed.

Lemma filter_keys (P : SigningKeyMetadata → Prop) (Q : SigningKeyRow → Prop)
    `{∀ k, Decision (P k)} `{∀ r, Decision (Q r)} rows :
  Forall key_row_ok rows → (∀ r, key_row_ok r → P (key_of r) ↔ Q r) →
  filter P (map key_of rows) = map key_of (filter Q rows).
Proof.
  intros Hr HPQ. induction Hr as [|r rows Hr _ IH]; [done|].
  cbn [map]. rewrite !filter_cons. specialize (HPQ r Hr).
  repeat case_decide; try tauto; cbn [map]; by rewrite IH.
Qed.

Lemma kd_select_inv {A} what query convert db (r : result A Error) db' :
  kd_inv db → kd_select what query convert db = (r, db') →
  kd_inv db' ∧ kd_contents db' = kd_contents db ∧
  ∀ a, r = Ok a → convert (query (kd_rows db)) = Ok a.
Proof.
  intros Hi. unfold kd_select. destruct (kd_query _ _ db) as [r1 db1] eqn:E. intros [= <- <-].
  unfold kd_inv, kd_contents.
  apply kd_query_inv in E as [(e & -> & ->)|(rows & rows' & -> & [= <- <-] & ->)]; [done|].
  split; [done|]. split; done.
Qed.

Lemma optional_key_filter (Q : SigningKeyRow → Prop) `{∀ r, Decision (Q r)} rows o n :
  Forall key_row_ok rows → optional_key (take (Datatypes.S n) (filter Q rows)) = Ok o →
  o = head (map key_of (filter Q rows)).
Proof.
  intros Hr. assert (Forall key_row_ok (filter Q rows)) as Hf.
  { rewrite Forall_forall in *. intros r [_ Hin]%list_elem_of_filter. auto. }
  destruct (filter Q rows) as [|r rs]; cbn; [by intros [= <-]|].
  inversion_clear Hf. rewrite row_to_key_ok by done. by intros [= <-].
Qed.

(** An [UPDATE] that keeps ids and writes well-formed rows. *)
Lemma update_rows_inv (P : SigningKeyRow → Prop) (Q : SigningKeyMetadata → Prop)
    `{∀ r, Decision (P r)} `{∀ k, Decision (Q k)} f g rows :
  Forall key_row_ok rows → NoDup (key_kid <$> rows) →
  (∀ r, key_kid (f r) = key_kid r) → (∀ r, key_row_ok r → key_row_ok (f r)) →
  (∀ r, key_row_ok r → Q (key_of r) ↔ P r) → (∀ r, key_row_ok r → key_of (f r) = g (key_of r)) →
  let '(n, rows') := update_rows P f rows in
  n = length (filter Q (map key_of rows)) ∧
  Forall key_row_ok rows' ∧ NoDup (key_kid <$> rows') ∧
  map key_of rows' = map (fun k => if decide (Q k) then g k else k) (map key_of rows).
Proof.
  intros Hr Hn Hk Hf HPQ Hg. unfold update_rows. split; [|split; [|split]].
  - by rewrite (filter_keys Q P), length_map.
  - apply Forall_map. eapply Forall_impl; [exact Hr|]. intros r Hro. cbn. case_decide; auto.
  - change (map ?h rows) with (h <$> rows). rewrite <-list_fmap_compose.
    erewrite list_fmap_ext; [exact Hn|]. intros i r _. cbn. by case_decide.
  - rewrite !map_map. apply map_ext_in. intros r Hin%list_elem_of_In. rewrite Forall_forall in Hr.
    specialize (HPQ r (Hr r Hin)). repeat case_decide; try tauto. auto.
Qed.

Lemma key_row_ok_status r st f : key_row_ok r → key_format f = key_format r →
  key_status f = key_status_to_string st → key_row_ok f.
Proof. intros [Hf _] E Es. split; [by rewrite E|eauto]. Qed.

#[global] Instance newer_trans : Transitive newer.
Proof. intros r1 r2 r3. unfold newer. lia. Qed.
#[global] Instance newer_total : Total newer.
Proof. intros r1 r2. unfold newer. lia. Qed.

Lemma pg_store_key_ok k db r db' : kd_inv db → pg_store_key k db = (r, db') →
  kd_inv db' ∧ kd_contents db' = if is_ok r then kd_contents db ++ [key_of (key_to_row k)]
                                 else kd_contents db.
Proof.
  intros [Ho Hn] Hx. unfold pg_store_key in Hx. unfold kd_inv, kd_contents.
  apply kd_query_inv in Hx as [(e & -> & ->)|([] & rows & -> & Hs & ->)]; [done|].
  case_bool_decide as Hin; [done|]. injection Hs as <-. cbn [is_ok].
  rewrite map_app, fmap_app, Forall_app, NoDup_app. split; [|done]. split; [split; [done|]|].
  - apply Forall_singleton. split; [cbn; by rewrite format_from_to_string|by eexists].
  - split; [done|]. split; [cbn; set_solver|apply NoDup_singleton].
Qed.

Lemma pg_get_verification_keys_ok service db r db' :
  kd_inv db → pg_get_verification_keys service db = (r, db') →
  kd_inv db' ∧ kd_contents db' = kd_contents db ∧
  ∀ l, r = Ok l → l ≡ₚ filter (verifies_in service) (kd_contents db) ∧
    Sorted (fun k k' => key_created_at k' ≤ key_created_at k) l.
Proof.
  intros Hi Hx. pose proof Hi as [Ho _]. apply kd_select_inv in Hx as (Hi' & Hc & Hr); [|done].
  split; [done|]. split; [done|]. intros l ->. specialize (Hr l eq_refl).
  rewrite rows_to_keys_ok in Hr.
  2: { rewrite Forall_forall in *. intros x. rewrite merge_sort_Permutation.
       intros [_ Hin]%list_elem_of_filter. auto. }
  injection Hr as <-. split.
  - unfold kd_contents. rewrite (filter_keys (verifies_in service)
      (fun r => key_service_name r = service ∧ key_status r ∈ ["active"; "draining"])) by
      (done || (intros x Hx; unfold verifies_in; cbn [key_service_name key_of];
                rewrite !key_of_status by done; set_solver)).
    by apply Permutation_map, merge_sort_Permutation.
  - eapply Sorted_fmap, Sorted_merge_sort; [|apply _]. intros r1 r2. done.
Qed.

Lemma kd_update_inv (P : SigningKeyRow → Prop) (Q : SigningKeyMetadata → Prop)
    `{∀ r, Decision (P r)} `{∀ k, Decision (Q k)} f g what db r db' :
  kd_inv db → kd_query what (fun rows => Ok (update_rows P f rows)) db = (r, db') →
  (∀ r, key_kid (f r) = key_kid r) → (∀ r, key_row_ok r → key_row_ok (f r)) →
  (∀ r, key_row_ok r → Q (key_of r) ↔ P r) → (∀ r, key_row_ok r → key_of (f r) = g (key_of r)) →
  kd_inv db' ∧
  kd_contents db' = (if is_ok r then map (fun k => if decide (Q k) then g k else k) (kd_contents db)
                     else kd_contents db) ∧
  ∀ n, r = Ok n → n = length (filter Q (kd_contents db)).
Proof.
  intros [Ho Hn] Hx Hk Hf HPQ Hg. unfold kd_inv, kd_contents.
  apply kd_query_inv in Hx as [(e & -> & ->)|(n & rows & -> & Hs & ->)]; [done|].
  injection Hs as Hlen Hrows.
  pose proof (update_rows_inv P Q f g (kd_rows db) Ho Hn Hk Hf HPQ Hg) as Hu. unfold update_rows in Hu.
  rewrite Hlen, Hrows in Hu. destruct Hu as (E & ? & ? & ?). split; [done|]. split; [done|].
  by intros m [= <-].
Qed.

(** When the update applies to no key, the keys stay as they are. *)
Lemma map_if_none (Q : SigningKeyMetadata → Prop) `{∀ k, Decision (Q k)} g l :
  filter Q l = [] → map (fun k => if decide (Q k) then g k else k) l = l.
Proof.
  intros Hf. rewrite <-(map_id l) at 2. apply map_ext_in. intros k Hk%list_elem_of_In.
  rewrite decide_False; [done|]. by eapply filter_nil_inv.
Qed.

Lemma pg_update_with (P : SigningKeyRow → Prop) (Q : SigningKeyMetadata → Prop)
    `{∀ r, Decision (P r)} `{∀ k, Decision (Q k)} f g kid st t what msg db r db' :
  kd_inv db →
  (let '(r, db) := kd_query what (fun rows => Ok (update_rows P f rows)) db in
   (match r with Ok O => Err msg | Ok (Datatypes.S _) => Ok tt | Err e => Err e end, db)) = (r, db') →
  (∀ r, key_kid (f r) = key_kid r) → (∀ r, key_row_ok r → key_row_ok (f r)) →
  (∀ r, key_row_ok r → Q (key_of r) ↔ P r) → (∀ r, key_row_ok r → key_of (f r) = g (key_of r)) →
  (∀ k, (if decide (Q k) then g k else k) =
        if decide (key_kid k = kid) then default k (transition st t k) else k) →
  (∀ k, Q k → key_kid k = kid ∧ is_Some (transition st t k)) →
  kd_inv db' ∧
  kd_contents db' = (if is_ok r then transition_where kid st t (kd_contents db) else kd_contents db) ∧
  (is_ok r = true → ∃ k, k ∈ kd_contents db ∧ key_kid k = kid ∧ is_Some (transition st t k)).
Proof.
  intros Hi Hx Hk Hf HPQ Hg Hmap HQ. destruct (kd_query _ _ db) as [r1 db1] eqn:E.
  injection Hx as <- <-. eapply (kd_update_inv P Q f g) in E as (Hi' & Hc & Hlen); [|done..].
  split; [done|]. rewrite Hc. destruct r1 as [n|]; [|done]. specialize (Hlen n eq_refl).
  destruct n as [|n]; cbn [is_ok]; (split; [|]).
  - apply map_if_none. by apply nil_length_inv.
  - done.
  - apply map_ext. apply Hmap.
  - intros _. destruct (filter Q (kd_contents db)) as [|k l] eqn:Ef; [done|].
    assert (k ∈ filter Q (kd_contents db)) as [HQk Hin]%list_elem_of_filter by (rewrite Ef; left).
    exists k. split; [done|]. by apply HQ.
Qed.

Lemma pg_update_key_status_ok kid st t db r db' :
  kd_inv db → pg_update_key_status kid st t db = (r, db') →
  kd_inv db' ∧
  kd_contents db' = (if is_ok r then transition_where kid st (pg_timestamptz t) (kd_contents db)
                     else kd_contents db) ∧
  (is_ok r = true →
   ∃ k, k ∈ kd_contents db ∧ key_kid k = kid ∧ is_Some (transition st (pg_timestamptz t) k)).
Proof.
  intros Hi Hx. unfold pg_update_key_status in Hx.
  destruct st.
  - eapply (pg_update_with _ (fun k => key_kid k = kid) _ (activate KeyActive (pg_timestamptz t)))
      in Hx; [exact Hx|done|done| |done|done|done|by eauto].
    intros x Hx'. by apply (key_row_ok_status x KeyActive).
  - eapply (pg_update_with _ (fun k => key_kid k = kid ∧ key_status k = KeyActive) _
      (drain KeyDraining (pg_timestamptz t))) in Hx; [exact Hx|done|done|..].
    + intros x Hx'. by apply (key_row_ok_status x KeyDraining).
    + intros x Hx'. rewrite key_of_status by done. done.
    + done.
    + intros k. unfold transition. repeat case_decide; destruct (key_status k); naive_solver.
    + intros k [Hk Hs]. split; [done|]. cbn. rewrite Hs. by eexists.
  - eapply (pg_update_with _ (fun k => key_kid k = kid ∧ key_status k = KeyDraining) _
      (retire KeyRetired (pg_timestamptz t))) in Hx; [exact Hx|done|done|..].
    + intros x Hx'. by apply (key_row_ok_status x KeyRetired).
    + intros x Hx'. rewrite key_of_status by done. done.
    + done.
    + intros k. unfold transition. repeat case_decide; destruct (key_status k); naive_solver.
    + intros k [Hk Hs]. split; [done|]. cbn. rewrite Hs. by eexists.
Qed.

Lemma pg_retire_ok now db r db' :
  kd_inv db → pg_retire_expired_draining_keys now db = (r, db') →
  kd_inv db' ∧
  kd_contents db' = (if is_ok r
    then map (fun k => if decide (drained_by (pg_timestamptz now) k)
                       then retire KeyRetired (pg_timestamptz now) k else k) (kd_contents db)
    else kd_contents db) ∧
  ∀ n, r = Ok n → n = Z.of_nat (length (filter (drained_by (pg_timestamptz now)) (kd_contents db))).
Proof.
  intros Hi Hx. unfold pg_retire_expired_draining_keys in Hx.
  destruct (kd_query _ _ db) as [r1 db1] eqn:E. injection Hx as <- <-.
  eapply (kd_update_inv _ (drained_by (pg_timestamptz now)) _
            (retire KeyRetired (pg_timestamptz now))) in E as (Hi' & Hc & Hn); [|done|done| | |done].
  - split; [done|]. destruct r1 as [m|]; cbn; (split; [done|]); [|done].
    intros n [= <-]. by rewrite (Hn m).
  - intros x Hx'. by apply (key_row_ok_status x KeyRetired).
  - intros x Hx'. unfold drained_by, window_over. by rewrite key_of_status.
Qed.

#[global] Instance PgKeyRotationStorageLaws : KeyRotationStorageLaws PgKeyDb.
Proof.
  refine {| kr_inv := kd_inv; kr_contents := kd_contents; kr_time := pg_timestamptz;
            kr_stored := fun k => key_of (key_to_row k);
            kr_store_law := pg_store_key_ok;
            kr_verification_law := pg_get_verification_keys_ok;
            kr_update_law := pg_update_key_status_ok; kr_retire_law := pg_retire_ok |}.
  - intros db [_ Hn]. unfold kd_contents. change (map ?f ?l) with (f <$> l).
    by rewrite <-list_fmap_compose.
  - intros k. cbn. by rewrite format_from_to_string, key_status_from_to_string.
  - intros service db r db' Hi Hx. pose proof Hi as [Ho _].
    apply kd_select_inv in Hx as (Hi' & Hc & Hr); [|done]. split; [done|]. split; [done|].
    intros o ->. specialize (Hr o eq_refl). apply optional_key_filter in Hr; [|done].
    rewrite Hr. unfold kd_contents. f_equal. symmetry. apply filter_keys; [done|].
    intros x Hx. unfold active_in. by rewrite key_of_status.
  - intros kid db r db' Hi Hx. pose proof Hi as [Ho _].
    apply kd_select_inv in Hx as (Hi' & Hc & Hr); [|done]. split; [done|]. split; [done|].
    intros o ->. specialize (Hr o eq_refl).
    assert (optional_key (take 1 (filter (fun r => key_kid r = kid) (kd_rows db))) = Ok o) as Hr1
      by (rewrite <-Hr; by destruct (filter _ (kd_rows db))).
    apply optional_key_filter in Hr1; [|done]. rewrite Hr1. unfold kd_contents. f_equal. symmetry.
    by apply filter_keys.
Defined.
End Pg.
