(* ===== verification/KeyManager.v ===== *)
(** * Key rotation

    [src/acton-service/src/auth/key_rotation/{config,manager,agent}.rs]: the
    key manager with its cache over any backend of the [KeyRotationStorage]
    class, the rotation check, and the agent that runs it on request and on
    a timer. The agent awaits each handler on its message loop, so checks of
    one agent run one after another; instances share only the store.
    Times are nanoseconds. Randomness, UUIDs, base64 and BLAKE3 are parameters. *)

From S2P Require Import Prelude FrameworkError AuditEvent AuditStorage KeyStorage.

Local Open Scope string_scope.
Local Open Scope Z_scope.
Local Open Scope list_scope.

Class KeyRotationEnv := {
  (** [Utc::now] and [Instant::now] at each reading. *)
  kr_utc : nat → Z;
  kr_instant : nat → Z;
  (** [rand::fill] of 32 bytes and [Uuid::now_v7]. *)
  kr_random_bytes : nat → bytes;
  kr_uuid_v7 : nat → string;
  base64_encode : bytes → string;
  base64_decode : string → result bytes string;
  kr_blake3_hex : bytes → string;
}.

(** Decoding gives back what was encoded. *)
Class KeyRotationEnvLaws `{KeyRotationEnv} := {
  base64_roundtrip b : base64_decode (base64_encode b) = Ok b;
}.

Record KeyRotationConfig := mkKeyRotationConfig {
  kc_enabled : bool;
  kc_rotation_period_secs : Z;
  kc_drain_grace_period_secs : Z;
  kc_check_interval_secs : Z;
  kc_retention_days : Z;
  kc_bootstrap_key_path : option string;
}.

Definition KeyRotationConfig_default : KeyRotationConfig :=
  mkKeyRotationConfig false 86400 300 60 90 None.

Record CachedKey := mkCachedKey {
  ck_kid : string;
  ck_format : KeyFormat;
  ck_key_material : bytes;
  ck_status : KeyStatus;
}.

Record KeyCache := mkKeyCache {
  cache_active_key : option CachedKey;
  cache_verification_keys : gmap string CachedKey;
  cache_last_refresh : Z;
}.

Definition cache_empty (instant : Z) : KeyCache := mkKeyCache None ∅ instant.

Record KeyManager := mkKeyManager {
  km_service_name : string;
  km_config : KeyRotationConfig;
}.

(** The store, this instance's cache, the readings of the clock and of the
    random source so far, and the audit events logged. *)
Record KrWorld (S : Type) := mkKrWorld {
  kw_storage : S;
  kw_cache : KeyCache;
  kw_tick : nat;
  kw_seed : nat;
  kw_audit : list (AuditEventKind * AuditSeverity * json);
}.
Arguments mkKrWorld {S}.
Arguments kw_storage {S}.
Arguments kw_cache {S}.
Arguments kw_tick {S}.
Arguments kw_seed {S}.
Arguments kw_audit {S}.

Section Manager.
Context `{KeyRotationEnv} {S : Type} `{!KeyRotationStorage S}.
Implicit Types self : KeyManager.
Local Open Scope monad_scope.
Abbreviation K := (M (KrWorld S) Error).

Definition kstorage {A} (op : S → result A Error * S) : K A := fun w =>
  let '(r, s) := op (kw_storage w) in
  (r, mkKrWorld s (kw_cache w) (kw_tick w) (kw_seed w) (kw_audit w)).

Definition kr_utc_now : K Z := fun w =>
  (Ok (kr_utc (kw_tick w)),
   mkKrWorld (kw_storage w) (kw_cache w) (Datatypes.S (kw_tick w)) (kw_seed w) (kw_audit w)).

Definition kr_instant_now : K Z := fun w =>
  (Ok (kr_instant (kw_tick w)),
   mkKrWorld (kw_storage w) (kw_cache w) (Datatypes.S (kw_tick w)) (kw_seed w) (kw_audit w)).

Definition kr_seed : K nat := fun w =>
  (Ok (kw_seed w),
   mkKrWorld (kw_storage w) (kw_cache w) (kw_tick w) (Datatypes.S (kw_seed w)) (kw_audit w)).

(** [self.cache.read()] and writes under [self.cache.write()]. *)
Definition read_cache : K KeyCache := fun w => (Ok (kw_cache w), w).
Definition write_cache (c : KeyCache) : K unit := fun w =>
  (Ok tt, mkKrWorld (kw_storage w) c (kw_tick w) (kw_seed w) (kw_audit w)).

Definition decode_key_metadata (meta : SigningKeyMetadata) : result CachedKey Error :=
  match base64_decode (key_material meta) with
  | Err e => Err (Error_Internal ("failed to decode base64 key material for kid '" +:+
                    key_kid meta +:+ "': " +:+ e))
  | Ok key_material => Ok (mkCachedKey (key_kid meta) (key_format meta) key_material (key_status meta))
  end.

(** [active_meta.as_ref().map(decode_key_metadata).transpose()]. *)
Definition decode_optional (meta : option SigningKeyMetadata) : result (option CachedKey) Error :=
  match meta with
  | None => Ok None
  | Some m => (let? c := decode_key_metadata m in Ok (Some c))%rust
  end.

(** The loop that fills the map of verification keys. *)
Fixpoint decode_all (metas : list SigningKeyMetadata) (m : gmap string CachedKey)
    : result (gmap string CachedKey) Error :=
  match metas with
  | [] => Ok m
  | meta :: metas =>
      (let? cached := decode_key_metadata meta in decode_all metas (<[ck_kid cached := cached]> m))%rust
  end.

Definition refresh_cache self : K unit :=
  let! active_meta := kstorage (ks_get_active_key (km_service_name self)) in
  let! verification_metas := kstorage (ks_get_verification_keys (km_service_name self)) in
  let! active_cached := lift (decode_optional active_meta) in
  let! verification_keys := lift (decode_all verification_metas ∅) in
  let! instant := kr_instant_now in
  write_cache (mkKeyCache active_cached verification_keys instant).

(** [elapsed.as_secs() >= check_interval_secs]. *)
Definition is_cache_stale self : K bool :=
  let! cache := read_cache in
  let! instant := kr_instant_now in
  ret (kc_check_interval_secs (km_config self) <=?
         (instant - cache_last_refresh cache) / 1000000000).

Definition get_signing_key self : K (option CachedKey) :=
  let! stale := is_cache_stale self in
  (if stale then refresh_cache self else ret tt) ;;
  let! cache := read_cache in
  ret (cache_active_key cache).

Definition get_verification_key (kid : string) : K (option CachedKey) :=
  let! cache := read_cache in
  match cache_verification_keys cache !! kid with
  | Some cached => ret (Some cached)
  | None =>
      let! meta := kstorage (ks_get_key_by_kid kid) in
      match meta with
      | Some m =>
          if bool_decide (key_status m = KeyActive ∨ key_status m = KeyDraining) then
            let! cached := lift (decode_key_metadata m) in
            let! cache := read_cache in
            write_cache (mkKeyCache (cache_active_key cache)
                           (<[ck_kid cached := cached]> (cache_verification_keys cache))
                           (cache_last_refresh cache)) ;;
            ret (Some cached)
          else ret None
      | None => ret None
      end
  end.

(** The values of the map, in some order. *)
Definition get_all_verification_keys self : K (list CachedKey) :=
  let! stale := is_cache_stale self in
  (if stale then refresh_cache self else ret tt) ;;
  let! cache := read_cache in
  ret ((map_to_list (cache_verification_keys cache)).*2).

(** The key [rotate] generates. *)
Definition new_signing_key self (now : Z) (seed : nat) : SigningKeyMetadata :=
  let key_bytes := kr_random_bytes seed in
  mkKey (kr_uuid_v7 seed) PasetoV4Local (base64_encode key_bytes) KeyActive now (Some now) None None
    None (km_service_name self) (kr_blake3_hex key_bytes).

(** [drain_expires_at] is computed for a log line only. *)
Definition rotate self : K SigningKeyMetadata :=
  let! now := kr_utc_now in
  let! seed := kr_seed in
  let new_key := new_signing_key self now seed in
  let! old_active := kstorage (ks_get_active_key (km_service_name self)) in
  match old_active with
  | Some old => kstorage (ks_update_key_status (key_kid old) KeyDraining now)
  | None => ret tt
  end ;;
  kstorage (ks_store_key new_key) ;;
  refresh_cache self ;;
  ret new_key.

Definition retire_expired self : K Z :=
  let! now := kr_utc_now in
  let! retired_count := kstorage (ks_retire_expired_draining_keys now) in
  (if 0 <? retired_count then refresh_cache self else ret tt) ;;
  ret retired_count.

(** ** The rotation check *)

(** [logger.log(..)] when there is a logger. *)
Definition kr_log (audit : bool) (kind : AuditEventKind) (severity : AuditSeverity) (metadata : json)
    : K unit := fun w =>
  (Ok tt, mkKrWorld (kw_storage w) (kw_cache w) (kw_tick w) (kw_seed w)
            (if audit then kw_audit w ++ [(kind, severity, metadata)] else kw_audit w)).

Definition needs_rotation self (config : KeyRotationConfig) (audit force : bool) : K bool :=
  if force then ret true
  else
  let! signing := attempt (get_signing_key self) in
  match signing with
  | Ok (Some active_key) =>
      let! meta := attempt (kstorage (ks_get_key_by_kid (ck_kid active_key))) in
      match meta with
      | Ok (Some meta) =>
          match key_activated_at meta with
          | Some activated_at =>
              let! now := kr_utc_now in
              let age_secs := Z.quot (now - activated_at) 1000000000 in
              ret ((0 <=? age_secs) && (kc_rotation_period_secs config <=? age_secs))
          | None => ret true
          end
      | Ok None => ret true
      | Err _ => ret false
      end
  | Ok None => ret true
  | Err e =>
      kr_log audit AuthKeyRotationFailed SevError
        (JObject [("error", JString (error_to_string e)); ("phase", JString "get_signing_key");
                  ("service", JString (km_service_name self))]) ;;
      ret false
  end.

Definition perform_rotation_check self (config : KeyRotationConfig) (audit force : bool) : K unit :=
  let! retired := attempt (retire_expired self) in
  match retired with
  | Ok retired_count =>
      if 0 <? retired_count then
        kr_log audit AuthKeyRetired SevInformational
          (JObject [("retired_count", JNumber (PosInt retired_count));
                    ("service", JString (km_service_name self))])
      else ret tt
  | Err _ => ret tt
  end ;;
  let! needed := needs_rotation self config audit force in
  if needed then
    let! signing := attempt (get_signing_key self) in
    let old_kid := match signing with Ok (Some k) => JString (ck_kid k) | _ => JNull end in
    let! rotated := attempt (rotate self) in
    match rotated with
    | Ok new_key =>
        kr_log audit AuthKeyRotated SevNotice
          (JObject [("new_kid", JString (key_kid new_key)); ("old_kid", old_kid);
                    ("forced", JBool force); ("service", JString (km_service_name self))])
    | Err e =>
        kr_log audit AuthKeyRotationFailed SevError
          (JObject [("error", JString (error_to_string e)); ("phase", JString "rotate");
                    ("service", JString (km_service_name self))])
    end
  else ret tt.

(** ** The agent *)

Inductive KrMsg := CheckRotation | ForceRotation.

(** The state the handlers read: the manager, the agent's own copy of the
    configuration, and whether there is an audit logger. *)
Definition kr_handle self (config : KeyRotationConfig) (audit : bool) (msg : KrMsg) : K unit :=
  match msg with
  | CheckRotation => perform_rotation_check self config audit false
  | ForceRotation => perform_rotation_check self config audit true
  end.

(** Everything a service does with its key manager. *)
Inductive KrOp :=
| Kr_Message (config : KeyRotationConfig) (audit : bool) (msg : KrMsg) | Kr_Rotate | Kr_RetireExpired | Kr_Refresh
| Kr_SigningKey | Kr_VerificationKey (kid : string) | Kr_AllVerificationKeys.

Definition kr_run self (op : KrOp) : K unit :=
  match op with
  | Kr_Message config audit msg => kr_handle self config audit msg
  | Kr_Rotate => ignore (rotate self)
  | Kr_RetireExpired => ignore (retire_expired self)
  | Kr_Refresh => ignore (refresh_cache self)
  | Kr_SigningKey => ignore (get_signing_key self)
  | Kr_VerificationKey kid => ignore (get_verification_key kid)
  | Kr_AllVerificationKeys => ignore (get_all_verification_keys self)
  end.

Definition kr_run_all self (ops : list KrOp) (w : KrWorld S) : KrWorld S :=
  fold_left (fun w op => (kr_run self op w).2) ops w.
End Manager.
