(* ===== verification/KeyRotationSafety.v ===== *)
(** * What key rotation guarantees

    Proved from the [KeyRotationStorageLaws] interface: a rotation leaves
    exactly one active key, keeps every verification key and makes the new
    key the signing key; what a refreshed cache holds; the consequences of the
    drain window that is never stored; and what two instances that rotate at
    the same time can do. The witnesses run on the PostgreSQL backend. *)

From S2P Require Import Prelude FrameworkError AuditEvent AuditStorage KeyStorage KeyManager.

Local Open Scope string_scope.
Local Open Scope Z_scope.
Local Open Scope list_scope.

Section Safety.
Context `{KeyRotationEnv} `{!KeyRotationEnvLaws} {S : Type} `{!KeyRotationStorage S}
  `{!KeyRotationStorageLaws S}.
Implicit Types self : KeyManager.
Implicit Types w : KrWorld S.
Implicit Types l : list SigningKeyMetadata.
Abbreviation K := (M (KrWorld S) Error).

Definition keys w : list SigningKeyMetadata := kr_contents (kw_storage w).

(** ** Properties of the stored keys that operations keep *)

Definition keeps (I : list SigningKeyMetadata → Prop) {A} (m : K A) : Prop :=
  ∀ w, kr_inv (kw_storage w) → I (keys w) → kr_inv (kw_storage (m w).2) ∧ I (keys (m w).2).

Section Keeps.
Context (I : list SigningKeyMetadata → Prop).

Lemma keeps_lift {A} (r : result A Error) : keeps I (lift r).
Proof. by intros w. Qed.
Lemma keeps_utc_now : keeps I kr_utc_now.
Proof. by intros w. Qed.
Lemma keeps_instant_now : keeps I kr_instant_now.
Proof. by intros w. Qed.
Lemma keeps_seed : keeps I kr_seed.
Proof. by intros w. Qed.
Lemma keeps_read_cache : keeps I read_cache.
Proof. by intros w. Qed.
Lemma keeps_write_cache c : keeps I (write_cache c).
Proof. by intros w. Qed.
Lemma keeps_log audit k s j : keeps I (kr_log audit k s j).
Proof. by intros w. Qed.

Lemma keeps_bind {A B} (m : K A) (k : A → K B) :
  keeps I m → (∀ a, keeps I (k a)) → keeps I (bind m k).
Proof.
  intros Hm Hk w Hi Hw. destruct (Hm w Hi Hw) as [Hi' Hw']. unfold bind.
  destruct (m w) as [[a|e] w']; [by apply Hk|done].
Qed.

Lemma keeps_attempt {A} (m : K A) : keeps I m → keeps I (attempt m).
Proof. intros Hm w Hi Hw. specialize (Hm w Hi Hw). unfold attempt. by destruct (m w). Qed.

Lemma keeps_ignore {A} (m : K A) : keeps I m → keeps I (ignore m).
Proof. intros Hm w Hi Hw. specialize (Hm w Hi Hw). unfold ignore. by destruct (m w). Qed.

Lemma keeps_kstorage {A} (op : S → result A Error * S) :
  (∀ s r s', kr_inv s → op s = (r, s') →
     kr_inv s' ∧ (I (kr_contents s) → I (kr_contents s'))) → keeps I (kstorage op).
Proof.
  intros Hop w Hi Hw. unfold kstorage. destruct (op (kw_storage w)) as [r s'] eqn:E.
  destruct (Hop _ _ _ Hi E). auto.
Qed.

Lemma keeps_get_active service : keeps I (kstorage (ks_get_active_key service)).
Proof. apply keeps_kstorage. intros s r s' Hi E. by destruct (kr_active_law _ _ _ _ Hi E) as (? & -> & _). Qed.
Lemma keeps_get_by_kid kid : keeps I (kstorage (ks_get_key_by_kid kid)).
Proof. apply keeps_kstorage. intros s r s' Hi E. by destruct (kr_by_kid_law _ _ _ _ Hi E) as (? & -> & _). Qed.
Lemma keeps_get_verification service : keeps I (kstorage (ks_get_verification_keys service)).
Proof.
  apply keeps_kstorage. intros s r s' Hi E. by destruct (kr_verification_law _ _ _ _ Hi E) as (? & -> & _).
Qed.

Lemma keeps_store k :
  (∀ l, I l → I (l ++ [kr_stored k])) → keeps I (kstorage (ks_store_key k)).
Proof.
  intros HI. apply keeps_kstorage. intros s r s' Hi E. destruct (kr_store_law _ _ _ _ Hi E) as [? ->].
  split; [done|]. destruct (is_ok r); auto.
Qed.

Lemma keeps_update kid st t :
  (∀ l t, I l → I (transition_where kid st t l)) → keeps I (kstorage (ks_update_key_status kid st t)).
Proof.
  intros HI. apply keeps_kstorage. intros s r s' Hi E.
  destruct (kr_update_law _ _ _ _ _ _ Hi E) as (? & -> & _). split; [done|]. destruct (is_ok r); auto.
Qed.

Definition retire_all (now : Z) l : list SigningKeyMetadata :=
  map (fun k => if decide (drained_by now k) then retire KeyRetired now k else k) l.

Lemma keeps_retire now :
  (∀ l t, I l → I (retire_all t l)) → keeps I (kstorage (ks_retire_expired_draining_keys now)).
Proof.
  intros HI. apply keeps_kstorage. intros s r s' Hi E.
  destruct (kr_retire_law _ _ _ _ Hi E) as (? & -> & _). split; [done|]. destruct (is_ok r); [apply HI|done].
Qed.
End Keeps.

Ltac keeps_tac := repeat first
  [ progress intros | assumption
  | apply keeps_bind | apply keeps_attempt | apply keeps_ignore | apply keeps_lift
  | apply keeps_utc_now | apply keeps_instant_now | apply keeps_seed
  | apply keeps_read_cache | apply keeps_write_cache | apply keeps_log | apply keeps_get_active
  | apply keeps_get_by_kid | apply keeps_get_verification
  | apply keeps_store; assumption | apply keeps_update; assumption | apply keeps_retire; assumption
  | case_match ].

Section KeepsOps.
Context (I : list SigningKeyMetadata → Prop).
Context (Hretire : ∀ l t, I l → I (retire_all t l)).
Context (Hdrain : ∀ kid l t, I l → I (transition_where kid KeyDraining t l)).
Context (Hstore : ∀ self now seed l, I l → I (l ++ [kr_stored (new_signing_key self now seed)])).

Lemma keeps_refresh self : keeps I (refresh_cache self).
Proof. unfold refresh_cache. keeps_tac. Qed.

Lemma keeps_signing self : keeps I (get_signing_key self).
Proof. unfold get_signing_key, is_cache_stale. pose proof (keeps_refresh self). keeps_tac. Qed.

Lemma keeps_rotate self : keeps I (rotate self).
Proof.
  unfold rotate. pose proof (keeps_refresh self). keeps_tac.
  - apply keeps_update. auto.
  - apply keeps_store. auto.
Qed.

Lemma keeps_retire_expired self : keeps I (retire_expired self).
Proof. unfold retire_expired. pose proof (keeps_refresh self). keeps_tac. Qed.

Lemma keeps_run self op : keeps I (kr_run self op).
Proof.
  pose proof (keeps_refresh self). pose proof (keeps_signing self). pose proof (keeps_rotate self).
  pose proof (keeps_retire_expired self).
  destruct op; cbn; unfold kr_handle, perform_rotation_check, needs_rotation, get_verification_key,
    get_all_verification_keys, is_cache_stale; keeps_tac.
Qed.

Lemma keeps_run_all self ops : ∀ w,
  kr_inv (kw_storage w) → I (keys w) →
  kr_inv (kw_storage (kr_run_all self ops w)) ∧ I (keys (kr_run_all self ops w)).
Proof.
  unfold kr_run_all. induction ops as [|op ops IH]; intros w Hi Hw; [done|]. cbn.
  destruct (keeps_run self op w Hi Hw). by apply IH.
Qed.
End KeepsOps.

(** ** The drain window that is never stored *)

(** No key has a drain deadline, none is retired. *)
Definition undrainable l : Prop :=
  Forall (fun k => key_status k ≠ KeyRetired ∧ key_drain_expires_at k = None) l.

Lemma transition_where_kids kid st t l : key_kid <$> transition_where kid st t l = key_kid <$> l.
Proof.
  unfold transition_where. change (map ?f l) with (f <$> l). rewrite <-list_fmap_compose.
  apply list_fmap_ext. intros i k _. cbn. case_decide; [|done].
  unfold transition. by destruct st, (key_status k).
Qed.

Lemma retire_all_kids t l : key_kid <$> retire_all t l = key_kid <$> l.
Proof.
  unfold retire_all. change (map ?f l) with (f <$> l). rewrite <-list_fmap_compose.
  apply list_fmap_ext. intros i k _. cbn. by case_decide.
Qed.

Lemma undrainable_retire t l : undrainable l → retire_all t l = l.
Proof.
  intros Hl. unfold retire_all. rewrite <-(map_id l) at 2. apply map_ext_in.
  intros k Hk%list_elem_of_In. unfold undrainable in Hl. rewrite Forall_forall in Hl.
  rewrite decide_False; [done|]. destruct (Hl k Hk) as [_ E]. intros [_ Hd]. by rewrite E in Hd.
Qed.

Lemma undrainable_drain kid t l : undrainable l → undrainable (transition_where kid KeyDraining t l).
Proof.
  unfold undrainable, transition_where. rewrite Forall_map. intros Hl.
  eapply Forall_impl; [exact Hl|]. intros k [Hs Hd]. cbn.
  case_decide; [|done]. unfold transition. destruct (key_status k) eqn:E; cbn; split; congruence.
Qed.

(** A key that stops signing keeps verifying for ever: [rotate] computes
    when the old key's drain window ends but never stores it, and retirement
    looks only at the stored deadline. From a store without deadlines, no
    sequence of rotations, retirements, checks and look-ups, at whatever
    times, retires any key: every key ever stored still verifies tokens. *)
Theorem rotated_keys_never_retire self ops w :
  kr_inv (kw_storage w) → undrainable (keys w) →
  let l := keys (kr_run_all self ops w) in
  (∀ k, k ∈ l → verifies_in (key_service_name k) k) ∧ (key_kid <$> keys w) ⊆ (key_kid <$> l).
Proof.
  intros Hi Hu.
  destruct (keeps_run_all (fun l => undrainable l ∧ (key_kid <$> keys w) ⊆ (key_kid <$> l)))
    with (self := self) (ops := ops) (w := w) as [_ [Hl Hk]]; [| | |done|done|].
  - intros l t [Hl Hk]. by rewrite undrainable_retire.
  - intros kid l t [Hl Hk]. rewrite transition_where_kids. by split; [apply undrainable_drain|].
  - intros self' now seed l [Hl Hk]. rewrite fmap_app. split; [|set_solver].
    destruct (kr_stored_same (new_signing_key self' now seed)) as (_ & Hs & _ & _ & _ & _ & _ & Hd).
    apply Forall_app. split; [done|]. apply Forall_singleton. by rewrite Hs, Hd.
  - split; [|done]. intros k Hin. unfold undrainable in Hl. rewrite Forall_forall in Hl.
    destruct (Hl k Hin) as [Hs _]. split; [done|]. destruct (key_status k); auto. done.
Qed.

(** ** What a refreshed cache holds *)

Lemma decode_kid k ck : decode_key_metadata k = Ok ck → ck_kid ck = key_kid k.
Proof. unfold decode_key_metadata. destruct (base64_decode _); [by intros [= <-]|done]. Qed.

Lemma decode_all_lookup metas : ∀ m m',
  NoDup (key_kid <$> metas) → decode_all metas m = Ok m' →
  ∀ kid ck, m' !! kid = Some ck ↔
    (∃ k, k ∈ metas ∧ key_kid k = kid ∧ decode_key_metadata k = Ok ck) ∨
    (m !! kid = Some ck ∧ kid ∉ key_kid <$> metas).
Proof.
  induction metas as [|k metas IH]; intros m m' Hn Hd kid ck; cbn in *.
  { injection Hd as ->. set_solver. }
  apply NoDup_cons in Hn as [Hk Hn]. destruct (decode_key_metadata k) as [c|] eqn:Ec; [|done].
  cbn in Hd. rewrite (IH _ _ Hn Hd kid ck), (decode_kid _ _ Ec), lookup_insert. case_decide as Hkid.
  - subst kid. split.
    + intros [(k' & Hk' & E & _)|[[= ->] _]]; [|left; exists k; split; [left|done]].
      exfalso. apply Hk. rewrite <-E. apply list_elem_of_fmap. eauto.
    + intros [(k' & [->|Hk']%elem_of_cons & E & Ed)|[_ ?]]; [|..].
      * right. split; [congruence|done].
      * exfalso. apply Hk. rewrite <-E. apply list_elem_of_fmap. eauto.
      * set_solver.
  - setoid_rewrite elem_of_cons. split.
    + intros [(k' & Hk' & E & Ed)|[? ?]]; [eauto 6|]. right. split; [done|set_solver].
    + intros [(k' & [->|Hk'] & E & Ed)|[? ?]]; [done|eauto 6|]. right. split; [done|set_solver].
Qed.

(** The cache holds the service's active key and exactly its verification
    keys, decoded. *)
Definition reflects (service : string) l (c : KeyCache) : Prop :=
  decode_optional (head (filter (active_in service) l)) = Ok (cache_active_key c) ∧
  ∀ kid ck, cache_verification_keys c !! kid = Some ck ↔
    ∃ k, k ∈ l ∧ verifies_in service k ∧ key_kid k = kid ∧ decode_key_metadata k = Ok ck.

Lemma wp_kstorage {A} (op : S → result A Error * S) Q w :
  (∀ r s', op (kw_storage w) = (r, s') →
     Q r (mkKrWorld s' (kw_cache w) (kw_tick w) (kw_seed w) (kw_audit w))) →
  wp (kstorage op) Q w.
Proof. intros HQ. unfold wp, kstorage. destruct (op (kw_storage w)) as [r s'] eqn:E. by apply HQ. Qed.

Lemma wp_refresh_cache self w :
  kr_inv (kw_storage w) →
  wp (refresh_cache self) (fun r w' => kr_inv (kw_storage w') ∧ keys w' = keys w ∧
    if is_ok r then reflects (km_service_name self) (keys w) (kw_cache w')
    else kw_cache w' = kw_cache w) w.
Proof.
  intros Hi. pose proof (kr_distinct _ Hi) as Hn. unfold refresh_cache.
  apply wp_bind, wp_kstorage. intros r s1 E1.
  destruct (kr_active_law _ _ _ _ Hi E1) as (Hi1 & Hc1 & Ho). destruct r as [o|]; [|done].
  apply wp_bind, wp_kstorage. cbn. intros r s2 E2.
  destruct (kr_verification_law _ _ _ _ Hi1 E2) as (Hi2 & Hc2 & Hv).
  unfold keys in *. destruct r as [metas|]; [|cbn; by rewrite Hc2].
  destruct (Hv metas eq_refl) as [Hp _]. rewrite Hc1 in Hp. rewrite (Ho o eq_refl).
  unfold wp, bind, lift. destruct (decode_optional _) as [active|] eqn:Ea; [|cbn; by rewrite Hc2, Hc1].
  destruct (decode_all metas ∅) as [m|] eqn:Em; cbn; rewrite Hc2, Hc1; [|done].
  split; [done|]. split; [done|]. split; [done|]. intros kid ck. cbn.
  rewrite (decode_all_lookup metas ∅ m); [|by rewrite Hp; eapply sublist_NoDup;
    [exact Hn|apply fmap_sublist, sublist_filter]|done].
  setoid_rewrite Hp. setoid_rewrite list_elem_of_filter. rewrite lookup_empty. naive_solver.
Qed.

(** ** Rotation *)

(** The keys after the old active key was sent draining. *)
Definition drained (service : string) (t : Z) l : list SigningKeyMetadata :=
  match head (filter (active_in service) l) with
  | Some old => transition_where (key_kid old) KeyDraining t l
  | None => l
  end.

Lemma wp_rotate self w :
  kr_inv (kw_storage w) →
  wp (rotate self) (fun r w' => kr_inv (kw_storage w') ∧
    (is_ok r = false ∧ keys w' = keys w ∨
     ∃ t, is_ok r = false ∧ keys w' = drained (km_service_name self) t (keys w) ∨
     ∃ now seed, let new := new_signing_key self now seed in
       keys w' = drained (km_service_name self) t (keys w) ++ [kr_stored new] ∧
       (is_ok r = false ∨ r = Ok new ∧ reflects (km_service_name self) (keys w') (kw_cache w')))) w.
Proof.
  intros Hi. unfold rotate. apply wp_bind. cbn. apply wp_bind. cbn.
  set (now := kr_utc (kw_tick w)). set (seed := kw_seed w).
  apply wp_bind, wp_kstorage. cbn. intros r s1 E1.
  destruct (kr_active_law _ _ _ _ Hi E1) as (Hi1 & Hc1 & Ho).
  destruct r as [o|]; [|cbn; split; [done|]; left; split; [done|]; exact Hc1].
  rewrite (Ho o eq_refl) in *. clear Ho E1.
  apply wp_bind. eapply (wp_wand _ (fun r w' => kr_inv (kw_storage w') ∧
    if is_ok r then keys w' = drained (km_service_name self) (kr_time now) (keys w)
    else keys w' = keys w)).
  { unfold drained, keys in *. destruct (head _) as [old|]; [|done].
    apply wp_kstorage. cbn. intros r s2 E2. destruct (kr_update_law _ _ _ _ _ _ Hi1 E2) as (Hi2 & Hc2 & _).
    rewrite Hc1 in Hc2. destruct r; done. }
  intros [[]|e] w2 [Hi2 Hc2]; cbn in Hc2; [|by auto].
  apply wp_bind, wp_kstorage. cbn. intros r s3 E3. destruct (kr_store_law _ _ _ _ Hi2 E3) as [Hi3 Hc3].
  change (kr_contents (kw_storage w2)) with (keys w2) in Hc3. rewrite Hc2 in Hc3.
  destruct r as [[]|e]; cbn in Hc3; [|split; [done|]; right; exists (kr_time now); left; by split].
  apply wp_bind. eapply wp_wand; [by apply wp_refresh_cache|]. intros r w4 (Hi4 & Hc4 & Hr).
  unfold keys at 2 in Hc4. cbn in Hc4. rewrite Hc3 in Hc4.
  destruct r as [[]|e]; cbn; (split; [done|]); right; exists (kr_time now); right; exists now, seed;
    (split; [done|]); [right|by left].
  split; [done|]. unfold keys in *. cbn in Hr. rewrite Hc3 in Hr. cbn. by rewrite Hc4.
Qed.

Lemma default_transition_same st t k :
  key_kid (default k (transition st t k)) = key_kid k ∧
  key_service_name (default k (transition st t k)) = key_service_name k ∧
  key_material (default k (transition st t k)) = key_material k.
Proof. unfold transition. by destruct st, (key_status k). Qed.

(** Draining keeps a key usable for verification. *)
Lemma drain_verifies service t k :
  verifies_in service k → verifies_in service (default k (transition KeyDraining t k)).
Proof.
  intros [Hs Hst]. split; [by destruct (default_transition_same KeyDraining t k) as (_ & -> & _)|].
  unfold transition. destruct (key_status k) eqn:E; cbn; [auto..|]. naive_solver.
Qed.

(** With at most one active key, draining it leaves none. *)
Lemma drained_none_active service t l :
  NoDup (key_kid <$> l) → (length (filter (active_in service) l) ≤ 1)%nat →
  filter (active_in service) (drained service t l) = [].
Proof.
  intros Hn Hl. apply filter_none. unfold drained. intros k.
  destruct (filter (active_in service) l) as [|old rest] eqn:Ef; cbn.
  { intros Hk Ha. by apply (filter_nil_inv _ l k Ef Hk). }
  destruct rest; [|cbn in Hl; lia]. intros (k0 & -> & Hk0)%list_elem_of_fmap Ha.
  assert (old ∈ filter (active_in service) l) as [Hold Hin]%list_elem_of_filter by (rewrite Ef; left).
  case_decide as Hkid.
  - apply (NoDup_fmap_elem_inj key_kid l) in Hkid as ->; [|done..].
    destruct Hold as [_ Hs], Ha as [_ Ha]. cbn in Ha. by rewrite Hs in Ha.
  - assert (k0 ∈ filter (active_in service) l) as Hx by by apply list_elem_of_filter.
    rewrite Ef in Hx. by apply list_elem_of_singleton in Hx as ->.
Qed.

(** Every key still usable before is still usable after. *)
Definition still_verifies (service : string) l l' : Prop :=
  ∀ k, k ∈ l → verifies_in service k →
  ∃ k', k' ∈ l' ∧ key_kid k' = key_kid k ∧ key_material k' = key_material k ∧ verifies_in service k'.

Lemma drained_still_verifies service t l : still_verifies service l (drained service t l).
Proof.
  intros k Hk Hv. unfold drained. destruct (head _) as [old|]; [|eauto].
  exists (if decide (key_kid k = key_kid old) then default k (transition KeyDraining t k) else k).
  split; [apply list_elem_of_fmap; eauto|].
  destruct (default_transition_same KeyDraining t k) as (? & _ & ?).
  case_decide; auto using drain_verifies.
Qed.

Lemma drained_others service t l :
  NoDup (key_kid <$> l) →
  filter (fun k => key_service_name k ≠ service) (drained service t l) =
  filter (fun k => key_service_name k ≠ service) l.
Proof.
  intros Hn. unfold drained. destruct (head _) as [old|] eqn:Eh; [|done].
  assert (old ∈ filter (active_in service) l) as [[Hs _] Hin]%list_elem_of_filter.
  { destruct (filter (active_in service) l); [done|]. injection Eh as ->. left. }
  assert (∀ k, k ∈ l → key_kid k = key_kid old → key_service_name k = service) as Hk.
  { intros k Hk E. by apply (NoDup_fmap_elem_inj key_kid l) in E as ->. }
  clear Eh Hn Hin. unfold transition_where. induction l as [|k l IH]; [done|]. cbn [map].
  rewrite !filter_cons.
  destruct (default_transition_same KeyDraining t k) as (_ & Es & _).
  specialize (IH ltac:(intros; apply Hk; [by right|done])). specialize (Hk k ltac:(left)).
  destruct (decide (key_kid k = key_kid old)) as [E|E].
  - rewrite Es, (Hk E). rewrite !decide_False by tauto. exact IH.
  - case_decide; [by rewrite IH|exact IH].
Qed.

(** C7: Rotation keeps the store consistent, whatever fails on the way: if the
    service had at most one active key, it has at most one afterwards; every
    key that verified tokens still does, with the same key material; keys of
    other services are not touched. When [rotate] returns [Ok], the new key
    is the only active key of the service and the one [get_signing_key] will
    hand out, with the random bytes it was generated from. *)
Theorem rotate_single_active self w r w' :
  kr_inv (kw_storage w) → rotate self w = (r, w') →
  (length (filter (active_in (km_service_name self)) (keys w)) ≤ 1)%nat →
  (length (filter (active_in (km_service_name self)) (keys w')) ≤ 1)%nat ∧
  still_verifies (km_service_name self) (keys w) (keys w') ∧
  filter (fun k => key_service_name k ≠ km_service_name self) (keys w') =
    filter (fun k => key_service_name k ≠ km_service_name self) (keys w) ∧
  ∀ new, r = Ok new →
    filter (active_in (km_service_name self)) (keys w') = [kr_stored new] ∧
    ∃ seed, cache_active_key (kw_cache w') =
      Some (mkCachedKey (key_kid new) PasetoV4Local (kr_random_bytes seed) KeyActive).
Proof.
  intros Hi Hr Hl. pose proof (kr_distinct _ Hi) as Hn.
  pose proof (wp_rotate self w Hi) as Hw. unfold wp in Hw. rewrite Hr in Hw. cbn in Hw.
  destruct Hw as [_ [[He Hk]|(t & [[He Hk]|(now & seed & Hk & Hok)])]].
  - rewrite Hk. split; [done|]. split; [unfold still_verifies; eauto 6|]. split; [done|].
    intros new ->. done.
  - rewrite Hk, drained_none_active by done. split; [cbn; lia|].
    split; [apply drained_still_verifies|]. split; [by apply drained_others|]. intros new ->. done.
  - set (new := new_signing_key self now seed) in *.
    destruct (kr_stored_same new) as (Ek & Es & Ev & Ef & Em & _).
    assert (active_in (km_service_name self) (kr_stored new)) as Ha by (split; [by rewrite Ev|by rewrite Es]).
    assert (filter (active_in (km_service_name self)) (keys w') = [kr_stored new]) as Hact.
    { rewrite Hk, filter_app, drained_none_active by done. cbn. rewrite decide_True by done. done. }
    rewrite Hact. split; [cbn; lia|]. split; [|split].
    + intros k Hin Hv. destruct (drained_still_verifies _ t _ k Hin Hv) as (k' & ? & ? & ? & ?).
      exists k'. rewrite Hk. split; [set_solver|done].
    + rewrite Hk, filter_app, drained_others by done. cbn. rewrite decide_False.
      { by rewrite app_nil_r. } rewrite Ev. cbn. tauto.
    + intros new' Hnew. destruct Hok as [He|[-> [Href _]]]; [by rewrite Hnew in He|].
      injection Hnew as <-. split; [done|]. exists seed. rewrite Hact in Href. cbn in Href.
      unfold decode_key_metadata in Href. rewrite Em, Ek, Ef, Es in Href. cbn in Href.
      rewrite base64_roundtrip in Href. cbn in Href. by injection Href as <-.
Qed.

(** ** Looking keys up *)

Lemma head_filter_kid l k :
  NoDup (key_kid <$> l) → k ∈ l → head (filter (fun x => key_kid x = key_kid k) l) = Some k.
Proof.
  intros Hn Hk. destruct (filter _ l) as [|x xs] eqn:E.
  - exfalso. by apply (filter_nil_inv _ l k E Hk).
  - assert (x ∈ filter (fun x => key_kid x = key_kid k) l) as [Ex Hx]%list_elem_of_filter
      by (rewrite E; left).
    cbn. f_equal. by eapply NoDup_fmap_elem_inj.
Qed.

(** Looking up a verification key is right with a cache that is up to
    date: what is returned is the decoded material of a stored key with that
    id that is active or draining, and every such key of the service is
    found. *)
Theorem verification_key_correct self kid w :
  kr_inv (kw_storage w) → reflects (km_service_name self) (keys w) (kw_cache w) →
  (∀ ck, (get_verification_key kid w).1 = Ok (Some ck) →
     ∃ k, k ∈ keys w ∧ key_kid k = kid ∧ key_status k ≠ KeyRetired ∧ decode_key_metadata k = Ok ck) ∧
  (∀ k ck, k ∈ keys w → key_kid k = kid → verifies_in (km_service_name self) k →
     decode_key_metadata k = Ok ck → (get_verification_key kid w).1 = Ok (Some ck)).
Proof.
  intros Hi [_ Hc]. unfold get_verification_key, bind, read_cache. cbn. split.
  - intros ck. destruct (cache_verification_keys (kw_cache w) !! kid) as [c|] eqn:E.
    + intros [= <-]. apply Hc in E as (k & Hk & [_ Hv] & Ek & Ed). exists k.
      split; [done|]. split; [done|]. split; [destruct Hv; congruence|done].
    + unfold kstorage. destruct (ks_get_key_by_kid kid (kw_storage w)) as [r s'] eqn:Eg.
      destruct (kr_by_kid_law _ _ _ _ Hi Eg) as (_ & _ & Ho). destruct r as [o|]; [|done].
      specialize (Ho o eq_refl). destruct o as [m|]; [|done]. case_bool_decide as Hs; [|done].
      unfold lift. cbn. destruct (decode_key_metadata m) as [c|] eqn:Ed; [|done]. intros [= <-].
      assert (m ∈ filter (fun k => key_kid k = kid) (keys w)) as [Em Hm]%list_elem_of_filter.
      { unfold keys. destruct (filter _ _); [done|]. injection Ho as ->. left. }
      exists m. split; [done|]. split; [done|]. split; [destruct Hs; congruence|done].
  - intros k ck Hk Ek Hv Ed. assert (cache_verification_keys (kw_cache w) !! kid = Some ck) as ->; [|done].
    apply Hc. eauto.
Qed.

(** ** When the check rotates *)

(** The service's active key is [k], the cache knows it or will look, and
    nothing was added. *)
Definition settled self (k : SigningKeyMetadata) (kids : list string) w : Prop :=
  kr_inv (kw_storage w) ∧ filter (active_in (km_service_name self)) (keys w) = [k] ∧
  (key_kid <$> keys w) = kids ∧
  ((∃ ck, cache_active_key (kw_cache w) = Some ck ∧ ck_kid ck = key_kid k) ∨
   ∀ i, kc_check_interval_secs (km_config self) ≤
          (kr_instant i - cache_last_refresh (kw_cache w)) / 1000000000).

Lemma retire_all_active service t l :
  filter (active_in service) (retire_all t l) = filter (active_in service) l.
Proof.
  unfold retire_all. induction l as [|k l IH]; [done|]. cbn [map]. rewrite !filter_cons, IH.
  destruct (decide (drained_by t k)) as [[Hd _]|]; [|done].
  rewrite decide_False by (intros [_ Hs]; done). rewrite decide_False; [done|].
  intros [_ Hs]. by rewrite Hd in Hs.
Qed.

Lemma settled_refresh self k kids w :
  settled self k kids w → wp (refresh_cache self) (fun r w' => settled self k kids w' ∧
    (is_ok r = true → ∃ ck, cache_active_key (kw_cache w') = Some ck ∧ ck_kid ck = key_kid k)) w.
Proof.
  intros (Hi & Ha & Hk & Hc). eapply wp_wand; [by apply wp_refresh_cache|].
  intros r w' (Hi' & Hk' & Hr). unfold settled. rewrite Hk'.
  destruct (is_ok r); [|rewrite Hr; by split].
  assert (∃ ck, cache_active_key (kw_cache w') = Some ck ∧ ck_kid ck = key_kid k) as Hck;
    [|split; [|done]; by repeat (split; [done|]); left].
  destruct Hr as [Hr _]. rewrite Ha in Hr. cbn in Hr.
  destruct (decode_key_metadata k) as [ck|] eqn:Ed; [|done]. injection Hr as <-.
  eauto using decode_kid.
Qed.

Lemma settled_signing_key self k kids w :
  settled self k kids w → wp (get_signing_key self) (fun r w' => settled self k kids w' ∧
    ∀ o, r = Ok o → ∃ ck, o = Some ck ∧ ck_kid ck = key_kid k) w.
Proof.
  intros Hs. unfold wp, get_signing_key, is_cache_stale, bind, read_cache, kr_instant_now, ret. cbn.
  set (w1 := mkKrWorld _ _ _ _ _). assert (settled self k kids w1) as Hs1 by exact Hs.
  destruct (Z.leb_spec (kc_check_interval_secs (km_config self))
    ((kr_instant (kw_tick w) - cache_last_refresh (kw_cache w)) / 1000000000)) as [Hle|Hlt].
  - pose proof (settled_refresh self k kids w1 Hs1) as Hr. unfold wp in Hr.
    destruct (refresh_cache self w1) as [[[]|e] w2]; cbn in *; [|by destruct Hr].
    destruct Hr as [Hs2 Hc]. destruct (Hc eq_refl) as (ck & Eck & Ek). split; [done|].
    intros o [= <-]. eauto.
  - cbn. split; [exact Hs1|]. intros o [= <-].
    destruct Hs as (_ & _ & _ & [Hc|Hst]); [exact Hc|]. specialize (Hst (kw_tick w)). lia.
Qed.

Lemma settled_retire self k kids w :
  settled self k kids w → wp (retire_expired self) (fun _ w' => settled self k kids w') w.
Proof.
  intros (Hi & Ha & Hk & Hc). unfold retire_expired. apply wp_bind. cbn.
  apply wp_bind, wp_kstorage. cbn. intros r s' E. destruct (kr_retire_law _ _ _ _ Hi E) as (Hi' & Hk' & _).
  assert (settled self k kids (mkKrWorld s' (kw_cache w) (Datatypes.S (kw_tick w)) (kw_seed w) (kw_audit w)))
    as Hs'.
  { unfold settled, keys in *. cbn. rewrite Hk'. destruct (is_ok r); [|done].
    fold (retire_all (kr_time (kr_utc (kw_tick w))) (kr_contents (kw_storage w))).
    rewrite retire_all_active, retire_all_kids. done. }
  destruct r as [n|]; [|done]. apply wp_bind. destruct (0 <? n); [|exact Hs'].
  eapply wp_wand; [by apply (settled_refresh self k kids)|]. by intros [[]|e] w2 [Hs2 _].
Qed.

Lemma settled_needs_rotation self config audit k kids a w :
  key_activated_at k = Some a →
  (∀ i, Z.quot (kr_utc i - a) 1000000000 < kc_rotation_period_secs config) →
  settled self k kids w →
  wp (needs_rotation self config audit false) (fun r w' => r = Ok false ∧ settled self k kids w') w.
Proof.
  intros Hact Hage Hs. unfold needs_rotation. apply wp_bind.
  pose proof (settled_signing_key self k kids w Hs) as Hw. unfold wp, attempt in *.
  destruct (get_signing_key self w) as [r w1]. cbn in *. destruct Hw as [Hs1 Hr].
  destruct r as [o|e]; [|done]. destruct (Hr o eq_refl) as (ck & -> & Ek). unfold bind, attempt, kstorage.
  destruct (ks_get_key_by_kid _ (kw_storage w1)) as [r s2] eqn:E2. pose proof Hs1 as (Hi1 & Ha1 & Hk1 & Hc1).
  destruct (kr_by_kid_law _ _ _ _ Hi1 E2) as (Hi2 & Hc2 & Ho).
  assert (settled self k kids (mkKrWorld s2 (kw_cache w1) (kw_tick w1) (kw_seed w1) (kw_audit w1))) as Hs2.
  { unfold settled, keys in *. cbn. by rewrite Hc2. }
  destruct r as [o|e]; cbn; [|done].
  assert (k ∈ filter (active_in (km_service_name self)) (keys w1)) as [_ Hin]%list_elem_of_filter
    by (rewrite Ha1; left).
  rewrite (Ho o eq_refl), Ek, head_filter_kid, Hact by (done || by apply kr_distinct). cbn.
  split; [|exact Hs2]. f_equal. specialize (Hage (kw_tick w1)).
  destruct (Z.leb_spec (kc_rotation_period_secs config) (Z.quot (kr_utc (kw_tick w1) - a) 1000000000));
    [lia|]. apply andb_false_r.
Qed.

(** The periodic check does not rotate early: while the service's active
    key is younger than the rotation period, and the cache knows that key or
    is due for a refresh, a [CheckRotation] message adds no key and leaves
    the active key active, whatever storage errors happen on the way. *)
Theorem check_keeps_young_key self config audit w k a :
  kr_inv (kw_storage w) → filter (active_in (km_service_name self)) (keys w) = [k] →
  key_activated_at k = Some a →
  (∀ i, Z.quot (kr_utc i - a) 1000000000 < kc_rotation_period_secs config) →
  ((∃ ck, cache_active_key (kw_cache w) = Some ck ∧ ck_kid ck = key_kid k) ∨
   ∀ i, kc_check_interval_secs (km_config self) ≤
          (kr_instant i - cache_last_refresh (kw_cache w)) / 1000000000) →
  let w' := (kr_handle self config audit CheckRotation w).2 in
  (key_kid <$> keys w') = (key_kid <$> keys w) ∧
  filter (active_in (km_service_name self)) (keys w') = [k].
Proof.
  intros Hi Ha Hact Hage Hc w'.
  assert (settled self k (key_kid <$> keys w) w) as Hs by done.
  assert (wp (kr_handle self config audit CheckRotation)
    (fun _ => settled self k (key_kid <$> keys w)) w) as (_ & ? & ? & _); [|done].
  cbn [kr_handle]. unfold wp, perform_rotation_check, bind, attempt.
  pose proof (settled_retire self k _ w Hs) as Hr. unfold wp in Hr.
  destruct (retire_expired self w) as [r w1]. cbn [fst snd] in *.
  set (log := match r with Ok n => _ | Err _ => _ end).
  assert (∃ w2, log w1 = (Ok tt, w2) ∧ settled self k (key_kid <$> keys w) w2) as (w2 & El & Hs2).
  { unfold log. destruct r as [n|]; [destruct (0 <? n)|]; by eexists. }
  rewrite El. cbn [fst snd].
  destruct (settled_needs_rotation self config audit k _ a w2 Hact Hage Hs2) as [Hn Hs3].
  destruct (needs_rotation self config audit false w2) as [rn w3]. cbn [fst snd] in *. by subst rn.
Qed.

(** ** Several instances *)

(** Instances share the store, where every statement is atomic. [rotate] as
    the sequence of its statements: *)
Inductive RotPc :=
| Rot_Start
| Rot_Read (old_active : option SigningKeyMetadata)
| Rot_Drained
| Rot_Stored
| Rot_Failed (e : Error).

Definition rot_step self (now : Z) (seed : nat) (pc : RotPc) (s : S) : RotPc * S :=
  match pc with
  | Rot_Start =>
      let '(r, s) := ks_get_active_key (km_service_name self) s in
      (match r with Ok o => Rot_Read o | Err e => Rot_Failed e end, s)
  | Rot_Read (Some old) =>
      let '(r, s) := ks_update_key_status (key_kid old) KeyDraining now s in
      (match r with Ok _ => Rot_Drained | Err e => Rot_Failed e end, s)
  | Rot_Read None => (Rot_Drained, s)
  | Rot_Drained =>
      let '(r, s) := ks_store_key (new_signing_key self now seed) s in
      (match r with Ok _ => Rot_Stored | Err e => Rot_Failed e end, s)
  | _ => (pc, s)
  end.

(** Run alone, the steps are [rotate] up to its refresh of the cache. *)
Lemma rot_steps_rotate self w :
  let now := kr_utc (kw_tick w) in
  let seed := kw_seed w in
  let '(pc, s) := Nat.iter 3 (fun st => rot_step self now seed st.1 st.2) (Rot_Start, kw_storage w) in
  let w1 := mkKrWorld s (kw_cache w) (Datatypes.S (kw_tick w)) (Datatypes.S (kw_seed w)) (kw_audit w) in
  rotate self w = match pc with
                  | Rot_Failed e => (Err e, w1)
                  | _ => bind (refresh_cache self) (fun _ => ret (new_signing_key self now seed)) w1
                  end.
Proof.
  unfold rotate, bind, kr_utc_now, kr_seed, kstorage, ret. cbn.
  destruct (ks_get_active_key _ _) as [[[old|]|e] s1]; cbn; [| |done].
  - destruct (ks_update_key_status _ _ _ _) as [[[]|e] s2]; cbn; [|done].
    by destruct (ks_store_key _ _) as [[[]|e] s3].
  - by destruct (ks_store_key _ _) as [[[]|e] s3].
Qed.

(** Two instances, a schedule saying whose statement is next. *)
Definition race_step self1 self2 (now : Z) (st : RotPc * RotPc * S) (first : bool) : RotPc * RotPc * S :=
  let '(pc1, pc2, s) := st in
  if first then let '(pc1, s) := rot_step self1 now 1 pc1 s in (pc1, pc2, s)
  else let '(pc2, s) := rot_step self2 now 2 pc2 s in (pc1, pc2, s).

(** The conditional update protects the old key: an instance that read
    the active key before another instance drained it fails with an error
    and stores nothing. *)
Theorem drain_only_once self now seed s old k pc s' :
  kr_inv s → k ∈ kr_contents s → key_kid k = key_kid old → key_status k ≠ KeyActive →
  rot_step self now seed (Rot_Read (Some old)) s = (pc, s') →
  (∃ e, pc = Rot_Failed e) ∧ kr_contents s' = kr_contents s.
Proof.
  intros Hi Hk Ek Hs Hstep. cbn in Hstep. destruct (ks_update_key_status _ _ _ s) as [r s1] eqn:E.
  destruct (kr_update_law _ _ _ _ _ _ Hi E) as (_ & Hc & Hok).
  destruct r as [[]|e]; injection Hstep as <- <-; [|by eauto].
  destruct (Hok eq_refl) as (k' & Hk' & Ek' & [x Hx]).
  rewrite <-Ek in Ek'. apply (NoDup_fmap_elem_inj key_kid (kr_contents s)) in Ek' as ->;
    [|by apply kr_distinct|done..].
  cbn in Hx. by destruct (key_status k).
Qed.
End Safety.

(** ** Witnesses *)

#[local] Existing Instance witness_pg_env.

(** A second per clock reading; base64 without encoding. *)
#[local] Instance witness_key_env : KeyRotationEnv := {|
  kr_utc n := Z.of_nat n * 1000000000;
  kr_instant n := Z.of_nat n * 1000000000;
  kr_random_bytes n := replicate 32 (byte_of_Z (Z.of_nat n));
  kr_uuid_v7 n := String (ascii_of_nat (65 + n)) "";
  base64_encode := String.string_of_list_ascii;
  base64_decode s := Ok (String.list_ascii_of_string s);
  kr_blake3_hex _ := "hash";
|}.

#[local] Instance witness_key_env_laws : KeyRotationEnvLaws.
Proof. split. intros b. cbn. by rewrite String.list_ascii_of_string_of_list_ascii. Qed.

Definition witness_manager : KeyManager := mkKeyManager "svc" KeyRotationConfig_default.
Definition witness_keys_world : KrWorld PgKeyDb := mkKrWorld (mkPgKeyDb [] []) (cache_empty 0) 0 0 [].

(** After the first rotation: one active key. *)
Definition witness_rotated : KrWorld PgKeyDb := (rotate witness_manager witness_keys_world).2.

Lemma witness_keys_world_inv : kr_inv (kw_storage witness_keys_world).
Proof. split; constructor. Qed.

Lemma witness_rotated_inv : kr_inv (kw_storage witness_rotated).
Proof.
  apply (keeps_rotate (fun _ => True) ltac:(done) ltac:(done) witness_manager witness_keys_world);
    [apply witness_keys_world_inv|done].
Qed.

Lemma rotate_single_active_witness :
  let w' := (rotate witness_manager witness_rotated).2 in
  map key_status (keys w') = [KeyDraining; KeyActive] ∧
  (length (filter (active_in "svc") (keys w')) ≤ 1)%nat ∧
  still_verifies "svc" (keys witness_rotated) (keys w').
Proof.
  destruct (rotate witness_manager witness_rotated) as [r w'] eqn:E.
  destruct (rotate_single_active witness_manager witness_rotated r w' witness_rotated_inv E)
    as (Hl & Hv & _ & _); [vm_compute; lia|].
  split; [|split; [exact Hl|exact Hv]]. clear Hl Hv.
  change w' with (r, w').2. rewrite <-E. vm_compute. reflexivity.
Defined.

Definition witness_kr_ops : list KrOp :=
  [Kr_Rotate; Kr_Rotate; Kr_Message KeyRotationConfig_default true ForceRotation; Kr_RetireExpired].

Lemma rotated_keys_never_retire_witness :
  let l := keys (kr_run_all witness_manager witness_kr_ops witness_rotated) in
  length l = 4%nat ∧ ∀ k, k ∈ l → verifies_in (key_service_name k) k.
Proof.
  split; [vm_compute; reflexivity|].
  apply (rotated_keys_never_retire witness_manager witness_kr_ops witness_rotated witness_rotated_inv).
  vm_compute. repeat constructor. discriminate.
Defined.

Lemma verification_key_correct_witness :
  ∃ ck, (get_verification_key "A" witness_rotated).1 = Ok (Some ck) ∧
  ∃ k, k ∈ keys witness_rotated ∧ key_kid k = "A" ∧ key_status k ≠ KeyRetired ∧
       decode_key_metadata k = Ok ck.
Proof.
  assert (reflects "svc" (keys witness_rotated) (kw_cache witness_rotated)) as Href.
  { pose proof (wp_rotate witness_manager witness_keys_world witness_keys_world_inv) as Hw.
    unfold wp in Hw. destruct Hw as [_ [[Hw _]|(t & [[Hw _]|(now & seed & _ & [Hw|[_ Hw]])])]];
      [vm_compute in Hw; discriminate..|exact Hw]. }
  destruct (get_verification_key "A" witness_rotated).1 as [[ck|]|] eqn:E;
    [|vm_compute in E; discriminate..].
  exists ck. split; [reflexivity|].
  apply (verification_key_correct witness_manager "A" witness_rotated witness_rotated_inv Href). exact E.
Defined.

(** A clock that stands still at one second after the key was made. *)
Definition witness_still_env : KeyRotationEnv :=
  Build_KeyRotationEnv (fun _ => 1000000000) (fun _ => 1000000000) kr_random_bytes kr_uuid_v7
    base64_encode base64_decode kr_blake3_hex.

#[local] Instance witness_still_env_laws : @KeyRotationEnvLaws witness_still_env.
Proof. split. apply (@base64_roundtrip witness_key_env). apply witness_key_env_laws. Qed.

Lemma check_keeps_young_key_witness :
  let w' := (@kr_handle witness_still_env _ _ witness_manager KeyRotationConfig_default true
               CheckRotation witness_rotated).2 in
  ∃ k, keys witness_rotated = [k] ∧
  (key_kid <$> keys w') = (key_kid <$> keys witness_rotated) ∧ filter (active_in "svc") (keys w') = [k].
Proof.
  destruct (keys witness_rotated) as [|k l] eqn:Ek; [vm_compute in Ek; discriminate|].
  exists k. assert (l = []) as -> by (vm_compute in Ek; by injection Ek as _ <-).
  split; [reflexivity|].
  replace (key_kid <$> [k]) with (key_kid <$> keys witness_rotated) by (by rewrite Ek).
  apply (@check_keeps_young_key witness_still_env _ _ _ _ witness_manager KeyRotationConfig_default true
           witness_rotated k 0 witness_rotated_inv).
  - rewrite Ek. vm_compute in Ek. injection Ek as <-. vm_compute. reflexivity.
  - vm_compute in Ek. by injection Ek as <-.
  - intros i. vm_compute. reflexivity.
  - left. vm_compute in Ek. injection Ek as <-. eexists. split; vm_compute; reflexivity.
Defined.

Lemma drain_only_once_witness :
  let s := kw_storage (rotate witness_manager witness_rotated).2 in
  ∃ old pc s', rot_step witness_manager 0 9 (Rot_Read (Some old)) s = (pc, s') ∧
    (∃ e, pc = Rot_Failed e) ∧ kr_contents s' = kr_contents s.
Proof.
  set (s := kw_storage (rotate witness_manager witness_rotated).2) in *.
  destruct (kr_contents s) as [|old rest] eqn:Ek; [vm_compute in Ek; discriminate|].
  destruct (rot_step witness_manager 0 9 (Rot_Read (Some old)) s) as [pc s'] eqn:E.
  exists old, pc, s'. split; [done|].
  apply (drain_only_once witness_manager 0 9 s old old pc s');
    [|rewrite Ek; left|reflexivity| |exact E].
  - apply (keeps_rotate (fun _ => True) ltac:(done) ltac:(done) witness_manager witness_rotated);
      [apply witness_rotated_inv|done].
  - vm_compute in Ek. injection Ek as <- _. discriminate.
Defined.

(** ** What rotation lets through *)

(** Two instances rotating at the same time can leave two active keys: the
    second reads "no active key" between the first one's drain and store. *)
Theorem concurrent_rotation_two_active :
  let '(pc1, pc2, s) := fold_left (race_step witness_manager witness_manager 5)
      [true; true; false; false; true; false] (Rot_Start, Rot_Start, kw_storage witness_rotated) in
  pc1 = Rot_Stored ∧ pc2 = Rot_Stored ∧ length (filter (active_in "svc") (kr_contents s)) = 2%nat.
Proof. vm_compute. repeat split. Qed.

(** A manager's cache does not start out stale: until [check_interval_secs]
    have passed since it was created, [get_signing_key] reports no key
    although the store has an active one, and a [CheckRotation] in that time
    rotates a key that is seconds old. *)
Theorem fresh_cache_hides_active_key :
  let restarted := mkKrWorld (kw_storage witness_rotated) (cache_empty (3 * 1000000000)) 3 7 [] in
  length (filter (active_in "svc") (keys restarted)) = 1%nat ∧
  (get_signing_key witness_manager restarted).1 = Ok None ∧
  map key_status (keys (kr_handle witness_manager KeyRotationConfig_default true CheckRotation
                          restarted).2) = [KeyDraining; KeyActive].
Proof. vm_compute. repeat split. Qed.
