(* ===== verification/Text.v ===== *)
(** * Text

    The functions on [str] of Rust's standard library the components use, on
    UTF-8 byte strings: trimming, classes of characters, splitting, ASCII
    case. A character class is recognised by the bytes a character of it
    starts with; in well-formed UTF-8 those bytes occur at character
    boundaries only, so scanning bytes finds exactly the characters. *)

From stdpp Require Import countable.
From S2P Require Import Prelude.

Local Open Scope string_scope.
Local Open Scope N_scope.
Local Open Scope list_scope.

Definition code (c : ascii) : N := N_of_ascii c.

(** ** Unicode [White_Space] by encoded length *)

Definition ws1 (a : ascii) : bool := ((9 <=? code a) && (code a <=? 13)) || (code a =? 32).
Definition ws2 (a b : ascii) : bool := (code a =? 194) && ((code b =? 133) || (code b =? 160)).
Definition ws3 (a b c : ascii) : bool :=
  ((code a =? 225) && (code b =? 154) && (code c =? 128)) ||
  ((code a =? 226) && (code b =? 128) &&
     (((128 <=? code c) && (code c <=? 138)) || (code c =? 168) || (code c =? 169) || (code c =? 175))) ||
  ((code a =? 226) && (code b =? 129) && (code c =? 159)) ||
  ((code a =? 227) && (code b =? 128) && (code c =? 128)).

(** [str::trim_start]. *)
Fixpoint trim_start (s : string) : string :=
  match s with
  | EmptyString => s
  | String a s1 =>
      if ws1 a then trim_start s1
      else match s1 with
           | EmptyString => s
           | String b s2 =>
               if ws2 a b then trim_start s2
               else match s2 with
                    | EmptyString => s
                    | String c s3 => if ws3 a b c then trim_start s3 else s
                    end
           end
  end.

(** [str::trim_end]. *)
Fixpoint trim_end (s : string) : string :=
  match s with
  | EmptyString => s
  | String a s1 => if String.eqb (trim_start s) "" then "" else String a (trim_end s1)
  end.

Definition trim (s : string) : string := trim_end (trim_start s).

(** [s.chars().any(|c| c.is_whitespace() || c.is_control() || c == '\u{feff}')]. *)
Fixpoint has_blank_or_control (s : string) : bool :=
  match s with
  | EmptyString => false
  | String a s1 =>
      ws1 a || (code a <? 32) || (code a =? 127) ||
      match s1 with
      | EmptyString => false
      | String b s2 =>
          ws2 a b || ((code a =? 194) && (128 <=? code b) && (code b <=? 159)) ||
          match s2 with
          | EmptyString => false
          | String c _ => ws3 a b c || ((code a =? 239) && (code b =? 187) && (code c =? 191))
          end
      end || has_blank_or_control s1
  end.

(** ** ASCII *)

Definition is_digit (c : ascii) : bool := (48 <=? code c) && (code c <=? 57).
Definition is_hex (c : ascii) : bool :=
  is_digit c || ((97 <=? code c) && (code c <=? 102)) || ((65 <=? code c) && (code c <=? 70)).

Definition ascii_lower (c : ascii) : ascii :=
  if (65 <=? code c) && (code c <=? 90) then ascii_of_N (code c + 32) else c.

Fixpoint str_map (f : ascii → ascii) (s : string) : string :=
  match s with EmptyString => EmptyString | String c s => String (f c) (str_map f s) end.

Fixpoint str_forallb (f : ascii → bool) (s : string) : bool :=
  match s with EmptyString => true | String c s => f c && str_forallb f s end.

Definition eq_ignore_ascii_case (s t : string) : bool :=
  String.eqb (str_map ascii_lower s) (str_map ascii_lower t).

(** [str::contains] with a character. *)
Definition has_char (c : ascii) (s : string) : bool := negb (str_forallb (fun x => negb (Ascii.eqb x c)) s).

(** ** Splitting *)

(** [str::split(c)]. *)
Fixpoint split (c : ascii) (s : string) : list string :=
  match s with
  | EmptyString => [""]
  | String a s =>
      if Ascii.eqb a c then "" :: split c s
      else match split c s with
           | [] => [String a ""]
           | w :: ws => String a w :: ws
           end
  end.

(** [str::split_once(c)]. *)
Fixpoint split_once (c : ascii) (s : string) : option (string * string) :=
  match s with
  | EmptyString => None
  | String a s =>
      if Ascii.eqb a c then Some ("", s)
      else match split_once c s with Some (l, r) => Some (String a l, r) | None => None end
  end.

(** [str::rsplit_once(c)]. *)
Fixpoint rsplit_once (c : ascii) (s : string) : option (string * string) :=
  match s with
  | EmptyString => None
  | String a s =>
      match rsplit_once c s with
      | Some (l, r) => Some (String a l, r)
      | None => if Ascii.eqb a c then Some ("", s) else None
      end
  end.

(** [join] of a slice of strings. *)
Definition join (sep : string) (l : list string) : string := String.concat sep l.

(** The double quote, as a character and as a string. *)
Definition DQ : ascii := Ascii.ascii_of_nat 34.
Definition QUOTE : string := String (Ascii.ascii_of_nat 34) "".

(** [str::replace(c, by)]. *)
Fixpoint replace (c : ascii) (by_ s : string) : string :=
  match s with
  | EmptyString => EmptyString
  | String a s => if Ascii.eqb a c then by_ +:+ replace c by_ s else String a (replace c by_ s)
  end.

(** ** Facts *)

Lemma str_forallb_app f s t : str_forallb f (s +:+ t) = str_forallb f s && str_forallb f t.
Proof.
  induction s as [|a s IH]; [done|].
  change (str_forallb f (String a (s +:+ t)) = str_forallb f (String a s) && str_forallb f t).
  cbn. rewrite IH. by rewrite andb_assoc.
Qed.

Lemma split_cons c s : ∃ w ws, split c s = w :: ws.
Proof.
  induction s as [|a s (w & ws & E)]; [by eexists _, _|]. cbn.
  destruct (Ascii.eqb a c); [by eexists _, _|]. rewrite E. by eexists _, _.
Qed.

Lemma join_cons sep w ws : ws ≠ [] → join sep (w :: ws) = w +:+ sep +:+ join sep ws.
Proof. by destruct ws. Qed.

Lemma string_cons_app a s t : String a (s +:+ t) = String a s +:+ t.
Proof. done. Qed.

(** Joining with the separator inverts splitting. *)
Lemma join_split c s : join (String c "") (split c s) = s.
Proof.
  induction s as [|a s IH]; [done|]. cbn [split].
  destruct (split_cons c s) as (w & ws & E). rewrite E in *.
  destruct (Ascii.eqb_spec a c) as [->|].
  - rewrite join_cons by done. by rewrite IH.
  - destruct ws as [|w' ws]; [by rewrite <-IH|].
    rewrite join_cons in IH |- * by done. by rewrite <-IH.
Qed.

(** No part holds the separator. *)
Lemma split_no_sep c s : Forall (fun w => has_char c w = false) (split c s).
Proof.
  unfold has_char. induction s as [|a s IH]; [by repeat constructor|]. cbn [split].
  destruct (Ascii.eqb_spec a c) as [->|Hne]; [by constructor|].
  destruct (split c s) as [|w ws]; inversion IH; subst; constructor; try done; cbn;
    apply (proj2 (Ascii.eqb_neq _ _)) in Hne; by rewrite Hne.
Qed.

Lemma str_forallb_impl (f g : ascii → bool) s :
  (∀ c, f c = true → g c = true) → str_forallb f s = true → str_forallb g s = true.
Proof. intros Hfg. induction s as [|a s IH]; [done|]. cbn. rewrite !andb_true_iff. naive_solver. Qed.

Lemma has_char_cons c a w : has_char c (String a w) = Ascii.eqb a c || has_char c w.
Proof. unfold has_char. cbn. by destruct (Ascii.eqb a c). Qed.

Lemma split_word c w : has_char c w = false → split c w = [w].
Proof.
  induction w as [|a w IH]; [done|]. rewrite has_char_cons. intros [Ha Hw]%orb_false_iff. cbn.
  by rewrite Ha, IH.
Qed.

Lemma split_word_app c w s : has_char c w = false → split c (w +:+ String c s) = w :: split c s.
Proof.
  induction w as [|a w IH]; intros Hw.
  { change (split c (String c s) = "" :: split c s). cbn. by rewrite Ascii.eqb_refl. }
  rewrite has_char_cons in Hw. apply orb_false_iff in Hw as [Ha Hw].
  change (split c (String a (w +:+ String c s)) = String a w :: split c s). cbn [split].
  by rewrite Ha, IH.
Qed.

(** Splitting inverts joining words without the separator. *)
Lemma split_join c ws :
  ws ≠ [] → Forall (fun w => has_char c w = false) ws → split c (join (String c "") ws) = ws.
Proof.
  intros Hn Hw. induction Hw as [|w ws Hw Hws IH]; [done|].
  destruct ws as [|w' ws]; [by apply split_word|].
  rewrite join_cons by done.
  change (String c "" +:+ join (String c "") (w' :: ws)) with (String c (join (String c "") (w' :: ws))).
  rewrite split_word_app by done. by rewrite IH.
Qed.

(** ** Text of countable data *)

(** Serialized texts of the witnesses: a positive number in binary. *)
Fixpoint pos_text (p : positive) : string :=
  match p with xH => "" | xO p => String "0" (pos_text p) | xI p => String "1" (pos_text p) end.

Fixpoint text_pos (s : string) : positive :=
  match s with
  | EmptyString => xH
  | String a s => if Ascii.eqb a "0" then xO (text_pos s) else xI (text_pos s)
  end.

Lemma text_pos_text p : text_pos (pos_text p) = p.
Proof. induction p as [p IH|p IH|]; cbn; by rewrite ?IH. Qed.

Lemma split_once_app c w t : has_char c w = false → split_once c (w +:+ String c t) = Some (w, t).
Proof.
  induction w as [|a w IH]; [intros _; change ("" +:+ String c t) with (String c t); cbn [split_once];
    by rewrite Ascii.eqb_refl|]. rewrite has_char_cons.
  intros [Ha Hw]%orb_false_iff. change (String a w +:+ String c t) with (String a (w +:+ String c t)).
  cbn [split_once]. by rewrite Ha, (IH Hw).
Qed.

Lemma replace_app c r s t : replace c r (s +:+ t) = replace c r s +:+ replace c r t.
Proof.
  induction s as [|a s IH]; [done|]. change (String a s +:+ t) with (String a (s +:+ t)). cbn [replace]. rewrite IH.
  destruct (Ascii.eqb a c); [|done]. symmetry. apply string_app_assoc.
Qed.
