(* ===== verification/Http.v ===== *)
(** * Requests and what the middleware attaches to them

    The part of an [http::Request] the modelled middleware looks at: method,
    path, headers and the typed extensions ([Claims] of
    [src/acton-service/src/middleware/token.rs], [CallerIdentity] of
    [caller_auth.rs], [RequestContext] of [middleware/request_context.rs], the
    TLS connect-info). A layer is its gate: the request it hands on to the
    next service, or the error it answers with. Header names are lower case;
    [header_to_str] is [HeaderValue::to_str]. *)

From S2P Require Import Prelude Text FrameworkError AuditEvent.

Local Open Scope string_scope.
Local Open Scope Z_scope.
Local Open Scope list_scope.

(** ** Token claims *)

Record Claims := mkClaims {
  cl_sub : string;
  cl_email : option string;
  cl_username : option string;
  cl_roles : list string;
  cl_perms : list string;
  cl_exp : Z;
  cl_iat : option Z;
  cl_jti : option string;
  cl_iss : option string;
  cl_aud : option string;
  cl_custom : gmap string json;
}.

Definition has_role (self : Claims) (role : string) : bool := existsb (String.eqb role) (cl_roles self).
Definition has_permission (self : Claims) (perm : string) : bool := existsb (String.eqb perm) (cl_perms self).
Definition has_role_and_permission (self : Claims) (role perm : string) : bool :=
  has_role self role && has_permission self perm.
Definition is_user (self : Claims) : bool := starts_with (cl_sub self) "user:".
Definition is_client (self : Claims) : bool := starts_with (cl_sub self) "client:".
Definition user_id (self : Claims) : option string :=
  if is_user self then strip_prefix "user:" (cl_sub self) else None.
Definition client_id (self : Claims) : option string :=
  if is_client self then strip_prefix "client:" (cl_sub self) else None.

(** ** Caller names *)

Inductive SanKind := San_Dns | San_Uri.

Record CallerSan := mkCallerSan { san_kind : SanKind; san_value : string }.

#[global] Instance SanKind_eq_dec : EqDecision SanKind.
Proof. solve_decision. Defined.
#[global] Instance CallerSan_eq_dec : EqDecision CallerSan.
Proof. solve_decision. Defined.

Record CallerIdentity := mkCallerIdentity { ci_san : CallerSan; ci_waives_bearer : bool }.

(** ** Request context *)

Record RequestContext := mkRequestContext {
  ctx_ip : option string;
  ctx_request_id : option string;
  ctx_user_agent : option string;
}.

(** [RequestContext::audit_source]. *)
Definition context_audit_source (self : RequestContext) : AuditSource :=
  mkAuditSource (ctx_ip self) (ctx_user_agent self) None (ctx_request_id self).

(** ** Requests *)

Record Request := mkRequest {
  req_method : string;
  req_path : string;
  req_headers : gmap string string;
  (** [ConnectInfo<SocketAddr>]: the peer's address, as its IP. *)
  req_connect_info : option string;
  (** [ConnectInfo<TlsConnectInfo>]: the peer's IP and verified leaf certificate. *)
  req_tls_connect_info : option (string * option bytes);
  req_claims : option Claims;
  req_caller : option CallerIdentity;
  req_context : option RequestContext;
}.

Definition set_claims (c : Claims) (r : Request) : Request :=
  mkRequest (req_method r) (req_path r) (req_headers r) (req_connect_info r) (req_tls_connect_info r)
    (Some c) (req_caller r) (req_context r).

Definition set_caller (c : CallerIdentity) (r : Request) : Request :=
  mkRequest (req_method r) (req_path r) (req_headers r) (req_connect_info r) (req_tls_connect_info r)
    (req_claims r) (Some c) (req_context r).

Definition set_context (c : RequestContext) (r : Request) : Request :=
  mkRequest (req_method r) (req_path r) (req_headers r) (req_connect_info r) (req_tls_connect_info r)
    (req_claims r) (req_caller r) (Some c).

Class HttpEnv := {
  header_to_str : string → option string;
  (** [str::parse::<IpAddr>], printed in its canonical form. *)
  parse_ip : string → option string;
}.

Section Context.
Context `{HttpEnv}.

(** [header_string]. *)
Definition header_string (headers : gmap string string) (name : string) : option string :=
  headers !! name ≫= header_to_str.

Definition extract_client_ip (headers : gmap string string) (connect_info : option string)
    (trust_forwarded_headers : bool) : option string :=
  let forwarded := s ← header_string headers "x-forwarded-for"; first ← head (split "," s);
                   parse_ip (trim first) in
  let real_ip := s ← header_string headers "x-real-ip"; parse_ip (trim s) in
  if trust_forwarded_headers then
    match forwarded with
    | Some ip => Some ip
    | None => match real_ip with Some ip => Some ip | None => connect_info end
    end
  else connect_info.

Definition connect_info_remote_addr (r : Request) : option string :=
  match req_connect_info r with
  | Some addr => Some addr
  | None => fst <$> req_tls_connect_info r
  end.

(** [RequestContext::resolve]. *)
Definition resolve (headers : gmap string string) (connect_info : option string)
    (trust_forwarded_headers : bool) : RequestContext :=
  mkRequestContext (extract_client_ip headers connect_info trust_forwarded_headers)
    (header_string headers "x-request-id") (header_string headers "user-agent").

Definition request_context_middleware (trust_forwarded_headers : bool) (r : Request) : Request :=
  set_context (resolve (req_headers r) (connect_info_remote_addr r) trust_forwarded_headers) r.

Definition audit_source_from_headers (headers : gmap string string) : AuditSource :=
  mkAuditSource None (header_string headers "user-agent") None (header_string headers "x-request-id").

Definition audit_source_for_request (r : Request) : AuditSource :=
  match req_context r with
  | Some ctx => context_audit_source ctx
  | None => audit_source_from_headers (req_headers r)
  end.

(** The IP recorded for a request is the peer's unless forwarding headers are
    trusted. *)
Lemma untrusted_ip_is_peer r :
  src_ip (audit_source_for_request (request_context_middleware false r)) = connect_info_remote_addr r.
Proof. done. Qed.
End Context.
