(* ===== verification/CallerAuth.v ===== *)
(** * Certificate-based caller authorization

    [src/acton-service/src/caller_auth.rs], [CallerAuthConfig::to_policy] of
    [config.rs] and [listener_client_ca] of [service_builder.rs]: callers are
    named by the [subjectAltName]s of their verified leaf certificate and
    compared with an allowlist. X.509 parsing is a parameter: the general names
    of a certificate's SAN extension, if it has one. *)

From stdpp Require Import pretty.
From S2P Require Import Prelude Text FrameworkError AuditEvent Http.

Local Open Scope string_scope.
Local Open Scope Z_scope.
Local Open Scope list_scope.

Inductive GeneralName := DNSName (value : string) | URI (value : string) | OtherName.

Class X509Env := {
  (** [X509Certificate::from_der] and [subject_alternative_name]. *)
  x509_general_names : bytes → result (option (list GeneralName)) string;
}.

Definition MAX_SAN_LEN : Z := 1024.
Definition HTTP_PROBE_PATHS : list string := ["/health"; "/ready"].
Definition HTTP_DOC_PATH_PREFIXES : list string := ["/swagger-ui"; "/api-docs"].

(** ** Caller names *)

Definition san_kind_to_string (k : SanKind) : string :=
  match k with San_Dns => "DNS" | San_Uri => "URI" end.

Definition san_to_string (s : CallerSan) : string :=
  san_kind_to_string (san_kind s) +:+ ":" +:+ san_value s.

Inductive CallerSanError :=
| San_Empty
| San_TooLong (len max : Z)
| San_Wildcard (value : string)
| San_IllegalCharacter (value : string).

Definition san_error_to_string (e : CallerSanError) : string :=
  match e with
  | San_Empty => "subjectAltName is empty"
  | San_TooLong len max =>
      "subjectAltName is " +:+ pretty len +:+ " bytes, over the " +:+ pretty max +:+ "-byte limit"
  | San_Wildcard value =>
      "subjectAltName '" +:+ value +:+ "' contains a wildcard; a wildcard names a set of hosts, not a " +:+
      "caller identity"
  | San_IllegalCharacter value =>
      "subjectAltName '" +:+ value +:+ "' contains whitespace or control characters"
  end.

Definition san_new (kind : SanKind) (value : string) : result CallerSan CallerSanError :=
  if String.eqb value "" then Err San_Empty
  else if MAX_SAN_LEN <? Z.of_nat (String.length value)
  then Err (San_TooLong (Z.of_nat (String.length value)) MAX_SAN_LEN)
  else if has_char "*" value then Err (San_Wildcard value)
  else if has_blank_or_control value then Err (San_IllegalCharacter value)
  else Ok (mkCallerSan kind value).

Definition san_dns (value : string) := san_new San_Dns value.
Definition san_uri (value : string) := san_new San_Uri value.

Definition san_parse (entry : string) : result CallerSan CallerSanError :=
  if contains entry "://" then san_uri entry else san_dns entry.

(** ** Policy *)

Inductive CallerAuthMode := Bearer | Mtls | MtlsOrBearer.

#[global] Instance CallerAuthMode_eq_dec : EqDecision CallerAuthMode.
Proof. solve_decision. Defined.

Definition uses_client_certificates (m : CallerAuthMode) : bool :=
  match m with Mtls | MtlsOrBearer => true | Bearer => false end.

Definition mode_to_string (m : CallerAuthMode) : string :=
  match m with Bearer => "bearer" | Mtls => "mtls" | MtlsOrBearer => "mtls-or-bearer" end.

Inductive CallerAuthConfigError :=
| EmptyAllowlist
| AllowlistWithoutCertificateMode
| InvalidEntry (entry : string) (source : CallerSanError)
| MissingClientCa (mode : CallerAuthMode) (section : string)
| NoTlsListener (mode : CallerAuthMode) (section : string).

(** The [BTreeSet] of an allowlist, as a list without regard to order. *)
Abbreviation CallerAllowlist := (list CallerSan).

Definition allowlist_new (entries : list CallerSan) : result CallerAllowlist CallerAuthConfigError :=
  match entries with [] => Err EmptyAllowlist | _ => Ok entries end.

Fixpoint parse_entries (entries : list string) : result (list CallerSan) CallerAuthConfigError :=
  match entries with
  | [] => Ok []
  | entry :: entries =>
      (let? san := map_err (InvalidEntry entry) (san_parse entry) in
       let? sans := parse_entries entries in Ok (san :: sans))%rust
  end.

Definition allowlist_from_entries (entries : list string) : result CallerAllowlist CallerAuthConfigError :=
  (let? parsed := parse_entries entries in allowlist_new parsed)%rust.

Definition allowlist_contains (l : CallerAllowlist) (san : CallerSan) : bool := bool_decide (san ∈ l).

Record CallerAuthPolicy := mkPolicy {
  pol_mode : CallerAuthMode;
  pol_allowlist : option CallerAllowlist;
  pol_public_paths : list string;
}.

Definition policy_bearer : CallerAuthPolicy := mkPolicy Bearer None [].
Definition policy_mtls (l : CallerAllowlist) : CallerAuthPolicy := mkPolicy Mtls (Some l) [].
Definition policy_mtls_or_bearer (l : CallerAllowlist) : CallerAuthPolicy := mkPolicy MtlsOrBearer (Some l) [].
Definition with_public_paths (p : CallerAuthPolicy) (paths : list string) : CallerAuthPolicy :=
  mkPolicy (pol_mode p) (pol_allowlist p) paths.
Definition requires_client_ca (p : CallerAuthPolicy) : bool := uses_client_certificates (pol_mode p).

Record CallerAuthConfig := mkCallerAuthConfig {
  cac_mode : CallerAuthMode;
  cac_allowlist : list string;
  cac_public_paths : list string;
}.

Definition to_policy (self : CallerAuthConfig) : result CallerAuthPolicy CallerAuthConfigError :=
  (let? policy :=
     match cac_mode self with
     | Bearer =>
         match cac_allowlist self with
         | [] => Ok policy_bearer
         | _ => Err AllowlistWithoutCertificateMode
         end
     | Mtls => let? l := allowlist_from_entries (cac_allowlist self) in Ok (policy_mtls l)
     | MtlsOrBearer => let? l := allowlist_from_entries (cac_allowlist self) in Ok (policy_mtls_or_bearer l)
     end in
   Ok (with_public_paths policy (cac_public_paths self)))%rust.

Inductive ListenerClientCa := Verified | NotVerified | Plaintext | UnknownListener.

(** [listener_client_ca], on whether the section is there and enabled, and
    whether it names a client CA. *)
Definition listener_client_ca (tls : option (bool * option string)) : ListenerClientCa :=
  match tls with
  | Some (true, Some _) => Verified
  | Some (true, None) => NotVerified
  | _ => Plaintext
  end.

Definition validate_listener (policy : CallerAuthPolicy) (listener : ListenerClientCa) (section : string)
    : result unit CallerAuthConfigError :=
  if negb (requires_client_ca policy) then Ok tt
  else match listener with
       | Verified | UnknownListener => Ok tt
       | NotVerified => Err (MissingClientCa (pol_mode policy) section)
       | Plaintext => Err (NoTlsListener (pol_mode policy) section)
       end.

(** ** The decision *)

Inductive AuthenticatedCaller := Certificate (san : CallerSan) | BearerDeferred.

Inductive CallerAuthError :=
| NoClientCertificate
| NoCredential
| MalformedCertificate (msg : string)
| NoUsableSan
| NotAllowlisted (san : CallerSan).

Definition caller_error_to_string (e : CallerAuthError) : string :=
  match e with
  | NoClientCertificate => "no client certificate presented"
  | NoCredential => "no client certificate and no bearer credential presented"
  | MalformedCertificate msg => "client certificate could not be parsed: " +:+ msg
  | NoUsableSan => "client certificate carries no DNS or URI subjectAltName"
  | NotAllowlisted san => "caller " +:+ san_to_string san +:+ " is not on the allowlist"
  end.

Definition is_authentication_failure (e : CallerAuthError) : bool :=
  match e with
  | NoClientCertificate | NoCredential | MalformedCertificate _ => true
  | NoUsableSan | NotAllowlisted _ => false
  end.

Definition caller_error_status (e : CallerAuthError) : Z :=
  if is_authentication_failure e then 401 else 403.

Definition caller_error_code (e : CallerAuthError) : string :=
  match e with
  | NoClientCertificate => "CLIENT_CERT_REQUIRED"
  | NoCredential => "CALLER_CREDENTIAL_REQUIRED"
  | MalformedCertificate _ => "CLIENT_CERT_UNPARSABLE"
  | NoUsableSan => "CLIENT_CERT_NO_SAN"
  | NotAllowlisted _ => "CALLER_NOT_ALLOWED"
  end.

Section Decision.
Context `{X509Env} `{HttpEnv}.

(** A general name that can name a caller. *)
Definition general_name_san (g : GeneralName) : option CallerSan :=
  match g with
  | DNSName value => match san_dns value with Ok san => Some san | Err _ => None end
  | URI value => match san_uri value with Ok san => Some san | Err _ => None end
  | OtherName => None
  end.

Definition subject_alt_names (leaf_der : bytes) : result (list CallerSan) CallerAuthError :=
  match x509_general_names leaf_der with
  | Err e => Err (MalformedCertificate e)
  | Ok None => Ok []
  | Ok (Some names) => Ok (omap general_name_san names)
  end.

Definition authorize_certificate (policy : CallerAuthPolicy) (leaf_der : bytes)
    : result CallerSan CallerAuthError :=
  (let? sans := subject_alt_names leaf_der in
   match sans with
   | [] => Err NoUsableSan
   | first :: _ =>
       match pol_allowlist policy with
       | None => Err (NotAllowlisted first)
       | Some allowlist => ok_or (NotAllowlisted first) (List.find (allowlist_contains allowlist) sans)
       end
   end)%rust.

Definition authorize (policy : CallerAuthPolicy) (leaf_der : option bytes) (bearer_present : bool)
    : result AuthenticatedCaller CallerAuthError :=
  match pol_mode policy with
  | Bearer => Ok BearerDeferred
  | Mtls =>
      (let? leaf := ok_or NoClientCertificate leaf_der in
       let? san := authorize_certificate policy leaf in Ok (Certificate san))%rust
  | MtlsOrBearer =>
      let cert_outcome := match leaf_der with
                          | Some leaf => authorize_certificate policy leaf
                          | None => Err NoClientCertificate
                          end in
      match cert_outcome with
      | Ok san => Ok (Certificate san)
      | Err cert_error =>
          if bearer_present then Ok BearerDeferred
          else match cert_error with NoClientCertificate => Err NoCredential | e => Err e end
      end
  end.

(** ** The layer *)

Inductive RejectionStyle := Style_Http | Style_Grpc.

(** A refusal: a JSON error response, or a gRPC status code with its message. *)
Inductive Rejection :=
| Rej_Http (status : Z) (body : ErrorResponse)
| Rej_Grpc (code : Z) (message : string).

Definition bearer_waived (r : Request) : bool :=
  match req_caller r with Some identity => ci_waives_bearer identity | None => false end.

Definition leaf_certificate (r : Request) : option bytes := req_tls_connect_info r ≫= snd.

Definition has_bearer_credential (headers : gmap string string) : bool :=
  match header_string headers "authorization" with
  | Some value =>
      match split_once " " value with
      | Some (scheme, rest) => eq_ignore_ascii_case scheme "bearer" && negb (String.eqb rest "")
      | None => false
      end
  | None => false
  end.

Definition is_grpc_infra_path (path : string) : bool :=
  starts_with path "/grpc.health.v1.Health/" || starts_with path "/grpc.reflection.".

Definition is_exempt (style : RejectionStyle) (policy : CallerAuthPolicy) (path : string) : bool :=
  let infra := match style with
               | Style_Http => existsb (String.eqb path) HTTP_PROBE_PATHS
                               || existsb (starts_with path) HTTP_DOC_PATH_PREFIXES
               | Style_Grpc => is_grpc_infra_path path
               end in
  infra || existsb (starts_with path) (pol_public_paths policy).

Definition rejection (style : RejectionStyle) (e : CallerAuthError) : Rejection :=
  match style with
  | Style_Http =>
      let status := caller_error_status e in
      Rej_Http status (response_with_code status (caller_error_code e) (caller_error_to_string e))
  | Style_Grpc =>
      Rej_Grpc (if is_authentication_failure e then 16 else 7)
        (caller_error_to_string e +:+ " (" +:+ caller_error_code e +:+ ")")
  end.

(** [CallerAuthService::call]: the request handed to the inner service. *)
Definition caller_auth_gate (style : RejectionStyle) (policy : CallerAuthPolicy) (r : Request)
    : result Request Rejection :=
  if bool_decide (pol_mode policy = Bearer) || is_exempt style policy (req_path r) then Ok r
  else match authorize policy (leaf_certificate r) (has_bearer_credential (req_headers r)) with
       | Ok (Certificate san) =>
           Ok (set_caller (mkCallerIdentity san (bool_decide (pol_mode policy = MtlsOrBearer))) r)
       | Ok BearerDeferred => Ok r
       | Err e => Err (rejection style e)
       end.

(** ** What the layer guarantees *)

(** A name the configuration allows. *)
Definition allowed (config : CallerAuthConfig) (san : CallerSan) : Prop :=
  ∃ entry, entry ∈ cac_allowlist config ∧ san_parse entry = Ok san.

(** The certificate of the connection was parsed, with these usable names. *)
Definition presents (r : Request) (sans : list CallerSan) : Prop :=
  ∃ leaf, leaf_certificate r = Some leaf ∧ subject_alt_names leaf = Ok sans.

Definition proves (r : Request) (san : CallerSan) : Prop := ∃ sans, presents r sans ∧ san ∈ sans.

Lemma san_new_Ok kind value san :
  san_new kind value = Ok san →
  san = mkCallerSan kind value ∧ has_char "*" value = false ∧ value ≠ "".
Proof.
  unfold san_new. destruct (String.eqb_spec value ""); [done|].
  destruct (_ <? _); [done|]. destruct (has_char "*" value); [done|].
  destruct (has_blank_or_control value); [done|]. by intros [= <-].
Qed.

Lemma general_name_san_Some g san : general_name_san g = Some san → has_char "*" (san_value san) = false.
Proof.
  destruct g as [v|v|]; cbn; [..|done]; unfold san_dns, san_uri;
    destruct (san_new _ v) eqn:E; try done; intros [= <-]; by apply san_new_Ok in E as (-> & ? & _).
Qed.

Lemma proves_no_wildcard r san : proves r san → has_char "*" (san_value san) = false.
Proof.
  intros (sans & (leaf & _ & Hs) & Hin). unfold subject_alt_names in Hs.
  destruct (x509_general_names leaf) as [[names|]|]; [|set_solver..].
  injection Hs as <-. apply list_elem_of_omap in Hin as (g & _ & Hg). by eapply general_name_san_Some.
Qed.

Lemma parse_entries_Ok entries l san :
  parse_entries entries = Ok l →
  san ∈ l ↔ ∃ entry, entry ∈ entries ∧ san_parse entry = Ok san.
Proof.
  revert l. induction entries as [|entry entries IH]; intros l; cbn; [intros [= <-]; set_solver|].
  intros Hl. inv_result. match goal with Hp : parse_entries _ = Ok ?x |- _ => specialize (IH _ Hp) end.
  rewrite elem_of_cons, IH. split.
  - intros [->|(e & ? & ?)]; [exists entry|exists e]; by rewrite elem_of_cons; auto.
  - intros (e & [->|?]%elem_of_cons & ?); [left; congruence|eauto].
Qed.

Lemma from_entries_Ok entries l :
  allowlist_from_entries entries = Ok l →
  l ≠ [] ∧ ∀ san, san ∈ l ↔ ∃ entry, entry ∈ entries ∧ san_parse entry = Ok san.
Proof.
  unfold allowlist_from_entries. intros (l' & Hp & Hl)%result_bind_Ok.
  assert (l' = l ∧ l ≠ []) as [-> ?] by (destruct l'; [done|by injection Hl as <-]).
  split; [done|]. intros san. by apply parse_entries_Ok.
Qed.

(** A policy made from a configuration has an allowlist exactly when its mode
    needs one, and it is the configured one. *)
Lemma to_policy_Ok config policy :
  to_policy config = Ok policy →
  pol_mode policy = cac_mode config ∧ pol_public_paths policy = cac_public_paths config ∧
  (cac_mode config ≠ Bearer → ∃ l, pol_allowlist policy = Some l ∧ l ≠ [] ∧
     ∀ san, san ∈ l ↔ allowed config san).
Proof.
  unfold to_policy. intros Hp. inv_result. destruct (cac_mode config); cbn in *.
  - destruct (cac_allowlist config); inv_result; by cbn.
  - inv_result. cbn. split_and!; [done..|]. eauto using from_entries_Ok.
  - inv_result. cbn. split_and!; [done..|]. eauto using from_entries_Ok.
Qed.

(** Naming the caller: the certificate authorizes with an allowlisted name it
    carries, and fails only if it carries none. *)
Lemma authorize_certificate_spec policy l r leaf :
  pol_allowlist policy = Some l → leaf_certificate r = Some leaf →
  match authorize_certificate policy leaf with
  | Ok san => proves r san ∧ san ∈ l
  | Err e => (∀ san, proves r san → san ∉ l) ∧ e ≠ NoClientCertificate ∧ e ≠ NoCredential ∧
             (is_authentication_failure e = true ↔ ∀ sans, ¬ presents r sans)
  end.
Proof.
  intros Hl Hleaf. unfold authorize_certificate. destruct (subject_alt_names leaf) as [sans|e] eqn:Es; cbn.
  2:{ assert (∀ sans, ¬ presents r sans) as Hn by (intros sans (leaf' & ? & ?); congruence).
      assert (∃ msg, e = MalformedCertificate msg) as [msg ->].
      { unfold subject_alt_names in Es. destruct (x509_general_names leaf) as [[]|]; naive_solver. }
      split_and!; [|done..]. intros san (sans & Hp & _). by destruct (Hn sans). }
  assert (presents r sans) as Hp by (by exists leaf).
  assert (∀ sans', presents r sans' → sans' = sans) as Hu by (intros sans' (leaf' & ? & ?); congruence).
  destruct sans as [|first rest]; [|rewrite Hl; destruct (List.find _ _) as [san|] eqn:Ef; cbn].
  - split_and!; [|done..|]. { intros san (sans' & ->%Hu & ?); set_solver. }
    split; [done|]. intros Hn. by destruct (Hn []).
  - apply find_some in Ef as [Hin%list_elem_of_In Hb]. apply bool_decide_eq_true in Hb.
    split; [|done]. by exists (first :: rest).
  - split_and!; [|done..|].
    + intros san (sans' & ->%Hu & Hin) Hin'. eapply find_none in Ef; [|by apply list_elem_of_In].
      unfold allowlist_contains in Ef. by rewrite bool_decide_true in Ef.
    + split; [done|]. intros Hn. by destruct (Hn (first :: rest)).
Qed.

(** C9: The caller-authorization layer decides as configured. A request passes
    unchanged when the mode is [bearer], its path is exempt, or, in
    [mtls-or-bearer], no allowlisted name is proven and a bearer credential is
    there for the token middleware to judge. Otherwise it passes only with a
    [CallerIdentity] whose name the verified certificate carries, the
    configuration allows and that is no wildcard, and which waives the token
    only in [mtls-or-bearer]. It is refused exactly when none of this holds,
    with 401 if no certificate could be read and 403 if one could. *)
Theorem caller_gate_correct style config policy r :
  to_policy config = Ok policy →
  let mode := cac_mode config in
  let exempt := is_exempt style policy (req_path r) in
  let bearer := has_bearer_credential (req_headers r) in
  match caller_auth_gate style policy r with
  | Ok r' =>
      (r' = r ∧ (mode = Bearer ∨ exempt = true ∨
                 mode = MtlsOrBearer ∧ bearer = true ∧ ∀ san, proves r san → ¬ allowed config san)) ∨
      (∃ san, mode ≠ Bearer ∧ proves r san ∧ allowed config san ∧ has_char "*" (san_value san) = false ∧
              r' = set_caller (mkCallerIdentity san (bool_decide (mode = MtlsOrBearer))) r)
  | Err rej =>
      mode ≠ Bearer ∧ exempt = false ∧ (∀ san, proves r san → ¬ allowed config san) ∧
      (mode = MtlsOrBearer → bearer = false) ∧
      ∃ e, rej = rejection style e ∧ (caller_error_status e = 401 ↔ ∀ sans, ¬ presents r sans)
  end.
Proof.
  intros (Hm & _ & Hl)%to_policy_Ok. cbv zeta. unfold caller_auth_gate, authorize. rewrite Hm. clear Hm.
  destruct (decide (cac_mode config = Bearer)) as [Eb|Nb].
  { rewrite Eb, bool_decide_true by done. cbn. auto. }
  rewrite (bool_decide_false (cac_mode config = Bearer)) by done. cbn [orb].
  destruct (is_exempt style policy (req_path r)); [auto|].
  destruct (Hl Nb) as (l & El & _ & Hin). clear Hl.
  assert (∀ e, caller_error_status e = 401 ↔ is_authentication_failure e = true) as Hst.
  { intros e. unfold caller_error_status. by destruct (is_authentication_failure e). }
  destruct (leaf_certificate r) as [leaf|] eqn:Eleaf; cbn.
  - pose proof (authorize_certificate_spec policy l r leaf El Eleaf) as Hc.
    destruct (authorize_certificate policy leaf) as [san|e].
    + destruct Hc as [Hp Hs%Hin]. pose proof (proves_no_wildcard _ _ Hp).
      destruct (cac_mode config); [done|..]; cbn; right; exists san; auto 7.
    + destruct Hc as (Hn & Hne1 & Hne2 & Hau). setoid_rewrite Hin in Hn.
      destruct (cac_mode config); [done|..]; cbn.
      * split_and!; [done..|]. exists e. by rewrite Hst.
      * destruct (has_bearer_credential _); cbn; [left; auto 7|].
        destruct e; try done; cbn; (split_and!; [done..|]; eexists; split; [done|]; by rewrite Hst).
  - assert (∀ sans, ¬ presents r sans) as Hno by (intros sans (leaf & ? & _); congruence).
    assert (∀ san, proves r san → ¬ allowed config san) as Hno' by (intros san (sans & Hp & _); by destruct (Hno sans)).
    destruct (cac_mode config); [done|..]; cbn.
    + split_and!; [done..|]. by exists NoClientCertificate.
    + destruct (has_bearer_credential _); cbn; [left; auto 7|].
      split_and!; [done..|]. by exists NoCredential.
Qed.
End Decision.

(** ** A concrete deployment *)

Definition witness_http_env : HttpEnv := {| header_to_str s := Some s; parse_ip s := Some s |}.

(** Every certificate names [reporter.internal] and a wildcard. *)
Definition witness_x509_env : X509Env :=
  {| x509_general_names _ := Ok (Some [DNSName "*.internal"; DNSName "reporter.internal"]) |}.

Definition witness_caller_config : CallerAuthConfig :=
  mkCallerAuthConfig MtlsOrBearer ["spiffe://cluster/ingest"; "reporter.internal"] ["/public"].

Definition witness_request (path : string) (leaf : option bytes) : Request :=
  mkRequest "GET" path {["authorization" := "Bearer t0ken"]} None (Some ("10.0.0.7", leaf)) None None None.

Lemma caller_gate_correct_witness :
  ∃ san, @proves witness_x509_env (witness_request "/admin" (Some [])) san ∧ allowed witness_caller_config san ∧
         has_char "*" (san_value san) = false.
Proof.
  pose proof (@caller_gate_correct witness_x509_env witness_http_env Style_Http witness_caller_config
                _ (witness_request "/admin" (Some [])) eq_refl) as H.
  vm_compute in H. destruct H as [[H _]|(san & _ & Hp & Ha & Hw & _)]; [discriminate H|].
  exists san. split; [exact Hp|]. split; [exact Ha|exact Hw].
Defined.

(** A certificate mode is refused at start-up on a listener that cannot see
    client certificates, and only there. *)
Lemma validate_listener_Ok policy listener section :
  validate_listener policy listener section = Ok tt ↔
  pol_mode policy = Bearer ∨ listener = Verified ∨ listener = UnknownListener.
Proof.
  unfold validate_listener, requires_client_ca.
  destruct (pol_mode policy), listener; cbn; naive_solver.
Qed.
