(* ===== verification/Tokens.v ===== *)
(** * Tokens: claims, generation and validation

    [src/acton-service/src/auth/tokens/{mod,paseto_generator,jwt_generator}.rs]
    and the validators of [middleware/{paseto,jwt}.rs]: building claims,
    turning them into a token under the static or the rotated key, and back.
    The PASETO and JWT libraries, chrono's RFC 3339 text and serde_json's text
    are fields of [TokenEnv]; a token generator and a validator that rotate
    keys share the key manager's world. *)

From stdpp Require Import pretty.
From S2P Require Import Prelude Text FrameworkError AuditEvent Http AuditStorage KeyStorage KeyManager.

Local Open Scope string_scope.
Local Open Scope Z_scope.
Local Open Scope list_scope.

Inductive Purpose := V4Local | V4Public.

#[global] Instance Purpose_eq_dec : EqDecision Purpose.
Proof. solve_decision. Defined.

(** What the library parsers check besides the key: [check_claim] of issuer
    and audience. *)
Class TokenEnv := {
  (** [DateTime::to_rfc3339], [parse_from_rfc3339]; nanoseconds. *)
  tok_to_rfc3339 : Z → string;
  tok_parse_rfc3339 : string → option Z;
  (** [Value::to_string], [serde_json::from_str] to a [Value] and to a [Vec<String>]. *)
  json_to_string : json → string;
  json_from_str : string → result json string;
  json_from_str_vec : string → result (list string) string;
  uuid_v4 : nat → string;
  (** [CustomClaim::try_from] on the key; [ExpirationClaim]/[IssuedAtClaim::try_from]. *)
  paseto_custom_claim : string → result unit string;
  paseto_time_claim : string → result unit string;
  (** [PasetoBuilder::build] with the claims set on it and a footer, at a time. *)
  paseto_build : Z → Purpose → bytes → gmap string string → string → result string string;
  (** [PasetoParser::parse] with the token's own footer, at a time. *)
  paseto_parse : Z → Purpose → bytes → option string → option string → string → result json string;
}.

(** ** [serde_json::Value] accessors *)

Definition entries_of (v : json) : list (string * json) :=
  match v with JObject entries => entries | _ => [] end.

Fixpoint entry (k : string) (l : list (string * json)) : option json :=
  match l with
  | [] => None
  | (k', v) :: l => if String.eqb k k' then Some v else entry k l
  end.

(** [value[key]]: [Null] when it is not there. *)
Definition jget (v : json) (k : string) : json := default JNull (entry k (entries_of v)).

Definition as_str (v : json) : option string := match v with JString s => Some s | _ => None end.

Definition as_i64 (v : json) : option Z :=
  match v with
  | JNumber (PosInt n) => if n <? 2 ^ 63 then Some n else None
  | JNumber (NegInt n) => Some n
  | _ => None
  end.

(** ** The claims builder *)

Record ClaimsBuilder := mkClaimsBuilder {
  cb_sub : option string;
  cb_email : option string;
  cb_username : option string;
  cb_roles : list string;
  cb_perms : list string;
  cb_iss : option string;
  cb_aud : option string;
  cb_custom : gmap string json;
}.

Definition builder_new : ClaimsBuilder := mkClaimsBuilder None None None [] [] None None ∅.

Definition builder_subject (sub : string) (b : ClaimsBuilder) : ClaimsBuilder :=
  mkClaimsBuilder (Some sub) (cb_email b) (cb_username b) (cb_roles b) (cb_perms b) (cb_iss b) (cb_aud b) (cb_custom b).
Definition builder_user (user_id : string) (b : ClaimsBuilder) : ClaimsBuilder :=
  builder_subject ("user:" +:+ user_id) b.
Definition builder_client (client_id : string) (b : ClaimsBuilder) : ClaimsBuilder :=
  builder_subject ("client:" +:+ client_id) b.
Definition builder_roles (roles : list string) (b : ClaimsBuilder) : ClaimsBuilder :=
  mkClaimsBuilder (cb_sub b) (cb_email b) (cb_username b) (cb_roles b ++ roles) (cb_perms b) (cb_iss b) (cb_aud b) (cb_custom b).
Definition builder_permissions (perms : list string) (b : ClaimsBuilder) : ClaimsBuilder :=
  mkClaimsBuilder (cb_sub b) (cb_email b) (cb_username b) (cb_roles b) (cb_perms b ++ perms) (cb_iss b) (cb_aud b) (cb_custom b).
Definition builder_custom_claim (key : string) (value : json) (b : ClaimsBuilder) : ClaimsBuilder :=
  mkClaimsBuilder (cb_sub b) (cb_email b) (cb_username b) (cb_roles b) (cb_perms b) (cb_iss b) (cb_aud b)
    (<[key := value]> (cb_custom b)).

Definition builder_build (b : ClaimsBuilder) : result Claims Error :=
  match cb_sub b with
  | None => Err (Error_ValidationError "Subject (sub) is required")
  | Some sub => Ok (mkClaims sub (cb_email b) (cb_username b) (cb_roles b) (cb_perms b) 0 None None
                      (cb_iss b) (cb_aud b) (cb_custom b))
  end.

(** ** Generation *)

Record TokenGenerationConfig := mkTokenGenerationConfig {
  tg_access_token_lifetime_secs : Z;
  tg_issuer : option string;
  tg_audience : option string;
  tg_include_jti : bool;
}.

Record PasetoGenerator := mkPasetoGenerator {
  pg_purpose : Purpose;
  pg_key_bytes : bytes;
  pg_config : TokenGenerationConfig;
  pg_issuer : option string;
  pg_audience : option string;
  pg_key_manager : option KeyManager;
}.

Definition STANDARD_KEYS : list string := ["sub"; "exp"; "iat"; "jti"; "iss"; "aud"].
Definition KNOWN_KEYS : list string :=
  ["sub"; "exp"; "iat"; "jti"; "iss"; "aud"; "email"; "username"; "roles"; "perms"].

Section Generate.
Context `{TokenEnv}.

Definition set_opt (k : string) (o : option string) (m : gmap string json) : gmap string json :=
  match o with Some s => <[k := JString s]> m | None => m end.

Definition set_list (k : string) (l : list string) (m : gmap string json) : gmap string json :=
  match l with [] => m | _ => <[k := JArray (map JString l)]> m end.

(** The payload [generate_internal] builds: custom claims are written after
    the subject, the times and the token id, before issuer and audience. *)
Definition token_payload (self : PasetoGenerator) (claims : Claims) (now exp : Z) (jti : option string)
    : gmap string json :=
  let base := {["sub" := JString (cl_sub claims)]} in
  let base := <["exp" := JString (tok_to_rfc3339 exp)]> base in
  let base := <["iat" := JString (tok_to_rfc3339 now)]> base in
  let p := set_opt "jti" jti base in
  let p := set_opt "email" (cl_email claims) p in
  let p := set_opt "username" (cl_username claims) p in
  let p := set_list "roles" (cl_roles claims) p in
  let p := set_list "perms" (cl_perms claims) p in
  let p := cl_custom claims ∪ p in
  let issuer := match pg_issuer self with Some i => Some i | None => cl_iss claims end in
  let audience := match pg_audience self with Some a => Some a | None => cl_aud claims end in
  set_opt "aud" audience (set_opt "iss" issuer p).

(** [normalize_custom_claims]. *)
Definition normalize_custom_claims (payload : gmap string json) : gmap string json :=
  map_imap (fun k v =>
    Some (if bool_decide (k ∈ STANDARD_KEYS) then v
          else match v with JString _ => v | _ => JString (json_to_string v) end)) payload.

(** [populate_builder_claims]: the standard claims that are strings, then the
    others in the map's order. *)
Definition standard_claims (payload : gmap string json) : gmap string string :=
  omap as_str (filter (fun '(k, _) => k ∈ STANDARD_KEYS) payload).

Definition check_time_claim (what : string) (payload : gmap string json) (k : string) : result unit Error :=
  match payload !! k ≫= as_str with
  | Some s => map_err (fun e => Error_Paseto (what +:+ e)) (paseto_time_claim s)
  | None => Ok tt
  end.

Fixpoint custom_claims (entries : list (string * json)) (m : gmap string string)
    : result (gmap string string) Error :=
  match entries with
  | [] => Ok m
  | (k, v) :: entries =>
      if bool_decide (k ∈ STANDARD_KEYS) then custom_claims entries m
      else
      (let? s := ok_or (Error_Paseto ("Custom claim '" +:+ k +:+ "' is not a string after normalization"))
                   (as_str v) in
       let? _ := map_err (fun e => Error_Paseto ("Invalid '" +:+ k +:+ "' claim: " +:+ e))
                   (paseto_custom_claim k) in
       custom_claims entries (<[k := s]> m))%rust
  end.

Definition populate_builder_claims (payload : gmap string json) : result (gmap string string) Error :=
  (let? _ := check_time_claim "Invalid expiration: " payload "exp" in
   let? _ := check_time_claim "Invalid issued at: " payload "iat" in
   custom_claims (map_to_list payload) (standard_claims payload))%rust.

(** [generate_v4_local_with_footer] and [generate_v4_public_with_footer]. *)
Definition generate_with_footer (now : Z) (purpose : Purpose) (key : bytes) (payload : gmap string json)
    (footer : string) : result string Error :=
  (let? claims := populate_builder_claims (normalize_custom_claims payload) in
   map_err (fun e => Error_Paseto ("Failed to build PASETO token: " +:+ e))
     (paseto_build now purpose key claims footer))%rust.

Definition to_byte_array (n : nat) (b : bytes) : result bytes Error :=
  if decide (length b = n) then Ok b
  else Err (Error_Internal ("key material must be exactly " +:+ pretty (Z.of_nat n) +:+ " bytes, got " +:+
              pretty (Z.of_nat (length b)))).

Definition key_length (p : Purpose) : nat := match p with V4Local => 32 | V4Public => 64 end.

Context `{KeyRotationEnv} {S : Type} `{!KeyRotationStorage S}.
Local Open Scope monad_scope.

(** [generate_internal], with [expires_in] in seconds. *)
Definition generate_internal (self : PasetoGenerator) (claims : Claims) (expires_in : Z)
    : M (KrWorld S) Error string :=
  let! now := kr_utc_now in
  let exp := now + as_signed 64 expires_in * 1000000000 in
  let! jti := (if tg_include_jti (pg_config self)
               then let! seed := kr_seed in ret (Some (uuid_v4 seed)) else ret (cl_jti claims)) in
  let payload := token_payload self claims now exp jti in
  let! rotated := match pg_key_manager self with
                  | Some km => get_signing_key km
                  | None => ret None
                  end in
  match rotated with
  | Some cached =>
      let footer := json_to_string (JObject [("kid", JString (ck_kid cached))]) in
      let! key := lift (to_byte_array (key_length (pg_purpose self)) (ck_key_material cached)) in
      lift (generate_with_footer now (pg_purpose self) key payload footer)
  | None => lift (generate_with_footer now (pg_purpose self) (pg_key_bytes self) payload "")
  end.

(** [TokenGenerator::generate_token]. *)
Definition generate_token (self : PasetoGenerator) (claims : Claims) : M (KrWorld S) Error string :=
  generate_internal self claims (as_unsigned 64 (tg_access_token_lifetime_secs (pg_config self))).
End Generate.

(** ** Validation *)

Record PasetoAuth := mkPasetoAuth {
  pa_purpose : Purpose;
  pa_key_bytes : bytes;
  pa_issuer : option string;
  pa_audience : option string;
  pa_key_manager : option KeyManager;
}.

Section Validate.
Context `{TokenEnv}.

(** [v.as_str().map(String::from)] of the elements, those that are strings. *)
Definition parse_string_or_array (value : json) : list string :=
  match value with
  | JArray arr => omap as_str arr
  | JString s => match json_from_str_vec s with Ok arr => arr | Err _ => [] end
  | _ => []
  end.

(** A custom claim's value: text that is JSON is taken for the value it spells. *)
Definition parse_custom (v : json) : json :=
  match v with
  | JString s => match json_from_str s with Ok v' => v' | Err _ => v end
  | _ => v
  end.

Definition unix_seconds (ns : Z) : Z := ns / 1000000000.

Definition claim_exp (v : json) : result Z Error :=
  match as_str v with
  | Some s => match tok_parse_rfc3339 s with
              | Some t => Ok (unix_seconds t)
              | None => Err (Error_Paseto "Invalid 'exp' claim format")
              end
  | None => ok_or (Error_Paseto "Missing or invalid 'exp' claim") (as_i64 v)
  end.

Definition claim_iat (v : json) : option Z :=
  match as_str v with
  | Some s => unix_seconds <$> tok_parse_rfc3339 s
  | None => as_i64 v
  end.

Definition json_to_claims (v : json) : result Claims Error :=
  (let? sub := ok_or (Error_Paseto "Missing 'sub' claim") (as_str (jget v "sub")) in
   let? exp := claim_exp (jget v "exp") in
   let custom := list_to_map (map (fun '(k, x) => (k, parse_custom x))
                   (filter (fun '(k, _) => k ∉ KNOWN_KEYS) (entries_of v))) in
   Ok (mkClaims sub (as_str (jget v "email")) (as_str (jget v "username"))
         (parse_string_or_array (jget v "roles")) (parse_string_or_array (jget v "perms"))
         exp (claim_iat (jget v "iat")) (as_str (jget v "jti")) (as_str (jget v "iss"))
         (as_str (jget v "aud")) custom))%rust.

(** [validate_with_static_key] and [validate_with_key_bytes]. *)
Definition validate_with (now : Z) (self : PasetoAuth) (key : bytes) (token : string) : result Claims Error :=
  (let? v := map_err (fun e => Error_Paseto ("Invalid PASETO token: " +:+ e))
               (paseto_parse now (pa_purpose self) key (pa_issuer self) (pa_audience self) token) in
   json_to_claims v)%rust.

Definition validate_with_static_key (now : Z) (self : PasetoAuth) (token : string) : result Claims Error :=
  validate_with now self (pa_key_bytes self) token.

Definition validate_with_key_bytes (now : Z) (self : PasetoAuth) (token : string) (key : bytes)
    : result Claims Error :=
  if decide (length key = 32%nat) then validate_with now self key token
  else Err (Error_Internal ("rotated key material must be 32 bytes, got " +:+ pretty (Z.of_nat (length key)))).

(** The loop over the verification keys. *)
Fixpoint first_valid (now : Z) (self : PasetoAuth) (token : string) (keys : list CachedKey) : option Claims :=
  match keys with
  | [] => None
  | k :: keys => match validate_with_key_bytes now self token (ck_key_material k) with
                 | Ok claims => Some claims
                 | Err _ => first_valid now self token keys
                 end
  end.

Context `{KeyRotationEnv} {S : Type} `{!KeyRotationStorage S}.
Local Open Scope monad_scope.

(** [PasetoAuth::validate_token]; [now] is the library's reading of the clock. *)
Definition validate_token (now : Z) (self : PasetoAuth) (token : string) : M (KrWorld S) Error Claims :=
  match validate_with_static_key now self token with
  | Ok claims => ret claims
  | Err e =>
      match pa_key_manager self with
      | Some km =>
          let! keys := get_all_verification_keys km in
          lift (ok_or e (first_valid now self token keys))
      | None => fail e
      end
  end.
End Validate.

(** ** JWT *)

Inductive Algorithm := RS256 | RS384 | RS512 | ES256 | ES384 | HS256 | HS384 | HS512 | OtherAlgorithm (name : string).

(** The [jsonwebtoken] crate: a key is made for a family of algorithms;
    decoding checks signature, expiry, issuer and audience of the given
    [Validation]; encoding takes a header's algorithm and [kid]. *)
Class JwtEnv (DK EK : Type) := {
  jwt_to_uppercase : string → string;
  dk_from_rsa_pem : bytes → result DK string;
  dk_from_ec_pem : bytes → result DK string;
  dk_from_secret : bytes → DK;
  ek_from_rsa_pem : bytes → result EK string;
  ek_from_ec_pem : bytes → result EK string;
  ek_from_secret : bytes → EK;
  jwt_decode_header : string → option (option string);
  jwt_decode : Z → DK → Algorithm → option string → option string → string → result Claims string;
  jwt_encode : Algorithm → option string → Claims → EK → result string string;
}.

Section Jwt.
Context {DK EK : Type} `{!JwtEnv DK EK} `{TokenEnv}.

(** The algorithm names [JwtAuth::new] and [parse_algorithm] accept. *)
Definition algorithm_of (name : string) : option Algorithm :=
  let n := jwt_to_uppercase name in
  if String.eqb n "RS256" then Some RS256 else if String.eqb n "RS384" then Some RS384
  else if String.eqb n "RS512" then Some RS512 else if String.eqb n "ES256" then Some ES256
  else if String.eqb n "ES384" then Some ES384 else if String.eqb n "HS256" then Some HS256
  else if String.eqb n "HS384" then Some HS384 else if String.eqb n "HS512" then Some HS512 else None.

Definition create_decoding_key (a : Algorithm) (key : bytes) : result DK Error :=
  match a with
  | RS256 | RS384 | RS512 => map_err Error_Jwt (dk_from_rsa_pem key)
  | ES256 | ES384 => map_err Error_Jwt (dk_from_ec_pem key)
  | HS256 | HS384 | HS512 => Ok (dk_from_secret key)
  | OtherAlgorithm name => Err (Error_Internal ("unsupported algorithm for key rotation: " +:+ name))
  end.

Record JwtAuth := mkJwtAuth {
  ja_decoding_key : DK;
  ja_algorithm : Algorithm;
  ja_issuer : option string;
  ja_audience : option string;
  ja_key_manager : option KeyManager;
}.

Definition jwt_check (now : Z) (self : JwtAuth) (dk : DK) (token : string) : result Claims Error :=
  map_err Error_Jwt (jwt_decode now dk (ja_algorithm self) (ja_issuer self) (ja_audience self) token).

Fixpoint jwt_first_valid (now : Z) (self : JwtAuth) (token : string) (keys : list CachedKey) : option Claims :=
  match keys with
  | [] => None
  | k :: keys =>
      match create_decoding_key (ja_algorithm self) (ck_key_material k) with
      | Ok dk => match jwt_check now self dk token with
                 | Ok claims => Some claims
                 | Err _ => jwt_first_valid now self token keys
                 end
      | Err _ => jwt_first_valid now self token keys
      end
  end.

Context `{KeyRotationEnv} {S : Type} `{!KeyRotationStorage S}.
Local Open Scope monad_scope.

(** [JwtAuth::validate_token]. *)
Definition jwt_validate_token (now : Z) (self : JwtAuth) (token : string) : M (KrWorld S) Error Claims :=
  let static := lift (jwt_check now self (ja_decoding_key self) token) in
  match ja_key_manager self, jwt_decode_header token with
  | Some km, Some (Some kid) =>
      let! cached := get_verification_key kid in
      match cached with
      | Some cached =>
          let! dk := lift (create_decoding_key (ja_algorithm self) (ck_key_material cached)) in
          lift (jwt_check now self dk token)
      | None =>
          let! keys := get_all_verification_keys km in
          match jwt_first_valid now self token keys with
          | Some claims => ret claims
          | None => static
          end
      end
  | _, _ => static
  end.

(** *** Generation *)

Record JwtGenerator := mkJwtGenerator {
  jg_encoding_key : EK;
  jg_algorithm : Algorithm;
  jg_config : TokenGenerationConfig;
  jg_issuer : option string;
  jg_audience : option string;
  jg_key_manager : option KeyManager;
}.

Definition create_encoding_key (key : bytes) (a : Algorithm) : result EK Error :=
  match a with
  | RS256 | RS384 | RS512 => map_err Error_Jwt (ek_from_rsa_pem key)
  | ES256 | ES384 => map_err Error_Jwt (ek_from_ec_pem key)
  | HS256 | HS384 | HS512 => Ok (ek_from_secret key)
  | OtherAlgorithm _ => Err (Error_Config "Unsupported algorithm for key creation")
  end.

Definition or_else {A} (o o' : option A) : option A := match o with Some a => Some a | None => o' end.

(** [JwtGenerator::generate_internal]. *)
Definition jwt_generate_internal (self : JwtGenerator) (claims : Claims) (expires_in : Z)
    : M (KrWorld S) Error string :=
  let! now := kr_utc_now in
  let exp := unix_seconds now + as_signed 64 expires_in in
  let! jti := (if tg_include_jti (jg_config self)
               then let! seed := kr_seed in ret (Some (uuid_v4 seed)) else ret (cl_jti claims)) in
  let jwt_claims := mkClaims (cl_sub claims) (cl_email claims) (cl_username claims) (cl_roles claims)
    (cl_perms claims) exp (Some (unix_seconds now)) jti (or_else (jg_issuer self) (cl_iss claims))
    (or_else (jg_audience self) (cl_aud claims)) (cl_custom claims) in
  let! rotated := match jg_key_manager self with
                  | Some km => get_signing_key km
                  | None => ret None
                  end in
  match rotated with
  | Some cached =>
      let! ek := lift (create_encoding_key (ck_key_material cached) (jg_algorithm self)) in
      lift (map_err Error_Jwt (jwt_encode (jg_algorithm self) (Some (ck_kid cached)) jwt_claims ek))
  | None => lift (map_err Error_Jwt (jwt_encode (jg_algorithm self) None jwt_claims (jg_encoding_key self)))
  end.
End Jwt.
