(* ===== verification/TokenSafety.v ===== *)
(** * What issued tokens guarantee

    The round trip of a PASETO token through [PasetoGenerator::generate_token]
    and [PasetoAuth::validate_token], with static keys and across a key
    rotation. [TokenLaws] states what is relied on of rusty_paseto, chrono and
    serde_json; the witnesses run on an instance that satisfies it. *)

From stdpp Require Import pretty countable.
From S2P Require Import Prelude Text FrameworkError AuditEvent Http AuditStorage KeyStorage KeyManager KeyRotationSafety Tokens.

Local Open Scope string_scope.
Local Open Scope Z_scope.
Local Open Scope list_scope.

(** The key that opens what [key] sealed: itself for v4.local; a v4.public
    secret key is the seed followed by the public key. *)
Definition verifying_key (p : Purpose) (key : bytes) : bytes :=
  match p with V4Local => key | V4Public => drop 32 key end.

(** The expected issuer or audience, if there is one, is the token's. *)
Definition expects (expected actual : option string) : Prop := expected = None ∨ expected = actual.

(** 10000-01-01T00:00:00Z in nanoseconds. *)
Definition YEAR_10000 : Z := 253402300800000000000.

Class TokenLaws `{TokenEnv} := {
  rfc3339_roundtrip t : 0 ≤ t < YEAR_10000 → tok_parse_rfc3339 (tok_to_rfc3339 t) = Some t;
  json_vec_roundtrip l : json_from_str_vec (json_to_string (JArray (map JString l))) = Ok l;
  (** The default parser rejects a token past [exp] or before [nbf], which the
      default builder sets to the time of building; the payload is the object
      of the claims that were set and of the builder's own. *)
  paseto_open now now' p key claims footer token iss aud exp t :
    paseto_build now p key claims footer = Ok token →
    claims !! "exp" = Some exp → tok_parse_rfc3339 exp = Some t → now ≤ now' < t →
    expects iss (claims !! "iss") → expects aud (claims !! "aud") →
    ∃ entries, paseto_parse now' p (verifying_key p key) iss aud token = Ok (JObject entries) ∧
      NoDup entries.*1 ∧ (∀ k s, claims !! k = Some s → (k, JString s) ∈ entries) ∧
      (∀ k, k ∈ entries.*1 → is_Some (claims !! k) ∨ k = "nbf");
  (** A token is opened by its own key only. *)
  paseto_wrong_key now now' p key claims footer token iss aud key' :
    paseto_build now p key claims footer = Ok token → key' ≠ verifying_key p key →
    is_ok (paseto_parse now' p key' iss aud token) = false;
}.

Section Roundtrip.
Context `{TokenEnv} `{!TokenLaws}.

(** ** The payload *)

Definition claim_text (v : json) : string :=
  match v with JString s => s | _ => json_to_string v end.

Lemma custom_claims_lookup entries : ∀ m m',
  NoDup entries.*1 → custom_claims entries m = Ok m' →
  ∀ k, m' !! k = if decide (k ∈ STANDARD_KEYS) then m !! k
                 else match entry k entries with Some v => as_str v | None => m !! k end.
Proof.
  induction entries as [|[k0 v] entries IH]; intros m m' Hn Hc k; cbn in *.
  { injection Hc as ->. by case_decide. }
  apply NoDup_cons in Hn as [Hk0 Hn]. case_bool_decide as Hs.
  - rewrite (IH _ _ Hn Hc). case_decide; [done|]. by destruct (String.eqb_spec k k0) as [->|].
  - inv_result. rewrite (IH _ _ Hn Hc). case_decide as Hk.
    + rewrite lookup_insert_ne; [done|set_solver].
    + destruct (String.eqb_spec k k0) as [->|]; [|by rewrite lookup_insert_ne by done].
      enough (entry k0 entries = None) as -> by (by rewrite lookup_insert_eq).
      clear -Hk0. induction entries as [|[k v'] entries IH]; [done|]. cbn in *.
      destruct (String.eqb_spec k0 k) as [->|]; [set_solver|]. apply IH. set_solver.
Qed.

Lemma entry_elem k v entries : NoDup entries.*1 → (k, v) ∈ entries → entry k entries = Some v.
Proof.
  induction entries as [|[k0 v0] entries IH]; cbn; [set_solver|].
  intros [Hk Hn]%NoDup_cons [[= -> ->]|Hin]%elem_of_cons; [by rewrite String.eqb_refl|].
  destruct (String.eqb_spec k k0) as [->|]; [|auto].
  exfalso. apply Hk, list_elem_of_fmap. by exists (k0, v).
Qed.

Lemma entry_None k entries : k ∉ entries.*1 → entry k entries = None.
Proof.
  induction entries as [|[k0 v0] entries IH]; cbn; [done|]. intros Hk.
  destruct (String.eqb_spec k k0) as [->|]; [set_solver|]. apply IH. set_solver.
Qed.

Lemma entry_map_to_list (m : gmap string json) k : entry k (map_to_list m) = m !! k.
Proof.
  destruct (m !! k) as [v|] eqn:E.
  - apply entry_elem; [apply NoDup_fst_map_to_list|by apply elem_of_map_to_list].
  - apply entry_None. intros ([k' v] & -> & Hv%elem_of_map_to_list)%list_elem_of_fmap. cbn in E. congruence.
Qed.

(** Every claim reaches the library as its text. *)
Lemma populate_lookup payload m k :
  populate_builder_claims (normalize_custom_claims payload) = Ok m →
  m !! k = if decide (k ∈ STANDARD_KEYS) then payload !! k ≫= as_str else claim_text <$> payload !! k.
Proof.
  unfold populate_builder_claims. intros Hp. inv_result.
  rewrite (custom_claims_lookup _ _ _ (NoDup_fst_map_to_list _) Hp k), entry_map_to_list.
  unfold normalize_custom_claims, standard_claims. rewrite lookup_omap, map_lookup_filter, map_lookup_imap.
  case_decide as Hk; destruct (payload !! k) as [v|]; cbn; rewrite ?bool_decide_eq_true_2, ?bool_decide_eq_false_2 by done.
  - by rewrite option_guard_True by done.
  - done.
  - by destruct v.
  - done.
Qed.

(** The custom claims keep clear of the names the token itself uses. *)
Definition custom_clear (claims : Claims) : Prop :=
  ∀ k, k ∈ KNOWN_KEYS → cl_custom claims !! k = None.

(** What a custom value comes back as: the generator writes its text, the
    validator takes text that is JSON for the value it spells. *)
Definition reread (v : json) : json := parse_custom (JString (claim_text v)).

(** A custom value that comes back as it was: a string that does not spell
    JSON, or another value that serde_json reads back. *)
Definition survives (v : json) : Prop :=
  match v with
  | JString s => is_ok (json_from_str s) = false
  | _ => json_from_str (json_to_string v) = Ok v
  end.

Lemma survives_reread v : survives v → reread v = v.
Proof.
  unfold survives, reread, parse_custom. destruct v; cbn; try (intros ->; done).
  by destruct (json_from_str _).
Qed.

(** A string that spells JSON, such as 42 or true, comes back as the number or
    the flag that it spells. *)
Lemma string_claim_retyped s v : json_from_str s = Ok v → reread (JString s) = v.
Proof. unfold reread. cbn. by intros ->. Qed.

Lemma set_opt_lookup k o m k' :
  set_opt k o m !! k' = if decide (k = k') then (match o with Some s => Some (JString s) | None => m !! k' end) else m !! k'.
Proof. unfold set_opt. destruct o; [rewrite lookup_insert|]; by case_decide. Qed.

Lemma set_list_lookup k l m k' :
  set_list k l m !! k' =
    if decide (k = k') then (match l with [] => m !! k' | _ => Some (JArray (map JString l)) end) else m !! k'.
Proof. unfold set_list. destruct l; [|rewrite lookup_insert]; by case_decide. Qed.

(** What is found under each name of the payload. *)
Definition payload_spec (self : PasetoGenerator) (claims : Claims) (now exp : Z) (jti : option string) (k : string)
    : option json :=
  let list_of l := match l with [] => None | _ => Some (JArray (map JString l)) end in
  if String.eqb k "sub" then Some (JString (cl_sub claims))
  else if String.eqb k "exp" then Some (JString (tok_to_rfc3339 exp))
  else if String.eqb k "iat" then Some (JString (tok_to_rfc3339 now))
  else if String.eqb k "jti" then JString <$> jti
  else if String.eqb k "email" then JString <$> cl_email claims
  else if String.eqb k "username" then JString <$> cl_username claims
  else if String.eqb k "roles" then list_of (cl_roles claims)
  else if String.eqb k "perms" then list_of (cl_perms claims)
  else if String.eqb k "iss" then JString <$> or_else (pg_issuer self) (cl_iss claims)
  else if String.eqb k "aud" then JString <$> or_else (pg_audience self) (cl_aud claims)
  else cl_custom claims !! k.

Lemma known_of_spec k : k ∈ KNOWN_KEYS ∨
  ∀ self claims now exp jti, payload_spec self claims now exp jti k = cl_custom claims !! k.
Proof.
  destruct (decide (k ∈ KNOWN_KEYS)) as [|Hk]; [by left|]. right. intros. unfold payload_spec.
  repeat match goal with |- context [String.eqb k ?x] =>
    destruct (String.eqb_spec k x) as [->|]; [exfalso; apply Hk; set_solver|] end.
  done.
Qed.

Lemma token_payload_lookup self claims now exp jti k :
  custom_clear claims → token_payload self claims now exp jti !! k = payload_spec self claims now exp jti k.
Proof.
  intros Hc. unfold token_payload, or_else.
  assert (∀ k, k ∉ KNOWN_KEYS → k ≠ "iss" ∧ k ≠ "aud" ∧ k ≠ "perms" ∧ k ≠ "roles" ∧ k ≠ "username" ∧
    k ≠ "email" ∧ k ≠ "jti" ∧ k ≠ "iat" ∧ k ≠ "exp" ∧ k ≠ "sub") as Hne.
  { clear. intros k Hk. repeat split; intros ->; apply Hk; set_solver. }
  rewrite !set_opt_lookup, lookup_union, !set_list_lookup, !set_opt_lookup, !lookup_insert.
  destruct (decide (k ∈ KNOWN_KEYS)) as [Hk|Hk].
  - rewrite (Hc k Hk), (left_id_L None _). unfold KNOWN_KEYS in Hk. set_unfold in Hk.
    destruct_or! Hk; subst; cbn;
      repeat match goal with |- context [match ?x with _ => _ end] => destruct x; cbn; try done end.
  - destruct (known_of_spec k) as [|Hs]; [done|]. rewrite Hs. destruct (Hne k Hk). destruct_and!.
    rewrite !decide_False by congruence. rewrite lookup_singleton_ne by congruence. by destruct (cl_custom claims !! k).
Qed.

(** The standard claims are text already. *)
Lemma payload_text self claims now exp jti m k :
  custom_clear claims →
  populate_builder_claims (normalize_custom_claims (token_payload self claims now exp jti)) = Ok m →
  m !! k = claim_text <$> payload_spec self claims now exp jti k.
Proof.
  intros Hc Hm. rewrite (populate_lookup _ _ _ Hm), (token_payload_lookup _ _ _ _ _ _ Hc).
  case_decide as Hk; [|done]. unfold STANDARD_KEYS in Hk. set_unfold in Hk.
  destruct_or! Hk; subst; cbn; [done..|by destruct jti|by destruct (or_else _ _)|by destruct (or_else _ _)].
Qed.

(** ** Static keys *)

(** The claims a token stands for. *)
Definition issued (self : PasetoGenerator) (claims : Claims) (now exp : Z) (jti : option string) : Claims :=
  mkClaims (cl_sub claims) (cl_email claims) (cl_username claims) (cl_roles claims) (cl_perms claims)
    (unix_seconds exp) (Some (unix_seconds now)) jti (or_else (pg_issuer self) (cl_iss claims))
    (or_else (pg_audience self) (cl_aud claims)) (cl_custom claims).

(** The claims [c] that come back for the claims [c']: equal, with the custom
    claims read again, but for the [nbf] the builder adds, which is read as a
    custom claim. *)
Definition same_claims (c c' : Claims) : Prop :=
  cl_sub c = cl_sub c' ∧ cl_email c = cl_email c' ∧ cl_username c = cl_username c' ∧
  cl_roles c = cl_roles c' ∧ cl_perms c = cl_perms c' ∧ cl_exp c = cl_exp c' ∧ cl_iat c = cl_iat c' ∧
  cl_jti c = cl_jti c' ∧ cl_iss c = cl_iss c' ∧ cl_aud c = cl_aud c' ∧
  ∀ k, k ≠ "nbf" → cl_custom c !! k = reread <$> cl_custom c' !! k.

(** The validator expects this token's issuer and audience, or none. *)
Definition agree (self : PasetoGenerator) (auth : PasetoAuth) (claims : Claims) : Prop :=
  pa_purpose auth = pg_purpose self ∧
  expects (pa_issuer auth) (or_else (pg_issuer self) (cl_iss claims)) ∧
  expects (pa_audience auth) (or_else (pg_audience self) (cl_aud claims)).

Lemma jget_text (m : gmap string string) entries k :
  NoDup entries.*1 → (∀ k s, m !! k = Some s → (k, JString s) ∈ entries) →
  (∀ k, k ∈ entries.*1 → is_Some (m !! k) ∨ k = "nbf") → k ≠ "nbf" →
  entry k entries = JString <$> m !! k.
Proof.
  intros Hn Hin Hout Hk. destruct (m !! k) as [s|] eqn:E; cbn.
  - apply entry_elem; auto.
  - apply entry_None. intros [[? ?]|]%Hout; congruence.
Qed.

Lemma custom_of_entries entries k :
  NoDup entries.*1 → k ∉ KNOWN_KEYS →
  list_to_map (M := gmap string json) (map (fun '(k, x) => (k, parse_custom x))
    (filter (fun '(k, _) => k ∉ KNOWN_KEYS) entries)) !! k = parse_custom <$> entry k entries.
Proof.
  intros Hn Hk. induction entries as [|[k0 v] entries IH]; [done|]. cbn in Hn.
  apply NoDup_cons in Hn as [Hk0 Hn]. rewrite filter_cons. cbn [entry].
  destruct (String.eqb_spec k k0) as [->|Hne].
  - rewrite decide_True by done. cbn. by rewrite lookup_insert_eq.
  - case_decide; [|auto]. cbn. rewrite lookup_insert_ne by done. auto.
Qed.

Lemma custom_known entries k :
  k ∈ KNOWN_KEYS →
  list_to_map (M := gmap string json) (map (fun '(k, x) => (k, parse_custom x))
    (filter (fun '(k, _) => k ∉ KNOWN_KEYS) entries)) !! k = None.
Proof.
  intros Hk. apply not_elem_of_list_to_map_1. intros ([k' x] & -> & Hx)%list_elem_of_fmap.
  apply list_elem_of_fmap in Hx as ([k0 v] & [= -> _] & [Hx _]%list_elem_of_filter). done.
Qed.

(** Opening the object the claims were sealed as gives the claims. *)
Lemma claims_of_entries self claims now exp jti m entries :
  custom_clear claims → 0 ≤ now < YEAR_10000 → 0 ≤ exp < YEAR_10000 →
  populate_builder_claims (normalize_custom_claims (token_payload self claims now exp jti)) = Ok m →
  NoDup entries.*1 → (∀ k s, m !! k = Some s → (k, JString s) ∈ entries) →
  (∀ k, k ∈ entries.*1 → is_Some (m !! k) ∨ k = "nbf") →
  ∃ c, json_to_claims (JObject entries) = Ok c ∧ same_claims c (issued self claims now exp jti).
Proof.
  intros Hclear Hnow Hexp Hm Hn Hin Hout.
  assert (∀ k, k ≠ "nbf" → entry k entries = JString <$> (claim_text <$> payload_spec self claims now exp jti k)) as He.
  { intros k Hk. rewrite (jget_text m) by done. by rewrite (payload_text _ _ _ _ _ _ _ Hclear Hm). }
  unfold json_to_claims, jget. cbn [entries_of]. rewrite !He by done. cbn.
  unfold claim_exp, claim_iat. cbn. rewrite !rfc3339_roundtrip by done. cbn.
  eexists. split; [reflexivity|]. unfold same_claims. cbn.
  repeat split; try (by destruct (cl_email claims)); try (by destruct (cl_username claims)); try (by destruct jti);
    try (by destruct (or_else _ _)).
  - destruct (cl_roles claims) as [|r l] eqn:E; [done|].
    change (JString r :: map JString l) with (map JString (r :: l)). cbn -[map]. by rewrite json_vec_roundtrip.
  - destruct (cl_perms claims) as [|r l] eqn:E; [done|].
    change (JString r :: map JString l) with (map JString (r :: l)). cbn -[map]. by rewrite json_vec_roundtrip.
  - intros k Hk. destruct (decide (k ∈ KNOWN_KEYS)) as [Hkn|Hkn].
    + by rewrite custom_known, (Hclear k Hkn).
    + rewrite custom_of_entries, He by done. destruct (known_of_spec k) as [Hkn'|Hs]; [done|rewrite Hs].
      destruct (cl_custom claims !! k) as [v|] eqn:Ev; [|done]. cbn [fmap option_fmap option_map].
      done.
Qed.

(** The token built with [key] opens with its verifying key as long as it lasts. *)
Lemma sealed_opens self auth claims now exp jti key footer token now' :
  custom_clear claims → agree self auth claims → 0 ≤ now < YEAR_10000 → 0 ≤ exp < YEAR_10000 →
  generate_with_footer now (pg_purpose self) key (token_payload self claims now exp jti) footer = Ok token →
  now ≤ now' < exp →
  ∃ c, validate_with now' auth (verifying_key (pg_purpose self) key) token = Ok c ∧
    same_claims c (issued self claims now exp jti).
Proof.
  intros Hr (Hp & Hi & Ha) Hnow Hexp Hg Hnow'. unfold generate_with_footer in Hg.
  apply result_bind_Ok in Hg as (m & Hm & Hg). apply map_err_Ok in Hg.
  pose proof (fun k => payload_text _ _ _ _ _ _ k Hr Hm) as Hl.
  edestruct (paseto_open now now') as (entries & Ep & Hn & Hin & Hout).
  - exact Hg.
  - rewrite Hl. cbn. reflexivity.
  - by apply rfc3339_roundtrip.
  - done.
  - rewrite Hl. cbn. unfold expects in *. by destruct (or_else _ _).
  - rewrite Hl. cbn. unfold expects in *. by destruct (or_else (pg_audience _) _).
  - destruct (claims_of_entries self claims now exp jti m entries) as (c & Ec & Hc); [done..|].
    exists c. unfold validate_with. rewrite Hp. rewrite Ep. cbn. by rewrite Ec.
Qed.
End Roundtrip.

(** ** Tokens and the key manager *)

Section Rotation.
Context `{TokenEnv} `{!TokenLaws} `{KeyRotationEnv} `{!KeyRotationEnvLaws} {S : Type}
  `{!KeyRotationStorage S} `{!KeyRotationStorageLaws S}.
Implicit Types w : KrWorld S.

(** When a token issued at [now] expires. *)
Definition token_expiry (self : PasetoGenerator) (now : Z) : Z :=
  now + as_signed 64 (as_unsigned 64 (tg_access_token_lifetime_secs (pg_config self))) * 1000000000.

(** The token id: fresh when the configuration asks for one. *)
Definition token_jti (self : PasetoGenerator) (claims : Claims) (seed : nat) : option string :=
  if tg_include_jti (pg_config self) then Some (uuid_v4 seed) else cl_jti claims.

(** The claims [generate_token] issues from [w], and that they last from then
    to [now']. *)
Definition issued_at (self : PasetoGenerator) (claims : Claims) w : Claims :=
  let now := kr_utc (kw_tick w) in
  issued self claims now (token_expiry self now) (token_jti self claims (kw_seed w)).

Definition lasts (self : PasetoGenerator) w (now' : Z) : Prop :=
  let now := kr_utc (kw_tick w) in 0 ≤ now ≤ now' ∧ now' < token_expiry self now < YEAR_10000.

(** Signing: the key used is the static one without a key manager or an active
    key, the active one otherwise. *)
Lemma generate_token_inv self claims w token w' :
  generate_token self claims w = (Ok token, w') →
  let now := kr_utc (kw_tick w) in
  let payload := token_payload self claims now (token_expiry self now) (token_jti self claims (kw_seed w)) in
  ∃ w1 o, kw_storage w1 = kw_storage w ∧ kw_cache w1 = kw_cache w ∧
    (match pg_key_manager self with Some km => get_signing_key km w1 | None => (Ok None, w1) end) = (Ok o, w') ∧
    ∃ footer, match o with
    | Some ck => length (ck_key_material ck) = key_length (pg_purpose self) ∧
        generate_with_footer now (pg_purpose self) (ck_key_material ck) payload footer = Ok token
    | None => generate_with_footer now (pg_purpose self) (pg_key_bytes self) payload footer = Ok token
    end.
Proof.
  unfold generate_token, generate_internal, token_expiry, token_jti. intros Hg.
  apply bind_Ok in Hg as (now & w1 & [= <- <-] & Hg).
  apply bind_Ok in Hg as (jti & w2 & Hj & Hg). apply bind_Ok in Hg as (o & w3 & Ho & Hg).
  exists w2, o.
  assert (jti = (if tg_include_jti (pg_config self) then Some (uuid_v4 (kw_seed w)) else cl_jti claims) ∧
    kw_storage w2 = kw_storage w ∧ kw_cache w2 = kw_cache w) as (-> & -> & ->)
    by (by destruct (tg_include_jti _); injection Hj as <- <-).
  split; [done|]. split; [done|].
  assert (w3 = w') as ->.
  { destruct o as [ck|]; [apply bind_Ok in Hg as (key & w4 & Hk & Hg)|];
      unfold lift in *; [injection Hk as _ <-|]; by injection Hg. }
  split; [by destruct (pg_key_manager self)|].
  destruct o as [ck|]; [|exists ""; by injection Hg].
  apply bind_Ok in Hg as (key & w4 & [= Hk _] & [= Hg _]). eexists. unfold to_byte_array in Hk.
  case_decide; [|done]. injection Hk as <-. done.
Qed.

Lemma sealed_while_lasting self auth claims w key footer token now' :
  custom_clear claims → agree self auth claims → lasts self w now' →
  generate_with_footer (kr_utc (kw_tick w)) (pg_purpose self) key
    (token_payload self claims (kr_utc (kw_tick w)) (token_expiry self (kr_utc (kw_tick w)))
       (token_jti self claims (kw_seed w))) footer = Ok token →
  ∃ c, validate_with now' auth (verifying_key (pg_purpose self) key) token = Ok c ∧
    same_claims c (issued_at self claims w).
Proof. intros Hr Ha [Hnow Hexp] Hg. eapply sealed_opens; [done|done|..|exact Hg|]; cbv zeta in *; lia. Qed.

(** A token made with static keys comes back as the claims it was made
    from: with matching purpose, key pair, issuer and audience, validating it
    before it expires gives subject, names, roles, permissions, times, token
    id, issuer, audience and every custom claim of the caller. *)
Theorem paseto_roundtrip self auth claims w token w1 now' w2 :
  pg_key_manager self = None → custom_clear claims → agree self auth claims →
  pa_key_bytes auth = verifying_key (pg_purpose self) (pg_key_bytes self) →
  generate_token self claims w = (Ok token, w1) → lasts self w now' →
  ∃ c, validate_token now' auth token w2 = (Ok c, w2) ∧ same_claims c (issued_at self claims w).
Proof.
  intros Hkm Hr Ha Hkey Hg Hl.
  apply generate_token_inv in Hg as (w3 & o & _ & _ & Ho & footer & Hg). rewrite Hkm in Ho.
  injection Ho as <- _.
  destruct (sealed_while_lasting _ _ _ _ _ _ _ _ Hr Ha Hl Hg) as (c & Hc & Hs).
  exists c. split; [|done]. unfold validate_token, validate_with_static_key. by rewrite Hkey, Hc.
Qed.

(** *** Across a rotation *)

(** Reading through the cache keeps an up-to-date cache up to date. *)
Lemma wp_fresh_cache km w :
  kr_inv (kw_storage w) → reflects (km_service_name km) (keys w) (kw_cache w) →
  wp (let! stale := is_cache_stale km in
      (if stale then refresh_cache km else ret tt))%monad
    (fun r w' => kr_inv (kw_storage w') ∧ keys w' = keys w ∧
       reflects (km_service_name km) (keys w') (kw_cache w')) w.
Proof.
  intros Hi Hc. unfold is_cache_stale. apply wp_bind. cbn.
  destruct (kc_check_interval_secs _ <=? _); [|cbn; done].
  eapply wp_wand; [by apply wp_refresh_cache|]. intros r w' (Hi' & Hk & Hr). split; [done|].
  unfold keys in *. cbn in Hk, Hr. rewrite Hk. split; [done|].
  destruct r; cbn in Hr; [done|by rewrite Hr].
Qed.

Lemma bind_assoc {A B C} (m : M (KrWorld S) Error A) (k : A → M (KrWorld S) Error B) (k' : B → M (KrWorld S) Error C) w :
  bind m (fun a => bind (k a) k') w = bind (bind m k) k' w.
Proof. unfold bind. by destruct (m w) as [[a|] w']. Qed.

Lemma wp_signing_key km w :
  kr_inv (kw_storage w) → reflects (km_service_name km) (keys w) (kw_cache w) →
  wp (get_signing_key km) (fun r w' => kr_inv (kw_storage w') ∧ keys w' = keys w ∧
    reflects (km_service_name km) (keys w') (kw_cache w') ∧
    ∀ o, r = Ok o → o = cache_active_key (kw_cache w')) w.
Proof.
  intros Hi Hc. pose proof (wp_fresh_cache km w Hi Hc) as Hf. unfold wp, get_signing_key in *.
  rewrite bind_assoc. revert Hf. generalize (let! stale := is_cache_stale km in
    (if stale then refresh_cache km else ret tt))%monad. intros m Hf. unfold bind.
  destruct (m w) as [[[]|e] w']; cbn in *; naive_solver.
Qed.

Lemma wp_all_verification_keys km w :
  kr_inv (kw_storage w) → reflects (km_service_name km) (keys w) (kw_cache w) →
  wp (get_all_verification_keys km) (fun r w' => ∀ ks, r = Ok ks →
    ∀ k ck, k ∈ keys w → verifies_in (km_service_name km) k → decode_key_metadata k = Ok ck → ck ∈ ks) w.
Proof.
  intros Hi Hc. pose proof (wp_fresh_cache km w Hi Hc) as Hf. unfold wp, get_all_verification_keys in *.
  rewrite bind_assoc. revert Hf. generalize (let! stale := is_cache_stale km in
    (if stale then refresh_cache km else ret tt))%monad. intros m Hf. unfold bind.
  destruct (m w) as [[[]|e] w']; cbn in *; [|done]. intros ks [= <-] k ck Hk Hv Hd.
  destruct Hf as (_ & Hkeys & _ & Hr). rewrite Hkeys in Hr. apply list_elem_of_fmap.
  exists (key_kid k, ck). split; [done|]. apply elem_of_map_to_list, Hr. eauto.
Qed.

(** Trying keys in any order finds the one that sealed the token. *)
Lemma first_valid_finds now' auth token key c ks :
  validate_with now' auth key token = Ok c →
  (∀ key', key' ≠ key → is_ok (validate_with now' auth key' token) = false) →
  length key = 32%nat → (∃ ck, ck ∈ ks ∧ ck_key_material ck = key) →
  first_valid now' auth token ks = Some c.
Proof.
  intros Hv Hother Hlen (ck & Hck & Hkey).
  induction ks as [|k ks IH]; [set_solver|]. cbn [first_valid]. unfold validate_with_key_bytes.
  destruct (decide (ck_key_material k = key)) as [E|E].
  - by rewrite E, decide_True, Hv.
  - apply elem_of_cons in Hck as [->|Hck]; [done|]. specialize (IH Hck).
    case_decide; [|done]. specialize (Hother _ E).
    destruct (validate_with now' auth (ck_key_material k) token); [done|exact IH].
Qed.

Lemma validate_wrong_key now now' p auth key claims footer token key' :
  pa_purpose auth = p → generate_with_footer now p key claims footer = Ok token → key' ≠ verifying_key p key →
  is_ok (validate_with now' auth key' token) = false.
Proof.
  intros Hp Hg Hk. unfold generate_with_footer in Hg. apply result_bind_Ok in Hg as (m & _ & Hg).
  apply map_err_Ok in Hg. unfold validate_with.
  pose proof (paseto_wrong_key _ now' _ _ _ _ _ (pa_issuer auth) (pa_audience auth) _ Hg Hk) as Hw.
  rewrite Hp. by destruct (paseto_parse _ _ _ _ _ _).
Qed.

Lemma active_verifies service k : active_in service k → verifies_in service k.
Proof. unfold active_in, verifies_in. naive_solver. Qed.

(** With a key manager whose cache is up to date and an active key, tokens are
    signed with a stored active key. *)
Lemma signed_with_active self km claims w token w1 :
  kr_inv (kw_storage w) → reflects (km_service_name km) (keys w) (kw_cache w) →
  pg_key_manager self = Some km → (∃ k, k ∈ keys w ∧ active_in (km_service_name km) k) →
  generate_token self claims w = (Ok token, w1) →
  kr_inv (kw_storage w1) ∧ keys w1 = keys w ∧
  ∃ a ck footer, a ∈ keys w ∧ active_in (km_service_name km) a ∧ decode_key_metadata a = Ok ck ∧
    length (ck_key_material ck) = key_length (pg_purpose self) ∧
    generate_with_footer (kr_utc (kw_tick w)) (pg_purpose self) (ck_key_material ck)
      (token_payload self claims (kr_utc (kw_tick w)) (token_expiry self (kr_utc (kw_tick w)))
         (token_jti self claims (kw_seed w))) footer = Ok token.
Proof.
  intros Hi Hc Hkm (k & Hk & Hact) Hg.
  apply generate_token_inv in Hg as (w0 & o & Hs0 & Hc0 & Ho & footer & Hg). rewrite Hkm in Ho.
  assert (keys w0 = keys w) as Hk0 by (unfold keys; by rewrite Hs0).
  pose proof (wp_signing_key km w0 ltac:(by rewrite Hs0) ltac:(by rewrite Hk0, Hc0)) as Hsig.
  unfold wp in Hsig. rewrite Ho in Hsig. destruct Hsig as (Hi1 & Hk1 & [Hdec _] & Ho'). cbn in Hi1, Hk1, Hdec, Ho'.
  specialize (Ho' o eq_refl). rewrite Hk0 in Hk1. split; [done|]. split; [done|].
  rewrite Hk1 in Hdec. destruct (filter (active_in (km_service_name km)) (keys w)) as [|a rest] eqn:Ef.
  { exfalso. exact (filter_nil_inv _ (keys w) k Ef Hk Hact). }
  assert (a ∈ filter (active_in (km_service_name km)) (keys w)) as [Haa Ha1]%list_elem_of_filter by (rewrite Ef; left).
  cbn in Hdec. destruct (decode_key_metadata a) as [ck|] eqn:Eck; [|done].
  injection Hdec as Hdec. rewrite <-Hdec in Ho'. subst o. destruct Hg as [Hlen Hg].
  by exists a, ck, footer.
Qed.

(** After a rotation every key that verified before is tried with its material. *)
Lemma rotation_keeps_material km w1 new w2 ks a ck :
  kr_inv (kw_storage w1) → rotate km w1 = (Ok new, w2) → (get_all_verification_keys km w2).1 = Ok ks →
  a ∈ keys w1 → verifies_in (km_service_name km) a → decode_key_metadata a = Ok ck →
  ∃ ck', ck' ∈ ks ∧ ck_key_material ck' = ck_key_material ck.
Proof.
  intros Hi Hrot Hks Ha Hv Hd. pose proof (wp_rotate km w1 Hi) as Hw. unfold wp in Hw. rewrite Hrot in Hw.
  destruct Hw as [Hi2 [[Hw _]|(t & [[Hw _]|(now & seed & Hk2 & [Hw|[_ Href]])])]]; [done..|].
  cbn in Hi2, Hk2, Href.
  destruct (drained_still_verifies (km_service_name km) t (keys w1) a Ha Hv) as (k' & Hk' & _ & Hm & Hv').
  assert (∃ ck', decode_key_metadata k' = Ok ck' ∧ ck_key_material ck' = ck_key_material ck) as (ck' & Hd' & Em).
  { unfold decode_key_metadata in *. rewrite Hm. destruct (base64_decode (key_material a)); [|done].
    injection Hd as <-. eexists. split; reflexivity. }
  exists ck'. split; [|done]. pose proof (wp_all_verification_keys km w2 Hi2 Href) as Hall. unfold wp in Hall.
  apply (Hall ks Hks k' ck'); [rewrite Hk2; apply elem_of_app; by left|done..].
Qed.

(** C14: Rotating the signing key invalidates no token. Take a manager whose
    cache reflects its storage and whose service has an active key, and a v4.local
    generator and a validator that use it and agree on issuer and audience. A
    token generated from claims whose custom names are not those of standard
    claims, then a rotation that succeeds: as long as the token has not expired
    and the verification keys can be read, it validates, and to the claims it was
    issued for. Each custom claim comes back as its text is read again
    ([reread]): the same value, save for a string that spells JSON, which comes
    back as the value it spells ([string_claim_retyped]). *)
Theorem token_survives_rotation self auth km claims w token w1 new w2 now' ks :
  kr_inv (kw_storage w) → reflects (km_service_name km) (keys w) (kw_cache w) →
  pg_key_manager self = Some km → pa_key_manager auth = Some km → pg_purpose self = V4Local →
  custom_clear claims → agree self auth claims →
  (∃ k, k ∈ keys w ∧ active_in (km_service_name km) k) →
  generate_token self claims w = (Ok token, w1) → lasts self w now' →
  rotate km w1 = (Ok new, w2) → (get_all_verification_keys km w2).1 = Ok ks →
  ∃ c, (validate_token now' auth token w2).1 = Ok c ∧ same_claims c (issued_at self claims w) ∧
    ∀ k v, cl_custom claims !! k = Some v → k ≠ "nbf" → survives v → cl_custom c !! k = Some v.
Proof.
  intros Hi Hc Hkm Hkm' Hp Hr Ha Hact Hg Hl Hrot Hks.
  destruct (signed_with_active _ _ _ _ _ _ Hi Hc Hkm Hact Hg) as (Hi1 & Hk1 & a & ck & footer & Hin & Hav & Hd & Hlen & Hf).
  destruct (sealed_while_lasting _ _ _ _ _ _ _ _ Hr Ha Hl Hf) as (c & Hv & Hsame).
  rewrite Hp in Hv, Hlen. cbn in Hv, Hlen. exists c. split.
  2:{ split; [done|]. intros k v Hk Hn Hs. destruct Hsame as (_ & _ & _ & _ & _ & _ & _ & _ & _ & _ & Hcu).
      rewrite Hcu by done. change (reread <$> cl_custom claims !! k = Some v). rewrite Hk.
      by apply (f_equal Some), survives_reread. }
  assert (∀ key', key' ≠ ck_key_material ck → is_ok (validate_with now' auth key' token) = false) as Hother.
  { intros key' Hne. eapply validate_wrong_key; [apply Ha|exact Hf|]. by rewrite Hp. }
  unfold validate_token, validate_with_static_key.
  destruct (decide (pa_key_bytes auth = ck_key_material ck)) as [->|Hne]; [by rewrite Hv|].
  specialize (Hother (pa_key_bytes auth) Hne) as Hst. destruct (validate_with now' auth (pa_key_bytes auth) token); [done|].
  pose proof (rotation_keeps_material km w1 new w2 ks a ck Hi1 Hrot Hks ltac:(by rewrite Hk1)
    (active_verifies _ _ Hav) Hd) as Hck.
  rewrite Hkm'. unfold bind. destruct (get_all_verification_keys km w2) as [r w3]. cbn in Hks. subst r.
  unfold lift. cbn. by erewrite first_valid_finds.
Qed.
End Rotation.

(** ** Witnesses *)

(** An instance without cryptography: a token spells what was sealed, and the
    parser checks what the library checks. *)
Definition witness_seal (now : Z) (p : Purpose) (key : bytes) (claims : gmap string string) : string :=
  pos_text (encode (now, bool_decide (p = V4Local), key, claims)).

Definition witness_open (now' : Z) (p : Purpose) (key' : bytes) (iss aud : option string) (token : string)
    : result json string :=
  match decode (A := Z * bool * bytes * gmap string string) (text_pos token) with
  | Some (now, islocal, key, claims) =>
      let matches (e a : option string) := match e with None => true | Some _ => bool_decide (e = a) end in
      let time s := le_value (str_bytes s) in
      if bool_decide (key' = verifying_key p key) && (now <=? now') &&
         matches iss (claims !! "iss") && matches aud (claims !! "aud") &&
         (now' <? match claims !! "exp" with Some e => time e | None => 0 end)
      then Ok (JObject (map (fun '(k, s) => (k, JString s))
                 (map_to_list (claims ∪ {["nbf" := "now"]}))))
      else Err "invalid"
  | None => Err "malformed"
  end.

Definition strings_of (v : json) : list string :=
  match v with JArray items => omap as_str items | _ => [] end.

#[local] Instance witness_token_env : TokenEnv := {|
  tok_to_rfc3339 t := String.string_of_list_ascii (le_bytes 9 t);
  tok_parse_rfc3339 s := Some (le_value (str_bytes s));
  json_to_string v := match v with JBool true => "true" | _ => pos_text (encode (strings_of v)) end;
  json_from_str s := if String.eqb s "true" then Ok (JBool true) else Err "not JSON";
  json_from_str_vec s := ok_or "not a list" (decode (text_pos s));
  uuid_v4 n := "jti";
  paseto_custom_claim _ := Ok tt;
  paseto_time_claim _ := Ok tt;
  paseto_build now p key claims _ := Ok (witness_seal now p key claims);
  paseto_parse := witness_open;
|}.

#[local] Instance witness_token_laws : TokenLaws.
Proof.
  split.
  - intros t Ht. cbn. unfold str_bytes. rewrite String.list_ascii_of_string_of_list_ascii, le_value_bytes; [done|].
    unfold YEAR_10000 in Ht. change (256 ^ Z.of_nat 9) with 4722366482869645213696. lia.
  - intros l. cbn. rewrite text_pos_text. replace (omap as_str (map JString l)) with l.
    + by rewrite decode_encode.
    + induction l as [|s l IH]; cbn; [done|]. by rewrite <-IH.
  - intros now now' p key claims footer token iss aud exp t [= <-] Hexp [= Ht] Hnow Hi Ha. cbn.
    unfold witness_open, witness_seal. rewrite text_pos_text, decode_encode, bool_decide_eq_true_2 by done.
    assert (∀ e a, expects e a → match e with None => true | Some _ => bool_decide (e = a) end = true) as Hex.
    { intros [s|] a; [|done]. intros [|]; [done|]. by apply bool_decide_eq_true_2. }
    rewrite !Hex, Hexp by done. rewrite (proj2 (Z.leb_le now now')), (proj2 (Z.ltb_lt now' _)) by lia. cbn.
    eexists. split; [reflexivity|].
    assert (∀ l : list (string * string), (map (fun '(k, s) => (k, JString s)) l).*1 = l.*1) as Hfst.
    { intros l. induction l as [|[? ?] l IH]; cbn; [done|]. by rewrite <-IH. }
    rewrite Hfst. split; [apply NoDup_fst_map_to_list|]. split.
    + intros k s Hk. apply list_elem_of_fmap. exists (k, s). split; [done|].
      apply elem_of_map_to_list. by apply lookup_union_Some_l.
    + intros k ([k' s] & -> & Hk%elem_of_map_to_list)%list_elem_of_fmap. cbn.
      apply lookup_union_Some_raw in Hk as [Hk|[_ Hk]]; [left; eauto|right].
      by apply lookup_singleton_Some in Hk as [<- _].
  - intros now now' p key claims footer token iss aud key' [= <-] Hk. cbn.
    unfold witness_open, witness_seal. by rewrite text_pos_text, decode_encode, bool_decide_eq_false_2.
Qed.

#[local] Existing Instance witness_pg_env.
#[local] Existing Instance witness_key_env.
#[local] Existing Instance witness_key_env_laws.

Definition witness_generator (km : option KeyManager) : PasetoGenerator :=
  mkPasetoGenerator V4Local (replicate 32 "k"%char) (mkTokenGenerationConfig 900 None None true)
    (Some "issuer") None km.

Definition witness_validator (km : option KeyManager) : PasetoAuth :=
  mkPasetoAuth V4Local (replicate 32 "k"%char) (Some "issuer") None km.

(** A user with two roles and a flag of the application's own. *)
Definition witness_claims : Claims :=
  mkClaims "user:1" (Some "a@b.c") None ["admin"; "dev"] [] 0 None None None None
    {["beta" := JBool true]}.

Lemma witness_claims_clear : custom_clear witness_claims.
Proof. intros k Hk. unfold KNOWN_KEYS in Hk. set_unfold in Hk. destruct_or! Hk; by subst. Qed.

Lemma paseto_roundtrip_witness :
  match (generate_token (witness_generator None) witness_claims witness_keys_world).1 with
  | Ok token => ∃ c, (validate_token 5000000000 (witness_validator None) token witness_keys_world).1 = Ok c ∧
      cl_roles c = ["admin"; "dev"] ∧ cl_custom c !! "beta" = Some (JBool true)
  | Err _ => False
  end.
Proof.
  destruct (generate_token (witness_generator None) witness_claims witness_keys_world) as [[token|e] w1] eqn:E;
    [|vm_compute in E; discriminate]. cbn.
  destruct (paseto_roundtrip (witness_generator None) (witness_validator None) witness_claims
    witness_keys_world token w1 5000000000 witness_keys_world) as (c & Hc & Hs);
    [reflexivity|exact witness_claims_clear|by repeat split; [..|right|left]|reflexivity|exact E|vm_compute; repeat split; congruence|].
  exists c. rewrite Hc. split; [reflexivity|]. destruct Hs as (_ & _ & _ & Hr & _ & _ & _ & _ & _ & _ & Hcu).
  rewrite Hr, Hcu by done. split; reflexivity.
Defined.

Lemma witness_rotated_reflects : reflects "svc" (keys witness_rotated) (kw_cache witness_rotated).
Proof.
  pose proof (wp_rotate witness_manager witness_keys_world witness_keys_world_inv) as Hw.
  unfold wp in Hw. destruct Hw as [_ [[Hw _]|(t & [[Hw _]|(now & seed & _ & [Hw|[_ Hw]])])]];
    [vm_compute in Hw; discriminate..|exact Hw].
Qed.

Lemma witness_rotated_active : ∃ k, k ∈ keys witness_rotated ∧ active_in "svc" k.
Proof.
  destruct (filter (active_in "svc") (keys witness_rotated)) as [|k l] eqn:E; [vm_compute in E; discriminate|].
  assert (k ∈ filter (active_in "svc") (keys witness_rotated)) as [? ?]%list_elem_of_filter by (rewrite E; left).
  eauto.
Qed.

(** Signed under the first key of the manager, validated after the second was made. *)
Lemma token_survives_rotation_witness :
  let '(r, w1) := generate_token (witness_generator (Some witness_manager)) witness_claims witness_rotated in
  match r with
  | Ok token => ∃ c, (validate_token 60000000000 (witness_validator (Some witness_manager)) token
                        (rotate witness_manager w1).2).1 = Ok c ∧ cl_sub c = "user:1"
  | Err _ => False
  end.
Proof.
  destruct (generate_token (witness_generator (Some witness_manager)) witness_claims witness_rotated)
    as [[token|e] w1] eqn:E; [|vm_compute in E; discriminate].
  destruct (rotate witness_manager w1) as [[new|e] w2] eqn:Er.
  2:{ vm_compute in E. injection E as <- <-. vm_compute in Er. discriminate. }
  destruct (get_all_verification_keys witness_manager w2) as [[ks|e] w3] eqn:Ek.
  2:{ vm_compute in E. injection E as <- <-. vm_compute in Er. injection Er as <- <-. vm_compute in Ek. discriminate. }
  destruct (token_survives_rotation (witness_generator (Some witness_manager)) (witness_validator (Some witness_manager))
    witness_manager witness_claims witness_rotated token w1 new w2 60000000000 ks) as (c & Hc & Hs & _);
    [exact witness_rotated_inv|exact witness_rotated_reflects|reflexivity..|exact witness_claims_clear
    |by repeat split; [..|right|left]| |exact E|vm_compute; repeat split; congruence|exact Er|by rewrite Ek|].
  - exact witness_rotated_active.
  - exists c. split; [exact Hc|]. apply Hs.
Defined.
