(* ===== verification/TokenGate.v ===== *)
(** * The token layer

    [extract_token] and the traits of [src/acton-service/src/middleware/token.rs],
    [RedisTokenRevocation] of [middleware/revocation.rs], and the middleware
    function [PasetoAuth] and [JwtAuth] share ([middleware/{paseto,jwt}.rs]).
    The layer is proved against two interfaces: a validator and a revocation
    list; PASETO, JWT and Redis implement them. The layer's clock gives
    nanoseconds to the validators and milliseconds to the revocation list. *)

From S2P Require Import Prelude Text FrameworkError AuditEvent Http CallerAuth AuditStorage KeyStorage KeyManager Redis Tokens.

Local Open Scope string_scope.
Local Open Scope Z_scope.
Local Open Scope list_scope.

(** ** The traits *)

(** [TokenValidator::validate_token] at a time, over what the validator reads. *)
Class TokenValidator (V W : Type) := {
  tv_validate_token : Z → V → string → M W Error Claims;
}.

Class TokenRevocation (T W : Type) := {
  tr_is_revoked : Z → T → string → M W Error bool;
  tr_revoke : Z → T → string → Z → M W Error unit;
}.

(** What the layer relies on: checking changes nothing and tells the truth; a
    revocation lasts its time to live and touches no other token. *)
Class TokenRevocationLaws (T W : Type) `{!TokenRevocation T W} := {
  tr_revoked : T → Z → string → W → bool;
  tr_is_revoked_law self now jti w r w' : tr_is_revoked now self jti w = (r, w') →
    (∀ t j, now ≤ t → tr_revoked self t j w' = tr_revoked self t j w) ∧
    ∀ b, r = Ok b → b = tr_revoked self now jti w;
  tr_revoke_law self now jti ttl w r w' : tr_revoke now self jti ttl w = (r, w') →
    ∃ done : bool,
      (∀ t j, now ≤ t → tr_revoked self t j w' =
         if decide (done = true ∧ j = jti) then t <? now + 1000 * ttl else tr_revoked self t j w) ∧
      (is_ok r = true → done = true);
}.

#[global] Instance PasetoAuth_TokenValidator `{TokenEnv, KeyRotationEnv} {S} `{!KeyRotationStorage S}
  : TokenValidator PasetoAuth (KrWorld S) := {| tv_validate_token := validate_token |}.

#[global] Instance JwtAuth_TokenValidator {DK EK} `{!JwtEnv DK EK} `{KeyRotationEnv} {S} `{!KeyRotationStorage S}
  : TokenValidator (@JwtAuth DK) (KrWorld S) := {| tv_validate_token := jwt_validate_token |}.

(** ** Revocation in Redis *)

Record RedisTokenRevocation := mkRedisTokenRevocation { rr_key_prefix : string }.

Definition RedisTokenRevocation_new : RedisTokenRevocation := mkRedisTokenRevocation "token:revoked:".

Section RedisRevocation.
Context {R : Type} `{!Redis R}.
Local Open Scope monad_scope.

Definition revocation_key (self : RedisTokenRevocation) (jti : string) : string := rr_key_prefix self +:+ jti.

(** A command's error is reported as [Error::Internal]. *)
Definition redis_op {A} (what : string) (op : R → result A string * R) : M R Error A := fun s =>
  let '(r, s) := op s in (map_err (fun e => Error_Internal (what +:+ e)) r, s).

Definition redis_connection : M R Error unit := redis_op "Failed to get Redis connection: " rd_connect.

Definition is_revoked (now : Z) (self : RedisTokenRevocation) (jti : string) : M R Error bool :=
  redis_connection ;;
  redis_op "Failed to check revocation status: " (rd_exists now (revocation_key self jti)).

Definition revoke (now : Z) (self : RedisTokenRevocation) (jti : string) (ttl_secs : Z) : M R Error unit :=
  redis_connection ;;
  redis_op "Failed to revoke token: " (rd_set_ex now (revocation_key self jti) 1 ttl_secs).

#[global] Instance RedisTokenRevocation_TokenRevocation : TokenRevocation RedisTokenRevocation R :=
  {| tr_is_revoked := is_revoked; tr_revoke := revoke |}.

Context `{!RedisLaws R}.

Lemma redis_op_inv {A} what (op : R → result A string * R) s r s' :
  redis_op what op s = (r, s') → ∃ r0, op s = (r0, s') ∧ (∀ a, r = Ok a → r0 = Ok a).
Proof.
  unfold redis_op. destruct (op s) as [r0 s0]. intros [= <- <-]. exists r0. split; [done|].
  intros a Ha. by inv_result.
Qed.

(** A connection that fails leaves the server as it was. *)
Lemma with_connection_inv {A} (m : M R Error A) s r s' :
  (redis_connection ;; m) s = (r, s') →
  ∃ s1, (∀ t k, rd_lookup t k s1 = rd_lookup t k s) ∧ (m s1 = (r, s') ∨ is_ok r = false ∧ s' = s1).
Proof.
  unfold bind. destruct (redis_connection s) as [[[]|e] s1] eqn:Ec; intros Hm;
    apply redis_op_inv in Ec as (r0 & Ec & _); exists s1;
    (split; [intros t k; by eapply rd_connect_law|]); [by left|right]. by injection Hm as <- <-.
Qed.

#[global] Instance RedisTokenRevocation_Laws : TokenRevocationLaws RedisTokenRevocation R.
Proof.
  refine {| tr_revoked self t jti s := bool_decide (is_Some (rd_lookup t (revocation_key self jti) s)) |}.
  - intros self now jti s r s' (s1 & Hs & [Hm|[Hr ->]])%with_connection_inv.
    + apply redis_op_inv in Hm as (r0 & Hm & Hr). destruct (rd_exists_law _ _ _ _ _ Hm) as [Hk Hb].
      split; [intros t j _; by rewrite Hk, Hs|]. intros b ->. rewrite (Hb b (Hr b eq_refl)). by rewrite Hs.
    + split; [intros t j _; by rewrite Hs|]. by intros b ->.
  - intros self now jti ttl s r s' (s1 & Hs & [Hm|[Hr ->]])%with_connection_inv.
    + apply redis_op_inv in Hm as (r0 & Hm & Hr). destruct (rd_set_ex_law _ _ _ _ _ _ _ Hm) as (d & Hk & Hd & _).
      exists d. split; [|destruct r as [[]|]; [|done]; intros _; apply Hd; by rewrite (Hr tt eq_refl)].
      intros t j Ht. rewrite (rd_later now t) by done. rewrite Hk.
      destruct (decide (d = true ∧ j = jti)) as [[-> ->]|Hn].
      * rewrite decide_True by done. cbn. by destruct (t <? _).
      * rewrite decide_False by (intros [? E%string_app_inj_l]; by apply Hn).
        by rewrite Hs, <-(rd_later now t).
    + exists false. split; [|by rewrite Hr]. intros t j _. rewrite decide_False by naive_solver. by rewrite Hs.
Defined.
End RedisRevocation.

(** ** The layer *)

Record TokenAuth (V T : Type) := mkTokenAuth {
  ta_validator : V;
  ta_revocation : option T;
  ta_public_paths : list string;
}.
Arguments mkTokenAuth {V T}.
Arguments ta_validator {V T}.
Arguments ta_revocation {V T}.
Arguments ta_public_paths {V T}.

(** What the layer can reach: the validator's world, the revocation list's,
    the readings of the clock so far and the audit events sent. *)
Record GateWorld (Wv Wr : Type) := mkGateWorld {
  gw_validator : Wv;
  gw_revocation : Wr;
  gw_tick : nat;
  gw_audit : list (AuditEventKind * AuditSeverity * AuditSource * option json);
}.
Arguments mkGateWorld {Wv Wr}.
Arguments gw_validator {Wv Wr}.
Arguments gw_revocation {Wv Wr}.
Arguments gw_tick {Wv Wr}.
Arguments gw_audit {Wv Wr}.

(** [Instant] readings in nanoseconds and the revocation list's in milliseconds. *)
Class GateClock := { gate_nanos : nat → Z; gate_millis : nat → Z }.

Section Gate.
Context `{HttpEnv, GateClock} {V T Wv Wr : Type} `{!TokenValidator V Wv} `{!TokenRevocation T Wr}.
Abbreviation G := (M (GateWorld Wv Wr) Error).
Local Open Scope monad_scope.

Definition with_validator {A} (m : Z → M Wv Error A) : G A := fun w =>
  let '(r, v) := m (gate_nanos (gw_tick w)) (gw_validator w) in
  (r, mkGateWorld v (gw_revocation w) (S (gw_tick w)) (gw_audit w)).

Definition with_revocation {A} (m : Z → M Wr Error A) : G A := fun w =>
  let '(r, s) := m (gate_millis (gw_tick w)) (gw_revocation w) in
  (r, mkGateWorld (gw_validator w) s (S (gw_tick w)) (gw_audit w)).

(** [logger.log_auth] and [logger.log], when the request carries a logger
    whose configuration audits authentication events. *)
Definition gate_log (audit : bool) (kind : AuditEventKind) (severity : AuditSeverity) (source : AuditSource)
    (metadata : option json) : G unit := fun w =>
  (Ok tt, mkGateWorld (gw_validator w) (gw_revocation w) (gw_tick w)
            (if audit then gw_audit w ++ [(kind, severity, source, metadata)] else gw_audit w)).

Definition extract_token (headers : gmap string string) : result string Error :=
  (let? auth_header := ok_or (Error_Unauthorized "Missing Authorization header")
                         (header_string headers "authorization") in
   ok_or (Error_Unauthorized "Invalid Authorization header format") (strip_prefix "Bearer " auth_header))%rust.

(** The requests the layer hands on unexamined. *)
Definition is_public_path (public_paths : list string) (path : string) : bool :=
  String.eqb path "/health" || String.eqb path "/ready" || starts_with path "/swagger-ui" ||
  starts_with path "/api-docs" || existsb (starts_with path) public_paths.

Definition unexamined (auth : TokenAuth V T) (r : Request) : bool :=
  String.eqb (req_method r) "OPTIONS" || is_public_path (ta_public_paths auth) (req_path r) || bearer_waived r.

Definition with_subject (sub : string) (s : AuditSource) : AuditSource :=
  mkAuditSource (src_ip s) (src_user_agent s) (Some sub) (src_request_id s).

(** [match x { Ok(c) => c, Err(e) => { audit; return Err(e) } }]. *)
Definition or_log {A} (on_err : G unit) (m : G A) : G A :=
  let! r := attempt m in
  match r with Ok a => ret a | Err e => on_err ;; fail e end.

Definition check_revocation (auth : TokenAuth V T) (audit : bool) (source : AuditSource) (claims : Claims)
    : G unit :=
  match ta_revocation auth, cl_jti claims with
  | Some revocation, Some jti =>
      let! revoked := with_revocation (fun now => tr_is_revoked now revocation jti) in
      if (revoked : bool) then
        gate_log audit AuthTokenRevoked SevWarning (with_subject (cl_sub claims) source)
          (Some (JObject [("jti", JString jti)])) ;;
        fail (Error_Unauthorized "Token has been revoked")
      else ret tt
  | _, _ => ret tt
  end.

(** [PasetoAuth::middleware], [JwtAuth::middleware] up to [next.run(request)]:
    the request that is handed on. *)
Definition token_middleware (auth : TokenAuth V T) (audit : bool) (r : Request) : G Request :=
  if unexamined auth r then ret r
  else
  let source := audit_source_for_request r in
  let! token := or_log (gate_log audit AuthTokenMissing SevInformational source None)
                  (lift (extract_token (req_headers r))) in
  let! claims := or_log (gate_log audit AuthTokenInvalid SevWarning source None)
                   (with_validator (fun now => tv_validate_token now (ta_validator auth) token)) in
  check_revocation auth audit source claims ;;
  gate_log audit AuthLoginSuccess SevNotice (with_subject (cl_sub claims) source) None ;;
  ret (set_claims claims r).

(** Revoking a token, as a logout handler does. *)
Definition gate_revoke (revocation : T) (jti : string) (ttl_secs : Z) : G unit :=
  with_revocation (fun now => tr_revoke now revocation jti ttl_secs).

(** A service's life: requests and revocations. *)
Inductive GateOp := Gate_Request (audit : bool) (r : Request) | Gate_Revoke (jti : string) (ttl_secs : Z).

Definition gate_run (auth : TokenAuth V T) (revocation : T) (op : GateOp) (w : GateWorld Wv Wr) : GateWorld Wv Wr :=
  match op with
  | Gate_Request audit r => (token_middleware auth audit r w).2
  | Gate_Revoke jti ttl => (gate_revoke revocation jti ttl w).2
  end.

Definition gate_run_all (auth : TokenAuth V T) (revocation : T) (ops : list GateOp) (w : GateWorld Wv Wr)
    : GateWorld Wv Wr :=
  fold_left (fun w op => gate_run auth revocation op w) ops w.

(** ** What the layer guarantees *)

Context `{!TokenRevocationLaws T Wr}.
Implicit Types w : GateWorld Wv Wr.

(** [or_log] returns what [m] returns, a success unchanged. *)
Lemma or_log_Ok {A} (on_err : G unit) (m : G A) w a w' :
  or_log on_err m w = (Ok a, w') → m w = (Ok a, w').
Proof.
  unfold or_log, bind, attempt. destruct (m w) as [[a'|e] w1]; [done|]. by destruct (on_err w1) as [[]].
Qed.

Lemma or_log_ok {A} (on_err : G unit) (m : G A) w a w' :
  m w = (Ok a, w') → or_log on_err m w = (Ok a, w').
Proof. intros E. unfold or_log, bind, attempt. by rewrite E. Qed.

Lemma with_revocation_inv {A} (m : Z → M Wr Error A) w r w' :
  with_revocation m w = (r, w') →
  m (gate_millis (gw_tick w)) (gw_revocation w) = (r, gw_revocation w') ∧
  gw_tick w' = S (gw_tick w) ∧ gw_validator w' = gw_validator w ∧ gw_audit w' = gw_audit w.
Proof. unfold with_revocation. destruct (m _ _). by intros [= <- <-]. Qed.

Lemma check_revocation_Ok auth audit source claims w w' :
  check_revocation auth audit source claims w = (Ok tt, w') →
  gw_audit w' = gw_audit w ∧
  ∀ revocation jti, ta_revocation auth = Some revocation → cl_jti claims = Some jti →
    tr_revoked revocation (gate_millis (gw_tick w)) jti (gw_revocation w) = false.
Proof.
  unfold check_revocation. destruct (ta_revocation auth) as [rev|]; [|by intros [= <-]].
  destruct (cl_jti claims) as [j|]; [|by intros [= <-]].
  intros (b & w1 & Hr & Hk)%bind_Ok. apply with_revocation_inv in Hr as (Hr & _ & _ & Ha).
  apply tr_is_revoked_law in Hr as [_ Hb]. specialize (Hb b eq_refl).
  destruct b; [by apply bind_Ok in Hk as (? & ? & _ & [=])|]. injection Hk as <-.
  split; [done|]. intros ? ? [= <-] [= <-]. done.
Qed.

(** What a request that is handed on went through. *)
Lemma token_middleware_Ok auth audit r w r' w' :
  token_middleware auth audit r w = (Ok r', w') →
  (unexamined auth r = true ∧ r' = r ∧ w' = w) ∨
  (unexamined auth r = false ∧ ∃ token claims wv,
     extract_token (req_headers r) = Ok token ∧
     tv_validate_token (gate_nanos (gw_tick w)) (ta_validator auth) token (gw_validator w) = (Ok claims, wv) ∧
     r' = set_claims claims r ∧
     (∀ revocation jti, ta_revocation auth = Some revocation → cl_jti claims = Some jti →
        tr_revoked revocation (gate_millis (S (gw_tick w))) jti (gw_revocation w) = false) ∧
     gw_audit w' = gw_audit w ++
       if audit then [(AuthLoginSuccess, SevNotice,
                       with_subject (cl_sub claims) (audit_source_for_request r), None)] else []).
Proof.
  unfold token_middleware. destruct (unexamined auth r); [intros [= <- <-]; by left|].
  intros (token & w1 & Ht%or_log_Ok & Hk)%bind_Ok. right. split; [done|].
  apply bind_Ok in Hk as (claims & w2 & Hv%or_log_Ok & Hk). injection Ht as Ht <-.
  apply bind_Ok in Hk as ([] & w3 & Hc & Hk). apply bind_Ok in Hk as ([] & w4 & [= <-] & [= <- <-]).
  unfold with_validator in Hv. destruct (tv_validate_token _ _ _ _) as [rc wv] eqn:Ev. injection Hv as -> <-.
  apply check_revocation_Ok in Hc as [Ha Hrev]. cbn in Ha, Hrev |- *. exists token, claims, wv.
  repeat (split; [done|]). rewrite Ha. destruct audit; [done|]. by rewrite (right_id_L [] (++)).
Qed.

(** The log of a refusal. *)
Definition refusal (audit : bool) (kind : AuditEventKind) (severity : AuditSeverity) (source : AuditSource) (metadata : option json)
    : list (AuditEventKind * AuditSeverity * AuditSource * option json) :=
  if audit then [(kind, severity, source, metadata)] else [].

Lemma or_log_Err {A} audit kind severity source metadata (m : G A) w e w' :
  or_log (gate_log audit kind severity source metadata) m w = (Err e, w') →
  ∃ w1, m w = (Err e, w1) ∧ gw_audit w' = gw_audit w1 ++ refusal audit kind severity source metadata.
Proof.
  unfold or_log, bind, attempt, gate_log, refusal. destruct (m w) as [[a|e'] w1]; [done|]. intros [= -> <-]. exists w1. split; [done|].
  cbn. destruct audit; [done|]. by rewrite app_nil_r.
Qed.

(** Why a request is refused, what the caller is told and what is logged. *)
Lemma token_middleware_Err auth audit r w e w' :
  token_middleware auth audit r w = (Err e, w') →
  unexamined auth r = false ∧
  let source := audit_source_for_request r in
  (extract_token (req_headers r) = Err e ∧
     gw_audit w' = gw_audit w ++ refusal audit AuthTokenMissing SevInformational source None) ∨
  ∃ token, extract_token (req_headers r) = Ok token ∧
    let validation := tv_validate_token (gate_nanos (gw_tick w)) (ta_validator auth) token (gw_validator w) in
    (validation.1 = Err e ∧ gw_audit w' = gw_audit w ++ refusal audit AuthTokenInvalid SevWarning source None) ∨
    ∃ claims revocation jti, validation.1 = Ok claims ∧ ta_revocation auth = Some revocation ∧ cl_jti claims = Some jti ∧
      let lookup := (tr_is_revoked (gate_millis (S (gw_tick w))) revocation jti (gw_revocation w)).1 in
      (lookup = Err e ∧ gw_audit w' = gw_audit w) ∨
      (lookup = Ok true ∧ tr_revoked revocation (gate_millis (S (gw_tick w))) jti (gw_revocation w) = true ∧
       e = Error_Unauthorized "Token has been revoked" ∧
       gw_audit w' = gw_audit w ++ refusal audit AuthTokenRevoked SevWarning (with_subject (cl_sub claims) source)
                                     (Some (JObject [("jti", JString jti)]))).
Proof.
  unfold token_middleware. destruct (unexamined auth r); [done|]. intros E. split; [done|]. cbv zeta. unfold bind at 1 in E.
  destruct (or_log _ (lift (extract_token (req_headers r))) w) as [[token|e'] w1] eqn:E1.
  2:{ injection E as -> ->. left. apply or_log_Err in E1 as (w2 & [= Ht <-] & Ha). done. }
  apply or_log_Ok in E1. injection E1 as Ht <-. right. exists token. split; [done|]. unfold bind at 1 in E.
  match type of E with context [or_log ?l ?m w] => destruct (or_log l m w) as [[claims|e'] w1] eqn:E1 end.
  2:{ injection E as -> ->. left. apply or_log_Err in E1 as (w2 & E1 & Ha). unfold with_validator in E1.
      destruct (tv_validate_token _ _ _ _) as [rc wv]. injection E1 as -> <-. done. }
  apply or_log_Ok in E1. unfold with_validator in E1. destruct (tv_validate_token _ _ _ _) as [rc wv]. injection E1 as -> <-. right.
  unfold bind at 1 in E. destruct (check_revocation _ _ _ _ _) as [[[]|e'] w1] eqn:E1; [done|]. injection E as -> ->.
  unfold check_revocation in E1. destruct (ta_revocation auth) as [rev|]; [|done]. destruct (cl_jti claims) as [jti|] eqn:Ej; [|done].
  exists claims, rev, jti. split_and!; [done..|]. unfold bind at 1 in E1.
  destruct (with_revocation _ _) as [b w1] eqn:Er. apply with_revocation_inv in Er as (Er & _ & _ & Ha). cbn in Er, Ha. rewrite Er. cbn [fst].
  destruct b as [[]|e']; [|done|injection E1 as -> ->; by left]. right. apply tr_is_revoked_law in Er as [_ Hb].
  unfold bind, gate_log, fail in E1. injection E1 as <- <-. split_and!; [done|by rewrite (Hb true eq_refl)|done|].
  cbn. unfold refusal. rewrite Ha. destruct audit; [done|]. by rewrite app_nil_r.
Qed.

(** C8: Nothing reaches a handler past the token layer without reason: a
    request is handed on unchanged only when it is a preflight ([OPTIONS]), for a
    public path or from a caller whose certificate waives the token; otherwise
    with the claims of its own bearer token, validated at that time and not
    revoked, and the success is audited. Conversely every such request is handed
    on when the revocation list answers. Every other request is refused with the
    reason and its audit event: the header that is missing or malformed, the
    validator's error, the failure of the revocation list (which is not audited),
    or the revocation of the token. *)
Theorem token_gate_correct auth audit r w :
  (∀ r' w', token_middleware auth audit r w = (Ok r', w') →
     (unexamined auth r = true ∧ r' = r ∧ w' = w) ∨
     (unexamined auth r = false ∧ ∃ token claims wv,
        extract_token (req_headers r) = Ok token ∧
        tv_validate_token (gate_nanos (gw_tick w)) (ta_validator auth) token (gw_validator w) = (Ok claims, wv) ∧
        r' = set_claims claims r ∧
        (∀ revocation jti, ta_revocation auth = Some revocation → cl_jti claims = Some jti →
           tr_revoked revocation (gate_millis (S (gw_tick w))) jti (gw_revocation w) = false) ∧
        gw_audit w' = gw_audit w ++
          if audit then [(AuthLoginSuccess, SevNotice,
                          with_subject (cl_sub claims) (audit_source_for_request r), None)] else [])) ∧
  (∀ token claims wv, extract_token (req_headers r) = Ok token →
     tv_validate_token (gate_nanos (gw_tick w)) (ta_validator auth) token (gw_validator w) = (Ok claims, wv) →
     (∀ revocation jti, ta_revocation auth = Some revocation → cl_jti claims = Some jti →
        (tr_is_revoked (gate_millis (S (gw_tick w))) revocation jti (gw_revocation w)).1 = Ok false) →
     (token_middleware auth audit r w).1 = Ok (if unexamined auth r then r else set_claims claims r)) ∧
  (∀ e w', token_middleware auth audit r w = (Err e, w') →
     unexamined auth r = false ∧
     let source := audit_source_for_request r in
     (extract_token (req_headers r) = Err e ∧
        gw_audit w' = gw_audit w ++ refusal audit AuthTokenMissing SevInformational source None) ∨
     ∃ token, extract_token (req_headers r) = Ok token ∧
       let validation := tv_validate_token (gate_nanos (gw_tick w)) (ta_validator auth) token (gw_validator w) in
       (validation.1 = Err e ∧ gw_audit w' = gw_audit w ++ refusal audit AuthTokenInvalid SevWarning source None) ∨
       ∃ claims revocation jti, validation.1 = Ok claims ∧ ta_revocation auth = Some revocation ∧ cl_jti claims = Some jti ∧
         let lookup := (tr_is_revoked (gate_millis (S (gw_tick w))) revocation jti (gw_revocation w)).1 in
         (lookup = Err e ∧ gw_audit w' = gw_audit w) ∨
         (lookup = Ok true ∧ tr_revoked revocation (gate_millis (S (gw_tick w))) jti (gw_revocation w) = true ∧
          e = Error_Unauthorized "Token has been revoked" ∧
          gw_audit w' = gw_audit w ++ refusal audit AuthTokenRevoked SevWarning (with_subject (cl_sub claims) source)
                                        (Some (JObject [("jti", JString jti)])))).
Proof.
  split; [intros r' w'; apply token_middleware_Ok|]. split; [|intros e w'; apply token_middleware_Err].
  intros token claims wv Ht Hv Hrev. unfold token_middleware. destruct (unexamined auth r); [done|].
    unfold bind at 1. rewrite (or_log_ok _ _ w token w) by (unfold lift; by rewrite Ht).
    unfold bind at 1. erewrite or_log_ok by (unfold with_validator; rewrite Hv; reflexivity).
    unfold check_revocation. destruct (ta_revocation auth) as [rev|]; [|done].
    destruct (cl_jti claims) as [j|]; [|done]. specialize (Hrev rev j eq_refl eq_refl).
    unfold bind, with_revocation. cbn. destruct (tr_is_revoked _ _ _ _) as [b s]. cbn in Hrev. by subst b.
Qed.

(** *** Revocation is final *)

Section Monotone.
Context (gate_monotone : ∀ i j, (i ≤ j)%nat → gate_millis i ≤ gate_millis j).

(** From [w] to [w'] the clock went on and the revocation list was only read. *)
Definition reads (auth : TokenAuth V T) w w' : Prop :=
  (gw_tick w ≤ gw_tick w')%nat ∧
  ∀ revocation t jti, ta_revocation auth = Some revocation → gate_millis (gw_tick w') ≤ t →
    tr_revoked revocation t jti (gw_revocation w') = tr_revoked revocation t jti (gw_revocation w).

Lemma reads_trans auth w1 w2 w3 : reads auth w1 w2 → reads auth w2 w3 → reads auth w1 w3.
Proof.
  intros [Ht12 H12] [Ht23 H23]. split; [lia|]. intros rev t jti Hrev Ht.
  rewrite H23, H12; [done..| |done|done]. pose proof (gate_monotone _ _ Ht23). lia.
Qed.

Lemma reads_bind {A B} auth (m : G A) (k : A → G B) :
  (∀ w, reads auth w (m w).2) → (∀ a w, reads auth w (k a w).2) → ∀ w, reads auth w (bind m k w).2.
Proof.
  intros Hm Hk w. specialize (Hm w). unfold bind. destruct (m w) as [[a|e] w1]; [|done].
  exact (reads_trans _ _ _ _ Hm (Hk a w1)).
Qed.

Lemma reads_same auth w w' :
  (gw_tick w ≤ gw_tick w')%nat → gw_revocation w' = gw_revocation w → reads auth w w'.
Proof. intros Ht E. split; [done|]. by rewrite E. Qed.

Lemma reads_log auth audit k s src m w : reads auth w (gate_log audit k s src m w).2.
Proof. by apply reads_same. Qed.

Lemma reads_or_log {A} auth (on_err : G unit) (m : G A) :
  (∀ w, reads auth w (on_err w).2) → (∀ w, reads auth w (m w).2) → ∀ w, reads auth w (or_log on_err m w).2.
Proof.
  intros He Hm. apply reads_bind.
  - intros w. specialize (Hm w). unfold attempt. by destruct (m w).
  - intros [a|e] w; [by apply reads_same|]. apply reads_bind; [done|]. intros _ w'. by apply reads_same.
Qed.

Lemma check_revocation_reads auth audit source claims w :
  reads auth w (check_revocation auth audit source claims w).2.
Proof.
  unfold check_revocation. destruct (ta_revocation auth) as [rev|] eqn:Erev; [|done].
  destruct (cl_jti claims) as [j|]; [|done]. revert w. apply reads_bind.
  - intros w. destruct (with_revocation _ w) as [r w1] eqn:E. apply with_revocation_inv in E as (Er & Et & _).
    apply tr_is_revoked_law in Er as [Hk _]. cbn. split; [lia|]. rewrite Erev. intros ? t jti [= <-] Ht.
    apply Hk. pose proof (gate_monotone (gw_tick w) (gw_tick w1)). lia.
  - intros [] w; [|by apply reads_same]. revert w. apply reads_bind; [intros w; apply reads_log|].
    intros _ w. by apply reads_same.
Qed.

(** Requests only read the revocation list. *)
Lemma token_middleware_reads auth audit r w : reads auth w (token_middleware auth audit r w).2.
Proof.
  unfold token_middleware. destruct (unexamined auth r); [by apply reads_same|]. revert w.
  apply reads_bind; [|intros token; apply reads_bind; [|intros claims; apply reads_bind;
    [|intros _; apply reads_bind]]].
  - apply reads_or_log; [intros w; apply reads_log|]. intros w. by apply reads_same.
  - apply reads_or_log; [intros w; apply reads_log|]. intros w. unfold with_validator.
    destruct (tv_validate_token _ _ _ _). apply reads_same; [cbn; lia|done].
  - intros w. apply check_revocation_reads.
  - intros w. apply reads_log.
  - intros _ w. by apply reads_same.
Qed.

(** From the present on, [jti] counts as revoked until [deadline]. *)
Definition revoked_until (revocation : T) (jti : string) (deadline : Z) w : Prop :=
  ∀ t, gate_millis (gw_tick w) ≤ t < deadline → tr_revoked revocation t jti (gw_revocation w) = true.

Lemma gate_revoke_tick revocation j ttl w : gw_tick (gate_revoke revocation j ttl w).2 = S (gw_tick w).
Proof. unfold gate_revoke, with_revocation. by destruct (tr_revoke (gate_millis (gw_tick w)) revocation j ttl (gw_revocation w)). Qed.

Lemma gate_run_tick auth revocation op w : (gw_tick w ≤ gw_tick (gate_run auth revocation op w))%nat.
Proof.
  destruct op as [audit r|j ttl]; cbn; [apply token_middleware_reads|]. rewrite gate_revoke_tick. lia.
Qed.

Lemma gate_run_revoked auth revocation op jti deadline w :
  ta_revocation auth = Some revocation →
  (∀ ttl, op = Gate_Revoke jti ttl → deadline ≤ gate_millis (gw_tick w) + 1000 * ttl) →
  revoked_until revocation jti deadline w → revoked_until revocation jti deadline (gate_run auth revocation op w).
Proof.
  intros Hrev Hop Hu t Ht. pose proof (gate_monotone _ _ (gate_run_tick auth revocation op w)).
  destruct op as [audit r|j ttl]; cbn in *.
  - destruct (token_middleware_reads auth audit r w) as [_ Hk]. rewrite Hk by (done || lia). apply Hu. lia.
  - destruct (gate_revoke revocation j ttl w) as [res w'] eqn:E. cbn in *.
    unfold gate_revoke in E. apply with_revocation_inv in E as (E & Et & _). apply tr_revoke_law in E as (d & Hk & _).
    rewrite Hk by lia. destruct (decide (d = true ∧ jti = j)) as [[_ <-]|]; [|apply Hu; lia]. specialize (Hop ttl eq_refl). apply Z.ltb_lt. lia.
Qed.

Lemma gate_run_all_revoked auth revocation jti ttl w ops : ∀ w0,
  ta_revocation auth = Some revocation →
  (∀ ttl', Gate_Revoke jti ttl' ∈ ops → ttl ≤ ttl') → (gw_tick w ≤ gw_tick w0)%nat →
  revoked_until revocation jti (gate_millis (gw_tick w) + 1000 * ttl) w0 →
  revoked_until revocation jti (gate_millis (gw_tick w) + 1000 * ttl) (gate_run_all auth revocation ops w0).
Proof.
  induction ops as [|op ops IH]; intros w0 Hrev Hops Hw0 Hu; [done|]. cbn. apply IH; [done|..].
  - intros ttl' Hin. apply Hops. by right.
  - etrans; [exact Hw0|apply gate_run_tick].
  - apply gate_run_revoked; [done| |done]. intros ttl' ->. specialize (Hops ttl' ltac:(by left)).
    pose proof (gate_monotone _ _ Hw0). lia.
Qed.

(** Revocation is final: once a token id was revoked, no request that the
    layer hands on afterwards, whatever requests and revocations came in
    between, carries claims with that id, for as long as the revocation lasts;
    only a later revocation of the same id with a shorter time could cut it
    short. *)
Theorem revoked_token_rejected auth revocation jti ttl w w1 ops audit r r' w2 :
  ta_revocation auth = Some revocation →
  gate_revoke revocation jti ttl w = (Ok tt, w1) →
  (∀ ttl', Gate_Revoke jti ttl' ∈ ops → ttl ≤ ttl') →
  let now := gate_run_all auth revocation ops w1 in
  gate_millis (S (gw_tick now)) < gate_millis (gw_tick w) + 1000 * ttl →
  token_middleware auth audit r now = (Ok r', w2) →
  unexamined auth r = true ∨ ∃ claims, req_claims r' = Some claims ∧ cl_jti claims ≠ Some jti.
Proof.
  intros Hrev Hr Hops w3 Ht Hm. unfold gate_revoke in Hr. apply with_revocation_inv in Hr as (Hr & Et & _).
  apply tr_revoke_law in Hr as (d & Hk & Hd). specialize (Hd eq_refl).
  assert (revoked_until revocation jti (gate_millis (gw_tick w) + 1000 * ttl) w3) as Hu.
  { apply (gate_run_all_revoked auth revocation jti ttl w ops w1); [done..|lia|]. intros t Ht'.
    pose proof (gate_monotone (gw_tick w) (gw_tick w1)). rewrite Hk by lia. rewrite decide_True by done.
    apply Z.ltb_lt. lia. }
  apply token_middleware_Ok in Hm as [[? _]|(_ & token & claims & wv & _ & _ & -> & Hno & _)]; [by left|right].
  exists claims. split; [done|]. intros Ej. specialize (Hno _ _ Hrev Ej).
  rewrite Hu in Hno; [done|]. pose proof (gate_monotone (gw_tick w3) (S (gw_tick w3))). lia.
Qed.
End Monotone.
End Gate.

(** ** Witnesses *)

#[local] Existing Instance witness_http_env.

(** Tokens that are their own id; a millisecond per reading. *)
#[local] Instance witness_validator : TokenValidator unit unit :=
  {| tv_validate_token _ _ token := ret (mkClaims "user:1" None None [] [] 0 None (Some token) None None ∅) |}.

#[local] Instance witness_gate_clock : GateClock :=
  {| gate_nanos n := Z.of_nat n * 1000000; gate_millis n := Z.of_nat n |}.

Definition witness_token_auth : TokenAuth unit RedisTokenRevocation :=
  mkTokenAuth tt (Some RedisTokenRevocation_new) ["/public"].

Definition witness_bearer (token : string) : Request :=
  mkRequest "GET" "/api/orders" {["authorization" := "Bearer " +:+ token]} None None None None None.

Definition witness_gate : GateWorld unit RedisStore := mkGateWorld tt (mkRedisStore ∅ []) 0 [].

(** Token [t1] is revoked for a minute: it is refused, [t2] is not. *)
Lemma revoked_token_rejected_witness :
  let w1 := (gate_revoke RedisTokenRevocation_new "t1" 60 witness_gate).2 in
  let w2 := gate_run_all witness_token_auth RedisTokenRevocation_new
              [Gate_Revoke "t3" 5; Gate_Request true (witness_bearer "t1")] w1 in
  (token_middleware witness_token_auth true (witness_bearer "t1") w2).1 =
    Err (Error_Unauthorized "Token has been revoked") ∧
  (∃ claims r', (token_middleware witness_token_auth true (witness_bearer "t2") w2).1 = Ok r' ∧
     req_claims r' = Some claims ∧ cl_jti claims ≠ Some "t1").
Proof.
  intros w1 w2. split; [vm_compute; reflexivity|].
  destruct (token_middleware witness_token_auth true (witness_bearer "t2") w2) as [[r'|e] w3] eqn:E;
    [|vm_compute in E; discriminate].
  assert (∀ i j, (i ≤ j)%nat → gate_millis i ≤ gate_millis j) as Hmono by exact inj_le.
  destruct (revoked_token_rejected Hmono witness_token_auth RedisTokenRevocation_new "t1" 60
    witness_gate w1 [Gate_Revoke "t3" 5; Gate_Request true (witness_bearer "t1")] true (witness_bearer "t2") r' w3)
    as [Hu|(claims & Hc & Hj)]; [reflexivity|vm_compute; reflexivity| |vm_compute; reflexivity|exact E| |].
  - intros ttl'. rewrite !elem_of_cons. intros [[=]|[[=]|[]%not_elem_of_nil]].
  - vm_compute in Hu. discriminate.
  - exists claims, r'. split; [reflexivity|]. split; assumption.
Defined.

Lemma token_gate_correct_witness :
  (token_middleware witness_token_auth true (witness_bearer "t2") witness_gate).1 =
    Ok (set_claims (mkClaims "user:1" None None [] [] 0 None (Some "t2") None None ∅) (witness_bearer "t2")).
Proof.
  refine (proj1 (proj2 (token_gate_correct witness_token_auth true (witness_bearer "t2") witness_gate)) "t2" _ tt _ _ _);
    [vm_compute; reflexivity|reflexivity|]. intros ? ? [= <-] [= <-]. vm_compute. reflexivity.
Defined.
