(* ===== verification/RouteMatcher.v ===== *)
(** * Per-route rate limit patterns

    [src/acton-service/src/middleware/route_matcher.rs]: path normalization,
    the compilation of route patterns and their matching. The [regex] crate is
    a parameter: [RegexLaws] says what its documentation says of the two kinds
    of expressions the code builds. A pattern means what [glob] reads in it. *)

From stdpp Require Import sorting.
From S2P Require Import Prelude Text.

Local Open Scope string_scope.
Local Open Scope Z_scope.
Local Open Scope list_scope.

Record RouteRateLimitConfig := mkRouteRateLimitConfig {
  rrl_requests_per_minute : Z;
  rrl_burst_size : Z;
  rrl_per_user : bool;
}.

(** [UUID_REGEX.replace_all(path, "{id}")] and [Regex::new(r).is_match(s)]. *)
Class RegexEnv := {
  uuid_replace_all : string → string;
  regex_is_match : string → string → bool;
}.

(** ** The code *)

Record CompiledPattern := mkCompiledPattern {
  cp_original : string;
  cp_method : option string;
  cp_regex : string;
  cp_config : RouteRateLimitConfig;
  cp_specificity : Z;
}.

Record CompiledRoutePatterns := mkCompiledRoutePatterns {
  crp_method_exact : gmap string RouteRateLimitConfig;
  crp_exact : gmap string RouteRateLimitConfig;
  crp_patterns : list CompiledPattern;
}.

Definition METHODS : list string := ["GET"; "POST"; "PUT"; "DELETE"; "PATCH"; "HEAD"; "OPTIONS"].

Fixpoint parse_methods (methods : list string) (trimmed : string) : option string * string :=
  match methods with
  | [] => (None, trimmed)
  | m :: methods =>
      match strip_prefix m trimmed with
      | Some rest =>
          let rest := trim_start rest in
          if starts_with rest "/" then (Some m, rest) else parse_methods methods trimmed
      | None => parse_methods methods trimmed
      end
  end.

Definition parse_method_prefix (pattern : string) : option string * string :=
  parse_methods METHODS (trim pattern).

Definition has_wildcards (path : string) : bool := has_char "*" path.

(** [str::contains] with a string. *)
Fixpoint contains (s t : string) : bool :=
  starts_with s t || match s with EmptyString => false | String _ s => contains s t end.

Definition is_special (c : ascii) : bool :=
  existsb (Ascii.eqb c) [".";"+";"?";"(";")";"[";"]";"^";"$";"|";"\"]%char.

(** The loop of [compile_pattern_to_regex]; [skip] while it looks for the
    closing brace. *)
Fixpoint regex_body (skip : bool) (s : string) : string :=
  match s with
  | EmptyString => ""
  | String c rest =>
      if skip then regex_body (negb (Ascii.eqb c "}")) rest
      else if Ascii.eqb c "*" then
        match rest with
        | String c' rest' => if Ascii.eqb c' "*" then ".*" +:+ regex_body false rest'
                             else "[^/]+" +:+ regex_body false rest
        | EmptyString => "[^/]+" +:+ regex_body false rest
        end
      else if Ascii.eqb c "{" then "[^/]+" +:+ regex_body true rest
      else if is_special c then String "\" (String c (regex_body false rest))
      else String c (regex_body false rest)
  end.

Definition compile_pattern_to_regex (pattern : string) : string :=
  "^" +:+ regex_body false pattern +:+ "$".

Definition segment_score (segment : string) : Z :=
  if negb (String.eqb segment "") && negb (has_char "*" segment) && negb (has_char "{" segment) then 10
  else if String.eqb segment "*" then 5
  else if String.eqb segment "**" then 1
  else if has_char "{" segment then 7
  else 0.

Definition calculate_specificity (pattern : string) : Z :=
  foldr (fun seg n => segment_score seg + n) 0 (split "/" pattern) + Z.of_nat (String.length pattern).

(** [sort_by_key] is stable. *)
Fixpoint insert_pattern (p : CompiledPattern) (l : list CompiledPattern) : list CompiledPattern :=
  match l with
  | [] => [p]
  | q :: l' => if cp_specificity q <=? cp_specificity p then p :: l else q :: insert_pattern p l'
  end.

Definition sort_patterns (l : list CompiledPattern) : list CompiledPattern := foldr insert_pattern [] l.

Definition is_pattern (path : string) : bool := has_wildcards path || contains path "{id}".

(** One turn of the loop of [compile]. *)
Definition compile_route (crp : CompiledRoutePatterns) (route : string * RouteRateLimitConfig)
    : CompiledRoutePatterns :=
  let '(pattern, config) := route in
  let '(method, path) := parse_method_prefix pattern in
  if is_pattern path then
    mkCompiledRoutePatterns (crp_method_exact crp) (crp_exact crp)
      (crp_patterns crp ++ [mkCompiledPattern pattern method (compile_pattern_to_regex path) config
                              (calculate_specificity path)])
  else match method with
       | Some m => mkCompiledRoutePatterns (<[m +:+ " " +:+ path := config]> (crp_method_exact crp))
                     (crp_exact crp) (crp_patterns crp)
       | None => mkCompiledRoutePatterns (crp_method_exact crp) (<[path := config]> (crp_exact crp))
                   (crp_patterns crp)
       end.

Definition compile_loop (routes : list (string * RouteRateLimitConfig)) : CompiledRoutePatterns :=
  fold_left compile_route routes (mkCompiledRoutePatterns ∅ ∅ []).

(** [compile], with the routes in the map's order of iteration. *)
Definition compile (routes : list (string * RouteRateLimitConfig)) : CompiledRoutePatterns :=
  let crp := compile_loop routes in
  mkCompiledRoutePatterns (crp_method_exact crp) (crp_exact crp) (sort_patterns (crp_patterns crp)).

Definition crp_is_empty (crp : CompiledRoutePatterns) : bool :=
  bool_decide (crp_method_exact crp = ∅) && bool_decide (crp_exact crp = ∅) &&
  match crp_patterns crp with [] => true | _ => false end.

Section Match.
Context `{RegexEnv}.

Definition normalize_segment (segment : string) : string :=
  if negb (String.eqb segment "") && str_forallb is_digit segment then "{id}" else segment.

Definition normalize_path (path : string) : string :=
  join "/" (map normalize_segment (split "/" (uuid_replace_all path))).

Definition pattern_applies (method normalized : string) (p : CompiledPattern) : bool :=
  match cp_method p with Some m => String.eqb m method | None => true end && regex_is_match (cp_regex p) normalized.

Definition match_route (crp : CompiledRoutePatterns) (method path : string) : option RouteRateLimitConfig :=
  let normalized := normalize_path path in
  match crp_method_exact crp !! (method +:+ " " +:+ normalized) with
  | Some config => Some config
  | None =>
      match crp_exact crp !! normalized with
      | Some config => Some config
      | None => cp_config <$> List.find (pattern_applies method normalized) (crp_patterns crp)
      end
  end.
End Match.

(** ** What the expressions mean *)

(** [.*], [[^/]+] and a character. *)
Inductive Glob := GAny | GSegment | GLit (c : ascii).

Fixpoint glob (skip : bool) (s : string) : list Glob :=
  match s with
  | EmptyString => []
  | String c rest =>
      if skip then glob (negb (Ascii.eqb c "}")) rest
      else if Ascii.eqb c "*" then
        match rest with
        | String c' rest' => if Ascii.eqb c' "*" then GAny :: glob false rest' else GSegment :: glob false rest
        | EmptyString => GSegment :: glob false rest
        end
      else if Ascii.eqb c "{" then GSegment :: glob true rest
      else GLit c :: glob false rest
  end.

Definition newline : ascii := "010"%char.

Fixpoint glob_match (g : list Glob) : string → bool :=
  match g with
  | [] => fun s => String.eqb s ""
  | GLit c :: g => fun s => match s with String a s => Ascii.eqb a c && glob_match g s | EmptyString => false end
  | GAny :: g => fix any s :=
      glob_match g s || match s with String a s => negb (Ascii.eqb a newline) && any s | EmptyString => false end
  | GSegment :: g => fix seg s :=
      match s with
      | String a s => negb (Ascii.eqb a "/") && (glob_match g s || seg s)
      | EmptyString => false
      end
  end.

Definition glob_text (g : Glob) : string :=
  match g with
  | GAny => ".*"
  | GSegment => "[^/]+"
  | GLit c => if is_special c then String "\" (String c "") else String c ""
  end.

Definition is_ascii (c : ascii) : bool := (code c <? 128)%N.

(** 8-4-4-4-12 hexadecimal digits. *)
Definition UUID_SHAPE : list bool :=
  replicate 8 true ++ false :: replicate 4 true ++ false :: replicate 4 true ++ false :: replicate 4 true ++
  false :: replicate 12 true.

Fixpoint has_shape (shape : list bool) (s : string) : bool :=
  match shape, s with
  | [], _ => true
  | hex :: shape, String c s => (if (hex : bool) then is_hex c else Ascii.eqb c "-") && has_shape shape s
  | _, EmptyString => false
  end.

(** The leftmost non-overlapping occurrences replaced, [skip] characters of
    the last one still to go. *)
Fixpoint replace_uuids (skip : nat) (s : string) : string :=
  match s with
  | EmptyString => ""
  | String c rest =>
      match skip with
      | S k => replace_uuids k rest
      | O => if has_shape UUID_SHAPE s then "{id}" +:+ replace_uuids 35 rest else String c (replace_uuids 0 rest)
      end
  end.

(** Literals of a pattern outside its wildcards and placeholders. *)
Definition plain_literal (g : Glob) : bool :=
  match g with GLit c => negb (Ascii.eqb c "*") && negb (Ascii.eqb c "{") | _ => true end.

Class RegexLaws `{RegexEnv} := {
  uuid_replace_law s : uuid_replace_all s = replace_uuids 0 s;
  regex_law g s : forallb plain_literal g = true → str_forallb is_ascii s = true →
    regex_is_match ("^" +:+ String.concat "" (map glob_text g) +:+ "$") s = glob_match g s;
}.

(** ** Normalization *)

(** No suffix of [s] starts with a UUID. *)
Fixpoint no_uuid (s : string) : bool :=
  match s with EmptyString => true | String _ r => negb (has_shape UUID_SHAPE s) && no_uuid r end.

Lemma no_uuid_fixed s : no_uuid s = true → replace_uuids 0 s = s.
Proof.
  induction s as [|c s IH]; [done|]. cbn [no_uuid replace_uuids].
  intros [->%negb_true_iff Hs]%andb_true_iff. by rewrite IH.
Qed.

Lemma shape_reflects shape : ∀ s, has_shape shape (replace_uuids 0 s) = true → has_shape shape s = true.
Proof.
  induction shape as [|hex shape IH]; intros s; [done|]. destruct s as [|c s]; [done|]. cbn [replace_uuids].
  destruct (has_shape UUID_SHAPE (String c s)).
  - change ("{id}" +:+ replace_uuids 35 s) with (String "{" ("id}" +:+ replace_uuids 35 s)). by destruct hex.
  - cbn. intros [-> Hs]%andb_true_iff. apply IH, Hs.
Qed.

(** What the replacement leaves holds no UUID. *)
Lemma no_uuid_replaced s : ∀ k, no_uuid (replace_uuids k s) = true.
Proof.
  induction s as [|c s IH]; intros k; [done|]. cbn [replace_uuids].
  destruct k as [|k]; [|apply IH]. destruct (has_shape UUID_SHAPE (String c s)) eqn:Es.
  - change ("{id}" +:+ replace_uuids 35 s) with
      (String "{" (String "i" (String "d" (String "}" (replace_uuids 35 s))))). cbn. apply IH.
  - cbn [no_uuid]. rewrite IH, andb_true_r. apply negb_true_iff, not_true_is_false. intros Hs.
    assert (replace_uuids 0 (String c s) = String c (replace_uuids 0 s)) as E by (cbn [replace_uuids]; by rewrite Es).
    rewrite <-E in Hs. apply shape_reflects in Hs. congruence.
Qed.

Lemma shape_no_slash shape : ∀ a b, has_shape shape (a +:+ String "/" b) = true → has_shape shape a = true.
Proof.
  induction shape as [|hex shape IH]; intros a b; [done|]. destruct a as [|c a].
  - change ("" +:+ String "/" b) with (String "/" b). by destruct hex.
  - change (String c a +:+ String "/" b) with (String c (a +:+ String "/" b)). cbn.
    intros [-> Hs]%andb_true_iff. by apply IH in Hs.
Qed.

Lemma shape_app shape : ∀ a b, has_shape shape a = true → has_shape shape (a +:+ b) = true.
Proof.
  induction shape as [|hex shape IH]; intros a b; [done|]. destruct a as [|c a]; [done|].
  change (String c a +:+ b) with (String c (a +:+ b)). cbn. intros [-> Hs]%andb_true_iff. by apply IH.
Qed.

Lemma shape_slash shape a b : has_shape shape (a +:+ String "/" b) = has_shape shape a.
Proof.
  apply eq_true_iff_eq. split; [apply shape_no_slash|apply shape_app].
Qed.

Lemma no_uuid_slash a b : no_uuid (a +:+ String "/" b) = no_uuid a && no_uuid b.
Proof.
  induction a as [|c a IH]; [change (no_uuid (String "/" b) = no_uuid b); by cbn|].
  change (negb (has_shape UUID_SHAPE (String c a +:+ String "/" b)) && no_uuid (a +:+ String "/" b) =
          negb (has_shape UUID_SHAPE (String c a)) && no_uuid a && no_uuid b).
  by rewrite shape_slash, IH, andb_assoc.
Qed.

(** A path holds no UUID when no segment does. *)
Lemma no_uuid_join ws : no_uuid (join "/" ws) = forallb no_uuid ws.
Proof.
  induction ws as [|w ws IH]; [done|]. cbn [forallb]. destruct ws as [|w' ws]; [symmetry; apply andb_true_r|].
  rewrite join_cons by discriminate. change ("/" +:+ join "/" (w' :: ws)) with (String "/" (join "/" (w' :: ws))).
  by rewrite no_uuid_slash, IH.
Qed.

Lemma normalize_segment_idemp w : normalize_segment (normalize_segment w) = normalize_segment w.
Proof.
  unfold normalize_segment. destruct (negb (String.eqb w "") && str_forallb is_digit w) eqn:E; [done|].
  by rewrite E.
Qed.

Section Normalize.
Context `{RegexEnv} `{!RegexLaws}.

Lemma normalized_segments s :
  split "/" (join "/" (map normalize_segment (split "/" s))) = map normalize_segment (split "/" s).
Proof.
  apply split_join.
  - destruct (split_cons "/" s) as (w & ws & E). by rewrite E.
  - apply Forall_map. eapply Forall_impl; [apply split_no_sep|]. cbn. intros w Hw.
    unfold normalize_segment. by destruct (_ && _).
Qed.

(** Normalizing a path twice, as the limiter does (once for the counter's
    key and again when the route is looked up), is normalizing it once. *)
Theorem normalize_path_idempotent path : normalize_path (normalize_path path) = normalize_path path.
Proof.
  unfold normalize_path at 1. unfold normalize_path at 1. rewrite !uuid_replace_law.
  set (s := replace_uuids 0 path). rewrite (no_uuid_fixed (join _ _)).
  - rewrite normalized_segments, map_map. unfold normalize_path. rewrite uuid_replace_law. fold s.
    f_equal. apply map_ext. intros w. apply normalize_segment_idemp.
  - rewrite no_uuid_join. apply forallb_forall. intros w (w0 & <- & Hw)%in_map_iff.
    unfold normalize_segment. destruct (_ && _); [done|]. revert w0 Hw. apply forallb_forall.
    rewrite <-no_uuid_join. rewrite join_split. apply no_uuid_replaced.
Qed.
End Normalize.

(** ** Patterns *)

Lemma concat_cons (w : string) ws : String.concat "" (w :: ws) = w +:+ String.concat "" ws.
Proof. destruct ws; cbn; [|done]. induction w as [|c w IH]; [done|]. change (String c w = String c (w +:+ "")). by rewrite <-IH. Qed.

(** The expression built is the text of what the pattern means. *)
Lemma regex_body_glob s : ∀ skip, regex_body skip s = String.concat "" (map glob_text (glob skip s)).
Proof.
  induction s as [[|c s] IH] using (induction_ltof1 string String.length); intros skip; [done|].
  unfold ltof in IH. cbn [regex_body glob].
  destruct skip; [apply IH; cbn; lia|]. destruct (Ascii.eqb c "*").
  - destruct s as [|c' s]; [done|]. destruct (Ascii.eqb c' "*"); cbn [map]; rewrite concat_cons;
      f_equal; apply IH; cbn; lia.
  - destruct (Ascii.eqb c "{"); cbn [map]; rewrite concat_cons, IH by (cbn; lia); [done|].
    cbn [glob_text]. by destruct (is_special c).
Qed.

Lemma glob_plain s : ∀ skip, forallb plain_literal (glob skip s) = true.
Proof.
  induction s as [[|c s] IH] using (induction_ltof1 string String.length); intros skip; [done|].
  unfold ltof in IH. cbn [glob]. destruct skip; [apply IH; cbn; lia|].
  destruct (Ascii.eqb c "*") eqn:E1.
  - destruct s as [|c' s]; [done|]. destruct (Ascii.eqb c' "*"); cbn [forallb]; rewrite IH by (cbn; lia); done.
  - destruct (Ascii.eqb c "{") eqn:E2; cbn [forallb plain_literal]; rewrite IH by (cbn; lia); [done|].
    by rewrite E1, E2.
Qed.

(** The route [pattern] means to cover the request. *)
Definition route_matches (pattern method normalized : string) : Prop :=
  let '(m, path) := parse_method_prefix pattern in
  (m = None ∨ m = Some method) ∧
  if is_pattern path then glob_match (glob false path) normalized = true else path = normalized.

(** Exact routes with a method first, then exact routes, then patterns. *)
Definition route_class (pattern : string) : Z :=
  let '(m, path) := parse_method_prefix pattern in
  if is_pattern path then 0 else match m with Some _ => 2 | None => 1 end.

Definition outranks (p q : string) : Prop :=
  route_class q < route_class p ∨
  route_class q = route_class p ∧
  (route_class p = 0 →
   calculate_specificity (parse_method_prefix q).2 ≤ calculate_specificity (parse_method_prefix p).2).

Lemma parse_methods_elem methods s m path : parse_methods methods s = (Some m, path) → m ∈ methods.
Proof.
  induction methods as [|m' ms IH]; cbn; [done|].
  destruct (strip_prefix m' s) as [rest|]; [|right; auto].
  destruct (starts_with _ _); [|right; auto]. intros [= <- _]. left.
Qed.

Lemma METHODS_no_space m : m ∈ METHODS → has_char " " m = false.
Proof. unfold METHODS. set_unfold. intros Hm. destruct_or! Hm; by subst. Qed.

Lemma method_key_inj m path m' path' :
  has_char " " m = false → has_char " " m' = false → m +:+ " " +:+ path = m' +:+ " " +:+ path' → m = m' ∧ path = path'.
Proof.
  intros Hm Hm' E. change (m +:+ String " " path = m' +:+ String " " path') in E.
  assert (m = m') as ->.
  { pose proof (split_word_app " " m path Hm) as E1. rewrite E, split_word_app in E1 by done. by injection E1. }
  apply string_app_inj_l in E. by injection E.
Qed.

(** Where a route goes. *)
Inductive Entry := EMethod (k : string) | EExact (k : string) | EPattern (p : CompiledPattern).

Definition classify (route : string * RouteRateLimitConfig) : Entry :=
  let '(pattern, config) := route in
  let '(method, path) := parse_method_prefix pattern in
  if is_pattern path then
    EPattern (mkCompiledPattern pattern method (compile_pattern_to_regex path) config (calculate_specificity path))
  else match method with Some m => EMethod (m +:+ " " +:+ path) | None => EExact path end.

(** What the loop of [compile] holds after the routes. *)
Record compiled_from (routes : list (string * RouteRateLimitConfig)) (crp : CompiledRoutePatterns) : Prop := {
  cf_method_sound k config : crp_method_exact crp !! k = Some config →
    ∃ route, route ∈ routes ∧ classify route = EMethod k ∧ route.2 = config;
  cf_method_complete route k : route ∈ routes → classify route = EMethod k → is_Some (crp_method_exact crp !! k);
  cf_exact_sound k config : crp_exact crp !! k = Some config →
    ∃ route, route ∈ routes ∧ classify route = EExact k ∧ route.2 = config;
  cf_exact_complete route k : route ∈ routes → classify route = EExact k → is_Some (crp_exact crp !! k);
  cf_patterns p : p ∈ crp_patterns crp ↔ ∃ route, route ∈ routes ∧ classify route = EPattern p;
}.

Lemma compile_route_entry crp route :
  compile_route crp route = match classify route with
  | EMethod k => mkCompiledRoutePatterns (<[k := route.2]> (crp_method_exact crp)) (crp_exact crp) (crp_patterns crp)
  | EExact k => mkCompiledRoutePatterns (crp_method_exact crp) (<[k := route.2]> (crp_exact crp)) (crp_patterns crp)
  | EPattern p => mkCompiledRoutePatterns (crp_method_exact crp) (crp_exact crp) (crp_patterns crp ++ [p])
  end.
Proof.
  destruct route as [pattern config]. unfold compile_route, classify.
  destruct (parse_method_prefix pattern) as [[m|] path]; by destruct (is_pattern path).
Qed.

(** A route that goes elsewhere does not matter. *)
Lemma elsewhere {P : Entry → Prop} routes (route : string * RouteRateLimitConfig) :
  ¬ P (classify route) →
  (∃ r, r ∈ routes ++ [route] ∧ P (classify r)) ↔ ∃ r, r ∈ routes ∧ P (classify r).
Proof.
  intros Hn. split; intros (r & Hr & HP); exists r; [|by split; [apply elem_of_app; left|]].
  apply elem_of_app in Hr as [Hr| ->%list_elem_of_singleton]; done.
Qed.

(** Inserting under [route]'s key keeps a table sound and complete. *)
Lemma table_insert (kind : string → Entry) (kind_inj : Inj (=) (=) kind) routes route k0
    (m : gmap string RouteRateLimitConfig) :
  classify route = kind k0 →
  (∀ k c, m !! k = Some c → ∃ r, r ∈ routes ∧ classify r = kind k ∧ r.2 = c) →
  (∀ r k, r ∈ routes → classify r = kind k → is_Some (m !! k)) →
  (∀ k c, <[k0 := route.2]> m !! k = Some c → ∃ r, r ∈ routes ++ [route] ∧ classify r = kind k ∧ r.2 = c) ∧
  (∀ r k, r ∈ routes ++ [route] → classify r = kind k → is_Some (<[k0 := route.2]> m !! k)).
Proof.
  intros Hk0 Hs Hc. split.
  - intros k c. rewrite lookup_insert. case_decide as Hk; [intros [= <-]; subst k; exists route|].
    + split; [apply elem_of_app; right; by apply list_elem_of_singleton|done].
    + intros (r & Hr & ?)%Hs. exists r. split; [apply elem_of_app; by left|done].
  - intros r k [Hr| ->%list_elem_of_singleton]%elem_of_app Hcl; rewrite lookup_insert; case_decide; try by eexists.
    + by eapply Hc.
    + rewrite Hk0 in Hcl. apply kind_inj in Hcl. congruence.
Qed.

Lemma table_skip (kind : string → Entry) routes route (m : gmap string RouteRateLimitConfig) :
  (∀ k, classify route ≠ kind k) →
  (∀ k c, m !! k = Some c → ∃ r, r ∈ routes ∧ classify r = kind k ∧ r.2 = c) →
  (∀ r k, r ∈ routes → classify r = kind k → is_Some (m !! k)) →
  (∀ k c, m !! k = Some c → ∃ r, r ∈ routes ++ [route] ∧ classify r = kind k ∧ r.2 = c) ∧
  (∀ r k, r ∈ routes ++ [route] → classify r = kind k → is_Some (m !! k)).
Proof.
  intros Hne Hs Hc. split.
  - intros k c (r & Hr & ?)%Hs. exists r. split; [apply elem_of_app; by left|done].
  - intros r k [Hr| ->%list_elem_of_singleton]%elem_of_app Hcl; [by eapply Hc|]. by apply Hne in Hcl.
Qed.

Lemma compile_route_from routes crp route :
  compiled_from routes crp → compiled_from (routes ++ [route]) (compile_route crp route).
Proof.
  intros [Hms Hmc Hes Hec Hp]. rewrite compile_route_entry.
  destruct (classify route) as [k0|k0|p0] eqn:E.
  - destruct (table_insert EMethod ltac:(by intros ?? [=]) routes route k0 _ E Hms Hmc).
    destruct (table_skip EExact routes route _ ltac:(congruence) Hes Hec). split; [done..|].
    intros p. rewrite Hp. symmetry. apply (elsewhere (P := fun e => e = EPattern p)). congruence.
  - destruct (table_insert EExact ltac:(by intros ?? [=]) routes route k0 _ E Hes Hec).
    destruct (table_skip EMethod routes route _ ltac:(congruence) Hms Hmc). split; [done..|].
    intros p. rewrite Hp. symmetry. apply (elsewhere (P := fun e => e = EPattern p)). congruence.
  - destruct (table_skip EExact routes route _ ltac:(congruence) Hes Hec).
    destruct (table_skip EMethod routes route _ ltac:(congruence) Hms Hmc). split; [done..|].
    intros p. cbn. rewrite elem_of_app, list_elem_of_singleton, Hp. split.
    + intros [(r & ? & ?)| ->]; [exists r|exists route]; rewrite elem_of_app, list_elem_of_singleton; auto.
    + intros (r & [Hr| ->%list_elem_of_singleton]%elem_of_app & Er); [eauto|]. right. congruence.
Qed.

Lemma compile_loop_from routes : compiled_from routes (compile_loop routes).
Proof.
  induction routes as [|route routes IH] using rev_ind.
  - split; cbn; [set_solver..|]. intros p. split; [set_solver|]. intros (? & []%not_elem_of_nil & _).
  - unfold compile_loop. rewrite fold_left_app. by apply compile_route_from.
Qed.

(** *** Order *)

Definition more_specific (p q : CompiledPattern) : Prop := cp_specificity q ≤ cp_specificity p.

Lemma insert_pattern_perm p l : insert_pattern p l ≡ₚ p :: l.
Proof. induction l as [|q l IH]; cbn; [done|]. destruct (_ <=? _); [done|]. rewrite IH. constructor. Qed.

Lemma sort_patterns_perm l : sort_patterns l ≡ₚ l.
Proof. induction l as [|p l IH]; cbn; [done|]. by rewrite insert_pattern_perm, IH. Qed.

Lemma insert_pattern_sorted p l :
  StronglySorted more_specific l → StronglySorted more_specific (insert_pattern p l).
Proof.
  induction 1 as [|q l Hl IH Hq]; cbn; [by repeat constructor|].
  destruct (Z.leb_spec (cp_specificity q) (cp_specificity p)).
  - constructor; [by constructor|]. constructor; [done|]. eapply Forall_impl; [exact Hq|].
    unfold more_specific. intros x. lia.
  - constructor; [done|]. rewrite insert_pattern_perm. constructor; [unfold more_specific; lia|done].
Qed.

Lemma sort_patterns_sorted l : StronglySorted more_specific (sort_patterns l).
Proof. induction l; cbn; [constructor|by apply insert_pattern_sorted]. Qed.

(** The first that applies is the most specific that applies. *)
Lemma find_most_specific f l p :
  StronglySorted more_specific l → List.find f l = Some p →
  p ∈ l ∧ f p = true ∧ ∀ q, q ∈ l → f q = true → more_specific p q.
Proof.
  induction 1 as [|q l Hl IH Hq]; cbn; [done|]. destruct (f q) eqn:E.
  - intros [= <-]. split; [left|]. split; [done|]. intros q' [->|Hin]%elem_of_cons _; [unfold more_specific; lia|].
    rewrite Forall_forall in Hq. by apply Hq.
  - intros Hf. destruct (IH Hf) as (Hin & Hp & Hmax). split; [by right|]. split; [done|].
    intros q' [->|Hq']%elem_of_cons; [congruence|auto].
Qed.

(** *** Matching *)

Definition entry_class (e : Entry) : Z := match e with EMethod _ => 2 | EExact _ => 1 | EPattern _ => 0 end.

Lemma route_class_entry pattern config : route_class pattern = entry_class (classify (pattern, config)).
Proof.
  unfold route_class, classify.
  destruct (parse_method_prefix pattern) as [[m|] path]; by destruct (is_pattern path).
Qed.

Lemma classify_pattern route p :
  classify route = EPattern p →
  cp_specificity p = calculate_specificity (parse_method_prefix route.1).2 ∧ cp_config p = route.2.
Proof.
  destruct route as [pattern config]. unfold classify. cbn [fst snd].
  destruct (parse_method_prefix pattern) as [[m|] path]; destruct (is_pattern path); by intros [= <-].
Qed.

Section Routes.
Context `{RegexEnv} `{!RegexLaws}.

Lemma compiled_regex path n :
  str_forallb is_ascii n = true → regex_is_match (compile_pattern_to_regex path) n = glob_match (glob false path) n.
Proof. intros Hn. unfold compile_pattern_to_regex. rewrite regex_body_glob. apply regex_law; [apply glob_plain|done]. Qed.

Definition entry_applies (method n : string) (e : Entry) : Prop :=
  match e with
  | EMethod k => k = method +:+ " " +:+ n
  | EExact k => k = n
  | EPattern p => pattern_applies method n p = true
  end.

Lemma route_matches_entry route method n :
  str_forallb is_ascii n = true → has_char " " method = false →
  route_matches route.1 method n ↔ entry_applies method n (classify route).
Proof.
  intros Hn Hm. destruct route as [pattern config]. unfold route_matches, classify. cbn [fst].
  destruct (parse_method_prefix pattern) as [mo path] eqn:E. destruct (is_pattern path).
  - cbn. unfold pattern_applies. cbn. rewrite compiled_regex by done. destruct mo as [m|].
    + destruct (String.eqb_spec m method) as [->|]; cbn; naive_solver.
    + naive_solver.
  - destruct mo as [m|]; cbn; [|naive_solver]. split; [by intros [[|[= ->]] ->]|].
    intros [-> ->]%method_key_inj; [by auto|eapply METHODS_no_space, parse_methods_elem; exact E|done].
Qed.

(** The route limit applied to a request is that of the highest-ranking
    configured route that covers its normalized path and method: an exact
    route with the method before an exact route before patterns, patterns by
    specificity; and there is none only when no route covers it. *)
Theorem match_route_correct routes method path :
  str_forallb is_ascii (normalize_path path) = true → has_char " " method = false →
  let n := normalize_path path in
  match match_route (compile routes) method path with
  | Some config => ∃ pattern, (pattern, config) ∈ routes ∧ route_matches pattern method n ∧
      ∀ pattern' config', (pattern', config') ∈ routes → route_matches pattern' method n → outranks pattern pattern'
  | None => ∀ pattern config, (pattern, config) ∈ routes → ¬ route_matches pattern method n
  end.
Proof.
  intros Hn Hm n. fold n in Hn. destruct (compile_loop_from routes) as [Hms Hmc Hes Hec Hp].
  assert (∀ route, route_matches route.1 method n ↔ entry_applies method n (classify route)) as Hr
    by (intros; by apply route_matches_entry).
  unfold match_route. fold n. cbn [compile crp_method_exact crp_exact crp_patterns].
  assert (∀ e, 0 ≤ entry_class e ≤ 2) as Hbound by (intros []; cbn; lia).
  destruct (crp_method_exact (compile_loop routes) !! _) as [config|] eqn:E1.
  { destruct (Hms _ _ E1) as ([pattern c] & Hin & Hcl & [= <-]). exists pattern. split; [done|].
    split; [apply (proj2 (Hr (pattern, c))); by rewrite Hcl|]. intros p' c' _ _. unfold outranks.
    rewrite (route_class_entry p' c'), (route_class_entry pattern c), Hcl. cbn [entry_class].
    specialize (Hbound (classify (p', c'))). destruct (decide (entry_class (classify (p', c')) = 2)); [right|left]; lia. }
  assert (∀ route, route ∈ routes → route_matches route.1 method n → entry_class (classify route) ≤ 1) as Hno2.
  { intros route Hin Hmt%Hr. destruct (classify route) as [k| |] eqn:Ec; cbn; [|lia..]. cbn in Hmt. subst k.
    destruct (Hmc _ _ Hin Ec). congruence. }
  destruct (crp_exact (compile_loop routes) !! n) as [config|] eqn:E2.
  { destruct (Hes _ _ E2) as ([pattern c] & Hin & Hcl & [= <-]). exists pattern. split; [done|].
    split; [apply (proj2 (Hr (pattern, c))); by rewrite Hcl|]. intros p' c' Hin' Hmt. unfold outranks.
    rewrite (route_class_entry p' c'), (route_class_entry pattern c), Hcl. cbn [entry_class].
    specialize (Hno2 (p', c') Hin' Hmt). specialize (Hbound (classify (p', c'))).
    destruct (decide (entry_class (classify (p', c')) = 1)); [right|left]; lia. }
  assert (∀ route, route ∈ routes → route_matches route.1 method n →
    ∃ p, classify route = EPattern p ∧ pattern_applies method n p = true) as Honly.
  { intros route Hin Hmt. specialize (Hno2 route Hin Hmt). apply Hr in Hmt.
    destruct (classify route) as [k|k|p] eqn:Ec; cbn in *; [lia| |eauto]. subst k.
    destruct (Hec _ _ Hin Ec). congruence. }
  destruct (List.find _ _) as [p|] eqn:E3; cbn [fmap option_fmap option_map].
  - apply find_most_specific in E3 as (Hin & Hap & Hmax); [|apply sort_patterns_sorted].
    rewrite sort_patterns_perm, Hp in Hin. destruct Hin as ([pattern c] & Hin & Hcl).
    destruct (classify_pattern _ _ Hcl) as [Hspec Hcfg]. cbn [fst snd] in Hspec, Hcfg. exists pattern. rewrite Hcfg.
    split; [done|]. split; [apply (proj2 (Hr (pattern, c))); by rewrite Hcl|]. intros p' c' Hin' Hmt.
    destruct (Honly (p', c') Hin' Hmt) as (q & Hq & Haq). destruct (classify_pattern _ _ Hq) as [Hspec' _]. cbn [fst] in Hspec'.
    unfold outranks. right. rewrite (route_class_entry p' c'), (route_class_entry pattern c), Hcl, Hq. split; [done|].
    intros _. rewrite <-Hspec, <-Hspec'. apply Hmax; [|done]. rewrite sort_patterns_perm. apply Hp. eauto.
  - intros pattern c Hin Hmt. destruct (Honly (pattern, c) Hin Hmt) as (q & Hq & Haq).
    rewrite (List.find_none _ _ E3 q) in Haq; [done|]. apply list_elem_of_In. rewrite sort_patterns_perm.
    apply Hp. eauto.
Qed.
End Routes.

(** ** Witness *)

(** Reads the expressions of this component back. *)
Fixpoint read_body (s : string) : list Glob :=
  match s with
  | String "." (String "*" s) => GAny :: read_body s
  | String "[" (String "^" (String "/" (String "]" (String "+" s)))) => GSegment :: read_body s
  | String "\" (String c s) => GLit c :: read_body s
  | String "$" EmptyString => []
  | String c s => GLit c :: read_body s
  | EmptyString => []
  end.

Lemma read_body_text g : forallb plain_literal g = true →
  read_body (String.concat "" (map glob_text g) +:+ "$") = g.
Proof.
  induction g as [|t g IH]; [done|]. cbn [forallb map]. intros [Ht Hg]%andb_true_iff.
  rewrite concat_cons, string_app_assoc. specialize (IH Hg).
  set (rest := String.concat "" (map glob_text g) +:+ "$") in *. destruct t as [| |c]; cbn [glob_text].
  - change (GAny :: read_body rest = GAny :: g). by rewrite IH.
  - change (GSegment :: read_body rest = GSegment :: g). by rewrite IH.
  - destruct (is_special c) eqn:Es.
    + change (GLit c :: read_body rest = GLit c :: g). by rewrite IH.
    + change (read_body (String c rest) = GLit c :: g).
      assert (read_body (String c rest) = GLit c :: read_body rest) as ->; [|by rewrite IH].
      clear -Es. destruct c as [[] [] [] [] [] [] [] []]; first [reflexivity|vm_compute in Es; discriminate].
Qed.

#[local] Instance witness_regex_env : RegexEnv := {|
  uuid_replace_all := replace_uuids 0;
  regex_is_match r s := match r with String _ r => glob_match (read_body r) s | EmptyString => false end;
|}.

#[local] Instance witness_regex_laws : RegexLaws.
Proof.
  split; [done|]. intros g s Hg _. cbn.
  change (glob_match (read_body (String.concat "" (map glob_text g) +:+ "$")) s = glob_match g s).
  by rewrite read_body_text.
Qed.

Definition witness_routes : list (string * RouteRateLimitConfig) :=
  [("/api/**", mkRouteRateLimitConfig 100 10 false);
   ("POST /api/v1/uploads", mkRouteRateLimitConfig 5 1 true);
   ("GET /api/*/users/{id}", mkRouteRateLimitConfig 50 5 true)].

Lemma match_route_correct_witness :
  match_route (compile witness_routes) "GET" "/api/v1/users/550e8400-e29b-41d4-a716-446655440000" =
    Some (mkRouteRateLimitConfig 50 5 true) ∧
  outranks "GET /api/*/users/{id}" "/api/**".
Proof.
  pose proof (@match_route_correct witness_regex_env witness_regex_laws witness_routes "GET" "/api/v1/users/550e8400-e29b-41d4-a716-446655440000"
    ltac:(vm_compute; reflexivity) ltac:(vm_compute; reflexivity)) as H.
  assert (match_route (compile witness_routes) "GET" "/api/v1/users/550e8400-e29b-41d4-a716-446655440000" =
    Some (mkRouteRateLimitConfig 50 5 true)) as E by (vm_compute; reflexivity).
  split; [exact E|]. cbv zeta in H. rewrite E in H. destruct H as (pattern & Hin & _ & Hout).
  unfold witness_routes in Hin. set_unfold in Hin. destruct Hin as [Hin|[Hin|[Hin|[]]]]; [discriminate Hin..|].
  injection Hin as ->. apply (Hout _ (mkRouteRateLimitConfig 100 10 false)).
  - left.
  - split; [by left|]. vm_compute. reflexivity.
Defined.

Lemma normalize_path_idempotent_witness :
  let once := normalize_path "/users/42/files/550e8400-e29b-41d4-a716-446655440000" in
  once = "/users/{id}/files/{id}" ∧ normalize_path once = once.
Proof.
  split; [vm_compute; reflexivity|].
  exact (@normalize_path_idempotent witness_regex_env witness_regex_laws _).
Defined.
