(* ===== verification/RateLimit.v ===== *)
(** * Distributed rate limiting

    [src/acton-service/src/middleware/rate_limit.rs] with [RateLimitConfig] of
    [config.rs]: the counter of a user, client or route in Redis, the order in
    which limits apply, and the response headers. Proved: within a window no
    user is admitted more often than the limit, whatever commands fail. *)

From stdpp Require Import pretty.
From S2P Require Import Prelude Text FrameworkError AuditEvent Http Redis RouteMatcher.

Local Open Scope string_scope.
Local Open Scope Z_scope.
Local Open Scope list_scope.

Record RateLimitConfig := mkRateLimitConfig {
  rl_per_user_rpm : Z;
  rl_per_client_rpm : Z;
  rl_window_secs : Z;
  rl_routes : list (string * RouteRateLimitConfig);
  rl_auto_apply : bool;
  rl_trust_forwarded_headers : bool;
}.

Definition RateLimitConfig_default : RateLimitConfig := mkRateLimitConfig 200 1000 60 [] true false.

Record RateLimit := mkRateLimit {
  rl_config : RateLimitConfig;
  rl_route_patterns : CompiledRoutePatterns;
}.

(** [RateLimit::new]. *)
Definition rate_limit_new (config : RateLimitConfig) : RateLimit := mkRateLimit config (compile (rl_routes config)).

Record RateLimitResult := mkRateLimitResult {
  rlr_limit : Z;
  rlr_count : Z;
  rlr_reset_secs : Z;
}.

(** The server, the commands sent so far and the audit events. *)
Record RlWorld (R : Type) := mkRlWorld {
  rw_redis : R;
  rw_tick : nat;
  rw_audit : list (AuditEventKind * AuditSeverity * AuditSource);
}.
Arguments mkRlWorld {R}.
Arguments rw_redis {R}.
Arguments rw_tick {R}.
Arguments rw_audit {R}.

(** The Redis server's time at each command, in milliseconds; the text of a
    [redis::RedisError]. *)
Class RateLimitEnv := {
  rl_clock : nat → Z;
  rl_redis_error : string → string → string;
}.

Section RateLimit.
Context `{RateLimitEnv, RegexEnv, HttpEnv} {R : Type} `{!Redis R}.
Implicit Types self : RateLimit.
Abbreviation L := (M (RlWorld R) Error).
Local Open Scope monad_scope.

Definition rl_connection : L unit := fun w =>
  let '(r, s) := rd_connect (rw_redis w) in
  (map_err (fun e => Error_Redis (rl_redis_error "Failed to get Redis connection" e)) r,
   mkRlWorld s (rw_tick w) (rw_audit w)).

Definition rl_cmd {A} (op : Z → R → result A string * R) : L A := fun w =>
  let '(r, s) := op (rl_clock (rw_tick w)) (rw_redis w) in
  (map_err Error_Redis r, mkRlWorld s (S (rw_tick w)) (rw_audit w)).

(** The reply read as a [u32]. *)
Definition as_u32 (n : Z) : result Z Error :=
  if decide (fits 32 n) then Ok n
  else Err (Error_Redis (rl_redis_error "Response was of incompatible type" "u32")).

Definition check_and_increment (key : string) (limit window_secs : Z) : L RateLimitResult :=
  rl_connection ;;
  let! n := rl_cmd (fun now => rd_incr now key) in
  let! count := lift (as_u32 n) in
  (if count =? 1 then rl_cmd (fun now => rd_expire now key (as_signed 64 window_secs)) else ret tt) ;;
  let! ttl := or_default (as_signed 64 window_secs) (rl_cmd (fun now => rd_ttl now key)) in
  let reset_secs := if 0 <? ttl then ttl else window_secs in
  if limit <? count then fail Error_RateLimitExceeded
  else ret (mkRateLimitResult limit count reset_secs).

(** Which counter and limit apply to a request; [None] for no limit. *)
Definition rate_limit_key self (method path : string) (claims : option Claims) : option (string * Z) :=
  let normalized_path := normalize_path path in
  match match_route (rl_route_patterns self) method normalized_path with
  | Some route_config =>
      let key := match rrl_per_user route_config, claims with
                 | true, Some claims => "route:" +:+ normalized_path +:+ ":user:" +:+ cl_sub claims
                 | _, _ => "route:" +:+ normalized_path +:+ ":global"
                 end in
      Some (key, rrl_requests_per_minute route_config)
  | None =>
      match claims with
      | Some claims =>
          Some (if is_user claims then ("ratelimit:user:" +:+ cl_sub claims, rl_per_user_rpm (rl_config self))
                else if is_client claims then
                  ("ratelimit:client:" +:+ cl_sub claims, rl_per_client_rpm (rl_config self))
                else ("ratelimit:unknown:" +:+ cl_sub claims, rl_per_user_rpm (rl_config self)))
      | None => None
      end
  end.

Definition check_rate_limit_with_route self (method path : string) (claims : option Claims) : L RateLimitResult :=
  match rate_limit_key self method path claims with
  | Some (key, limit) => check_and_increment key limit (rl_window_secs (rl_config self))
  | None => ret (mkRateLimitResult (rl_per_user_rpm (rl_config self)) 0 (rl_window_secs (rl_config self)))
  end.

Definition rl_log (audit : bool) (source : AuditSource) : L unit := fun w =>
  (Ok tt, mkRlWorld (rw_redis w) (rw_tick w)
            (if audit then rw_audit w ++ [(HttpRequestDenied, SevWarning, source)] else rw_audit w)).

(** [RateLimit::middleware] up to [next.run(request)]: what the headers of the
    response are made from. *)
Definition rate_limit_middleware self (audit : bool) (r : Request) : L RateLimitResult :=
  let base := audit_source_for_request r in
  let source := mkAuditSource (src_ip base) (src_user_agent base) (cl_sub <$> req_claims r) (src_request_id base) in
  let! result := attempt (check_rate_limit_with_route self (req_method r) (req_path r) (req_claims r)) in
  match result with
  | Ok r => ret r
  | Err e =>
      match e with Error_RateLimitExceeded => rl_log audit source | _ => ret tt end ;;
      fail e
  end.

(** [add_rate_limit_headers]; [now] in seconds. *)
Definition add_rate_limit_headers (now : Z) (result : RateLimitResult) (headers : gmap string string)
    : gmap string string :=
  let remaining := Z.max 0 (rlr_limit result - rlr_count result) in
  <["x-ratelimit-reset" := pretty (u64_add now (rlr_reset_secs result))]>
  (<["x-ratelimit-remaining" := pretty remaining]>
   (<["x-ratelimit-limit" := pretty (rlr_limit result)]> headers)).

(** Requests one after another; which were admitted. *)
Fixpoint rl_run self (rs : list (bool * Request)) (w : RlWorld R) : list bool * RlWorld R :=
  match rs with
  | [] => ([], w)
  | (audit, r) :: rs =>
      let '(res, w) := rate_limit_middleware self audit r w in
      let '(oks, w) := rl_run self rs w in
      (is_ok res :: oks, w)
  end.

(** ** The bound *)

Context `{!RedisLaws R} (rl_monotone : ∀ i j, (i ≤ j)%nat → rl_clock i ≤ rl_clock j).
Implicit Types w : RlWorld R.

(** At least [a] requests were counted under [key] at time [t], and the counter
    does not expire before [deadline]. *)
Definition counted (key : string) (deadline a t : Z) (s : R) : Prop :=
  match rd_lookup t key s with
  | None => a = 0
  | Some (m, d) => a ≤ m ∧ match d with Some d => deadline ≤ d | None => True end
  end.

Definition wcounted (key : string) (deadline a : Z) w : Prop :=
  counted key deadline a (rl_clock (rw_tick w)) (rw_redis w).

Lemma counted_same key deadline a t s s' :
  (∀ t, rd_lookup t key s' = rd_lookup t key s) → counted key deadline a t s → counted key deadline a t s'.
Proof. unfold counted. intros ->. done. Qed.

Lemma counted_later key deadline a t t' s :
  t ≤ t' < deadline → counted key deadline a t s → counted key deadline a t' s.
Proof.
  unfold counted. intros Ht. rewrite (rd_later t t') by lia.
  destruct (rd_lookup t key s) as [[m [d|]]|]; cbn; [|done..]. intros [Ha Hd].
  destruct (Z.ltb_spec t' d); [done|lia].
Qed.

Lemma incr_keeps_counted key0 key deadline a now s r s' :
  counted key deadline a now s → rd_incr now key0 s = (r, s') →
  counted key deadline a now s' ∧ ∀ n, r = Ok n → key0 = key → counted key deadline (a + 1) now s' ∧ a + 1 ≤ n.
Proof.
  unfold counted. intros Hc (d & Hk & Hr)%rd_incr_law. rewrite Hk.
  destruct (decide (d = true ∧ key = key0)) as [[-> ->]|Hn].
  - destruct (rd_lookup now key0 s) as [[m dl]|]; cbn in *; (split; [intuition lia|]); intros n Hok _;
      destruct (Hr n Hok) as [_ [= ->]]; intuition lia.
  - split; [done|]. intros n Hok ->. destruct (Hr n Hok). naive_solver.
Qed.

Lemma expire_counted key0 key deadline a now secs s r s' :
  counted key deadline a now s → 0 < secs → deadline ≤ now + 1000 * secs →
  rd_expire now key0 secs s = (r, s') → counted key deadline a now s'.
Proof.
  unfold counted. intros Hc Hs Hd (d & Hk & _)%rd_expire_law. rewrite Hk.
  destruct (decide (d = true ∧ key = key0)) as [[_ <-]|]; [|done].
  destruct (rd_lookup now key s) as [[m dl]|]; cbn in *; [|done].
  destruct (Z.leb_spec secs 0); [lia|]. cbn. naive_solver.
Qed.

Section Window.
Context (key : string) (window : Z) (start : nat).
Hypothesis window_positive : 0 < as_signed 64 window.
Let deadline := rl_clock start + 1000 * as_signed 64 window.

(** [m] loses no count of [key] while the window that began at [start] lasts. *)
Definition keeps_count {A} (m : L A) : Prop := ∀ a w r w',
  (start ≤ rw_tick w)%nat → m w = (r, w') →
  (rw_tick w ≤ rw_tick w')%nat ∧ (rl_clock (rw_tick w') < deadline → wcounted key deadline a w → wcounted key deadline a w').

Lemma keeps_count_lift {A} (r : result A Error) : keeps_count (lift r).
Proof. intros a w r' w' _ [= <- <-]. done. Qed.

Lemma keeps_count_bind {A B} (m : L A) (k : A → L B) :
  keeps_count m → (∀ x, keeps_count (k x)) → keeps_count (bind m k).
Proof.
  intros Hm Hk a w r w' Hs. unfold bind. destruct (m w) as [[x|e] w1] eqn:E; intros Ek.
  - destruct (Hm a _ _ _ Hs E) as [Ht1 Hc1]. destruct (Hk x a w1 r w' ltac:(lia) Ek) as [Ht2 Hc2].
    split; [lia|]. intros Hd Hc. apply Hc2; [done|]. apply Hc1; [|done].
    pose proof (rl_monotone _ _ Ht2). lia.
  - injection Ek as <- <-. by apply (Hm a _ _ _ Hs E).
Qed.

Lemma keeps_connection : keeps_count rl_connection.
Proof.
  intros a w r w' _. unfold rl_connection. destruct (rd_connect (rw_redis w)) as [r0 s] eqn:E. intros [= <- <-].
  split; [done|]. intros _. apply counted_same. intros t. by eapply rd_connect_law.
Qed.

(** A command that keeps the count at its own time. *)
Lemma keeps_cmd {A} (op : Z → R → result A string * R) :
  (∀ a i s r s', (start ≤ i)%nat → op (rl_clock i) s = (r, s') → counted key deadline a (rl_clock i) s →
     counted key deadline a (rl_clock i) s') → keeps_count (rl_cmd op).
Proof.
  intros Hop a w r w' Hs. unfold rl_cmd. destruct (op _ _) as [r0 s'] eqn:E. intros [= <- <-]. unfold wcounted. cbn.
  split; [lia|]. intros Hd Hc. eapply (counted_later _ _ _ (rl_clock (rw_tick w))); [|by eapply Hop]. split; [apply rl_monotone; lia|done].
Qed.

Lemma keeps_expire key0 : keeps_count (rl_cmd (fun now => rd_expire now key0 (as_signed 64 window))).
Proof.
  apply keeps_cmd. intros a i s r s' Hi E Hc. eapply expire_counted; [done..| |exact E].
  pose proof (rl_monotone _ _ Hi). unfold deadline. lia.
Qed.

Lemma keeps_ttl key0 : keeps_count (rl_cmd (fun now => rd_ttl now key0)).
Proof.
  apply keeps_cmd. intros a i s r s' Hi E. apply counted_same. intros t.
  destruct (rd_ttl_law _ _ _ _ _ E) as [Hk _]. apply Hk.
Qed.

Lemma keeps_or_default {A} (d : A) (m : L A) : keeps_count m → keeps_count (or_default d m).
Proof.
  intros Hm a w r w' Hs. unfold or_default. destruct (m w) as [r0 w1] eqn:E. intros [= <- <-].
  by apply (Hm a _ _ _ Hs E).
Qed.

(** What follows [INCR]. *)
Definition after_incr (key0 : string) (limit count : Z) : L RateLimitResult :=
  (if count =? 1 then rl_cmd (fun now => rd_expire now key0 (as_signed 64 window)) else ret tt) ;;
  let! ttl := or_default (as_signed 64 window) (rl_cmd (fun now => rd_ttl now key0)) in
  let reset_secs := if 0 <? ttl then ttl else window in
  if limit <? count then fail Error_RateLimitExceeded
  else ret (mkRateLimitResult limit count reset_secs).

Lemma keeps_after_incr key0 limit count : keeps_count (after_incr key0 limit count).
Proof.
  apply keeps_count_bind; [destruct (count =? 1); [apply keeps_expire|apply keeps_count_lift]|]. intros _.
  apply keeps_count_bind; [apply keeps_or_default, keeps_ttl|]. intros ttl.
  destruct (limit <? count); apply keeps_count_lift.
Qed.

Lemma after_incr_Ok key0 limit count w res w' :
  after_incr key0 limit count w = (Ok res, w') → count ≤ limit.
Proof.
  intros (? & ? & _ & (? & ? & _ & Hl)%bind_Ok)%bind_Ok. destruct (Z.ltb_spec limit count); [done|lia].
Qed.

(** What a request under [key0] with [limit] does to the count under [key]:
    refused or under another key it keeps it; admitted under [key] it is
    counted and within the limit. *)
Definition counts_request (key0 : string) (limit : Z) (m : L RateLimitResult) : Prop := ∀ a w r w',
  (start ≤ rw_tick w)%nat → m w = (r, w') →
  (rw_tick w ≤ rw_tick w')%nat ∧
  (rl_clock (rw_tick w') < deadline → wcounted key deadline a w →
   wcounted key deadline a w' ∧
   (is_ok r = true → key0 = key → wcounted key deadline (a + 1) w' ∧ a + 1 ≤ limit)).

Lemma incr_counts key0 limit (k : Z → L RateLimitResult) :
  (∀ n, keeps_count (k n)) → (∀ n w res w', k n w = (Ok res, w') → n ≤ limit) →
  counts_request key0 limit (let! n := rl_cmd (fun now => rd_incr now key0) in k n).
Proof.
  intros Hk Hlim a w r w' Hs. unfold bind, rl_cmd.
  destruct (rd_incr _ key0 _) as [r0 s1] eqn:E. set (w1 := mkRlWorld s1 (S (rw_tick w)) (rw_audit w)).
  assert (rl_clock (rw_tick w) ≤ rl_clock (rw_tick w1)) as Hm by (apply rl_monotone; cbn; lia).
  assert (∀ a, counted key deadline a (rl_clock (rw_tick w)) s1 → rl_clock (rw_tick w1) < deadline →
    wcounted key deadline a w1) as Hw1 by (intros b Hb Hd; eapply counted_later; [|exact Hb]; done).
  destruct r0 as [n|e]; cbn [map_err]; intros Ek.
  - destruct (Hk n 0 w1 r w' ltac:(cbn; lia) Ek) as [Ht _]. pose proof (rl_monotone _ _ Ht).
    split; [cbn in Ht; lia|]. intros Hd Hc. destruct (incr_keeps_counted _ _ _ _ _ _ _ _ Hc E) as [Hkeep Hcnt].
    split; [apply (Hk n a w1 r w'); [cbn; lia|done|done|apply Hw1; [done|lia]]|].
    intros Hok E0. destruct (Hcnt n eq_refl E0) as [Hc1 Hn].
    split; [apply (Hk n _ w1 r w'); [cbn; lia|done|done|apply Hw1; [done|lia]]|].
    destruct r as [res|]; [|done]. specialize (Hlim _ _ _ _ Ek). lia.
  - injection Ek as <- <-. split; [cbn; lia|]. intros Hd Hc.
    destruct (incr_keeps_counted _ _ _ _ _ _ _ _ Hc E) as [Hkeep _]. split; [by apply Hw1|done].
Qed.

Lemma check_and_increment_counts key0 limit : counts_request key0 limit (check_and_increment key0 limit window).
Proof.
  intros a w r w' Hs. change (check_and_increment key0 limit window) with
    (rl_connection ;; let! n := rl_cmd (fun now => rd_incr now key0) in
     let! count := lift (as_u32 n) in after_incr key0 limit count).
  unfold bind at 1. destruct (rl_connection w) as [[[]|e] w1] eqn:E1; intros Ek;
    destruct (keeps_connection a w _ _ Hs E1) as [Ht1 Hc1].
  - edestruct (incr_counts key0 limit (fun n => let! count := lift (as_u32 n) in after_incr key0 limit count))
      as [Ht2 Hc2]; [| |exact (Nat.le_trans _ _ _ Hs Ht1)|exact Ek|].
    3:{ split; [lia|]. intros Hd Hc. apply Hc2; [done|]. apply Hc1; [|done]. pose proof (rl_monotone _ _ Ht2). lia. }
    + intros n. apply keeps_count_bind; [apply keeps_count_lift|]. apply keeps_after_incr.
    + intros n w2 res w3 (count & w4 & Hl & Ho%after_incr_Ok)%bind_Ok. unfold lift, as_u32 in Hl.
      case_decide; by simplify_eq.
  - injection Ek as <- <-. split; [done|]. intros Hd Hc. split; [by apply Hc1|done].
Qed.
End Window.

(** *** Requests *)

Lemma middleware_check self audit r w res w' :
  rate_limit_middleware self audit r w = (res, w') →
  ∃ w1, check_rate_limit_with_route self (req_method r) (req_path r) (req_claims r) w = (res, w1) ∧
    rw_tick w' = rw_tick w1 ∧ rw_redis w' = rw_redis w1.
Proof.
  unfold rate_limit_middleware, bind, attempt. intros Hm.
  destruct (check_rate_limit_with_route _ _ _ _ w) as [[res1|e] w1]; exists w1; [by injection Hm as <- <-|].
  destruct e; by injection Hm as <- <-.
Qed.

(** The requests of user [sub] that no route limit covers. *)
Definition user_request self (sub : string) (r : Request) : bool :=
  match req_claims r, match_route (rl_route_patterns self) (req_method r) (normalize_path (req_path r)) with
  | Some claims, None => String.eqb (cl_sub claims) sub && is_user claims
  | _, _ => false
  end.

Definition key_of self (r : Request) : option (string * Z) :=
  rate_limit_key self (req_method r) (req_path r) (req_claims r).

(** Nothing else is counted under the user's key. *)
Lemma user_request_key self sub r :
  match key_of self r with
  | Some (key, limit) =>
      (key = "ratelimit:user:" +:+ sub → user_request self sub r = true ∧ limit = rl_per_user_rpm (rl_config self)) ∧
      (user_request self sub r = true → key = "ratelimit:user:" +:+ sub)
  | None => user_request self sub r = false
  end.
Proof.
  unfold key_of, rate_limit_key, user_request.
  destruct (match_route _ _ _) as [rc|].
  { destruct (rrl_per_user rc), (req_claims r); done. }
  destruct (req_claims r) as [c|]; [|done].
  destruct (is_user c); [|destruct (is_client c); by split; [|rewrite andb_false_r]].
  rewrite andb_true_r. split; [intros ->%string_app_inj_l; by rewrite String.eqb_refl|].
  by destruct (String.eqb_spec (cl_sub c) sub) as [->|].
Qed.

(** How many of the user's requests were admitted. *)
Fixpoint admitted self (sub : string) (rs : list (bool * Request)) (oks : list bool) : Z :=
  match rs, oks with
  | (_, r) :: rs, ok :: oks => (if user_request self sub r && ok then 1 else 0) + admitted self sub rs oks
  | _, _ => 0
  end.

Section User.
Context self (sub : string) (start : nat).
Let window := rl_window_secs (rl_config self).
Let key := "ratelimit:user:" +:+ sub.
Hypothesis window_positive : 0 < as_signed 64 window.
Let deadline := rl_clock start + 1000 * as_signed 64 window.

Lemma request_counted audit r a w res w' :
  (start ≤ rw_tick w)%nat → rate_limit_middleware self audit r w = (res, w') →
  (rw_tick w ≤ rw_tick w')%nat ∧
  (rl_clock (rw_tick w') < deadline → wcounted key deadline a w →
   wcounted key deadline a w' ∧
   (user_request self sub r && is_ok res = true →
    wcounted key deadline (a + 1) w' ∧ a + 1 ≤ rl_per_user_rpm (rl_config self))).
Proof.
  intros Hs (w1 & Hc & Et & Er)%middleware_check. unfold wcounted. rewrite Et, Er.
  pose proof (user_request_key self sub r) as Hk. unfold key_of in Hk. unfold check_rate_limit_with_route in Hc.
  destruct (rate_limit_key self _ _ _) as [[key0 limit]|].
  - destruct (check_and_increment_counts key window start window_positive key0 limit a w res w1 Hs Hc) as [Ht Hcc].
    split; [done|]. intros Hd Hw. destruct (Hcc Hd Hw) as [Hkeep Hcnt]. split; [done|].
    intros [Hu Hok]%andb_true_iff. destruct Hk as [Hk1 Hk2]. specialize (Hk2 Hu).
    destruct (Hk1 Hk2) as [_ ->]. by apply Hcnt.
  - injection Hc as <- <-. split; [done|]. intros Hd Hw. split; [done|]. by rewrite Hk.
Qed.

Lemma run_counted rs : ∀ a w oks w',
  (start ≤ rw_tick w)%nat → rl_run self rs w = (oks, w') →
  (rw_tick w ≤ rw_tick w')%nat ∧
  (rl_clock (rw_tick w') < deadline → wcounted key deadline a w →
   admitted self sub rs oks = 0 ∨ a + admitted self sub rs oks ≤ rl_per_user_rpm (rl_config self)).
Proof.
  induction rs as [|[audit r] rs IH]; intros a w oks w' Hs; cbn; [intros [= <- <-]; auto|].
  destruct (rate_limit_middleware self audit r w) as [res w1] eqn:E1.
  destruct (rl_run self rs w1) as [oks1 w2] eqn:E2. intros [= <- <-]. cbn [admitted].
  destruct (request_counted audit r a w res w1 Hs E1) as [Ht1 Hc1].
  destruct (IH a w1 oks1 w2 ltac:(lia) E2) as [Ht2 Hc2]. split; [lia|]. intros Hd Hw.
  pose proof (rl_monotone _ _ Ht2). destruct (Hc1 ltac:(lia) Hw) as [Hkeep Hcnt].
  destruct (user_request self sub r && is_ok res) eqn:Eu; [|by auto].
  destruct (Hcnt eq_refl) as [Hw1 Hl]. destruct (IH (a + 1) w1 oks1 w2 ltac:(lia) E2) as [_ Hc3].
  destruct (Hc3 Hd Hw1); right; lia.
Qed.
End User.

End RateLimit.

(** ** Witness *)

#[local] Existing Instance witness_regex_env.

#[local] Instance witness_rl_http : HttpEnv := {| header_to_str s := Some s; parse_ip s := Some s |}.

#[local] Instance witness_rl_env : RateLimitEnv := {| rl_clock n := Z.of_nat n; rl_redis_error s e := s +:+ ": " +:+ e |}.

Definition witness_limiter : RateLimit := rate_limit_new (mkRateLimitConfig 2 5 60 witness_routes true false).

Definition witness_user_request (path : string) : bool * Request :=
  (true, mkRequest "GET" path ∅ None None
           (Some (mkClaims "user:1" None None [] [] 0 None None None None ∅)) None None).

(** Five requests; the reply to the second's [INCR] is lost though it was
    carried out, and the third is to a route with its own limit. *)
Definition witness_rl_requests : list (bool * Request) :=
  [witness_user_request "/a"; witness_user_request "/b"; witness_user_request "/api/x";
   witness_user_request "/c"; witness_user_request "/d"].

Definition witness_rl_world : RlWorld RedisStore :=
  mkRlWorld (mkRedisStore ∅ [None; None; None; None; None; Some ("broken pipe", true)]) 0 [].


(** ** Where the limiter differs from its documentation *)

(** A clock on which every command is thirty years after the last. *)
Definition witness_slow_env : RateLimitEnv :=
  {| rl_clock n := Z.of_nat n * 946080000000; rl_redis_error s e := s +:+ ": " +:+ e |}.

(** When the reply to [EXPIRE] is an error and it was not carried out, the
    counter has no deadline: the user stays refused for ever. *)
Lemma lost_expire_refuses_forever :
  (@rl_run witness_slow_env _ _ _ _ witness_limiter
     [witness_user_request "/a"; witness_user_request "/a"; witness_user_request "/a"; witness_user_request "/a"]
     (mkRlWorld (mkRedisStore ∅ [None; None; Some ("timeout", false)]) 0 [])).1 = [false; true; false; false].
Proof. vm_compute. reflexivity. Qed.

(** Routes that differ in the method only are counted together, each against
    its own limit. *)
Lemma methods_share_counter :
  let self := rate_limit_new (mkRateLimitConfig 200 1000 60
    [("GET /files", mkRouteRateLimitConfig 100 10 false); ("POST /files", mkRouteRateLimitConfig 1 1 false)] true false) in
  rate_limit_key self "GET" "/files" None = Some ("route:/files:global", 100) ∧
  rate_limit_key self "POST" "/files" None = Some ("route:/files:global", 1).
Proof. vm_compute. split; reflexivity. Qed.
