(* ===== verification/RedisKv.v ===== *)
(** * Redis strings and sets

    The commands on string and set values the refresh token and API key
    storages and the OAuth state store send, as one interface: what a command does to a key and replies
    ([cmd_effect], [cmd_reply]) is the Redis documentation's, with server times
    in milliseconds. As in [Redis], a command that replies an error may or may
    not have been carried out. [KvStore] implements the interface with faults. *)

From S2P Require Import Prelude.

Local Open Scope string_scope.
Local Open Scope Z_scope.
Local Open Scope list_scope.

Inductive KvValue := VStr (v : string) | VSet (members : gset string).

(** A value and, for a volatile key, its deadline. *)
Abbreviation kv_entry := (KvValue * option Z)%type.

Inductive KvCmd :=
| KGet (k : string)
| KSet (k v : string)
| KSetEx (k v : string) (secs : Z)
| KSAdd (k m : string)
| KSRem (k m : string)
| KSMembers (k : string)
| KExpire (k : string) (secs : Z)
| KDel (k : string)
| KGetDel (k : string).

Inductive KvReply := RNothing | RStr (v : option string) | RMembers (ms : list string).

Definition cmd_key (c : KvCmd) : string :=
  match c with
  | KGet k | KSet k _ | KSetEx k _ _ | KSAdd k _ | KSRem k _ | KSMembers k | KExpire k _ | KDel k | KGetDel k => k
  end.

(** [EX] takes a positive number of seconds; set commands need a set, [GET] and
    [GETDEL] a string. *)
Definition cmd_valid (c : KvCmd) (e : option kv_entry) : bool :=
  match c, e with
  | KSetEx _ _ secs, _ => 0 <? secs
  | (KGet _ | KGetDel _), Some (VSet _, _) => false
  | (KSAdd _ _ | KSRem _ _ | KSMembers _), Some (VStr _, _) => false
  | _, _ => true
  end.

(** What becomes of the command's key. *)
Definition cmd_effect (now : Z) (c : KvCmd) (e : option kv_entry) : option kv_entry :=
  match c, e with
  | KSet _ v, _ => Some (VStr v, None)
  | KSetEx _ v secs, _ => Some (VStr v, Some (now + 1000 * secs))
  | KSAdd _ m, None => Some (VSet {[m]}, None)
  | KSAdd _ m, Some (VSet ms, d) => Some (VSet ({[m]} ∪ ms), d)
  | KSRem _ m, Some (VSet ms, d) =>
      if bool_decide (ms ∖ {[m]} = ∅) then None else Some (VSet (ms ∖ {[m]}), d)
  | KExpire _ secs, Some (v, _) => if secs <=? 0 then None else Some (v, Some (now + 1000 * secs))
  | (KDel _ | KGetDel _), _ => None
  | _, _ => e
  end.

Definition cmd_reply (c : KvCmd) (e : option kv_entry) : KvReply :=
  match c, e with
  | (KGet _ | KGetDel _), Some (VStr v, _) => RStr (Some v)
  | (KGet _ | KGetDel _), _ => RStr None
  | KSMembers _, Some (VSet ms, _) => RMembers (elements ms)
  | KSMembers _, _ => RMembers []
  | _, _ => RNothing
  end.

(** A key past its deadline does not exist. *)
Definition kv_visible (now : Z) (e : option kv_entry) : option kv_entry :=
  match e with
  | Some (_, Some d) => if now <? d then e else None
  | _ => e
  end.

Lemma kv_visible_later t t' e : t ≤ t' → kv_visible t' (kv_visible t e) = kv_visible t' e.
Proof.
  intros Ht. destruct e as [[v [d|]]|]; cbn; [|done..].
  destruct (Z.ltb_spec t d); cbn; [done|]. destruct (Z.ltb_spec t' d); [lia|done].
Qed.

Class RedisKv (R : Type) := {
  kv_connect : R → result unit string * R;
  kv_exec : Z → KvCmd → R → result KvReply string * R;
}.

(** Set members come in no particular order. *)
Definition same_reply (r r' : KvReply) : Prop :=
  match r, r' with
  | RMembers l, RMembers l' => l ≡ₚ l'
  | _, _ => r = r'
  end.

Lemma same_reply_str r v : same_reply r (RStr v) → r = RStr v.
Proof. by destruct r. Qed.

Class RedisKvLaws (R : Type) `{!RedisKv R} := {
  kv_see : Z → string → R → option kv_entry;
  kv_later t t' k s : t ≤ t' → kv_see t' k s = kv_visible t' (kv_see t k s);
  kv_connect_law s r s' t k : kv_connect s = (r, s') → kv_see t k s' = kv_see t k s;
  kv_exec_law now c s r s' : kv_exec now c s = (r, s') →
    ∃ done : bool,
      (∀ k, kv_see now k s' =
         if decide (done = true ∧ k = cmd_key c) then cmd_effect now c (kv_see now k s) else kv_see now k s) ∧
      (done = true → cmd_valid c (kv_see now (cmd_key c) s) = true) ∧
      (∀ reply, r = Ok reply → done = true ∧ same_reply reply (cmd_reply c (kv_see now (cmd_key c) s)));
}.

(** ** An implementation *)

Record KvStore := mkKvStore {
  kvs_map : gmap string kv_entry;
  (** Per command: [None] when it works, else the error and whether it took
      effect all the same. *)
  kvs_faults : list (option (string * bool));
}.

Definition kvs_see (now : Z) (k : string) (s : KvStore) : option kv_entry := kv_visible now (kvs_map s !! k).

Definition kvs_next (s : KvStore) : option (string * bool) * KvStore :=
  match kvs_faults s with
  | [] => (None, s)
  | f :: fs => (f, mkKvStore (kvs_map s) fs)
  end.

Definition kvs_apply (now : Z) (c : KvCmd) (s : KvStore) : KvStore :=
  mkKvStore (partial_alter (fun e => cmd_effect now c (kv_visible now e)) (cmd_key c) (kvs_map s)) (kvs_faults s).

#[global] Instance KvStore_RedisKv : RedisKv KvStore := {|
  kv_connect s := match kvs_next s with (None, s) => (Ok tt, s) | (Some (msg, _), s) => (Err msg, s) end;
  kv_exec now c s :=
    let e := kvs_see now (cmd_key c) s in
    if cmd_valid c e then
      match kvs_next s with
      | (None, s) => (Ok (cmd_reply c e), kvs_apply now c s)
      | (Some (msg, applied), s) => (Err msg, if applied then kvs_apply now c s else s)
      end
    else (Err "WRONGTYPE or invalid argument", s);
|}.

Lemma kvs_next_map s f s' : kvs_next s = (f, s') → kvs_map s' = kvs_map s.
Proof. unfold kvs_next. destruct (kvs_faults s); by intros [= <- <-]. Qed.

(** An effect is visible at once. *)
Lemma cmd_effect_visible now c e :
  cmd_valid c (kv_visible now e) = true →
  kv_visible now (cmd_effect now c (kv_visible now e)) = cmd_effect now c (kv_visible now e).
Proof.
  assert (kv_visible now (kv_visible now e) = kv_visible now e) as Hv by (by apply kv_visible_later).
  destruct (kv_visible now e) as [[v d]|]; destruct c; cbn; try done; intros Hok.
  all: repeat match goal with
       | |- context [match ?v with VStr _ => _ | VSet _ => _ end] => destruct v
       | |- context [bool_decide ?P] => destruct (bool_decide P)
       | |- context [?x <=? ?y] => destruct (Z.leb_spec x y)
       end; cbn; try done; try exact Hv.
  all: try (cbn in Hv; destruct d as [d|]; [|done]; destruct (now <? d); done).
  all: destruct (Z.ltb_spec now (now + 1000 * secs)); [done|]; lia || (apply Z.ltb_lt in Hok; lia).
Qed.

#[global] Instance KvStore_Laws : RedisKvLaws KvStore.
Proof.
  refine {| kv_see := kvs_see |}.
  - intros t t' k s Ht. unfold kvs_see. by rewrite kv_visible_later.
  - intros s r s' t k. cbn. destruct (kvs_next s) as [[[msg b]|] s1] eqn:E; intros [= <- <-];
      unfold kvs_see; by rewrite (kvs_next_map _ _ _ E).
  - intros now c s r s'. cbn. destruct (cmd_valid c _) eqn:Ev.
    + destruct (kvs_next s) as [f s1] eqn:E. pose proof (kvs_next_map _ _ _ E) as Em. intros Hx.
      exists (match f with None => true | Some (_, b) => b end).
      assert (s' = if match f with None => true | Some (_, b) => b end then kvs_apply now c s1 else s1) as ->
        by (by destruct f as [[msg []]|]; injection Hx as <- <-).
      split; [|split; [done|]].
      * intros k. destruct (match f with None => true | Some (_, b) => b end).
        -- unfold kvs_see, kvs_apply. cbn. rewrite lookup_partial_alter, Em. unfold kvs_see in Ev.
           destruct (decide (cmd_key c = k)) as [<-|Hk]; [rewrite decide_True by done; by apply cmd_effect_visible|].
           by rewrite decide_False by naive_solver.
        -- rewrite decide_False by naive_solver. unfold kvs_see. by rewrite Em.
      * intros reply ->. destruct f as [[msg b]|]; [done|]. injection Hx as <-. split; [done|].
        unfold same_reply. by destruct (cmd_reply _ _).
    + intros [= <- <-]. exists false. split; [intros k; by rewrite decide_False by naive_solver|]. by split.
Defined.
