(* ===== verification/Backend.v ===== *)
(** * Storage backends

    What the token and API key storages have in common: operations over a
    backend's state and the service's clock (nanoseconds), requests to a server
    that reports failures under a text of the caller's, Redis commands, and SQL
    tables as lists of rows whose statements may fail. A statement that replies
    an error may have been carried out. *)

From S2P Require Import Prelude FrameworkError AuditStorage RedisKv.

Local Open Scope string_scope.
Local Open Scope Z_scope.
Local Open Scope list_scope.

Class ClockEnv := { bk_clock : nat → Z }.

Class ClockLaws `{ClockEnv} := { bk_monotone i j : (i ≤ j)%nat → bk_clock i ≤ bk_clock j }.

(** A backend's state and the readings of the clock so far. *)
Record BkWorld (S : Type) := mkBkWorld { bk_store : S; bk_tick : nat }.
Arguments mkBkWorld {S}.
Arguments bk_store {S}.
Arguments bk_tick {S}.

Section Common.
Context `{ClockEnv} {S : Type}.

(** [Utc::now()]. *)
Definition bk_now : M (BkWorld S) Error Z := fun w =>
  (Ok (bk_clock (bk_tick w)), mkBkWorld (bk_store w) (Datatypes.S (bk_tick w))).

(** A request to the server at its time, with the error text it is reported under. *)
Definition bk_request {A} (what : string) (op : Z → S → result A string * S) : M (BkWorld S) Error A := fun w =>
  let '(r, s) := op (bk_clock (bk_tick w)) (bk_store w) in
  (map_err (fun e => Error_Internal (what +:+ e)) r, mkBkWorld s (Datatypes.S (bk_tick w))).

Lemma request_inv {A} what (op : Z → S → result A string * S) (w : BkWorld S) r w' :
  bk_request what op w = (r, w') →
  ∃ r0, op (bk_clock (bk_tick w)) (bk_store w) = (r0, bk_store w') ∧
    bk_tick w' = Datatypes.S (bk_tick w) ∧ (∀ a, r = Ok a ↔ r0 = Ok a).
Proof.
  unfold bk_request. destruct (op _ _) as [r0 s]. intros [= <- <-]. exists r0. cbn. split; [done|].
  split; [done|]. intros a. apply map_err_Ok.
Qed.
End Common.

(** ** Redis *)

Section RedisBackend.
Context `{ClockEnv} {R : Type} `{!RedisKv R}.

(** [self.pool.get()]. *)
Definition bk_connection : M (BkWorld R) Error unit :=
  bk_request "Failed to get Redis connection: " (fun _ => kv_connect).

(** The server counts milliseconds. *)
Definition millis (ns : Z) : Z := ns / 1000000.

Definition bk_cmd (what : string) (c : KvCmd) : M (BkWorld R) Error KvReply :=
  bk_request what (fun now => kv_exec (millis now) c).

Context `{!RedisKvLaws R}.

Lemma cmd_inv what c (w : BkWorld R) r w' :
  bk_cmd what c w = (r, w') →
  let now := millis (bk_clock (bk_tick w)) in
  bk_tick w' = Datatypes.S (bk_tick w) ∧ ∃ done : bool,
    (∀ k, kv_see now k (bk_store w') =
       if decide (done = true ∧ k = cmd_key c) then cmd_effect now c (kv_see now k (bk_store w))
       else kv_see now k (bk_store w)) ∧
    (∀ reply, r = Ok reply → done = true ∧ same_reply reply (cmd_reply c (kv_see now (cmd_key c) (bk_store w)))).
Proof.
  unfold bk_cmd. intros (r0 & E & Et & Hr)%request_inv. split; [done|].
  apply kv_exec_law in E as (d & Hk & _ & Hd). exists d. split; [done|]. intros reply ->. by apply Hd, Hr.
Qed.

Lemma connection_inv (w : BkWorld R) r w' :
  bk_connection w = (r, w') →
  bk_tick w' = Datatypes.S (bk_tick w) ∧ ∀ t k, kv_see t k (bk_store w') = kv_see t k (bk_store w).
Proof.
  unfold bk_connection. intros (r0 & E & Et & _)%request_inv. split; [done|]. intros t k. by eapply kv_connect_law.
Qed.

Context `{!ClockLaws}.

Lemma millis_later i j : (i ≤ j)%nat → millis (bk_clock i) ≤ millis (bk_clock j).
Proof. intros Hij. apply Z.div_le_mono; [lia|]. by apply bk_monotone. Qed.

(** What a command issued now would see under [k]. *)
Definition sees (w : BkWorld R) (k : string) : option kv_entry :=
  kv_see (millis (bk_clock (bk_tick w))) k (bk_store w).

(** Time only takes keys away. *)
Lemma sees_later k i j (s : R) e : (i ≤ j)%nat → sees (mkBkWorld s j) k = Some e → sees (mkBkWorld s i) k = Some e.
Proof.
  intros Hij. unfold sees. cbn. rewrite (kv_later (millis (bk_clock i)) (millis (bk_clock j))) by (by apply millis_later).
  destruct (kv_see _ k s) as [[v [dl|]]|]; cbn; [|done..]. by destruct (_ <? _).
Qed.

(** A key without a deadline stays. *)
Lemma sees_persistent k i j (s : R) v : (i ≤ j)%nat →
  sees (mkBkWorld s i) k = Some (v, None) → sees (mkBkWorld s j) k = Some (v, None).
Proof.
  intros Hij. unfold sees. cbn. intros E.
  by rewrite (kv_later (millis (bk_clock i)) (millis (bk_clock j))), E by (by apply millis_later).
Qed.

(** *** Properties of the strings stored that operations keep *)

Abbreviation T := (M (BkWorld R) Error).

Section Keeps.
Context (Q : string → string → Prop).

Definition kinv (w : BkWorld R) : Prop := ∀ k v dl, sees w k = Some (VStr v, dl) → Q k v.

Definition kkeeps {A} (m : T A) : Prop := ∀ w, kinv w → kinv (m w).2.

Definition harmless (c : KvCmd) : Prop :=
  match c with KSet k v | KSetEx k v _ => Q k v | _ => True end.

Lemma kinv_later i j (s : R) : (i ≤ j)%nat → kinv (mkBkWorld s i) → kinv (mkBkWorld s j).
Proof. intros Hij Hi k v dl Hs. eapply Hi, sees_later; [exact Hij|exact Hs]. Qed.

Lemma effect_harmless now c e v dl :
  harmless c → (∀ v dl, e = Some (VStr v, dl) → Q (cmd_key c) v) →
  cmd_effect now c e = Some (VStr v, dl) → Q (cmd_key c) v.
Proof.
  intros Hh He. destruct c; cbn in *; intros E; try (by simplify_eq); try (exact (He v dl E)).
  all: destruct e as [[[v'|ms] dl']|]; cbn in *; repeat case_match; simplify_eq; exact (He _ _ eq_refl).
Qed.

Lemma kkeeps_ret {A} (a : A) : kkeeps (ret a).
Proof. by intros w Hw. Qed.

Lemma kkeeps_lift {A} (r : result A Error) : kkeeps (lift r).
Proof. by intros w Hw. Qed.

Lemma kkeeps_bind {A B} (m : T A) (f : A → T B) : kkeeps m → (∀ a, kkeeps (f a)) → kkeeps (bind m f).
Proof.
  intros Hm Hf w Hw. specialize (Hm w Hw). unfold bind. destruct (m w) as [[a|e] w1]; [by apply Hf|done].
Qed.

Lemma kkeeps_ignore {A} (m : T A) : kkeeps m → kkeeps (ignore m).
Proof. intros Hm w Hw. specialize (Hm w Hw). unfold ignore. by destruct (m w). Qed.

Lemma kkeeps_now : kkeeps bk_now.
Proof. intros [s i] Hw. cbn. apply (kinv_later i); [lia|done]. Qed.

Lemma kkeeps_connection : kkeeps bk_connection.
Proof.
  intros w Hw. destruct (bk_connection w) as [r w'] eqn:E. apply connection_inv in E as [Et Es].
  destruct w as [s i], w' as [s' i']. cbn in *. subst i'. eapply (kinv_later i); [lia|].
  intros k v dl. unfold sees. cbn. rewrite Es. apply Hw.
Qed.

Lemma kkeeps_cmd what c : harmless c → kkeeps (bk_cmd what c).
Proof.
  intros Hh w Hw. destruct (bk_cmd what c w) as [r w'] eqn:E. apply cmd_inv in E as (Et & d & Hk & _).
  destruct w as [s i], w' as [s' i']. cbn in *. subst i'. eapply (kinv_later i); [lia|].
  intros k v dl. unfold sees. cbn. rewrite Hk. destruct (decide (d = true ∧ k = cmd_key c)) as [[_ ->]|]; [|apply Hw].
  apply effect_harmless; [done|]. intros v' dl'. apply Hw.
Qed.
End Keeps.

(** What a successful [GET] says of the key, before and after. *)
Lemma get_inv what k (w : BkWorld R) reply w' :
  bk_cmd what (KGet k) w = (Ok reply, w') →
  (∀ k' e, sees w' k' = Some e → sees w k' = Some e) ∧
  match reply with
  | RStr (Some v) => ∃ dl, sees w k = Some (VStr v, dl)
  | _ => ∀ v dl, sees w' k ≠ Some (VStr v, dl)
  end.
Proof.
  intros (Et & d & Hsee & Hr)%cmd_inv. destruct (Hr reply eq_refl) as [-> Hrep]. cbn [cmd_key] in *.
  destruct w as [s i], w' as [s' i']. cbn in *. subst i'.
  assert (∀ k' e, sees (mkBkWorld s' (S i)) k' = Some e → sees (mkBkWorld s i) k' = Some e) as Hback.
  { intros k' e E%(sees_later _ i (S i)); [|lia]. revert E. unfold sees. cbn. rewrite Hsee. by destruct (decide _). }
  split; [done|]. unfold sees in *. cbn in *.
  destruct (kv_see _ k s) as [[[v|ms] dl]|] eqn:E; cbn in Hrep; apply same_reply_str in Hrep as ->; [by exists dl|..];
    intros v' dl' E'; apply Hback in E'; congruence.
Qed.

(** A command keeps a key without deadline that it does not touch or change. *)
Lemma cmd_keeps_entry what c k v (w : BkWorld R) r w' :
  bk_cmd what c w = (r, w') → (k = cmd_key c → ∀ now, cmd_effect now c (Some (v, None)) = Some (v, None)) →
  sees w k = Some (v, None) → sees w' k = Some (v, None).
Proof.
  intros (Et & d & Hsee & _)%cmd_inv He E. destruct w as [s i], w' as [s' i']. cbn in *. subst i'.
  apply (sees_persistent k i); [lia|]. unfold sees in *. cbn in *. rewrite Hsee, E.
  destruct (decide _) as [[_ Hk]|]; [by apply He|done].
Qed.

Lemma connection_keeps_entry k v (w : BkWorld R) r w' :
  bk_connection w = (r, w') → sees w k = Some (v, None) → sees w' k = Some (v, None).
Proof.
  intros [Et Hs]%connection_inv E. destruct w as [s i], w' as [s' i']. cbn in *. subst i'.
  apply (sees_persistent k i); [lia|]. unfold sees in *. cbn in *. by rewrite Hs.
Qed.

(** After a successful [SET] the key holds the value. *)
Lemma set_inv what k v (w : BkWorld R) reply w' :
  bk_cmd what (KSet k v) w = (Ok reply, w') → sees w' k = Some (VStr v, None).
Proof.
  intros (Et & d & Hsee & Hr)%cmd_inv. destruct (Hr reply eq_refl) as [-> _]. cbn [cmd_key] in *.
  destruct w as [s i], w' as [s' i']. cbn in *. subst i'.
  apply (sees_persistent k i); [lia|]. unfold sees. cbn. by rewrite Hsee, decide_True.
Qed.

(** [GET] of a key without deadline returns it. *)
Lemma get_present what k v (w : BkWorld R) reply w' :
  bk_cmd what (KGet k) w = (Ok reply, w') → sees w k = Some (VStr v, None) →
  reply = RStr (Some v) ∧ ∀ k' v', sees w k' = Some (v', None) → sees w' k' = Some (v', None).
Proof.
  intros Hg E. assert (∀ k' v', sees w k' = Some (v', None) → sees w' k' = Some (v', None)) as Hkept.
  { intros k' v'. by eapply (cmd_keeps_entry what (KGet k)). }
  split; [|done]. apply get_inv in Hg as [_ Hr]. pose proof (Hkept _ _ E) as E'.
  destruct reply as [|[v'|]|ms]; [by apply Hr in E'| |by apply Hr in E'..]. destruct Hr as [dl Hr]. congruence.
Qed.
End RedisBackend.

(** ** SQL tables *)

(** The table and, per statement, its fault: the message and whether the
    statement took effect all the same. *)
Record Table (Row : Type) := mkTable {
  tb_rows : list Row;
  tb_faults : list (option (string * bool));
}.
Arguments mkTable {Row}.
Arguments tb_rows {Row}.
Arguments tb_faults {Row}.

Section Table.
Context `{ClockEnv} {Row : Type}.

Definition tb_statement {A} (stmt : list Row → result (A * list Row) string) (t : Table Row)
    : result A string * Table Row :=
  let '(fault, faults) := match tb_faults t with [] => (None, []) | f :: fs => (f, fs) end in
  match stmt (tb_rows t), fault with
  | Ok (a, rows), None => (Ok a, mkTable rows faults)
  | Ok (a, rows), Some (msg, true) => (Err msg, mkTable rows faults)
  | _, Some (msg, _) => (Err msg, mkTable (tb_rows t) faults)
  | Err msg, None => (Err msg, mkTable (tb_rows t) faults)
  end.

(** [UPDATE .. SET f WHERE P] and its [rows_affected]. *)
Definition st_update_where (P : Row → bool) (f : Row → Row) (rows : list Row) : result (Z * list Row) string :=
  Ok (Z.of_nat (length (List.filter P rows)), map (fun r => if P r then f r else r) rows).

Definition st_delete_where (P : Row → bool) (rows : list Row) : result (Z * list Row) string :=
  Ok (Z.of_nat (length (List.filter P rows)), List.filter (fun r => negb (P r)) rows).

Definition st_select_first (P : Row → bool) (rows : list Row) : result (option Row * list Row) string :=
  Ok (List.find P rows, rows).

(** A statement of a backend whose clock is read as [stamp] gives it. *)
Definition sql_statement {A X} (stamp : Z → X) (what : string) (stmt : X → list Row → result (A * list Row) string)
    : M (BkWorld (Table Row)) Error A :=
  bk_request what (fun now => tb_statement (stmt (stamp now))).

(** A statement was carried out or not; if it succeeded it was. *)
Lemma tb_statement_inv {A} (stmt : list Row → result (A * list Row) string) t r t' :
  tb_statement stmt t = (r, t') →
  (tb_rows t' = tb_rows t ∧ is_ok r = false) ∨
  ∃ a, stmt (tb_rows t) = Ok (a, tb_rows t') ∧ ∀ a', r = Ok a' → a' = a.
Proof.
  unfold tb_statement. destruct (match tb_faults t with [] => _ | _ => _ end) as [fault faults].
  destruct (stmt (tb_rows t)) as [[a rows]|msg] eqn:E; destruct fault as [[m []]|]; intros [= <- <-]; cbn;
    [right; exists a..|by left|right; exists a|by left|by left|by left]; naive_solver.
Qed.

Lemma statement_inv {A X} (stamp : Z → X) what (stmt : X → list Row → result (A * list Row) string)
    (w : BkWorld (Table Row)) r w' :
  sql_statement stamp what stmt w = (r, w') →
  (tb_rows (bk_store w') = tb_rows (bk_store w) ∧ is_ok r = false) ∨
  ∃ a, stmt (stamp (bk_clock (bk_tick w))) (tb_rows (bk_store w)) = Ok (a, tb_rows (bk_store w')) ∧
    ∀ a', r = Ok a' → a' = a.
Proof.
  unfold sql_statement. intros (r0 & E & _ & Hr)%request_inv. apply tb_statement_inv in E as [[Er Hn]|(a & Es & Ha)].
  - left. split; [done|]. destruct r as [a|]; [|done]. by rewrite (proj1 (Hr a) eq_refl) in Hn.
  - right. exists a. split; [done|]. intros a' ->. apply Ha. by apply Hr.
Qed.

(** *** Properties of the rows that operations keep *)

Abbreviation T := (M (BkWorld (Table Row)) Error).

Section Keeps.
Context (I : list Row → Prop).

Definition winv (w : BkWorld (Table Row)) : Prop := I (tb_rows (bk_store w)).

Definition wkeeps {A} (m : T A) : Prop := ∀ w, winv w → winv (m w).2.

Lemma wkeeps_ret {A} (a : A) : wkeeps (ret a).
Proof. by intros w Hw. Qed.

Lemma wkeeps_lift {A} (r : result A Error) : wkeeps (lift r).
Proof. by intros w Hw. Qed.

Lemma wkeeps_now : wkeeps bk_now.
Proof. by intros w Hw. Qed.

Lemma wkeeps_bind {A B} (m : T A) (k : A → T B) : wkeeps m → (∀ a, wkeeps (k a)) → wkeeps (bind m k).
Proof.
  intros Hm Hk w Hw. specialize (Hm w Hw). unfold bind. destruct (m w) as [[a|e] w1]; [by apply Hk|done].
Qed.

Lemma wkeeps_ignore {A} (m : T A) : wkeeps m → wkeeps (ignore m).
Proof. intros Hm w Hw. specialize (Hm w Hw). unfold ignore. by destruct (m w). Qed.

Lemma wkeeps_statement {A X} (stamp : Z → X) what (stmt : X → list Row → result (A * list Row) string) :
  (∀ now rows a rows', stmt now rows = Ok (a, rows') → I rows → I rows') → wkeeps (sql_statement stamp what stmt).
Proof.
  intros Hs w Hw. destruct (sql_statement _ _ _ w) as [r w'] eqn:E. unfold winv in *. cbn.
  apply statement_inv in E as [[-> _]|(a & E & _)]; [done|by eapply Hs].
Qed.

Lemma wkeeps_select {X} (stamp : Z → X) what (P : X → Row → bool) :
  wkeeps (sql_statement stamp what (fun now => st_select_first (P now))).
Proof. apply wkeeps_statement. by intros now rows a rows' [= _ <-]. Qed.
End Keeps.
End Table.
