(* ===== verification/RefreshTokens.v ===== *)
(** * Refresh tokens

    [src/acton-service/src/auth/tokens/refresh.rs]: the storage trait, its
    Redis, PostgreSQL and Turso backends over [Backend]. Times are nanoseconds;
    the servers share the service's clock. Texts of times and of JSON are
    parameters. *)

From S2P Require Import Prelude FrameworkError AuditStorage RedisKv Backend.

Local Open Scope string_scope.
Local Open Scope Z_scope.
Local Open Scope list_scope.

Record RefreshTokenMetadata := mkRefreshTokenMetadata {
  rtm_user_agent : option string;
  rtm_ip_address : option string;
  rtm_device_id : option string;
  rtm_created_at : Z;
}.

Record RefreshTokenData := mkRefreshTokenData {
  rt_token_id : string;
  rt_user_id : string;
  rt_family_id : string;
  rt_is_revoked : bool;
  rt_expires_at : Z;
  rt_metadata : RefreshTokenMetadata;
}.

Definition set_revoked (d : RefreshTokenData) : RefreshTokenData :=
  mkRefreshTokenData (rt_token_id d) (rt_user_id d) (rt_family_id d) true (rt_expires_at d) (rt_metadata d).

(** [RefreshTokenMetadata::default]. *)
Definition metadata_default (now : Z) : RefreshTokenMetadata := mkRefreshTokenMetadata None None None now.

Class RefreshEnv := {
  (** serde_json on [RefreshTokenData] and on [RefreshTokenMetadata]. *)
  data_to_json : RefreshTokenData → string;
  data_from_json : string → result RefreshTokenData string;
  metadata_to_json : RefreshTokenMetadata → string;
  metadata_from_json : string → result RefreshTokenMetadata string;
  (** chrono's RFC 3339 and SQLite's [datetime('now')] text. *)
  rt_to_rfc3339 : Z → string;
  rt_parse_rfc3339 : string → option Z;
  sqlite_datetime : Z → string;
  (** The message of a violated primary key. *)
  unique_violation : string;
}.

Class RefreshEnvLaws `{RefreshEnv} := {
  data_json_roundtrip d : data_from_json (data_to_json d) = Ok d;
}.

(** ** The trait *)

Class RefreshTokenStorage (S : Type) := {
  rts_store : string → string → string → Z → RefreshTokenMetadata → M (BkWorld S) Error unit;
  rts_get : string → M (BkWorld S) Error (option RefreshTokenData);
  rts_revoke : string → M (BkWorld S) Error unit;
  rts_revoke_family : string → M (BkWorld S) Error Z;
  rts_revoke_all_for_user : string → M (BkWorld S) Error Z;
  rts_rotate : string → string → string → string → Z → RefreshTokenMetadata → M (BkWorld S) Error unit;
  rts_cleanup_expired : M (BkWorld S) Error Z;
}.

(** ** Redis *)

Section RedisRefresh.
Context `{ClockEnv, RefreshEnv} {R : Type} `{!RedisKv R}.
(** [self.key_prefix]. *)
Context (key_prefix : string).
Local Open Scope monad_scope.
Abbreviation T := (M (BkWorld R) Error).

Definition token_key (token_id : string) : string := key_prefix +:+ ":" +:+ token_id.
Definition family_key (family_id : string) : string := key_prefix +:+ ":family:" +:+ family_id.
Definition user_key (user_id : string) : string := key_prefix +:+ ":user:" +:+ user_id.

(** [(expires_at - Utc::now()).num_seconds().max(1) as u64]. *)
Definition ttl_secs (expires_at now : Z) : Z := as_unsigned 64 (Z.max (Z.quot (expires_at - now) 1000000000) 1).

Definition redis_store (token_id user_id family_id : string) (expires_at : Z) (metadata : RefreshTokenMetadata)
    : T unit :=
  bk_connection ;;
  let json := data_to_json (mkRefreshTokenData token_id user_id family_id false expires_at metadata) in
  let! now := bk_now in
  let ttl := ttl_secs expires_at now in
  bk_cmd "Failed to store refresh token: " (KSetEx (token_key token_id) json ttl) ;;
  bk_cmd "Failed to add to family set: " (KSAdd (family_key family_id) token_id) ;;
  bk_cmd "Failed to set family TTL: " (KExpire (family_key family_id) (as_signed 64 ttl)) ;;
  bk_cmd "Failed to add to user set: " (KSAdd (user_key user_id) token_id) ;;
  bk_cmd "Failed to set user TTL: " (KExpire (user_key user_id) (as_signed 64 ttl)) ;;
  ret tt.

Definition redis_get (token_id : string) : T (option RefreshTokenData) :=
  bk_connection ;;
  let! reply := bk_cmd "Failed to get refresh token: " (KGet (token_key token_id)) in
  match reply with
  | RStr (Some j) =>
      let! data := lift (map_err (fun e => Error_Internal ("Failed to parse token: " +:+ e)) (data_from_json j)) in
      ret (Some data)
  | _ => ret None
  end.

Definition redis_revoke (token_id : string) : T unit :=
  bk_connection ;;
  let! data := redis_get token_id in
  match data with
  | Some data =>
      let data := set_revoked data in
      let! now := bk_now in
      let ttl := ttl_secs (rt_expires_at data) now in
      bk_cmd "Failed to revoke token: " (KSetEx (token_key token_id) (data_to_json data) ttl) ;;
      ret tt
  | None => ret tt
  end.

(** The loop over the members. *)
Fixpoint revoke_each (token_ids : list string) (revoked : Z) : T Z :=
  match token_ids with
  | [] => ret revoked
  | token_id :: token_ids => redis_revoke token_id ;; revoke_each token_ids (revoked + 1)
  end.

Definition redis_revoke_members (what key : string) : T Z :=
  bk_connection ;;
  let! reply := bk_cmd what (KSMembers key) in
  match reply with
  | RMembers token_ids => revoke_each token_ids 0
  | _ => ret 0
  end.

Definition redis_revoke_family (family_id : string) : T Z :=
  redis_revoke_members "Failed to get family members: " (family_key family_id).

Definition redis_revoke_all_for_user (user_id : string) : T Z :=
  redis_revoke_members "Failed to get user tokens: " (user_key user_id).

Definition redis_rotate (old_token_id new_token_id user_id family_id : string) (expires_at : Z)
    (metadata : RefreshTokenMetadata) : T unit :=
  redis_revoke old_token_id ;;
  redis_store new_token_id user_id family_id expires_at metadata ;;
  ret tt.

Definition redis_cleanup_expired : T Z := ret 0.

Definition RedisRefreshStorage : RefreshTokenStorage R := {|
  rts_store := redis_store;
  rts_get := redis_get;
  rts_revoke := redis_revoke;
  rts_revoke_family := redis_revoke_family;
  rts_revoke_all_for_user := redis_revoke_all_for_user;
  rts_rotate := redis_rotate;
  rts_cleanup_expired := redis_cleanup_expired;
|}.
End RedisRefresh.

(** ** Rows *)

(** A row, with the columns for times and metadata as the backend stores them. *)
Record RtRow (X : Type) := mkRtRow {
  row_id : string;
  row_user_id : string;
  row_family_id : string;
  row_expires_at : X;
  row_metadata : string;
  row_is_revoked : bool;
}.
Arguments mkRtRow {X}.
Arguments row_id {X}.
Arguments row_user_id {X}.
Arguments row_family_id {X}.
Arguments row_expires_at {X}.
Arguments row_metadata {X}.
Arguments row_is_revoked {X}.

Definition revoke_row {X} (r : RtRow X) : RtRow X :=
  mkRtRow (row_id r) (row_user_id r) (row_family_id r) (row_expires_at r) (row_metadata r) true.

Definition st_insert `{RefreshEnv} {X} (row : RtRow X) (rows : list (RtRow X)) : result (unit * list (RtRow X)) string :=
  if bool_decide (row_id row ∈ row_id <$> rows) then Err unique_violation else Ok (tt, rows ++ [row]).

Definition st_revoke_where {X} (P : RtRow X → bool) : list (RtRow X) → result (Z * list (RtRow X)) string :=
  st_update_where P revoke_row.

(** ** PostgreSQL *)

Section PgRefresh.
Context `{ClockEnv, RefreshEnv, PgEnv}.
Local Open Scope monad_scope.
Abbreviation P := (M (BkWorld (Table (RtRow Z))) Error).

Definition pg_statement {A} (what : string)
    (stmt : Z → list (RtRow Z) → result (A * list (RtRow Z)) string) : P A := sql_statement pg_timestamptz what stmt.

Definition pg_new_row (token_id user_id family_id : string) (expires_at : Z) (metadata : RefreshTokenMetadata) : RtRow Z :=
  mkRtRow token_id user_id family_id (pg_timestamptz expires_at) (metadata_to_json metadata) false.

Definition pg_rt_store (token_id user_id family_id : string) (expires_at : Z) (metadata : RefreshTokenMetadata) : P unit :=
  pg_statement "Failed to store refresh token: "
    (fun _ => st_insert (pg_new_row token_id user_id family_id expires_at metadata)).

(** [serde_json::from_value(..).unwrap_or_default()]. *)
Definition metadata_or_default {S} (text : string) : M (BkWorld S) Error RefreshTokenMetadata :=
  match metadata_from_json text with
  | Ok m => ret m
  | Err _ => let! now := bk_now in ret (metadata_default now)
  end.

Definition pg_rt_get (token_id : string) : P (option RefreshTokenData) :=
  let! row := pg_statement "Failed to get refresh token: " (fun now =>
                st_select_first (fun r => String.eqb (row_id r) token_id && (now <? row_expires_at r))) in
  match row with
  | Some row =>
      let! metadata := metadata_or_default (row_metadata row) in
      ret (Some (mkRefreshTokenData (row_id row) (row_user_id row) (row_family_id row) (row_is_revoked row)
                   (row_expires_at row) metadata))
  | None => ret None
  end.

Definition pg_rt_revoke (token_id : string) : P unit :=
  pg_statement "Failed to revoke token: " (fun _ => st_revoke_where (fun r => String.eqb (row_id r) token_id)) ;;
  ret tt.

Definition pg_rt_revoke_family (family_id : string) : P Z :=
  pg_statement "Failed to revoke family: " (fun _ => st_revoke_where (fun r => String.eqb (row_family_id r) family_id)).

Definition pg_rt_revoke_all_for_user (user_id : string) : P Z :=
  pg_statement "Failed to revoke user tokens: " (fun _ => st_revoke_where (fun r => String.eqb (row_user_id r) user_id)).

(** A statement inside a transaction works on the transaction's own rows. *)
Definition tx_statement {A} (what : string) (stmt : list (RtRow Z) → result (A * list (RtRow Z)) string)
    (rows : list (RtRow Z)) : P (A * list (RtRow Z)) :=
  bk_request what (fun _ t =>
    let '(fault, faults) := match tb_faults t with [] => (None, []) | f :: fs => (f, fs) end in
    (match fault with Some (msg, _) => Err msg | None => stmt rows end, mkTable (tb_rows t) faults)).

Definition pg_rt_rotate (old_token_id new_token_id user_id family_id : string) (expires_at : Z)
    (metadata : RefreshTokenMetadata) : P unit :=
  let! (_, rows) := (fun w => tx_statement "Failed to begin transaction: " (fun rows => Ok (tt, rows))
                                 (tb_rows (bk_store w)) w) in
  let! (_, rows) := tx_statement "Failed to revoke old token: "
                       (st_revoke_where (fun r => String.eqb (row_id r) old_token_id)) rows in
  let! (_, rows) := tx_statement "Failed to store new token: "
                       (st_insert (pg_new_row new_token_id user_id family_id expires_at metadata)) rows in
  pg_statement "Failed to commit transaction: " (fun _ _ => Ok (tt, rows)).

Definition pg_rt_cleanup_expired : P Z :=
  pg_statement "Failed to cleanup expired tokens: " (fun now => st_delete_where (fun r => row_expires_at r <? now)).

#[global] Instance PgRefreshStorage : RefreshTokenStorage (Table (RtRow Z)) := {|
  rts_store := pg_rt_store;
  rts_get := pg_rt_get;
  rts_revoke := pg_rt_revoke;
  rts_revoke_family := pg_rt_revoke_family;
  rts_revoke_all_for_user := pg_rt_revoke_all_for_user;
  rts_rotate := pg_rt_rotate;
  rts_cleanup_expired := pg_rt_cleanup_expired;
|}.
End PgRefresh.

(** ** Turso *)

Section TursoRefresh.
Context `{ClockEnv, RefreshEnv}.
Local Open Scope monad_scope.
Abbreviation U := (M (BkWorld (Table (RtRow string))) Error).

Definition turso_statement {A} (what : string)
    (stmt : string → list (RtRow string) → result (A * list (RtRow string)) string) : U A :=
  sql_statement sqlite_datetime what stmt.

(** SQLite compares texts byte by byte. *)
Definition text_lt (s t : string) : bool := String.ltb s t.

Definition turso_store (token_id user_id family_id : string) (expires_at : Z) (metadata : RefreshTokenMetadata) : U unit :=
  turso_statement "Failed to store refresh token: " (fun _ =>
    st_insert (mkRtRow token_id user_id family_id (rt_to_rfc3339 expires_at) (metadata_to_json metadata) false)).

Definition turso_get (token_id : string) : U (option RefreshTokenData) :=
  let! row := turso_statement "Failed to get refresh token: " (fun now =>
                st_select_first (fun r => String.eqb (row_id r) token_id && text_lt now (row_expires_at r))) in
  match row with
  | Some row =>
      let! expires_at := match rt_parse_rfc3339 (row_expires_at row) with
                         | Some t => ret t
                         | None => bk_now
                         end in
      let! metadata := metadata_or_default (row_metadata row) in
      ret (Some (mkRefreshTokenData (row_id row) (row_user_id row) (row_family_id row) (row_is_revoked row)
                   expires_at metadata))
  | None => ret None
  end.

Definition turso_revoke (token_id : string) : U unit :=
  turso_statement "Failed to revoke token: " (fun _ => st_revoke_where (fun r => String.eqb (row_id r) token_id)) ;;
  ret tt.

Definition turso_revoke_family (family_id : string) : U Z :=
  turso_statement "Failed to revoke family: "
    (fun _ => st_revoke_where (fun r => String.eqb (row_family_id r) family_id)).

Definition turso_revoke_all_for_user (user_id : string) : U Z :=
  turso_statement "Failed to revoke user tokens: "
    (fun _ => st_revoke_where (fun r => String.eqb (row_user_id r) user_id)).

Definition turso_rotate (old_token_id new_token_id user_id family_id : string) (expires_at : Z)
    (metadata : RefreshTokenMetadata) : U unit :=
  turso_revoke old_token_id ;;
  turso_store new_token_id user_id family_id expires_at metadata ;;
  ret tt.

Definition turso_cleanup_expired : U Z :=
  turso_statement "Failed to cleanup expired tokens: "
    (fun now => st_delete_where (fun r => text_lt (row_expires_at r) now)).

#[global] Instance TursoRefreshStorage : RefreshTokenStorage (Table (RtRow string)) := {|
  rts_store := turso_store;
  rts_get := turso_get;
  rts_revoke := turso_revoke;
  rts_revoke_family := turso_revoke_family;
  rts_revoke_all_for_user := turso_revoke_all_for_user;
  rts_rotate := turso_rotate;
  rts_cleanup_expired := turso_cleanup_expired;
|}.
End TursoRefresh.

(** ** What the trait promises *)

(** Everything that is done with a storage. *)
Inductive RtOp :=
| Rt_Store (token_id user_id family_id : string) (expires_at : Z) (metadata : RefreshTokenMetadata)
| Rt_Get (token_id : string)
| Rt_Revoke (token_id : string)
| Rt_RevokeFamily (family_id : string)
| Rt_RevokeUser (user_id : string)
| Rt_Rotate (old new user_id family_id : string) (expires_at : Z) (metadata : RefreshTokenMetadata)
| Rt_Cleanup.

Section Trait.
Context {S : Type} `{!RefreshTokenStorage S}.

Definition rt_run (op : RtOp) : M (BkWorld S) Error unit :=
  match op with
  | Rt_Store id u f e m => rts_store id u f e m
  | Rt_Get id => ignore (rts_get id)
  | Rt_Revoke id => rts_revoke id
  | Rt_RevokeFamily f => ignore (rts_revoke_family f)
  | Rt_RevokeUser u => ignore (rts_revoke_all_for_user u)
  | Rt_Rotate o n u f e m => rts_rotate o n u f e m
  | Rt_Cleanup => ignore rts_cleanup_expired
  end.

Definition rt_run_all (ops : list RtOp) (w : BkWorld S) : BkWorld S :=
  fold_left (fun w op => (rt_run op w).2) ops w.

(** The token id an operation stores. *)
Definition creates (op : RtOp) : option string :=
  match op with
  | Rt_Store id _ _ _ _ => Some id
  | Rt_Rotate _ n _ _ _ _ => Some n
  | _ => None
  end.
End Trait.

(** What a backend owes the trait's users about revocation: there is a condition
    under which a token is dead; [get] never reports a dead token as usable,
    nothing but storing its id again revives it, and a revocation or rotation
    that succeeded leaves it dead. *)
Class RefreshTokenLaws (S : Type) `{!RefreshTokenStorage S} := {
  rt_dead : string → BkWorld S → Prop;
  rt_dead_get id w d w' : rt_dead id w → rts_get id w = (Ok (Some d), w') → rt_is_revoked d = true;
  rt_dead_kept op id w : creates op ≠ Some id → rt_dead id w → rt_dead id (rt_run op w).2;
  rt_dead_revoke id w w' : rts_revoke id w = (Ok tt, w') → rt_dead id w';
  rt_dead_rotate old new u f e m w w' :
    rts_rotate old new u f e m w = (Ok tt, w') → old ≠ new → rt_dead old w';
}.
