(* ===== verification/RefreshSafety.v ===== *)
(** * What refresh token storage guarantees

    Revocation is final, proved from the trait's laws, which Redis, PostgreSQL
    and Turso discharge; rotation in PostgreSQL is atomic; revoking a family
    reaches every token in the SQL backends. The last section shows where the
    Redis and Turso backends do less than the trait's documentation says. *)

From stdpp Require Import countable.
From S2P Require Import Prelude Text FrameworkError AuditStorage RedisKv Backend RefreshTokens.

Local Open Scope string_scope.
Local Open Scope Z_scope.
Local Open Scope list_scope.

(** ** From the trait's laws *)

Section Trait.
Context {S : Type} `{!RefreshTokenStorage S} `{!RefreshTokenLaws S}.

Lemma dead_run_all id ops : ∀ w,
  (∀ op, op ∈ ops → creates op ≠ Some id) → rt_dead id w → rt_dead id (rt_run_all ops w).
Proof.
  induction ops as [|op ops IH]; intros w Hops Hw; [done|]. cbn. apply IH.
  - intros op' Hin. apply Hops. by right.
  - apply rt_dead_kept; [apply Hops; left|done].
Qed.

(** Once a token was revoked or rotated away, no later lookup reports it as
    usable, whatever is done with the storage in between short of storing that id
    again. *)
Definition rt_revocation_final : Prop := ∀ id w w1 ops o w2,
  rts_revoke id w = (Ok tt, w1) ∨
    (∃ new u f e m, id ≠ new ∧ rts_rotate id new u f e m w = (Ok tt, w1)) →
  (∀ op, op ∈ ops → creates op ≠ Some id) →
  rts_get id (rt_run_all ops w1) = (Ok o, w2) →
  match o with Some d => rt_is_revoked d = true | None => True end.

Lemma laws_revocation_final : rt_revocation_final.
Proof using All.
  intros id w w1 ops o w2 Hrev Hops Hget. assert (rt_dead id w1) as Hd.
  { destruct Hrev as [Hr|(new & u & f & e & m & Hne & Hr)]; [by eapply rt_dead_revoke|by eapply rt_dead_rotate]. }
  apply (dead_run_all id ops) in Hd; [|done]. destruct o as [d|]; [|done]. by eapply rt_dead_get.
Qed.
End Trait.

(** ** SQL tables *)

Section Table.
Context `{ClockEnv, RefreshEnv} {X : Type}.
Implicit Types rows : list (RtRow X).

Definition rows_dead (id : string) rows : Prop := ∀ r, r ∈ rows → row_id r = id → row_is_revoked r = true.

Lemma revoke_where_dead id (P : RtRow X → bool) rows n rows' :
  st_revoke_where P rows = Ok (n, rows') → rows_dead id rows → rows_dead id rows'.
Proof.
  intros [= _ <-] Hd r (r0 & -> & Hr0)%list_elem_of_fmap Hid. destruct (P r0); [done|]. by apply Hd.
Qed.

Lemma revoke_where_revokes (P : RtRow X → bool) rows n rows' r :
  st_revoke_where P rows = Ok (n, rows') → (∀ r, P (revoke_row r) = P r) →
  r ∈ rows' → P r = true → row_is_revoked r = true.
Proof.
  intros [= _ <-] HP (r0 & -> & Hr0)%list_elem_of_fmap. destruct (P r0) eqn:E; [done|]. congruence.
Qed.

Lemma insert_dead id row rows rows' :
  st_insert row rows = Ok (tt, rows') → row_id row ≠ id → rows_dead id rows → rows_dead id rows'.
Proof.
  unfold st_insert. destruct (bool_decide _); [done|]. intros [= <-] Hne Hd r.
  intros [Hr| ->%list_elem_of_singleton]%elem_of_app; [by apply Hd|done].
Qed.

Lemma delete_dead id (P : RtRow X → bool) rows n rows' :
  st_delete_where P rows = Ok (n, rows') → rows_dead id rows → rows_dead id rows'.
Proof.
  intros [= _ <-] Hd r Hr. apply Hd. rewrite list_elem_of_In in *. by apply filter_In in Hr as [Hr _].
Qed.

Lemma wkeeps_metadata (I : list (RtRow X) → Prop) text : wkeeps I (metadata_or_default text).
Proof.
  unfold metadata_or_default. destruct (metadata_from_json text); [apply wkeeps_ret|].
  apply wkeeps_bind; [apply wkeeps_now|]. intros now. apply wkeeps_ret.
Qed.

Definition wdead (id : string) (w : BkWorld (Table (RtRow X))) : Prop := winv (rows_dead id) w.

Lemma revoke_id_dead {Y} (stamp : Z → Y) what id w w' n :
  sql_statement stamp what (fun _ => st_revoke_where (fun r : RtRow X => String.eqb (row_id r) id)) w = (Ok n, w') →
  wdead id w'.
Proof.
  intros [[_ ?]|(a & E & _)]%statement_inv; [done|]. intros r Hr Hid.
  eapply (revoke_where_revokes (fun r => String.eqb (row_id r) id)); [exact E|done|done|]. by apply String.eqb_eq.
Qed.
End Table.

(** A lookup that finds a row reports that row's flag. *)
Lemma find_row {X} (P : RtRow X → bool) id rows row :
  List.find (fun r => String.eqb (row_id r) id && P r) rows = Some row → row ∈ rows ∧ row_id row = id.
Proof.
  intros [Hin [Hid%String.eqb_eq _]%andb_true_iff]%find_some. split; [by apply list_elem_of_In|done].
Qed.

Section Pg.
Context `{ClockEnv, RefreshEnv, PgEnv}.

Lemma pg_get_row id (w w' : BkWorld (Table (RtRow Z))) d :
  pg_rt_get id w = (Ok (Some d), w') →
  ∃ row, row ∈ tb_rows (bk_store w) ∧ row_id row = id ∧ row_is_revoked row = rt_is_revoked d ∧
    row_family_id row = rt_family_id d.
Proof.
  intros (row & w1 & Hs & Hk)%bind_Ok. unfold pg_statement in Hs.
  apply statement_inv in Hs as [[_ ?]|(a & [= <- _] & Ha)]; [done|].
  rewrite (Ha row eq_refl) in Hk. destruct (List.find _ _) as [row'|] eqn:Ef; [|done].
  apply find_row in Ef as [Hin Hid]. apply bind_Ok in Hk as (m & w2 & _ & [= <- _]). by exists row'.
Qed.

Lemma tx_statement_inv {A} what (stmt : list (RtRow Z) → result (A * list (RtRow Z)) string) rows w r w' :
  tx_statement what stmt rows w = (r, w') →
  tb_rows (bk_store w') = tb_rows (bk_store w) ∧ ∀ x, r = Ok x → stmt rows = Ok x.
Proof.
  unfold tx_statement. intros (r0 & E & _ & Hr)%request_inv.
  destruct (match tb_faults (bk_store w) with [] => _ | _ => _ end) as [[[msg b]|] fs];
    injection E as <- <-; (split; [done|]); intros x ->; pose proof (proj1 (Hr x) eq_refl); done.
Qed.

(** The rows after a rotation. *)
Definition rotated_rows (old new u f : string) (e : Z) (m : RefreshTokenMetadata) (rows : list (RtRow Z)) : list (RtRow Z) :=
  map (fun r => if String.eqb (row_id r) old then revoke_row r else r) rows ++ [pg_new_row new u f e m].

Lemma pg_rotate_inv old new u f e m w r w' :
  pg_rt_rotate old new u f e m w = (r, w') →
  (is_ok r = false ∧ tb_rows (bk_store w') = tb_rows (bk_store w)) ∨
  ((new ∉ (row_id <$> tb_rows (bk_store w))) ∧
   tb_rows (bk_store w') = rotated_rows old new u f e m (tb_rows (bk_store w))).
Proof.
  unfold pg_rt_rotate. unfold bind at 1.
  destruct (tx_statement _ _ _ w) as [[[[] rows1]|e1] w1] eqn:E1; apply tx_statement_inv in E1 as [Er1 Hs1];
    [|intros [= <- <-]; by left]. specialize (Hs1 _ eq_refl). injection Hs1 as <-.
  unfold bind at 1. destruct (tx_statement _ _ _ w1) as [[[n rows2]|e2] w2] eqn:E2;
    apply tx_statement_inv in E2 as [Er2 Hs2]; [|intros [= <- <-]; left; by rewrite Er2].
  specialize (Hs2 _ eq_refl). injection Hs2 as _ <-. unfold bind at 1.
  destruct (tx_statement _ _ _ w2) as [[[[] rows3]|e3] w3] eqn:E3;
    apply tx_statement_inv in E3 as [Er3 Hs3]; [|intros [= <- <-]; left; by rewrite Er3, Er2].
  specialize (Hs3 _ eq_refl). unfold st_insert in Hs3. case_bool_decide as Hnew; [done|]. injection Hs3 as <-.
  unfold pg_statement. intros [[Er4 Hn]|([] & [= <-] & _)]%statement_inv; [left; by rewrite Er4, Er3, Er2|right].
  split; [|done]. intros Hin. apply Hnew. unfold pg_new_row. cbn. rewrite <-list_fmap_compose.
  apply list_elem_of_fmap in Hin as (r0 & -> & Hr0). apply list_elem_of_fmap. exists r0. split; [|done].
  unfold compose. by destruct (String.eqb _ _).
Qed.

(** Rotation in PostgreSQL is all or nothing: the old token is revoked and
    the new one stored in one step, or, when any statement of the transaction
    fails, the table is as it was (an error of the commit itself leaves one of
    the two); success means both happened. *)
Theorem pg_rotate_atomic old new u f e m w :
  let rows := tb_rows (bk_store w) in
  let '(r, w') := pg_rt_rotate old new u f e m w in
  (is_ok r = true → tb_rows (bk_store w') = rotated_rows old new u f e m rows ∧ new ∉ (row_id <$> rows)) ∧
  (tb_rows (bk_store w') = rows ∨ tb_rows (bk_store w') = rotated_rows old new u f e m rows).
Proof.
  intros rows. destruct (pg_rt_rotate old new u f e m w) as [r w'] eqn:E.
  apply pg_rotate_inv in E as [[Hr E]|[Hn E]].
  - rewrite Hr. by split; [|left].
  - split; [done|by right].
Qed.

Lemma rotated_dead id old new u f e m rows :
  id ≠ new → (rows_dead id rows ∨ id = old) → rows_dead id (rotated_rows old new u f e m rows).
Proof.
  intros Hne Hd r [(r0 & -> & Hr0)%list_elem_of_fmap| ->%list_elem_of_singleton]%elem_of_app Hid; [|done].
  destruct (String.eqb_spec (row_id r0) old) as [|Ho]; [done|]. destruct Hd as [Hd| ->]; [by apply Hd|done].
Qed.

#[global] Instance PgRefresh_Laws : RefreshTokenLaws (Table (RtRow Z)).
Proof.
  refine {| rt_dead := wdead |}.
  - intros id w d w' Hd (row & Hin & Hid & <- & _)%pg_get_row. by apply Hd.
  - intros op id w Hc. revert w. change (wkeeps (rows_dead (X := Z) id) (rt_run op)). destruct op as [i u f e m|i|i|f|u|o n u f e m|]; cbn.
    + apply wkeeps_statement. intros now rows [] rows' E Hd.
      eapply insert_dead; [exact E|cbn in *; congruence|done].
    + apply wkeeps_ignore, wkeeps_bind.
      * apply wkeeps_select.
      * intros [row|]; [|apply wkeeps_ret]. apply wkeeps_bind; [apply wkeeps_metadata|]. intros md. apply wkeeps_ret.
    + apply wkeeps_bind; [|intros n; apply wkeeps_ret].
      apply wkeeps_statement. intros now rows a rows'. apply revoke_where_dead.
    + apply wkeeps_ignore, wkeeps_statement. intros now rows a rows'. apply revoke_where_dead.
    + apply wkeeps_ignore, wkeeps_statement. intros now rows a rows'. apply revoke_where_dead.
    + intros w Hw. destruct (pg_rt_rotate o n u f e m w) as [r w'] eqn:E. unfold winv in *. cbn.
      apply pg_rotate_inv in E as [[_ ->]|[_ ->]]; [done|]. apply rotated_dead; [cbn in *; congruence|by left].
    + apply wkeeps_ignore, wkeeps_statement. intros now rows a rows'. apply delete_dead.
  - intros id w w' (n & w1 & Hr & [= <-])%bind_Ok. by apply revoke_id_dead in Hr.
  - intros old new u f e m w w' [[? _]|[_ E]]%pg_rotate_inv Hne; [done|]. unfold wdead, winv. rewrite E.
    apply rotated_dead; [done|by right].
Defined.
End Pg.

Section Turso.
Context `{ClockEnv, RefreshEnv}.

Lemma turso_get_row id (w w' : BkWorld (Table (RtRow string))) d :
  turso_get id w = (Ok (Some d), w') →
  ∃ row, row ∈ tb_rows (bk_store w) ∧ row_id row = id ∧ row_is_revoked row = rt_is_revoked d ∧
    row_family_id row = rt_family_id d.
Proof.
  intros (row & w1 & Hs & Hk)%bind_Ok. unfold turso_statement in Hs.
  apply statement_inv in Hs as [[_ ?]|(a & [= <- _] & Ha)]; [done|].
  rewrite (Ha row eq_refl) in Hk. destruct (List.find _ _) as [row'|] eqn:Ef; [|done].
  apply find_row in Ef as [Hin Hid]. apply bind_Ok in Hk as (e & w2 & _ & Hk).
  apply bind_Ok in Hk as (m & w3 & _ & [= <- _]). by exists row'.
Qed.

Lemma turso_store_keeps id i u f e m : i ≠ id → wkeeps (rows_dead id) (turso_store i u f e m).
Proof.
  intros Hne. apply wkeeps_statement. intros now rows [] rows' E Hd.
  eapply insert_dead; [exact E|done|done].
Qed.

Lemma turso_revoke_keeps id i : wkeeps (rows_dead id) (turso_revoke i).
Proof.
  apply wkeeps_bind; [|intros n; apply wkeeps_ret].
  apply wkeeps_statement. intros now rows a rows'. apply revoke_where_dead.
Qed.

Lemma turso_rotate_keeps id old new u f e m : new ≠ id → wkeeps (rows_dead id) (turso_rotate old new u f e m).
Proof.
  intros Hne. apply wkeeps_bind; [apply turso_revoke_keeps|]. intros _.
  apply wkeeps_bind; [by apply turso_store_keeps|]. intros _. apply wkeeps_ret.
Qed.

#[global] Instance TursoRefresh_Laws : RefreshTokenLaws (Table (RtRow string)).
Proof.
  refine {| rt_dead := wdead |}.
  - intros id w d w' Hd (row & Hin & Hid & <- & _)%turso_get_row. by apply Hd.
  - intros op id w Hc. revert w. change (wkeeps (rows_dead (X := string) id) (rt_run op)).
    destruct op as [i u f e m|i|i|f|u|o n u f e m|]; cbn.
    + apply turso_store_keeps. cbn in *. congruence.
    + apply wkeeps_ignore, wkeeps_bind.
      * apply wkeeps_select.
      * intros [row|]; [|apply wkeeps_ret].
        apply wkeeps_bind; [destruct (rt_parse_rfc3339 _); [apply wkeeps_ret|apply wkeeps_now]|]. intros e.
        apply wkeeps_bind; [apply wkeeps_metadata|]. intros md. apply wkeeps_ret.
    + apply turso_revoke_keeps.
    + apply wkeeps_ignore, wkeeps_statement. intros now rows a rows'. apply revoke_where_dead.
    + apply wkeeps_ignore, wkeeps_statement. intros now rows a rows'. apply revoke_where_dead.
    + apply turso_rotate_keeps. cbn in *. congruence.
    + apply wkeeps_ignore, wkeeps_statement. intros now rows a rows'. apply delete_dead.
  - intros id w w' (n & w1 & Hr & [= <-])%bind_Ok. by apply revoke_id_dead in Hr.
  - intros old new u f e m w w' (? & w1 & (n & w2 & Hr & [= <- <-])%bind_Ok & Hk)%bind_Ok Hne.
    apply revoke_id_dead in Hr. apply bind_Ok in Hk as ([] & w3 & Hs & [= <-]).
    pose proof (turso_store_keeps old new u f e m ltac:(done) w2 Hr) as Hk. by rewrite Hs in Hk.
Defined.
End Turso.

(** ** Families *)

Section Family.
Context `{ClockEnv, RefreshEnv}.

Lemma family_where_revokes {X Y} (stamp : Z → Y) what f w n w' row :
  sql_statement stamp what (fun _ => st_revoke_where (fun r : RtRow X => String.eqb (row_family_id r) f)) w = (Ok n, w') →
  row ∈ tb_rows (bk_store w') → row_family_id row = f → row_is_revoked row = true.
Proof.
  intros [[_ ?]|(a & E & _)]%statement_inv Hin Hf; [done|].
  eapply (revoke_where_revokes (fun r => String.eqb (row_family_id r) f)); [exact E|done|done|]. by apply String.eqb_eq.
Qed.

(** Revoking a family, the answer to a reused token, reaches every token of
    the family in the PostgreSQL and Turso backends: no lookup right after it
    reports one of them as usable. *)
Theorem family_revocation_complete `{PgEnv} f id d :
  (∀ w n w1 w2, pg_rt_revoke_family f w = (Ok n, w1) → pg_rt_get id w1 = (Ok (Some d), w2) →
     rt_family_id d = f → rt_is_revoked d = true) ∧
  (∀ w n w1 w2, turso_revoke_family f w = (Ok n, w1) → turso_get id w1 = (Ok (Some d), w2) →
     rt_family_id d = f → rt_is_revoked d = true).
Proof.
  split; intros w n w1 w2 Hr Hg Hf.
  - apply pg_get_row in Hg as (row & Hin & _ & <- & Hfam).
    exact (family_where_revokes pg_timestamptz _ f w n w1 row Hr Hin ltac:(congruence)).
  - apply turso_get_row in Hg as (row & Hin & _ & <- & Hfam).
    exact (family_where_revokes sqlite_datetime _ f w n w1 row Hr Hin ltac:(congruence)).
Qed.
End Family.

(** ** Redis *)

Section Redis.
Context `{ClockEnv} `{!ClockLaws} `{RefreshEnv} `{!RefreshEnvLaws} {R : Type} `{!RedisKv R} `{!RedisKvLaws R} (key_prefix : string).
Abbreviation T := (M (BkWorld R) Error).

(** A string under [k], if any, spells a revoked token. *)
Definition dead_under (k k' j : string) : Prop := k' = k → ∀ d, data_from_json j = Ok d → rt_is_revoked d = true.

Abbreviation kdead k := (kinv (R := R) (dead_under k)).
Abbreviation rkeeps k := (kkeeps (R := R) (dead_under k)).

(** *** The operations *)

Lemma token_key_inj i j : token_key key_prefix i = token_key key_prefix j → i = j.
Proof. unfold token_key. by intros E%string_app_inj_l%string_app_inj_l. Qed.

Lemma redis_get_keeps k i : rkeeps k (redis_get key_prefix i).
Proof.
  apply kkeeps_bind; [apply kkeeps_connection|]. intros _. apply kkeeps_bind; [by apply kkeeps_cmd|].
  intros [|[j|]|ms]; try apply kkeeps_ret. apply kkeeps_bind; [apply kkeeps_lift|]. intros d. apply kkeeps_ret.
Qed.

Lemma redis_revoke_keeps k i : rkeeps k (redis_revoke key_prefix i).
Proof.
  apply kkeeps_bind; [apply kkeeps_connection|]. intros _. apply kkeeps_bind; [apply redis_get_keeps|].
  intros [d|]; [|apply kkeeps_ret]. apply kkeeps_bind; [apply kkeeps_now|]. intros now.
  apply kkeeps_bind; [|intros _; apply kkeeps_ret]. apply kkeeps_cmd. cbn. intros _ d'.
  rewrite data_json_roundtrip. by intros [= <-].
Qed.

Lemma redis_store_keeps id i u f e m :
  i ≠ id → rkeeps (token_key key_prefix id) (redis_store key_prefix i u f e m).
Proof.
  intros Hne. apply kkeeps_bind; [apply kkeeps_connection|]. intros _. apply kkeeps_bind; [apply kkeeps_now|].
  intros now. apply kkeeps_bind.
  { apply kkeeps_cmd. cbn. by intros E%token_key_inj. }
  intros _. repeat (apply kkeeps_bind; [by apply kkeeps_cmd|intros _]). apply kkeeps_ret.
Qed.

Lemma revoke_each_keeps k ids : ∀ n, rkeeps k (revoke_each key_prefix ids n).
Proof.
  induction ids as [|i ids IH]; intros n; cbn; [apply kkeeps_ret|].
  apply kkeeps_bind; [apply redis_revoke_keeps|]. intros _. apply IH.
Qed.

Lemma revoke_members_keeps k what key : rkeeps k (redis_revoke_members key_prefix what key).
Proof.
  apply kkeeps_bind; [apply kkeeps_connection|]. intros _. apply kkeeps_bind; [by apply kkeeps_cmd|].
  intros [| |ms]; [apply kkeeps_ret..|apply revoke_each_keeps].
Qed.

(** A successful revocation leaves the token dead. *)
Lemma redis_get_reads i w o w' :
  redis_get key_prefix i w = (Ok o, w') →
  (o = None → kdead (token_key key_prefix i) w') ∧
  (∀ d, o = Some d → kdead (token_key key_prefix i) w → rt_is_revoked d = true).
Proof.
  intros ([] & w1 & Hc & Hk)%bind_Ok. apply bind_Ok in Hk as (reply & w2 & Hg & Hk).
  assert (kdead (token_key key_prefix i) w → kdead (token_key key_prefix i) w1) as Hconn.
  { intros Hw. pose proof (kkeeps_connection _ w Hw) as Hk1. by rewrite Hc in Hk1. }
  apply get_inv in Hg as [_ Hg]. destruct reply as [|[j|]|ms].
  2: { apply bind_Ok in Hk as (d' & w3 & Hl & [= <- _]). split; [done|]. intros d [= <-] Hw%Hconn.
       destruct Hg as [dl Hg]. injection Hl as Hl _. inv_result. by eapply Hw. }
  all: injection Hk as <- <-; (split; [|done]); intros _ k v dl Hs ->; by apply Hg in Hs.
Qed.

Lemma redis_revoke_dead i w w' : redis_revoke key_prefix i w = (Ok tt, w') → kdead (token_key key_prefix i) w'.
Proof.
  intros ([] & w1 & _ & (o & w2 & Hg & Hk)%bind_Ok)%bind_Ok. apply redis_get_reads in Hg as [Hn _].
  destruct o as [d|]; [|injection Hk as <-; by apply Hn].
  apply bind_Ok in Hk as (now & w3 & _ & (reply & w4 & Hs & [= <-])%bind_Ok).
  apply cmd_inv in Hs as (Et & b & Hsee & Hr). destruct (Hr reply eq_refl) as [-> _].
  destruct w3 as [s3 i3], w4 as [s4 i4]. cbn in *. subst i4. apply (kinv_later _ i3); [lia|].
  intros k v dl. unfold sees. cbn. intros E -> d'. rewrite Hsee, decide_True in E by done. cbn in E.
  injection E as <- _. rewrite data_json_roundtrip. by intros [= <-].
Qed.

Lemma RedisRefresh_Laws : @RefreshTokenLaws R (RedisRefreshStorage key_prefix).
Proof.
  refine (@Build_RefreshTokenLaws R (RedisRefreshStorage key_prefix)
    (fun id => kdead (token_key key_prefix id)) _ _ _ _); cbn.
  - intros id w d w' Hd Hg. by apply redis_get_reads in Hg as [_ Hg]; apply (Hg d).
  - intros op id w Hc. revert w. destruct op as [i u f e m|i|i|f|u|o n u f e m|]; cbn in *.
    + apply redis_store_keeps. congruence.
    + apply kkeeps_ignore, redis_get_keeps.
    + apply redis_revoke_keeps.
    + apply kkeeps_ignore, revoke_members_keeps.
    + apply kkeeps_ignore, revoke_members_keeps.
    + apply kkeeps_bind; [apply redis_revoke_keeps|]. intros _.
      apply kkeeps_bind; [apply redis_store_keeps; congruence|]. intros _. apply kkeeps_ret.
    + by intros w Hw.
  - apply redis_revoke_dead.
  - intros old new u f e m w w' ([] & w1 & Hr%redis_revoke_dead & ([] & w2 & Hs & [= <-])%bind_Ok)%bind_Ok Hne.
    pose proof (redis_store_keeps old new u f e m ltac:(done) w1 Hr) as Hk. by rewrite Hs in Hk.
Defined.
End Redis.

(** ** Revocation in the backends *)

(** C13: In the Redis, PostgreSQL and Turso backends revoking a refresh token is
    final: once a revocation succeeded, or a rotation that replaces the token, no
    lookup that succeeds reports it as usable, whatever other operations come in
    between, one at a time and each failing or not, short of storing that very id
    again ([redis_store_again_revives]). *)
Theorem refresh_revocation_final `{ClockEnv} `{!ClockLaws} `{RefreshEnv} `{!RefreshEnvLaws} `{PgEnv}
    {R : Type} `{!RedisKv R} `{!RedisKvLaws R} (key_prefix : string) :
  @rt_revocation_final R (RedisRefreshStorage key_prefix) ∧
  @rt_revocation_final _ PgRefreshStorage ∧
  @rt_revocation_final _ TursoRefreshStorage.
Proof.
  split; [|split].
  - exact (@laws_revocation_final R _ (RedisRefresh_Laws key_prefix)).
  - exact (@laws_revocation_final _ _ PgRefresh_Laws).
  - exact (@laws_revocation_final _ _ TursoRefresh_Laws).
Qed.

(** ** Witnesses *)

Definition witness_data_text (d : RefreshTokenData) : string :=
  let m := rt_metadata d in
  pos_text (encode (rt_token_id d, rt_user_id d, rt_family_id d, rt_is_revoked d, rt_expires_at d,
                    (rtm_user_agent m, rtm_ip_address m, rtm_device_id m, rtm_created_at m))).

Definition witness_data_of (s : string) : result RefreshTokenData string :=
  match decode (A := string * string * string * bool * Z * (option string * option string * option string * Z))
          (text_pos s) with
  | Some (id, u, f, b, e, (a, ip, dev, c)) => Ok (mkRefreshTokenData id u f b e (mkRefreshTokenMetadata a ip dev c))
  | None => Err "malformed"
  end.

(** A second per reading of the clock. *)
#[local] Instance witness_clock : ClockEnv := {| bk_clock n := Z.of_nat n * 1000000000 |}.

#[local] Instance witness_clock_laws : ClockLaws.
Proof. split. intros i j Hij. cbn. lia. Qed.

#[local] Instance witness_refresh_env : RefreshEnv := {|
  data_to_json := witness_data_text;
  data_from_json := witness_data_of;
  metadata_to_json _ := "{}";
  metadata_from_json _ := Ok (mkRefreshTokenMetadata None None None 0);
  rt_to_rfc3339 t := if t <? 60000000000 then "2026-01-01T00:00:00+00:00" else "2026-01-01T12:00:00+00:00";
  rt_parse_rfc3339 _ := None;
  sqlite_datetime _ := "2026-01-01 18:00:00";
  unique_violation := "duplicate key";
|}.

#[local] Instance witness_refresh_laws : RefreshEnvLaws.
Proof.
  split. intros [id u f b e [a ip dev c]]. cbn. unfold witness_data_of, witness_data_text.
  cbn. rewrite text_pos_text. by rewrite decode_encode.
Qed.

Definition witness_md : RefreshTokenMetadata := mkRefreshTokenMetadata None None None 0.

Definition witness_kv : BkWorld KvStore := mkBkWorld (mkKvStore ∅ []) 0.

Definition witness_rt_ops : list RtOp :=
  [Rt_Store "b" "u" "f" 5000000000000 witness_md; Rt_RevokeFamily "other";
   Rt_Rotate "b" "c" "u" "f" 5000000000000 witness_md; Rt_Cleanup].

Definition witness_storage : RefreshTokenStorage KvStore := RedisRefreshStorage "refresh_token".

Definition witness_stored : BkWorld KvStore :=
  (@rts_store _ witness_storage "a" "u" "f" 5000000000000 witness_md witness_kv).2.

Definition witness_revoked : BkWorld KvStore := (@rts_revoke _ witness_storage "a" witness_stored).2.

#[local] Instance witness_rt_pg : PgEnv := {| pg_timestamptz t := t; pg_jsonb j := j; pg_constraint_msg := "" |}.

(** The token is still found after its revocation, and found revoked. *)
Lemma refresh_revocation_final_witness :
  let r := (@rts_get _ witness_storage "a" (@rt_run_all _ witness_storage witness_rt_ops witness_revoked)).1 in
  match r with Ok (Some _) => true | _ => false end = true ∧
  ∀ d, r = Ok (Some d) → rt_is_revoked d = true.
Proof.
  split; [vm_compute; reflexivity|]. intros d Hd.
  refine (proj1 (@refresh_revocation_final _ _ _ _ witness_rt_pg KvStore _ _ "refresh_token") "a"
    witness_stored witness_revoked witness_rt_ops (Some d) _ (or_introl _) _
    (eq_trans (surjective_pairing _) (f_equal2 pair Hd eq_refl))).
  - refine (eq_trans (surjective_pairing _) (f_equal2 pair _ eq_refl)). vm_compute. reflexivity.
  - intros op Hop. unfold witness_rt_ops in Hop. set_unfold in Hop. destruct_or! Hop; subst; discriminate.
Defined.

(** In Redis a store is a SET: storing the id of a revoked token again makes it
    usable again. *)
Lemma redis_store_again_revives :
  rt_is_revoked <$> (match (@rts_get _ witness_storage "a" witness_revoked).1 with Ok o => o | Err _ => None end) = Some true ∧
  rt_is_revoked <$> (match (@rts_get _ witness_storage "a" (@rt_run _ witness_storage
    (Rt_Store "a" "u" "f" 5000000000000 witness_md) witness_revoked).2).1 with Ok o => o | Err _ => None end) = Some false.
Proof. split; vm_compute; reflexivity. Qed.

(** ** Where backends do less than the trait says *)

(** Storing a short-lived token shortens the family set's life: revoking the
    family afterwards finds no member, and the family's long-lived token stays
    usable. *)
Lemma redis_family_revocation_misses :
  let store id e := redis_store "refresh_token" id "u" "f" e witness_md in
  let w1 := (store "long" 5000000000000 witness_kv).2 in
  let w2 := (store "short" 10000000000 w1).2 in
  let '(r, w3) := redis_revoke_family "refresh_token" "f" w2 in
  r = Ok 0 ∧
  match (redis_get "refresh_token" "long" w3).1 with Ok (Some d) => rt_is_revoked d = false | _ => False end.
Proof. vm_compute. split; reflexivity. Qed.

(** When storing the new token fails, the rotation in Turso (and in Redis)
    has already revoked the old one: the session is lost. *)
Lemma turso_rotate_not_atomic :
  let w := mkBkWorld (mkTable [mkRtRow "old" "u" "f" "2026-01-02T00:00:00+00:00" "{}" false]
                        [None; Some ("database is locked", false)]) 0 in
  let '(r, w') := turso_rotate "old" "new" "u" "f" 5000000000000 witness_md w in
  is_ok r = false ∧ map (fun row => (row_id row, row_is_revoked row)) (tb_rows (bk_store w')) = [("old", true)].
Proof. vm_compute. split; reflexivity. Qed.

(** In Turso a token that expired earlier on the same day is still found: the
    stored [T] of RFC 3339 is greater than the space of [datetime('now')]. *)
Lemma turso_same_day_not_expired (date now expires : string) :
  text_lt (date +:+ String " " now) (date +:+ String "T" expires) = true.
Proof.
  unfold text_lt, String.ltb. induction date as [|c date IH]; [done|].
  change ((match (String c (date +:+ String " " now) ?= String c (date +:+ String "T" expires))%string with
           | Lt => true | _ => false end) = true).
  cbn. unfold Ascii.compare. by rewrite N.compare_refl.
Qed.
