(* ===== verification/Rooms.v ===== *)
(** * WebSocket rooms and broadcasting

    [src/acton-service/src/websocket/{rooms,messages,broadcast}.rs]: the room
    manager actor, whose state is the set of rooms with their members and the
    rooms of each connection, and the [Broadcaster] registry. The actor
    handles one message at a time, so it is a step function. A
    [ConnectionId] is its UUID as a number; a channel sender is a number that
    names the channel; the message type is a parameter. Clock readings are
    arguments: [created] for [Room::new] and [touched] for [Room::touch].

    The abstract state of the manager is a relation, which connection is in
    which room; the two indices are shown to agree with it. *)

From S2P Require Import Prelude.

Local Open Scope string_scope.
Local Open Scope Z_scope.
Local Open Scope list_scope.

Abbreviation ConnectionId := N.
Abbreviation RoomId := string.
Abbreviation Sender := N.

(** ** Data *)

Record RoomMember := mkRoomMember {
  rmb_connection_id : ConnectionId;
  rmb_sender : Sender;
  rmb_user_id : option string;
  rmb_joined_at : Z;
}.

Definition member_new (now : Z) (connection_id : ConnectionId) (sender : Sender) : RoomMember :=
  mkRoomMember connection_id sender None now.

Definition member_authenticated (now : Z) (connection_id : ConnectionId) (sender : Sender)
    (user_id : string) : RoomMember :=
  mkRoomMember connection_id sender (Some user_id) now.

Record Room := mkRoom {
  room_id : RoomId;
  room_members : gmap ConnectionId RoomMember;
  room_created_at : Z;
  room_last_activity : Z;
  room_metadata : gmap string string;
}.

Definition room_new (now : Z) (id : RoomId) : Room := mkRoom id ∅ now now ∅.

Definition room_is_empty (r : Room) : bool := bool_decide (room_members r = ∅).

(** Update of the members, followed by [touch]. *)
Definition room_set_members (f : gmap ConnectionId RoomMember → gmap ConnectionId RoomMember)
    (r : Room) : Room :=
  mkRoom (room_id r) (f (room_members r)) (room_created_at r) (room_last_activity r) (room_metadata r).

Definition room_touch (now : Z) (r : Room) : Room :=
  mkRoom (room_id r) (room_members r) (room_created_at r) now (room_metadata r).

Record RoomConfig := mkRoomConfig {
  rc_enabled : bool;
  rc_max_members : nat;
  rc_max_rooms_per_connection : nat;
  rc_idle_timeout_secs : Z;
}.

Definition RoomConfig_default : RoomConfig := mkRoomConfig true 1000 10 3600.

Record RoomManagerState := mkRoomManagerState {
  rm_rooms : gmap RoomId Room;
  rm_connection_rooms : gmap ConnectionId (gset RoomId);
  rm_max_members_per_room : nat;
  rm_max_rooms_per_connection : nat;
}.

Section Rooms.
Context {Message : Type}.

Inductive RoomMsg :=
| JoinRoomRequest (room : RoomId) (member : RoomMember)
| LeaveRoomRequest (room : RoomId) (connection_id : ConnectionId)
| BroadcastToRoom (room : RoomId) (message : Message) (exclude_sender : option ConnectionId)
| ConnectionDisconnected (connection_id : ConnectionId)
| GetRoomInfo (room : RoomId).

(** What a handler sends: messages to channels, or the reply to an [ask]. *)
Inductive RoomEffect :=
| Send (to : Sender) (message : Message)
| RoomInfoResponse (room : RoomId) (member_count : nat) (exists_ : bool).

Implicit Types s : RoomManagerState.

Definition rm_spawn (config : RoomConfig) : RoomManagerState :=
  mkRoomManagerState ∅ ∅ (rc_max_members config) (rc_max_rooms_per_connection config).

Definition rm_set (rooms : gmap RoomId Room) (conns : gmap ConnectionId (gset RoomId)) s :=
  mkRoomManagerState rooms conns (rm_max_members_per_room s) (rm_max_rooms_per_connection s).

(** ** The handlers *)

(** [mutate_on::<JoinRoomRequest>]. *)
Definition join_room (created touched : Z) (room : RoomId) (member : RoomMember) s : RoomManagerState :=
  let c := rmb_connection_id member in
  (* [entry(connection_id).or_default()], [entry(room_id).or_insert_with(..)] *)
  let connection_rooms := default ∅ (rm_connection_rooms s !! c) in
  let conns := <[c := connection_rooms]> (rm_connection_rooms s) in
  if (rm_max_rooms_per_connection s <=? size connection_rooms)%nat then rm_set (rm_rooms s) conns s
  else
  let r := default (room_new created room) (rm_rooms s !! room) in
  let rooms := <[room := r]> (rm_rooms s) in
  if (rm_max_members_per_room s <=? size (room_members r))%nat then rm_set rooms conns s
  else
  rm_set (<[room := room_touch touched (room_set_members (<[c := member]>) r)]> rooms)
         (<[c := {[room]} ∪ connection_rooms]> conns) s.

(** Remove a connection from a room, and the room when it is left empty. *)
Definition room_remove (touch : Room → Room) (room : RoomId) (c : ConnectionId)
    (rooms : gmap RoomId Room) : gmap RoomId Room :=
  match rooms !! room with
  | Some r =>
      let r := touch (room_set_members (delete c) r) in
      if room_is_empty r then delete room rooms else <[room := r]> rooms
  | None => rooms
  end.

(** [mutate_on::<LeaveRoomRequest>]. *)
Definition leave_room (touched : Z) (room : RoomId) (c : ConnectionId) s : RoomManagerState :=
  let rooms := room_remove (room_touch touched) room c (rm_rooms s) in
  match rm_connection_rooms s !! c with
  | Some joined => rm_set rooms (<[c := joined ∖ {[room]}]> (rm_connection_rooms s)) s
  | None => rm_set rooms (rm_connection_rooms s) s
  end.

(** [mutate_on::<ConnectionDisconnected>]. *)
Definition disconnect (c : ConnectionId) s : RoomManagerState :=
  match rm_connection_rooms s !! c with
  | Some joined =>
      rm_set (foldr (fun room => room_remove id room c) (rm_rooms s) (elements joined))
             (delete c (rm_connection_rooms s)) s
  | None => s
  end.

(** [act_on::<BroadcastToRoom>]: the sends, in the map's order. *)
Definition broadcast_to_room (room : RoomId) (message : Message) (exclude : option ConnectionId) s
    : list RoomEffect :=
  match rm_rooms s !! room with
  | Some r =>
      let keep m := match exclude with
                    | Some id => negb (rmb_connection_id m =? id)%N
                    | None => true
                    end in
      map (fun m => Send (rmb_sender m) message)
        (List.filter keep (map snd (map_to_list (room_members r))))
  | None => []
  end.

(** [act_on::<GetRoomInfo>]. *)
Definition room_info (room : RoomId) s : RoomEffect :=
  match rm_rooms s !! room with
  | Some r => RoomInfoResponse room (size (room_members r)) true
  | None => RoomInfoResponse room 0 false
  end.

Definition rm_handle (created touched : Z) (msg : RoomMsg) s : RoomManagerState * list RoomEffect :=
  match msg with
  | JoinRoomRequest room member => (join_room created touched room member s, [])
  | LeaveRoomRequest room c => (leave_room touched room c s, [])
  | BroadcastToRoom room message exclude => (s, broadcast_to_room room message exclude s)
  | ConnectionDisconnected c => (disconnect c s, [])
  | GetRoomInfo room => (s, [room_info room s])
  end.

(** A run of the actor: each message with the clock readings it sees. *)
Definition rm_run (msgs : list (Z * Z * RoomMsg)) s : RoomManagerState :=
  fold_left (fun s '(created, touched, msg) => (rm_handle created touched msg s).1) msgs s.

(** ** The abstract state *)

(** Which connection is in which room, as each index has it. *)
Definition in_room s (c : ConnectionId) (room : RoomId) : Prop :=
  ∃ r, rm_rooms s !! room = Some r ∧ is_Some (room_members r !! c).

Definition joined s (c : ConnectionId) (room : RoomId) : Prop :=
  ∃ rooms, rm_connection_rooms s !! c = Some rooms ∧ room ∈ rooms.

Definition members_in (rooms : gmap RoomId Room) (room : RoomId) : gmap ConnectionId RoomMember :=
  from_option room_members ∅ (rooms !! room).

Definition members_of s : RoomId → gmap ConnectionId RoomMember := members_in (rm_rooms s).

Definition rooms_of s (c : ConnectionId) : gset RoomId := default ∅ (rm_connection_rooms s !! c).

Lemma in_room_members s c room : in_room s c room ↔ is_Some (members_of s room !! c).
Proof.
  unfold in_room, members_of, members_in. destruct (rm_rooms s !! room) as [r|]; cbn; [naive_solver|].
  rewrite lookup_empty. split; [naive_solver|by intros [? ?]].
Qed.

Lemma joined_rooms s c room : joined s c room ↔ room ∈ rooms_of s c.
Proof.
  unfold joined, rooms_of. destruct (rm_connection_rooms s !! c) as [rooms|]; cbn; [naive_solver|].
  set_solver.
Qed.

(** Invariant: the indices agree, entries are filed under their own ids, the
    limits hold, and with a sensible configuration no empty room is kept. *)
Record rm_inv s : Prop := mk_rm_inv {
  inv_agree c room : in_room s c room ↔ joined s c room;
  inv_room_id room r : rm_rooms s !! room = Some r → room_id r = room;
  inv_member_id room c m : members_of s room !! c = Some m → rmb_connection_id m = c;
  inv_members room : (size (members_of s room) ≤ rm_max_members_per_room s)%nat;
  inv_rooms c : (size (rooms_of s c) ≤ rm_max_rooms_per_connection s)%nat;
  inv_nonempty room r : (0 < rm_max_members_per_room s)%nat →
    rm_rooms s !! room = Some r → room_members r ≠ ∅;
}.

(** What a message does to the relation. *)
Definition admits s (c : ConnectionId) (room : RoomId) : Prop :=
  (size (rooms_of s c) < rm_max_rooms_per_connection s)%nat ∧
  (size (members_of s room) < rm_max_members_per_room s)%nat.

Definition in_room_after s (msg : RoomMsg) (c : ConnectionId) (room : RoomId) : Prop :=
  match msg with
  | JoinRoomRequest room' m =>
      in_room s c room ∨ (c = rmb_connection_id m ∧ room = room' ∧ admits s c room)
  | LeaveRoomRequest room' c' => in_room s c room ∧ ¬ (c = c' ∧ room = room')
  | ConnectionDisconnected c' => in_room s c room ∧ c ≠ c'
  | _ => in_room s c room
  end.

(** ** Members after each update *)

Lemma members_in_insert rooms room r room' :
  members_in (<[room := r]> rooms) room' =
  if decide (room' = room) then room_members r else members_in rooms room'.
Proof.
  unfold members_in. case_decide; subst; [by rewrite lookup_insert_eq|].
  by rewrite lookup_insert_ne by done.
Qed.

Section Remove.
Variable touch : Room → Room.
Hypothesis touch_members : ∀ r, room_members (touch r) = room_members r.
Hypothesis touch_id : ∀ r, room_id (touch r) = room_id r.

Lemma members_in_remove rooms room c room' :
  members_in (room_remove touch room c rooms) room' =
  if decide (room' = room) then delete c (members_in rooms room) else members_in rooms room'.
Proof.
  unfold room_remove, members_in, room_is_empty.
  destruct (rooms !! room) as [r|] eqn:E; cbn.
  - rewrite touch_members. cbn.
    destruct (decide (room' = room)) as [->|].
    + case_bool_decide as He; [by rewrite lookup_delete_eq, He|].
      rewrite lookup_insert_eq. cbn. by rewrite touch_members.
    + case_bool_decide; [by rewrite lookup_delete_ne|by rewrite lookup_insert_ne].
  - case_decide; subst; [|done]. by rewrite E, delete_empty.
Qed.

(** A room that is still there was there before, and is not empty unless it
    was not touched. *)
Lemma room_remove_lookup rooms room c room' r :
  room_remove touch room c rooms !! room' = Some r →
  (∃ r0, rooms !! room' = Some r0 ∧ room_id r = room_id r0) ∧
  (room_members r ≠ ∅ ∨ rooms !! room' = Some r).
Proof.
  unfold room_remove, room_is_empty. destruct (rooms !! room) as [r0|] eqn:E; [|eauto].
  case_bool_decide as He.
  - rewrite lookup_delete_Some. naive_solver.
  - destruct (decide (room' = room)) as [->|]; [|rewrite lookup_insert_ne by done; eauto].
    rewrite lookup_insert_eq. intros [= <-]. rewrite touch_id. eauto.
Qed.
End Remove.

(** The disconnect loop. *)
Lemma members_in_remove_all rooms l c room :
  members_in (foldr (fun room => room_remove id room c) rooms l) room =
  if decide (room ∈ l) then delete c (members_in rooms room) else members_in rooms room.
Proof.
  induction l as [|room' l IH]; cbn [foldr]; [by rewrite decide_False by set_solver|].
  rewrite members_in_remove by done.
  destruct (decide (room = room')) as [->|]; [|rewrite IH; repeat case_decide; set_solver].
  rewrite IH, (decide_True (P := room' ∈ room' :: l)) by set_solver.
  case_decide; [|done]. by rewrite delete_delete_eq.
Qed.

Lemma room_remove_all_lookup rooms l c room r :
  foldr (fun room => room_remove id room c) rooms l !! room = Some r →
  (∃ r0, rooms !! room = Some r0 ∧ room_id r = room_id r0) ∧
  (room_members r ≠ ∅ ∨ rooms !! room = Some r).
Proof.
  revert r. induction l as [|room' l IH]; intros r; cbn [foldr]; [eauto|].
  intros [(r1 & H1 & E1) Hm]%room_remove_lookup; [|done..].
  destruct (IH _ H1) as [(r0 & H0 & E0) _]. split; [exists r0; split; congruence|].
  destruct Hm as [|Hm]; [by left|]. by apply IH in Hm as [_ ?].
Qed.

Lemma rooms_of_insert rooms conns s c l c' :
  rooms_of (rm_set rooms (<[c := l]> conns) s) c' =
  if decide (c' = c) then l else default ∅ (conns !! c').
Proof.
  unfold rooms_of; cbn. case_decide; subst; [by rewrite lookup_insert_eq|].
  by rewrite lookup_insert_ne.
Qed.

#[local] Instance admits_dec s c room : Decision (admits s c room).
Proof. unfold admits. apply _. Defined.

(** The effect of a join on both indices. *)
Lemma join_room_effect created touched room m s :
  let c := rmb_connection_id m in
  let s' := join_room created touched room m s in
  (∀ room', members_of s' room' =
     if decide (admits s c room ∧ room' = room) then <[c := m]> (members_of s room)
     else members_of s room') ∧
  (∀ c', rooms_of s' c' =
     if decide (admits s c room ∧ c' = c) then {[room]} ∪ rooms_of s c else rooms_of s c').
Proof.
  intros c s'. unfold s', join_room, admits, members_of. fold c.
  change (default ∅ (rm_connection_rooms s !! c)) with (rooms_of s c).
  assert (room_members (default (room_new created room) (rm_rooms s !! room)) =
          members_in (rm_rooms s) room) as Er.
  { unfold members_in. by destruct (rm_rooms s !! room). }
  assert (∀ rooms c', rooms_of (rm_set rooms (<[c := rooms_of s c]> (rm_connection_rooms s)) s) c'
                      = rooms_of s c') as Ec.
  { intros rooms c'. rewrite rooms_of_insert. case_decide; by subst. }
  destruct (Nat.leb_spec (rm_max_rooms_per_connection s) (size (rooms_of s c))).
  { split; intros; [|rewrite Ec]; by rewrite decide_False by lia. }
  rewrite Er. destruct (Nat.leb_spec (rm_max_members_per_room s) (size (members_in (rm_rooms s) room))).
  { split; intros x; rewrite decide_False by lia; [|by rewrite Ec]. cbn.
    rewrite members_in_insert, Er. case_decide; by subst. }
  split; intros x; [cbn; rewrite !members_in_insert|rewrite rooms_of_insert]; cbn; rewrite ?Er.
  - repeat case_decide; naive_solver.
  - repeat case_decide; [naive_solver..|]. rewrite lookup_insert_ne; naive_solver.
Qed.

(** Its rooms are those there were, or the one joined. *)
Lemma join_room_lookup created touched room m s room' r :
  rm_rooms (join_room created touched room m s) !! room' = Some r →
  (room_id r = room' ∨ ∃ r0, rm_rooms s !! room' = Some r0 ∧ room_id r = room_id r0) ∧
  (room_members r ≠ ∅ ∨ rm_rooms s !! room' = Some r ∨ rm_max_members_per_room s = 0%nat).
Proof.
  unfold join_room.
  destruct (_ <=? _)%nat; [cbn; naive_solver|]. destruct (_ <=? _)%nat eqn:Em; cbn;
    (destruct (decide (room' = room)) as [->|];
     [rewrite lookup_insert_eq; intros [= <-]|rewrite ?lookup_insert_ne by done; naive_solver]).
  - destruct (rm_rooms s !! room) as [r0|]; cbn in *; [naive_solver|].
    apply Nat.leb_le in Em. rewrite map_size_empty in Em. split; [by left|]. right; right. lia.
  - split; [destruct (rm_rooms s !! room); cbn; naive_solver|]. left. cbn. apply insert_non_empty.
Qed.

(** ** Leaving *)

Lemma leave_room_effect touched room c s :
  let s' := leave_room touched room c s in
  (∀ room', members_of s' room' =
     if decide (room' = room) then delete c (members_of s room) else members_of s room') ∧
  (∀ c', rooms_of s' c' = if decide (c' = c) then rooms_of s c ∖ {[room]} else rooms_of s c').
Proof.
  intros s'. unfold s', leave_room, members_of.
  split; intros x; destruct (rm_connection_rooms s !! c) eqn:E; cbn;
    rewrite ?members_in_remove by done; try done.
  - rewrite rooms_of_insert. unfold rooms_of. case_decide; subst; by rewrite ?E.
  - unfold rooms_of; cbn. case_decide; subst; [|done]. rewrite E; cbn. set_solver.
Qed.

Lemma disconnect_effect c s :
  rm_inv s → let s' := disconnect c s in
  (∀ room, members_of s' room = delete c (members_of s room)) ∧
  (∀ c', rooms_of s' c' = if decide (c' = c) then ∅ else rooms_of s c').
Proof.
  intros Hs s'. unfold s', disconnect, members_of, rooms_of.
  assert (∀ room, room ∉ rooms_of s c → delete c (members_in (rm_rooms s) room) = members_in (rm_rooms s) room)
    as Hd.
  { intros room Hn. apply delete_id. apply eq_None_not_Some. intros Hi. apply Hn.
    by apply joined_rooms, (inv_agree s Hs), in_room_members. }
  unfold rooms_of in Hd. destruct (rm_connection_rooms s !! c) as [l|] eqn:E; cbn in *.
  - split; intros x; [rewrite members_in_remove_all|].
    + case_decide as Hx; rewrite elem_of_elements in Hx; [done|]. by rewrite Hd.
    + case_decide; subst; [by rewrite lookup_delete_eq|by rewrite lookup_delete_ne].
  - split; intros x; [by rewrite Hd by set_solver|]. case_decide; subst; by rewrite ?E.
Qed.

(** ** The invariant *)

Lemma rm_inv_spawn config : rm_inv (rm_spawn config).
Proof.
  split.
  - intros c room. rewrite in_room_members, joined_rooms. unfold members_of, members_in, rooms_of; cbn.
    rewrite !lookup_empty; cbn. rewrite lookup_empty. split; [by intros []|set_solver].
  - intros room r. cbn. by rewrite lookup_empty.
  - intros room c m. unfold members_of, members_in; cbn. by rewrite lookup_empty.
  - intros room. unfold members_of, members_in; cbn. rewrite lookup_empty; cbn. rewrite map_size_empty. lia.
  - intros c. unfold rooms_of; cbn. rewrite lookup_empty; cbn. rewrite size_empty. lia.
  - intros room r _. cbn. by rewrite lookup_empty.
Qed.

Section Preserve.
Variables s s' : RoomManagerState.
Hypothesis Hs : rm_inv s.
Hypothesis Hlimits : rm_max_members_per_room s' = rm_max_members_per_room s ∧
                     rm_max_rooms_per_connection s' = rm_max_rooms_per_connection s.
Hypothesis Hlookup : ∀ room r, rm_rooms s' !! room = Some r →
  (room_id r = room ∨ ∃ r0, rm_rooms s !! room = Some r0 ∧ room_id r = room_id r0) ∧
  (room_members r ≠ ∅ ∨ rm_rooms s !! room = Some r ∨ rm_max_members_per_room s = 0%nat).

Lemma rm_inv_step :
  (∀ c room, is_Some (members_of s' room !! c) ↔ room ∈ rooms_of s' c) →
  (∀ room c m, members_of s' room !! c = Some m → rmb_connection_id m = c) →
  (∀ room, size (members_of s' room) ≤ rm_max_members_per_room s)%nat →
  (∀ c, size (rooms_of s' c) ≤ rm_max_rooms_per_connection s)%nat →
  rm_inv s'.
Proof.
  destruct Hlimits as [E1 E2]. intros Ha Hi Hm Hr. split.
  - intros c room. by rewrite in_room_members, joined_rooms.
  - intros room r Hl. destruct (Hlookup _ _ Hl) as [[?|(r0 & H0 & ->)] _]; [done|].
    by apply (inv_room_id s Hs).
  - apply Hi.
  - intros room. by rewrite E1.
  - intros c. by rewrite E2.
  - intros room r. rewrite E1. intros Hpos Hl.
    destruct (Hlookup _ _ Hl) as [_ [?|[?|?]]]; [done| |lia]. by apply (inv_nonempty s Hs room).
Qed.
End Preserve.

Lemma agree_members s : rm_inv s → ∀ c room, is_Some (members_of s room !! c) ↔ room ∈ rooms_of s c.
Proof. intros Hs c room. rewrite <-in_room_members, <-joined_rooms. apply (inv_agree s Hs). Qed.

Lemma rm_inv_join created touched room m s : rm_inv s → rm_inv (join_room created touched room m s).
Proof.
  intros Hs. destruct (join_room_effect created touched room m s) as [Em Er]; cbv zeta in *.
  pose proof (agree_members s Hs) as Ha. apply (rm_inv_step s); try done.
  { unfold join_room. by repeat case_match. }
  { intros room' r Hl. by apply (join_room_lookup created touched room m). }
  - intros c room'. rewrite Em, Er. repeat case_decide; try naive_solver.
    + destruct_and!. subst. rewrite lookup_insert_eq. split; [set_solver|eauto].
    + destruct_and!. subst. rewrite lookup_insert_ne by naive_solver. apply Ha.
    + destruct_and!. subst. rewrite Ha. set_solver.
  - intros room' c m'. rewrite Em. case_decide; [|by apply (inv_member_id s Hs)].
    destruct_and!; subst. intros [[<- <-]|[_ Hm]]%lookup_insert_Some; [done|].
    by apply (inv_member_id s Hs room).
  - intros room'. rewrite Em. case_decide as Hd; [|apply (inv_members s Hs)].
    rewrite map_size_insert. destruct Hd as [[_ Hd] _]. case_match; cbn; lia.
  - intros c'. rewrite Er. case_decide as Hd; [|apply (inv_rooms s Hs)].
    destruct Hd as [[Hd _] ->]. rewrite size_union_alt, size_singleton.
    pose proof (subseteq_size (rooms_of s (rmb_connection_id m) ∖ {[room]})
                  (rooms_of s (rmb_connection_id m)) ltac:(set_solver)). lia.
Qed.

Lemma rm_inv_leave touched room c s : rm_inv s → rm_inv (leave_room touched room c s).
Proof.
  intros Hs. destruct (leave_room_effect touched room c s) as [Em Er]; cbv zeta in *.
  pose proof (agree_members s Hs) as Ha. apply (rm_inv_step s); try done.
  { unfold leave_room. by repeat case_match. }
  { intros room' r Hl.
    assert (room_remove (room_touch touched) room c (rm_rooms s) !! room' = Some r) as [??]%room_remove_lookup.
    { revert Hl. unfold leave_room. by case_match. }
    all: naive_solver. }
  - intros c' room'. rewrite Em, Er. repeat case_decide; subst; rewrite ?lookup_delete_eq, ?lookup_delete_ne by done.
    + split; [by intros []|set_solver].
    + apply Ha.
    + rewrite Ha. set_solver.
    + apply Ha.
  - intros room' c' m'. rewrite Em. case_decide; subst; [rewrite lookup_delete_Some; intros [_ ?]|];
      by eapply (inv_member_id s Hs).
  - intros room'. rewrite Em. pose proof (inv_members s Hs room'). case_decide; subst; [|done].
    rewrite map_size_delete. case_match; cbn; lia.
  - intros c'. rewrite Er. pose proof (inv_rooms s Hs c'). case_decide; subst; [|done].
    etrans; [apply subseteq_size|done]. set_solver.
Qed.

Lemma rm_inv_disconnect c s : rm_inv s → rm_inv (disconnect c s).
Proof.
  intros Hs. destruct (disconnect_effect c s Hs) as [Em Er]; cbv zeta in *.
  pose proof (agree_members s Hs) as Ha. apply (rm_inv_step s); try done.
  { unfold disconnect. by case_match. }
  { intros room r. unfold disconnect. case_match; [|naive_solver].
    intros [??]%room_remove_all_lookup. naive_solver. }
  - intros c' room. rewrite Em, Er. case_decide; subst; rewrite ?lookup_delete_eq, ?lookup_delete_ne by done.
    + split; [by intros []|set_solver].
    + apply Ha.
  - intros room c' m'. rewrite Em, lookup_delete_Some. intros [_ ?]. by eapply (inv_member_id s Hs).
  - intros room. rewrite Em, map_size_delete. pose proof (inv_members s Hs room). case_match; cbn; lia.
  - intros c'. rewrite Er. pose proof (inv_rooms s Hs c'). case_decide; [|done]. rewrite size_empty. lia.
Qed.

Lemma rm_inv_handle created touched msg s : rm_inv s → rm_inv (rm_handle created touched msg s).1.
Proof. destruct msg; cbn; auto using rm_inv_join, rm_inv_leave, rm_inv_disconnect. Qed.

Lemma rm_inv_run msgs s : rm_inv s → rm_inv (rm_run msgs s).
Proof.
  unfold rm_run. revert s. induction msgs as [|[[??]?] msgs IH]; intros s Hs; cbn; auto using rm_inv_handle.
Qed.

Lemma in_room_after_handle created touched msg s c room :
  rm_inv s → in_room (rm_handle created touched msg s).1 c room ↔ in_room_after s msg c room.
Proof.
  intros Hs. destruct msg as [room' m|room' c'| |c'|]; cbn; [..|done| |done];
    [destruct (join_room_effect created touched room' m s) as [Em _]
    |destruct (leave_room_effect touched room' c' s) as [Em _]
    |destruct (disconnect_effect c' s Hs) as [Em _]];
    cbv zeta in Em; rewrite !in_room_members, Em.
  - case_decide as Hd; [|naive_solver]. destruct Hd as [Hd ->].
    rewrite lookup_insert_is_Some. destruct (decide (c = rmb_connection_id m)); naive_solver.
  - case_decide; subst; [rewrite lookup_delete_is_Some|]; naive_solver.
  - rewrite lookup_delete_is_Some. naive_solver.
Qed.

(** C38: The room manager keeps one relation, "connection [c] is in room [r]",
    through its two indices: after any messages the indices agree, the limits
    hold and no empty room is left behind; a join adds exactly its pair, if
    neither limit is reached, a leave removes its pair, a disconnect removes
    every pair of the connection, and nothing else changes the relation. *)
Theorem rooms_refine_membership config msgs created touched msg :
  let s := rm_run msgs (rm_spawn config) in
  let s' := (rm_handle created touched msg s).1 in
  rm_inv s' ∧ ∀ c room, in_room s' c room ↔ in_room_after s msg c room.
Proof.
  intros s s'. assert (rm_inv s) as Hs by (apply rm_inv_run, rm_inv_spawn).
  split; [by apply rm_inv_handle|]. intros c room. by apply in_room_after_handle.
Qed.

(** A broadcast to a room sends the message to every member once, except
    to the connection it excludes, and to nobody else. *)
Theorem broadcast_reaches_members config msgs room message exclude :
  let s := rm_run msgs (rm_spawn config) in
  broadcast_to_room room message exclude s =
  (fun '(_, m) => Send (rmb_sender m) message) <$>
    filter (fun '(c, _) => Some c ≠ exclude) (map_to_list (members_of s room)).
Proof.
  intros s. assert (rm_inv s) as Hs by (apply rm_inv_run, rm_inv_spawn).
  pose proof (inv_member_id s Hs room) as Hid. unfold broadcast_to_room, members_of, members_in in *.
  destruct (rm_rooms s !! room) as [r|]; cbn in *; [|by rewrite map_to_list_empty].
  assert (∀ c m, (c, m) ∈ map_to_list (room_members r) → rmb_connection_id m = c) as Hl.
  { intros c m Hm%elem_of_map_to_list. by apply Hid. }
  clear Hid. induction (map_to_list (room_members r)) as [|[c m] l IH]; [done|].
  rewrite filter_cons. cbn [map List.filter snd]. rewrite (Hl c m) by set_solver.
  destruct exclude as [e|].
  - destruct (N.eqb_spec c e) as [->|Hne]; cbn [negb].
    + rewrite decide_False by naive_solver. apply IH. set_solver.
    + rewrite decide_True by naive_solver. rewrite !fmap_cons. f_equal. apply IH. set_solver.
  - rewrite decide_True by done. rewrite !fmap_cons. f_equal. apply IH. set_solver.
Qed.
End Rooms.

(** ** The broadcaster *)

(** [Broadcaster]: the registered channels. [accepts] says of a channel
    whether its receiver is still there when the message is sent, which is
    what [mpsc::Sender::send] returns [Ok] for. *)
Abbreviation Broadcaster := (gmap ConnectionId Sender).

Inductive BroadcastTarget :=
| All
| Connections (ids : list ConnectionId)
| AllExcept (ids : list ConnectionId).

Definition register (id : ConnectionId) (sender : Sender) (b : Broadcaster) : Broadcaster := <[id := sender]> b.
Definition unregister (id : ConnectionId) (b : Broadcaster) : Broadcaster := delete id b.

Section Broadcast.
Context (accepts : Sender → bool).

(** The channels that take the message, in sending order. *)
Definition broadcast_all (b : Broadcaster) : list Sender :=
  List.filter accepts (map snd (map_to_list b)).

Definition broadcast_to (ids : list ConnectionId) (b : Broadcaster) : list Sender :=
  List.filter accepts (omap (fun id => b !! id) ids).

Definition broadcast_except (exclude : list ConnectionId) (b : Broadcaster) : list Sender :=
  map snd (List.filter (fun '(id, sender) => negb (bool_decide (id ∈ exclude)) && accepts sender)
             (map_to_list b)).

Definition broadcast (target : BroadcastTarget) (b : Broadcaster) : list Sender :=
  match target with
  | All => broadcast_all b
  | Connections ids => broadcast_to ids b
  | AllExcept exclude => broadcast_except exclude b
  end.

(** [send_to]: the channel that takes the message, if any. *)
Definition send_to (id : ConnectionId) (b : Broadcaster) : list Sender :=
  match b !! id with Some sender => if accepts sender then [sender] else [] | None => [] end.

(** The connections a target names. *)
Definition targeted (target : BroadcastTarget) (id : ConnectionId) : Prop :=
  match target with
  | All => True
  | Connections ids => id ∈ ids
  | AllExcept exclude => id ∉ exclude
  end.

Lemma broadcast_reaches_targets target b sender :
  sender ∈ broadcast target b ↔
  accepts sender = true ∧ ∃ id, b !! id = Some sender ∧ targeted target id.
Proof.
  destruct target as [|ids|ex]; cbn; rewrite list_elem_of_In.
  - unfold broadcast_all. rewrite filter_In, <-list_elem_of_In, list_elem_of_fmap.
    setoid_rewrite elem_of_map_to_list'. split; [intros [([id s] & -> & ?) ?]|intros (? & id & ? & _)]; [naive_solver|].
    split; [|done]. by exists (id, sender).
  - unfold broadcast_to. rewrite filter_In, <-list_elem_of_In, list_elem_of_omap. naive_solver.
  - unfold broadcast_except. rewrite in_map_iff. setoid_rewrite filter_In. setoid_rewrite <-list_elem_of_In.
    setoid_rewrite elem_of_map_to_list'. split.
    + intros ([id s] & <- & ? & [Hn Ha]%andb_true_iff). cbn in *. split; [done|]. exists id. split; [done|].
      apply negb_true_iff, bool_decide_eq_false in Hn. done.
    + intros (Ha & id & Hb & Hn). exists (id, sender). cbn. rewrite Ha, bool_decide_false by done. done.
Qed.
End Broadcast.
