(* ===== verification/Runs.v ===== *)
(** * Event systems, runs and fairness

    Shared by the components whose behaviour is an interleaving of several
    tasks: a partial step function on events, the states it reaches, infinite
    runs of it, and the rule that turns weak fairness of a class of events into
    a statement that something happens. A run may stutter, so a finite history
    is a run too. *)

From S2P Require Import Prelude.

Local Open Scope nat_scope.

Section Runs.
Context {W E : Type} (step : E → W → option W).

(** The state after a list of events, if each was possible. *)
Fixpoint after (es : list E) (w : W) : option W :=
  match es with
  | [] => Some w
  | e :: es => match step e w with Some w => after es w | None => None end
  end.

Inductive reachable (w0 : W) : W → Prop :=
| reach_init : reachable w0 w0
| reach_step e w w' : reachable w0 w → step e w = Some w' → reachable w0 w'.

Lemma reachable_inv (I : W → Prop) w0 w :
  I w0 → (∀ e w w', I w → step e w = Some w' → I w') → reachable w0 w → I w.
Proof. intros H0 Hs. induction 1; eauto. Qed.

Lemma after_reachable es : ∀ w0 w w', reachable w0 w → after es w = Some w' → reachable w0 w'.
Proof.
  induction es as [|e es IH]; cbn; intros w0 w w' Hr H; [by simplify_eq|].
  destruct (step e w) eqn:E1; [|done]. eapply IH; [|exact H]. by eapply reach_step.
Qed.

Lemma after_inv (A : E → Prop) (I : W → Prop) es :
  (∀ e w w', A e → I w → step e w = Some w' → I w') → Forall A es →
  ∀ w w', I w → after es w = Some w' → I w'.
Proof.
  intros Hs. induction 1 as [|e es Ha _ IH]; cbn; intros w w' Hi H; [by simplify_eq|].
  destruct (step e w) as [w1|] eqn:E1; [|done]. eauto.
Qed.

Lemma after_app es1 es2 w : after (es1 ++ es2) w = after es1 w ≫= after es2.
Proof. revert w. induction es1 as [|e es1 IH]; intros w; [done|]. cbn. by destruct (step e w). Qed.

(** An infinite run: [None] is a moment at which nothing happens. *)
Record Run := mkRun {
  run_at : nat → W;
  run_event : nat → option E;
  run_steps : ∀ n, match run_event n with
                   | Some e => step e (run_at n) = Some (run_at (S n))
                   | None => run_at (S n) = run_at n
                   end;
}.

Definition enabled (C : E → Prop) (w : W) : Prop := ∃ e w', C e ∧ step e w = Some w'.

(** Again and again the class is taken or has nothing to do. *)
Definition weakly_fair (r : Run) (C : E → Prop) : Prop :=
  ∀ n, ∃ m, n ≤ m ∧ (¬ enabled C (run_at r m) ∨ ∃ e, run_event r m = Some e ∧ C e).

(** The events from [n] on satisfy [A]. *)
Definition only_from (r : Run) (n : nat) (A : E → Prop) : Prop :=
  ∀ m e, n ≤ m → run_event r m = Some e → A e.

(** Within [I], [P] cannot be left except to [Q]. *)
Definition until (A : E → Prop) (I P Q : W → Prop) : Prop :=
  ∀ e w w', A e → I w → P w → step e w = Some w' → P w' ∨ Q w'.

Lemma run_inv (r : Run) n A (I : W → Prop) :
  only_from r n A → (∀ e w w', A e → I w → step e w = Some w' → I w') →
  I (run_at r n) → ∀ m, n ≤ m → I (run_at r m).
Proof.
  intros Ha Hs H0 m. induction 1 as [|m Hm IH]; [done|]. pose proof (run_steps r m) as Hstep.
  destruct (run_event r m) as [e|] eqn:Ee; [|by rewrite Hstep]. eauto.
Qed.

Lemma run_reachable (r : Run) n : reachable (run_at r 0) (run_at r n).
Proof.
  induction n as [|n IH]; [constructor|]. pose proof (run_steps r n) as Hs.
  destruct (run_event r n) as [e|]; [by eapply reach_step|by rewrite Hs].
Qed.

Lemma run_until (r : Run) A (I P Q : W → Prop) n d :
  only_from r n A → (∀ m, n ≤ m → I (run_at r m)) → until A I P Q → P (run_at r n) →
  P (run_at r (d + n)) ∨ ∃ m, n ≤ m ∧ Q (run_at r m).
Proof.
  intros Ha Hi Hu Hp. induction d as [|d [IH|IH]]; [by left| |by right]. pose proof (run_steps r (d + n)) as Hs.
  destruct (run_event r (d + n)) as [e|] eqn:Ee; cbn; [|left; by rewrite Hs].
  destruct (Hu e _ _ (Ha (d + n) e ltac:(lia) Ee) (Hi (d + n) ltac:(lia)) IH Hs) as [?|?]; [by left|].
  right. exists (S (d + n)). split; [lia|done].
Qed.

(** The rule of weak fairness: while [P] holds some event of the class is
    possible, and taking it establishes [Q]. *)
Lemma leads_to_fair (r : Run) A C (I P Q : W → Prop) n :
  weakly_fair r C → only_from r n A → (∀ m, n ≤ m → I (run_at r m)) → until A I P Q →
  (∀ w, I w → P w → enabled C w) →
  (∀ e w w', C e → A e → I w → P w → step e w = Some w' → Q w') →
  P (run_at r n) → ∃ m, n ≤ m ∧ Q (run_at r m).
Proof.
  intros Hf Ha Hi Hu He Hq Hp. destruct (Hf n) as (m & Hnm & Hm).
  replace m with ((m - n) + n) in Hm by lia.
  destruct (run_until r A I P Q n (m - n) Ha Hi Hu Hp) as [Hpm|]; [|done].
  pose proof (Hi (m - n + n) ltac:(lia)) as Him.
  destruct Hm as [Hm|(e & Ee & Hc)]; [by destruct Hm; apply He|].
  pose proof (run_steps r (m - n + n)) as Hs. rewrite Ee in Hs.
  exists (S (m - n + n)). split; [lia|]. apply (Hq e _ _ Hc (Ha (m - n + n) e ltac:(lia) Ee) Him Hpm Hs).
Qed.

Lemma leads_to_trans (r : Run) (Q R : W → Prop) n :
  (∃ m, n ≤ m ∧ Q (run_at r m)) →
  (∀ m, n ≤ m → Q (run_at r m) → ∃ k, m ≤ k ∧ R (run_at r k)) →
  ∃ k, n ≤ k ∧ R (run_at r k).
Proof. intros (m & Hm & Hq) Hr. destruct (Hr m Hm Hq) as (k & Hk & ?). exists k. split; [lia|done]. Qed.

Lemma only_from_later (r : Run) n m A : n ≤ m → only_from r n A → only_from r m A.
Proof. intros Hnm H k e Hk. apply H. lia. Qed.

(** Messages are handled in order: [At k] says that a message is at place [k]
    of a queue, and every handling brings it nearer or establishes [Q]. *)
Definition nearer (At : nat → W → Prop) (Q : W → Prop) (k : nat) (w : W) : Prop :=
  Q w ∨ match k with 0 => False | S k => At k w end.

Lemma queue_leads (r : Run) A C (I : W → Prop) (At : nat → W → Prop) (Q : W → Prop) n :
  weakly_fair r C → only_from r n A → (∀ m, n ≤ m → I (run_at r m)) →
  (∀ k, until A I (At k) (nearer At Q k)) →
  (∀ k w, I w → At k w → enabled C w) →
  (∀ k e w w', C e → A e → I w → At k w → step e w = Some w' → nearer At Q k w') →
  ∀ k m, n ≤ m → At k (run_at r m) → ∃ m', m ≤ m' ∧ Q (run_at r m').
Proof.
  intros Hf Ha Hi Hu He Hq.
  assert (∀ k m, n ≤ m → At k (run_at r m) → ∃ m', m ≤ m' ∧ nearer At Q k (run_at r m')) as Hcloser.
  { intros k m Hm Hp. apply (leads_to_fair r A C I (At k) (nearer At Q k) m); eauto using only_from_later.
    intros m' Hm'. apply Hi. lia. }
  induction k as [|k IH]; intros m Hm Hp.
  - destruct (Hcloser 0 m Hm Hp) as (m' & ? & [?|[]]). by exists m'.
  - destruct (Hcloser (S k) m Hm Hp) as (m' & ? & [?|Hn]); [by exists m'|].
    destruct (IH m' ltac:(lia) Hn) as (k' & ? & ?). exists k'. split; [lia|done].
Qed.

(** The same when handling has to wait for work that the class [D] does: [busy]
    counts what is left of it, only handling adds to it. *)
Lemma queue_leads_busy (r : Run) A C D (I : W → Prop) (At : nat → W → Prop) (Q : W → Prop) (busy : W → nat) n :
  weakly_fair r C → weakly_fair r D → only_from r n A → (∀ m, n ≤ m → I (run_at r m)) →
  (∀ k e w w', A e → I w → At k w → step e w = Some w' →
     nearer At Q k w' ∨ (At k w' ∧ (busy w' = busy w ∨ S (busy w') = busy w))) →
  (∀ k w, I w → At k w → busy w = 0 → enabled C w) →
  (∀ k w, I w → At k w → busy w ≠ 0 → enabled D w) →
  (∀ k e w w', C e → A e → I w → At k w → busy w = 0 → step e w = Some w' → nearer At Q k w') →
  (∀ k e w w', D e → A e → I w → At k w → step e w = Some w' →
     nearer At Q k w' ∨ (At k w' ∧ S (busy w') = busy w)) →
  ∀ k m, n ≤ m → At k (run_at r m) → ∃ m', m ≤ m' ∧ Q (run_at r m').
Proof.
  intros Hc Hd Ha Hi Hstep Hec Hed Hqc Hqd.
  assert (∀ k m, n ≤ m → At k (run_at r m) → ∃ m', m ≤ m' ∧ nearer At Q k (run_at r m')) as Hcloser.
  { intros k m Hm Hp.
    assert (∃ m', m ≤ m' ∧ (nearer At Q k (run_at r m') ∨ At k (run_at r m') ∧ busy (run_at r m') = 0)) as Hidle.
    { destruct (busy (run_at r m)) as [|j] eqn:Ej; [exists m; split; [lia|auto]|].
      apply (queue_leads r A D I (fun j w => At k w ∧ busy w = S j)
        (fun w => nearer At Q k w ∨ At k w ∧ busy w = 0) n) with (k := j); try done.
      - intros j' e w w' He Hw [Hk Hj] Hs. destruct (Hstep k e w w' He Hw Hk Hs) as [?|[Hk' [Hb|Hb]]].
        + right. by left; left.
        + left. split; [done|congruence].
        + right. destruct j' as [|j']; [left; right; split; [done|lia]|right; split; [done|lia]].
      - intros j' w Hw [Hk Hj]. eapply Hed; [done..|lia].
      - intros j' e w w' He Hae Hw [Hk Hj] Hs. destruct (Hqd k e w w' He Hae Hw Hk Hs) as [?|[Hk' Hb]]; [left; by left|].
        destruct j' as [|j']; [left; right; split; [done|lia]|right; split; [done|lia]]. }
    apply (leads_to_trans r (fun w => nearer At Q k w ∨ At k w ∧ busy w = 0)); [done|].
    intros m' Hm' [Hn|Hp']; [by exists m'|].
    apply (leads_to_fair r A C I (fun w => At k w ∧ busy w = 0) (nearer At Q k) m');
      [done|eapply only_from_later; [|done]; lia|intros; apply Hi; lia|..|done].
    - intros e w w' He Hw [Hk Hb] Hs. destruct (Hstep k e w w' He Hw Hk Hs) as [?|[Hk' [Hb'|Hb']]]; [by right|left|lia].
      split; [done|lia].
    - intros w Hw [Hk Hb]. by eapply Hec.
    - intros e w w' He Hae Hw [Hk Hb] Hs. by eapply Hqc. }
  induction k as [|k IH]; intros m Hm Hp.
  - destruct (Hcloser 0 m Hm Hp) as (m' & ? & [?|[]]). by exists m'.
  - destruct (Hcloser (S k) m Hm Hp) as (m' & ? & [?|Hn]); [by exists m'|].
    destruct (IH m' ltac:(lia) Hn) as (k' & ? & ?). exists k'. split; [lia|done].
Qed.

(** ** Finite histories as runs *)

Fixpoint states (es : list E) (w : W) (n : nat) : W :=
  match n, es with
  | S n, e :: es => match step e w with Some w' => states es w' n | None => w end
  | _, _ => w
  end.

Lemma states_0 es w : states es w 0 = w.
Proof. by destruct es. Qed.

Lemma states_step es : ∀ w w' n, after es w = Some w' →
  match es !! n with
  | Some e => step e (states es w n) = Some (states es w (S n))
  | None => states es w (S n) = states es w n
  end.
Proof.
  induction es as [|e es IH]; cbn; intros w w' n H; [by destruct n|].
  destruct (step e w) as [w1|] eqn:E1; [|done]. destruct n as [|n]; cbn; [by rewrite states_0|]. eapply IH, H.
Qed.

Definition finite_run (es : list E) (w w' : W) (H : after es w = Some w') : Run :=
  {| run_at := states es w; run_event n := es !! n; run_steps n := states_step es w w' n H |}.

Lemma states_end es : ∀ w w' n, after es w = Some w' → length es ≤ n → states es w n = w'.
Proof.
  induction es as [|e es IH]; cbn; intros w w' n H Hn; [destruct n; congruence|].
  destruct (step e w) eqn:E1; [|done]. destruct n as [|n]; [lia|]. eapply IH; [exact H|lia].
Qed.

(** Fairness of a finite history: nothing of the class is left to do. *)
Lemma finite_run_fair es w w' H C : ¬ enabled C w' → weakly_fair (finite_run es w w' H) C.
Proof.
  intros Hd n. exists (n + length es). split; [lia|]. left. cbn. rewrite (states_end _ _ _ _ H); [done|lia].
Qed.
End Runs.

Arguments run_at {W E step}.
Arguments run_event {W E step}.
Arguments run_steps {W E step}.
