(* ===== verification/Worker.v ===== *)
(** * Background worker

    [src/acton-service/src/agents/{background_worker,messages}.rs]: the actor
    that owns the task registry, the tasks that report to it, and the callers.
    The handlers are functions on the actor's state. What runs concurrently,
    calls of [submit], spawned tasks, clients and the actor, is an event
    system: every await point is a separate event, so all interleavings are
    covered.

    A call of [submit] and the task it spawns are one entry of [w_calls] that
    moves through the stages of the code; its number also names its
    cancellation token, a child of the root token. A reply envelope is the
    number of the question. [acquire_owned] fails only on a closed semaphore,
    and the code never closes it. Dropping the future of [submit] half-way is
    not modelled. *)

From S2P Require Import Prelude Runs.

Local Open Scope string_scope.
Local Open Scope list_scope.
Local Open Scope nat_scope.

(** ** Data *)

Record BackgroundWorkerConfig := mkBackgroundWorkerConfig {
  bwc_enabled : bool;
  bwc_max_concurrent_tasks : nat;
  bwc_task_shutdown_timeout_secs : Z;
  bwc_cleanup_interval_secs : Z;
}.

Definition BackgroundWorkerConfig_default : BackgroundWorkerConfig :=
  mkBackgroundWorkerConfig false 0 5 0.

Inductive TaskStatus := Pending | Running | Completed | Failed (error : string) | Cancelled.

#[export] Instance TaskStatus_eq_dec : EqDecision TaskStatus.
Proof. solve_decision. Defined.

Definition is_terminal (s : TaskStatus) : bool :=
  match s with Completed | Failed _ | Cancelled => true | _ => false end.

Abbreviation TaskId := string.
(** A call of [submit], and its cancellation token. *)
Abbreviation CallId := nat.
(** A reply envelope. *)
Abbreviation Ask := nat.

Record TaskRecord := mkTaskRecord {
  rec_token : CallId;
  rec_status : TaskStatus;
}.

Record BackgroundWorkerState := mkBackgroundWorkerState {
  bw_tasks : gmap TaskId TaskRecord;
  bw_waiters : gmap TaskId (list Ask);
}.

Record TaskStatusResponse := mkTaskStatusResponse {
  tsr_task_id : TaskId;
  tsr_status : TaskStatus;
}.

Inductive WorkerMsg :=
| RegisterTask (task_id : TaskId) (cancellation_token : CallId)
| TaskCompleted (task_id : TaskId) (status : TaskStatus)
| CancelTask (task_id : TaskId)
| WaitForTask (task_id : TaskId) (reply : Ask)
| GetTaskStatus (task_id : TaskId) (reply : Ask)
| GetAllTaskStatuses (reply : Ask)
| CleanupFinishedTasks (reply : option Ask).

Inductive Response :=
| RStatus (response : option TaskStatusResponse)
| RStatuses (statuses : list TaskStatusResponse)
| RRemoved (removed : nat).

(** What a handler does besides changing the state. *)
Record Effects := mkEffects {
  eff_answers : list (Ask * Response);
  eff_cancels : list CallId;
}.

Definition nothing : Effects := mkEffects [] [].
Definition answers (l : list (Ask * Response)) : Effects := mkEffects l [].

(** ** The actor's handlers *)

Section Handlers.
Implicit Types s : BackgroundWorkerState.

Definition on_register (task_id : TaskId) (cancellation_token : CallId) s : BackgroundWorkerState * Effects :=
  (mkBackgroundWorkerState (<[task_id := mkTaskRecord cancellation_token Running]> (bw_tasks s)) (bw_waiters s),
   nothing).

Definition waiters_of (task_id : TaskId) s : list Ask := default [] (bw_waiters s !! task_id).

Definition on_completed (task_id : TaskId) (status : TaskStatus) s : BackgroundWorkerState * Effects :=
  let tasks := alter (fun r => mkTaskRecord (rec_token r) status) task_id (bw_tasks s) in
  let response := RStatus (Some (mkTaskStatusResponse task_id status)) in
  (mkBackgroundWorkerState tasks (delete task_id (bw_waiters s)),
   answers (map (fun waiter => (waiter, response)) (waiters_of task_id s))).

Definition on_cancel (task_id : TaskId) s : BackgroundWorkerState * Effects :=
  (s, match bw_tasks s !! task_id with
      | Some record => mkEffects [] [rec_token record]
      | None => nothing
      end).

Definition status_response s (task_id : TaskId) : option TaskStatusResponse :=
  (fun r => mkTaskStatusResponse task_id (rec_status r)) <$> bw_tasks s !! task_id.

Definition on_wait (task_id : TaskId) (reply : Ask) s : BackgroundWorkerState * Effects :=
  let settled := match bw_tasks s !! task_id with
                 | None => Some None
                 | Some record => if is_terminal (rec_status record)
                                  then Some (Some (mkTaskStatusResponse task_id (rec_status record)))
                                  else None
                 end in
  match settled with
  | Some response => (s, answers [(reply, RStatus response)])
  | None => (mkBackgroundWorkerState (bw_tasks s)
               (<[task_id := waiters_of task_id s ++ [reply]]> (bw_waiters s)), nothing)
  end.

Definition on_status (task_id : TaskId) (reply : Ask) s : BackgroundWorkerState * Effects :=
  (s, answers [(reply, RStatus (status_response s task_id))]).

Definition on_all_statuses (reply : Ask) s : BackgroundWorkerState * Effects :=
  (s, answers [(reply, RStatuses (map (fun p => mkTaskStatusResponse p.1 (rec_status p.2)) (map_to_list (bw_tasks s))))]).

Definition on_cleanup (reply : option Ask) s : BackgroundWorkerState * Effects :=
  let tasks := filter (fun p => is_terminal (rec_status p.2) = false) (bw_tasks s) in
  let removed := size (bw_tasks s) - size tasks in
  (mkBackgroundWorkerState tasks (bw_waiters s),
   match reply with Some reply => answers [(reply, RRemoved removed)] | None => nothing end).

Definition bw_handle (m : WorkerMsg) s : BackgroundWorkerState * Effects :=
  match m with
  | RegisterTask task_id token => on_register task_id token s
  | TaskCompleted task_id status => on_completed task_id status s
  | CancelTask task_id => on_cancel task_id s
  | WaitForTask task_id reply => on_wait task_id reply s
  | GetTaskStatus task_id reply => on_status task_id reply s
  | GetAllTaskStatuses reply => on_all_statuses reply s
  | CleanupFinishedTasks reply => on_cleanup reply s
  end.
End Handlers.

(** ** The whole worker *)

(** How far a call of [submit] and its task have got. *)
Inductive Stage :=
| Acquiring                        (* waiting for a permit *)
| Registering                      (* has the permit, [RegisterTask] not yet sent *)
| Spawning                         (* [RegisterTask] sent, task not yet spawned *)
| Working                          (* the task's [select!] *)
| Reporting (status : TaskStatus)  (* outcome known, [TaskCompleted] not yet sent *)
| Exiting.                         (* [TaskCompleted] sent, permit not yet dropped *)

#[export] Instance Stage_eq_dec : EqDecision Stage.
Proof. solve_decision. Defined.

Record Call := mkCall {
  call_task : TaskId;
  call_stage : Stage;
}.

#[export] Instance Call_eq_dec : EqDecision Call.
Proof. solve_decision. Defined.

Definition holds_permit (c : Call) : bool :=
  match call_stage c with Acquiring => false | _ => true end.

(** In the [TaskTracker]. *)
Definition tracked (c : Call) : bool :=
  match call_stage c with Working | Reporting _ | Exiting => true | _ => false end.

Inductive ServicePhase := Serving | Stopping | Stopped.

Record World := mkWorld {
  w_agent : BackgroundWorkerState;
  w_mailbox : list WorkerMsg;
  w_permits : option nat;              (* free permits of the semaphore *)
  w_calls : gmap CallId Call;
  w_next_call : CallId;
  w_root_cancelled : bool;
  w_cancelled : list CallId;
  w_next_ask : Ask;
  w_answers : list (Ask * Response);
  w_phase : ServicePhase;
  w_cleanup : bool;                    (* the cleanup ticker was started *)
}.

(** [BackgroundWorker::spawn]. *)
Definition spawn (config : BackgroundWorkerConfig) : World :=
  mkWorld (mkBackgroundWorkerState ∅ ∅) []
    (if 0 <? bwc_max_concurrent_tasks config then Some (bwc_max_concurrent_tasks config) else None)
    ∅ 0 false [] 0 [] Serving (0 <? bwc_cleanup_interval_secs config)%Z.

Definition is_cancelled (c : CallId) (w : World) : bool :=
  w_root_cancelled w || bool_decide (c ∈ w_cancelled w).

(** What polling the work's future gives. *)
Inductive WorkPoll := WorkPending | WorkOk | WorkErr (error : string).

(** What a client asks. *)
Inductive Question := QWait (task_id : TaskId) | QStatus (task_id : TaskId) | QAll | QCleanup.

Definition question_msg (q : Question) (reply : Ask) : WorkerMsg :=
  match q with
  | QWait task_id => WaitForTask task_id reply
  | QStatus task_id => GetTaskStatus task_id reply
  | QAll => GetAllTaskStatuses reply
  | QCleanup => CleanupFinishedTasks (Some reply)
  end.

Inductive Event :=
| EvSubmit (task_id : TaskId)
| EvAcquire (c : CallId)
| EvRegister (c : CallId)
| EvSpawn (c : CallId)
| EvPoll (c : CallId) (work : WorkPoll)
| EvPanic (c : CallId)
| EvReport (c : CallId)
| EvExit (c : CallId)
| EvCancel (task_id : TaskId)
| EvAsk (q : Question)
| EvTick
| EvHandle
| EvStop
| EvStopped (timed_out : bool).

Section Step.
Implicit Types w : World.

Definition set_mailbox mailbox w : World :=
  mkWorld (w_agent w) mailbox (w_permits w) (w_calls w) (w_next_call w) (w_root_cancelled w) (w_cancelled w)
    (w_next_ask w) (w_answers w) (w_phase w) (w_cleanup w).
Definition send m w : World := set_mailbox (w_mailbox w ++ [m]) w.
Definition set_calls calls w : World :=
  mkWorld (w_agent w) (w_mailbox w) (w_permits w) calls (w_next_call w) (w_root_cancelled w) (w_cancelled w)
    (w_next_ask w) (w_answers w) (w_phase w) (w_cleanup w).
Definition set_permits permits w : World :=
  mkWorld (w_agent w) (w_mailbox w) permits (w_calls w) (w_next_call w) (w_root_cancelled w) (w_cancelled w)
    (w_next_ask w) (w_answers w) (w_phase w) (w_cleanup w).
Definition set_phase root phase w : World :=
  mkWorld (w_agent w) (w_mailbox w) (w_permits w) (w_calls w) (w_next_call w) root (w_cancelled w)
    (w_next_ask w) (w_answers w) phase (w_cleanup w).

Definition move (c : CallId) (call : Call) (stage : Stage) w : World :=
  set_calls (<[c := mkCall (call_task call) stage]> (w_calls w)) w.

(** [submit] is called. *)
Definition submit (task_id : TaskId) w : World :=
  mkWorld (w_agent w) (w_mailbox w) (w_permits w) (<[w_next_call w := mkCall task_id Acquiring]> (w_calls w))
    (S (w_next_call w)) (w_root_cancelled w) (w_cancelled w) (w_next_ask w) (w_answers w) (w_phase w) (w_cleanup w).

(** [acquire_owned]. *)
Definition acquire (c : CallId) (call : Call) w : option World :=
  match w_permits w with
  | None => Some (move c call Registering w)
  | Some (S n) => Some (set_permits (Some n) (move c call Registering w))
  | Some 0 => None
  end.

(** One poll of the task's biased [select!]: cancellation first. *)
Definition poll (c : CallId) (call : Call) (work : WorkPoll) w : World :=
  if is_cancelled c w then move c call (Reporting Cancelled) w
  else match work with
       | WorkPending => w
       | WorkOk => move c call (Reporting Completed) w
       | WorkErr e => move c call (Reporting (Failed e)) w
       end.

(** The task ends and drops its permit. *)
Definition exit (c : CallId) w : World :=
  set_permits (S <$> w_permits w) (set_calls (delete c (w_calls w)) w).

(** The question goes out with a new envelope. *)
Definition ask (q : Question) w : World :=
  mkWorld (w_agent w) (w_mailbox w ++ [question_msg q (w_next_ask w)]) (w_permits w) (w_calls w) (w_next_call w)
    (w_root_cancelled w) (w_cancelled w) (S (w_next_ask w)) (w_answers w) (w_phase w) (w_cleanup w).

(** The actor handles the next message. *)
Definition handle w : option World :=
  match w_phase w, w_mailbox w with
  | Serving, m :: mailbox =>
      let '(agent, eff) := bw_handle m (w_agent w) in
      Some (mkWorld agent mailbox (w_permits w) (w_calls w) (w_next_call w) (w_root_cancelled w)
              (eff_cancels eff ++ w_cancelled w) (w_next_ask w) (w_answers w ++ eff_answers eff) (w_phase w)
              (w_cleanup w))
  | _, _ => None
  end.

Definition tracker_empty w : bool :=
  bool_decide (filter (fun p => tracked p.2 = true) (w_calls w) = ∅).

(** [before_stop] up to the wait. *)
Definition before_stop w : World :=
  if bool_decide (bw_tasks (w_agent w) = ∅) && tracker_empty w then set_phase (w_root_cancelled w) Stopped w
  else set_phase true Stopping w.

(** The wait of [before_stop] ends. *)
Definition stopped (timed_out : bool) w : option World :=
  match w_phase w with
  | Stopping => if timed_out || tracker_empty w then Some (set_phase (w_root_cancelled w) Stopped w) else None
  | _ => None
  end.

(** The call, when it is in the given stage. *)
Definition at_stage (c : CallId) (stage : Stage → bool) (k : Call → option World) w : option World :=
  match w_calls w !! c with
  | Some call => if stage (call_stage call) then k call else None
  | None => None
  end.

Definition wk_step (e : Event) w : option World :=
  match e with
  | EvSubmit task_id => Some (submit task_id w)
  | EvAcquire c => at_stage c (fun s => bool_decide (s = Acquiring)) (fun call => acquire c call w) w
  | EvRegister c =>
      at_stage c (fun s => bool_decide (s = Registering))
        (fun call => Some (send (RegisterTask (call_task call) c) (move c call Spawning w))) w
  | EvSpawn c =>
      at_stage c (fun s => bool_decide (s = Spawning)) (fun call => Some (move c call Working w)) w
  | EvPoll c work =>
      at_stage c (fun s => bool_decide (s = Working)) (fun call => Some (poll c call work w)) w
  | EvPanic c =>
      at_stage c (fun s => bool_decide (s = Working)) (fun _ => Some (exit c w)) w
  | EvReport c =>
      at_stage c (fun s => match s with Reporting _ => true | _ => false end)
        (fun call => match call_stage call with
                     | Reporting status => Some (send (TaskCompleted (call_task call) status) (move c call Exiting w))
                     | _ => None
                     end) w
  | EvExit c => at_stage c (fun s => bool_decide (s = Exiting)) (fun _ => Some (exit c w)) w
  | EvCancel task_id => Some (send (CancelTask task_id) w)
  | EvAsk q => Some (ask q w)
  | EvTick => if w_cleanup w && negb (w_root_cancelled w) then Some (send (CleanupFinishedTasks None) w) else None
  | EvHandle => handle w
  | EvStop => match w_phase w with Serving => Some (before_stop w) | _ => None end
  | EvStopped timed_out => stopped timed_out w
  end.
End Step.

(** [running_task_count], on the answer to [GetAllTaskStatuses]. *)
Definition running_task_count (statuses : list TaskStatusResponse) : nat :=
  length (filter (fun r => tsr_status r = Running) statuses).
