(* ===== verification/WorkerSafety.v ===== *)
(** * Background worker: safety and liveness

    The theorems on [Worker]: the concurrency limit, the fate of every
    question, and that cancelling a task is answered. *)

From S2P Require Import Prelude Runs Worker.

Local Open Scope string_scope.
Local Open Scope list_scope.
Local Open Scope nat_scope.

Abbreviation wk_reachable config := (reachable wk_step (spawn config)).

(** Case analysis of a step: one goal per event, with the call found. *)
Ltac step_cases H :=
  match type of H with
  | wk_step ?e ?w = Some _ =>
      destruct e; cbn [wk_step] in H;
      unfold at_stage, acquire, stopped, handle in H;
      repeat case_match; simplify_eq; try done;
      repeat match goal with
      | Hd : bool_decide _ = true |- _ => apply bool_decide_eq_true_1 in Hd
      end
  end.

(** ** Permits *)

Definition held (calls : gmap CallId Call) : nat :=
  size (filter (fun p : CallId * Call => holds_permit p.2 = true) calls).

Lemma held_insert calls c call :
  calls !! c = None → held (<[c := call]> calls) = Nat.b2n (holds_permit call) + held calls.
Proof.
  intros Hc. unfold held. destruct (holds_permit call) eqn:E.
  - rewrite map_filter_insert_True by done. rewrite map_size_insert_None; [done|].
    apply map_lookup_filter_None. by left.
  - rewrite map_filter_insert_False by (cbn; congruence). by rewrite delete_id.
Qed.

Lemma held_lookup calls c call :
  calls !! c = Some call → held calls = Nat.b2n (holds_permit call) + held (delete c calls).
Proof.
  intros Hc. rewrite <-(insert_delete_id calls c call Hc) at 1. apply held_insert, lookup_delete_eq.
Qed.

Lemma held_move calls c call call' :
  calls !! c = Some call →
  held (<[c := call']> calls) + Nat.b2n (holds_permit call) = Nat.b2n (holds_permit call') + held calls.
Proof.
  intros Hc. rewrite (held_lookup calls c call Hc), <-insert_delete_eq, held_insert by apply lookup_delete_eq. lia.
Qed.

Lemma working_held calls :
  size (filter (fun p : CallId * Call => tracked p.2 = true) calls) ≤ held calls.
Proof.
  apply map_subseteq_size, map_filter_subseteq_ext. intros c call _. unfold tracked, holds_permit. cbn.
  by destruct (call_stage call).
Qed.

Definition permits_ok (max : nat) (w : World) : Prop :=
  (∀ c call, w_calls w !! c = Some call → c < w_next_call w) ∧
  match w_permits w with
  | Some free => free + held (w_calls w) = max
  | None => max = 0
  end.

Lemma calls_fresh_insert (calls : gmap CallId Call) next c call :
  (∀ c call, calls !! c = Some call → c < next) → is_Some (calls !! c) →
  ∀ c' call', <[c := call]> calls !! c' = Some call' → c' < next.
Proof.
  intros Hf [x Hx] c' call'. destruct (decide (c = c')) as [<-|]; [intros _; by eapply Hf|].
  rewrite lookup_insert_ne by done. apply Hf.
Qed.

Lemma permits_move max w c call call' :
  permits_ok max w → w_calls w !! c = Some call → holds_permit call = holds_permit call' →
  permits_ok max (set_calls (<[c := call']> (w_calls w)) w).
Proof.
  intros [Hf Hp] Hc Hh. split; cbn; [by eapply calls_fresh_insert|].
  pose proof (held_move (w_calls w) c call call' Hc) as Hm. rewrite Hh in Hm. destruct (w_permits w); lia.
Qed.

Lemma permits_exit max w c call :
  permits_ok max w → w_calls w !! c = Some call → holds_permit call = true → permits_ok max (exit c w).
Proof.
  intros [Hf Hp] Hc Hh. split; cbn.
  - intros c' call' [_ Hl]%lookup_delete_Some. by eapply Hf.
  - pose proof (held_lookup (w_calls w) c call Hc) as Hl. rewrite Hh in Hl. cbn in Hl.
    destruct (w_permits w); cbn; lia.
Qed.

(** Decides [holds_permit] from the stage. *)
Ltac holding :=
  unfold holds_permit; repeat match goal with E : call_stage _ = _ |- _ => rewrite E end; cbn.

Lemma permits_step max e w w' : permits_ok max w → wk_step e w = Some w' → permits_ok max w'.
Proof.
  intros Hok Hs. step_cases Hs; try exact Hok.
  - destruct Hok as [Hf Hp]. assert (w_calls w !! w_next_call w = None) as Hn.
    { destruct (w_calls w !! w_next_call w) eqn:E; [|done]. apply Hf in E. lia. }
    split; cbn.
    + intros c call. destruct (decide (w_next_call w = c)) as [<-|]; [lia|].
      rewrite lookup_insert_ne by done. intros ?%Hf. lia.
    + rewrite held_insert by done. exact Hp.
  - destruct Hok as [Hf Hp]. split; cbn; [by eapply calls_fresh_insert|].
    pose proof (held_move (w_calls w) c c0 (mkCall (call_task c0) Registering) ltac:(done)) as Hm.
    unfold holds_permit in Hm. repeat match goal with E : call_stage _ = _ |- _ => rewrite E in Hm end.
    repeat match goal with E : w_permits _ = _ |- _ => rewrite E in Hp end. cbn in Hm. rewrite Nat.add_0_r in Hm. rewrite Hm. lia.
  - destruct Hok as [Hf Hp]. split; cbn; [by eapply calls_fresh_insert|].
    by repeat match goal with E : w_permits _ = _ |- _ => rewrite E in * end.
  - eapply (permits_move max); [done..|by holding].
  - eapply permits_move; [done..|by holding].
  - unfold poll. repeat case_match; [| |eapply permits_move; [done..|by holding]..]; try done.
    eapply permits_move; [done..|by holding].
  - eapply permits_exit; [done..|by holding].
  - eapply (permits_move max); [done..|by holding].
  - eapply permits_exit; [done..|by holding].
  - unfold before_stop. by case_match.
Qed.

Lemma permits_reachable config w : wk_reachable config w → permits_ok (bwc_max_concurrent_tasks config) w.
Proof.
  apply reachable_inv; [|eauto using permits_step]. split; cbn -[Nat.ltb]; [done|].
  destruct (Nat.ltb_spec 0 (bwc_max_concurrent_tasks config)); [|lia]. change (held ∅) with 0. lia.
Qed.

(** C21: However calls, tasks, clients and the actor interleave, no more tasks are
    alive at any moment than [max_concurrent_tasks] allows (when it is set): a
    permit is taken before a task is registered and returned only when it ends,
    by whatever outcome. *)
Theorem worker_concurrency_bounded config w :
  wk_reachable config w →
  bwc_max_concurrent_tasks config = 0 ∨
  size (filter (fun p : CallId * Call => tracked p.2 = true) (w_calls w)) ≤ bwc_max_concurrent_tasks config.
Proof.
  intros Hr. destruct (permits_reachable config w Hr) as [_ Hp]. pose proof (working_held (w_calls w)).
  destruct (w_permits w); lia.
Qed.

(** ** Questions *)

Definition msg_asks (m : WorkerMsg) : list Ask :=
  match m with
  | WaitForTask _ reply | GetTaskStatus _ reply | GetAllTaskStatuses reply | CleanupFinishedTasks (Some reply) => [reply]
  | _ => []
  end.

(** Questions not yet seen by the actor, parked in it, and answered. *)
Definition queued (w : World) : list Ask := w_mailbox w ≫= msg_asks.
Definition parked (s : BackgroundWorkerState) : list Ask := map_to_list (bw_waiters s) ≫= snd.
Definition answered (w : World) : list Ask := (w_answers w).*1.

Lemma waiters_split (waiters : gmap TaskId (list Ask)) k :
  (map_to_list waiters ≫= snd) ≡ₚ default [] (waiters !! k) ++ (map_to_list (delete k waiters) ≫= snd).
Proof.
  destruct (waiters !! k) as [l|] eqn:E; cbn; [|by rewrite delete_id].
  by rewrite <-(map_to_list_delete waiters k l E).
Qed.

Lemma waiters_insert (waiters : gmap TaskId (list Ask)) k l :
  (map_to_list (<[k := l]> waiters) ≫= snd) ≡ₚ l ++ (map_to_list (delete k waiters) ≫= snd).
Proof. rewrite (waiters_split (<[k := l]> waiters) k), lookup_insert_eq, delete_insert_eq. done. Qed.

Lemma handle_asks m s s' eff :
  bw_handle m s = (s', eff) → msg_asks m ++ parked s ≡ₚ parked s' ++ (eff_answers eff).*1.
Proof.
  destruct m as [t tok|t st|t|t a|t a|a|[a|]]; cbn; intros H;
    unfold on_register, on_completed, on_cancel, on_status, on_all_statuses, on_cleanup in H;
    repeat case_match; simplify_eq; cbn; unfold parked; cbn; rewrite ?app_nil_r; try done; try apply Permutation_cons_append.
  - rewrite (waiters_split (bw_waiters s) t). rewrite Permutation_app_comm. apply Permutation_app_head.
    unfold waiters_of. by induction (default [] (bw_waiters s !! t)) as [|a l IH]; cbn; [|constructor].
  - unfold on_wait in H. repeat case_match; simplify_eq; cbn; try apply Permutation_cons_append.
    rewrite app_nil_r, waiters_insert, (waiters_split (bw_waiters s) t), <-(assoc_L (++)).
    unfold waiters_of. apply (Permutation_middle (default [] (bw_waiters s !! t))).
Qed.

Definition asks_ok (w : World) : Prop :=
  queued w ++ parked (w_agent w) ++ answered w ≡ₚ seq 0 (w_next_ask w).

Lemma queued_send m w : msg_asks m = [] → queued (send m w) = queued w.
Proof. intros Hm. unfold queued. cbn. rewrite bind_app. cbn. by rewrite Hm, !app_nil_r. Qed.

Lemma asks_send m w : msg_asks m = [] → asks_ok w → asks_ok (send m w).
Proof. intros Hm. unfold asks_ok. rewrite queued_send by done. done. Qed.

Lemma asks_step e w w' : asks_ok w → wk_step e w = Some w' → asks_ok w'.
Proof.
  intros Hok Hs. step_cases Hs; try exact Hok; try (by apply asks_send).
  - unfold poll. by repeat case_match.
  - unfold asks_ok, queued, answered in *. cbn [ask w_mailbox w_agent w_answers w_next_ask].
    rewrite bind_app, seq_S, Permutation_app_comm. cbn. rewrite <-(assoc_L (++)).
    destruct q; cbn; rewrite <-Hok; solve_Permutation.
  - unfold asks_ok, queued, answered in *. cbn.
    match goal with E : bw_handle _ _ = _, Em : w_mailbox w = _ |- _ =>
      apply handle_asks in E; rewrite Em in Hok end.
    rewrite <-Hok. cbn. rewrite fmap_app.
    match goal with E : msg_asks ?m ++ ?p ≡ₚ _ |- _ ≡ₚ (msg_asks ?m ++ ?q) ++ ?p ++ ?a =>
      transitivity ((msg_asks m ++ p) ++ q ++ a); [rewrite E|]; solve_Permutation end.
  - unfold before_stop. by case_match.
Qed.

(** ** What holds of every state *)

Record worker_inv (w : World) : Prop := {
  wi_fresh : ∀ c call, w_calls w !! c = Some call → c < w_next_call w;
  wi_mailbox : ∀ id s, TaskCompleted id s ∈ w_mailbox w → is_terminal s = true;
  wi_reporting : ∀ c call s, w_calls w !! c = Some call → call_stage call = Reporting s → is_terminal s = true;
  wi_status : ∀ id rec, bw_tasks (w_agent w) !! id = Some rec →
    rec_status rec = Running ∨ is_terminal (rec_status rec) = true;
  wi_waiters : ∀ id, waiters_of id (w_agent w) ≠ [] →
    ∃ t, bw_tasks (w_agent w) !! id = Some (mkTaskRecord t Running);
}.

(** Every event but [EvHandle] leaves the actor alone and at most appends to
    its mailbox. *)
Inductive outside (w w' : World) : Prop :=
| outside_intro ms :
    w_agent w' = w_agent w → w_answers w' = w_answers w → w_cancelled w' = w_cancelled w →
    (w_root_cancelled w = true → w_root_cancelled w' = true) →
    w_mailbox w' = w_mailbox w ++ ms →
    (∀ id t, RegisterTask id t ∈ ms →
       w_calls w !! t = Some (mkCall id Registering) ∧ w_calls w' !! t = Some (mkCall id Spawning)) →
    (∀ id s, TaskCompleted id s ∈ ms → ∃ c, w_calls w !! c = Some (mkCall id (Reporting s))) →
    outside w w'.

Lemma call_eta call s : call_stage call = s → call = mkCall (call_task call) s.
Proof. destruct call. by intros <-. Qed.

Lemma outside_still w w' :
  w_agent w' = w_agent w → w_answers w' = w_answers w → w_cancelled w' = w_cancelled w →
  (w_root_cancelled w = true → w_root_cancelled w' = true) → w_mailbox w' = w_mailbox w → outside w w'.
Proof. intros. apply (outside_intro w w' []); rewrite ?app_nil_r; set_solver. Qed.

Lemma outside_send w w' m :
  w_agent w' = w_agent w → w_answers w' = w_answers w → w_cancelled w' = w_cancelled w →
  (w_root_cancelled w = true → w_root_cancelled w' = true) → w_mailbox w' = w_mailbox w ++ [m] →
  match m with
  | RegisterTask id t => w_calls w !! t = Some (mkCall id Registering) ∧ w_calls w' !! t = Some (mkCall id Spawning)
  | TaskCompleted id s => ∃ c, w_calls w !! c = Some (mkCall id (Reporting s))
  | _ => True
  end → outside w w'.
Proof.
  intros. apply (outside_intro w w' [m]); try done; intros ? ? Hm%list_elem_of_singleton; by subst.
Qed.

Lemma step_outside e w w' : wk_step e w = Some w' → e ≠ EvHandle → outside w w'.
Proof.
  intros Hs He. step_cases Hs; try (by apply outside_still); try (by eapply outside_send; cbn).
  - apply (outside_send _ _ (RegisterTask (call_task c0) c)); cbn; try done.
    split; [by rewrite <-call_eta|apply lookup_insert_eq].
  - unfold poll. by repeat case_match; apply outside_still.
  - apply (outside_send _ _ (TaskCompleted (call_task c0) status)); cbn; try done. exists c. by rewrite <-call_eta.
  - by eapply (outside_send _ _ (question_msg q (w_next_ask w))); cbn; try done; destruct q.
  - unfold before_stop. by case_match; apply outside_still.
Qed.

(** The stages of a call in order. *)
Inductive next_stage : Stage → Stage → Prop :=
| next_acquired : next_stage Acquiring Registering
| next_registered : next_stage Registering Spawning
| next_spawned : next_stage Spawning Working
| next_finished s : is_terminal s = true → next_stage Working (Reporting s)
| next_reported s : next_stage (Reporting s) Exiting.

Inductive call_moved (e : Event) (w : World) (c : CallId) (call' : Call) : Prop :=
| call_same : w_calls w !! c = Some call' → call_moved e w c call'
| call_next call : w_calls w !! c = Some call → call_task call = call_task call' →
    next_stage (call_stage call) (call_stage call') → call_moved e w c call'
| call_new : c = w_next_call w → e = EvSubmit (call_task call') → call_stage call' = Acquiring → call_moved e w c call'.

(** Where the calls after a step come from. *)
Lemma moved_call e w c call s c' call' :
  w_calls w !! c = Some call → next_stage (call_stage call) s →
  w_calls (move c call s w) !! c' = Some call' → call_moved e w c' call'.
Proof.
  cbn. intros Hc Hn. destruct (decide (c = c')) as [<-|Hne].
  - rewrite lookup_insert_eq. intros [= <-]. by eapply call_next.
  - rewrite lookup_insert_ne by done. apply call_same.
Qed.

(** Closes a goal about the stage of a call found in a step. *)
Ltac staged := match goal with E : call_stage ?c = _ |- next_stage (call_stage ?c) _ => rewrite E; by constructor end.

Lemma step_calls_back e w w' c call' :
  wk_step e w = Some w' → w_calls w' !! c = Some call' → call_moved e w c call'.
Proof.
  intros Hs. step_cases Hs; try exact (call_same _ w c call');
    try (by eapply (moved_call _ w c0 c1); [done|staged]).
  - cbn. destruct (decide (w_next_call w = c)) as [<-|Hne].
    + rewrite lookup_insert_eq. intros [= <-]. by apply call_new.
    + rewrite lookup_insert_ne by done. apply call_same.
  - unfold poll. repeat case_match; try exact (call_same _ w c call');
      (eapply (moved_call _ w c0 c1); [done|staged]).
  - cbn. intros [_ ?]%lookup_delete_Some. by apply call_same.
  - cbn. intros [_ ?]%lookup_delete_Some. by apply call_same.
  - unfold before_stop. case_match; exact (call_same _ w c call').
Qed.

(** What becomes of a call, unless its task panics. *)
Inductive call_after (w w' : World) (c : CallId) (call : Call) : Prop :=
| after_same : w_calls w' !! c = Some call → call_after w w' c call
| after_next call' : w_calls w' !! c = Some call' → call_task call' = call_task call →
    next_stage (call_stage call) (call_stage call') →
    (∀ s, call_stage call = Reporting s → w_mailbox w' = w_mailbox w ++ [TaskCompleted (call_task call) s]) →
    call_after w w' c call
| after_exit : call_stage call = Exiting → call_after w w' c call.

Definition panics (c : CallId) (e : Event) : Prop := e = EvPanic c.

Lemma after_move w w' c call s c' call' :
  w_calls w !! c = Some call → w_calls w !! c' = Some call' →
  w_calls w' = <[c := mkCall (call_task call) s]> (w_calls w) → next_stage (call_stage call) s →
  (∀ s, call_stage call = Reporting s → w_mailbox w' = w_mailbox w ++ [TaskCompleted (call_task call) s]) →
  call_after w w' c' call'.
Proof.
  intros Hc Hc' Hw Hn Hr. destruct (decide (c = c')) as [<-|Hne].
  - simplify_eq. eapply after_next; [rewrite Hw; apply lookup_insert_eq|done..].
  - apply after_same. by rewrite Hw, lookup_insert_ne.
Qed.

Lemma step_calls e w w' c call :
  (∀ c' call', w_calls w !! c' = Some call' → c' < w_next_call w) →
  wk_step e w = Some w' → w_calls w !! c = Some call → ¬ panics c e → call_after w w' c call.
Proof.
  intros Hf Hs Hc Hp. step_cases Hs; try (apply after_same; exact Hc);
    try (eapply (after_move w _ c0 c1); [done|done|reflexivity|staged|congruence]).
  - apply after_same. cbn. rewrite lookup_insert_ne; [done|]. apply Hf in Hc. lia.
  - unfold poll. repeat case_match; try (apply after_same; exact Hc);
      (eapply (after_move w _ c0 c1); [done|done|reflexivity|staged|congruence]).
  - apply after_same. cbn. rewrite lookup_delete_ne; [done|]. intros ->. by apply Hp.
  - eapply (after_move w _ c0 c1); [done|done|reflexivity|staged|]. intros s Es.
    by assert (s = status) as -> by congruence.
  - destruct (decide (c0 = c)) as [->|Hne]; [apply after_exit; by simplify_eq|].
    apply after_same. cbn. by rewrite lookup_delete_ne.
  - unfold before_stop. case_match; apply after_same; exact Hc.
Qed.

(** ** The handlers *)

(** Unfolds a handler in [H : bw_handle m s = (s', eff)]. *)
Ltac handler_cases H :=
  cbn [bw_handle] in H;
  unfold on_register, on_completed, on_cancel, on_wait, on_status, on_all_statuses, on_cleanup in H;
  repeat case_match; simplify_eq; cbn [bw_tasks bw_waiters].

Lemma alter_record f id id' (tasks : gmap TaskId TaskRecord) rec :
  alter f id tasks !! id' = Some rec →
  (id ≠ id' ∧ tasks !! id' = Some rec) ∨ (id = id' ∧ ∃ r, tasks !! id = Some r ∧ rec = f r).
Proof.
  destruct (decide (id = id')) as [<-|Hne].
  - rewrite lookup_alter_eq. destruct (tasks !! id) as [r|]; [|done]. intros [= <-]. eauto.
  - rewrite lookup_alter_ne by done. by left.
Qed.

(** The record of a task after a message. *)
Lemma handle_record m s s' eff id rec :
  bw_handle m s = (s', eff) → bw_tasks s' !! id = Some rec →
  bw_tasks s !! id = Some rec ∨
  (∃ t, m = RegisterTask id t ∧ rec = mkTaskRecord t Running) ∨
  (∃ st r, m = TaskCompleted id st ∧ bw_tasks s !! id = Some r ∧ rec = mkTaskRecord (rec_token r) st).
Proof.
  intros H. destruct m as [i t|i st|i|i a|i a|a|a]; handler_cases H; intros Hl; try (by left).
  - destruct (decide (i = id)) as [->|Hne].
    + rewrite lookup_insert_eq in Hl. simplify_eq. right. left. eauto.
    + rewrite lookup_insert_ne in Hl by done. by left.
  - apply alter_record in Hl as [[_ ?]|[-> (r & ? & ->)]]; [by left|]. right. right. eauto.
  - left. by apply map_lookup_filter_Some in Hl as [? _].
  - left. by apply map_lookup_filter_Some in Hl as [? _].
Qed.

(** A running record goes only by its completion or a new registration. *)
Lemma handle_running m s s' eff id t :
  bw_handle m s = (s', eff) → bw_tasks s !! id = Some (mkTaskRecord t Running) →
  bw_tasks s' !! id = Some (mkTaskRecord t Running) ∨
  (∃ t', m = RegisterTask id t') ∨ (∃ st, m = TaskCompleted id st).
Proof.
  intros H Hr. destruct m as [i t'|i st|i|i a|i a|a|a]; handler_cases H; try (by left).
  - destruct (decide (i = id)) as [->|Hne]; [right; left; eauto|]. left. by rewrite lookup_insert_ne.
  - destruct (decide (i = id)) as [->|Hne]; [right; right; eauto|]. left. by rewrite lookup_alter_ne.
  - left. by apply map_lookup_filter_Some.
  - left. by apply map_lookup_filter_Some.
Qed.

(** The waiters of a task after a message. *)
Lemma handle_waiters m s s' eff id a :
  bw_handle m s = (s', eff) → a ∈ waiters_of id s' →
  a ∈ waiters_of id s ∨
  (m = WaitForTask id a ∧ ∃ rec, bw_tasks s !! id = Some rec ∧ is_terminal (rec_status rec) = false).
Proof.
  intros H. destruct m as [i t'|i st|i|i b|i b|b|b]; handler_cases H; try (by left).
  all: unfold waiters_of; cbn [bw_waiters].
  - destruct (decide (i = id)) as [->|Hne]; [rewrite lookup_delete_eq; set_solver|].
    rewrite lookup_delete_ne by done. by left.
  - destruct (decide (i = id)) as [->|Hne]; [|rewrite lookup_insert_ne by done; by left].
    rewrite lookup_insert_eq. cbn. rewrite elem_of_app, list_elem_of_singleton. intros [?| ->]; [by left|]. right. eauto.
Qed.

Lemma handle_keeps_waiter m s s' eff id a :
  bw_handle m s = (s', eff) → a ∈ waiters_of id s →
  a ∈ waiters_of id s' ∨
  ∃ st, m = TaskCompleted id st ∧ (a, RStatus (Some (mkTaskStatusResponse id st))) ∈ eff_answers eff.
Proof.
  intros H Ha. destruct m as [i t'|i st|i|i b|i b|b|b]; handler_cases H; try (by left).
  - destruct (decide (i = id)) as [->|Hne].
    + right. exists st. split; [done|]. apply list_elem_of_fmap. by exists a.
    + left. unfold waiters_of. cbn. by rewrite lookup_delete_ne.
  - left. unfold waiters_of at 1. cbn. destruct (decide (i = id)) as [->|Hne]; [|by rewrite lookup_insert_ne].
    rewrite lookup_insert_eq. cbn. apply elem_of_app. by left.
Qed.

Lemma handle_step w w' :
  handle w = Some w' → ∃ m s eff mailbox,
    w_phase w = Serving ∧ w_mailbox w = m :: mailbox ∧ bw_handle m (w_agent w) = (s, eff) ∧
    w_agent w' = s ∧ w_mailbox w' = mailbox ∧ w_calls w' = w_calls w ∧ w_next_call w' = w_next_call w ∧
    w_root_cancelled w' = w_root_cancelled w ∧ w_cancelled w' = eff_cancels eff ++ w_cancelled w ∧
    w_answers w' = w_answers w ++ eff_answers eff ∧ w_phase w' = Serving.
Proof.
  unfold handle. destruct (w_phase w) eqn:Ep; try done. destruct (w_mailbox w) as [|m mailbox] eqn:Em; [done|].
  destruct (bw_handle m (w_agent w)) as [s eff] eqn:Eh. intros [= <-]. exists m, s, eff, mailbox. by rewrite ?Ep.
Qed.

#[export] Instance Event_is_handle e : Decision (e = EvHandle).
Proof. by destruct e; first [left; reflexivity|right; discriminate]. Defined.

Lemma inv_calls e w w' :
  worker_inv w → wk_step e w = Some w' →
  (∀ c call, w_calls w' !! c = Some call → c < w_next_call w') ∧
  (∀ c call s, w_calls w' !! c = Some call → call_stage call = Reporting s → is_terminal s = true).
Proof.
  intros Hi Hs. split.
  - assert (w_next_call w ≤ w_next_call w' ∧ (∀ id, e = EvSubmit id → w_next_call w' = S (w_next_call w))) as [Hle Hnew].
    { clear Hi. unfold before_stop, poll in *. step_cases Hs; cbn; try (split; [lia|congruence]).
      - unfold poll. repeat case_match; cbn; split; (lia || congruence).
      - unfold before_stop. case_match; cbn; split; (lia || congruence). }
    intros c call Hc. destruct (step_calls_back e w w' c call Hs Hc) as [H|c0 H _ _| -> He _].
    + apply (wi_fresh w Hi) in H. lia.
    + apply (wi_fresh w Hi) in H. lia.
    + rewrite (Hnew _ He). lia.
  - intros c call s Hc Es. destruct (step_calls_back e w w' c call Hs Hc) as [H|c0 H _ Hn|_ _ E].
    + by eapply (wi_reporting w Hi).
    + rewrite Es in Hn. by inversion Hn.
    + congruence.
Qed.

Lemma inv_outside w w' :
  worker_inv w → outside w w' →
  (∀ c call, w_calls w' !! c = Some call → c < w_next_call w') →
  (∀ c call s, w_calls w' !! c = Some call → call_stage call = Reporting s → is_terminal s = true) → worker_inv w'.
Proof.
  intros Hi [ms Ha _ _ _ Hm _ Hc] Hf Hr. split; rewrite ?Ha; try done; try apply Hi.
  intros id s. rewrite Hm, elem_of_app. intros [H|H]; [by eapply (wi_mailbox w Hi)|].
  destruct (Hc id s H) as (c & E). by eapply (wi_reporting w Hi c _ s E).
Qed.

Lemma inv_handle w w' : worker_inv w → handle w = Some w' → worker_inv w'.
Proof.
  intros Hi (m & s & eff & mb & _ & Em & Eh & Ea & Eb & Ec & En & _)%handle_step.
  pose proof (wi_mailbox w Hi) as Hm. rewrite Em in Hm.
  split; rewrite ?Ea, ?Eb, ?Ec, ?En; try apply Hi.
  - intros id st H. eapply Hm. by right.
  - intros id rec H. destruct (handle_record _ _ _ _ _ _ Eh H) as [H'|[(t & _ & ->)|(st & r & -> & _ & ->)]];
      [by eapply (wi_status w Hi)|by left|]. right. eapply Hm. left.
  - intros id Hne. destruct (waiters_of id s) as [|a l] eqn:El; [done|].
    assert (a ∈ waiters_of id s) as Hin by (rewrite El; left).
    assert (∃ t, bw_tasks (w_agent w) !! id = Some (mkTaskRecord t Running)) as (t & Ht).
    { destruct (handle_waiters _ _ _ _ _ _ Eh Hin) as [Hw|(-> & rec & Hr & Hn)].
      - apply (wi_waiters w Hi). by intros E; rewrite E in Hw; apply not_elem_of_nil in Hw.
      - destruct (wi_status w Hi id rec Hr) as [E|E]; [|congruence]. destruct rec as [t st]. cbn in E. subst. by exists t. }
    destruct (handle_running _ _ _ _ _ _ Eh Ht) as [H|[(t' & ->)|(st & ->)]]; [by exists t|..].
    + exists t'. cbn in Eh. injection Eh as <- <-. apply lookup_insert_eq.
    + cbn in Eh. injection Eh as <- <-. unfold waiters_of in Hin. cbn in Hin.
      rewrite lookup_delete_eq in Hin. by apply not_elem_of_nil in Hin.
Qed.

Lemma inv_step e w w' : worker_inv w → wk_step e w = Some w' → worker_inv w'.
Proof.
  intros Hi Hs. destruct (decide (e = EvHandle)) as [->|He]; [by eapply inv_handle|].
  destruct (inv_calls e w w' Hi Hs). eapply inv_outside; [done|by eapply step_outside|done..].
Qed.

Lemma inv_spawn config : worker_inv (spawn config).
Proof. split; cbn; try done; try set_solver. Qed.

Lemma worker_inv_reachable config w : wk_reachable config w → worker_inv w.
Proof. apply reachable_inv; [apply inv_spawn|intros ???; apply inv_step]. Qed.

(** No question is lost and none is answered twice: at every moment each
    question asked so far is exactly one of still in the mailbox, parked with
    the task it waits for, or answered; and a question is parked only while its
    task is recorded as running. *)
Theorem worker_questions_accounted config w :
  wk_reachable config w →
  queued w ++ parked (w_agent w) ++ answered w ≡ₚ seq 0 (w_next_ask w) ∧
  (∀ task_id, waiters_of task_id (w_agent w) ≠ [] →
     ∃ token, bw_tasks (w_agent w) !! task_id = Some (mkTaskRecord token Running)).
Proof.
  intros Hr. split.
  - revert Hr. apply (reachable_inv wk_step asks_ok); [by vm_compute|]. apply asks_step.
  - by apply wi_waiters, (worker_inv_reachable config).
Qed.


(** ** Liveness *)

(** No task panics and the service is not stopped. *)
Definition benign (e : Event) : Prop :=
  match e with EvPanic _ | EvStop => False | _ => True end.

(** A completion of the task is still to come: from its call, or in [l]. *)
Definition due (w : World) (id : TaskId) (t : CallId) (l : list WorkerMsg) : Prop :=
  (∃ call, w_calls w !! t = Some call ∧ call_task call = id ∧
     (call_stage call = Spawning ∨ call_stage call = Working ∨ ∃ s, call_stage call = Reporting s)) ∨
  (∃ s, TaskCompleted id s ∈ l).

Record live_inv (w : World) : Prop := {
  li_inv : worker_inv w;
  li_serving : w_phase w = Serving;
  li_tasks : ∀ id t, bw_tasks (w_agent w) !! id = Some (mkTaskRecord t Running) → due w id t (w_mailbox w);
  li_queue : ∀ pre id t post, w_mailbox w = pre ++ RegisterTask id t :: post → due w id t post;
}.

Lemma due_step e w w' id t l ms :
  worker_inv w → benign e → wk_step e w = Some w' → w_mailbox w' = w_mailbox w ++ ms →
  due w id t l → due w' id t (l ++ ms).
Proof.
  intros Hi Hb Hs Hm [(call & Hc & Ht & Hst)|(s & H)]; [|right; exists s; apply elem_of_app; by left].
  destruct (step_calls e w w' t call (wi_fresh w Hi) Hs Hc) as [H|call' H Ht' Hn Hr|H].
  - intros ->. done.
  - left. by exists call.
  - destruct Hst as [E|[E|[s E]]]; rewrite E in Hn; inversion Hn as [| |E'|s' ? E'|? E']; subst.
    + left. exists call'. split; [done|]. split; [congruence|]. by auto.
    + left. exists call'. split; [done|]. split; [congruence|]. by eauto.
    + right. exists s. apply Hr in E. rewrite Hm in E. apply app_inv_head in E. subst.
      apply elem_of_app. right. left.
  - rewrite H in Hst. by destruct Hst as [?|[?|[? ?]]].
Qed.

Lemma serving_step e w w' : benign e → w_phase w = Serving → wk_step e w = Some w' → w_phase w' = Serving.
Proof.
  intros Hb Hp Hs. step_cases Hs; try done; try (unfold poll; by repeat case_match); congruence.
Qed.

Lemma app_cons_split {A} (l ms pre post : list A) x :
  l ++ ms = pre ++ x :: post → (∃ post', l = pre ++ x :: post' ∧ post = post' ++ ms) ∨ ∃ k, ms = k ++ x :: post.
Proof.
  revert pre. induction l as [|y l IH]; cbn; intros pre H; [right; eauto|]. destruct pre as [|z pre]; cbn in H.
  - injection H as -> <-. left. by exists l.
  - injection H as -> H. destruct (IH pre H) as [(p & -> & ->)|?]; [left; by exists p|by right].
Qed.

Lemma live_outside e w w' :
  benign e → live_inv w → wk_step e w = Some w' → e ≠ EvHandle → live_inv w'.
Proof.
  intros Hb Hl Hs He. destruct (step_outside e w w' Hs He) as [ms Ha _ _ _ Hm Hreg _].
  pose proof (li_inv w Hl) as Hi. split.
  - by eapply inv_step.
  - eapply serving_step; [done|apply Hl|done].
  - intros id t. rewrite Ha, Hm. intros H. eapply due_step; [done..|]. by apply Hl.
  - intros pre id t post. rewrite Hm. intros [(post' & E & ->)|(k & ->)]%app_cons_split.
    + eapply due_step; [done..|]. by eapply Hl.
    + destruct (Hreg id t) as [_ Hc]; [apply elem_of_app; right; left|]. left. by eauto 10.
Qed.

Lemma live_handle w w' : live_inv w → handle w = Some w' → live_inv w'.
Proof.
  intros Hl Hh. pose proof (li_inv w Hl) as Hi.
  pose proof (handle_step w w' Hh) as (m & s & eff & mb & _ & Em & Eh & Ea & Eb & Ec & _ & _ & _ & _ & Ep).
  split; [by eapply inv_handle|done|..].
  - intros id t. rewrite Ea, Eb. intros Hr. unfold due. rewrite Ec.
    destruct (handle_record _ _ _ _ _ _ Eh Hr) as [H|[(t' & -> & [= <-])|(st & r & -> & _ & [= _ <-])]].
    + destruct (li_tasks w Hl id t H) as [?|(st & Hin)]; [by left|]. rewrite Em in Hin.
      apply elem_of_cons in Hin as [<-|?]; [|right; by exists st]. cbn in Eh. injection Eh as <- <-.
      cbn in Hr. rewrite lookup_alter_eq, H in Hr. cbn in Hr. injection Hr as ->.
      pose proof (wi_mailbox w Hi id Running ltac:(rewrite Em; left)). done.
    + exact (li_queue w Hl [] id t mb Em).
    + by pose proof (wi_mailbox w Hi id Running ltac:(rewrite Em; left)).
  - intros pre id t post. rewrite Eb. intros ->. unfold due. rewrite Ec. exact (li_queue w Hl (m :: pre) id t post Em).
Qed.

Lemma live_step e w w' : benign e → live_inv w → wk_step e w = Some w' → live_inv w'.
Proof.
  intros Hb Hl Hs. destruct (decide (e = EvHandle)) as [->|He]; [by eapply live_handle|by eapply live_outside].
Qed.

Lemma live_spawn config : live_inv (spawn config).
Proof. split; [apply inv_spawn|done..|]. by intros [] ? ? ?. Qed.

Section Cancel.
Context (id : TaskId) (a : Ask).

(** No further task of this id is on its way to the actor, in [l] or from a
    call of [submit]. *)
Definition no_submission (w : World) : Prop :=
  ∀ c call, w_calls w !! c = Some call → call_task call = id →
    call_stage call ≠ Acquiring ∧ call_stage call ≠ Registering.

Definition quiet (l : list WorkerMsg) (w : World) : Prop :=
  (∀ t, RegisterTask id t ∉ l) ∧ no_submission w.

Definition spares (e : Event) : Prop := benign e ∧ e ≠ EvSubmit id.

(** The question was answered, with a final status or with none. *)
Definition told (w : World) : Prop :=
  ∃ response, (a, RStatus response) ∈ w_answers w ∧
    ∀ r, response = Some r → tsr_task_id r = id ∧ is_terminal (tsr_status r) = true.

(** The question is parked with a cancelled, running task. *)
Definition waiting (t : CallId) (w : World) : Prop :=
  bw_tasks (w_agent w) !! id = Some (mkTaskRecord t Running) ∧ a ∈ waiters_of id (w_agent w) ∧
  is_cancelled t w = true ∧ quiet (w_mailbox w) w.

Definition at_st (t : CallId) (st : Stage) (w : World) : Prop := w_calls w !! t = Some (mkCall id st).

Lemma no_submission_step e w w' : spares e → no_submission w → wk_step e w = Some w' → no_submission w'.
Proof.
  intros [_ He] Hn Hs c call' Hc Hid. destruct (step_calls_back e w w' c call' Hs Hc) as [H|call H Ht Hnx|_ H _].
  - by eapply Hn.
  - destruct (Hn c call H ltac:(congruence)) as [? ?]. by inversion Hnx as [E|E| | |]; rewrite <-?E in *.
  - congruence.
Qed.

Lemma quiet_outside e w w' l ms :
  spares e → quiet l w → wk_step e w = Some w' → e ≠ EvHandle → w_mailbox w' = w_mailbox w ++ ms →
  quiet (l ++ ms) w'.
Proof.
  intros Hsp [Hl Hn] Hs He Hm. split; [|by eapply no_submission_step].
  destruct (step_outside e w w' Hs He) as [ms' _ _ _ _ Hm' Hr _]. rewrite Hm in Hm'. apply app_inv_head in Hm' as <-.
  intros t [?|H]%elem_of_app; [by eapply Hl|]. apply Hr in H as [H _]. by destruct (Hn _ _ H eq_refl) as [_ ?].
Qed.

Lemma quiet_handle l w w' : handle w = Some w' → quiet l w → quiet l w'.
Proof.
  intros (m & s & eff & mb & _ & _ & _ & _ & _ & Ec & _)%handle_step [Hl Hn]. split; [done|].
  intros c call. rewrite Ec. apply Hn.
Qed.

Lemma quiet_sub l l' w : (∀ x, x ∈ l' → x ∈ l) → quiet l w → quiet l' w.
Proof. intros Hs [Hl Hn]. split; [|done]. intros t H. by eapply Hl, Hs. Qed.

Lemma cancelled_step e w w' t : wk_step e w = Some w' → is_cancelled t w = true → is_cancelled t w' = true.
Proof.
  unfold is_cancelled. intros Hs [Hr|Hc]%orb_true_iff; apply orb_true_iff.
  all: destruct (decide (e = EvHandle)) as [->|He].
  - apply handle_step in Hs as (m & s & eff & mb & _ & _ & _ & _ & _ & _ & _ & Er & _). left. congruence.
  - destruct (step_outside e w w' Hs He). left. auto.
  - apply handle_step in Hs as (m & s & eff & mb & _ & _ & _ & _ & _ & _ & _ & _ & Er & _).
    right. apply bool_decide_eq_true in Hc. apply bool_decide_eq_true. rewrite Er. apply elem_of_app. by right.
  - destruct (step_outside e w w' Hs He) as [ms _ _ E]. right. by rewrite E.
Qed.

Lemma told_step e w w' : wk_step e w = Some w' → told w → told w'.
Proof.
  intros Hs (resp & Hin & Hr). exists resp. split; [|done]. destruct (decide (e = EvHandle)) as [->|He].
  - apply handle_step in Hs as (m & s & eff & mb & _ & _ & _ & _ & _ & _ & _ & _ & _ & -> & _).
    apply elem_of_app. by left.
  - destruct (step_outside e w w' Hs He) as [ms _ E]. by rewrite E.
Qed.

(** Handling a message while the question is parked. *)
Lemma waiting_handle t m mb w w' :
  live_inv w → waiting t w → handle w = Some w' → w_mailbox w = m :: mb →
  (waiting t w' ∧ ∀ s, m ≠ TaskCompleted id s) ∨ told w'.
Proof.
  intros Hl (Ht & Ha & Hc & Hq) Hh Em.
  pose proof (handle_step w w' Hh) as (m' & s & eff & mb' & _ & Em' & Eh & Ea & Eb & _ & _ & _ & _ & Ew & _).
  rewrite Em in Em'. injection Em' as <- <-.
  destruct (handle_running _ _ _ _ _ _ Eh Ht) as [Hr|[(t' & ->)|(st & ->)]].
  - destruct (handle_keeps_waiter _ _ _ _ _ _ Eh Ha) as [Ha'|(st & -> & Hin)].
    + destruct m as [i t'|i st|i|i b|i b|b|b] eqn:Eqm; try destruct (decide (i = id)) as [->|Hne].
      all: try (left; split; [|by intros; congruence]; split; [by rewrite Ea|]; split; [by rewrite Ea|];
                split; [by eapply (cancelled_step EvHandle)|]; rewrite Eb;
                eapply quiet_handle, quiet_sub, Hq; [done|rewrite Em; by right]).
      cbn in Eh. injection Eh as <- <-. cbn in Hr. rewrite lookup_alter_eq, Ht in Hr. cbn in Hr. injection Hr as ->.
      exfalso. pose proof (wi_mailbox w (li_inv w Hl) id Running ltac:(rewrite Em; left)). done.
    + right. eexists. rewrite Ew. split; [apply elem_of_app; right; exact Hin|]. intros r [= <-]. split; [done|].
      eapply (wi_mailbox w (li_inv w Hl)). rewrite Em. left.
  - exfalso. destruct Hq as [Hq _]. apply (Hq t'). rewrite Em. left.
  - destruct (handle_keeps_waiter _ _ _ _ _ _ Eh Ha) as [Ha'|(st' & [= <-] & Hin)].
    + exfalso. cbn in Eh. injection Eh as <- <-. unfold waiters_of in Ha'. cbn in Ha'.
      rewrite lookup_delete_eq in Ha'. by apply not_elem_of_nil in Ha'.
    + right. eexists. rewrite Ew. split; [apply elem_of_app; right; exact Hin|]. intros r [= <-]. split; [done|].
      eapply (wi_mailbox w (li_inv w Hl)). rewrite Em. left.
Qed.

Lemma waiting_step t : until wk_step spares live_inv (waiting t) told.
Proof.
  intros e w w' Hsp Hl Hw Hs. destruct (decide (e = EvHandle)) as [->|He].
  - pose proof (handle_step w w' Hs) as (m & s & eff & mb & _ & Em & _).
    destruct (waiting_handle t m mb w w' Hl Hw Hs Em) as [[? _]|?]; auto.
  - destruct Hw as (Ht & Ha & Hc & Hq). left.
    destruct (step_outside e w w' Hs He) as [ms Ea _ _ _ Em _ _]. split; [by rewrite Ea|]. split; [by rewrite Ea|].
    split; [by eapply cancelled_step|]. rewrite Em. by eapply quiet_outside.
Qed.

(** ** Progress *)

Definition handles (e : Event) : Prop := e = EvHandle.

(** The events by which the future of call [t] makes progress. *)
Definition drives (t : CallId) (e : Event) : Prop :=
  e = EvSpawn t ∨ e = EvReport t ∨ ∃ work, e = EvPoll t work.

Lemma handle_enabled w m mb : live_inv w → w_mailbox w = m :: mb → enabled wk_step handles w.
Proof.
  intros Hl Em. exists EvHandle. cbn. unfold handle. rewrite (li_serving w Hl), Em.
  destruct (bw_handle m (w_agent w)). by eexists.
Qed.

(** A completion at place [k] of the mailbox. *)
Definition completion_at (t : CallId) (k : nat) (w : World) : Prop :=
  waiting t w ∧ ∃ s, w_mailbox w !! k = Some (TaskCompleted id s).

Lemma completion_handle t k w w' :
  live_inv w → completion_at t k w → handle w = Some w' → nearer (completion_at t) told k w'.
Proof.
  intros Hl [Hw [s Hk]] Hs. pose proof (handle_step w w' Hs) as (m & s' & eff & mb & _ & Em & _ & _ & Eb & _).
  rewrite Em in Hk. destruct (waiting_handle t m mb w w' Hl Hw Hs Em) as [[Hw' Hm]|?]; [right|by left].
  destruct k as [|k]; cbn in *; [by simplify_eq; destruct (Hm s)|]. split; [done|]. exists s. by rewrite Eb.
Qed.

Lemma completion_step t k :
  until wk_step spares live_inv (completion_at t k) (nearer (completion_at t) told k).
Proof.
  intros e w w' Hsp Hl Hp Hs. destruct (decide (e = EvHandle)) as [->|He]; [right; by eapply completion_handle|].
  destruct Hp as [Hw [s Hk]]. destruct (waiting_step t e w w' Hsp Hl Hw Hs) as [Hw'|?]; [left|by right; left].
  split; [done|]. exists s. destruct (step_outside e w w' Hs He) as [ms _ _ _ _ -> _ _]. by apply lookup_app_l_Some.
Qed.

Context (r : Run wk_step) (n : nat).
Hypothesis handled : weakly_fair wk_step r handles.
Hypothesis driven : ∀ t, weakly_fair wk_step r (drives t).
Hypothesis spared : only_from wk_step r n spares.
Hypothesis alive : ∀ m, n ≤ m → live_inv (run_at r m).

Abbreviation leads P Q := (∀ m, n ≤ m → P (run_at r m) → ∃ k, m ≤ k ∧ Q (run_at r k)).

Lemma fair_from C (P Q : World → Prop) :
  weakly_fair wk_step r C → until wk_step spares live_inv P Q →
  (∀ w, live_inv w → P w → enabled wk_step C w) →
  (∀ e w w', C e → spares e → live_inv w → P w → wk_step e w = Some w' → Q w') → leads P Q.
Proof.
  intros Hf Hu He Hq m Hm Hp. eapply (leads_to_fair wk_step r spares C live_inv P Q m); try done.
  - by eapply only_from_later.
  - intros k Hk. apply alive. lia.
Qed.

Lemma completion_told t k : leads (completion_at t k) told.
Proof.
  revert k. apply (queue_leads wk_step r spares handles live_inv (completion_at t) told); try done.
  - apply completion_step.
  - intros k w Hl [_ [s Hk]]. destruct (w_mailbox w) eqn:E; [done|]. by eapply handle_enabled.
  - intros k e w w' -> _ Hl Hp Hs. by eapply completion_handle.
Qed.

(** The stages through which a cancelled task reports. *)
Definition stage_at (t : CallId) (st : Stage) (w : World) : Prop := waiting t w ∧ at_st t st w.

Definition stage_after (t : CallId) (st : Stage) (w : World) : Prop :=
  told w ∨ (∃ st', next_stage st st' ∧ stage_at t st' w ∧ st' ≠ Exiting) ∨ ∃ k, completion_at t k w.

Lemma stage_step t st : st ≠ Exiting → until wk_step spares live_inv (stage_at t st) (stage_after t st).
Proof.
  intros Hst e w w' Hsp Hl [Hw Hc] Hs.
  destruct (waiting_step t e w w' Hsp Hl Hw Hs) as [Hw'|?]; [|by right; left].
  destruct (step_calls e w w' t _ (wi_fresh w (li_inv w Hl)) Hs Hc) as [H|[i st'] H Hi Hn Hr|H].
  - by intros ->; destruct Hsp.
  - by left.
  - right. right. cbn in *. subst i. destruct (decide (st' = Exiting)) as [->|Hne]; [right|left; by exists st'].
    inversion Hn as [| | | |s E]; subst. exists (length (w_mailbox w)). split; [done|]. exists s.
    rewrite (Hr s eq_refl). by apply list_lookup_middle.
  - done.
Qed.

Definition going (st : Stage) : Prop := st = Spawning ∨ st = Working ∨ ∃ s, st = Reporting s.

Lemma stage_driven t st e w w' :
  going st → drives t e → live_inv w → stage_at t st w → wk_step e w = Some w' → w_calls w' !! t ≠ Some (mkCall id st).
Proof.
  intros Hg Hd Hl [(_ & _ & Hc & _) Hs] Hstep. unfold at_st in Hs.
  destruct Hd as [->|[->|[work ->]]]; cbn in Hstep; unfold at_stage in Hstep; rewrite Hs in Hstep; cbn in Hstep;
    destruct Hg as [->|[->|[s ->]]]; cbn in Hstep; repeat case_bool_decide; try done; simplify_eq.
  - cbn. by rewrite lookup_insert_eq.
  - cbn. by rewrite lookup_insert_eq.
  - unfold poll. rewrite Hc. cbn. by rewrite lookup_insert_eq.
Qed.

Lemma stage_enabled t st w : going st → stage_at t st w → enabled wk_step (drives t) w.
Proof.
  intros Hg [_ Hs]. unfold at_st in Hs. destruct Hg as [->|[->|[s ->]]].
  - exists (EvSpawn t). cbn. unfold at_stage. rewrite Hs. cbn. eexists. split; [by left|done].
  - exists (EvPoll t WorkPending). cbn. unfold at_stage. rewrite Hs. cbn.
    eexists. split; [right; right; by eexists|done].
  - exists (EvReport t). cbn. unfold at_stage. rewrite Hs. cbn. eexists. split; [right; by left|done].
Qed.

Lemma stage_leads t st : going st → leads (stage_at t st) (stage_after t st).
Proof.
  intros Hg. assert (st ≠ Exiting) as Hne by (by destruct Hg as [->|[->|[? ->]]]).
  apply (fair_from (drives t) (stage_at t st) (stage_after t st)); [done|by apply stage_step|intros; by eapply stage_enabled|].
  intros e w w' Hd Hsp Hl Hp Hs. destruct (stage_step t st Hne e w w' Hsp Hl Hp Hs) as [[_ H]|?]; [|done].
  by destruct (stage_driven t st e w w').
Qed.

(** From any stage on, the question is answered. *)
Lemma reporting_told t s : leads (stage_at t (Reporting s)) told.
Proof.
  intros m Hm Hp. apply (leads_to_trans wk_step r (stage_after t (Reporting s))); [apply (stage_leads t (Reporting s)); [unfold going; eauto|done..]|].
  intros m' Hm' [?|[(st' & Hn & _ & Hne)|[k Hk]]]; [by exists m'|by inversion Hn; subst|].
  by apply (completion_told t k); [lia|].
Qed.

Lemma working_told t : leads (stage_at t Working) told.
Proof.
  intros m Hm Hp. apply (leads_to_trans wk_step r (stage_after t Working)); [apply (stage_leads t Working); [unfold going; eauto|done..]|].
  intros m' Hm' [?|[(st' & Hn & Hs & Hne)|[k Hk]]]; [by exists m'| |by apply (completion_told t k); [lia|]].
  inversion Hn; subst. by eapply reporting_told; [lia|].
Qed.

Lemma waiting_told t : leads (waiting t) told.
Proof.
  intros m Hm Hp. pose proof Hp as (Ht & _).
  destruct (li_tasks _ (alive m Hm) id t Ht) as [(call & Hc & Hid & Hst)|[s Hin]].
  - destruct call as [i st]. cbn in *. subst i. destruct Hst as [->|[->|[s ->]]].
    + apply (leads_to_trans wk_step r (stage_after t Spawning)); [apply (stage_leads t Spawning); [by left|done|done]|].
      intros m' Hm' [?|[(st' & Hn & Hs & Hne)|[k Hk]]]; [by exists m'| |by apply (completion_told t k); [lia|]].
      inversion Hn; subst. by eapply working_told; [lia|].
    + by eapply working_told.
    + by eapply reporting_told.
  - apply list_elem_of_lookup in Hin as [k Hk]. apply (completion_told t k); [done|]. by split; [|exists s].
Qed.

(** The question is [k] messages from being handled, and a task it could wait
    for is cancelled. *)
Definition asked_at (k : nat) (w : World) : Prop :=
  ∃ pre post, w_mailbox w = pre ++ WaitForTask id a :: post ∧ length pre = k ∧ quiet (w_mailbox w) w ∧
    ∀ t, bw_tasks (w_agent w) !! id = Some (mkTaskRecord t Running) → is_cancelled t w = true.

Definition seen (w : World) : Prop := told w ∨ ∃ t, waiting t w.

Lemma asked_handle k w w' : live_inv w → asked_at k w → handle w = Some w' → nearer asked_at seen k w'.
Proof.
  intros Hl (pre & post & Em & Hk & Hq & Hc) Hh.
  pose proof (handle_step w w' Hh) as (m & s & eff & mb & _ & Em' & Eh & Ea & Eb & _ & _ & _ & _ & Ew & _).
  assert (quiet (w_mailbox w') w') as Hq'.
  { rewrite Eb. eapply quiet_handle, quiet_sub, Hq; [done|]. rewrite Em'. by right. }
  rewrite Em in Em'. destruct pre as [|m' pre]; cbn in Hk; subst k; injection Em' as <- <-; cbn.
  - cbn in Eh. unfold on_wait in Eh. destruct (bw_tasks (w_agent w) !! id) as [rec|] eqn:Er.
    + destruct (wi_status w (li_inv w Hl) id rec Er) as [Est|Est].
      * destruct rec as [t st]. cbn in Est. subst st. cbn in Eh. injection Eh as <- <-. left. right. exists t.
        split; [by rewrite Ea|]. split; [|split; [|done]].
        -- rewrite Ea. unfold waiters_of at 1. cbn. rewrite lookup_insert_eq. cbn. apply elem_of_app. right. left.
        -- by eapply (cancelled_step EvHandle), Hc.
      * rewrite Est in Eh. injection Eh as <- <-. left. left. eexists. rewrite Ew. cbn.
        split; [apply elem_of_app; right; left|]. by intros x [= <-].
    + injection Eh as <- <-. left. left. eexists. rewrite Ew. cbn. split; [apply elem_of_app; right; left|done].
  - right. exists pre, post. split; [done|]. split; [done|]. split; [done|]. intros t. rewrite Ea. intros Ht.
    eapply (cancelled_step EvHandle w w' t Hh), Hc.
    destruct (handle_record _ _ _ _ _ _ Eh Ht) as [?|[(t' & -> & _)|(st & rec & -> & _ & [= _ <-])]]; [done|..]; exfalso.
    + destruct Hq as [Hq _]. apply (Hq t'). rewrite Em. left.
    + by pose proof (wi_mailbox w (li_inv w Hl) id Running ltac:(rewrite Em; left)).
Qed.

Lemma asked_step k : until wk_step spares live_inv (asked_at k) (nearer asked_at seen k).
Proof.
  intros e w w' Hsp Hl Hp Hs. destruct (decide (e = EvHandle)) as [->|He]; [right; by eapply asked_handle|].
  left. destruct Hp as (pre & post & Em & Hk & Hq & Hc).
  destruct (step_outside e w w' Hs He) as [ms Ea _ _ _ Em' _ _]. exists pre, (post ++ ms).
  split; [by rewrite Em', Em, <-(assoc_L (++))|]. split; [done|]. split; [rewrite Em'; by eapply quiet_outside|].
  intros t. rewrite Ea. intros Ht. by eapply cancelled_step, Hc.
Qed.

Lemma asked_told k : leads (asked_at k) told.
Proof.
  intros m Hm Hp. apply (leads_to_trans wk_step r seen).
  - revert k m Hm Hp. apply (queue_leads wk_step r spares handles live_inv asked_at seen); try done.
    + apply asked_step.
    + intros k w Hl (pre & post & Em & _). destruct (w_mailbox w) eqn:E; [by destruct pre|]. by eapply handle_enabled.
    + intros k e w w' -> _ Hl Hp Hs. by eapply asked_handle.
  - intros m' Hm' [?|[t Ht]]; [by exists m'|]. by apply (waiting_told t); [lia|].
Qed.

(** The two messages of [cancel], with [k] messages before them. *)
Definition cancelling_at (k : nat) (w : World) : Prop :=
  ∃ pre mid post, w_mailbox w = pre ++ CancelTask id :: mid ++ WaitForTask id a :: post ∧ length pre = k ∧
    quiet (mid ++ post) w.

Definition asked (w : World) : Prop := ∃ k, asked_at k w.

Lemma cancelling_handle k w w' : live_inv w → cancelling_at k w → handle w = Some w' → nearer cancelling_at asked k w'.
Proof.
  intros Hl (pre & mid & post & Em & Hk & Hq) Hh. pose proof (quiet_handle _ w w' Hh Hq) as Hq'.
  pose proof (handle_step w w' Hh) as (m & s & eff & mb & _ & Em' & Eh & Ea & Eb & _ & _ & _ & Ecs & _).
  rewrite Em in Em'. destruct pre as [|m' pre]; cbn in Hk; subst k; injection Em' as <- <-; cbn.
  - left. exists (length mid), mid, post. split; [done|]. split; [done|]. split.
    + destruct Hq' as [Hr Hn]. split; [|done]. intros t. rewrite Eb. intros [H|[H|H]%elem_of_cons]%elem_of_app; [|done|];
        apply (Hr t), elem_of_app; auto.
    + intros t. rewrite Ea. cbn in Eh. injection Eh as <- <-. intros Ht. unfold is_cancelled. rewrite Ecs, Ht.
      apply orb_true_iff. right. apply bool_decide_eq_true. left.
  - right. by exists pre, mid, post.
Qed.

Lemma cancelling_step k : until wk_step spares live_inv (cancelling_at k) (nearer cancelling_at asked k).
Proof.
  intros e w w' Hsp Hl Hp Hs. destruct (decide (e = EvHandle)) as [->|He]; [right; by eapply cancelling_handle|].
  left. destruct Hp as (pre & mid & post & Em & Hk & Hq).
  destruct (step_outside e w w' Hs He) as [ms _ _ _ _ Em' _ _]. exists pre, mid, (post ++ ms). split; [|split; [done|]].
  - rewrite Em', Em. by rewrite <-!(assoc_L (++)), <-app_comm_cons, <-(assoc_L (++)).
  - rewrite (assoc_L (++)). by eapply quiet_outside.
Qed.

Lemma cancelling_told k : leads (cancelling_at k) told.
Proof.
  intros m Hm Hp. apply (leads_to_trans wk_step r asked).
  - revert k m Hm Hp. apply (queue_leads wk_step r spares handles live_inv cancelling_at asked); try done.
    + apply cancelling_step.
    + intros k w Hl (pre & mid & post & Em & _). destruct (w_mailbox w) eqn:E; [by destruct pre|].
      by eapply handle_enabled.
    + intros k e w w' -> _ Hl Hp Hs. by eapply cancelling_handle.
  - intros m' Hm' [k' Hk]. by apply (asked_told k'); [lia|].
Qed.
End Cancel.

(** C19: Cancelling a task is answered. Once [CancelTask] and the [WaitForTask]
    behind it are in the mailbox and no further task of that id is on its way,
    the caller of [cancel] eventually gets a final status of the task (or is
    told that it is not tracked), in every run in which the actor keeps
    handling messages, the runtime keeps driving the tasks, no task panics and
    the worker is not stopped. Work that never finishes by itself is included:
    the cancellation ends it. *)
Theorem cancel_is_answered config (r : Run wk_step) n id a pre mid post :
  run_at r 0 = spawn config →
  only_from wk_step r 0 benign → only_from wk_step r n (fun e => e ≠ EvSubmit id) →
  weakly_fair wk_step r handles → (∀ t, weakly_fair wk_step r (drives t)) →
  w_mailbox (run_at r n) = pre ++ CancelTask id :: mid ++ WaitForTask id a :: post →
  quiet id (mid ++ post) (run_at r n) →
  ∃ m response, n ≤ m ∧ (a, RStatus response) ∈ w_answers (run_at r m) ∧
    ∀ x, response = Some x → tsr_task_id x = id ∧ is_terminal (tsr_status x) = true.
Proof.
  intros H0 Hb Hs Hh Hd Hm Hq.
  assert (∀ m, 0 ≤ m → live_inv (run_at r m)) as Hl.
  { apply (run_inv wk_step r 0 benign); [done|apply live_step|]. rewrite H0. apply live_spawn. }
  destruct (cancelling_told id a r n Hh Hd) with (k := length pre) (m := n) as (m & Hnm & resp & Hin & Hr); try done.
  - intros m e Hm' He. split; [by eapply Hb; [lia|]|by eapply Hs].
  - intros m _. apply Hl. lia.
  - by exists pre, mid, post.
  - by exists m, resp.
Qed.

(** ** Behaviour that looks unintended *)

(** A running record nobody will ever complete. *)
Definition forgotten (id : TaskId) (w : World) : Prop :=
  (∃ t, bw_tasks (w_agent w) !! id = Some (mkTaskRecord t Running)) ∧
  (∀ c call, w_calls w !! c = Some call → call_task call ≠ id) ∧
  (∀ m, m ∈ w_mailbox w → (∀ t, m ≠ RegisterTask id t) ∧ (∀ s, m ≠ TaskCompleted id s)).

Lemma forgotten_step id e w w' : e ≠ EvSubmit id → forgotten id w → wk_step e w = Some w' → forgotten id w'.
Proof.
  intros He ((t & Ht) & Hc & Hm) Hs.
  assert (∀ c call, w_calls w' !! c = Some call → call_task call ≠ id) as Hc'.
  { intros c call H. destruct (step_calls_back e w w' c call Hs H) as [H'|call0 H' E _|_ -> _]; [by eapply Hc| |congruence].
    rewrite <-E. by eapply Hc. }
  destruct (decide (e = EvHandle)) as [->|Hne].
  - apply handle_step in Hs as (m & s & eff & mb & _ & Em & Eh & Ea & Eb & _). rewrite Em in Hm. split; [|split; [done|]].
    + exists t. rewrite Ea. destruct (Hm m ltac:(left)) as [Hr Hd].
      destruct (handle_running _ _ _ _ _ _ Eh Ht) as [?|[(t' & ->)|(st & ->)]]; [done|by destruct (Hr t')|by destruct (Hd st)].
    + rewrite Eb. intros x Hx. apply Hm. by right.
  - destruct (step_outside e w w' Hs Hne) as [ms Ea _ _ _ Em Hr Hd]. split; [by rewrite Ea; eauto|split; [done|]].
    rewrite Em. intros m [H|H]%elem_of_app; [by apply Hm|]. split; intros ? ->.
    + apply Hr in H as [H _]. by destruct (Hc _ _ H).
    + apply Hd in H as [c H]. by destruct (Hc _ _ H).
Qed.

Definition panic_history : list Event :=
  [EvSubmit "job"; EvAcquire 0; EvRegister 0; EvSpawn 0; EvHandle; EvPanic 0].

(** A task that panics is recorded as running for ever: no cleanup drops it
    and no wait for it is answered. *)
Lemma panicked_task_runs_forever es w :
  EvSubmit "job" ∉ es → after wk_step (panic_history ++ es) (spawn BackgroundWorkerConfig_default) = Some w →
  ∃ t, bw_tasks (w_agent w) !! "job" = Some (mkTaskRecord t Running).
Proof.
  intros Hni. destruct (after wk_step panic_history (spawn BackgroundWorkerConfig_default)) as [w0|] eqn:E; [|done].
  assert (forgotten "job" w0) as Hf.
  { vm_compute in E. injection E as <-. split; [by exists 0|]. split; [done|]. intros m H. by apply not_elem_of_nil in H. }
  rewrite after_app, E. cbn. intros H. eapply (after_inv _ (fun e => e ≠ EvSubmit "job") (forgotten "job")) in H as [? _];
    [done|intros ???; apply forgotten_step| |exact Hf].
  apply Forall_forall. by intros e He ->.
Qed.

(** Two tasks under one id: when the first reports, the record says completed
    while the second is still at work. *)
Lemma duplicate_id_misreported :
  ∃ w, after wk_step
         [EvSubmit "job"; EvAcquire 0; EvRegister 0; EvSpawn 0; EvSubmit "job"; EvAcquire 1; EvRegister 1; EvSpawn 1;
          EvPoll 0 WorkOk; EvReport 0; EvHandle; EvHandle; EvHandle] (spawn BackgroundWorkerConfig_default) = Some w ∧
       bw_tasks (w_agent w) !! "job" = Some (mkTaskRecord 1 Completed) ∧
       w_calls w !! 1 = Some (mkCall "job" Working).
Proof. eexists. split; [vm_compute; reflexivity|]. by split. Qed.

(** ** Witnesses *)

Definition witness_worker_config : BackgroundWorkerConfig := mkBackgroundWorkerConfig true 1 5 0.

Definition witness_events : list Event :=
  [EvSubmit "job"; EvSubmit "other"; EvAcquire 0; EvRegister 0; EvSpawn 0; EvCancel "job"; EvAsk (QWait "job");
   EvHandle; EvHandle; EvPoll 0 WorkPending; EvHandle; EvReport 0; EvHandle; EvExit 0].

Definition witness_worker_end : World :=
  default (spawn witness_worker_config) (after wk_step witness_events (spawn witness_worker_config)).

Definition witness_worker_run : Run wk_step :=
  finite_run wk_step witness_events (spawn witness_worker_config) witness_worker_end ltac:(vm_compute; reflexivity).

Lemma worker_concurrency_bounded_witness :
  ∃ w, after wk_step (take 5 witness_events) (spawn witness_worker_config) = Some w ∧ wk_step (EvAcquire 1) w = None ∧
       size (filter (fun p : CallId * Call => tracked p.2 = true) (w_calls w)) ≤ 1.
Proof.
  eexists. split; [vm_compute; reflexivity|]. split; [vm_compute; reflexivity|].
  match goal with |- context [w_calls ?w] =>
    destruct (worker_concurrency_bounded witness_worker_config w) as [H|H]; [|discriminate H|exact H];
    eapply (after_reachable wk_step (take 5 witness_events)); [constructor|vm_compute; reflexivity] end.
Defined.

Lemma worker_questions_accounted_witness :
  ∃ w, after wk_step (take 11 witness_events) (spawn witness_worker_config) = Some w ∧ parked (w_agent w) = [0] ∧
       queued w ++ parked (w_agent w) ++ answered w ≡ₚ seq 0 (w_next_ask w).
Proof.
  eexists. split; [vm_compute; reflexivity|]. split; [vm_compute; reflexivity|].
  match goal with |- queued ?w ++ _ ≡ₚ _ => apply (worker_questions_accounted witness_worker_config w) end.
  eapply (after_reachable wk_step (take 11 witness_events)); [constructor|vm_compute; reflexivity].
Defined.

Lemma witness_end_calls : w_calls witness_worker_end = {[1 := mkCall "other" Acquiring]}.
Proof. vm_compute. reflexivity. Qed.

Lemma witness_mid_calls :
  w_calls (run_at witness_worker_run 7) = <[0 := mkCall "job" Working]> {[1 := mkCall "other" Acquiring]}.
Proof. vm_compute. reflexivity. Qed.

Lemma cancel_is_answered_witness :
  ∃ m response, 7 ≤ m ∧ (0, RStatus response) ∈ w_answers (run_at witness_worker_run m).
Proof.
  destruct (cancel_is_answered witness_worker_config witness_worker_run 7 "job" 0 [RegisterTask "job" 0] [] [])
    as (m & resp & Hm & Hin & _).
  - vm_compute. reflexivity.
  - intros m e _ He. apply list_elem_of_lookup_2 in He. set_unfold in He. decompose [or] He; subst; done.
  - intros m e Hm He.
    do 14 (destruct m as [|m]; [try lia; cbn in He; congruence|]). done.
  - apply finite_run_fair. intros (e & w' & -> & H). vm_compute in H. discriminate H.
  - intros t. apply finite_run_fair. intros (e & w' & [->|[->|[work ->]]] & H); cbn [wk_step] in H; unfold at_stage in H;
      rewrite witness_end_calls in H; destruct (decide (t = 1)) as [->|Hne];
      rewrite ?lookup_singleton_eq, ?lookup_singleton_ne in H by done; discriminate H.
  - vm_compute. reflexivity.
  - split; [intros t; apply not_elem_of_nil|]. intros c call. rewrite witness_mid_calls.
    destruct (decide (c = 0)) as [->|H0]; [by rewrite lookup_insert_eq; intros [= <-]|].
    rewrite lookup_insert_ne by done. destruct (decide (c = 1)) as [->|H1].
    + by rewrite lookup_singleton_eq; intros [= <-].
    + by rewrite lookup_singleton_ne.
  - by exists m, resp.
Defined.
