(* ===== verification/Pool.v ===== *)
(** * Connection pools: dialling with retries and the pool agents

    The retry loop of [database.rs], [cache.rs], [events.rs], [turso.rs],
    [surrealdb_backend.rs] and [clickhouse_backend.rs], which is the same in
    all six, and the six pool agents of [agents/pool.rs], which differ in their
    name and in how the start hook dials. A single attempt (the driver's
    connect) and the runtime's text for a panicked task are parameters. Arithmetic is at its width: [u32] attempts and
    powers with the build's overflow behaviour, [Duration] with its own checked
    multiplication.

    An agent with its dialling task and its callers is an event system as in
    [Worker]; a handler, including the update of the shared storage, is one
    event, since the runtime finishes a mutating handler before the next
    message. *)

From S2P Require Import Prelude FrameworkError Runs.

Local Open Scope string_scope.
Local Open Scope Z_scope.
Local Open Scope list_scope.

(** ** Dialling *)

Record RetryConfig := mkRetryConfig {
  rc_max_retries : Z;         (* u32 *)
  rc_retry_delay_secs : Z;    (* u64 *)
}.

(** What became of dialling. *)
Inductive Outcome (P : Type) :=
| OConnected (pool : P)
| OFailed (error : Error)
| OPanicked.
Arguments OConnected {P} pool.
Arguments OFailed {P} error.
Arguments OPanicked {P}.

(** [2_u32.pow(k)]: beyond 31 it overflows, which panics in a build with
    overflow checks and wraps to 0 in one without. *)
Definition u32_pow2 (overflow_checks : bool) (k : Z) : option Z :=
  if k <? 32 then Some (2 ^ k) else if overflow_checks then None else Some 0.

(** [attempt += 1]. *)
Definition u32_succ (overflow_checks : bool) (x : Z) : option Z :=
  if x + 1 <? 2 ^ 32 then Some (x + 1) else if overflow_checks then None else Some 0.

(** [Duration * u32], for whole seconds; it panics on overflow in any build. *)
Definition duration_mul (secs multiplier : Z) : option Z :=
  if secs * multiplier <? 2 ^ 64 then Some (secs * multiplier) else None.

Section Retry.
Context {P : Type} (overflow_checks : bool) (config : RetryConfig) (try_create : nat → result P Error).

(** The wait after failure number [attempt]. *)
Definition backoff (attempt : Z) : option Z :=
  u32_pow2 overflow_checks (Z.max 0 (attempt - 1)) ≫= duration_mul (rc_retry_delay_secs config).

(** The loop, from try number [n] on: its outcome and the waits in between. *)
Fixpoint retry_loop (fuel n : nat) (attempt : Z) : option (Outcome P * list Z) :=
  match fuel with
  | O => None
  | S fuel =>
      match try_create n with
      | Ok pool => Some (OConnected pool, [])
      | Err e =>
          match u32_succ overflow_checks attempt with
          | None => Some (OPanicked, [])
          | Some attempt =>
              if rc_max_retries config <? attempt then Some (OFailed e, [])
              else match backoff attempt with
                   | None => Some (OPanicked, [])
                   | Some delay =>
                       (fun r : Outcome P * list Z => (r.1, delay :: r.2)) <$> retry_loop fuel (S n) attempt
                   end
          end
      end
  end.

(** [create_pool_with_retries] of [database.rs]. *)
Definition create_pool_with_retries (fuel : nat) : option (Outcome P * list Z) := retry_loop fuel 0 0.
End Retry.

(** ** Agents *)

Inductive HealthStatus := Healthy | Degraded | Unhealthy | Connecting.

#[export] Instance HealthStatus_eq_dec : EqDecision HealthStatus.
Proof. solve_decision. Defined.

Record ComponentHealth := mkComponentHealth {
  ch_name : string;
  ch_status : HealthStatus;
  ch_message : string;
}.

Definition pool_health (name : string) (connected connecting : bool) (last_error : option string) : ComponentHealth :=
  if connected then mkComponentHealth name Healthy "connected"
  else if connecting then mkComponentHealth name Connecting "connecting"
  else mkComponentHealth name Unhealthy (default "not connected" last_error).

(** How the start hook dials: in a task of its own that is raced against the
    shutdown token, or in a task that the hook joins. *)
Inductive Dial := Detached | Joined.

(** What distinguishes the six agents. *)
Record PoolAgent := mkPoolAgent {
  pa_name : string;
  pa_dial : Dial;
}.

Definition DatabasePoolAgent : PoolAgent := mkPoolAgent "database" Detached.
Definition RedisPoolAgent : PoolAgent := mkPoolAgent "cache" Joined.
Definition NatsPoolAgent : PoolAgent := mkPoolAgent "events" Joined.
Definition TursoDbAgent : PoolAgent := mkPoolAgent "turso" Detached.
Definition SurrealDbAgent : PoolAgent := mkPoolAgent "surrealdb" Detached.
Definition ClickHousePoolAgent : PoolAgent := mkPoolAgent "clickhouse" Joined.

Abbreviation Waiter := nat.

Section Agent.
Context {P : Type} (agent : PoolAgent) (join_error : string).

Record PoolState := mkPoolState {
  ps_pool : option P;
  ps_connecting : bool;
  ps_shared : option (option P);     (* contents of the shared storage, if one was given *)
  ps_last_error : option string;
  ps_ready_waiters : list Waiter;
}.

Inductive PoolMsg :=
| PoolConnected (pool : P)
| PoolConnectionFailed (error : string)
| WaitForPoolReady (reply : Waiter)
| GetPoolHealth (reply : Waiter).

(** What the future returned by a handler still does, step by step. *)
Inductive Effect :=
| EffStore (pool : P)                                (* *shared.write().await = Some(pool) *)
| EffAnswer (waiter : Waiter) (health : ComponentHealth).

Implicit Types s : PoolState.

Definition on_connected (pool : P) s : PoolState * list Effect :=
  let health := pool_health (pa_name agent) true false None in
  (mkPoolState (Some pool) false (ps_shared s) None [],
   match ps_shared s with Some _ => [EffStore pool] | None => [] end ++
   map (fun waiter => EffAnswer waiter health) (ps_ready_waiters s)).

Definition on_connection_failed (error : string) s : PoolState * list Effect :=
  let health := pool_health (pa_name agent) false false (Some error) in
  (mkPoolState (ps_pool s) false (ps_shared s) (Some error) [],
   map (fun waiter => EffAnswer waiter health) (ps_ready_waiters s)).

Definition is_connected s : bool := match ps_pool s with Some _ => true | None => false end.

Definition on_wait_for_ready (reply : Waiter) s : PoolState * list Effect :=
  if ps_connecting s
  then (mkPoolState (ps_pool s) (ps_connecting s) (ps_shared s) (ps_last_error s) (ps_ready_waiters s ++ [reply]), [])
  else (s, [EffAnswer reply (pool_health (pa_name agent) (is_connected s) false (ps_last_error s))]).

Definition on_get_health (reply : Waiter) s : PoolState * list Effect :=
  (s, [EffAnswer reply (pool_health (pa_name agent) (is_connected s) (ps_connecting s) (ps_last_error s))]).

Definition pool_handle (m : PoolMsg) s : PoolState * list Effect :=
  match m with
  | PoolConnected pool => on_connected pool s
  | PoolConnectionFailed error => on_connection_failed error s
  | WaitForPoolReady reply => on_wait_for_ready reply s
  | GetPoolHealth reply => on_get_health reply s
  end.

(** [mutate_on]: the agent takes no other message before the future has ended;
    the future of an [act_on] handler runs beside it. *)
Definition is_mutation (m : PoolMsg) : bool := match m with GetPoolHealth _ => false | _ => true end.

(** ** An agent at work *)

Record PoolWorld := mkPoolWorld {
  pw_state : PoolState;
  pw_mailbox : list PoolMsg;
  pw_running : list Effect;           (* what is left of the future the agent waits for *)
  pw_beside : list Effect;            (* answers of [act_on] handlers under way *)
  pw_dialling : bool;                 (* the dialling task has not ended *)
  pw_cancelled : bool;                (* the shutdown token *)
  pw_serving : bool;
  pw_next_waiter : Waiter;
  pw_answers : list (Waiter * ComponentHealth);
}.

(** [spawn] up to the first message. *)
Definition pool_spawn (shared : bool) : PoolWorld :=
  mkPoolWorld (mkPoolState None true (if shared then Some None else None) None []) [] [] [] true false true 0 [].

(** What the dialling task sends when it ends with [outcome]; the [select!] of
    a detached one looks at the token first. *)
Definition dial_message (cancelled : bool) (outcome : Outcome P) : option PoolMsg :=
  match pa_dial agent with
  | Detached =>
      if cancelled then Some (PoolConnectionFailed "Connection cancelled during shutdown")
      else match outcome with
           | OConnected pool => Some (PoolConnected pool)
           | OFailed e => Some (PoolConnectionFailed (error_to_string e))
           | OPanicked => None
           end
  | Joined =>
      Some match outcome with
           | OConnected pool => PoolConnected pool
           | OFailed e => PoolConnectionFailed (error_to_string e)
           | OPanicked => PoolConnectionFailed ("Connection task panicked: " +:+ join_error)
           end
  end.

Inductive PoolEvent :=
| PvDialled (outcome : Outcome P)
| PvWait
| PvSample
| PvHandle
| PvRun
| PvBeside (i : nat)
| PvStop.

Implicit Types w : PoolWorld.

Definition pool_send (m : PoolMsg) w : PoolWorld :=
  mkPoolWorld (pw_state w) (pw_mailbox w ++ [m]) (pw_running w) (pw_beside w) (pw_dialling w) (pw_cancelled w) (pw_serving w)
    (pw_next_waiter w) (pw_answers w).

Definition pool_ask (m : Waiter → PoolMsg) w : PoolWorld :=
  mkPoolWorld (pw_state w) (pw_mailbox w ++ [m (pw_next_waiter w)]) (pw_running w) (pw_beside w) (pw_dialling w)
    (pw_cancelled w) (pw_serving w) (S (pw_next_waiter w)) (pw_answers w).

Definition pool_dialled (outcome : Outcome P) w : PoolWorld :=
  let w' := mkPoolWorld (pw_state w) (pw_mailbox w) (pw_running w) (pw_beside w) false (pw_cancelled w) (pw_serving w)
              (pw_next_waiter w) (pw_answers w) in
  match dial_message (pw_cancelled w) outcome with
  | Some m => pool_send m w'
  | None => w'
  end.

Definition pool_handle_next w : option PoolWorld :=
  match pw_serving w, pw_running w, pw_mailbox w with
  | true, [], m :: mailbox =>
      let '(s, effects) := pool_handle m (pw_state w) in
      Some (if is_mutation m
            then mkPoolWorld s mailbox effects (pw_beside w) (pw_dialling w) (pw_cancelled w) true (pw_next_waiter w) (pw_answers w)
            else mkPoolWorld s mailbox [] (pw_beside w ++ effects) (pw_dialling w) (pw_cancelled w) true (pw_next_waiter w) (pw_answers w))
  | _, _, _ => None
  end.

Definition pool_perform (e : Effect) w : PoolWorld :=
  let s := pw_state w in
  match e with
  | EffStore pool =>
      mkPoolWorld (mkPoolState (ps_pool s) (ps_connecting s) ((fun _ => Some pool) <$> ps_shared s) (ps_last_error s) (ps_ready_waiters s))
        (pw_mailbox w) (pw_running w) (pw_beside w) (pw_dialling w) (pw_cancelled w) (pw_serving w) (pw_next_waiter w) (pw_answers w)
  | EffAnswer waiter health =>
      mkPoolWorld s (pw_mailbox w) (pw_running w) (pw_beside w) (pw_dialling w) (pw_cancelled w) (pw_serving w) (pw_next_waiter w)
        (pw_answers w ++ [(waiter, health)])
  end.

(** The next step of the future that the agent waits for, and one of those
    beside it. *)
Definition pool_run_next w : option PoolWorld :=
  match pw_running w with
  | e :: effects => Some (pool_perform e
      (mkPoolWorld (pw_state w) (pw_mailbox w) effects (pw_beside w) (pw_dialling w) (pw_cancelled w) (pw_serving w)
         (pw_next_waiter w) (pw_answers w)))
  | [] => None
  end.

Definition pool_run_beside (i : nat) w : option PoolWorld :=
  match pw_beside w !! i with
  | Some e => Some (pool_perform e
      (mkPoolWorld (pw_state w) (pw_mailbox w) (pw_running w) (delete i (pw_beside w)) (pw_dialling w) (pw_cancelled w) (pw_serving w)
         (pw_next_waiter w) (pw_answers w)))
  | None => None
  end.

(** [before_stop]. *)
Definition pool_stop w : PoolWorld :=
  mkPoolWorld (pw_state w) (pw_mailbox w) (pw_running w) (pw_beside w) (pw_dialling w)
    (match pa_dial agent with Detached => true | Joined => pw_cancelled w end) false (pw_next_waiter w) (pw_answers w).

Definition pool_step (e : PoolEvent) w : option PoolWorld :=
  match e with
  | PvDialled outcome => if pw_dialling w then Some (pool_dialled outcome w) else None
  | PvWait => Some (pool_ask WaitForPoolReady w)
  | PvSample => Some (pool_ask GetPoolHealth w)
  | PvHandle => pool_handle_next w
  | PvRun => pool_run_next w
  | PvBeside i => pool_run_beside i w
  | PvStop => if pw_serving w then Some (pool_stop w) else None
  end.
End Agent.
Arguments PoolState : clear implicits.
Arguments PoolMsg : clear implicits.
Arguments Effect : clear implicits.
Arguments PoolWorld : clear implicits.
Arguments PoolEvent : clear implicits.
