(* ===== verification/PoolSafety.v ===== *)
(** * Connection pools: theorems

    On [Pool]: the retry loop returns with the documented waits, and waiting
    for a pool is a barrier that is always released. *)

From S2P Require Import Prelude FrameworkError Runs Pool.

Local Open Scope string_scope.
Local Open Scope list_scope.
Local Open Scope Z_scope.

(** ** The retry loop *)

Section Retry.
Context {P : Type} (overflow_checks : bool) (config : RetryConfig) (try_create : nat → result P Error).

Definition waits (from : Z) (n : nat) : list Z :=
  map (fun i => rc_retry_delay_secs config * 2 ^ (from + Z.of_nat i)) (seq 0 n).

Lemma waits_S from n : waits from (S n) = rc_retry_delay_secs config * 2 ^ from :: waits (from + 1) n.
Proof.
  unfold waits. cbn [seq map]. f_equal; [by rewrite Z.add_0_r|]. rewrite <-seq_shift, map_map. apply map_ext.
  intros i. do 2 f_equal. lia.
Qed.

(** The waits stay within [u32] and [Duration]. *)
Definition waits_fit : Prop :=
  0 ≤ rc_retry_delay_secs config ∧ 0 ≤ rc_max_retries config ≤ 32 ∧
  (rc_max_retries config = 0 ∨ rc_retry_delay_secs config * 2 ^ (rc_max_retries config - 1) < 2 ^ 64).

Lemma backoff_fits attempt :
  waits_fit → 1 ≤ attempt ≤ rc_max_retries config →
  backoff overflow_checks config attempt = Some (rc_retry_delay_secs config * 2 ^ (attempt - 1)).
Proof.
  intros (Hd & Hm & Hf) Ha. unfold backoff, u32_pow2, duration_mul. rewrite Z.max_r by lia.
  rewrite (proj2 (Z.ltb_lt (attempt - 1) 32)) by lia. cbn [mbind option_bind].
  assert (rc_retry_delay_secs config * 2 ^ (attempt - 1) < 2 ^ 64) as Hlt; [|by rewrite (proj2 (Z.ltb_lt _ _) Hlt)].
  destruct Hf as [Hz|Hf]; [lia|]. eapply Z.le_lt_trans, Hf. apply Z.mul_le_mono_nonneg_l; [done|].
  apply Z.pow_le_mono_r; lia.
Qed.

Lemma retry_loop_correct k : ∀ fuel n attempt,
  waits_fit → 0 ≤ attempt → attempt + Z.of_nat k = rc_max_retries config → (k < fuel)%nat →
  ∃ o waited, retry_loop overflow_checks config try_create fuel n attempt = Some (o, waits attempt waited) ∧
    match o with
    | OConnected pool => (waited ≤ k)%nat ∧ try_create (n + waited)%nat = Ok pool ∧
                         ∀ i, (i < waited)%nat → ∃ e, try_create (n + i)%nat = Err e
    | OFailed e => waited = k ∧ try_create (n + k)%nat = Err e ∧ ∀ i, (i < k)%nat → ∃ e, try_create (n + i)%nat = Err e
    | OPanicked => False
    end.
Proof.
  induction k as [|k IH]; intros fuel n attempt Hfit Ha Hk Hfuel; (destruct fuel as [|fuel]; [lia|]); cbn [retry_loop].
  all: destruct (try_create n) as [pool|e] eqn:Et.
  1, 3: exists (OConnected pool), 0%nat; rewrite Nat.add_0_r; split; [done|split; [lia|split; [done|lia]]].
  all: pose proof Hfit as (_ & Hm & _); unfold u32_succ;
    rewrite (proj2 (Z.ltb_lt (attempt + 1) (2 ^ 32))) by lia.
  - rewrite (proj2 (Z.ltb_lt _ _)) by lia. exists (OFailed e), 0%nat. rewrite Nat.add_0_r.
    split; [done|]. split; [done|]. split; [done|lia].
  - rewrite (proj2 (Z.ltb_ge _ _)) by lia. rewrite backoff_fits by (done || lia).
    destruct (IH fuel (S n) (attempt + 1)) as (o & waited & -> & Ho); [done|lia..|].
    exists o, (S waited). rewrite waits_S. replace (attempt + 1 - 1) with attempt by lia. split; [done|].
    assert (∀ j, (∀ i, (i < j)%nat → ∃ e, try_create (S n + i)%nat = Err e) →
                 ∀ i, (i < S j)%nat → ∃ e, try_create (n + i)%nat = Err e) as Hshift.
    { intros j Hj [|i] Hi; [rewrite Nat.add_0_r; by exists e|]. rewrite <-Nat.add_succ_comm. apply Hj. lia. }
    destruct o; try done; rewrite <-Nat.add_succ_comm.
    + destruct Ho as (? & ? & ?). split; [lia|]. split; [done|]. by apply Hshift.
    + destruct Ho as (-> & ? & ?). split; [done|]. split; [done|]. by apply Hshift.
Qed.

(** Dialling ends, after at most [max_retries] waits that double from
    [retry_delay_secs]: it returns the pool of the first successful attempt, or
    the error of attempt [max_retries + 1] when all failed, and never panics, as
    long as [max_retries] is at most 32 and the longest wait fits a [Duration].
    [max_retries + 1] rounds of the loop are enough. *)
Theorem create_pool_retries :
  waits_fit →
  ∃ o waited, create_pool_with_retries overflow_checks config try_create (S (Z.to_nat (rc_max_retries config))) =
                Some (o, waits 0 waited) ∧
    match o with
    | OConnected pool => Z.of_nat waited ≤ rc_max_retries config ∧ try_create waited = Ok pool ∧
                         ∀ i, (i < waited)%nat → ∃ e, try_create i = Err e
    | OFailed e => Z.of_nat waited = rc_max_retries config ∧ try_create waited = Err e ∧
                   ∀ i, (i < waited)%nat → ∃ e, try_create i = Err e
    | OPanicked => False
    end.
Proof.
  intros Hfit. pose proof Hfit as (_ & Hm & _).
  destruct (retry_loop_correct (Z.to_nat (rc_max_retries config)) (S (Z.to_nat (rc_max_retries config))) 0 0)
    as (o & waited & E & Ho); [done|lia..|].
  exists o, waited. split; [exact E|]. destruct o; [|destruct Ho as (-> & ? & ?)|done].
  - destruct Ho as (? & ? & ?). split; [lia|done].
  - split; [lia|done].
Qed.
End Retry.

(** With more retries the power overflows at the 33rd failure: a panic with
    overflow checks, no wait at all without. *)
Lemma retry_power_overflows {P} :
  let config := mkRetryConfig 40 2 in
  let try_create (_ : nat) : result P Error := Err (Error_Internal "down") in
  (fst <$> create_pool_with_retries true config try_create 41) = Some OPanicked ∧
  ∃ ds, snd <$> create_pool_with_retries false config try_create 41 = Some (ds ++ replicate 8 0) ∧ last ds = Some (2 ^ 32).
Proof. split; [vm_compute; reflexivity|]. eexists (waits (mkRetryConfig 40 2) 0 32). split; vm_compute; reflexivity. Qed.

(** ** Waiting for a pool *)

Section Ready.
Local Open Scope nat_scope.
Context {P : Type} (agent : PoolAgent) (join_error : string).
Abbreviation step := (pool_step (P := P) agent join_error).
Implicit Types w : PoolWorld P.

(** The agent is not stopped, and a detached dialling task does not panic. *)
Definition calm (e : PoolEvent P) : Prop :=
  match e with PvStop => False | PvDialled OPanicked => pa_dial agent = Joined | _ => True end.

Definition is_result (m : PoolMsg P) : bool :=
  match m with PoolConnected _ | PoolConnectionFailed _ => true | _ => false end.

(** The shared storage, if there is one, holds a pool; or the next step of the
    running future is to put one there. *)
Definition shared_set w : Prop := ps_shared (pw_state w) ≠ Some None.
Definition stored w : Prop := shared_set w ∨ ∃ p effects, pw_running w = EffStore p :: effects.

Record pool_inv w : Prop := {
  pi_serving : pw_serving w = true;
  pi_waiters : ps_ready_waiters (pw_state w) ≠ [] → ps_connecting (pw_state w) = true;
  pi_pending : ps_connecting (pw_state w) = true →
    pw_dialling w = true ∨ ∃ m, m ∈ pw_mailbox w ∧ is_result m = true;
  pi_shared : ps_pool (pw_state w) ≠ None → stored w;
  pi_running a h : EffAnswer a h ∈ pw_running w → ch_status h ≠ Connecting ∧ (ch_status h = Healthy → stored w);
  pi_beside x : x ∈ pw_beside w → ∃ a h, x = EffAnswer a h ∧ (ch_status h = Healthy → shared_set w);
  pi_answers a h : (a, h) ∈ pw_answers w → ch_status h = Healthy → shared_set w;
}.

#[local] Instance event_is_run (e : PoolEvent P) : Decision (e = PvRun).
Proof. destruct e; (by left) || (by right). Defined.

(** An event other than handling a message: what it leaves. *)
Record aside (e : PoolEvent P) w w' : Prop := {
  as_waiters : ps_ready_waiters (pw_state w') = ps_ready_waiters (pw_state w);
  as_connecting : ps_connecting (pw_state w') = ps_connecting (pw_state w);
  as_pool : ps_pool (pw_state w') = ps_pool (pw_state w);
  as_serving : pw_serving w' = pw_serving w;
  as_mailbox : ∃ ms, pw_mailbox w' = pw_mailbox w ++ ms ∧
    (pw_dialling w' = pw_dialling w ∨ ∃ m, m ∈ ms ∧ is_result m = true);
  as_shared : shared_set w → shared_set w';
  as_running : if decide (e = PvRun) then ∃ x, pw_running w = x :: pw_running w' else pw_running w' = pw_running w;
  as_stored : stored w → stored w';
  as_beside : pw_beside w' ⊆ pw_beside w;
  as_answers a h : (a, h) ∈ pw_answers w' → (a, h) ∈ pw_answers w ∨ EffAnswer a h ∈ pw_beside w ∨
    (EffAnswer a h ∈ pw_running w ∧ (stored w → shared_set w));
}.

Lemma is_handle (e : PoolEvent P) : e = PvHandle ∨ e ≠ PvHandle.
Proof. destruct e; first [by left|by right]. Qed.

Lemma aside_dialled w o : pw_dialling w = true → calm (PvDialled o) → aside (PvDialled o) w (pool_dialled agent join_error o w).
Proof.
  intros Hd Hc. unfold pool_dialled.
  assert (∃ m, dial_message agent join_error (pw_cancelled w) o = Some m ∧ is_result m = true) as (m & -> & Hm).
  { unfold dial_message. cbn in Hc. destruct o; repeat case_match; try congruence; by eexists. }
  split; cbn; auto; [|by rewrite decide_False]. exists [m]. split; [done|]. right. exists m. split; [left|done].
Qed.

Lemma aside_ask e f w : e ≠ PvRun → aside e w (pool_ask f w).
Proof.
  intros He. split; cbn; auto; [|by rewrite decide_False]. eexists. split; [done|]. by left.
Qed.

Lemma aside_run w w' : pool_run_next w = Some w' → aside PvRun w w'.
Proof.
  unfold pool_run_next. destruct (pw_running w) as [|x effects] eqn:Er; [done|]. intros [= <-].
  assert (∀ v : PoolWorld P, pw_mailbox v = pw_mailbox w → pw_dialling v = pw_dialling w →
    ∃ ms, pw_mailbox v = pw_mailbox w ++ ms ∧ (pw_dialling v = pw_dialling w ∨ ∃ m, m ∈ ms ∧ is_result m = true)) as Hmb.
  { intros v E1 E2. exists []. rewrite app_nil_r. auto. }
  destruct x as [p|a h]; cbn; split; cbn; auto; rewrite ?Er; try (by rewrite decide_True by done; eexists).
  - unfold shared_set. cbn. by destruct (ps_shared (pw_state w)).
  - intros _. left. unfold shared_set. cbn. by destruct (ps_shared (pw_state w)).
  - unfold stored, shared_set. cbn. rewrite Er. intros [?|(? & ? & ?)]; [by left|done].
  - intros a0 h0 [?|[= -> ->]%list_elem_of_singleton]%elem_of_app; [by left|right; right]. split; [left|].
    unfold stored. rewrite Er. by intros [?|(? & ? & ?)].
Qed.

Lemma aside_beside i w w' : pool_inv w → pool_run_beside i w = Some w' → aside (PvBeside i) w w'.
Proof.
  intros Hi. unfold pool_run_beside. destruct (pw_beside w !! i) as [x|] eqn:Ex; [|done]. intros [= <-].
  assert (Hin := list_elem_of_lookup_2 _ _ _ Ex). destruct (pi_beside w Hi x Hin) as (a & h & -> & _).
  split; cbn; auto; try by rewrite decide_False.
  - exists []. rewrite app_nil_r. auto.
  - intros y Hy. rewrite list_elem_of_In in *. rewrite <- list_elem_of_In in Hy. apply list_elem_of_In.
    rewrite <- (take_drop_middle _ _ _ Ex). rewrite delete_take_drop in Hy. set_solver.
  - intros a0 h0 [?|[= -> ->]%list_elem_of_singleton]%elem_of_app; [by left|right; by left].
Qed.

Lemma pool_aside e w w' : step e w = Some w' → pool_inv w → calm e → e ≠ PvHandle → aside e w w'.
Proof.
  intros Hs Hi Hc He. destruct e as [o| | | | |i|]; cbn in Hs; try done.
  - destruct (pw_dialling w) eqn:Ed; [|done]. injection Hs as <-. by apply aside_dialled.
  - injection Hs as <-. by apply aside_ask.
  - injection Hs as <-. by apply aside_ask.
  - by apply aside_run.
  - by apply aside_beside.
Qed.

Lemma pool_handle_step w w' :
  pool_handle_next agent w = Some w' → ∃ m mb s effects,
    pw_mailbox w = m :: mb ∧ pw_running w = [] ∧ pool_handle agent m (pw_state w) = (s, effects) ∧
    pw_state w' = s ∧ pw_mailbox w' = mb ∧ pw_answers w' = pw_answers w ∧
    pw_serving w' = true ∧ pw_dialling w' = pw_dialling w ∧
    pw_running w' = (if is_mutation m then effects else []) ∧
    pw_beside w' = (if is_mutation m then pw_beside w else pw_beside w ++ effects).
Proof.
  unfold pool_handle_next. destruct (pw_serving w); [|done]. destruct (pw_running w); [|done].
  destruct (pw_mailbox w) as [|m mb]; [done|].
  destruct (pool_handle agent m (pw_state w)) as [s effects] eqn:E. intros [= <-]. exists m, mb, s, effects.
  by destruct (is_mutation m).
Qed.

Lemma stored_idle w : pw_running w = [] → stored w → shared_set w.
Proof. unfold stored. intros ->. by intros [?|(? & ? & ?)]. Qed.

Lemma healthy_means (name : string) connected connecting last_error :
  ch_status (pool_health name connected connecting last_error) = Healthy → connected = true.
Proof. unfold pool_health. by destruct connected, connecting. Qed.

(** Whatever is handled, a future that announces a pool puts it in the shared
    storage first. *)
Lemma handle_stored w w' :
  pool_inv w → pool_handle_next agent w = Some w' →
  (shared_set w → shared_set w') ∧ (ps_pool (pw_state w') ≠ None → stored w') ∧
  ∀ a h, EffAnswer a h ∈ pw_running w' → ch_status h ≠ Connecting ∧ (ch_status h = Healthy → stored w').
Proof.
  intros Hi (m' & mb & s & effects & Em & Er & Eh & Ea & Eb & _ & _ & _ & Er' & _)%pool_handle_step.
  unfold shared_set, stored, shared_set. rewrite Ea, Er'.
  assert (∀ name e, ch_status (pool_health name false false e) ≠ Connecting ∧
    (ch_status (pool_health name false false e) = Healthy → False)) as Hdown by done.
  assert (Hsh := pi_shared w Hi). destruct m' as [p|err|b|b]; cbn in Eh |- *.
  - injection Eh as <- <-. cbn. split; [done|].
    assert (ps_shared (pw_state w) ≠ Some None ∨ ∃ p0 effects, match ps_shared (pw_state w) with
        | Some _ => [EffStore p] | None => [] end ++ map (fun waiter => EffAnswer waiter
          (pool_health (pa_name agent) true false None)) (ps_ready_waiters (pw_state w)) = EffStore p0 :: effects) as Hst.
    { destruct (ps_shared (pw_state w)); [right; by eexists _, _|by left]. }
    split; [done|]. intros a h Hin. apply elem_of_app in Hin as [Hin|(x & [= -> ->] & _)%list_elem_of_fmap]; [|done].
    destruct (ps_shared (pw_state w)); [by apply list_elem_of_singleton in Hin|by apply not_elem_of_nil in Hin].
  - injection Eh as <- <-. cbn. split; [done|]. split; [intros Hne; left; by eapply stored_idle, Hsh|].
    intros a h (x & [= -> ->] & _)%list_elem_of_fmap. destruct (Hdown (pa_name agent) (Some err)). naive_solver.
  - unfold on_wait_for_ready in Eh. destruct (ps_connecting (pw_state w)); injection Eh as <- <-; cbn.
    + split; [done|]. split; [intros Hne; left; by eapply stored_idle, Hsh|]. by intros a h ?%not_elem_of_nil.
    + split; [done|]. split; [intros Hne; left; by eapply stored_idle, Hsh|].
      intros a h [= -> ->]%list_elem_of_singleton. unfold is_connected. destruct (ps_pool (pw_state w)); [|done].
      split; [done|]. intros _. left. by eapply stored_idle, Hsh.
  - injection Eh as <- <-. split; [done|]. split; [intros Hne; left; by eapply stored_idle, Hsh|].
    by intros a h ?%not_elem_of_nil.
Qed.

Lemma pool_inv_handle w w' : pool_inv w → pool_handle_next agent w = Some w' → pool_inv w'.
Proof.
  intros Hi Hs. pose proof (pool_handle_step w w' Hs) as (m & mb & s & effects & Em & Er & Eh & Ea & Eb & Ew & Es & Ed & _ & Ebs).
  destruct (handle_stored w w' Hi Hs) as (Hsh & Hpool & Hrun). pose proof Hi as [_ Hw Hp Hst _ Hbs Hans].
  rewrite Em in Hp. split; [done|rewrite ?Ea, ?Eb, ?Ed..|exact Hpool|exact Hrun|rewrite Ebs|rewrite Ew; eauto].
  1-2: destruct m as [p|err|b|b]; cbn in Eh; unfold on_wait_for_ready in Eh;
    try (destruct (ps_connecting (pw_state w)) eqn:Ec); injection Eh as <- <-; cbn; try done.
  all: try (intros Hc; destruct (Hp ltac:(congruence)) as [?|(m & [->|?]%elem_of_cons & Hm)]; [by left|done|right; by exists m]).
  - intros Hne. apply Hw in Hne. congruence.
  - intros Hne. apply Hw in Hne. congruence.
  - assert (∀ x, x ∈ pw_beside w → ∃ a h, x = EffAnswer a h ∧ (ch_status h = Healthy → shared_set w')) as Hold
      by (intros x (a & h & -> & Hx)%Hbs; exists a, h; split; [done|]; intros ?; by apply Hsh, Hx).
    destruct m as [p|err|b|b]; cbn in *; auto. injection Eh as <- <-.
    intros x [?| ->%list_elem_of_singleton]%elem_of_app; [auto|]. eexists _, _. split; [done|]. intros Hh%healthy_means.
    apply Hsh. eapply stored_idle, Hst; [done|]. unfold is_connected in Hh. by destruct (ps_pool (pw_state w)).
Qed.

Lemma pool_inv_step e w w' : calm e → pool_inv w → step e w = Some w' → pool_inv w'.
Proof.
  intros Hc Hi Hs. destruct (is_handle e) as [->|He]; [by eapply pool_inv_handle|].
  destruct (pool_aside e w w' Hs Hi Hc He) as [Aw Ac Ap As (ms & Em & Hd) Ash Ar Ast Ab Aan].
  destruct Hi as [Hsv Hw Hp Hsh Hr Hb Han]. split; rewrite ?Aw, ?Ac, ?Ap; try done; [congruence|..].
  - intros Hcon. destruct (Hp Hcon) as [Hdl|(m & Hin & Hm)].
    + destruct Hd as [->|(m & Hin & Hm)]; [by left|]. right. exists m. rewrite Em. split; [apply elem_of_app; by right|done].
    + right. exists m. rewrite Em. split; [apply elem_of_app; by left|done].
  - auto.
  - intros a h Hin. assert (EffAnswer a h ∈ pw_running w) as Hin'.
    { destruct (decide (e = PvRun)); [|congruence]. destruct Ar as [x ->]. by right. }
    destruct (Hr a h Hin') as [? Hx]. split; [done|]. intros. apply Ast. auto.
  - intros x (a & h & -> & Hx)%Ab%Hb. exists a, h. split; [done|]. intros ?. by apply Ash, Hx.
  - intros a h [Hin|[Hin|[Hin Hx]]]%Aan Hh; apply Ash.
    + by eapply Han.
    + destruct (Hb _ Hin) as (? & ? & [= -> ->] & Hx). auto.
    + apply Hx. by eapply Hr.
Qed.

Lemma pool_inv_spawn shared : pool_inv (pool_spawn shared).
Proof.
  split; cbn; try done; [intros _; by left|..].
  - by intros a h ?%not_elem_of_nil.
  - by intros x ?%not_elem_of_nil.
  - by intros a h ?%not_elem_of_nil.
Qed.

Context (a : Waiter).

(** The caller has its answer, which is final. *)
Definition released w : Prop := ∃ h, (a, h) ∈ pw_answers w ∧ ch_status h ≠ Connecting.

Definition waits_in w : Prop := a ∈ ps_ready_waiters (pw_state w).
Definition answering (j : nat) w : Prop := ∃ h, pw_running w !! j = Some (EffAnswer a h).
Definition answered w : Prop := ∃ j, answering j w.

Lemma answering_elem w h : EffAnswer a h ∈ pw_running w → answered w.
Proof. intros [j Hj]%list_elem_of_lookup. by exists j, h. Qed.

(** Handling a message while the caller is parked. *)
Lemma parked_handle m mb w w' :
  pool_inv w → waits_in w → pw_mailbox w = m :: mb → pool_handle_next agent w = Some w' →
  answered w' ∨ (waits_in w' ∧ is_result m = false).
Proof.
  intros Hi Hw Em (m' & mb' & s & effects & Em' & _ & Eh & Ea & _ & _ & _ & _ & Er & _)%pool_handle_step.
  rewrite Em in Em'. injection Em' as <- <-. unfold waits_in in *. rewrite Ea.
  assert (ps_connecting (pw_state w) = true) as Hc.
  { apply (pi_waiters w Hi). intros E. rewrite E in Hw. by apply not_elem_of_nil in Hw. }
  destruct m as [p|err|b|b]; cbn in Eh; unfold on_wait_for_ready in Eh; rewrite ?Hc in Eh; injection Eh as <- <-.
  - left. eapply answering_elem. rewrite Er. apply elem_of_app. right. apply list_elem_of_fmap. by exists a.
  - left. eapply answering_elem. rewrite Er. apply list_elem_of_fmap. by exists a.
  - right. split; [|done]. cbn. apply elem_of_app. by left.
  - by right.
Qed.

Definition result_at (k : nat) w : Prop :=
  waits_in w ∧ ∃ m, pw_mailbox w !! k = Some m ∧ is_result m = true.
Definition wait_at (k : nat) w : Prop := pw_mailbox w !! k = Some (WaitForPoolReady a).
Definition met w : Prop := answered w ∨ waits_in w.
Definition dialled w : Prop := answered w ∨ ∃ k, result_at k w.

Definition pool_handles (e : PoolEvent P) : Prop := e = PvHandle.
Definition pool_runs (e : PoolEvent P) : Prop := e = PvRun.
Definition pool_dials (e : PoolEvent P) : Prop := ∃ outcome, e = PvDialled outcome.
Definition busy w : nat := length (pw_running w).

Lemma pool_handle_enabled w k m : pool_inv w → pw_mailbox w !! k = Some m → busy w = 0 → enabled step pool_handles w.
Proof.
  intros Hi Hk Hb. exists PvHandle. cbn. unfold pool_handle_next. rewrite (pi_serving w Hi).
  apply nil_length_inv in Hb as ->.
  destruct (pw_mailbox w) as [|x mb]; [done|]. destruct (pool_handle agent x (pw_state w)). by eexists.
Qed.

Lemma pool_run_enabled w : busy w ≠ 0 → enabled step pool_runs w.
Proof. intros Hb. exists PvRun. cbn. unfold pool_run_next, busy in *. destruct (pw_running w); [done|by eexists]. Qed.

Lemma result_handle k w w' :
  pool_inv w → result_at k w → pool_handle_next agent w = Some w' → nearer result_at answered k w'.
Proof.
  intros Hi [Hw (m & Hk & Hm)] Hs. pose proof (pool_handle_step w w' Hs) as (x & mb & s & effects & Em & _ & _ & _ & Eb & _).
  destruct (parked_handle x mb w w' Hi Hw Em Hs) as [?|[Hw' Hx]]; [by left|]. rewrite Em in Hk. right.
  destruct k as [|k]; cbn in Hk; [congruence|]. split; [done|]. exists m. by rewrite Eb.
Qed.

Lemma wait_handle k w w' :
  pool_inv w → wait_at k w → pool_handle_next agent w = Some w' → nearer wait_at met k w'.
Proof.
  intros Hi Hk Hs. pose proof (pool_handle_step w w' Hs) as (x & mb & s & effects & Em & _ & Eh & Ea & Eb & _ & _ & _ & Er & _).
  unfold wait_at in *. rewrite Em in Hk. destruct k as [|k]; cbn in Hk; [|right; by rewrite Eb].
  injection Hk as ->. cbn in Eh. unfold on_wait_for_ready in Eh. left.
  destruct (ps_connecting (pw_state w)); injection Eh as <- <-.
  - right. unfold waits_in. rewrite Ea. cbn. apply elem_of_app. right. left.
  - left. eapply answering_elem. rewrite Er. left.
Qed.

(** Outside the handler a place in the mailbox is kept, and only running the
    future changes what is left of it. *)
Lemma pool_aside_busy e w w' : aside e w w' →
  (busy w' = busy w ∨ S (busy w') = busy w) ∧ (e = PvRun → S (busy w') = busy w).
Proof.
  intros [_ _ _ _ _ _ Ar _ _ _]. unfold busy. destruct (decide (e = PvRun)); [|rewrite Ar; naive_solver].
  destruct Ar as [x ->]. cbn. auto.
Qed.

Lemma pool_place (R : nat → PoolWorld P → Prop) (Q : PoolWorld P → Prop) k e w w' :
  (∀ w w', pool_inv w → R k w → pool_handle_next agent w = Some w' → nearer R Q k w') →
  (∀ e w w', aside e w w' → R k w → R k w') →
  calm e → pool_inv w → R k w → step e w = Some w' →
  nearer R Q k w' ∨ (R k w' ∧ (busy w' = busy w ∨ S (busy w') = busy w) ∧ (e = PvRun → S (busy w') = busy w)).
Proof.
  intros Hh Ho Hc Hi Hr Hs. destruct (is_handle e) as [->|He]; [left; by eapply Hh|].
  pose proof (pool_aside e w w' Hs Hi Hc He) as Ha. right. split; [by eapply Ho|]. by apply pool_aside_busy.
Qed.

Lemma result_kept k e w w' : aside e w w' → result_at k w → result_at k w'.
Proof.
  intros [Aw _ _ _ (ms & Em & _) _ _ _ _ _] [Hw (x & Hk & Hx)]. split; [unfold waits_in; by rewrite Aw|].
  exists x. rewrite Em. split; [by apply lookup_app_l_Some|done].
Qed.

Lemma wait_kept k e w w' : aside e w w' → wait_at k w → wait_at k w'.
Proof. intros [_ _ _ _ (ms & Em & _) _ _ _ _ _] Hk. unfold wait_at. rewrite Em. by apply lookup_app_l_Some. Qed.

Lemma result_queued w y : waits_in w → y ∈ pw_mailbox w → is_result y = true → dialled w.
Proof. intros Hw [k Hk]%list_elem_of_lookup Hy. right. exists k. split; [done|]. by exists y. Qed.

Lemma until_dialled : until step calm pool_inv waits_in dialled.
Proof.
  intros e w w' Hc Hi Hw Hs. destruct (is_handle e) as [->|He].
  - pose proof (pool_handle_step w w' Hs) as (x & mb & s & effects & Em & _).
    destruct (parked_handle x mb w w' Hi Hw Em Hs) as [?|[? _]]; [by right; left|by left].
  - destruct (pool_aside e w w' Hs Hi Hc He) as [Aw _ _ _ _ _ _ _ _ _]. left. unfold waits_in. by rewrite Aw.
Qed.

Context (r : Run step) (shared : bool).
Hypothesis started : run_at r 0 = pool_spawn shared.
Hypothesis undisturbed : only_from step r 0 calm.
Hypothesis handled : weakly_fair step r pool_handles.
Hypothesis futures_run : weakly_fair step r pool_runs.
Hypothesis dial_ends : weakly_fair step r pool_dials.

Lemma pool_run_inv m : pool_inv (run_at r m).
Proof.
  apply (run_inv step r 0 calm); [done|apply pool_inv_step|rewrite started; apply pool_inv_spawn|lia].
Qed.

(** A queued answer is sent. *)
Lemma answering_step j e w w' :
  calm e → pool_inv w → answering j w → step e w = Some w' →
  (e ≠ PvRun ∧ answering j w') ∨ nearer answering released j w'.
Proof.
  intros Hc Hi [h Hj] Hs. destruct (is_handle e) as [->|He].
  { apply pool_handle_step in Hs as (? & ? & ? & ? & _ & Er & _). by rewrite Er in Hj. }
  pose proof (as_running _ _ _ (pool_aside e w w' Hs Hi Hc He)) as Ar. destruct (decide (e = PvRun)) as [->|Hne].
  - right. destruct Ar as [x Ex]. rewrite Ex in Hj. destruct j as [|j]; [left|right; by exists h].
    injection Hj as ->. exists h. split; [|by apply (pi_running w Hi a h); rewrite Ex; left].
    cbn in Hs. unfold pool_run_next in Hs. rewrite Ex in Hs. injection Hs as <-. cbn. apply elem_of_app. right. left.
  - left. split; [done|]. exists h. by rewrite Ar.
Qed.

Lemma answering_release j m : answering j (run_at r m) → ∃ m', m ≤ m' ∧ released (run_at r m').
Proof.
  apply (queue_leads step r calm pool_runs pool_inv answering released 0); try done; [auto using pool_run_inv|..|lia].
  - intros j' e w w' Hc Hi Hj Hs. destruct (answering_step j' e w w' Hc Hi Hj Hs) as [[_ ?]|?]; auto.
  - intros j' w Hi [h Hj]. apply pool_run_enabled. unfold busy. by destruct (pw_running w).
  - intros j' e w w' -> Hc Hi Hj Hs. by destruct (answering_step j' _ w w' Hc Hi Hj Hs) as [[? _]|?].
Qed.

Lemma answered_release m : answered (run_at r m) → ∃ m', m ≤ m' ∧ released (run_at r m').
Proof. intros [j Hj]. by eapply answering_release. Qed.

(** A message in the mailbox is handled. *)
Lemma place_leads (R : nat → PoolWorld P → Prop) (Q : PoolWorld P → Prop) :
  (∀ k w w', pool_inv w → R k w → pool_handle_next agent w = Some w' → nearer R Q k w') →
  (∀ k e w w', aside e w w' → R k w → R k w') →
  (∀ k w, R k w → is_Some (pw_mailbox w !! k)) →
  ∀ k m, R k (run_at r m) → ∃ m', m ≤ m' ∧ Q (run_at r m').
Proof.
  intros Hh Ho Hm k m. apply (queue_leads_busy step r calm pool_handles pool_runs pool_inv R Q busy 0); try done;
    [auto using pool_run_inv|..|lia].
  - intros k' e w w' Hc Hi Hr Hs. destruct (pool_place R Q k' e w w' (Hh k') (Ho k') Hc Hi Hr Hs) as [?|(? & ? & _)]; auto.
  - intros k' w Hi Hr Hb. destruct (Hm k' w Hr) as [x Hx]. by eapply pool_handle_enabled.
  - intros k' w _ _. apply pool_run_enabled.
  - intros k' e w w' -> _ Hi Hr _ Hs. by eapply Hh.
  - intros k' e w w' -> Hc Hi Hr Hs. destruct (pool_place R Q k' _ w w' (Hh k') (Ho k') Hc Hi Hr Hs) as [?|(? & _ & ?)]; auto.
Qed.

Lemma results_release k m : result_at k (run_at r m) → ∃ m', m ≤ m' ∧ released (run_at r m').
Proof.
  intros Hk. apply (leads_to_trans step r answered); [|intros m' _; apply answered_release]. revert Hk.
  apply place_leads; [apply result_handle|apply result_kept|]. intros k' w [_ (x & -> & _)]. by eexists.
Qed.

(** While a parked caller's pool is being dialled, the dialling ends. *)
Lemma parked_release m : waits_in (run_at r m) → ∃ m', m ≤ m' ∧ released (run_at r m').
Proof.
  intros Hw. apply (leads_to_trans step r dialled).
  - pose proof (pool_run_inv m) as Hi.
    assert (ps_connecting (pw_state (run_at r m)) = true) as Hc.
    { apply (pi_waiters _ Hi). intros E. unfold waits_in in Hw. rewrite E in Hw. by apply not_elem_of_nil in Hw. }
    destruct (pi_pending _ Hi Hc) as [Hd|(x & Hin & Hx)].
    + apply (leads_to_fair step r calm pool_dials pool_inv (fun w => waits_in w ∧ pw_dialling w = true) dialled m);
        [done|by eapply only_from_later; [|exact undisturbed]; lia|auto using pool_run_inv|..|done].
      * intros e w w' Hce Hi' [Hw' Hd'] Hs. destruct (until_dialled e w w' Hce Hi' Hw' Hs) as [Hw''|?]; [|by right].
        destruct (is_handle e) as [->|He].
        -- apply pool_handle_step in Hs as (? & ? & ? & ? & _ & _ & _ & _ & _ & _ & _ & Ed & _). left. by rewrite Ed.
        -- destruct (as_mailbox _ _ _ (pool_aside e w w' Hs Hi' Hce He)) as (ms & Em & [Ed|(y & Hy & Hry)]);
             [left; by rewrite Ed|].
           right. eapply result_queued; [done| |exact Hry]. rewrite Em. apply elem_of_app. by right.
      * intros w _ [_ Hd']. exists (PvDialled (OFailed (Error_Internal "down"))). cbn. rewrite Hd'.
        eexists. split; [by eexists|done].
      * intros e w w' [o ->] Hce Hi' [Hw' Hd'] Hs.
        destruct (until_dialled _ w w' Hce Hi' Hw' Hs) as [Hw''|?]; [|done].
        destruct (as_mailbox _ _ _ (pool_aside _ w w' Hs Hi' Hce ltac:(done))) as (ms & Em & [Ed|(y & Hy & Hry)]).
        -- cbn in Hs. rewrite Hd' in Hs. injection Hs as <-. unfold pool_dialled in Ed. rewrite Hd' in Ed. by case_match.
        -- eapply result_queued; [done| |exact Hry]. rewrite Em. apply elem_of_app. by right.
    + exists m. split; [lia|]. by eapply result_queued.
  - intros m' Hm' [?|[k Hk]]; [by apply answered_release|]. by eapply results_release.
Qed.

Lemma wait_released k m : wait_at k (run_at r m) → ∃ m', m ≤ m' ∧ released (run_at r m').
Proof.
  intros Hk. apply (leads_to_trans step r met).
  - revert Hk. apply place_leads; [apply wait_handle|apply wait_kept|]. intros k' w ->. by eexists.
  - intros m' Hm' [?|?]; [by apply answered_release|by apply parked_release].
Qed.
End Ready.

(** C20: [WaitForPoolReady] is a barrier. In a run in which the agent is not
    stopped and, for the agents that do not join their dialling task, that task
    does not panic ([detached_panic_never_ready] shows that this is needed): if
    the agent keeps handling messages, the futures of its handlers keep running
    and the dialling ends, whoever asked is eventually answered, and finally, never with
    [Connecting]. Whenever anybody has been told [Healthy], the shared storage
    that request handlers read, if there is one, holds a pool: it is written
    before the first answer is sent, in a step of its own. *)
Theorem wait_for_pool_ready_released {P} agent join_error (r : Run (pool_step (P := P) agent join_error)) shared :
  run_at r 0 = pool_spawn shared → only_from (pool_step agent join_error) r 0 (calm agent) →
  (weakly_fair _ r pool_handles → weakly_fair _ r pool_runs → weakly_fair _ r pool_dials →
   ∀ n k a, pw_mailbox (run_at r n) !! k = Some (WaitForPoolReady a) →
     ∃ m health, (n ≤ m)%nat ∧ (a, health) ∈ pw_answers (run_at r m) ∧ ch_status health ≠ Connecting) ∧
  (∀ m a health, (a, health) ∈ pw_answers (run_at r m) → ch_status health = Healthy →
     ps_shared (pw_state (run_at r m)) ≠ Some None).
Proof.
  intros H0 Hc. split.
  - intros Hh Hr Hd n k a Hk.
    destruct (wait_released agent join_error a r shared H0 Hc Hh Hr Hd k n Hk) as (m & Hm & h & ?). by exists m, h.
  - intros m a h. by apply (pool_run_inv agent join_error r shared H0 Hc m).
Qed.

(** ** Behaviour that looks unintended *)

(** When the detached dialling task of a pool panics, nobody tells the agent:
    it says [Connecting] for ever and answers no [WaitForPoolReady]. *)
Lemma detached_panic_never_ready {P} join_error (es : list (PoolEvent P)) (w : PoolWorld P) :
  after (pool_step DatabasePoolAgent join_error) ([PvWait; PvHandle; PvDialled OPanicked] ++ es) (pool_spawn true) = Some w →
  ps_connecting (pw_state w) = true ∧ 0%nat ∈ ps_ready_waiters (pw_state w).
Proof.
  set (stuck := fun w : PoolWorld P => ps_connecting (pw_state w) = true ∧ 0%nat ∈ ps_ready_waiters (pw_state w) ∧
    pw_dialling w = false ∧ ∀ m, m ∈ pw_mailbox w → is_result m = false).
  assert (∀ e w w', stuck w → pool_step DatabasePoolAgent join_error e w = Some w' → stuck w') as Hstep.
  { intros e v v' (Hc & Hw & Hd & Hm) Hs. destruct e as [o| | | | |i|]; cbn in Hs.
    - by rewrite Hd in Hs.
    - injection Hs as <-. repeat split; try done. intros m [?|?%list_elem_of_singleton]%elem_of_app; [auto|by subst].
    - injection Hs as <-. repeat split; try done. intros m [?|?%list_elem_of_singleton]%elem_of_app; [auto|by subst].
    - apply pool_handle_step in Hs as (m & mb & s & effects & Em & _ & Eh & Ea & Eb & _ & _ & Ed & _). rewrite Em in Hm.
      unfold stuck. rewrite Ea, Eb, Ed. assert (is_result m = false) as Hr by (apply Hm; left).
      assert (∀ x, x ∈ mb → is_result x = false) by (intros x Hx; apply Hm; by right).
      destruct m as [p|err|b|b]; try done; cbn in Eh; unfold on_wait_for_ready in Eh; rewrite ?Hc in Eh; injection Eh as <- <-; cbn.
      + split; [done|]. split; [apply elem_of_app; by left|done].
      + done.
    - unfold pool_run_next in Hs. destruct (pw_running v) as [|[] ?]; [done|..]; by injection Hs as <-.
    - unfold pool_run_beside in Hs. destruct (pw_beside v !! i) as [[]|]; [..|done]; by injection Hs as <-.
    - destruct (pw_serving v); [|done]. by injection Hs as <-. }
  rewrite after_app. intros H. eapply (after_inv _ (fun _ => True) stuck) in H as (? & ? & _);
    [done|eauto|by apply Forall_true|].
  vm_compute. split; [done|]. split; [left|]. split; [done|]. intros m Hm. by apply not_elem_of_nil in Hm.
Qed.

(** ** Witnesses *)

Lemma create_pool_retries_witness :
  ∃ o waited,
    create_pool_with_retries true (mkRetryConfig 5 2)
      (fun n => if (n <? 3)%nat then Err (Error_Internal "down") else Ok n) 6 = Some (o, waits (mkRetryConfig 5 2) 0 waited) ∧
    waited = 3%nat ∧ waits (mkRetryConfig 5 2) 0 waited = [2; 4; 8].
Proof.
  destruct (create_pool_retries true (mkRetryConfig 5 2) (fun n => if (n <? 3)%nat then Err (Error_Internal "down") else Ok n))
    as (o & waited & E & Ho).
  - split; [cbn; lia|]. split; [cbn; lia|]. right. reflexivity.
  - exists o, waited. split; [exact E|]. vm_compute in E. injection E as <- E. destruct Ho as (_ & Hp & Hb).
    assert (waited = 3%nat) as ->; [|by split].
    destruct (Nat.lt_trichotomy waited 3) as [H|[H|H]]; [|done|].
    + destruct waited as [|[|[|]]]; try lia; discriminate Hp.
    + destruct (Hb 3%nat H) as [e He]. discriminate He.
Defined.

Definition witness_pool_events : list (PoolEvent string) :=
  [PvWait; PvHandle; PvDialled (OConnected "pool"); PvSample; PvHandle; PvRun; PvRun; PvHandle; PvBeside 0].

Definition witness_pool_run : Run (pool_step DatabasePoolAgent "") :=
  finite_run (pool_step DatabasePoolAgent "") witness_pool_events (pool_spawn true)
    (default (pool_spawn true) (after (pool_step DatabasePoolAgent "") witness_pool_events (pool_spawn true)))
    ltac:(vm_compute; reflexivity).

Lemma wait_for_pool_ready_released_witness :
  (∃ m health, (1 ≤ m)%nat ∧ (0%nat, health) ∈ pw_answers (run_at witness_pool_run m) ∧ ch_status health ≠ Connecting) ∧
  ps_shared (pw_state (run_at witness_pool_run 7)) ≠ Some None.
Proof.
  destruct (wait_for_pool_ready_released DatabasePoolAgent "" witness_pool_run true) as [Hlive Hsafe].
  - reflexivity.
  - intros m e _ He. do 9 (destruct m as [|m]; [cbn in He; injection He as <-; exact I|]). discriminate He.
  - split.
    + apply (Hlive ltac:(apply finite_run_fair; intros (e & w' & -> & H); vm_compute in H; discriminate H)
                   ltac:(apply finite_run_fair; intros (e & w' & -> & H); vm_compute in H; discriminate H)
                   ltac:(apply finite_run_fair; intros (e & w' & [o ->] & H); vm_compute in H; discriminate H) 1%nat 0%nat 0%nat).
      reflexivity.
    + eapply (Hsafe 7%nat 0%nat); [vm_compute; left|reflexivity].
Defined.
