(* ===== verification/Base32.v ===== *)
(** * Base32

    [base32_encode] of [src/acton-service/src/auth/api_keys/mod.rs]: lower-case,
    unpadded base32 over a 64-bit shift register. The reference it is compared
    with is positional: the digits of the big-endian number of the bytes,
    shifted to a multiple of five bits. *)

From S2P Require Import Prelude.

Local Open Scope string_scope.
Local Open Scope Z_scope.
Local Open Scope list_scope.

Definition ALPHABET : list ascii := str_bytes "abcdefghijklmnopqrstuvwxyz234567".

(** [ALPHABET[index] as char]. *)
Definition alphabet_char (index : Z) : ascii := nth (Z.to_nat index) ALPHABET "0"%char.

(** The inner loop: emits digits while five bits are left. [bits] falls by 5 a
    round, so [bits] rounds are enough. *)
Fixpoint emit (fuel : nat) (buffer bits : Z) : list ascii * Z :=
  match fuel with
  | O => ([], bits)
  | S fuel =>
      if 5 <=? bits then
        let bits := bits - 5 in
        let index := Z.land (Z.shiftr buffer bits) 31 in
        let '(out, bits) := emit fuel buffer bits in
        (alphabet_char index :: out, bits)
      else ([], bits)
  end.

(** The loop over the bytes, and the last digit. *)
Fixpoint encode_bytes (bs : bytes) (buffer bits : Z) : list ascii :=
  match bs with
  | [] =>
      if 0 <? bits then [alphabet_char (Z.land (as_unsigned 64 (Z.shiftl buffer (5 - bits))) 31)] else []
  | byte :: bs =>
      let buffer := Z.lor (as_unsigned 64 (Z.shiftl buffer 8)) (Z_of_byte byte) in
      let '(out, bits) := emit (Z.to_nat (bits + 8)) buffer (bits + 8) in
      out ++ encode_bytes bs buffer bits
  end.

Definition base32_encode (bs : bytes) : string := String.string_of_list_ascii (encode_bytes bs 0 0).

(** ** Reference *)

Definition be_value (bs : bytes) : Z := fold_left (fun v b => 256 * v + Z_of_byte b) bs 0.

(** A digit's value: its place in the alphabet. *)
Fixpoint index_of (c : ascii) (l : list ascii) : Z :=
  match l with
  | [] => 0
  | a :: l => if Ascii.eqb a c then 0 else 1 + index_of c l
  end.

Definition digits_value (v : Z) (cs : list ascii) : Z := fold_left (fun v c => 32 * v + index_of c ALPHABET) cs v.

(** [n] bytes, big-endian. *)
Fixpoint be_bytes (n : nat) (v : Z) : bytes :=
  match n with O => [] | S n => be_bytes n (v / 256) ++ [byte_of_Z v] end.

(** The number of digits for [n] bytes, and the zero bits at the end. *)
Definition digits_for (n : nat) : Z := (8 * Z.of_nat n + 4) / 5.
Definition padding (n : nat) : Z := 5 * digits_for n - 8 * Z.of_nat n.

Definition base32_decode (n : nat) (s : string) : bytes :=
  be_bytes n (digits_value 0 (str_bytes s) / 2 ^ padding n).

(** ** The register holds what is not yet written *)

Lemma alphabet_index i : 0 ≤ i < 32 → index_of (alphabet_char i) ALPHABET = i.
Proof.
  intros Hi. assert (forallb (fun n => index_of (alphabet_char (Z.of_nat n)) ALPHABET =? Z.of_nat n) (seq 0 32) = true) as H
    by (vm_compute; reflexivity).
  rewrite forallb_forall in H. specialize (H (Z.to_nat i)). rewrite in_seq, Z2Nat.id in H by lia. apply Z.eqb_eq, H. lia.
Qed.

(** The digit read off the register, and the rest. *)
Lemma low_digit buffer bits : 0 ≤ bits →
  let index := Z.land (Z.shiftr buffer bits) 31 in
  0 ≤ index < 32 ∧ buffer mod 2 ^ (bits + 5) = index * 2 ^ bits + buffer mod 2 ^ bits.
Proof.
  intros Hb. cbv zeta. change 31 with (Z.ones 5). rewrite Z.land_ones, Z.shiftr_div_pow2 by lia.
  pose proof (Z.pow_pos_nonneg 2 bits ltac:(lia) Hb). split; [apply Z.mod_pos_bound; lia|].
  rewrite Z.pow_add_r by lia. rewrite Z.rem_mul_r by lia. lia.
Qed.

Lemma digits_value_app v cs cs' : digits_value v (cs ++ cs') = digits_value (digits_value v cs) cs'.
Proof. apply fold_left_app. Qed.

Lemma digits_value_cons v i cs : 0 ≤ i < 32 → digits_value v (alphabet_char i :: cs) = digits_value (32 * v + i) cs.
Proof. intros Hi. unfold digits_value. cbn [fold_left]. by rewrite alphabet_index. Qed.

(** Between the digits written ([v], [n] of them) and the register, the number
    read so far is complete. *)
Lemma emit_correct fuel : ∀ buffer bits v,
  0 ≤ bits → bits < 5 * Z.of_nat fuel + 5 →
  let '(out, rest) := emit fuel buffer bits in
  0 ≤ rest < 5 ∧ 5 * Z.of_nat (length out) + rest = bits ∧
  digits_value v out * 2 ^ rest + buffer mod 2 ^ rest = v * 2 ^ bits + buffer mod 2 ^ bits.
Proof.
  induction fuel as [|fuel IH]; intros buffer bits v Hb Hf; cbn [emit]; [cbn; lia|].
  destruct (Z.leb_spec 5 bits) as [H5|H5]; [|cbn; lia].
  pose proof (low_digit buffer (bits - 5) ltac:(lia)) as [Hi Hm].
  specialize (IH buffer (bits - 5) (32 * v + Z.land (Z.shiftr buffer (bits - 5)) 31) ltac:(lia) ltac:(lia)).
  destruct (emit fuel buffer (bits - 5)) as [out rest]. destruct IH as (Hr & Hl & Hv).
  split; [done|]. split; [cbn [length]; lia|]. rewrite digits_value_cons by done. rewrite Hv.
  replace (bits - 5 + 5) with bits in Hm by lia. rewrite Hm. replace (2 ^ bits) with (32 * 2 ^ (bits - 5)); [lia|].
  change 32 with (2 ^ 5). rewrite <-Z.pow_add_r by lia. f_equal. lia.
Qed.

Lemma Z_of_byte_range b : 0 ≤ Z_of_byte b < 256.
Proof.
  unfold Z_of_byte. pose proof (N_ascii_bounded b). lia.
Qed.

Lemma lor_byte x byte : 0 ≤ byte < 256 → Z.lor (x * 256) byte = x * 256 + byte.
Proof.
  intros Hb. assert (Z.land (x * 256) byte = 0) as Hl.
  { apply Z.bits_inj'. intros n Hn. rewrite Z.land_spec, Z.bits_0. change 256 with (2 ^ 8).
    destruct (Z.lt_ge_cases n 8); [by rewrite Z.mul_pow2_bits_low by lia|].
    replace byte with (byte mod 2 ^ 8) by (apply Z.mod_small; lia).
    rewrite Z.mod_pow2_bits_high by lia. apply andb_false_r. }
  rewrite Z.add_nocarry_lxor by done. by rewrite Z.lxor_lor.
Qed.

(** Shifting in a byte. *)
Lemma shift_in buffer byte bits : 0 ≤ bits ≤ 4 → 0 ≤ byte < 256 →
  Z.lor (as_unsigned 64 (Z.shiftl buffer 8)) byte mod 2 ^ (bits + 8) = 256 * (buffer mod 2 ^ bits) + byte.
Proof.
  intros Hb Hy. unfold as_unsigned. rewrite Z.shiftl_mul_pow2 by lia. change (2 ^ 64) with (2 ^ 56 * 2 ^ 8).
  rewrite Zmult_mod_distr_r. change (2 ^ 8) with 256. rewrite lor_byte by done.
  rewrite Z.pow_add_r, (Z.mul_comm (2 ^ bits)) by lia. change (2 ^ 8) with 256.
  pose proof (Z.pow_pos_nonneg 2 bits ltac:(lia) ltac:(lia)). rewrite Z.rem_mul_r by lia.
  rewrite (Z.add_comm (_ * 256)), Z.mod_add, Z.div_add by lia. rewrite (Z.mod_small byte), (Z.div_small byte), Z.add_0_l by lia.
  rewrite Z.mod_mod_divide; [lia|]. exists (2 ^ (56 - bits)). rewrite <-Z.pow_add_r by lia. f_equal. lia.
Qed.

Lemma last_digit buffer bits : 0 < bits < 5 →
  Z.land (as_unsigned 64 (Z.shiftl buffer (5 - bits))) 31 = (buffer mod 2 ^ bits) * 2 ^ (5 - bits).
Proof.
  intros Hb. change 31 with (Z.ones 5). rewrite Z.land_ones, Z.shiftl_mul_pow2 by lia. unfold as_unsigned.
  rewrite Z.mod_mod_divide by (exists (2 ^ 59); reflexivity).
  replace 5 with (bits + (5 - bits)) at 2 by lia. rewrite Z.pow_add_r by lia. apply Zmult_mod_distr_r.
Qed.

Lemma be_value_from bs : ∀ v,
  fold_left (fun v b => 256 * v + Z_of_byte b) bs v = v * 256 ^ Z.of_nat (length bs) + be_value bs.
Proof.
  unfold be_value. induction bs as [|b bs IH]; intros v; cbn [fold_left length]; [cbn; lia|].
  rewrite IH, (IH (256 * 0 + _)), Nat2Z.inj_succ, Z.pow_succ_r by lia. lia.
Qed.

Lemma be_value_cons b bs : be_value (b :: bs) = Z_of_byte b * 256 ^ Z.of_nat (length bs) + be_value bs.
Proof. unfold be_value at 1. cbn [fold_left]. by rewrite be_value_from. Qed.

Lemma encode_correct bs : ∀ buffer bits v,
  0 ≤ bits < 5 →
  let out := encode_bytes bs buffer bits in
  let total := bits + 8 * Z.of_nat (length bs) in
  Z.of_nat (length out) = (total + 4) / 5 ∧
  digits_value v out =
    ((v * 2 ^ bits + buffer mod 2 ^ bits) * 256 ^ Z.of_nat (length bs) + be_value bs) * 2 ^ (5 * ((total + 4) / 5) - total).
Proof.
  induction bs as [|b bs IH]; intros buffer bits v Hb; cbn [encode_bytes length].
  - cbn zeta. rewrite Z.mul_0_r, Z.add_0_r. change (be_value []) with 0. rewrite Z.pow_0_r, Z.mul_1_r, Z.add_0_r.
    destruct (Z.ltb_spec 0 bits) as [Hp|Hp].
    + rewrite <-(Z.div_unique (bits + 4) 5 1 (bits - 1)) by lia. split; [done|].
      pose proof (Z.mod_pos_bound buffer (2 ^ bits) ltac:(apply Z.pow_pos_nonneg; lia)).
      assert (32 = 2 ^ bits * 2 ^ (5 - bits)) as E32 by (rewrite <-Z.pow_add_r by lia; by replace (bits + (5 - bits)) with 5 by lia).
      pose proof (Z.pow_pos_nonneg 2 (5 - bits) ltac:(lia) ltac:(lia)).
      rewrite last_digit by lia. rewrite digits_value_cons by nia. unfold digits_value. cbn [fold_left].
      rewrite Z.mul_1_r, Z.mul_add_distr_r, <-Z.mul_assoc, <-E32. lia.
    + assert (bits = 0) as -> by lia. rewrite !Z.pow_0_r, Z.mod_1_r. cbn. split; [reflexivity|lia].
  - set (buffer' := Z.lor _ _).
    pose proof (emit_correct (Z.to_nat (bits + 8)) buffer' (bits + 8) v ltac:(lia) ltac:(lia)) as He.
    destruct (emit _ buffer' (bits + 8)) as [out rest]. destruct He as (Hr & Hl & Hv).
    destruct (IH buffer' rest (digits_value v out) Hr) as [IHl IHv]. cbn zeta in *.
    assert (bits + 8 * Z.of_nat (S (length bs)) = rest + 8 * Z.of_nat (length bs) + Z.of_nat (length out) * 5) as -> by lia.
    assert ((rest + 8 * Z.of_nat (length bs) + Z.of_nat (length out) * 5 + 4) / 5 =
            Z.of_nat (length out) + (rest + 8 * Z.of_nat (length bs) + 4) / 5) as ->.
    { rewrite <-Z.div_add_l by lia. f_equal. lia. }
    rewrite length_app, Nat2Z.inj_add, IHl. split; [done|].
    rewrite digits_value_app, IHv, Hv. unfold buffer'. rewrite shift_in by (lia || apply Z_of_byte_range).
    rewrite be_value_cons, Nat2Z.inj_succ, Z.pow_succ_r, Z.pow_add_r by lia. change (2 ^ 8) with 256. f_equal; [lia|f_equal; lia].
Qed.

Lemma length_be_bytes n v : length (be_bytes n v) = n.
Proof. revert v. induction n as [|n IH]; intros v; cbn; [done|]. rewrite length_app, IH. cbn. lia. Qed.

Lemma be_bytes_value bs : be_bytes (length bs) (be_value bs) = bs.
Proof.
  induction bs as [|b bs IH] using rev_ind; [done|]. rewrite length_app, Nat.add_1_r. cbn [be_bytes].
  unfold be_value. rewrite fold_left_app. cbn [fold_left]. fold (be_value bs). pose proof (Z_of_byte_range b).
  rewrite (Z.mul_comm 256), Z.div_add_l, (Z.div_small (Z_of_byte b)), Z.add_0_r, IH by lia. f_equal. f_equal.
  unfold byte_of_Z, Z_of_byte. rewrite Z.add_comm, Z.mod_add, Z.mod_small by (unfold Z_of_byte in *; lia).
  by rewrite N2Z.id, ascii_N_embedding.
Qed.

Lemma base32_length bs : String.length (base32_encode bs) = length (encode_bytes bs 0 0).
Proof. unfold base32_encode. generalize (encode_bytes bs 0 0). induction l as [|c l IH]; cbn; [done|by rewrite IH]. Qed.

(** The shift-register encoder computes positional base32: its output has
    ceil(8n/5) digits, whose number is that of the bytes shifted to a multiple of
    five bits, and the bytes can be read back from it; so distinct secrets of
    equal length get distinct texts. The 64-bit register never loses a bit that
    is still needed. *)
Theorem base32_roundtrip bs :
  Z.of_nat (String.length (base32_encode bs)) = digits_for (length bs) ∧
  digits_value 0 (str_bytes (base32_encode bs)) = be_value bs * 2 ^ padding (length bs) ∧
  base32_decode (length bs) (base32_encode bs) = bs.
Proof.
  assert (∀ l, str_bytes (String.string_of_list_ascii l) = l) as Hs by apply String.list_ascii_of_string_of_list_ascii.
  destruct (encode_correct bs 0 0 0 ltac:(lia)) as [Hl Hv]. cbn zeta in *.
  change (0 * 2 ^ 0 + 0 mod 2 ^ 0) with 0 in Hv. rewrite Z.mul_0_l, !Z.add_0_l in Hv. rewrite Z.add_0_l in Hl.
  assert (digits_value 0 (str_bytes (base32_encode bs)) = be_value bs * 2 ^ padding (length bs)) as Hd.
  { unfold base32_encode. by rewrite Hs, Hv. }
  split; [by rewrite base32_length, Hl|]. split; [done|].
  unfold base32_decode. rewrite Hd, Z.div_mul, be_bytes_value; [done|].
  pose proof (Z.pow_pos_nonneg 2 (padding (length bs)) ltac:(lia)).
  assert (0 ≤ padding (length bs)); [|lia]. unfold padding, digits_for.
  pose proof (Z.div_mod (8 * Z.of_nat (length bs) + 4) 5 ltac:(lia)). pose proof (Z.mod_pos_bound (8 * Z.of_nat (length bs) + 4) 5 ltac:(lia)). lia.
Qed.
