(* ===== verification/ApiKeys.v ===== *)
(** * API keys

    [src/acton-service/src/auth/api_keys/mod.rs]: the key record, generation and
    lookup of keys, the storage trait and its Redis, PostgreSQL and Turso
    backends over [Backend]. Random bytes and the salt of a hash are arguments;
    JSON texts are parameters. *)

From S2P Require Import Prelude FrameworkError AuditStorage Password Text RedisKv Backend RefreshTokens Base32.

Local Open Scope string_scope.
Local Open Scope Z_scope.
Local Open Scope list_scope.

Record ApiKey := mkApiKey {
  ak_id : string;
  ak_user_id : string;
  ak_name : string;
  ak_prefix : string;
  ak_key_hash : string;
  ak_scopes : list string;
  ak_rate_limit : option Z;      (* u32 *)
  ak_is_revoked : bool;
  ak_last_used_at : option Z;
  ak_expires_at : option Z;
  ak_created_at : Z;
}.

Definition is_valid (now : Z) (k : ApiKey) : bool :=
  if ak_is_revoked k then false
  else match ak_expires_at k with
       | Some expires_at => if expires_at <? now then false else true
       | None => true
       end.

Definition has_scope (k : ApiKey) (scope : string) : bool := existsb (String.eqb scope) (ak_scopes k).

(** ** Generating and looking up keys *)

Record ApiKeyGenerator := mkApiKeyGenerator {
  akg_prefix : string;
  akg_hasher : PasswordHasher;
}.

(** The byte starts a character: [str::is_char_boundary] inside a string. *)
Definition char_start (c : ascii) : bool := negb ((128 <=? code c)%N && (code c <? 192)%N).

(** [&s[..n]]; [None] is the panic when [n] is past the end or splits a
    character. *)
Definition slice_to (n : nat) (s : string) : option string :=
  match String.get n s with
  | Some c => if char_start c then Some (String.substring 0 n s) else None
  | None => if (String.length s =? n)%nat then Some s else None
  end.

(** Code that can panic. *)
Inductive Panics (A : Type) := Returned (a : A) | Panicked.
Arguments Returned {A} a.
Arguments Panicked {A}.

(** [rsplitn(2, '_')]: the part after the last underscore and the rest. *)
Definition key_prefix_for_lookup (key : string) : Panics (option string) :=
  match rsplit_once "_" key with
  | Some (prefix, random) =>
      if (8 <=? String.length random)%nat then
        match slice_to 8 random with
        | Some start => Returned (Some (prefix +:+ "_" +:+ start))
        | None => Panicked
        end
      else Returned None
  | None => Returned None
  end.

Definition extract_prefix (key : string) : option string := head (split "_" key).

Section Generator.
Context `{Argon2Env}.

(** [generate], up to the panic of its [expect]. *)
Definition generate (self : ApiKeyGenerator) (random_bytes : bytes) (salt : string) : Panics (string * string) :=
  let key := akg_prefix self +:+ "_" +:+ base32_encode random_bytes in
  match hash (akg_hasher self) salt key with
  | Ok h => Returned (key, h)
  | Err _ => Panicked
  end.
End Generator.

(** ** The trait *)

Class ApiKeyStorage (S : Type) := {
  aks_get_by_prefix : string → M (BkWorld S) Error (option ApiKey);
  aks_get_by_id : string → M (BkWorld S) Error (option ApiKey);
  aks_create : ApiKey → M (BkWorld S) Error unit;
  aks_update_last_used : string → M (BkWorld S) Error unit;
  aks_revoke : string → M (BkWorld S) Error unit;
  aks_list_by_user : string → M (BkWorld S) Error (list ApiKey);
  aks_delete : string → M (BkWorld S) Error unit;
}.

Section GetByKey.
Context `{Argon2Env} {S : Type} `{!ApiKeyStorage S}.
Local Open Scope monad_scope.

(** [get_by_key], which every backend spells out the same way. *)
Definition get_by_key (key : string) : M (BkWorld S) Error (Panics (option ApiKey)) :=
  match key_prefix_for_lookup key with
  | Panicked => ret Panicked
  | Returned None => fail (Error_ValidationError "Invalid API key format")
  | Returned (Some lookup_prefix) =>
      let! found := aks_get_by_prefix lookup_prefix in
      match found with
      | Some api_key =>
          let! matches := lift (verify key (ak_key_hash api_key)) in
          ret (Returned (if matches : bool then Some api_key else None))
      | None => ret (Returned None)
      end
  end.
End GetByKey.

Class ApiKeyEnv := {
  key_to_json : ApiKey → string;
  key_from_json : string → result ApiKey string;
  scopes_to_json : list string → string;
  scopes_from_json : string → result (list string) string;
}.

Class ApiKeyEnvLaws `{ApiKeyEnv} := {
  key_json_roundtrip k : key_from_json (key_to_json k) = Ok k;
}.

Definition set_last_used (now : Z) (k : ApiKey) : ApiKey :=
  mkApiKey (ak_id k) (ak_user_id k) (ak_name k) (ak_prefix k) (ak_key_hash k) (ak_scopes k) (ak_rate_limit k)
    (ak_is_revoked k) (Some now) (ak_expires_at k) (ak_created_at k).

Definition set_key_revoked (k : ApiKey) : ApiKey :=
  mkApiKey (ak_id k) (ak_user_id k) (ak_name k) (ak_prefix k) (ak_key_hash k) (ak_scopes k) (ak_rate_limit k)
    true (ak_last_used_at k) (ak_expires_at k) (ak_created_at k).

(** ** Redis *)

Section RedisApiKeys.
Context `{ClockEnv, ApiKeyEnv} {R : Type} `{!RedisKv R}.
Local Open Scope monad_scope.
Abbreviation T := (M (BkWorld R) Error).

Definition id_key (id : string) : string := "api_key" +:+ ":id:" +:+ id.
Definition prefix_key (prefix : string) : string := "api_key" +:+ ":prefix:" +:+ prefix.
Definition ak_user_key (user_id : string) : string := "api_key" +:+ ":user:" +:+ user_id.

Definition redis_get_by_id (id : string) : T (option ApiKey) :=
  bk_connection ;;
  let! reply := bk_cmd "Failed to get API key: " (KGet (id_key id)) in
  match reply with
  | RStr (Some j) =>
      let! api_key := lift (map_err (fun e => Error_Internal ("Failed to parse API key: " +:+ e)) (key_from_json j)) in
      ret (Some api_key)
  | _ => ret None
  end.

Definition redis_get_by_prefix (prefix : string) : T (option ApiKey) :=
  bk_connection ;;
  let! reply := bk_cmd "Failed to get API key prefix: " (KGet (prefix_key prefix)) in
  match reply with
  | RStr (Some id) => redis_get_by_id id
  | _ => ret None
  end.

Definition redis_create (api_key : ApiKey) : T unit :=
  bk_connection ;;
  bk_cmd "Failed to store API key: " (KSet (id_key (ak_id api_key)) (key_to_json api_key)) ;;
  bk_cmd "Failed to store prefix mapping: " (KSet (prefix_key (ak_prefix api_key)) (ak_id api_key)) ;;
  bk_cmd "Failed to add to user set: " (KSAdd (ak_user_key (ak_user_id api_key)) (ak_id api_key)) ;;
  ret tt.

(** The second half of the read-modify-write operations. *)
Definition redis_put (what id : string) (api_key : ApiKey) : T unit :=
  bk_connection ;;
  bk_cmd what (KSet (id_key id) (key_to_json api_key)) ;;
  ret tt.

Definition redis_update_last_used (id : string) : T unit :=
  let! found := redis_get_by_id id in
  match found with
  | Some api_key =>
      let! now := bk_now in
      redis_put "Failed to update API key: " id (set_last_used now api_key)
  | None => ret tt
  end.

Definition redis_ak_revoke (id : string) : T unit :=
  let! found := redis_get_by_id id in
  match found with
  | Some api_key => redis_put "Failed to revoke API key: " id (set_key_revoked api_key)
  | None => ret tt
  end.

(** The loop over the ids. *)
Fixpoint redis_get_all (ids : list string) : T (list ApiKey) :=
  match ids with
  | [] => ret []
  | id :: ids =>
      let! found := redis_get_by_id id in
      let! keys := redis_get_all ids in
      ret (match found with Some api_key => api_key :: keys | None => keys end)
  end.

Definition redis_list_by_user (user_id : string) : T (list ApiKey) :=
  bk_connection ;;
  let! reply := bk_cmd "Failed to get user keys: " (KSMembers (ak_user_key user_id)) in
  match reply with
  | RMembers ids => redis_get_all ids
  | _ => ret []
  end.

Definition redis_delete (id : string) : T unit :=
  let! found := redis_get_by_id id in
  match found with
  | Some api_key =>
      bk_connection ;;
      bk_cmd "Failed to remove from user set: " (KSRem (ak_user_key (ak_user_id api_key)) id) ;;
      bk_cmd "Failed to delete prefix: " (KDel (prefix_key (ak_prefix api_key))) ;;
      bk_cmd "Failed to delete API key: " (KDel (id_key id)) ;;
      ret tt
  | None => ret tt
  end.

#[global] Instance RedisApiKeyStorage : ApiKeyStorage R := {|
  aks_get_by_prefix := redis_get_by_prefix;
  aks_get_by_id := redis_get_by_id;
  aks_create := redis_create;
  aks_update_last_used := redis_update_last_used;
  aks_revoke := redis_ak_revoke;
  aks_list_by_user := redis_list_by_user;
  aks_delete := redis_delete;
|}.
End RedisApiKeys.

(** ** Rows *)

(** A row, with the type of its time columns. *)
Record AkRow (X : Type) := mkAkRow {
  akr_id : string;
  akr_user_id : string;
  akr_name : string;
  akr_key_prefix : string;
  akr_key_hash : string;
  akr_scopes : string;
  akr_rate_limit : option Z;
  akr_is_revoked : bool;
  akr_last_used_at : option X;
  akr_expires_at : option X;
  akr_created_at : X;
}.
Arguments mkAkRow {X}.
Arguments akr_id {X}.
Arguments akr_user_id {X}.
Arguments akr_name {X}.
Arguments akr_key_prefix {X}.
Arguments akr_key_hash {X}.
Arguments akr_scopes {X}.
Arguments akr_rate_limit {X}.
Arguments akr_is_revoked {X}.
Arguments akr_last_used_at {X}.
Arguments akr_expires_at {X}.
Arguments akr_created_at {X}.

Section Rows.
Context {X : Type}.
Implicit Types r : AkRow X.

Definition row_revoked r : AkRow X :=
  mkAkRow (akr_id r) (akr_user_id r) (akr_name r) (akr_key_prefix r) (akr_key_hash r) (akr_scopes r) (akr_rate_limit r)
    true (akr_last_used_at r) (akr_expires_at r) (akr_created_at r).

Definition row_used (now : X) r : AkRow X :=
  mkAkRow (akr_id r) (akr_user_id r) (akr_name r) (akr_key_prefix r) (akr_key_hash r) (akr_scopes r) (akr_rate_limit r)
    (akr_is_revoked r) (Some now) (akr_expires_at r) (akr_created_at r).

(** [id] is the primary key. *)
Definition ak_insert (unique_violation : string) r (rows : list (AkRow X)) : result (unit * list (AkRow X)) string :=
  if bool_decide (akr_id r ∈ akr_id <$> rows) then Err unique_violation else Ok (tt, rows ++ [r]).

(** [ORDER BY created_at DESC]. *)
Fixpoint insert_desc (before : X → X → bool) r (rows : list (AkRow X)) : list (AkRow X) :=
  match rows with
  | [] => [r]
  | r' :: rows' => if before (akr_created_at r) (akr_created_at r') then r' :: insert_desc before r rows' else r :: rows
  end.

Definition st_select_desc (before : X → X → bool) (P : AkRow X → bool) (rows : list (AkRow X))
    : result (list (AkRow X) * list (AkRow X)) string :=
  Ok (foldr (insert_desc before) [] (List.filter P rows), rows).

Definition by_id (id : string) r : bool := String.eqb (akr_id r) id.
Definition by_prefix (prefix : string) r : bool := String.eqb (akr_key_prefix r) prefix.
Definition by_user (user_id : string) r : bool := String.eqb (akr_user_id r) user_id.
End Rows.

(** ** PostgreSQL *)

Section PgApiKeys.
Context `{ClockEnv, ApiKeyEnv, PgEnv, RefreshEnv}.
Local Open Scope monad_scope.
Abbreviation P := (M (BkWorld (Table (AkRow Z))) Error).

Definition pg_ak_statement {A} (what : string)
    (stmt : Z → list (AkRow Z) → result (A * list (AkRow Z)) string) : P A := sql_statement pg_timestamptz what stmt.

(** [serde_json::from_value(..).unwrap_or_default()]. *)
Definition scopes_or_default (text : string) : list string :=
  match scopes_from_json text with Ok scopes => scopes | Err _ => [] end.

Definition pg_row_to_key (r : AkRow Z) : ApiKey :=
  mkApiKey (akr_id r) (akr_user_id r) (akr_name r) (akr_key_prefix r) (akr_key_hash r)
    (scopes_or_default (akr_scopes r)) (as_unsigned 32 <$> akr_rate_limit r) (akr_is_revoked r)
    (akr_last_used_at r) (akr_expires_at r) (akr_created_at r).

Definition pg_ak_get_by_prefix (prefix : string) : P (option ApiKey) :=
  let! row := pg_ak_statement "Failed to get API key: " (fun _ => st_select_first (by_prefix prefix)) in
  ret (pg_row_to_key <$> row).

Definition pg_ak_get_by_id (id : string) : P (option ApiKey) :=
  let! row := pg_ak_statement "Failed to get API key: " (fun _ => st_select_first (by_id id)) in
  ret (pg_row_to_key <$> row).

(** The row of the [INSERT], without [last_used_at]. *)
Definition pg_key_row (k : ApiKey) : AkRow Z :=
  mkAkRow (ak_id k) (ak_user_id k) (ak_name k) (ak_prefix k) (ak_key_hash k) (scopes_to_json (ak_scopes k))
    (as_signed 32 <$> ak_rate_limit k) (ak_is_revoked k) None (pg_timestamptz <$> ak_expires_at k)
    (pg_timestamptz (ak_created_at k)).

Definition pg_ak_create (k : ApiKey) : P unit :=
  pg_ak_statement "Failed to create API key: " (fun _ => ak_insert unique_violation (pg_key_row k)).

Definition pg_ak_update_last_used (id : string) : P unit :=
  pg_ak_statement "Failed to update last_used_at: " (fun now => st_update_where (by_id id) (row_used now)) ;;
  ret tt.

Definition pg_ak_revoke (id : string) : P unit :=
  pg_ak_statement "Failed to revoke API key: " (fun _ => st_update_where (by_id id) row_revoked) ;;
  ret tt.

Definition pg_ak_list_by_user (user_id : string) : P (list ApiKey) :=
  let! rows := pg_ak_statement "Failed to list API keys: " (fun _ => st_select_desc Z.ltb (by_user user_id)) in
  ret (map pg_row_to_key rows).

Definition pg_ak_delete (id : string) : P unit :=
  pg_ak_statement "Failed to delete API key: " (fun _ => st_delete_where (by_id id)) ;;
  ret tt.

#[global] Instance PgApiKeyStorage : ApiKeyStorage (Table (AkRow Z)) := {|
  aks_get_by_prefix := pg_ak_get_by_prefix;
  aks_get_by_id := pg_ak_get_by_id;
  aks_create := pg_ak_create;
  aks_update_last_used := pg_ak_update_last_used;
  aks_revoke := pg_ak_revoke;
  aks_list_by_user := pg_ak_list_by_user;
  aks_delete := pg_ak_delete;
|}.
End PgApiKeys.

(** ** Turso *)

Section TursoApiKeys.
Context `{ClockEnv, ApiKeyEnv, RefreshEnv}.
Local Open Scope monad_scope.
Abbreviation U := (M (BkWorld (Table (AkRow string))) Error).

Definition turso_ak_statement {A} (what : string)
    (stmt : string → list (AkRow string) → result (A * list (AkRow string)) string) : U A :=
  sql_statement sqlite_datetime what stmt.

Definition parse_api_key_row (r : AkRow string) : U ApiKey :=
  let! created_at := match rt_parse_rfc3339 (akr_created_at r) with Some t => ret t | None => bk_now end in
  ret (mkApiKey (akr_id r) (akr_user_id r) (akr_name r) (akr_key_prefix r) (akr_key_hash r)
         (scopes_or_default (akr_scopes r)) (as_unsigned 32 <$> akr_rate_limit r) (akr_is_revoked r)
         (akr_last_used_at r ≫= rt_parse_rfc3339) (akr_expires_at r ≫= rt_parse_rfc3339) created_at).

Definition parse_optional_row (row : option (AkRow string)) : U (option ApiKey) :=
  match row with
  | Some row => let! api_key := parse_api_key_row row in ret (Some api_key)
  | None => ret None
  end.

Definition turso_ak_get_by_prefix (prefix : string) : U (option ApiKey) :=
  let! row := turso_ak_statement "Failed to get API key: " (fun _ => st_select_first (by_prefix prefix)) in
  parse_optional_row row.

Definition turso_ak_get_by_id (id : string) : U (option ApiKey) :=
  let! row := turso_ak_statement "Failed to get API key: " (fun _ => st_select_first (by_id id)) in
  parse_optional_row row.

Definition turso_key_row (k : ApiKey) : AkRow string :=
  mkAkRow (ak_id k) (ak_user_id k) (ak_name k) (ak_prefix k) (ak_key_hash k) (scopes_to_json (ak_scopes k))
    (ak_rate_limit k) (ak_is_revoked k) None (rt_to_rfc3339 <$> ak_expires_at k) (rt_to_rfc3339 (ak_created_at k)).

Definition turso_ak_create (k : ApiKey) : U unit :=
  turso_ak_statement "Failed to create API key: " (fun _ => ak_insert unique_violation (turso_key_row k)).

Definition turso_ak_update_last_used (id : string) : U unit :=
  turso_ak_statement "Failed to update last_used_at: " (fun now => st_update_where (by_id id) (row_used now)) ;;
  ret tt.

Definition turso_ak_revoke (id : string) : U unit :=
  turso_ak_statement "Failed to revoke API key: " (fun _ => st_update_where (by_id id) row_revoked) ;;
  ret tt.

(** The loop over the rows. *)
Fixpoint parse_rows (rows : list (AkRow string)) : U (list ApiKey) :=
  match rows with
  | [] => ret []
  | row :: rows => let! api_key := parse_api_key_row row in let! keys := parse_rows rows in ret (api_key :: keys)
  end.

Definition turso_ak_list_by_user (user_id : string) : U (list ApiKey) :=
  let! rows := turso_ak_statement "Failed to list API keys: " (fun _ => st_select_desc text_lt (by_user user_id)) in
  parse_rows rows.

Definition turso_ak_delete (id : string) : U unit :=
  turso_ak_statement "Failed to delete API key: " (fun _ => st_delete_where (by_id id)) ;;
  ret tt.

#[global] Instance TursoApiKeyStorage : ApiKeyStorage (Table (AkRow string)) := {|
  aks_get_by_prefix := turso_ak_get_by_prefix;
  aks_get_by_id := turso_ak_get_by_id;
  aks_create := turso_ak_create;
  aks_update_last_used := turso_ak_update_last_used;
  aks_revoke := turso_ak_revoke;
  aks_list_by_user := turso_ak_list_by_user;
  aks_delete := turso_ak_delete;
|}.
End TursoApiKeys.
