(* ===== verification/ApiKeySafety.v ===== *)
(** * What API key storage guarantees

    On [ApiKeys]: a generated key can be looked up and authenticates, a revoked
    key stays revoked; both proved from the laws of the storage trait, which
    Redis, PostgreSQL and Turso discharge. *)

From stdpp Require Import countable.
From S2P Require Import Prelude FrameworkError AuditStorage Password Text RedisKv Backend RefreshTokens Base32 ApiKeys.

Local Open Scope string_scope.
Local Open Scope Z_scope.
Local Open Scope list_scope.

(** ** The text of a key *)

Lemma alphabet_char_in i : alphabet_char i ∈ "0"%char :: ALPHABET.
Proof.
  unfold alphabet_char. destruct (nth_in_or_default (Z.to_nat i) ALPHABET "0"%char) as [H| ->]; [|left].
  right. by apply list_elem_of_In.
Qed.

Lemma emit_alphabet fuel : ∀ buffer bits, Forall (.∈ "0"%char :: ALPHABET) (emit fuel buffer bits).1.
Proof.
  induction fuel as [|fuel IH]; intros buffer bits; cbn [emit]; [constructor|]. destruct (5 <=? bits); [|constructor].
  specialize (IH buffer (bits - 5)). destruct (emit fuel buffer (bits - 5)). constructor; [apply alphabet_char_in|done].
Qed.

Lemma encode_alphabet bs : ∀ buffer bits, Forall (.∈ "0"%char :: ALPHABET) (encode_bytes bs buffer bits).
Proof.
  induction bs as [|b bs IH]; intros buffer bits; cbn [encode_bytes].
  - destruct (0 <? bits); constructor; [apply alphabet_char_in|constructor].
  - pose proof (emit_alphabet (Z.to_nat (bits + 8)) (Z.lor (as_unsigned 64 (Z.shiftl buffer 8)) (Z_of_byte b)) (bits + 8)) as He.
    destruct (emit _ _ _) as [out rest]. apply Forall_app. by split.
Qed.

(** Every character of an encoding is a letter or digit. *)
Lemma base32_chars bs : str_forallb (fun c => char_start c && negb (Ascii.eqb c "_")) (base32_encode bs) = true.
Proof.
  unfold base32_encode. pose proof (encode_alphabet bs 0 0) as H.
  induction H as [|c cs Hc _ IH]; [done|]. cbn [String.string_of_list_ascii str_forallb]. rewrite IH, andb_true_r.
  revert c Hc. apply Forall_forall. by vm_compute; repeat constructor.
Qed.

Lemma rsplit_once_none c s : has_char c s = false → rsplit_once c s = None.
Proof.
  induction s as [|a s IH]; [done|]. rewrite has_char_cons. intros [Ha Hs]%orb_false_iff. cbn. by rewrite IH, Ha.
Qed.

Lemma rsplit_once_app c p r : has_char c r = false → rsplit_once c (p +:+ String c r) = Some (p, r).
Proof.
  intros Hr. induction p as [|a p IH].
  - change ("" +:+ String c r) with (String c r). cbn. by rewrite rsplit_once_none, Ascii.eqb_refl.
  - change (String a p +:+ String c r) with (String a (p +:+ String c r)). cbn. by rewrite IH.
Qed.

Lemma get_forallb f s : ∀ n c, str_forallb f s = true → String.get n s = Some c → f c = true.
Proof.
  induction s as [|a s IH]; intros n c Hf Hg; [done|]. cbn in Hf. apply andb_true_iff in Hf as [Ha Hs].
  destruct n as [|n]; cbn in Hg; [congruence|by eapply IH].
Qed.

Lemma get_none s : ∀ n, String.get n s = None → (String.length s ≤ n)%nat.
Proof.
  induction s as [|a s IH]; intros n; cbn; [lia|]. destruct n as [|n]; [done|]. intros H%IH. lia.
Qed.

Lemma substring_full s : String.substring 0 (String.length s) s = s.
Proof. induction s as [|a s IH]; [done|]. cbn. by rewrite IH. Qed.

Lemma slice_to_ok n s :
  (n ≤ String.length s)%nat → str_forallb char_start s = true → slice_to n s = Some (String.substring 0 n s).
Proof.
  intros Hn Hs. unfold slice_to. destruct (String.get n s) as [c|] eqn:E; [by rewrite (get_forallb _ _ _ _ Hs E)|].
  apply get_none in E. assert (n = String.length s) as -> by lia. by rewrite Nat.eqb_refl, substring_full.
Qed.

(** The lookup prefix of a key, as it is made from its parts. *)
Definition lookup_prefix (prefix : string) (random_bytes : bytes) : string :=
  prefix +:+ "_" +:+ String.substring 0 8 (base32_encode random_bytes).

Lemma generated_lookup prefix random_bytes :
  (5 ≤ length random_bytes)%nat →
  key_prefix_for_lookup (prefix +:+ "_" +:+ base32_encode random_bytes) =
    Returned (Some (lookup_prefix prefix random_bytes)).
Proof.
  intros Hl. pose proof (base32_chars random_bytes) as Hc.
  assert (has_char "_" (base32_encode random_bytes) = false) as Hu.
  { unfold has_char. apply negb_false_iff. eapply str_forallb_impl, Hc. intros c [_ ?]%andb_true_iff. done. }
  assert (str_forallb char_start (base32_encode random_bytes) = true) as Hs.
  { eapply str_forallb_impl, Hc. by intros c [? _]%andb_true_iff. }
  assert (8 ≤ String.length (base32_encode random_bytes))%nat as H8.
  { destruct (encode_correct random_bytes 0 0 0 ltac:(lia)) as [Hlen _]. cbn zeta in Hlen.
    assert (String.length (base32_encode random_bytes) = length (encode_bytes random_bytes 0 0)) as ->
      by apply base32_length.
    assert (8 ≤ (0 + 8 * Z.of_nat (length random_bytes) + 4) / 5); [|lia]. apply Z.div_le_lower_bound; lia. }
  unfold key_prefix_for_lookup. change ("_" +:+ base32_encode random_bytes) with (String "_" (base32_encode random_bytes)).
  rewrite rsplit_once_app by done. rewrite (proj2 (Nat.leb_le _ _) H8), slice_to_ok by done. done.
Qed.

(** ** What the trait promises *)

(** Everything that is done with a storage. *)
Inductive AkOp :=
| AkGetByPrefix (prefix : string)
| AkGetById (id : string)
| AkCreate (k : ApiKey)
| AkUpdateLastUsed (id : string)
| AkRevoke (id : string)
| AkListByUser (user_id : string)
| AkDelete (id : string).

Definition ak_run {S} `{!ApiKeyStorage S} (op : AkOp) : M (BkWorld S) Error unit :=
  match op with
  | AkGetByPrefix p => ignore (aks_get_by_prefix p)
  | AkGetById id => ignore (aks_get_by_id id)
  | AkCreate k => aks_create k
  | AkUpdateLastUsed id => aks_update_last_used id
  | AkRevoke id => aks_revoke id
  | AkListByUser u => ignore (aks_list_by_user u)
  | AkDelete id => aks_delete id
  end.

Definition ak_run_all {S} `{!ApiKeyStorage S} (ops : list AkOp) (w : BkWorld S) : BkWorld S :=
  fold_left (fun w op => (ak_run op w).2) ops w.

Definition ak_creates (op : AkOp) : option string := match op with AkCreate k => Some (ak_id k) | _ => None end.

(** The contract: well-formed contents, revoked ids, and free prefixes. *)
Class ApiKeyLaws (S : Type) `{!ApiKeyStorage S} := {
  akl_wf : BkWorld S → Prop;
  akl_dead : string → BkWorld S → Prop;
  akl_free : string → BkWorld S → Prop;
  akl_wf_kept op w : akl_wf w → akl_wf (ak_run op w).2;
  akl_dead_kept op id w : ak_creates op ≠ Some id → akl_wf w → akl_dead id w → akl_dead id (ak_run op w).2;
  akl_dead_revoke id w w' : akl_wf w → aks_revoke id w = (Ok tt, w') → akl_dead id w';
  akl_dead_get p w k w' : akl_wf w → akl_dead (ak_id k) w → aks_get_by_prefix p w = (Ok (Some k), w') →
    ak_is_revoked k = true;
  akl_created k w w1 r w2 : akl_wf w → akl_free (ak_prefix k) w →
    aks_create k w = (Ok tt, w1) → aks_get_by_prefix (ak_prefix k) w1 = (Ok r, w2) →
    ∃ k', r = Some k' ∧ ak_id k' = ak_id k ∧ ak_user_id k' = ak_user_id k ∧ ak_key_hash k' = ak_key_hash k ∧
      ak_is_revoked k' = ak_is_revoked k;
}.

Section Trait.
Context `{Argon2Env} `{!Argon2Laws} {S : Type} `{!ApiKeyStorage S} `{!ApiKeyLaws S}.

Lemma wf_run_all ops : ∀ w, akl_wf w → akl_wf (ak_run_all ops w).
Proof.
  induction ops as [|op ops IH]; intros w Hw; [done|]. cbn. apply IH. by apply akl_wf_kept.
Qed.

Lemma ak_dead_run_all id ops : ∀ w,
  (∀ op, op ∈ ops → ak_creates op ≠ Some id) → akl_wf w → akl_dead id w → akl_dead id (ak_run_all ops w).
Proof.
  induction ops as [|op ops IH]; intros w Hops Hwf Hw; [done|]. cbn. apply IH.
  - intros op' Hin. apply Hops. by right.
  - by apply akl_wf_kept.
  - apply akl_dead_kept; [apply Hops; left|done..].
Qed.

(** A key is returned only to who presents a key that its stored hash
    verifies. *)
Lemma get_by_key_verified key (w : BkWorld S) k w' :
  get_by_key key w = (Ok (Returned (Some k)), w') →
  ∃ p w1, aks_get_by_prefix p w = (Ok (Some k), w1) ∧ verify key (ak_key_hash k) = Ok true.
Proof.
  unfold get_by_key. destruct (key_prefix_for_lookup key) as [[p|]|]; [|done..].
  intros (o & w1 & Hg & Hk)%bind_Ok. destruct o as [k'|]; [|by injection Hk].
  apply bind_Ok in Hk as (b & w2 & Hl & Hr). injection Hl as Hl _. destruct b; [|by injection Hr].
  injection Hr as -> _. by exists p, w1.
Qed.

(** A generated API key authenticates: stored under its lookup prefix with
    its hash, it is found again by whoever presents it, as the same key of the
    same user, in every backend and with whatever other keys are stored, as long
    as that prefix was free. Looking it up neither panics nor is refused. *)
Theorem issued_key_authenticates (self : ApiKeyGenerator) random_bytes salt key h k w w1 r w2 :
  length random_bytes = 24%nat → generate self random_bytes salt = Returned (key, h) →
  ak_key_hash k = h → ak_prefix k = lookup_prefix (akg_prefix self) random_bytes →
  akl_wf w → akl_free (ak_prefix k) w → aks_create k w = (Ok tt, w1) → get_by_key key w1 = (Ok r, w2) →
  ∃ k', r = Returned (Some k') ∧ ak_id k' = ak_id k ∧ ak_user_id k' = ak_user_id k ∧
    ak_is_revoked k' = ak_is_revoked k.
Proof.
  intros Hl Hg Hh Hp Hwf Hfree Hc Hk. unfold generate in Hg.
  destruct (hash _ salt _) as [h'|] eqn:Eh; [|done]. injection Hg as <- ->.
  unfold get_by_key in Hk. rewrite generated_lookup, <-Hp in Hk by lia.
  apply bind_Ok in Hk as (o & w3 & Hget & Hk).
  destruct (akl_created k w w1 o w3 Hwf Hfree Hc Hget) as (k' & -> & Hid & Hu & Hkh & Hrev).
  rewrite Hkh, Hh, (verify_hash _ _ _ _ Eh) in Hk. injection Hk as <- _. by exists k'.
Qed.

(** From a well-formed storage: once a key was revoked, no lookup returns it as
    valid at any time, whatever is done with the storage in between short of
    creating a key with that id. *)
Definition ak_revocation_final (wf : BkWorld S → Prop) : Prop := ∀ id w w1 ops key k w2 now,
  wf w → aks_revoke id w = (Ok tt, w1) → (∀ op, op ∈ ops → ak_creates op ≠ Some id) →
  get_by_key key (ak_run_all ops w1) = (Ok (Returned (Some k)), w2) → ak_id k = id → is_valid now k = false.

Lemma laws_ak_revocation_final : ak_revocation_final akl_wf.
Proof.
  intros id w w1 ops key k w2 now Hwf Hr Hops Hg <-. apply get_by_key_verified in Hg as (p & w3 & Hg & _).
  pose proof (akl_wf_kept (AkRevoke (ak_id k)) w Hwf) as Hwf1. cbn in Hwf1. rewrite Hr in Hwf1.
  pose proof (akl_dead_revoke _ _ _ Hwf Hr) as Hd. apply (ak_dead_run_all _ ops) in Hd; [|done..].
  apply (wf_run_all ops) in Hwf1. unfold is_valid. by rewrite (akl_dead_get p _ k w3 Hwf1 Hd Hg).
Qed.
End Trait.

(** ** SQL tables *)

Section Table.
Context {X : Type}.
Implicit Types rows : list (AkRow X).

Definition rows_revoked (id : string) rows : Prop := ∀ r, r ∈ rows → akr_id r = id → akr_is_revoked r = true.

Lemma update_revoked id (P : AkRow X → bool) f rows n rows' :
  (∀ r, akr_id (f r) = akr_id r) → (∀ r, akr_is_revoked r = true → akr_is_revoked (f r) = true) →
  st_update_where P f rows = Ok (n, rows') → rows_revoked id rows → rows_revoked id rows'.
Proof.
  intros Hi Hr [= _ <-] Hd r (r0 & -> & Hr0)%list_elem_of_fmap Hid.
  destruct (P r0); [|by apply Hd]. rewrite Hi in Hid. by apply Hr, Hd.
Qed.

Lemma revoke_by_id id rows n rows' :
  st_update_where (by_id id) row_revoked rows = Ok (n, rows') → rows_revoked id rows'.
Proof.
  intros [= _ <-] r (r0 & -> & Hr0)%list_elem_of_fmap. destruct (by_id id r0) eqn:E; [done|]. intros Hid. exfalso.
  unfold by_id in E. by apply String.eqb_neq in E.
Qed.

Lemma ak_insert_revoked msg id row rows a rows' :
  ak_insert msg row rows = Ok (a, rows') → akr_id row ≠ id → rows_revoked id rows → rows_revoked id rows'.
Proof.
  unfold ak_insert. destruct (bool_decide _); [done|]. intros [= _ <-] Hne Hd r.
  intros [Hr| ->%list_elem_of_singleton]%elem_of_app; [by apply Hd|done].
Qed.

Lemma ak_delete_revoked id (P : AkRow X → bool) rows n rows' :
  st_delete_where P rows = Ok (n, rows') → rows_revoked id rows → rows_revoked id rows'.
Proof.
  intros [= _ <-] Hd r Hr. apply Hd. rewrite list_elem_of_In in *. by apply filter_In in Hr as [Hr _].
Qed.

(** The first row of a prefix that was free is the one just inserted. *)
Definition prefix_free (p : string) rows : Prop := List.find (by_prefix p) rows = None.

Lemma find_inserted msg row rows rows' :
  ak_insert msg row rows = Ok (tt, rows') → prefix_free (akr_key_prefix row) rows →
  List.find (by_prefix (akr_key_prefix row)) rows' = Some row.
Proof.
  unfold ak_insert, prefix_free. destruct (bool_decide _); [done|]. intros [= <-].
  induction rows as [|r rows IH]; cbn; [by unfold by_prefix; rewrite String.eqb_refl|].
  destruct (by_prefix _ r); [done|]. exact IH.
Qed.

Lemma wkeeps_select_desc `{ClockEnv} (I : list (AkRow X) → Prop) {Y} (stamp : Z → Y) what before P :
  wkeeps I (sql_statement stamp what (fun _ => st_select_desc before P)).
Proof. apply wkeeps_statement. by intros now rows a rows' [= _ <-]. Qed.
End Table.

(** The statements the two SQL backends share. *)
Section Statements.
Context `{ClockEnv} {X Y : Type} (stamp : Z → Y).
Abbreviation W := (BkWorld (Table (AkRow X))).

Lemma revoke_statement what id (w w' : W) n :
  sql_statement stamp what (fun _ => st_update_where (by_id id) row_revoked) w = (Ok n, w') → winv (rows_revoked id) w'.
Proof. intros [[_ ?]|(a & E & _)]%statement_inv; [done|]. by eapply revoke_by_id. Qed.

Lemma find_statement what (P : AkRow X → bool) (w w' : W) o :
  sql_statement stamp what (fun _ => st_select_first P) w = (Ok o, w') →
  o = List.find P (tb_rows (bk_store w)).
Proof. intros [[_ ?]|(a & [= <- _] & Ha)]%statement_inv; [done|]. by apply Ha. Qed.

Lemma insert_statement what msg row (w w' : W) :
  sql_statement stamp what (fun _ => ak_insert msg row) w = (Ok tt, w') → winv (prefix_free (akr_key_prefix row)) w →
  List.find (by_prefix (akr_key_prefix row)) (tb_rows (bk_store w')) = Some row.
Proof. intros [[_ ?]|([] & E & Ha)]%statement_inv Hf; [done|]. by eapply find_inserted. Qed.

Lemma revoked_found id P rows (r : AkRow X) : rows_revoked id rows → List.find P rows = Some r → akr_id r = id → akr_is_revoked r = true.
Proof. intros Hd [Hin _]%find_some. apply Hd. by apply list_elem_of_In. Qed.

Lemma keeps_revoked_update what id (P : AkRow X → bool) (f : Y → AkRow X → AkRow X) :
  (∀ now r, akr_id (f now r) = akr_id r) → (∀ now r, akr_is_revoked r = true → akr_is_revoked (f now r) = true) →
  wkeeps (rows_revoked id) (bind (sql_statement stamp what (fun now => st_update_where P (f now))) (fun _ => ret tt)).
Proof.
  intros Hi Hr. apply wkeeps_bind; [|intros; apply wkeeps_ret]. apply wkeeps_statement. intros now rows a rows'.
  apply update_revoked; auto.
Qed.

Lemma keeps_revoked_insert what msg id (row : AkRow X) :
  akr_id row ≠ id → wkeeps (rows_revoked id) (sql_statement stamp what (fun _ => ak_insert msg row)).
Proof. intros Hne. apply wkeeps_statement. intros now rows a rows' Hs. by eapply ak_insert_revoked. Qed.

Lemma keeps_revoked_delete what id (P : AkRow X → bool) :
  wkeeps (rows_revoked id) (bind (sql_statement stamp what (fun _ => st_delete_where P)) (fun _ => ret tt)).
Proof.
  apply wkeeps_bind; [|intros; apply wkeeps_ret]. apply wkeeps_statement. intros now rows a rows' Hs. by eapply ak_delete_revoked.
Qed.
End Statements.

Section Pg.
Context `{ClockEnv, ApiKeyEnv, PgEnv, RefreshEnv}.

#[global] Instance PgApiKey_Laws : ApiKeyLaws (Table (AkRow Z)).
Proof.
  refine {| akl_wf _ := True; akl_dead id := winv (rows_revoked id); akl_free p := winv (prefix_free p) |}; cbn.
  - done.
  - intros op id w Hc _. revert w. destruct op as [p|i|k|i|i|u|i]; cbn in *.
    + apply wkeeps_ignore, wkeeps_bind; [apply wkeeps_select|intros; apply wkeeps_ret].
    + apply wkeeps_ignore, wkeeps_bind; [apply wkeeps_select|intros; apply wkeeps_ret].
    + apply keeps_revoked_insert. cbn. congruence.
    + by apply keeps_revoked_update.
    + by apply (keeps_revoked_update pg_timestamptz _ id (by_id i) (fun _ => row_revoked)).
    + apply wkeeps_ignore, wkeeps_bind; [apply wkeeps_select_desc|intros; apply wkeeps_ret].
    + apply keeps_revoked_delete.
  - intros id w w' _ (n & w1 & Hs & [= <-])%bind_Ok. by eapply revoke_statement.
  - intros p w k w' _ Hd (o & w1 & Hs & Hr)%bind_Ok. apply find_statement in Hs as ->. injection Hr as Hr _.
    destruct (List.find _ _) as [r|] eqn:Ef; [|done]. injection Hr as <-. by eapply revoked_found.
  - intros k w w1 r w2 _ Hf Hc (o & w3 & Hs & Hr)%bind_Ok.
    apply find_statement in Hs as ->. apply (insert_statement _ _ _ (pg_key_row k)) in Hc; [|exact Hf].
    cbn in Hc. rewrite Hc in Hr. injection Hr as <- _. eexists. split; [done|]. done.
Defined.
End Pg.

Section Turso.
Context `{ClockEnv, ApiKeyEnv, RefreshEnv}.

Lemma wkeeps_parse_row (I : list (AkRow string) → Prop) row : wkeeps I (parse_api_key_row row).
Proof.
  apply wkeeps_bind; [|intros; apply wkeeps_ret]. destruct (rt_parse_rfc3339 _); [apply wkeeps_ret|apply wkeeps_now].
Qed.

Lemma wkeeps_parse_optional (I : list (AkRow string) → Prop) row : wkeeps I (parse_optional_row row).
Proof.
  destruct row; [|apply wkeeps_ret]. apply wkeeps_bind; [apply wkeeps_parse_row|intros; apply wkeeps_ret].
Qed.

Lemma wkeeps_parse_rows (I : list (AkRow string) → Prop) rows : wkeeps I (parse_rows rows).
Proof.
  induction rows as [|row rows IH]; cbn; [apply wkeeps_ret|]. apply wkeeps_bind; [apply wkeeps_parse_row|]. intros k.
  apply wkeeps_bind; [done|intros; apply wkeeps_ret].
Qed.

Lemma parse_row_inv row w k w' :
  parse_api_key_row row w = (Ok k, w') → ak_id k = akr_id row ∧ ak_user_id k = akr_user_id row ∧
    ak_key_hash k = akr_key_hash row ∧ ak_is_revoked k = akr_is_revoked row.
Proof. by intros (t & w1 & _ & [= <- _])%bind_Ok. Qed.

#[global] Instance TursoApiKey_Laws : ApiKeyLaws (Table (AkRow string)).
Proof.
  refine {| akl_wf _ := True; akl_dead id := winv (rows_revoked id); akl_free p := winv (prefix_free p) |}; cbn.
  - done.
  - intros op id w Hc _. revert w. destruct op as [p|i|k|i|i|u|i]; cbn in *.
    + apply wkeeps_ignore, wkeeps_bind; [apply wkeeps_select|intros; apply wkeeps_parse_optional].
    + apply wkeeps_ignore, wkeeps_bind; [apply wkeeps_select|intros; apply wkeeps_parse_optional].
    + apply keeps_revoked_insert. cbn. congruence.
    + by apply keeps_revoked_update.
    + by apply (keeps_revoked_update sqlite_datetime _ id (by_id i) (fun _ => row_revoked)).
    + apply wkeeps_ignore, wkeeps_bind; [apply wkeeps_select_desc|intros; apply wkeeps_parse_rows].
    + apply keeps_revoked_delete.
  - intros id w w' _ (n & w1 & Hs & [= <-])%bind_Ok. by eapply revoke_statement.
  - intros p w k w' _ Hd (o & w1 & Hs & Hr)%bind_Ok. apply find_statement in Hs as ->.
    destruct (List.find _ _) as [r|] eqn:Ef; [|done].
    apply bind_Ok in Hr as (k' & w3 & Hp & [= <- _]). apply parse_row_inv in Hp as (Hid & _ & _ & ->).
    by eapply revoked_found.
  - intros k w w1 r w2 _ Hf Hc (o & w3 & Hs & Hr)%bind_Ok.
    apply find_statement in Hs as ->. apply (insert_statement _ _ _ (turso_key_row k)) in Hc; [|exact Hf].
    cbn in Hc. rewrite Hc in Hr. apply bind_Ok in Hr as (k' & w4 & Hp & [= <- _]). exists k'.
    split; [done|]. by apply parse_row_inv in Hp.
Defined.
End Turso.

(** ** Redis *)

Section Redis.
Context `{ClockEnv} `{!ClockLaws} `{ApiKeyEnv} `{!ApiKeyEnvLaws} {R : Type} `{!RedisKv R} `{!RedisKvLaws R}.
Abbreviation W := (BkWorld R).

(** The record under an id's key is of that id. *)
Definition filed (k v : string) : Prop := ∀ id key, k = id_key id → key_from_json v = Ok key → ak_id key = id.

Definition dead_key (id k v : string) : Prop := k = id_key id → ∀ key, key_from_json v = Ok key → ak_is_revoked key = true.

Lemma id_key_inj i j : id_key i = id_key j → i = j.
Proof. unfold id_key. by intros E%string_app_inj_l%string_app_inj_l. Qed.

Lemma id_prefix_key i p : id_key i ≠ prefix_key p.
Proof. unfold id_key, prefix_key. by intros E%string_app_inj_l. Qed.

Lemma id_user_key i u : id_key i ≠ ak_user_key u.
Proof. unfold id_key, ak_user_key. by intros E%string_app_inj_l. Qed.

Lemma prefix_user_key p u : prefix_key p ≠ ak_user_key u.
Proof. unfold prefix_key, ak_user_key. by intros E%string_app_inj_l. Qed.

Lemma redis_get_by_id_keeps Q i : kkeeps Q (redis_get_by_id (R := R) i).
Proof.
  apply kkeeps_bind; [apply kkeeps_connection|]. intros _. apply kkeeps_bind; [by apply kkeeps_cmd|].
  intros [|[j|]|ms]; try apply kkeeps_ret. apply kkeeps_bind; [apply kkeeps_lift|]. intros k. apply kkeeps_ret.
Qed.

(** What a lookup by id returns was stored under that id's key, and nothing
    found means nothing there. *)
Lemma redis_get_by_id_reads Q i (w : W) o w' :
  redis_get_by_id i w = (Ok o, w') → kinv Q w →
  match o with
  | Some k => ∃ v, Q (id_key i) v ∧ key_from_json v = Ok k
  | None => ∀ v dl, sees w' (id_key i) ≠ Some (VStr v, dl)
  end.
Proof.
  intros ([] & w1 & Hc & Hk)%bind_Ok Hq. apply bind_Ok in Hk as (reply & w2 & Hg & Hk).
  pose proof (kkeeps_connection _ w Hq) as Hq1. rewrite Hc in Hq1.
  apply get_inv in Hg as [_ Hg]. destruct reply as [|[j|]|ms].
  2: { apply bind_Ok in Hk as (k & w3 & Hl & [= <- _]). destruct Hg as [dl Hg]. injection Hl as Hl _. inv_result.
       exists j. split; [by eapply Hq1|done]. }
  all: by injection Hk as <- <-.
Qed.

Lemma redis_put_keeps Q what i k : Q (id_key i) (key_to_json k) → kkeeps Q (redis_put (R := R) what i k).
Proof.
  intros Hq. apply kkeeps_bind; [apply kkeeps_connection|]. intros _. apply kkeeps_bind; [by apply kkeeps_cmd|].
  intros _. apply kkeeps_ret.
Qed.

(** A read-modify-write keeps what the modification keeps. *)
Lemma redis_modify_keeps Q i (f : ApiKey → M W Error unit) :
  (∀ v k, Q (id_key i) v → key_from_json v = Ok k → kkeeps Q (f k)) →
  kkeeps Q (bind (redis_get_by_id i) (fun found => match found with Some k => f k | None => ret tt end)).
Proof.
  intros Hf w Hw. pose proof (redis_get_by_id_keeps Q i w Hw) as Hw1. unfold bind.
  destruct (redis_get_by_id i w) as [[[k|]|e] w1] eqn:E; [|done..].
  destruct (redis_get_by_id_reads Q i w (Some k) w1 E Hw) as (v & Hv & Hk). by eapply Hf.
Qed.

Lemma redis_get_all_keeps Q ids : kkeeps Q (redis_get_all (R := R) ids).
Proof.
  induction ids as [|i ids IH]; cbn; [apply kkeeps_ret|]. apply kkeeps_bind; [apply redis_get_by_id_keeps|].
  intros o. apply kkeeps_bind; [done|]. intros ks. apply kkeeps_ret.
Qed.

(** All operations keep a property of stored records that creation, use and
    revocation keep. *)
Lemma redis_run_keeps Q op :
  (∀ k, op = AkCreate k → Q (id_key (ak_id k)) (key_to_json k)) → (∀ p v, Q (prefix_key p) v) →
  (∀ i v k now, Q (id_key i) v → key_from_json v = Ok k → Q (id_key i) (key_to_json (set_last_used now k))) →
  (∀ i v k, Q (id_key i) v → key_from_json v = Ok k → Q (id_key i) (key_to_json (set_key_revoked k))) →
  kkeeps (R := R) Q (ak_run op).
Proof.
  intros Hc Hp Hu Hr. destruct op as [p|i|k|i|i|u|i]; cbn.
  - apply kkeeps_ignore, kkeeps_bind; [apply kkeeps_connection|]. intros _. apply kkeeps_bind; [by apply kkeeps_cmd|].
    intros [|[j|]|ms]; try apply kkeeps_ret. apply redis_get_by_id_keeps.
  - apply kkeeps_ignore, redis_get_by_id_keeps.
  - apply kkeeps_bind; [apply kkeeps_connection|]. intros _. apply kkeeps_bind; [apply kkeeps_cmd; by apply Hc|]. intros _.
    apply kkeeps_bind; [apply kkeeps_cmd; apply Hp|]. intros _. apply kkeeps_bind; [by apply kkeeps_cmd|]. intros _. apply kkeeps_ret.
  - apply redis_modify_keeps. intros v k Hv Hk. apply kkeeps_bind; [apply kkeeps_now|]. intros now.
    apply redis_put_keeps. by eapply Hu.
  - apply redis_modify_keeps. intros v k Hv Hk. apply redis_put_keeps. by eapply Hr.
  - apply kkeeps_ignore, kkeeps_bind; [apply kkeeps_connection|]. intros _. apply kkeeps_bind; [by apply kkeeps_cmd|].
    intros [| |ms]; [apply kkeeps_ret..|apply redis_get_all_keeps].
  - apply redis_modify_keeps. intros v k Hv Hk. apply kkeeps_bind; [apply kkeeps_connection|]. intros _.
    repeat (apply kkeeps_bind; [by apply kkeeps_cmd|intros _]). apply kkeeps_ret.
Qed.

Lemma redis_put_inv what i k (w w' : W) : redis_put what i k w = (Ok tt, w') → sees w' (id_key i) = Some (VStr (key_to_json k), None).
Proof. intros ([] & w1 & _ & (r & w2 & Hs & [= <-])%bind_Ok)%bind_Ok. by eapply set_inv. Qed.

(** After a successful creation both keys of the record are there. *)
Lemma redis_create_inv k (w w' : W) :
  redis_create k w = (Ok tt, w') →
  sees w' (id_key (ak_id k)) = Some (VStr (key_to_json k), None) ∧
  sees w' (prefix_key (ak_prefix k)) = Some (VStr (ak_id k), None).
Proof.
  intros ([] & w1 & _ & Hk)%bind_Ok. apply bind_Ok in Hk as (r1 & w2 & Hc1 & Hk). apply bind_Ok in Hk as (r2 & w3 & Hc2 & Hk).
  apply bind_Ok in Hk as (r3 & w4 & Hc3 & [= <-]). split.
  - eapply (cmd_keeps_entry _ _ _ _ _ _ _ Hc3); [intros E; by destruct (id_user_key _ _ E)|].
    eapply (cmd_keeps_entry _ _ _ _ _ _ _ Hc2); [intros E; by destruct (id_prefix_key _ _ E)|]. by eapply set_inv.
  - eapply (cmd_keeps_entry _ _ _ _ _ _ _ Hc3); [intros E; by destruct (prefix_user_key _ _ E)|]. by eapply set_inv.
Qed.

Lemma redis_prefix_reads p (w : W) k w' :
  redis_get_by_prefix p w = (Ok (Some k), w') → kinv filed w →
  ∀ Q, kinv Q w → ∃ v, Q (id_key (ak_id k)) v ∧ key_from_json v = Ok k.
Proof.
  intros ([] & w1 & Hc & Hk)%bind_Ok Hf Q Hq. apply bind_Ok in Hk as (reply & w2 & Hg & Hk).
  assert (∀ Q, kinv Q w → kinv Q w2) as Hkeep.
  { intros Q' H'. pose proof (kkeeps_connection _ w H') as Hq1. rewrite Hc in Hq1.
    pose proof (kkeeps_cmd Q' "Failed to get API key prefix: " (KGet (prefix_key p)) I w1 Hq1) as Hq2. by rewrite Hg in Hq2. }
  destruct reply as [|[i|]|ms]; try (by injection Hk).
  destruct (redis_get_by_id_reads filed i w2 (Some k) w' Hk (Hkeep _ Hf)) as (v & Hv & Hvk).
  pose proof (Hv i k eq_refl Hvk) as Hid. rewrite <-Hid in Hk.
  destruct (redis_get_by_id_reads Q (ak_id k) w2 (Some k) w' Hk (Hkeep _ Hq)) as (v' & ? & ?). by exists v'.
Qed.

(** A record that is there is found under its prefix. *)
Lemma redis_prefix_present k (w : W) r w' :
  sees w (id_key (ak_id k)) = Some (VStr (key_to_json k), None) →
  sees w (prefix_key (ak_prefix k)) = Some (VStr (ak_id k), None) →
  redis_get_by_prefix (ak_prefix k) w = (Ok r, w') → r = Some k.
Proof.
  intros Hi Hp ([] & w1 & Hc & Hk)%bind_Ok. apply bind_Ok in Hk as (reply & w2 & Hg & Hk).
  apply (connection_keeps_entry _ _ _ _ _ Hc) in Hi, Hp.
  destruct (get_present _ _ _ _ _ _ Hg Hp) as [-> Hkept]. apply Hkept in Hi. clear Hkept.
  apply bind_Ok in Hk as ([] & w3 & Hc2 & Hk). apply bind_Ok in Hk as (reply & w4 & Hg2 & Hk).
  apply (connection_keeps_entry _ _ _ _ _ Hc2) in Hi. destruct (get_present _ _ _ _ _ _ Hg2 Hi) as [-> _].
  apply bind_Ok in Hk as (k' & w5 & Hl & [= <- _]). injection Hl as Hl _. rewrite key_json_roundtrip in Hl. by injection Hl as ->.
Qed.

#[global] Instance RedisApiKey_Laws : ApiKeyLaws R.
Proof.
  refine {| akl_wf := kinv filed; akl_dead id := kinv (dead_key id); akl_free _ _ := True |}.
  - intros op. apply redis_run_keeps.
    + intros k -> id key E%id_key_inj. rewrite key_json_roundtrip. by intros [= <-].
    + by intros p v id key E%eq_sym%id_prefix_key.
    + intros i v k now Hv Hk id key E%id_key_inj. rewrite key_json_roundtrip. intros [= <-]. rewrite <-E. exact (Hv i k eq_refl Hk).
    + intros i v k Hv Hk id key E%id_key_inj. rewrite key_json_roundtrip. intros [= <-]. rewrite <-E. exact (Hv i k eq_refl Hk).
  - intros op id w Hc _. revert w. apply redis_run_keeps.
    + intros k -> E%id_key_inj. cbn in Hc. congruence.
    + by intros p v E%eq_sym%id_prefix_key.
    + intros i v k now Hv Hk E key. rewrite key_json_roundtrip. intros [= <-]. exact (Hv E k Hk).
    + intros i v k Hv Hk E key. rewrite key_json_roundtrip. by intros [= <-].
  - intros id w w' Hwf (o & w1 & Hg & Hk)%bind_Ok. pose proof (redis_get_by_id_reads filed id w o w1 Hg Hwf) as Hr.
    intros k v dl Hs -> key Hkey. destruct o as [k'|].
    + apply redis_put_inv in Hk. rewrite Hk in Hs. injection Hs as <- _. rewrite key_json_roundtrip in Hkey. by injection Hkey as <-.
    + injection Hk as <-. by apply Hr in Hs.
  - intros p w k w' Hwf Hd Hg. destruct (redis_prefix_reads p w k w' Hg Hwf _ Hd) as (v & Hv & Hk). by apply Hv.
  - intros k w w1 r w2 _ _ Hc Hg. apply redis_create_inv in Hc as [Hi Hp].
    rewrite (redis_prefix_present k w1 r w2 Hi Hp Hg). by exists k.
Defined.
End Redis.

(** ** Revocation in the backends *)

(** C15: In the PostgreSQL, Turso and Redis backends revoking an API key is final:
    once a revocation succeeded, no lookup returns the key as valid at any time,
    whatever other operations come in between, one at a time and each failing or
    not, short of creating a key with that id ([redis_create_again_revives]). In
    Redis the records have to be filed under their own ids, which every operation
    keeps; an operation that overlaps the revocation can undo it there
    ([redis_use_undoes_revocation]). *)
Theorem api_key_revocation_final `{ClockEnv} `{!ClockLaws} `{ApiKeyEnv} `{!ApiKeyEnvLaws} `{RefreshEnv, PgEnv, Argon2Env}
    {R : Type} `{!RedisKv R} `{!RedisKvLaws R} :
  ak_revocation_final (S := Table (AkRow Z)) (fun _ => True) ∧
  ak_revocation_final (S := Table (AkRow string)) (fun _ => True) ∧
  ak_revocation_final (S := R) (kinv filed) ∧
  (∀ (op : AkOp) (w : BkWorld R), kinv filed w → kinv filed (ak_run op w).2).
Proof.
  split; [exact (laws_ak_revocation_final (S := Table (AkRow Z)))|].
  split; [exact (laws_ak_revocation_final (S := Table (AkRow string)))|].
  split; [exact (laws_ak_revocation_final (S := R))|exact (akl_wf_kept (S := R))].
Qed.

(** ** Behaviour that looks unintended *)

(** Looking up a presented key panics when its ninth byte after the last
    underscore is inside a character. *)
Lemma lookup_panics : key_prefix_for_lookup "sk_live_1234567é" = Panicked.
Proof. vm_compute. reflexivity. Qed.

(** In Redis a use of the key that read the record before it was revoked and
    writes it back afterwards undoes the revocation. *)
Lemma redis_use_undoes_revocation `{ClockEnv} `{!ClockLaws} `{ApiKeyEnv} `{!ApiKeyEnvLaws} {R} `{!RedisKv R} `{!RedisKvLaws R}
    k (w w1 w2 w3 w4 : BkWorld R) what now r :
  redis_get_by_id (ak_id k) w = (Ok (Some k), w1) → ak_is_revoked k = false →
  redis_ak_revoke (ak_id k) w1 = (Ok tt, w2) →
  redis_put what (ak_id k) (set_last_used now k) w2 = (Ok tt, w3) →
  redis_get_by_id (ak_id k) w3 = (Ok r, w4) → r = Some (set_last_used now k) ∧ ak_is_revoked (set_last_used now k) = false.
Proof.
  intros _ Hk _ Hp%redis_put_inv ([] & w5 & Hc & Hg)%bind_Ok. split; [|done].
  apply (connection_keeps_entry _ _ _ _ _ Hc) in Hp. apply bind_Ok in Hg as (reply & w6 & Hg & Hr).
  destruct (get_present _ _ _ _ _ _ Hg Hp) as [-> _]. apply bind_Ok in Hr as (k' & w7 & Hl & [= <- _]).
  injection Hl as Hl _. rewrite key_json_roundtrip in Hl. by injection Hl as <-.
Qed.

(** ** Witnesses *)

Definition witness_key_text (k : ApiKey) : string :=
  pos_text (encode ((ak_id k, ak_user_id k, ak_name k, ak_prefix k, ak_key_hash k),
                    (ak_scopes k, ak_rate_limit k, ak_is_revoked k), (ak_last_used_at k, ak_expires_at k, ak_created_at k))).

Definition witness_key_of (s : string) : result ApiKey string :=
  match decode (A := (string * string * string * string * string) * (list string * option Z * bool) * (option Z * option Z * Z))
          (text_pos s) with
  | Some ((i, u, n, p, h), (sc, l, rv), (lu, e, c)) => Ok (mkApiKey i u n p h sc l rv lu e c)
  | None => Err "malformed"
  end.

#[local] Instance witness_ak_clock : ClockEnv := {| bk_clock n := Z.of_nat n * 1000000000 |}.

#[local] Instance witness_ak_clock_laws : ClockLaws.
Proof. split. intros i j Hij. cbn. lia. Qed.

#[local] Instance witness_ak_env : ApiKeyEnv := {|
  key_to_json := witness_key_text;
  key_from_json := witness_key_of;
  scopes_to_json _ := "[]";
  scopes_from_json _ := Ok [];
|}.

#[local] Instance witness_ak_laws : ApiKeyEnvLaws.
Proof. split. intros []. cbn. unfold witness_key_of, witness_key_text. cbn. rewrite text_pos_text. by rewrite decode_encode. Qed.

Definition witness_random : bytes := replicate 24 "A"%char.
Definition witness_ak_generator : ApiKeyGenerator := mkApiKeyGenerator "sk" witness_hasher.
Definition witness_ak_text : string := "sk_" +:+ base32_encode witness_random.
Definition witness_ak : ApiKey :=
  mkApiKey "k1" "u" "n" (lookup_prefix "sk" witness_random) (witness_ak_text +:+ "$") [] None false None None 0.
Definition witness_ak_empty : BkWorld KvStore := mkBkWorld (mkKvStore ∅ []) 0.
Definition witness_ak_stored : BkWorld KvStore := (aks_create witness_ak witness_ak_empty).2.
Definition witness_ak_revoked : BkWorld KvStore := (aks_revoke "k1" witness_ak_stored).2.
Definition witness_ak_ops : list AkOp := [AkUpdateLastUsed "k1"; AkGetById "k1"; AkDelete "k2"].

Lemma witness_empty_filed : @akl_wf KvStore _ _ witness_ak_empty.
Proof. intros k v dl H. cbn in H. unfold sees in H. cbn in H. unfold kvs_see in H. cbn in H. by rewrite lookup_empty in H. Qed.

Lemma witness_ak_made :
  @generate witness_argon2 witness_ak_generator witness_random "salt" = Returned (witness_ak_text, witness_ak_text +:+ "$").
Proof. vm_compute. reflexivity. Qed.

Lemma issued_key_authenticates_witness :
  ∃ k', (@get_by_key witness_argon2 KvStore _ witness_ak_text witness_ak_stored).1 = Ok (Returned (Some k')) ∧ ak_id k' = "k1".
Proof.
  destruct (@get_by_key witness_argon2 KvStore _ witness_ak_text witness_ak_stored) as [r w2] eqn:E.
  destruct r as [r|e]; [|vm_compute in E; discriminate E].
  destruct (@issued_key_authenticates witness_argon2 witness_argon2_laws KvStore _ _ witness_ak_generator witness_random "salt"
    witness_ak_text (witness_ak_text +:+ "$") witness_ak witness_ak_empty witness_ak_stored r w2) as (k' & -> & Hid & _).
  - reflexivity.
  - exact witness_ak_made.
  - reflexivity.
  - reflexivity.
  - exact witness_empty_filed.
  - exact I.
  - refine (eq_trans (surjective_pairing _) (f_equal2 pair _ eq_refl)). vm_compute. reflexivity.
  - exact E.
  - exists k'. split; [reflexivity|exact Hid].
Defined.

#[local] Instance witness_ak_pg : PgEnv := {| pg_timestamptz t := t; pg_jsonb j := j; pg_constraint_msg := "" |}.

#[local] Instance witness_ak_refresh : RefreshEnv := {|
  data_to_json _ := "{}";
  data_from_json _ := Err "malformed";
  metadata_to_json _ := "{}";
  metadata_from_json _ := Err "malformed";
  rt_to_rfc3339 _ := "2026-01-01T00:00:00+00:00";
  rt_parse_rfc3339 _ := None;
  sqlite_datetime _ := "2026-01-01 00:00:00";
  unique_violation := "duplicate key";
|}.

Lemma api_key_revocation_final_witness :
  ∃ k, (@get_by_key witness_argon2 KvStore _ witness_ak_text (ak_run_all witness_ak_ops witness_ak_revoked)).1 =
         Ok (Returned (Some k)) ∧ is_valid 0 k = false.
Proof.
  destruct (@get_by_key witness_argon2 KvStore _ witness_ak_text (ak_run_all witness_ak_ops witness_ak_revoked)) as [r w2] eqn:E.
  destruct r as [[[k|]|]|e].
  2-4: vm_compute in E; discriminate E.
  exists k. split; [reflexivity|].
  refine (proj1 (proj2 (proj2 (@api_key_revocation_final _ _ _ _ witness_ak_refresh witness_ak_pg witness_argon2 KvStore _ _)))
    "k1" witness_ak_stored witness_ak_revoked witness_ak_ops
    witness_ak_text k w2 0 _ _ _ E _).
  - exact (akl_wf_kept (S := KvStore) (AkCreate witness_ak) _ witness_empty_filed).
  - refine (eq_trans (surjective_pairing _) (f_equal2 pair _ eq_refl)). vm_compute. reflexivity.
  - intros op Hop. unfold witness_ak_ops in Hop. set_unfold in Hop. destruct_or! Hop; subst; discriminate.
  - vm_compute in E. injection E as <- _. reflexivity.
Defined.

(** In Redis creating a key is a SET: creating one with the id of a revoked key
    makes that id valid again. *)
Lemma redis_create_again_revives :
  (ak_is_revoked <$> match (aks_get_by_id "k1" witness_ak_revoked).1 with Ok o => o | Err _ => None end) = Some true ∧
  (ak_is_revoked <$> match (aks_get_by_id "k1" (ak_run (AkCreate witness_ak) witness_ak_revoked).2).1 with Ok o => o | Err _ => None end)
    = Some false.
Proof. split; vm_compute; reflexivity. Qed.
