(* ===== verification/Governor.v ===== *)
(** * In-process rate limiting

    [GovernorRateLimit] of [src/acton-service/src/middleware/governor.rs]: one
    limiter of the [governor] crate per key, made when the key is first seen.
    A limiter is a parameter: it is made from a replenishment period and a
    burst size and asked once per request. Proved without any assumption about
    it: every key is served as by a limiter of its own, and requests of other
    keys do not matter. *)

From stdpp Require Import pretty.
From S2P Require Import Prelude Text FrameworkError AuditEvent Http RouteMatcher RateLimit.

Local Open Scope string_scope.
Local Open Scope Z_scope.
Local Open Scope list_scope.

Class LimiterEnv := {
  Limiter : Type;
  (** [RateLimiter::direct] of a period in milliseconds, not 0, and a burst. *)
  limiter_new : Z → Z → Limiter;
  (** [check] at a time: whether the request may pass. *)
  limiter_check : Z → Limiter → bool * Limiter;
}.

Record GovernorRateLimitResult := mkGovernorResult {
  gr_limit : Z;
  gr_remaining : Z;
  gr_reset_secs : Z;
}.

(** A request refused, or a panic of the layer. *)
Inductive GovernorError := GovErr (e : Error) | GovPanic.

Section Governor.
Context `{LimiterEnv, RegexEnv, HttpEnv}.
Local Open Scope monad_scope.

(** The two maps; the configuration and patterns are those of [RateLimit]. *)
Record GovernorState := mkGovernorState {
  gv_route_limiters : gmap string Limiter;
  gv_global_limiters : gmap string Limiter;
  gv_audit : list (AuditEventKind * AuditSeverity * AuditSource);
}.

Definition governor_new (config : RateLimitConfig) : RateLimit * GovernorState :=
  (rate_limit_new config, mkGovernorState ∅ ∅ []).

(** [Quota::with_period] has no quota for the period 0, and [expect] panics. *)
Definition create_limiter (requests_per_minute burst_size : Z) : option Limiter :=
  let replenish_interval_ms := 60000 / Z.max requests_per_minute 1 in
  if replenish_interval_ms =? 0 then None
  else Some (limiter_new replenish_interval_ms (Z.max burst_size 1)).

(** Which map and key a request counts under, and the limit and burst asked for. *)
Definition governor_key (self : RateLimit) (method path : string) (claims : option Claims) (client_ip : option string)
    : (bool * string) * (Z * Z) :=
  let normalized_path := normalize_path path in
  match match_route (rl_route_patterns self) method normalized_path with
  | Some route_config =>
      let key := if rrl_per_user route_config then
                   match claims, client_ip with
                   | Some claims, _ => "route:" +:+ normalized_path +:+ ":user:" +:+ cl_sub claims
                   | None, Some ip => "route:" +:+ normalized_path +:+ ":ip:" +:+ ip
                   | None, None => "route:" +:+ normalized_path +:+ ":ip:unknown"
                   end
                 else "route:" +:+ normalized_path +:+ ":global" in
      ((true, key), (rrl_requests_per_minute route_config, rrl_burst_size route_config))
  | None =>
      let '(key, limit) :=
        match claims with
        | Some claims =>
            if is_user claims then ("governor:user:" +:+ cl_sub claims, rl_per_user_rpm (rl_config self))
            else if is_client claims then ("governor:client:" +:+ cl_sub claims, rl_per_client_rpm (rl_config self))
            else ("governor:unknown:" +:+ cl_sub claims, rl_per_user_rpm (rl_config self))
        | None => (match client_ip with Some ip => "governor:ip:" +:+ ip | None => "governor:ip:unknown" end,
                   rl_per_user_rpm (rl_config self))
        end in
      ((false, key), (limit, Z.max (limit / 10) 1))
  end.

Definition limiters_of (s : GovernorState) (route : bool) : gmap string Limiter :=
  if route then gv_route_limiters s else gv_global_limiters s.

Definition set_limiter (s : GovernorState) (k : bool * string) (l : Limiter) : GovernorState :=
  if k.1 then mkGovernorState (<[k.2 := l]> (gv_route_limiters s)) (gv_global_limiters s) (gv_audit s)
  else mkGovernorState (gv_route_limiters s) (<[k.2 := l]> (gv_global_limiters s)) (gv_audit s).

(** At a time of the limiter's clock. *)
Definition check_with_limiter (now : Z) (k : bool * string) (requests_per_minute burst_size : Z)
    : M GovernorState GovernorError GovernorRateLimitResult := fun s =>
  match (match limiters_of s k.1 !! k.2 with
         | Some limiter => Some limiter
         | None => create_limiter requests_per_minute burst_size
         end) with
  | None => (Err GovPanic, s)
  | Some limiter =>
      let '(ok, limiter) := limiter_check now limiter in
      (if (ok : bool) then Ok (mkGovernorResult requests_per_minute (Z.max 0 (requests_per_minute - 1)) 60)
       else Err (GovErr Error_RateLimitExceeded), set_limiter s k limiter)
  end.

Definition check_rate_limit (self : RateLimit) (now : Z) (method path : string) (claims : option Claims)
    (client_ip : option string) : M GovernorState GovernorError GovernorRateLimitResult :=
  let '(k, (limit, burst)) := governor_key self method path claims client_ip in
  check_with_limiter now k limit burst.

Definition governor_log (audit : bool) (source : AuditSource) : M GovernorState GovernorError unit := fun s =>
  (Ok tt, mkGovernorState (gv_route_limiters s) (gv_global_limiters s)
            (if audit then gv_audit s ++ [(HttpRequestDenied, SevWarning, source)] else gv_audit s)).

Definition governor_client_ip (self : RateLimit) (r : Request) : option string :=
  extract_client_ip (req_headers r) (connect_info_remote_addr r) (rl_trust_forwarded_headers (rl_config self)).

(** [GovernorRateLimit::middleware] up to [next.run(request)]; [original_uri] is
    what axum records for nested routers. *)
Definition governor_middleware (self : RateLimit) (now : Z) (audit : bool) (original_uri : option string) (r : Request)
    : M GovernorState GovernorError GovernorRateLimitResult :=
  let base := audit_source_for_request r in
  let source := mkAuditSource (src_ip base) (src_user_agent base) (cl_sub <$> req_claims r) (src_request_id base) in
  let! result := attempt (check_rate_limit self now (req_method r) (default (req_path r) original_uri) (req_claims r)
                            (governor_client_ip self r)) in
  match result with
  | Ok result => ret result
  | Err e =>
      match e with GovErr Error_RateLimitExceeded => governor_log audit source | _ => ret tt end ;;
      fail e
  end.

(** [cleanup_stale_limiters]: drops entries, in the map's order, until
    [max_entries] are left. *)
Definition shrink (max_entries : nat) (limiters : gmap string Limiter) : gmap string Limiter :=
  foldr delete limiters (map fst (take (size limiters - max_entries) (map_to_list limiters))).

Definition cleanup_stale_limiters (max_entries : nat) (s : GovernorState) : GovernorState :=
  mkGovernorState (shrink max_entries (gv_route_limiters s)) (shrink max_entries (gv_global_limiters s)) (gv_audit s).

(** ** Keys do not interfere *)

(** A request at a time of the clock. *)
Record Arrival := mkArrival {
  av_now : Z;
  av_audit : bool;
  av_original_uri : option string;
  av_request : Request;
}.

Definition arrival_key (self : RateLimit) (a : Arrival) : (bool * string) * (Z * Z) :=
  governor_key self (req_method (av_request a)) (default (req_path (av_request a)) (av_original_uri a))
    (req_claims (av_request a)) (governor_client_ip self (av_request a)).

Fixpoint gov_run (self : RateLimit) (l : list Arrival) (s : GovernorState)
    : list (result GovernorRateLimitResult GovernorError) * GovernorState :=
  match l with
  | [] => ([], s)
  | a :: l =>
      let '(r, s) := governor_middleware self (av_now a) (av_audit a) (av_original_uri a) (av_request a) s in
      let '(rs, s) := gov_run self l s in
      (r :: rs, s)
  end.

(** The reference: one limiter, made for the first request. *)
Definition own_check (limiter : option Limiter) (now limit burst : Z)
    : result GovernorRateLimitResult GovernorError * option Limiter :=
  match match limiter with Some limiter => Some limiter | None => create_limiter limit burst end with
  | None => (Err GovPanic, None)
  | Some limiter =>
      let '(ok, limiter) := limiter_check now limiter in
      (if (ok : bool) then Ok (mkGovernorResult limit (Z.max 0 (limit - 1)) 60) else Err (GovErr Error_RateLimitExceeded),
       Some limiter)
  end.

Fixpoint own_run (limiter : option Limiter) (l : list (Z * (Z * Z))) : list (result GovernorRateLimitResult GovernorError) :=
  match l with
  | [] => []
  | (now, (limit, burst)) :: l =>
      let '(r, limiter) := own_check limiter now limit burst in
      r :: own_run limiter l
  end.

Lemma limiters_set s k l k' :
  limiters_of (set_limiter s k l) k'.1 !! k'.2 = if decide (k = k') then Some l else limiters_of s k'.1 !! k'.2.
Proof.
  destruct (decide (k = k')) as [<-|Hn]; destruct k as [[] k]; cbn.
  1,2: by rewrite lookup_insert_eq.
  all: destruct k' as [[] k']; cbn; try done; rewrite lookup_insert_ne; [done|congruence].
Qed.

(** One check changes its own key's limiter alone, as the reference does. *)
Lemma check_with_limiter_key now k0 limit burst s k r s' :
  check_with_limiter now k0 limit burst s = (r, s') →
  let own := own_check (limiters_of s k.1 !! k.2) now limit burst in
  if decide (k0 = k) then r = own.1 ∧ limiters_of s' k.1 !! k.2 = own.2
  else limiters_of s' k.1 !! k.2 = limiters_of s k.1 !! k.2.
Proof.
  unfold check_with_limiter, own_check. intros E.
  destruct (decide (k0 = k)) as [->|Hn].
  - destruct (limiters_of s k.1 !! k.2) as [l|] eqn:El; [|destruct (create_limiter limit burst) as [l|]].
    3: injection E as <- <-; by rewrite El.
    all: destruct (limiter_check now l) as [ok l']; injection E as <- <-; cbn; by rewrite limiters_set, decide_True.
  - destruct (match limiters_of s k0.1 !! k0.2 with Some l => Some l | None => create_limiter limit burst end) as [l|];
      [|by injection E as <- <-].
    destruct (limiter_check now l) as [ok l']. injection E as <- <-. by rewrite limiters_set, decide_False.
Qed.

Lemma governor_middleware_check self a s r s' :
  governor_middleware self (av_now a) (av_audit a) (av_original_uri a) (av_request a) s = (r, s') →
  ∃ s1, (let '(k, (limit, burst)) := arrival_key self a in check_with_limiter (av_now a) k limit burst s) = (r, s1) ∧
    ∀ b, limiters_of s' b = limiters_of s1 b.
Proof.
  unfold governor_middleware, check_rate_limit, bind, attempt, arrival_key.
  destruct (governor_key _ _ _ _ _) as [k [limit burst]]. cbv zeta.
  destruct (check_with_limiter _ k limit burst s) as [[res|[e|]] s1]; intros E; exists s1.
  1,3: injection E as <- <-; by split.
  destruct e; injection E as <- <-; (split; [done|]); by intros [].
Qed.

(** C39: Every key has a limiter of its own: whatever other requests come in
    between, the requests that count under one key are answered exactly as by
    a single limiter made for the first of them and asked at the same times. *)
Theorem governor_keys_independent self l s k :
  map snd (filter (fun p => (arrival_key self p.1).1 = k) (zip l (gov_run self l s).1)) =
  own_run (limiters_of s k.1 !! k.2)
    (map (fun a => (av_now a, (arrival_key self a).2)) (filter (fun a => (arrival_key self a).1 = k) l)).
Proof.
  revert s. induction l as [|a l IH]; intros s; [done|]. cbn [gov_run].
  destruct (governor_middleware _ _ _ _ _ s) as [r s'] eqn:E. destruct (gov_run self l s') as [rs s''] eqn:El.
  apply governor_middleware_check in E as (s1 & E & Hs). specialize (IH s'). rewrite El in IH. cbn [fst zip zip_with] in IH |- *.
  rewrite !filter_cons. cbn [fst]. destruct (arrival_key self a) as [k0 [limit burst]] eqn:Ek. cbn [fst].
  apply (check_with_limiter_key _ _ _ _ _ k) in E. destruct (decide (k0 = k)) as [->|Hn].
  - destruct E as [-> Eo]. cbn [map snd own_run]. rewrite Ek. cbn [snd]. rewrite Hs in IH.
    destruct (own_check _ _ _ _) as [r o]. cbn [fst snd] in *. by rewrite IH, Eo.
  - by rewrite IH, Hs, E.
Qed.

(** ** Behaviour that looks unintended *)

(** Above 60,000 requests a minute the period is 0 and the layer panics on the
    first request. *)
Lemma high_limit_panics now k limit burst s :
  60000 < limit → limiters_of s k.1 !! k.2 = None → (check_with_limiter now k limit burst s).1 = Err GovPanic.
Proof.
  intros Hl Hk. unfold check_with_limiter, create_limiter. rewrite Hk.
  by rewrite Z.max_l, Z.div_small by lia.
Qed.
End Governor.

#[local] Existing Instance witness_regex_env.
#[local] Instance witness_governor_http : HttpEnv := {| header_to_str s := Some s; parse_ip s := Some s |}.
(** A bucket that is never refilled. *)
#[local] Instance witness_limiter_env : LimiterEnv :=
  {| Limiter := Z; limiter_new _ burst := burst; limiter_check _ n := if 0 <? n then (true, n - 1) else (false, n) |}.

Definition witness_arrival (method : string) : Arrival :=
  mkArrival 0 true None (mkRequest method "/uploads" ∅ (Some "10.0.0.1") None None None None).

(** Two methods of one path with different limits share the limiter of the
    method that came first: after a [GET], nine [POST]s pass where the limit for
    [POST] has a burst of one; alone, the second one is refused. *)
Lemma methods_share_limiter :
  let '(limiter, s) := governor_new (mkRateLimitConfig 200 1000 60
    [("GET /uploads", mkRouteRateLimitConfig 600 10 true); ("POST /uploads", mkRouteRateLimitConfig 1 1 true)] true false) in
  Forall (fun r => is_ok r = true)
    (gov_run limiter (witness_arrival "GET" :: repeat (witness_arrival "POST") 9) s).1 ∧
  map is_ok (gov_run limiter (repeat (witness_arrival "POST") 2) s).1 = [true; false].
Proof. cbn -[gov_run governor_new]. split; [repeat constructor; by vm_compute|by vm_compute]. Qed.
