(* ===== verification/Cedar.v ===== *)
(** * Cedar authorization

    [src/acton-service/src/middleware/cedar.rs] with [CedarConfig] of
    [config.rs]: the authorization request built from claims, headers and
    route, the decision cache, [fail_open], and the HTTP and gRPC layers. The
    [cedar_policy] crate (entity names, contexts, policies and their
    evaluation) and the two regular expressions of [normalize_path_generic] are
    parameters. Layers are gates as in [Http]. Times come from the clock of
    [TokenGate]; JSON objects list their keys in the order they are inserted. *)

From S2P Require Import Prelude Text FrameworkError AuditEvent Http CallerAuth TokenGate RedisKv.

Local Open Scope string_scope.
Local Open Scope Z_scope.
Local Open Scope list_scope.

Inductive Decision := Allow | Deny.

#[global] Instance Decision_eq_dec : EqDecision Decision.
Proof. solve_decision. Defined.

Class CedarEnv := {
  EntityUid : Type;
  CedarContext : Type;
  Entities : Type;
  PolicySet : Type;
  (** [EntityUid::from_str] and its [Display]. *)
  uid_parse : string → result EntityUid string;
  uid_to_string : EntityUid → string;
  (** [Context::from_json_value], [Entities::from_json_value], [PolicySet::from_str]. *)
  context_from_json : json → result CedarContext string;
  entities_from_json : json → result Entities string;
  policies_parse : string → result PolicySet string;
  (** [cedar_policy::Request::new] without a schema. *)
  request_new : EntityUid → EntityUid → EntityUid → CedarContext → result unit string;
  is_authorized : EntityUid → EntityUid → EntityUid → CedarContext → PolicySet → Entities → Decision;
  (** [replace_all] of the UUID and the numeric pattern by their placeholders. *)
  cedar_uuid_replace_all : string → string;
  cedar_numeric_replace_all : string → string;
}.

Record CedarConfig := mkCedarConfig {
  cc_enabled : bool;
  cc_policy_path : string;
  cc_hot_reload : bool;
  cc_hot_reload_interval_secs : Z;
  cc_cache_enabled : bool;
  cc_cache_ttl_secs : Z;
  cc_fail_open : bool;
}.

(** ** Requests to the authorizer *)

Section Build.
Context `{CedarEnv, HttpEnv}.

Record CedarRequest := mkCedarRequest {
  cr_principal : EntityUid;
  cr_action : EntityUid;
  cr_resource : EntityUid;
  cr_context : CedarContext;
}.

(** [.parse().map_err(..)]. *)
Definition parse_uid (what text : string) : result EntityUid Error :=
  map_err (fun e => Error_Internal (what +:+ e)) (uid_parse text).


(** A typed entity name: the id between quotes, as it is. *)
Definition quoted (type id : string) : string := type +:+ "::" +:+ QUOTE +:+ id +:+ QUOTE.

Definition build_resource : result EntityUid Error :=
  parse_uid "Failed to parse resource: " (quoted "Resource" "default").

Definition principal_type (claims : Claims) : string :=
  if is_user claims then "User" else if is_client claims then "Client" else "Principal".

Definition build_principal (claims : Claims) : result EntityUid Error :=
  parse_uid "Invalid principal: " (quoted (principal_type claims) (cl_sub claims)).

Definition normalize_path_generic (path : string) : string :=
  cedar_numeric_replace_all (cedar_uuid_replace_all path).

(** [matched] is the router's [MatchedPath]. *)
Definition action_path (matched : option string) (path_normalizer : option (string → string)) (path : string) : string :=
  match matched with
  | Some matched => matched
  | None => match path_normalizer with
            | Some normalizer => normalizer path
            | None => normalize_path_generic path
            end
  end.

Definition build_action_http (matched : option string) (path_normalizer : option (string → string)) (r : Request)
    : result EntityUid Error :=
  parse_uid "Invalid action: " (quoted "Action" (req_method r +:+ " " +:+ action_path matched path_normalizer (req_path r))).

Definition build_action_grpc (method_path : string) : result EntityUid Error :=
  parse_uid "Invalid gRPC action: " (quoted "Action" method_path).

(** [extract_client_ip] and [extract_grpc_client_ip]. *)
Definition cedar_client_ip (headers : gmap string string) : option string :=
  match header_string headers "x-forwarded-for" with
  | Some xff => trim <$> head (split "," xff)
  | None => header_string headers "x-real-ip"
  end.

(** [now.weekday().to_string()]; day 0 was a Thursday. *)
Definition weekday_name (days : Z) : string :=
  nth (Z.to_nat ((days + 3) mod 7)) ["Mon"; "Tue"; "Wed"; "Thu"; "Fri"; "Sat"; "Sun"] "".

Definition json_strings (l : list string) : json := JArray (map JString l).

Definition json_opt (key : string) (o : option string) : list (string * json) :=
  match o with Some s => [(key, JString s)] | None => [] end.

(** [now] in nanoseconds. *)
Definition json_timestamp (now : Z) : json :=
  let secs := now / 1000000000 in
  JObject [("unix", JNumber (PosInt secs)); ("hour", JNumber (PosInt (secs / 3600 mod 24)));
           ("dayOfWeek", JString (weekday_name (secs / 86400)))].

Definition context_json (headers : gmap string string) (claims : Claims) (now : Z) : json :=
  JObject ([("roles", json_strings (cl_roles claims)); ("permissions", json_strings (cl_perms claims))]
    ++ json_opt "email" (cl_email claims) ++ json_opt "username" (cl_username claims)
    ++ [("timestamp", json_timestamp now)]
    ++ json_opt "ip" (cedar_client_ip headers)
    ++ json_opt "requestId" (header_string headers "x-request-id")
    ++ json_opt "userAgent" (header_string headers "user-agent")).

Definition build_context_http (headers : gmap string string) (claims : Claims) (now : Z) : result CedarContext Error :=
  map_err (fun e => Error_Internal ("Failed to build context: " +:+ e)) (context_from_json (context_json headers claims now)).

Definition build_context_grpc (headers : gmap string string) (claims : Claims) (now : Z) : result CedarContext Error :=
  map_err (fun e => Error_Internal ("Failed to build gRPC context: " +:+ e))
    (context_from_json (context_json headers claims now)).

Definition entity_json (claims : Claims) : json :=
  JObject [("uid", JObject [("type", JString (if is_user claims then "User" else "Client"));
                            ("id", JString (cl_sub claims))]);
           ("attrs", JObject [("email", JString (default "" (cl_email claims)));
                              ("roles", json_strings (cl_roles claims));
                              ("permissions", json_strings (cl_perms claims));
                              ("sub", JString (cl_sub claims))]);
           ("parents", JArray [])].

Definition build_entities (claims : Claims) : result Entities Error :=
  map_err (fun e => Error_Internal ("Failed to build entities: " +:+ e)) (entities_from_json (JArray [entity_json claims])).

Definition cedar_request_new (principal action resource : EntityUid) (context : CedarContext) : result CedarRequest Error :=
  map_err (fun e => Error_Internal ("Failed to build Cedar request: " +:+ e))
    (result_bind (request_new principal action resource context)
       (fun _ => Ok (mkCedarRequest principal action resource context))).
End Build.

(** ** The decision cache *)

Class PolicyCache `{CedarEnv} (K W : Type) := {
  pc_get : Z → K → CedarRequest → M W Error (option Decision);
  pc_set : Z → K → CedarRequest → Decision → Z → M W Error unit;
}.

Inductive RedisPolicyCache := mkRedisPolicyCache.

Section RedisCache.
Context `{CedarEnv} {R : Type} `{!RedisKv R}.
Local Open Scope monad_scope.

Definition cache_key (request : CedarRequest) : string :=
  "cedar:authz:" +:+ uid_to_string (cr_principal request) +:+ ":" +:+ uid_to_string (cr_action request) +:+ ":"
  +:+ uid_to_string (cr_resource request).

Definition decision_text (d : Decision) : string := match d with Allow => "allow" | Deny => "deny" end.

Definition cache_connection : M R Error unit := redis_op "Redis connection failed: " kv_connect.

(** The value read under the key. *)
Definition decision_of (reply : KvReply) : option Decision :=
  match reply with
  | RStr (Some v) => if String.eqb v "allow" then Some Allow else if String.eqb v "deny" then Some Deny else None
  | _ => None
  end.

Definition redis_cache_get (now : Z) (request : CedarRequest) : M R Error (option Decision) :=
  cache_connection ;;
  let! reply := redis_op "Redis GET failed: " (kv_exec now (KGet (cache_key request))) in
  ret (decision_of reply).

Definition redis_cache_set (now : Z) (request : CedarRequest) (decision : Decision) (ttl_secs : Z) : M R Error unit :=
  cache_connection ;;
  redis_op "Redis SETEX failed: " (kv_exec now (KSetEx (cache_key request) (decision_text decision) ttl_secs)) ;;
  ret tt.

#[global] Instance RedisPolicyCache_PolicyCache : PolicyCache RedisPolicyCache R := {|
  pc_get now _ request := redis_cache_get now request;
  pc_set now _ request decision ttl_secs := redis_cache_set now request decision ttl_secs;
|}.
End RedisCache.

(** ** The authorizer *)

Record CedarAuthz (K : Type) := mkCedarAuthz {
  ca_config : CedarConfig;
  ca_cache : option K;
  ca_path_normalizer : option (string → string);
}.
Arguments mkCedarAuthz {K}.
Arguments ca_config {K}.
Arguments ca_cache {K}.
Arguments ca_path_normalizer {K}.

(** What the authorizer can reach: the policies in force, the cache, the
    readings of the clock so far and the audit events sent. *)
Record CedarWorld `{CedarEnv} (W : Type) := mkCedarWorld {
  cw_policies : PolicySet;
  cw_cache : W;
  cw_tick : nat;
  cw_audit : list (AuditEventKind * AuditSeverity * AuditSource);
}.
Arguments mkCedarWorld {_ W}.
Arguments cw_policies {_ W}.
Arguments cw_cache {_ W}.
Arguments cw_tick {_ W}.
Arguments cw_audit {_ W}.

Section Authz.
Context `{CedarEnv, HttpEnv, GateClock} {K W : Type} `{!PolicyCache K W}.
Abbreviation G := (M (CedarWorld W) Error).
Local Open Scope monad_scope.
Implicit Types authz : CedarAuthz K.

Definition with_cache {A} (m : Z → M W Error A) : G A := fun w =>
  let '(r, s) := m (gate_millis (cw_tick w)) (cw_cache w) in
  (r, mkCedarWorld (cw_policies w) s (S (cw_tick w)) (cw_audit w)).

(** [chrono::Utc::now()]. *)
Definition cedar_now : G Z := fun w =>
  (Ok (gate_nanos (cw_tick w)), mkCedarWorld (cw_policies w) (cw_cache w) (S (cw_tick w)) (cw_audit w)).

Definition get_policies : G PolicySet := fun w => (Ok (cw_policies w), w).

Definition cedar_log (audit : bool) (source : AuditSource) : G unit := fun w =>
  (Ok tt, mkCedarWorld (cw_policies w) (cw_cache w) (cw_tick w)
            (if audit then cw_audit w ++ [(AuthPermissionDenied, SevWarning, source)] else cw_audit w)).

Definition apply_fail_open authz (decision : Decision) : Decision :=
  match decision with
  | Allow => Allow
  | Deny => if cc_fail_open (ca_config authz) then Allow else Deny
  end.

(** The cache's answer, if there is a cache. *)
Definition cached authz (request : CedarRequest) : G (option Decision) :=
  match ca_cache authz with
  | Some cache => with_cache (fun now => pc_get now cache request)
  | None => ret None
  end.

Definition remember authz (request : CedarRequest) (decision : Decision) : G unit :=
  match ca_cache authz with
  | Some cache => ignore (with_cache (fun now => pc_set now cache request decision (cc_cache_ttl_secs (ca_config authz))))
  | None => ret tt
  end.

Definition authorize authz (principal action resource : EntityUid) (context : CedarContext) (claims : Claims) : G Decision :=
  let! request := lift (cedar_request_new principal action resource context) in
  let! hit := cached authz request in
  match hit with
  | Some decision => ret (apply_fail_open authz decision)
  | None =>
      let! policy_set := get_policies in
      let! entities := lift (build_entities claims) in
      let raw_decision := is_authorized principal action resource context policy_set entities in
      remember authz request raw_decision ;;
      ret (apply_fail_open authz raw_decision)
  end.

(** The source recorded by the HTTP layer. *)
Definition cedar_audit_source (r : Request) (claims : Claims) : AuditSource :=
  let ip := v ← match req_headers r !! "x-forwarded-for" with Some v => Some v | None => req_headers r !! "x-real-ip" end;
            s ← header_to_str v; Some (trim (default s (head (split "," s)))) in
  mkAuditSource ip (header_string (req_headers r) "user-agent") (Some (cl_sub claims))
    (header_string (req_headers r) "x-request-id").

Definition cedar_exempt (path : string) : bool := String.eqb path "/health" || String.eqb path "/ready".

(** [CedarAuthz::middleware] up to [next.run(request)]. [audit]: the request
    carries a logger that audits authentication events. *)
Definition cedar_middleware authz (audit : bool) (matched : option string) (r : Request) : G Request :=
  if negb (cc_enabled (ca_config authz)) then ret r
  else if cedar_exempt (req_path r) then ret r
  else
  let! claims := lift (ok_or (Error_Unauthorized "Missing JWT claims. Ensure JWT middleware runs before Cedar middleware.")
                         (req_claims r)) in
  let! principal := lift (build_principal claims) in
  let! action := lift (build_action_http matched (ca_path_normalizer authz) r) in
  let! now := cedar_now in
  let! context := lift (build_context_http (req_headers r) claims now) in
  let! resource := lift build_resource in
  let! decision := authorize authz principal action resource context claims in
  match decision with
  | Allow => ret r
  | Deny => cedar_log audit (cedar_audit_source r claims) ;; fail (Error_Forbidden "Access denied by policy")
  end.

(** A fallible step whose error becomes a gRPC status. *)
Definition or_status {A} (status : Error → Rejection) (m : G A) : M (CedarWorld W) Rejection A := fun w =>
  let '(r, w) := m w in (map_err status r, w).

Definition internal (message : string) (_ : Error) : Rejection := Rej_Grpc 13 message.

Definition grpc_audit_source (r : Request) (claims : Claims) : AuditSource :=
  mkAuditSource (cedar_client_ip (req_headers r)) (header_string (req_headers r) "user-agent") (Some (cl_sub claims))
    (header_string (req_headers r) "x-request-id").

Definition authorize_grpc_request authz (audit : bool) (r : Request) : M (CedarWorld W) Rejection unit :=
  if negb (cc_enabled (ca_config authz)) then ret tt
  else if is_grpc_infra_path (req_path r) then ret tt
  else
  let! claims := lift (ok_or (Rej_Grpc 16 "Missing authentication claims. Ensure a token authentication layer runs before the Cedar layer.")
                         (req_claims r)) in
  let! principal := or_status (internal "Failed to build principal") (lift (build_principal claims)) in
  let! action := or_status (internal "Failed to build action") (lift (build_action_grpc (req_path r))) in
  let! now := or_status (internal "") cedar_now in
  let! context := or_status (internal "Failed to build context") (lift (build_context_grpc (req_headers r) claims now)) in
  let! resource := or_status (internal "Failed to parse resource") (lift build_resource) in
  let! decision := or_status (fun e => Rej_Grpc 13 ("Cedar authorization error: " +:+ error_to_string e))
                     (authorize authz principal action resource context claims) in
  match decision with
  | Allow => ret tt
  | Deny =>
      or_status (internal "") (cedar_log audit (grpc_audit_source r claims)) ;;
      fail (Rej_Grpc 7 "Access denied by policy")
  end.

(** ** Policies *)

(** What [spawn_blocking(read_to_string)] returns: the join error outside, the
    I/O error inside. *)
Abbreviation FileRead := (result (result string string) string).

Definition read_file (io : string → Error) (file : FileRead) : result string Error :=
  (let? r := map_err (fun e => Error_Internal ("Task join error: " +:+ e)) file in map_err io r)%rust.

(** [CedarAuthzBuilder::build]: the policies it starts with. *)
Definition cedar_build (config : CedarConfig) (file : FileRead) : result PolicySet Error :=
  (let? policies := read_file (fun e => Error_Config ("Failed to read Cedar policy file from '" +:+ cc_policy_path config
                                                      +:+ "': " +:+ e)) file in
   map_err (fun e => Error_Config ("Failed to parse Cedar policies: " +:+ e)) (policies_parse policies))%rust.

Definition reload_policies (file : FileRead) : G unit :=
  let! policies := lift (read_file (fun e => Error_Internal ("Failed to read policy file: " +:+ e)) file) in
  let! new := lift (map_err (fun e => Error_Internal ("Failed to parse policies: " +:+ e)) (policies_parse policies)) in
  fun w => (Ok tt, mkCedarWorld new (cw_cache w) (cw_tick w) (cw_audit w)).
End Authz.
