(* ===== verification/CedarSafety.v ===== *)
(** * Cedar authorization: theorems

    What a request that passes the layer went through, with any decision cache
    that keeps its promises: an evaluation of the policies that allowed it, its
    own or one of an earlier request of the same principal for the same action
    that is at most the cache's time to live old. [RedisPolicyCache] keeps the
    promises. *)

From S2P Require Import Prelude Text FrameworkError AuditEvent Http CallerAuth TokenGate RedisKv Cedar.

Local Open Scope string_scope.
Local Open Scope Z_scope.
Local Open Scope list_scope.

(** ** What the layer relies on *)

Abbreviation CedarKey := (EntityUid * EntityUid * EntityUid)%type.

Definition request_key `{CedarEnv} (request : CedarRequest) : CedarKey :=
  (cr_principal request, cr_action request, cr_resource request).

(** A cache answers with what was stored last under the principal, action and
    resource, for at most its time to live. *)
Class PolicyCacheLaws `{CedarEnv} (K W : Type) `{!PolicyCache K W} := {
  pc_see : K → Z → CedarKey → W → option Decision;
  pc_get_law now cache request w r w' : pc_get now cache request w = (r, w') →
    (∀ t k, now ≤ t → pc_see cache t k w' = pc_see cache t k w) ∧
    ∀ d, r = Ok (Some d) → pc_see cache now (request_key request) w = Some d;
  pc_set_law now cache request d ttl w r w' : pc_set now cache request d ttl w = (r, w') →
    (∀ t k d', now ≤ t → pc_see cache t k w' = Some d' →
       pc_see cache t k w = Some d' ∨ (k = request_key request ∧ d' = d ∧ t < now + 1000 * ttl)) ∧
    (is_ok r = true → ∀ t, now ≤ t →
       pc_see cache t (request_key request) w' = if t <? now + 1000 * ttl then Some d else None);
}.

(** The text of an entity name shows where it ends: its id is quoted and
    escaped. *)
Class CedarLaws `{CedarEnv} := {
  uid_text_unique u v s t : uid_to_string u +:+ s = uid_to_string v +:+ t → u = v;
}.

(** ** The Redis cache *)

Section RedisCacheLaws.
Context `{CedarEnv} `{!CedarLaws} {R : Type} `{!RedisKv R} `{!RedisKvLaws R}.
Implicit Types request : CedarRequest.

Definition key_text (k : CedarKey) : string :=
  let '(p, a, r) := k in
  "cedar:authz:" +:+ uid_to_string p +:+ ":" +:+ uid_to_string a +:+ ":" +:+ uid_to_string r.

Lemma key_text_inj k k' : key_text k = key_text k' → k = k'.
Proof.
  destruct k as [[p a] r], k' as [[p' a'] r']. cbn. intros E%string_app_inj_l.
  pose proof (uid_text_unique _ _ _ _ E) as ->. apply string_app_inj_l, string_app_inj_l in E.
  pose proof (uid_text_unique _ _ _ _ E) as ->. apply string_app_inj_l, string_app_inj_l in E.
  by rewrite (uid_text_unique r r' "" "") by (by rewrite E).
Qed.

Definition entry_decision (e : option kv_entry) : option Decision :=
  match e with Some (VStr v, _) => decision_of (RStr (Some v)) | _ => None end.

Lemma cache_connection_inv {A} (m : M R Error A) s r s' :
  bind cache_connection (fun _ => m) s = (r, s') →
  ∃ s1, (∀ t k, kv_see t k s1 = kv_see t k s) ∧ (m s1 = (r, s') ∨ is_ok r = false ∧ s' = s1).
Proof.
  unfold bind. destruct (cache_connection s) as [[[]|e] s1] eqn:Ec; intros Hm;
    apply redis_op_inv in Ec as (r0 & Ec & _); exists s1;
    (split; [intros t k; by eapply kv_connect_law|]); [by left|right]. by injection Hm as <- <-.
Qed.

Lemma redis_get_law now request s r s' :
  redis_cache_get now request s = (r, s') →
  (∀ t k, now ≤ t → kv_see t k s' = kv_see t k s) ∧
  ∀ d, r = Ok (Some d) → entry_decision (kv_see now (cache_key request) s) = Some d.
Proof.
  intros (s1 & Hs & [Hm|[Hr ->]])%cache_connection_inv; [|split; [intros; apply Hs|by intros d ->]].
  unfold bind in Hm. destruct (redis_op _ _ s1) as [r1 s2] eqn:E. apply redis_op_inv in E as (r0 & E & Hr0).
  apply kv_exec_law in E as (dn & Hk & _ & Hd). cbn in Hk.
  assert (∀ t k, now ≤ t → kv_see t k s2 = kv_see t k s) as Hs2.
  { intros t k Ht. rewrite !(kv_later now t) by done. rewrite Hk, <-Hs. by destruct (decide _). }
  destruct r1 as [reply|e]; [|injection Hm as <- <-; by split]. injection Hm as <- <-. split; [done|].
  intros d [= Ed]. destruct (Hd _ (Hr0 _ eq_refl)) as [_ Hrep]. cbn [cmd_key] in Hrep. rewrite Hs in Hrep.
  destruct (kv_see now (cache_key request) s) as [[[v|ms] dl]|]; cbn in *; apply same_reply_str in Hrep as ->; done.
Qed.

Lemma redis_set_law now request d ttl s r s' :
  redis_cache_set now request d ttl s = (r, s') →
  ∃ done : bool, (is_ok r = true → done = true) ∧
    (∀ t k, now ≤ t → done = false ∨ k ≠ cache_key request → kv_see t k s' = kv_see t k s) ∧
    (done = true → ∀ t, now ≤ t →
       entry_decision (kv_see t (cache_key request) s') = if t <? now + 1000 * ttl then Some d else None).
Proof.
  intros (s1 & Hs & [Hm|[Hr ->]])%cache_connection_inv.
  2: { exists false. split; [by rewrite Hr|]. split; [intros; apply Hs|done]. }
  unfold bind in Hm. destruct (redis_op _ _ s1) as [r1 s2] eqn:E. apply redis_op_inv in E as (r0 & E & Hr0).
  apply kv_exec_law in E as (dn & Hk & _ & Hd). cbn [cmd_key] in Hk.
  assert (s' = s2 ∧ (is_ok r = true → dn = true)) as [-> Hok].
  { destruct r1 as [reply|e]; injection Hm as <- <-; [|done]. split; [done|]. intros _. by apply (Hd reply), Hr0. }
  exists dn. split; [done|]. split.
  - intros t k Ht Hn. rewrite !(kv_later now t) by done. rewrite Hk, decide_False by naive_solver. by rewrite Hs.
  - intros -> t Ht. rewrite (kv_later now t) by done. rewrite Hk, decide_True by done. cbn.
    destruct (t <? _); [|done]. by destruct d.
Qed.

#[global] Instance RedisPolicyCache_Laws : PolicyCacheLaws RedisPolicyCache R.
Proof.
  refine {| pc_see _ t k s := entry_decision (kv_see t (key_text k) s) |}.
  - intros now [] request s r s' [Hk Hd]%redis_get_law. split; [|exact Hd]. intros t k Ht. by rewrite Hk.
  - intros now [] request d ttl s r s' (dn & Hok & Hk & Hd)%redis_set_law. split; [|intros Hr; exact (Hd (Hok Hr))].
    intros t k d' Ht Hs. destruct (decide (dn = true ∧ key_text k = cache_key request)) as [[-> E]|Hn].
    + rewrite E, Hd in Hs by done. destruct (Z.ltb_spec t (now + 1000 * ttl)); [|done].
      right. split; [by apply key_text_inj|]. by injection Hs as ->.
    + left. rewrite <-Hk; [done..|]. destruct dn; [right; naive_solver|by left].
Defined.
End RedisCacheLaws.

(** ** The gate *)

Section Gate.
Context `{CedarEnv, HttpEnv, GateClock} {K W : Type} `{!PolicyCache K W} `{!PolicyCacheLaws K W}.
Context (gate_monotone : ∀ i j, (i ≤ j)%nat → gate_millis i ≤ gate_millis j).
Implicit Types authz : CedarAuthz K.
Implicit Types w : CedarWorld W.

Definition cedar_skips authz (r : Request) : bool := negb (cc_enabled (ca_config authz)) || cedar_exempt (req_path r).

(** The authorization request made for [r] at a time. *)
Definition asks authz (matched : option string) (r : Request) (now : Z) : result (Claims * CedarRequest) Error :=
  (let? claims := ok_or (Error_Unauthorized "Missing JWT claims. Ensure JWT middleware runs before Cedar middleware.")
                    (req_claims r) in
   let? principal := build_principal claims in
   let? action := build_action_http matched (ca_path_normalizer authz) r in
   let? context := build_context_http (req_headers r) claims now in
   let? resource := build_resource in
   let? request := cedar_request_new principal action resource context in
   Ok (claims, request))%rust.

(** What the policies say to it. *)
Definition verdict (policies : PolicySet) (claims : Claims) (request : CedarRequest) : result Decision Error :=
  (let? entities := build_entities claims in
   Ok (is_authorized (cr_principal request) (cr_action request) (cr_resource request) (cr_context request)
         policies entities))%rust.

(** *** One request *)

(** [d] was stored for [k], seen until [t]: it is the verdict on [r] at [w]. *)
Definition stores authz matched r w (t : Z) (k : CedarKey) (d : Decision) : Prop :=
  ∃ claims request, asks authz matched r (gate_nanos (cw_tick w)) = Ok (claims, request) ∧ request_key request = k ∧
    verdict (cw_policies w) claims request = Ok d ∧
    t < gate_millis (S (S (cw_tick w))) + 1000 * cc_cache_ttl_secs (ca_config authz).

Lemma with_cache_inv {A} (m : Z → M W Error A) w r w' :
  with_cache m w = (r, w') →
  m (gate_millis (cw_tick w)) (cw_cache w) = (r, cw_cache w') ∧
  cw_tick w' = S (cw_tick w) ∧ cw_policies w' = cw_policies w ∧ cw_audit w' = cw_audit w.
Proof. unfold with_cache. destruct (m _ _). by intros [= <- <-]. Qed.

(** The cache is asked, and answers with what it holds. *)
Lemma cached_inv authz request w r w1 :
  cached authz request w = (r, w1) →
  (cw_tick w ≤ cw_tick w1 ≤ S (cw_tick w))%nat ∧ cw_policies w1 = cw_policies w ∧ cw_audit w1 = cw_audit w ∧
  (∀ cache t k, ca_cache authz = Some cache → gate_millis (cw_tick w) ≤ t →
     pc_see cache t k (cw_cache w1) = pc_see cache t k (cw_cache w)) ∧
  (ca_cache authz ≠ None → cw_tick w1 = S (cw_tick w)) ∧
  ∀ d, r = Ok (Some d) → ∃ cache, ca_cache authz = Some cache ∧
    pc_see cache (gate_millis (cw_tick w)) (request_key request) (cw_cache w) = Some d.
Proof.
  unfold cached. destruct (ca_cache authz) as [cache|]; [|by intros [= <- <-]; split_and!; try done; lia].
  intros (E & Et & -> & ->)%with_cache_inv. apply pc_get_law in E as [Hk Hd]. split_and!; [lia..|done|done| |done|].
  - intros ? t k [= <-] Ht. by apply Hk.
  - intros d Hr. exists cache. split; [done|]. by apply Hd.
Qed.

(** The verdict is stored, or nothing changes. *)
Lemma remember_inv authz request d w r w1 :
  remember authz request d w = (r, w1) →
  r = Ok tt ∧ (cw_tick w ≤ cw_tick w1)%nat ∧ cw_policies w1 = cw_policies w ∧ cw_audit w1 = cw_audit w ∧
  ∀ cache t k d', ca_cache authz = Some cache → gate_millis (cw_tick w) ≤ t →
    pc_see cache t k (cw_cache w1) = Some d' →
    pc_see cache t k (cw_cache w) = Some d' ∨
    (k = request_key request ∧ d' = d ∧ t < gate_millis (cw_tick w) + 1000 * cc_cache_ttl_secs (ca_config authz)).
Proof.
  unfold remember. destruct (ca_cache authz) as [cache|]; [|intros [= <- <-]; split_and!; done].
  unfold ignore. destruct (with_cache _ w) as [r0 w2] eqn:E. intros [= <- <-].
  apply with_cache_inv in E as (E & Et & -> & ->). apply pc_set_law in E as [Hk _].
  split_and!; [done|lia|done|done|]. intros ? t k d' [= <-]. apply Hk.
Qed.

(** The raw decision comes from the policies or from the cache. *)
Definition grounded authz claims request w (raw : Decision) : Prop :=
  verdict (cw_policies w) claims request = Ok raw ∨
  ∃ cache, ca_cache authz = Some cache ∧
    pc_see cache (gate_millis (cw_tick w)) (request_key request) (cw_cache w) = Some raw.

Lemma authorize_inv authz principal action resource context request claims w res w' :
  cedar_request_new principal action resource context = Ok request →
  authorize authz principal action resource context claims w = (res, w') →
  (cw_tick w ≤ cw_tick w')%nat ∧ cw_policies w' = cw_policies w ∧ cw_audit w' = cw_audit w ∧
  (∀ cache t k d, ca_cache authz = Some cache → gate_millis (cw_tick w') ≤ t →
     pc_see cache t k (cw_cache w') = Some d →
     pc_see cache t k (cw_cache w) = Some d ∨
     (request_key request = k ∧ verdict (cw_policies w) claims request = Ok d ∧
      t < gate_millis (S (cw_tick w)) + 1000 * cc_cache_ttl_secs (ca_config authz))) ∧
  ∀ d, res = Ok d → ∃ raw, d = apply_fail_open authz raw ∧ grounded authz claims request w raw.
Proof.
  intros Er. unfold authorize. unfold bind at 1, lift at 1. rewrite Er.
  assert (request = mkCedarRequest principal action resource context) as Erq.
  { unfold cedar_request_new in Er. by destruct (request_new _ _ _ _); inv_result. }
  unfold bind at 1. destruct (cached authz request w) as [r1 w1] eqn:E1.
  apply cached_inv in E1 as (Ht1 & Hp1 & Ha1 & Hk1 & Hs1 & Hd1).
  pose proof (gate_monotone (cw_tick w) (cw_tick w1) ltac:(lia)) as Hm1.
  assert (∀ w', w' = w1 → ∀ cache t k d, ca_cache authz = Some cache → gate_millis (cw_tick w') ≤ t →
     pc_see cache t k (cw_cache w') = Some d → pc_see cache t k (cw_cache w) = Some d) as Hold.
  { intros ? -> cache t k d Hc Ht Hs. by rewrite <-(Hk1 cache t k Hc) by lia. }
  destruct r1 as [[raw|]|e]; [..|intros [= <- <-]; split_and!; try (lia || done); eauto].
  - intros [= <- <-]. split_and!; try (lia || done); [by eauto|]. intros d [= <-]. exists raw. split; [done|].
    right. by apply Hd1.
  - unfold bind at 1, get_policies. unfold bind at 1, lift. unfold grounded, verdict. rewrite Erq. cbn.
    destruct (build_entities claims) as [entities|e]; [|intros [= <- <-]; split_and!; try (lia || done); eauto].
    cbn. rewrite Hp1. set (raw := is_authorized _ _ _ _ _ _). unfold bind. rewrite <-Erq.
    destruct (remember authz request raw w1) as [r2 w2] eqn:E2.
    apply remember_inv in E2 as (-> & Ht2 & Hp2 & Ha2 & Hk2). intros [= <- <-].
    pose proof (gate_monotone _ _ Ht2). split_and!; [lia|congruence..| |].
    + intros cache t k d Hc Ht Hs. destruct (Hk2 cache t k d Hc ltac:(lia) Hs) as [Ho|(-> & -> & Hl)].
      * left. by rewrite <-(Hk1 cache t k Hc) by lia.
      * right. rewrite (Hs1 ltac:(by rewrite Hc)) in Hl. done.
    + intros d [= <-]. eauto.
Qed.

Local Ltac unchanged := intros [= <- <-]; cbn; split_and!; [lia|done|by eauto|done].

(** A request that is not skipped. *)
Lemma cedar_middleware_inv authz audit matched r w res w' :
  cedar_skips authz r = false → cedar_middleware authz audit matched r w = (res, w') →
  (cw_tick w ≤ cw_tick w')%nat ∧ cw_policies w' = cw_policies w ∧
  (∀ cache t k d, ca_cache authz = Some cache → gate_millis (cw_tick w') ≤ t →
     pc_see cache t k (cw_cache w') = Some d →
     pc_see cache t k (cw_cache w) = Some d ∨ stores authz matched r w t k d) ∧
  match res with
  | Ok r' => r' = r ∧ cw_audit w' = cw_audit w ∧ ∃ claims request raw,
      asks authz matched r (gate_nanos (cw_tick w)) = Ok (claims, request) ∧
      Allow = apply_fail_open authz raw ∧
      grounded authz claims request (mkCedarWorld (cw_policies w) (cw_cache w) (S (cw_tick w)) (cw_audit w)) raw
  | Err _ => True
  end.
Proof.
  intros [Hen%negb_false_iff Hex]%orb_false_iff. unfold cedar_middleware. rewrite Hen, Hex. cbn [negb].
  unfold bind at 1, lift at 1. destruct (req_claims r) as [claims|] eqn:Ecl; cbn [ok_or]; [|unchanged].
  unfold bind at 1, lift at 1. destruct (build_principal claims) as [principal|] eqn:Ep; [|unchanged].
  unfold bind at 1, lift at 1. destruct (build_action_http matched _ r) as [action|] eqn:Eact; [|unchanged].
  unfold bind at 1, cedar_now.
  unfold bind at 1, lift at 1. destruct (build_context_http _ claims _) as [context|] eqn:Ec; [|unchanged].
  unfold bind at 1, lift at 1. destruct build_resource as [resource|] eqn:Eres; [|unchanged].
  destruct (cedar_request_new principal action resource context) as [request|e] eqn:Er.
  2: { unfold bind at 1, authorize. unfold bind at 1, lift at 1. rewrite Er. unchanged. }
  assert (asks authz matched r (gate_nanos (cw_tick w)) = Ok (claims, request)) as Hasks.
  { unfold asks. rewrite Ecl. cbn [ok_or result_bind]. rewrite Ep. cbn [result_bind]. rewrite Eact. cbn [result_bind].
    rewrite Ec. cbn [result_bind]. rewrite Eres. cbn [result_bind]. by rewrite Er. }
  set (w1 := mkCedarWorld _ _ _ _). unfold bind at 1.
  destruct (authorize _ _ _ _ _ _ w1) as [res1 w2] eqn:E.
  destruct (authorize_inv _ _ _ _ _ _ _ _ _ _ Er E) as (Ht & Hp & Ha & Hk & Hd). cbn in Ht.
  assert ((cw_tick w ≤ cw_tick w2)%nat ∧ cw_policies w2 = cw_policies w ∧
    (∀ cache t k d, ca_cache authz = Some cache → gate_millis (cw_tick w2) ≤ t →
       pc_see cache t k (cw_cache w2) = Some d → pc_see cache t k (cw_cache w) = Some d ∨ stores authz matched r w t k d))
    as (Ht2 & Hp2 & Hk2).
  { split; [lia|]. split; [done|]. intros cache t k d Hc Htt Hs.
    destruct (Hk cache t k d Hc Htt Hs) as [|(? & ? & ?)]; [by left|right]. by exists claims, request. }
  destruct res1 as [[]|e]; intros [= <- <-]; split_and!; try done.
  destruct (Hd Allow eq_refl) as (raw & Hraw & Hg). by exists claims, request, raw.
Qed.

(** *** A service's life: requests and reloads of the policy file *)

Inductive CedarOp :=
| Cedar_Request (audit : bool) (matched : option string) (r : Request)
| Cedar_Reload (file : result (result string string) string).

Definition cedar_run authz (op : CedarOp) w : CedarWorld W :=
  match op with
  | Cedar_Request audit matched r => (cedar_middleware authz audit matched r w).2
  | Cedar_Reload file => (reload_policies file w).2
  end.

Definition cedar_run_all authz (ops : list CedarOp) w : CedarWorld W := fold_left (fun w op => cedar_run authz op w) ops w.

Lemma reload_inv file w r w' :
  reload_policies file w = (r, w') → cw_cache w' = cw_cache w ∧ cw_tick w' = cw_tick w.
Proof.
  unfold reload_policies, bind, lift. destruct (read_file _ file) as [text|]; [|by intros [= <- <-]].
  destruct (policies_parse text); cbn; by intros [= <- <-].
Qed.

(** What one operation adds to the cache. *)
Lemma cedar_run_inv authz op w :
  (cw_tick w ≤ cw_tick (cedar_run authz op w))%nat ∧
  ∀ cache t k d, ca_cache authz = Some cache → gate_millis (cw_tick (cedar_run authz op w)) ≤ t →
    pc_see cache t k (cw_cache (cedar_run authz op w)) = Some d →
    pc_see cache t k (cw_cache w) = Some d ∨
    ∃ audit matched r, op = Cedar_Request audit matched r ∧ stores authz matched r w t k d.
Proof.
  destruct op as [audit matched r|file]; cbn [cedar_run].
  - destruct (cedar_middleware authz audit matched r w) as [res w'] eqn:E. cbn [snd].
    destruct (cedar_skips authz r) eqn:Es.
    + assert (w' = w) as -> by (unfold cedar_middleware in E; unfold cedar_skips in Es;
        destruct (negb _); [by injection E|]; cbn in Es; rewrite Es in E; by injection E). eauto.
    + destruct (cedar_middleware_inv _ _ _ _ _ _ _ Es E) as (Ht & _ & Hk & _). split; [done|].
      intros cache t k d Hc Hn Hs. destruct (Hk cache t k d Hc Hn Hs); eauto 7.
  - destruct (reload_policies file w) as [r w'] eqn:E. cbn [snd]. apply reload_inv in E as [Ec Et]. rewrite Ec, Et. eauto.
Qed.

(** Every decision the cache holds was made for an earlier request. *)
Lemma cached_decision_made authz w0 ops cache t k d :
  ca_cache authz = Some cache → (∀ t k, pc_see cache t k (cw_cache w0) = None) →
  gate_millis (cw_tick (cedar_run_all authz ops w0)) ≤ t →
  pc_see cache t k (cw_cache (cedar_run_all authz ops w0)) = Some d →
  ∃ i audit matched r, ops !! i = Some (Cedar_Request audit matched r) ∧
    stores authz matched r (cedar_run_all authz (take i ops) w0) t k d.
Proof.
  intros Hc Hempty. unfold cedar_run_all. induction ops as [|op ops IH] using rev_ind; [cbn; by rewrite Hempty|].
  rewrite fold_left_app. cbn. set (w := fold_left _ ops w0) in *. destruct (cedar_run_inv authz op w) as [Ht Hk].
  intros Hn Hs. pose proof (gate_monotone _ _ Ht). destruct (Hk cache t k d Hc Hn Hs) as [Ho|(audit & matched & r & -> & Hst)].
  - destruct (IH ltac:(lia) Ho) as (i & audit & matched & r & Hi & Hst). pose proof (lookup_lt_Some _ _ _ Hi).
    exists i, audit, matched, r. by rewrite lookup_app_l, take_app_le by lia.
  - exists (length ops), audit, matched, r. by rewrite list_lookup_middle, take_app_length.
Qed.

(** C12: Nobody passes the authorization layer on a stale or invented decision:
    after any history of requests and policy reloads, a request that is handed
    on is for an exempt path (or the layer is disabled, or it fails open), or
    the policies in force allow the request made of its own claims, or the
    cache answered, and then an earlier request of the same principal for the
    same action was allowed by the policies in force at that time, less than
    the cache's time to live ago. *)
Theorem cedar_decision_fresh authz w0 ops audit matched r r' w' :
  (∀ cache t k, pc_see cache t k (cw_cache w0) = None) →
  cedar_middleware authz audit matched r (cedar_run_all authz ops w0) = (Ok r', w') →
  let w := cedar_run_all authz ops w0 in
  r' = r ∧
  (cedar_skips authz r = true ∨
   ∃ claims request, asks authz matched r (gate_nanos (cw_tick w)) = Ok (claims, request) ∧
     (cc_fail_open (ca_config authz) = true ∨
      verdict (cw_policies w) claims request = Ok Allow ∨
      ca_cache authz ≠ None ∧ ∃ i audit0 matched0 r0, ops !! i = Some (Cedar_Request audit0 matched0 r0) ∧
        stores authz matched0 r0 (cedar_run_all authz (take i ops) w0) (gate_millis (S (cw_tick w)))
          (request_key request) Allow)).
Proof.
  intros Hempty E w. destruct (cedar_skips authz r) eqn:Es.
  { split; [|by left]. unfold cedar_middleware in E. unfold cedar_skips in Es.
    destruct (negb _); [by injection E|]. cbn in Es. rewrite Es in E. by injection E. }
  destruct (cedar_middleware_inv _ _ _ _ _ _ _ Es E) as (_ & _ & _ & -> & _ & claims & request & raw & Ha & Hraw & Hg).
  split; [done|]. right. exists claims, request. split; [done|].
  unfold apply_fail_open in Hraw. destruct raw; [|left; by destruct (cc_fail_open _)]. right.
  destruct Hg as [Hv|(cache & Hc & Hs)]; [by left|right]. split; [by rewrite Hc|].
  eapply (cached_decision_made authz w0 ops cache); [done..|apply gate_monotone, Nat.le_succ_diag_r|exact Hs].
Qed.
End Gate.

(** The layer hands on the request it was given. *)
Lemma cedar_middleware_same `{CedarEnv, HttpEnv, GateClock} {K W : Type} `{!PolicyCache K W} (authz : CedarAuthz K)
    audit matched r (w : CedarWorld W) r' w' :
  cedar_middleware authz audit matched r w = (Ok r', w') → r' = r.
Proof.
  unfold cedar_middleware. destruct (negb _); [by intros [= <- _]|]. destruct (cedar_exempt _); [by intros [= <- _]|].
  intros (? & ? & _ & E)%bind_Ok. do 5 apply bind_Ok in E as (? & ? & _ & E). apply bind_Ok in E as ([] & ? & _ & E).
  - by injection E as <- _.
  - by apply bind_Ok in E as (? & ? & _ & [=]).
Qed.

Lemma authorize_uncached_Ok `{CedarEnv, HttpEnv, GateClock} {K W : Type} `{!PolicyCache K W} (authz : CedarAuthz K)
    principal action resource context claims (w : CedarWorld W) w' :
  ca_cache authz = None → authorize authz principal action resource context claims w = (Ok Allow, w') →
  ∃ request, cedar_request_new principal action resource context = Ok request ∧
    (cc_fail_open (ca_config authz) = true ∨ verdict (cw_policies w) claims request = Ok Allow).
Proof.
  intros Hc. unfold authorize.
  intros (request & w8 & [= Erq <-] & E)%bind_Ok. unfold cached in E. rewrite Hc in E.
  apply bind_Ok in E as (o & w9 & [= <- <-] & E). apply bind_Ok in E as (policies & w10 & [= <- <-] & E).
  apply bind_Ok in E as (entities & w11 & [= Een <-] & E). unfold remember in E. rewrite Hc in E.
  apply bind_Ok in E as ([] & w12 & [= <-] & [= Ed _]). exists request. split; [done|].
  unfold verdict. rewrite Een. cbn.
  assert (request = mkCedarRequest principal action resource context) as ->.
  { unfold cedar_request_new in Erq. by destruct (request_new _ _ _ _); inv_result. }
  cbn in *. unfold apply_fail_open in Ed. destruct (is_authorized _ _ _ _ _ _); [by right|]. left. by destruct (cc_fail_open _).
Qed.

(** Without a cache: a request that passes was skipped, or the policies in force
    allow it (or the layer fails open). *)
Lemma cedar_uncached_Ok `{CedarEnv, HttpEnv, GateClock} {K W : Type} `{!PolicyCache K W} (authz : CedarAuthz K)
    audit matched r (w : CedarWorld W) r' w' :
  ca_cache authz = None → cedar_skips authz r = false →
  cedar_middleware authz audit matched r w = (Ok r', w') →
  r' = r ∧
  ∃ claims request, asks authz matched r (gate_nanos (cw_tick w)) = Ok (claims, request) ∧
    (cc_fail_open (ca_config authz) = true ∨ verdict (cw_policies w) claims request = Ok Allow).
Proof.
  intros Hc [Hen%negb_false_iff Hex]%orb_false_iff. unfold cedar_middleware. rewrite Hen, Hex. cbn [negb].
  intros (claims & w1 & [= Ecl <-] & E)%bind_Ok. apply bind_Ok in E as (principal & w2 & [= Ep <-] & E).
  apply bind_Ok in E as (action & w3 & [= Ea <-] & E). apply bind_Ok in E as (now & w4 & [= <- <-] & E).
  apply bind_Ok in E as (context & w5 & [= Ec <-] & E). apply bind_Ok in E as (resource & w6 & [= Er <-] & E).
  apply bind_Ok in E as (d & w7 & Eau & E). destruct d; [|by apply bind_Ok in E as (? & ? & _ & [=])].
  injection E as <- <-. split; [done|].
  apply authorize_uncached_Ok in Eau as (request & Erq & Hv); [|done]. exists claims, request. split; [|done].
  unfold asks. rewrite Ecl. cbn [result_bind]. rewrite Ep. cbn [result_bind]. rewrite Ea. cbn [result_bind].
  rewrite Ec. cbn [result_bind]. rewrite Er. cbn [result_bind]. by rewrite Erq.
Qed.

(** The request made for a gRPC call. *)
Definition asks_grpc `{CedarEnv, HttpEnv} (r : Request) (now : Z) : result (Claims * CedarRequest) Error :=
  (let? claims := ok_or (Error_Unauthorized "") (req_claims r) in
   let? principal := build_principal claims in
   let? action := build_action_grpc (req_path r) in
   let? context := build_context_grpc (req_headers r) claims now in
   let? resource := build_resource in
   let? request := cedar_request_new principal action resource context in
   Ok (claims, request))%rust.

Lemma or_status_Ok `{CedarEnv} {W A} status (m : M (CedarWorld W) Error A) w a w' :
  or_status status m w = (Ok a, w') → m w = (Ok a, w').
Proof. unfold or_status. destruct (m w) as [res w1]. intros [= E <-]. by apply map_err_Ok in E as ->. Qed.

Lemma grpc_uncached_Ok `{CedarEnv, HttpEnv, GateClock} {K W : Type} `{!PolicyCache K W} (authz : CedarAuthz K)
    audit r (w : CedarWorld W) w' :
  ca_cache authz = None → cc_enabled (ca_config authz) = true → is_grpc_infra_path (req_path r) = false →
  authorize_grpc_request authz audit r w = (Ok tt, w') →
  ∃ claims request, asks_grpc r (gate_nanos (cw_tick w)) = Ok (claims, request) ∧
    (cc_fail_open (ca_config authz) = true ∨ verdict (cw_policies w) claims request = Ok Allow).
Proof.
  intros Hc Hen Hex. unfold authorize_grpc_request. rewrite Hen, Hex. cbn [negb].
  intros (claims & w1 & [= Ecl <-] & E)%bind_Ok.
  apply bind_Ok in E as (principal & w2 & [= Ep <-]%or_status_Ok & E).
  apply bind_Ok in E as (action & w3 & [= Ea <-]%or_status_Ok & E).
  apply bind_Ok in E as (now & w4 & [= <- <-]%or_status_Ok & E).
  apply bind_Ok in E as (context & w5 & [= Ec <-]%or_status_Ok & E).
  apply bind_Ok in E as (resource & w6 & [= Er <-]%or_status_Ok & E).
  apply bind_Ok in E as (d & w7 & Eau%or_status_Ok & E). destruct d; [|by apply bind_Ok in E as (? & ? & _ & [=])].
  apply authorize_uncached_Ok in Eau as (request & Erq & Hv); [|done]. exists claims, request. split; [|done].
  apply ok_or_Ok in Ecl. unfold asks_grpc. rewrite Ecl. cbn [ok_or result_bind]. rewrite Ep. cbn [result_bind].
  rewrite Ea. cbn [result_bind]. rewrite Ec. cbn [result_bind]. rewrite Er. cbn [result_bind]. by rewrite Erq.
Qed.

(** ** Behaviour that looks unintended *)

Section Unintended.
Context `{CedarEnv, HttpEnv}.

(** With [fail_open] the authorizer never denies, also what the policies deny:
    the setting is documented for evaluation errors, which it does not touch. *)
Lemma fail_open_never_denies `{GateClock} {K W : Type} `{!PolicyCache K W} (authz : CedarAuthz K)
    principal action resource context claims (w : CedarWorld W) d w' :
  cc_fail_open (ca_config authz) = true →
  authorize authz principal action resource context claims w = (Ok d, w') → d = Allow.
Proof.
  intros Hf E. assert (∀ d, apply_fail_open authz d = Allow) as Ha by (intros []; cbn; by rewrite ?Hf).
  unfold authorize in E. apply bind_Ok in E as (request & w1 & _ & E). apply bind_Ok in E as ([raw|] & w2 & _ & E).
  - injection E as <- <-. apply Ha.
  - apply bind_Ok in E as (policies & w3 & _ & E). apply bind_Ok in E as (entities & w4 & _ & E).
    apply bind_Ok in E as ([] & w5 & _ & E). injection E as <- <-. apply Ha.
Qed.

(** The address the policies see is the one the client writes into
    [X-Forwarded-For], whether or not forwarding headers are trusted. *)
Lemma client_chooses_ip headers claims now ip :
  header_string headers "x-forwarded-for" = Some ip → has_char "," ip = false →
  ∃ before after, context_json headers claims now = JObject (before ++ ("ip", JString (trim ip)) :: after).
Proof.
  intros Hh Hc. unfold context_json, cedar_client_ip. rewrite Hh.
  rewrite (split_word "," ip Hc). eexists ([_; _] ++ json_opt "email" _ ++ json_opt "username" _ ++ [_]), _. cbn.
  by rewrite <-!app_assoc.
Qed.

(** The entity that carries the attributes is not the principal of a caller
    that is neither a user nor a client. *)
Lemma other_principal_without_entity claims :
  is_user claims = false → is_client claims = false →
  principal_type claims = "Principal" ∧
  entity_json claims = JObject [("uid", JObject [("type", JString "Client"); ("id", JString (cl_sub claims))]);
    ("attrs", JObject [("email", JString (default "" (cl_email claims))); ("roles", json_strings (cl_roles claims));
                       ("permissions", json_strings (cl_perms claims)); ("sub", JString (cl_sub claims))]);
    ("parents", JArray [])].
Proof. intros Hu Hc. unfold principal_type, entity_json. by rewrite Hu, Hc. Qed.

(** What [replace_all] of [/(\d+)(?:/|$)] by [/{id}] makes of ASCII text: the
    slash after the number belongs to the match. *)
Fixpoint number_length (n : nat) (s : string) : option nat :=
  match s with
  | EmptyString => if (0 <? n)%nat then Some n else None
  | String c rest =>
      if is_digit c then number_length (S n) rest
      else if Ascii.eqb c "/" && (0 <? n)%nat then Some (S n) else None
  end.

Fixpoint replace_numbers (skip : nat) (s : string) : string :=
  match s with
  | EmptyString => ""
  | String c rest =>
      match skip with
      | S k => replace_numbers k rest
      | O => match (if Ascii.eqb c "/" then number_length 0 rest else None) with
             | Some n => "/{id}" +:+ replace_numbers n rest
             | None => String c (replace_numbers 0 rest)
             end
      end
  end.

(** The default action of a nested resource loses the slash after the id. *)
Lemma nested_action_joined :
  (∀ s, cedar_numeric_replace_all s = replace_numbers 0 s) →
  cedar_uuid_replace_all "/users/42/orders" = "/users/42/orders" →
  normalize_path_generic "/users/42/orders" = "/users/{id}orders".
Proof. intros Hn Hu. unfold normalize_path_generic. by rewrite Hu, Hn. Qed.
End Unintended.

(** ** Witnesses *)

#[local] Existing Instance witness_http_env.

(** Names are texts, printed with a mark before each character and a stop at
    the end; a policy is the name of a role that may do everything. *)
Fixpoint marked (s : string) : string :=
  match s with EmptyString => "." | String c s => String "," (String c (marked s)) end.

Definition has_json_role (role : string) (context : json) : bool :=
  match context with
  | JObject ((_, JArray roles) :: _) =>
      existsb (fun j => match j with JString s => String.eqb s role | _ => false end) roles
  | _ => false
  end.

#[local] Instance witness_cedar_env : CedarEnv := {|
  EntityUid := string; CedarContext := json; Entities := json; PolicySet := string;
  uid_parse s := Ok s; uid_to_string := marked;
  context_from_json j := Ok j; entities_from_json j := Ok j; policies_parse s := Ok s;
  request_new _ _ _ _ := Ok tt;
  is_authorized _ _ _ context role _ := if has_json_role role context then Allow else Deny;
  cedar_uuid_replace_all s := s; cedar_numeric_replace_all s := replace_numbers 0 s;
|}.

Lemma witness_cedar_laws : CedarLaws.
Proof.
  split. intros u. induction u as [|c u IH]; intros [|c' v] s t E; cbn in *; [done|discriminate..|].
  injection E as -> E. by rewrite (IH v s t E).
Qed.

#[local] Existing Instance witness_cedar_laws.

#[local] Instance witness_cedar_clock : GateClock := {| gate_nanos n := Z.of_nat n * 1000000; gate_millis n := Z.of_nat n |}.

Definition witness_authz : CedarAuthz RedisPolicyCache :=
  mkCedarAuthz (mkCedarConfig true "policies.cedar" false 60 true 300 false) (Some mkRedisPolicyCache) None.

(** A request of one user with some roles. *)
Definition witness_call (roles : list string) : Request :=
  mkRequest "GET" "/reports/7" ∅ None None (Some (mkClaims "user:1" None None roles [] 0 None None None None ∅)) None None.

Definition witness_cedar_world : CedarWorld KvStore := mkCedarWorld "admin" (mkKvStore ∅ []) 0 [].

(** An administrator is let in; without the role, within five minutes, the
    cache still lets the same user in. *)
Lemma cedar_decision_fresh_witness :
  let ops := [Cedar_Request true (Some "/reports/{id}") (witness_call ["admin"])] in
  (cedar_middleware witness_authz true (Some "/reports/{id}") (witness_call []) (cedar_run_all witness_authz ops witness_cedar_world)).1 =
    Ok (witness_call []) ∧
  ∃ i audit matched r, ops !! i = Some (Cedar_Request audit matched r) ∧ r ≠ witness_call [].
Proof.
  intros ops.
  destruct (cedar_middleware witness_authz true (Some "/reports/{id}") (witness_call []) (cedar_run_all witness_authz ops witness_cedar_world))
    as [[r'|e] w'] eqn:E; [|vm_compute in E; discriminate E].
  assert (∀ i j, (i ≤ j)%nat → gate_millis i ≤ gate_millis j) as Hmono by exact inj_le.
  destruct (cedar_decision_fresh Hmono witness_authz witness_cedar_world ops true (Some "/reports/{id}") (witness_call []) r' w')
    as [-> [Hs|(claims & request & Ha & [Hf|[Hv|(_ & i & audit & matched & r & Hi & Hst)]])]];
    [intros [] t [[p a] res]; reflexivity|exact E|vm_compute in Hs; discriminate Hs|discriminate Hf| |].
  - vm_compute in Ha. injection Ha as <- <-. vm_compute in Hv. discriminate Hv.
  - split; [reflexivity|]. exists i, audit, matched, r. split; [exact Hi|].
    intros ->. destruct i as [|i]; [|destruct i; discriminate Hi]. injection Hi as <- <- Er.
    vm_compute in Er. discriminate Er.
Defined.

(** The same as a statement about the code: taking a role away, or reloading
    the policies, does not reach decisions in the cache. *)
Lemma cached_decision_outlives_policy :
  let ops := [Cedar_Request true (Some "/reports/{id}") (witness_call ["admin"]); Cedar_Reload (Ok (Ok "auditor"))] in
  let w := cedar_run_all witness_authz ops witness_cedar_world in
  cw_policies w = "auditor" ∧
  (cedar_middleware witness_authz true (Some "/reports/{id}") (witness_call []) w).1 = Ok (witness_call []).
Proof. split; vm_compute; reflexivity. Qed.
