(* ===== verification/AuditHttp.v ===== *)
(** * Auditing of requests

    [src/acton-service/src/audit/middleware.rs] and the fields of [AuditConfig]
    ([audit/config.rs]) it reads: which requests are audited and what the event
    says. An event's id, time and duration are left out. *)

From S2P Require Import Prelude Text FrameworkError AuditEvent Http.

Local Open Scope string_scope.
Local Open Scope Z_scope.
Local Open Scope list_scope.

Record AuditConfig := mkAuditConfig {
  ac_enabled : bool;
  ac_audit_all_requests : bool;
  ac_audit_auth_events : bool;
  ac_audited_routes : list string;
  ac_excluded_routes : list string;
}.

Definition AuditConfig_default : AuditConfig := mkAuditConfig true false true [] ["/health"; "/ready"; "/metrics"].

(** ** Patterns *)

Definition ends_with (s suffix : string) : bool :=
  (String.length suffix <=? String.length s)%nat
  && String.eqb (str_drop (String.length s - String.length suffix) s) suffix.

Definition strip_suffix (suffix s : string) : option string :=
  if ends_with s suffix then Some (str_take (String.length s - String.length suffix) s) else None.

Definition path_matches_glob (path pattern : string) : bool :=
  if String.eqb path pattern then true
  else match strip_suffix "/*" pattern with
  | Some prefix => starts_with path prefix && (String.length prefix <? String.length path)%nat
  | None =>
  match strip_suffix "/**" pattern with
  | Some prefix => starts_with path prefix
  | None =>
      match split "*" pattern with
      | [before; after] => starts_with path before && ends_with path after
      | _ => false
      end
  end end.

Definition path_matches_patterns (path : string) (patterns : list string) : bool :=
  existsb (path_matches_glob path) patterns.

(** ** Events *)

Record HttpAudit := mkHttpAudit {
  ha_kind : AuditEventKind;
  ha_severity : AuditSeverity;
  ha_source : AuditSource;
  ha_method : string;
  ha_path : string;
  ha_status : Z;
}.

(** [audit_route] is the request's [AuditRoute] extension. *)
Definition should_audit (config : AuditConfig) (audit_route : option string) (path : string) : bool :=
  match audit_route with
  | Some _ => true
  | None =>
      if path_matches_patterns path (ac_excluded_routes config) then false
      else if ac_audit_all_requests config then true
      else path_matches_patterns path (ac_audited_routes config)
  end.

Definition status_severity (status : Z) : AuditSeverity :=
  if 500 <=? status then SevError else if 400 <=? status then SevWarning else SevInformational.

Section Source.
Context `{HttpEnv}.

(** The event for a request that was answered with [status], if it is audited. *)
Definition audit_middleware (config : AuditConfig) (audit_route : option string) (r : Request) (status : Z)
    : option HttpAudit :=
  if should_audit config audit_route (req_path r) then
    let base := audit_source_for_request r in
    let source := mkAuditSource (src_ip base) (src_user_agent base) (cl_sub <$> req_claims r) (src_request_id base) in
    let kind := match audit_route with Some name => Custom name | None => HttpRequest end in
    Some (mkHttpAudit kind (status_severity status) source (req_method r) (req_path r) status)
  else None.
End Source.

(** ** Behaviour that looks unintended *)

Lemma strip_suffix_app p suffix : strip_suffix suffix (p +:+ suffix) = Some p.
Proof.
  unfold strip_suffix, ends_with. rewrite length_string_app.
  replace (String.length p + String.length suffix - String.length suffix)%nat with (String.length p) by lia.
  rewrite str_drop_app, str_take_app, String.eqb_refl.
  by destruct (Nat.leb_spec (String.length suffix) (String.length p + String.length suffix)); [|lia].
Qed.

(** A trailing [/*] does not ask for the slash: excluding [/internal/*] excludes
    every path that merely begins with the same text, such as [/internal-admin],
    from the audit log. *)
Lemma exclusion_reaches_siblings config prefix rest :
  (prefix +:+ "/*") ∈ ac_excluded_routes config → rest ≠ "" →
  should_audit config None (prefix +:+ rest) = false.
Proof.
  intros Hin Hr. unfold should_audit. enough (path_matches_patterns (prefix +:+ rest) (ac_excluded_routes config) = true) as -> by done.
  apply existsb_exists. exists (prefix +:+ "/*"). split; [by apply list_elem_of_In|].
  unfold path_matches_glob. destruct (String.eqb _ _); [done|]. rewrite strip_suffix_app, starts_with_app, length_string_app.
  destruct rest; [done|]. cbn. by apply Nat.ltb_lt; lia.
Qed.
