(* ===== verification/Service.v ===== *)
(** * The assembled service

    The security-relevant part of [ServiceBuilder::build] and [try_build]
    ([src/acton-service/src/service_builder.rs]): which layers a configuration
    yields, which errors refuse the start, and the path of a request through
    the layers, in the order in which they run: caller authorization, token,
    governor, audit, Cedar, request context, handler. An axum layer added later
    runs earlier. The gRPC routes have their own stack
    ([grpc/middleware.rs]).

    Layers that do not look at identities (CORS, headers, compression, timeout,
    body limit, tracing, metrics, sessions, panics) are left out: they sit
    between Cedar and the handler. The constructors of the token validators and
    the TLS loader are parameters; so is the handler, as its status. All layers
    read one clock. *)

From S2P Require Import Prelude Text FrameworkError AuditEvent Http CallerAuth TokenGate RouteMatcher RateLimit Governor Cedar AuditHttp.

Local Open Scope string_scope.
Local Open Scope Z_scope.
Local Open Scope list_scope.

(** ** Configuration *)

Record Config (TokenConfig : Type) := mkConfig {
  cfg_token : option TokenConfig;
  cfg_caller_auth : option CallerAuthConfig;
  cfg_cedar : option CedarConfig;
  cfg_rate_limit : RateLimitConfig;
  cfg_audit : option AuditConfig;
  cfg_tls : option (bool * option string);     (* enabled, client_ca_path *)
  cfg_trust_forwarded_headers : bool;
}.
Arguments mkConfig {TokenConfig}.
Arguments cfg_token {TokenConfig}.
Arguments cfg_caller_auth {TokenConfig}.
Arguments cfg_cedar {TokenConfig}.
Arguments cfg_rate_limit {TokenConfig}.
Arguments cfg_audit {TokenConfig}.
Arguments cfg_tls {TokenConfig}.
Arguments cfg_trust_forwarded_headers {TokenConfig}.

Definition Config_default {TokenConfig} : Config TokenConfig :=
  mkConfig None None None RateLimitConfig_default None None false.

(** ** Building *)

Definition config_error_to_string (e : CallerAuthConfigError) : string :=
  match e with
  | EmptyAllowlist => "[caller_auth].allowlist is empty; a certificate mode with no allowed callers cannot admit anyone, and an allowlist that admits everyone is not an allowlist"
  | AllowlistWithoutCertificateMode => "[caller_auth].allowlist is set but mode is 'bearer', so it is never consulted; either set mode to 'mtls' or 'mtls-or-bearer', or remove the allowlist"
  | InvalidEntry entry source => "[caller_auth].allowlist entry '" +:+ entry +:+ "' is not a usable caller name: " +:+ san_error_to_string source
  | MissingClientCa mode section => "[caller_auth].mode = '" +:+ mode_to_string mode +:+ "' requires verified client certificates, but " +:+ section +:+ " has no client_ca_path, so no certificate is ever requested and every caller would be rejected"
  | NoTlsListener mode section => "[caller_auth].mode = '" +:+ mode_to_string mode +:+ "' requires verified client certificates, but " +:+ section +:+ " terminates no TLS; caller certificates cannot exist on a plaintext listener"
  end.

(** What is outside the program while it is built: the tokio runtime
    ([runtime_supports_block_in_place]), whether the audit agent could be
    spawned, the policy file. *)
Record Surroundings := mkSurroundings {
  su_runtime : option bool;
  su_audit_spawns : bool;
  su_policy_file : result (result string string) string;
}.

Section Service.
Context `{HttpEnv, X509Env, GateClock, CedarEnv, LimiterEnv, RegexEnv}.
Context {V T Wv Wr K W : Type} `{!TokenValidator V Wv} `{!TokenRevocation T Wr} `{!PolicyCache K W}.
(** [PasetoAuth::new] and [JwtAuth::new]: the validator and the public paths, and
    the name of the scheme; [TlsConfigSource::from_tls_config]. *)
Context {TokenConfig Tls : Type} (token_scheme : TokenConfig → string) (token_new : TokenConfig → result (V * list string) Error)
  (tls_load : bool * option string → result Tls Error).

Record ServiceBuilder := mkServiceBuilder {
  sb_config : option (Config TokenConfig);
  sb_cedar : option (CedarAuthz K * PolicySet);
  sb_cedar_path_normalizer : option (string → string);
  sb_tls_override : option Tls;
}.

Record Service := mkService {
  sv_audit : option AuditConfig;
  sv_caller_auth : option CallerAuthPolicy;
  sv_token : option (TokenAuth V T);
  sv_governor : option RateLimit;
  sv_cedar : option (CedarAuthz K * PolicySet);
  sv_tls : option Tls;
  sv_trust_forwarded_headers : bool;
  sv_startup_error : option Error;
}.

Implicit Types config : Config TokenConfig.

(** The configuration: given, loaded, or the default. *)
Definition effective_config (self : ServiceBuilder) (loaded : result (Config TokenConfig) string) : Config TokenConfig :=
  match sb_config self with
  | Some config => config
  | None => match loaded with Ok config => config | Err _ => Config_default end
  end.

(** The audit logger. *)
Definition build_audit config (env : Surroundings) (slot : option Error) : option AuditConfig * option Error :=
  let audit_config := default AuditConfig_default (cfg_audit config) in
  if ac_enabled audit_config then
    match su_runtime env with
    | Some true => (if su_audit_spawns env then Some audit_config else None, slot)
    | Some false => (None, record_startup_error slot (Error_Internal (
        "audit logging is enabled (the default) but the tokio runtime is single-threaded, so the audit agent cannot be spawned from ServiceBuilder::build(); use a multi-threaded runtime (#[tokio::main], or #[tokio::test(flavor = " +:+ QUOTE +:+ "multi_thread" +:+ QUOTE +:+ ")] in tests) or set [audit] enabled = false")))
    | None => (None, slot)
    end
  else (None, slot).

Definition build_cedar (self : ServiceBuilder) config (env : Surroundings) (slot : option Error)
    : option (CedarAuthz K * PolicySet) * option Error :=
  match sb_cedar self with
  | Some cedar => (Some cedar, slot)
  | None =>
      match cfg_cedar config with
      | Some cedar_config =>
          if cc_enabled cedar_config then
            match su_runtime env with
            | Some true =>
                match cedar_build cedar_config (su_policy_file env) with
                | Ok policies => (Some (mkCedarAuthz cedar_config None (sb_cedar_path_normalizer self), policies), slot)
                | Err e => (None, record_startup_error slot (Error_Internal
                    ("Cedar authorization is enabled but its initialization failed; refusing to start rather than serving routes without policy enforcement: " +:+ error_to_string e)))
                end
            | Some false => (None, record_startup_error slot (Error_Internal (
                "Cedar authorization is enabled but the tokio runtime is single-threaded, so its policy set cannot be loaded from ServiceBuilder::build(); use a multi-threaded runtime (#[tokio::main], or #[tokio::test(flavor = " +:+ QUOTE +:+ "multi_thread" +:+ QUOTE +:+ ")] in tests) or set [cedar] enabled = false. Refusing to start rather than serving routes without policy enforcement")))
            | None => (None, record_startup_error slot (Error_Internal 
                "Cedar authorization is enabled but no tokio runtime is available to initialize it; refusing to start rather than serving routes without policy enforcement"))
            end
          else (None, slot)
      | None => (None, slot)
      end
  end.

(** No revocation list is attached. *)
Definition build_token config (slot : option Error) : option (TokenAuth V T) * option Error :=
  match cfg_token config with
  | Some token_config =>
      match token_new token_config with
      | Ok (validator, public_paths) => (Some (mkTokenAuth validator None public_paths), slot)
      | Err e => (None, record_startup_error slot (Error_Internal
          (token_scheme token_config +:+ " authentication is configured but its configuration is invalid; refusing to start rather than serving authenticated routes without authentication: " +:+ error_to_string e)))
      end
  | None => (None, slot)
  end.

Definition build_policy config (slot : option Error) : option CallerAuthPolicy * option Error :=
  match cfg_caller_auth config with
  | Some caller_auth_config =>
      match to_policy caller_auth_config with
      | Ok policy => (Some policy, slot)
      | Err e => (None, record_startup_error slot (Error_Internal
          ("[caller_auth] is configured but its configuration is invalid; refusing to start rather than serving mutual-TLS routes without caller authorization: " +:+ config_error_to_string e)))
      end
  | None => (None, slot)
  end.

Definition build_tls (self : ServiceBuilder) config (slot : option Error) : option Tls * option Error :=
  match sb_tls_override self with
  | Some source => (Some source, slot)
  | None =>
      match cfg_tls config with
      | Some tls =>
          if fst tls then
            match tls_load tls with
            | Ok sc => (Some sc, slot)
            | Err e => (None, record_startup_error slot (Error_Internal
                ("TLS is enabled but its configuration failed to load; refusing to start a plaintext listener: " +:+ error_to_string e)))
            end
          else (None, slot)
      | None => (None, slot)
      end
  end.

(** The policy against the listener it guards. *)
Definition check_listener (self : ServiceBuilder) config
    (policy : option CallerAuthPolicy) (slot : option Error) : option Error :=
  match policy with
  | Some policy =>
      let listener := match sb_tls_override self with Some _ => UnknownListener | None => listener_client_ca (cfg_tls config) end in
      match validate_listener policy listener "[tls]" with
      | Ok _ => slot
      | Err e => record_startup_error slot (Error_Internal (config_error_to_string e))
      end
  | None => slot
  end.

Definition build (self : ServiceBuilder)
    (loaded : result (Config TokenConfig) string) (env : Surroundings) : Service :=
  let config := effective_config self loaded in
  let '(audit, slot) := build_audit config env None in
  let '(cedar, slot) := build_cedar self config env slot in
  let governor := if rl_auto_apply (cfg_rate_limit config) then Some (rate_limit_new (cfg_rate_limit config)) else None in
  let '(token, slot) := build_token config slot in
  let '(policy, slot) := build_policy config slot in
  let '(tls, slot) := build_tls self config slot in
  let slot := check_listener self config policy slot in
  mkService audit (p ← policy; if requires_client_ca p then Some p else None) token governor cedar tls
    (cfg_trust_forwarded_headers config) slot.

Definition try_build (self : ServiceBuilder)
    (loaded : result (Config TokenConfig) string) (env : Surroundings) : result Service Error :=
  let service := build self loaded env in
  match sv_startup_error service with Some e => Err e | None => Ok service end.

(** ** A request *)

(** How a layer ends a request: with a response of its own, an error that
    becomes one, or a panic. *)
Inductive Refusal := Ref_Response (r : Rejection) | Ref_Error (e : Error) | Ref_Panic.

Abbreviation AuthEvent := (AuditEventKind * AuditSeverity * AuditSource * option json)%type.

Record PipeWorld := mkPipeWorld {
  px_validator : Wv;
  px_revocation : Wr;
  px_governor : GovernorState;
  px_policies : PolicySet;
  px_cache : W;
  px_tick : nat;
  px_auth : list AuthEvent;
  px_http : list HttpAudit;
}.

Abbreviation X := (M PipeWorld Refusal).
Local Open Scope monad_scope.
Implicit Types sv : Service.
Implicit Types r : Request.

Definition without_metadata (e : AuditEventKind * AuditSeverity * AuditSource) : AuthEvent := (e, None).

Definition on_gate {A} (m : M (GateWorld Wv Wr) Error A) : X A := fun w =>
  let '(r, g) := m (mkGateWorld (px_validator w) (px_revocation w) (px_tick w) (px_auth w)) in
  (map_err Ref_Error r,
   mkPipeWorld (gw_validator g) (gw_revocation g) (px_governor w) (px_policies w) (px_cache w) (gw_tick g) (gw_audit g) (px_http w)).

Definition on_cedar {A} (m : M (CedarWorld W) Error A) : X A := fun w =>
  let '(r, c) := m (mkCedarWorld (px_policies w) (px_cache w) (px_tick w) []) in
  (map_err Ref_Error r,
   mkPipeWorld (px_validator w) (px_revocation w) (px_governor w) (cw_policies c) (cw_cache c) (cw_tick c)
     (px_auth w ++ map without_metadata (cw_audit c)) (px_http w)).

Definition on_governor {A} (m : Z → M GovernorState GovernorError A) : X A := fun w =>
  let s := px_governor w in
  let '(r, g) := m (gate_nanos (px_tick w)) (mkGovernorState (gv_route_limiters s) (gv_global_limiters s) []) in
  (map_err (fun e => match e with GovErr e => Ref_Error e | GovPanic => Ref_Panic end) r,
   mkPipeWorld (px_validator w) (px_revocation w)
     (mkGovernorState (gv_route_limiters g) (gv_global_limiters g) []) (px_policies w) (px_cache w) (S (px_tick w))
     (px_auth w ++ map without_metadata (gv_audit g)) (px_http w)).

(** The logger audits authentication events. *)
Definition audits sv : bool := match sv_audit sv with Some config => ac_audit_auth_events config | None => false end.

Definition caller_layer sv (style : RejectionStyle) r : X Request :=
  match sv_caller_auth sv with
  | Some policy => lift (map_err Ref_Response (caller_auth_gate style policy r))
  | None => ret r
  end.

Definition token_layer sv r : X Request :=
  match sv_token sv with
  | Some auth => on_gate (token_middleware auth (audits sv) r)
  | None => ret r
  end.

Definition governor_layer sv r : X unit :=
  match sv_governor sv with
  | Some limiter => on_governor (fun now => governor_middleware limiter now (audits sv) None r) ;; ret tt
  | None => ret tt
  end.

Definition cedar_layer sv (matched : option string) r : X Request :=
  match sv_cedar sv with
  | Some (authz, _) => on_cedar (cedar_middleware authz (audits sv) matched r)
  | None => ret r
  end.

(** The status of what an inner layer answers. *)
Definition refusal_status (e : Refusal) : option Z :=
  match e with
  | Ref_Response (Rej_Http status _) => Some status
  | Ref_Response (Rej_Grpc _ _) => Some 200
  | Ref_Error e => Some (resp_status (into_response e))
  | Ref_Panic => None
  end.

Definition log_http (config : AuditConfig) r (status : Z) : X unit := fun w =>
  (Ok tt, mkPipeWorld (px_validator w) (px_revocation w) (px_governor w) (px_policies w) (px_cache w) (px_tick w) (px_auth w)
            (px_http w ++ match audit_middleware config None r status with Some e => [e] | None => [] end)).

(** No layer outside this one sets an [AuditRoute]. *)
Definition audit_layer sv r (inner : X (Request * Z)) : X (Request * Z) :=
  match sv_audit sv with
  | None => inner
  | Some config =>
      let! result := attempt inner in
      match result with
      | Ok (r', status) => log_http config r status ;; ret (r', status)
      | Err e => match refusal_status e with Some status => log_http config r status | None => ret tt end ;; fail e
      end
  end.

(** The request the handler sees, and its status. *)
Definition serve_request sv (matched : option string) (handler : Request → Z) r : X (Request * Z) :=
  let! r := caller_layer sv Style_Http r in
  let! r := token_layer sv r in
  governor_layer sv r ;;
  audit_layer sv r
    (let! r := cedar_layer sv matched r in
     let r := request_context_middleware (sv_trust_forwarded_headers sv) r in
     ret (r, handler r)).

(** ** A gRPC call *)

(** [GrpcTokenAuthService::call]. *)
Definition grpc_token_layer sv r : X Request :=
  match sv_token sv with
  | Some auth =>
      if is_grpc_infra_path (req_path r) || existsb (starts_with (req_path r)) (ta_public_paths auth) || bearer_waived r
      then ret r
      else
        let! result := attempt (on_gate (let! token := lift (extract_token (req_headers r)) in
                                         with_validator (fun now => tv_validate_token now (ta_validator auth) token))) in
        match result with
        | Ok claims => ret (set_claims claims r)
        | Err (Ref_Error e) => fail (Ref_Response (Rej_Grpc 16 (error_to_string e)))
        | Err e => fail e
        end
  | None => ret r
  end.

Definition grpc_cedar_layer sv r : X unit :=
  match sv_cedar sv with
  | Some (authz, _) => fun w =>
      let '(res, c) := authorize_grpc_request authz (audits sv) r (mkCedarWorld (px_policies w) (px_cache w) (px_tick w) []) in
      (map_err Ref_Response res,
       mkPipeWorld (px_validator w) (px_revocation w) (px_governor w) (cw_policies c) (cw_cache c) (cw_tick c)
         (px_auth w ++ map without_metadata (cw_audit c)) (px_http w))
  | None => ret tt
  end.

(** The call the service method sees. *)
Definition grpc_request sv r : X Request :=
  let! r := caller_layer sv Style_Grpc r in
  let! r := grpc_token_layer sv r in
  grpc_cedar_layer sv r ;;
  ret r.
End Service.
