(* ===== verification/ServiceSafety.v ===== *)
(** * The assembled service: theorems

    A service that starts has every protection its configuration asks for; a
    request that reaches a handler has passed all of them, in particular Cedar
    on the claims of its own token. *)

From S2P Require Import Prelude Text FrameworkError AuditEvent Http CallerAuth TokenGate RouteMatcher RateLimit Governor Cedar CedarSafety AuditHttp Service.

Local Open Scope string_scope.
Local Open Scope Z_scope.
Local Open Scope list_scope.

(** ** Starting *)

Section Startup.
Context `{HttpEnv, X509Env, GateClock, CedarEnv, LimiterEnv, RegexEnv}.
Context {V T Wv Wr K W : Type} `{!TokenValidator V Wv} `{!TokenRevocation T Wr} `{!PolicyCache K W}.
Context {TokenConfig Tls : Type} (token_scheme : TokenConfig → string) (token_new : TokenConfig → result (V * list string) Error)
  (tls_load : bool * option string → result Tls Error).
Implicit Types config : Config TokenConfig.

Lemma record_not_None slot e : record_startup_error slot e ≠ None.
Proof. by destruct slot. Qed.

(** Without an error recorded, each part is there when it is configured. *)
Lemma build_cedar_None (self : ServiceBuilder (K := K) (Tls := Tls)) config env slot o :
  build_cedar self config env slot = (o, None) →
  slot = None ∧
  (sb_cedar self = None → ∀ c, cfg_cedar config = Some c → cc_enabled c = true →
     ∃ policies, cedar_build c (su_policy_file env) = Ok policies ∧
       o = Some (mkCedarAuthz c None (sb_cedar_path_normalizer self), policies)).
Proof.
  unfold build_cedar. destruct (sb_cedar self); [intros [= _ ->]; naive_solver|].
  destruct (cfg_cedar config) as [c|]; [|intros [= _ ->]; naive_solver].
  destruct (cc_enabled c) eqn:Ee; [|intros [= _ ->]; split; [done|]; intros _ ? [= <-]; congruence].
  destruct (su_runtime env) as [[]|]; [|by intros [= _ []%record_not_None]..].
  destruct (cedar_build c _) as [policies|] eqn:Eb; [|by intros [= _ []%record_not_None]].
  intros [= <- ->]. split; [done|]. intros _ ? [= <-] _. rewrite Eb. by exists policies.
Qed.

Lemma build_token_None config slot (o : option (TokenAuth V T)) :
  build_token token_scheme token_new config slot = (o, None) →
  slot = None ∧
  ∀ c, cfg_token config = Some c → ∃ v paths, token_new c = Ok (v, paths) ∧ o = Some (mkTokenAuth v None paths).
Proof.
  unfold build_token. destruct (cfg_token config) as [c|]; [|intros [= _ ->]; naive_solver].
  destruct (token_new c) as [[v paths]|] eqn:E; [|by intros [= _ []%record_not_None]].
  intros [= <- ->]. split; [done|]. intros ? [= <-]. rewrite E. by exists v, paths.
Qed.

Lemma build_policy_None config slot o :
  build_policy config slot = (o, None) →
  slot = None ∧ ∀ c, cfg_caller_auth config = Some c → ∃ policy, to_policy c = Ok policy ∧ o = Some policy.
Proof.
  unfold build_policy. destruct (cfg_caller_auth config) as [c|]; [|intros [= _ ->]; naive_solver].
  destruct (to_policy c) as [policy|] eqn:E; [|by intros [= _ []%record_not_None]].
  intros [= <- ->]. split; [done|]. intros ? [= <-]. rewrite E. by exists policy.
Qed.

Lemma build_tls_None (self : ServiceBuilder (K := K)) config slot o :
  build_tls tls_load self config slot = (o, None) →
  slot = None ∧ ∀ ca, cfg_tls config = Some (true, ca) → ∃ source, o = Some source.
Proof.
  unfold build_tls. destruct (sb_tls_override self) as [s|]; [intros [= <- ->]; eauto|].
  destruct (cfg_tls config) as [[[] ca]|]; cbn [fst]; [|intros [= _ ->]; naive_solver..].
  destruct (tls_load _) as [s|]; [|by intros [= _ []%record_not_None]]. intros [= <- ->]. eauto.
Qed.

Lemma check_listener_None (self : ServiceBuilder (K := K) (Tls := Tls)) config policy slot :
  check_listener self config policy slot = None →
  slot = None ∧
  ∀ p, policy = Some p → requires_client_ca p = true →
    sb_tls_override self ≠ None ∨ ∃ path, cfg_tls config = Some (true, Some path).
Proof.
  unfold check_listener. destruct policy as [p|]; [|done].
  destruct (validate_listener p _ _) as [u|] eqn:E; [|by intros []%record_not_None]. intros ->. split; [done|].
  intros ? [= <-] Hp. unfold validate_listener in E. rewrite Hp in E. cbn [negb] in E.
  destruct (sb_tls_override self); [by left|right].
  destruct (cfg_tls config) as [[[] [path|]]|]; cbn in E; try discriminate. by exists path.
Qed.

(** C11: A service that starts is not weaker than the configuration in force,
    which is the one given to the builder, else the one loaded, else, when
    loading fails, the default, which asks for nothing
    ([unloadable_config_unprotected]): the token layer is there when tokens are
    configured, with the validator made from the configuration; caller
    authorization is there when a certificate mode is configured, and unless
    the TLS source was given to the builder the listener has a CA for client
    certificates; Cedar is there when it is enabled and no Cedar layer was given
    to the builder, with the policies of the file; an enabled TLS section gives
    a TLS listener. Anything of these that cannot be set up refuses the start. *)
Theorem startup_fail_closed (self : ServiceBuilder (K := K)) loaded env (sv : Service (T := T)) :
  try_build token_scheme token_new tls_load self loaded env = Ok sv →
  let config := effective_config self loaded in
  (∀ c, cfg_token config = Some c →
     ∃ v paths, token_new c = Ok (v, paths) ∧ sv_token sv = Some (mkTokenAuth v None paths)) ∧
  (∀ c, cfg_caller_auth config = Some c → ∃ policy, to_policy c = Ok policy ∧
     (requires_client_ca policy = true → sv_caller_auth sv = Some policy ∧
        (sb_tls_override self ≠ None ∨ ∃ path, cfg_tls config = Some (true, Some path)))) ∧
  (∀ c, sb_cedar self = None → cfg_cedar config = Some c → cc_enabled c = true →
     ∃ policies, cedar_build c (su_policy_file env) = Ok policies ∧
       sv_cedar sv = Some (mkCedarAuthz c None (sb_cedar_path_normalizer self), policies)) ∧
  (∀ ca, cfg_tls config = Some (true, ca) → ∃ source, sv_tls sv = Some source).
Proof.
  unfold try_build, build. set (config := effective_config self loaded). clearbody config. cbv zeta.
  destruct (build_audit config env None) as [audit s0]. destruct (build_cedar self config env s0) as [cedar s1] eqn:E1.
  destruct (build_token _ _ config s1) as [token s2] eqn:E2. destruct (build_policy config s2) as [policy s3] eqn:E3.
  destruct (build_tls _ self config s3) as [tls s4] eqn:E4. cbn.
  destruct (check_listener self config policy s4) eqn:E5; [done|]. intros [= <-].
  apply check_listener_None in E5 as [-> Hb5]. apply build_tls_None in E4 as [-> Hb4].
  apply build_policy_None in E3 as [-> Hb3]. apply build_token_None in E2 as [-> Hb2].
  apply build_cedar_None in E1 as [-> Hb1]. cbn. split_and!.
  - exact Hb2.
  - intros c Hc. destruct (Hb3 c Hc) as (p & Hp & ->). exists p. split; [done|]. intros Hr. cbn. rewrite Hr.
    split; [done|]. by apply (Hb5 p).
  - intros c Hn Hc He. by apply Hb1.
  - exact Hb4.
Qed.
End Startup.

(** ** Requests *)

Section Requests.
Context `{HttpEnv, X509Env, GateClock, CedarEnv, LimiterEnv, RegexEnv}.
Context {V T Wv Wr K W Tls : Type} `{!TokenValidator V Wv} `{!TokenRevocation T Wr} `{!TokenRevocationLaws T Wr} `{!PolicyCache K W}.
Implicit Types sv : Service (V := V) (T := T) (K := K) (Tls := Tls).
Implicit Types w : PipeWorld (Wv := Wv) (Wr := Wr) (W := W).
Implicit Types r : Request.

(** *** What each layer lets through *)

Lemma caller_gate_shape style policy r r' :
  caller_auth_gate style policy r = Ok r' →
  r' = r ∨ ∃ san, r' = set_caller (mkCallerIdentity san (bool_decide (pol_mode policy = MtlsOrBearer))) r.
Proof.
  unfold caller_auth_gate. destruct (_ || _); [intros [= <-]; by left|].
  destruct (CallerAuth.authorize _ _ _) as [[san|]|]; [|intros [= <-]; by left|done]. intros [= <-]. right. by exists san.
Qed.

(** The request after the caller layer: unchanged, or with the name its
    certificate proved. *)
Definition identified sv style r r1 : Prop :=
  (∀ policy, sv_caller_auth sv = Some policy → caller_auth_gate style policy r = Ok r1) ∧
  (r1 = r ∨ ∃ policy san, sv_caller_auth sv = Some policy ∧
     r1 = set_caller (mkCallerIdentity san (bool_decide (pol_mode policy = MtlsOrBearer))) r).

Lemma caller_layer_Ok sv style r w r1 w1 :
  caller_layer sv style r w = (Ok r1, w1) → w1 = w ∧ identified sv style r r1.
Proof.
  unfold caller_layer, identified. destruct (sv_caller_auth sv) as [policy|]; [|intros [= <- <-]; naive_solver].
  unfold lift. destruct (caller_auth_gate style policy r) as [r'|] eqn:E; [|done]. intros [= -> <-].
  split; [done|]. split; [by intros ? [= <-]|]. apply caller_gate_shape in E as [|[san ?]]; eauto.
Qed.

Lemma identified_fields sv style r r1 :
  identified sv style r r1 → req_method r1 = req_method r ∧ req_path r1 = req_path r ∧ req_headers r1 = req_headers r ∧
    req_claims r1 = req_claims r.
Proof. intros [_ [->|(policy & san & _ & ->)]]; done. Qed.

(** A token is not asked of a caller whose certificate was accepted in its place. *)
Lemma identified_waived sv style r r1 :
  req_caller r = None → identified sv style r r1 → bearer_waived r1 = true →
  ∃ policy san, sv_caller_auth sv = Some policy ∧ pol_mode policy = MtlsOrBearer ∧
    caller_auth_gate style policy r = Ok (set_caller (mkCallerIdentity san true) r).
Proof.
  intros Hc [Hg [->|(policy & san & Hp & ->)]]; unfold bearer_waived; [by rewrite Hc|]. cbn.
  intros Hm%bool_decide_eq_true. exists policy, san. split; [done|]. split; [done|].
  rewrite (Hg policy Hp). by rewrite bool_decide_true.
Qed.

Lemma on_gate_Ok {A} (m : M (GateWorld Wv Wr) Error A) w a w' :
  on_gate m w = (Ok a, w') →
  ∃ g, m (mkGateWorld (px_validator w) (px_revocation w) (px_tick w) (px_auth w)) = (Ok a, g) ∧
    px_policies w' = px_policies w ∧ px_cache w' = px_cache w ∧ px_governor w' = px_governor w ∧ px_http w' = px_http w.
Proof.
  unfold on_gate. destruct (m _) as [res g] eqn:E. intros [= E1 <-]. apply map_err_Ok in E1 as ->. by exists g.
Qed.

Lemma on_cedar_Ok {A} (m : M (CedarWorld W) Error A) w a w' :
  on_cedar m w = (Ok a, w') →
  ∃ c, m (mkCedarWorld (px_policies w) (px_cache w) (px_tick w) []) = (Ok a, c) ∧ px_http w' = px_http w.
Proof.
  unfold on_cedar. destruct (m _) as [res c] eqn:E. intros [= E1 <-]. apply map_err_Ok in E1 as ->. by exists c.
Qed.

(** Whose claims a request carries after the token layer. *)
Definition authenticated sv r r1 w (claims : option Claims) : Prop :=
  ∀ auth, sv_token sv = Some auth →
  match claims with
  | Some claims => ∃ token v, extract_token (req_headers r) = Ok token ∧
      tv_validate_token (gate_nanos (px_tick w)) (ta_validator auth) token (px_validator w) = (Ok claims, v) ∧
      ∀ revocation jti, ta_revocation auth = Some revocation → cl_jti claims = Some jti →
        tr_revoked revocation (gate_millis (S (px_tick w))) jti (px_revocation w) = false
  | None => req_method r = "OPTIONS" ∨ is_public_path (ta_public_paths auth) (req_path r) = true ∨ bearer_waived r1 = true
  end.

Lemma token_layer_Ok sv r w r2 w2 :
  req_claims r = None → token_layer sv r w = (Ok r2, w2) →
  px_policies w2 = px_policies w ∧ px_governor w2 = px_governor w ∧ px_http w2 = px_http w ∧
  r2 = match req_claims r2 with Some claims => set_claims claims r | None => r end ∧
  (sv_token sv = None → req_claims r2 = None) ∧ authenticated sv r r w (req_claims r2).
Proof.
  intros Hr. unfold token_layer, authenticated. destruct (sv_token sv) as [auth|]; [|intros [= <- <-]; by rewrite Hr].
  intros (g & E & -> & _ & -> & ->)%on_gate_Ok. apply token_middleware_Ok in E as [(Hu & -> & _)|(_ & token & claims & v & Ht & Hv & -> & Hn & _)].
  - rewrite Hr. split_and!; try done. intros ? [= <-]. unfold unexamined in Hu.
    apply orb_true_iff in Hu as [[Hu|Hu]%orb_true_iff|Hu]; [|by auto..]. left. by apply String.eqb_eq.
  - cbn. split_and!; try done. intros ? [= <-]. by exists token, v.
Qed.

(** The limiter admitted the request. *)
Definition limiter_admits sv r (state : GovernorState) : Prop :=
  ∀ limiter, sv_governor sv = Some limiter →
  ∃ tick answer g, governor_middleware limiter (gate_nanos tick) (audits sv) None r
    (mkGovernorState (gv_route_limiters state) (gv_global_limiters state) []) = (Ok answer, g).

Lemma governor_layer_Ok sv r w w' :
  governor_layer sv r w = (Ok tt, w') →
  px_policies w' = px_policies w ∧ px_http w' = px_http w ∧ limiter_admits sv r (px_governor w).
Proof.
  unfold governor_layer, limiter_admits. destruct (sv_governor sv) as [limiter|]; [|by intros [= <-]].
  intros (x & w1 & E & [= <-])%bind_Ok. unfold on_governor in E.
  destruct (governor_middleware _ _ _ _ _ _) as [res g] eqn:Eg. injection E as Er <-. apply map_err_Ok in Er as ->.
  split; [done|]. split; [done|]. intros ? [= <-]. by eexists _, _, _.
Qed.

(** The record of a request that the audit layer leaves. *)
Definition audit_record sv r (status : Z) : list HttpAudit :=
  match sv_audit sv with
  | Some config => match audit_middleware config None r status with Some e => [e] | None => [] end
  | None => []
  end.

Lemma audit_layer_Ok sv r inner w r' status w' :
  audit_layer sv r inner w = (Ok (r', status), w') →
  ∃ w1, inner w = (Ok (r', status), w1) ∧ px_http w' = px_http w1 ++ audit_record sv r status.
Proof.
  unfold audit_layer, audit_record. destruct (sv_audit sv) as [config|]; [|intros ->; eexists; by rewrite app_nil_r].
  intros (res & w1 & Ei & E)%bind_Ok. unfold attempt in Ei. destruct (inner w) as [res' w2] eqn:Ein. injection Ei as <- <-.
  destruct res' as [[r0 s]|e].
  - apply bind_Ok in E as (? & ? & Elog & [= <- <- <-]). injection Elog as _ <-. by exists w2.
  - by apply bind_Ok in E as (? & ? & _ & [=]).
Qed.

(** What the Cedar layer demands of a request that it lets through. *)
Definition cedar_admits sv (matched : option string) r (policies : PolicySet) : Prop :=
  ∀ authz p, sv_cedar sv = Some (authz, p) → cedar_skips authz r = false →
  ∃ claims, req_claims r = Some claims ∧
    (ca_cache authz = None → cc_fail_open (ca_config authz) = false →
     ∃ request now, asks authz matched r now = Ok (claims, request) ∧ verdict policies claims request = Ok Allow).

Lemma cedar_layer_Ok sv matched r w r' w' :
  cedar_layer sv matched r w = (Ok r', w') → r' = r ∧ px_http w' = px_http w ∧ cedar_admits sv matched r (px_policies w).
Proof.
  unfold cedar_layer, cedar_admits. destruct (sv_cedar sv) as [[authz p]|]; [|by intros [= <- <-]].
  intros (c & E & Hh)%on_cedar_Ok. split; [by eapply cedar_middleware_same|]. split; [done|].
  intros ? ? [= <- <-] Hs. assert (∃ claims, req_claims r = Some claims) as [claims Hc].
  { unfold cedar_middleware in E. unfold cedar_skips in Hs. apply orb_false_iff in Hs as [Hs1 Hs2]. rewrite Hs1, Hs2 in E.
    apply bind_Ok in E as (claims & ? & E1 & _). destruct (req_claims r) as [c0|]; [by exists c0|done]. }
  exists claims. split; [done|]. intros Hcn Hf.
  apply cedar_uncached_Ok in E as (_ & claims' & request & Ha & [|Hv]); [congruence| |done..].
  assert (claims' = claims) as ->; [|by eexists _, _].
  unfold asks in Ha. rewrite Hc in Ha. cbn [ok_or result_bind] in Ha. by inv_result.
Qed.

End Requests.

(** ** gRPC calls *)

Section Calls.
Context `{HttpEnv, X509Env, GateClock, CedarEnv, LimiterEnv, RegexEnv}.
Context {V T Wv Wr K W Tls : Type} `{!TokenValidator V Wv} `{!TokenRevocation T Wr} `{!PolicyCache K W}.
Implicit Types sv : Service (V := V) (T := T) (K := K) (Tls := Tls).
Implicit Types w : PipeWorld (Wv := Wv) (Wr := Wr) (W := W).
Implicit Types r : Request.

Definition grpc_public (auth : TokenAuth V T) (path : string) : bool :=
  is_grpc_infra_path path || existsb (starts_with path) (ta_public_paths auth).

Lemma grpc_token_layer_Ok sv r w r2 w2 :
  req_claims r = None → grpc_token_layer sv r w = (Ok r2, w2) →
  px_policies w2 = px_policies w ∧
  r2 = match req_claims r2 with Some claims => set_claims claims r | None => r end ∧
  ∀ auth, sv_token sv = Some auth →
    match req_claims r2 with
    | Some claims => ∃ token v, extract_token (req_headers r) = Ok token ∧
        tv_validate_token (gate_nanos (px_tick w)) (ta_validator auth) token (px_validator w) = (Ok claims, v)
    | None => grpc_public auth (req_path r) = true ∨ bearer_waived r = true
    end.
Proof.
  intros Hr. unfold grpc_token_layer. destruct (sv_token sv) as [auth|]; [|intros [= <- <-]; by rewrite Hr].
  unfold grpc_public. destruct (_ || bearer_waived r) eqn:Ep.
  { intros [= <- <-]. rewrite Hr. split_and!; [done..|]. intros ? [= <-]. by apply orb_true_iff. }
  intros (res & w1 & Eg & E)%bind_Ok. unfold attempt in Eg. destruct (on_gate _ w) as [res' w3] eqn:Eo.
  injection Eg as -> ->. destruct res as [claims|[| |]]; try done. injection E as <- <-.
  apply on_gate_Ok in Eo as (g & Eo & Hp & _). apply bind_Ok in Eo as (token & g1 & [= Et <-] & Ev).
  unfold with_validator in Ev. cbn in Ev. destruct (tv_validate_token _ _ _ _) as [rc v] eqn:Etv. injection Ev as -> <-.
  cbn. split_and!; [done..|]. intros ? [= <-]. by exists token, v.
Qed.

(** What a gRPC method can rely on: as [admitted_request], except that no
    revocation list is asked. *)
Lemma admitted_call sv r w r' w' :
  req_claims r = None → req_caller r = None → grpc_request sv r w = (Ok r', w') →
  (∀ policy, sv_caller_auth sv = Some policy → is_ok (caller_auth_gate Style_Grpc policy r) = true) ∧
  (∀ auth, sv_token sv = Some auth →
     match req_claims r' with
     | Some claims => ∃ token v, extract_token (req_headers r) = Ok token ∧
         tv_validate_token (gate_nanos (px_tick w)) (ta_validator auth) token (px_validator w) = (Ok claims, v)
     | None => grpc_public auth (req_path r) = true ∨
         ∃ policy san, sv_caller_auth sv = Some policy ∧ pol_mode policy = MtlsOrBearer ∧
           caller_auth_gate Style_Grpc policy r = Ok (set_caller (mkCallerIdentity san true) r)
     end) ∧
  (∀ authz p, sv_cedar sv = Some (authz, p) → cc_enabled (ca_config authz) = true → is_grpc_infra_path (req_path r) = false →
     ca_cache authz = None → cc_fail_open (ca_config authz) = false →
     ∃ claims request now, req_claims r' = Some claims ∧ asks_grpc r' now = Ok (claims, request) ∧
       verdict (px_policies w) claims request = Ok Allow).
Proof.
  intros Hcl Hca (r1 & w1 & E1 & E)%bind_Ok. apply caller_layer_Ok in E1 as [-> Hid].
  pose proof (identified_fields _ _ _ _ Hid) as (Hm & Hp & Hh & Hc).
  apply bind_Ok in E as (r2 & w2 & E2 & E). apply grpc_token_layer_Ok in E2 as (Hpol & Hr2 & Hau); [|congruence].
  apply bind_Ok in E as ([] & w3 & E3 & [= <- <-]). split_and!.
  - intros policy Hpo. destruct Hid as [Hg _]. by rewrite (Hg policy Hpo).
  - intros auth Ha. specialize (Hau auth Ha). destruct (req_claims r2) as [claims|]; [by rewrite <-Hh|].
    rewrite Hp in Hau. destruct Hau as [|Hw]; [by left|right]. by eapply identified_waived.
  - intros authz p Hce Hen Hin Hcn Hf. unfold grpc_cedar_layer in E3. rewrite Hce in E3.
    destruct (authorize_grpc_request _ _ _ _) as [res c] eqn:E4. injection E3 as E3 _. apply map_err_Ok in E3 as ->.
    assert (req_path r2 = req_path r) as Hp2 by (rewrite Hr2; by destruct (req_claims r2)).
    apply grpc_uncached_Ok in E4 as (claims & request & Ha & [|Hv]); [congruence| |done..|by rewrite Hp2].
    exists claims, request, (gate_nanos (px_tick w2)). cbn in Ha, Hv. rewrite Hpol in Hv. split; [|done].
    unfold asks_grpc in Ha. destruct (req_claims r2) as [c'|]; [|done]. cbn [ok_or result_bind] in Ha. by inv_result.
Qed.
End Calls.

(** ** Behaviour that looks unintended *)

Section Unintended.
Context `{HttpEnv, X509Env, GateClock, CedarEnv, LimiterEnv, RegexEnv}.
Context {V T Wv Wr K W : Type} `{!TokenValidator V Wv} `{!TokenRevocation T Wr} `{!PolicyCache K W}.
Context {TokenConfig Tls : Type} (token_scheme : TokenConfig → string) (token_new : TokenConfig → result (V * list string) Error)
  (tls_load : bool * option string → result Tls Error).

(** A configuration that cannot be loaded is replaced by the default one, which
    asks for nothing: the service starts without token authentication, caller
    authorization, Cedar and TLS, whatever the file meant to say. *)
Lemma unloadable_config_unprotected normalizer msg env :
  su_runtime env = Some true →
  ∃ sv : Service (T := T),
    try_build token_scheme token_new tls_load (mkServiceBuilder (K := K) None None normalizer None) (Err msg) env = Ok sv ∧
    sv_token sv = None ∧ sv_caller_auth sv = None ∧ sv_cedar sv = None ∧ sv_tls sv = None.
Proof. intros Hr. unfold try_build, build, build_audit. cbn. rewrite Hr. eexists. split; [done|]. done. Qed.

(** Cedar refuses every request the token layer lets through without a token:
    preflights, public paths, and callers whose certificate stands in for it. *)
Lemma cedar_refuses_tokenless (authz : CedarAuthz K) audit matched r (w : CedarWorld W) :
  cedar_skips authz r = false → req_claims r = None →
  (cedar_middleware authz audit matched r w).1 =
    Err (Error_Unauthorized "Missing JWT claims. Ensure JWT middleware runs before Cedar middleware.").
Proof.
  intros [Hen%negb_false_iff Hex]%orb_false_iff Hc. unfold cedar_middleware. by rewrite Hen, Hex, Hc.
Qed.

(** *** The request context comes too late for the token layer *)

(** [m] adds only audit events whose source satisfies [P]. *)
Definition logs_only {A} (P : AuditSource → Prop) (m : M (GateWorld Wv Wr) Error A) : Prop := ∀ w,
  ∃ new, gw_audit (m w).2 = gw_audit w ++ new ∧ Forall (fun e : AuditEventKind * AuditSeverity * AuditSource * option json => P e.1.2) new.

Lemma logs_none {A} P (m : M (GateWorld Wv Wr) Error A) :
  (∀ w, gw_audit (m w).2 = gw_audit w) → logs_only P m.
Proof. intros Hm w. exists []. by rewrite Hm, (right_id_L [] (++)). Qed.

Lemma logs_bind {A B} P (m : M (GateWorld Wv Wr) Error A) (k : A → M (GateWorld Wv Wr) Error B) :
  logs_only P m → (∀ a, logs_only P (k a)) → logs_only P (bind m k).
Proof.
  intros Hm Hk w. destruct (Hm w) as (l1 & E1 & H1'). unfold bind. destruct (m w) as [[a|e] w1]; cbn in E1; [|by exists l1].
  destruct (Hk a w1) as (l2 & E2 & H2'). exists (l1 ++ l2). rewrite E2, E1, (assoc_L (++)). split; [done|]. by apply Forall_app.
Qed.

Lemma logs_gate P audit kind severity (source : AuditSource) metadata :
  P source → logs_only P (gate_log audit kind severity source metadata).
Proof.
  intros Hs w. destruct audit; cbn; [eexists; split; [done|]; by repeat constructor|].
  exists []. by rewrite (right_id_L [] (++)).
Qed.

Lemma logs_or_log {A} P (on_err : M (GateWorld Wv Wr) Error unit) (m : M (GateWorld Wv Wr) Error A) :
  logs_only P on_err → logs_only P m → logs_only P (or_log on_err m).
Proof.
  intros He Hm. apply logs_bind; [|intros [a|e]; [by apply logs_none|apply logs_bind; [done|]; intros _; by apply logs_none]].
  intros w. destruct (Hm w) as (l & E & Hl). exists l. unfold attempt. by destruct (m w).
Qed.

(** Every event the token layer sends about a request that has no
    [RequestContext] yet, and in the assembled service it has none, lacks the
    client's address, although the peer is known. *)
Lemma token_events_lack_ip auth audit r :
  req_context r = None →
  logs_only (fun source => src_ip source = None) (token_middleware (V := V) (T := T) auth audit r).
Proof.
  intros Hc. unfold token_middleware. destruct (unexamined auth r); [by apply logs_none|].
  assert (src_ip (audit_source_for_request r) = None) as Hs by (unfold audit_source_for_request; by rewrite Hc).
  apply logs_bind; [apply logs_or_log; [by apply logs_gate|by apply logs_none]|]. intros token.
  apply logs_bind; [apply logs_or_log; [by apply logs_gate|]|].
  { apply logs_none. intros w. unfold with_validator. by destruct (tv_validate_token _ _ _ _). }
  intros claims. apply logs_bind; [|intros _; apply logs_bind; [by apply logs_gate|intros _; by apply logs_none]].
  unfold check_revocation. destruct (ta_revocation auth) as [rev|]; [|by apply logs_none].
  destruct (cl_jti claims) as [j|]; [|by apply logs_none]. apply logs_bind.
  - apply logs_none. intros w. unfold with_revocation. by destruct (tr_is_revoked _ _ _ _).
  - intros []; [|by apply logs_none]. apply logs_bind; [by apply logs_gate|]. intros _. by apply logs_none.
Qed.
End Unintended.

(** ** Witnesses *)

#[local] Existing Instance witness_http_env.
#[local] Existing Instance witness_x509_env.
#[local] Existing Instance witness_regex_env.
#[local] Existing Instance witness_limiter_env.
#[local] Existing Instance witness_cedar_env.
#[local] Existing Instance witness_cedar_clock.

(** A token is the name of its user's role. *)
#[local] Instance witness_role_validator : TokenValidator unit unit :=
  {| tv_validate_token _ _ token := ret (mkClaims "user:1" None None [token] [] 0 None None None None ∅) |}.

Definition witness_service_config : Config unit :=
  mkConfig (Some tt) (Some witness_caller_config)
    (Some (mkCedarConfig true "policies.cedar" false 60 true 300 false)) RateLimitConfig_default None
    (Some (true, Some "ca.pem")) false.

Definition witness_try_build : result (Service (V := unit) (T := RedisTokenRevocation) (K := RedisPolicyCache) (Tls := unit)) Error :=
  try_build (fun _ => "PASETO") (fun _ => Ok (tt, ["/public"])) (fun _ => Ok tt)
    (mkServiceBuilder (Some witness_service_config) None None None) (Err "") (mkSurroundings (Some true) true (Ok (Ok "admin"))).

Lemma startup_fail_closed_witness :
  ∃ sv policies, witness_try_build = Ok sv ∧ sv_token sv = Some (mkTokenAuth tt None ["/public"]) ∧
    sv_cedar sv = Some (mkCedarAuthz (mkCedarConfig true "policies.cedar" false 60 true 300 false) None None, policies).
Proof.
  destruct witness_try_build as [sv|e] eqn:E; [|discriminate E].
  destruct (startup_fail_closed (K := RedisPolicyCache) (T := RedisTokenRevocation)
    (fun _ => "PASETO") (fun _ => Ok (tt, ["/public"])) (fun _ => Ok tt)
    (mkServiceBuilder (Some witness_service_config) None None None) (Err "")
    (mkSurroundings (Some true) true (Ok (Ok "admin"))) sv E) as (Ht & _ & Hc & _).
  destruct (Ht tt eq_refl) as ([] & paths & [= <-] & Hv). destruct (Hc _ eq_refl eq_refl eq_refl) as (policies & _ & Hp).
  exists sv, policies. split; [reflexivity|]. split; [exact Hv|exact Hp].
Defined.

Definition witness_pipe : PipeWorld (Wv := unit) (Wr := Redis.RedisStore) (W := RedisKv.KvStore) :=
  mkPipeWorld tt (Redis.mkRedisStore ∅ []) (mkGovernorState ∅ ∅ []) "admin" (RedisKv.mkKvStore ∅ []) 0 [] [].

(** An administrator's request with a bearer token and no certificate. *)
Definition witness_service_request (role : string) : Request :=
  mkRequest "GET" "/reports/7" {["authorization" := "Bearer " +:+ role]} (Some "10.0.0.9") None None None None.

