(* ===== verification/Sessions.v ===== *)
(** * Sessions

    [src/acton-service/src/session/]: the session configuration and layers
    ([config.rs], [mod.rs]), the typed extractors and the authentication data
    ([extractors.rs]) and flash messages ([flash.rs]). [tower_sessions] is a
    parameter: [SessionApi] is what a [Session] handle offers (a map from keys
    to JSON values, whose calls may fail), [SessionLaws] what it documents of
    the contents a handle shows, [SessionSaves] of what is saved when the request
    ends. The serde derives are written out as codecs between the data and JSON. *)

From S2P Require Import Prelude Text FrameworkError AuditEvent Http Cedar.

Local Open Scope string_scope.
Local Open Scope Z_scope.
Local Open Scope list_scope.
Local Open Scope monad_scope.

(** ** Configuration *)

Inductive SessionStorage := Storage_Memory | Storage_Redis.

Record CsrfConfig := mkCsrfConfig {
  cf_enabled : bool;
  cf_token_length : Z;
  cf_header_name : string;
  cf_form_field_name : string;
  cf_safe_methods : list string;
}.

Definition CsrfConfig_default : CsrfConfig :=
  mkCsrfConfig true 32 "X-CSRF-Token" "_csrf" ["GET"; "HEAD"; "OPTIONS"; "TRACE"].

Record SessionConfig := mkSessionConfig {
  sc_cookie_name : string;
  sc_expiry_secs : Z;
  sc_inactivity_timeout_secs : option Z;
  sc_cookie_path : string;
  sc_cookie_domain : option string;
  sc_secure : bool;
  sc_http_only : bool;
  sc_same_site : string;
  sc_storage : SessionStorage;
  sc_redis_url : option string;
  sc_csrf : CsrfConfig;
}.

Definition SessionConfig_default : SessionConfig :=
  mkSessionConfig "session_id" 86400 None "/" None true true "lax" Storage_Memory None CsrfConfig_default.

(** [tower_sessions::Expiry] and [cookie::SameSite]. *)
Inductive Expiry := OnSessionEnd | OnInactivity (secs : Z).
Inductive SameSite := Strict | Lax | SameSite_None.

(** A [SessionManagerLayer]: its store and its cookie. *)
Record SessionLayer := mkSessionLayer {
  sl_store : SessionStorage;
  sl_name : string;
  sl_expiry : Expiry;
  sl_secure : bool;
  sl_http_only : bool;
  sl_same_site : SameSite;
  sl_path : string;
  sl_domain : option string;
}.

Definition session_expiry (config : SessionConfig) : Expiry :=
  if sc_expiry_secs config =? 0 then OnSessionEnd
  else match sc_inactivity_timeout_secs config with
       | Some inactivity => OnInactivity (as_signed 64 inactivity)
       | None => OnInactivity (as_signed 64 (sc_expiry_secs config))
       end.

(** [to_lowercase] agrees with the ASCII one on the two words matched: no
    other character is mapped to one of their letters. *)
Definition session_same_site (config : SessionConfig) : SameSite :=
  match match_str [("strict", Strict); ("none", SameSite_None)] (str_map ascii_lower (sc_same_site config)) with
  | Some same_site => same_site
  | None => Lax
  end.

Definition session_layer (store : SessionStorage) (config : SessionConfig) : SessionLayer :=
  mkSessionLayer store (sc_cookie_name config) (session_expiry config) (sc_secure config) (sc_http_only config)
    (session_same_site config) (sc_cookie_path config) (sc_cookie_domain config).

Definition create_memory_session_layer (config : SessionConfig) : SessionLayer :=
  session_layer Storage_Memory config.

(** The [fred] client: parsing its URL, building the pool, connecting. *)
Class SessionRedisEnv := {
  fred_config : Type;
  fred_pool : Type;
  fred_from_url : string → result fred_config string;
  fred_build_pool : fred_config → Z → result fred_pool string;
  fred_init : fred_pool → result unit string;
}.

Section RedisLayer.
Context `{SessionRedisEnv}.

Definition create_redis_session_layer (config : SessionConfig) (redis_url : string) : result SessionLayer Error :=
  (let? redis_config := map_err (fun e => Error_Internal ("Invalid Redis URL for sessions: " +:+ e))
                          (fred_from_url redis_url) in
   let? pool := map_err (fun e => Error_Internal ("Failed to create session Redis pool: " +:+ e))
                  (fred_build_pool redis_config 6) in
   let? _ := map_err (fun e => Error_Internal ("Failed to connect to Redis for sessions: " +:+ e))
               (fred_init pool) in
   Ok (session_layer Storage_Redis config))%rust.

(** The session layer [ServiceBuilder::build] puts around the router, and the
    start-up error it records. [runtime]: [runtime_supports_block_in_place]. *)
Definition build_session_layer (runtime : option bool) (config : option SessionConfig)
    : option SessionLayer * option Error :=
  match config with
  | None => (None, None)
  | Some config =>
      match sc_storage config with
      | Storage_Memory => (Some (create_memory_session_layer config), None)
      | Storage_Redis =>
          match sc_redis_url config with
          | None => (None, None)
          | Some redis_url =>
              match runtime with
              | Some true =>
                  match create_redis_session_layer config redis_url with
                  | Ok layer => (Some layer, None)
                  | Err _ => (None, None)
                  end
              | Some false =>
                  (None, Some (Error_Internal ("Redis-backed sessions are enabled but the tokio runtime is single-threaded, so the session store cannot be initialized from ServiceBuilder::build(); use a multi-threaded runtime (#[tokio::main], or #[tokio::test(flavor = " +:+ QUOTE +:+ "multi_thread" +:+ QUOTE +:+ ")] in tests) or set [session] storage = " +:+ QUOTE +:+ "memory" +:+ QUOTE)))
              | None => (None, None)
              end
          end
      end
  end.
End RedisLayer.

(** ** Values in a session *)

Definition DATA_KEY : string := "_typed_session_data".
Definition FLASH_SESSION_KEY : string := "_flash_messages".

(** [Serialize] and [DeserializeOwned]; [type_name] names the type in errors. *)
Class Codec (A : Type) := {
  type_name : string;
  to_value : A → json;
  from_value : json → option A;
}.
Arguments type_name A {_}.

(** What is written is read back; [codec_ok] is the range of the Rust type. *)
Class CodecLaws (A : Type) `{!Codec A} := {
  codec_ok : A → Prop;
  from_to_value (a : A) : codec_ok a → from_value (to_value a) = Some a;
}.

#[global] Instance string_codec : Codec string :=
  { type_name := "String"; to_value := JString; from_value v := match v with JString s => Some s | _ => None end }.

#[global] Instance json_codec : Codec json := { type_name := "Value"; to_value v := v; from_value := Some }.

#[global] Instance list_codec {A} `{!Codec A} : Codec (list A) := {
  type_name := "Vec<" +:+ type_name A +:+ ">";
  to_value l := JArray (to_value <$> l);
  from_value v := match v with JArray l => mapM from_value l | _ => None end;
}.

#[global] Instance option_codec {A} `{!Codec A} : Codec (option A) := {
  type_name := "Option<" +:+ type_name A +:+ ">";
  to_value o := match o with Some a => to_value a | None => JNull end;
  from_value v := match v with JNull => Some None | v => Some <$> from_value v end;
}.

Definition i64_to_value (z : Z) : json := JNumber (if z <? 0 then NegInt z else PosInt z).
Definition i64_from_value (v : json) : option Z :=
  match v with
  | JNumber (PosInt n) => if n <? 2 ^ 63 then Some n else None
  | JNumber (NegInt n) => Some n
  | _ => None
  end.
#[global] Instance i64_codec : Codec Z := { type_name := "i64"; to_value := i64_to_value; from_value := i64_from_value }.

(** [HashMap<String, String>]: an object. *)
#[global] Instance string_map_codec : Codec (gmap string string) := {
  type_name := "HashMap<String, String>";
  to_value m := JObject (prod_map id JString <$> map_to_list m);
  from_value v :=
    match v with
    | JObject entries =>
        list_to_map <$> mapM (fun '(k, v) => match v with JString s => Some (k, s) | _ => None end) entries
    | _ => None
    end;
}.

(** [map.get(k)] on a [serde_json::Map]. *)
Fixpoint obj_get (k : string) (entries : list (string * json)) : option json :=
  match entries with
  | [] => None
  | (k', v) :: entries => if String.eqb k k' then Some v else obj_get k entries
  end.

(** ** Flash messages *)

Inductive FlashKind := Flash_Success | Flash_Info | Flash_Warning | Flash_Error.

#[global] Instance FlashKind_eq_dec : EqDecision FlashKind.
Proof. solve_decision. Defined.

Definition css_class (self : FlashKind) : string :=
  match self with
  | Flash_Success => "flash-success"
  | Flash_Info => "flash-info"
  | Flash_Warning => "flash-warning"
  | Flash_Error => "flash-error"
  end.

Definition icon (self : FlashKind) : string :=
  match self with
  | Flash_Success => "check-circle"
  | Flash_Info => "info-circle"
  | Flash_Warning => "exclamation-triangle"
  | Flash_Error => "x-circle"
  end.

Definition flash_kind_name (self : FlashKind) : string :=
  match self with
  | Flash_Success => "success" | Flash_Info => "info" | Flash_Warning => "warning" | Flash_Error => "error"
  end.

Definition flash_kind_of_name : string → option FlashKind :=
  match_str [("success", Flash_Success); ("info", Flash_Info); ("warning", Flash_Warning); ("error", Flash_Error)].

(** A unit variant is its name, or an object with its name and [null]. *)
#[global] Instance flash_kind_codec : Codec FlashKind := {
  type_name := "FlashKind";
  to_value k := JString (flash_kind_name k);
  from_value v :=
    match v with
    | JString s | JObject [(s, JNull)] => flash_kind_of_name s
    | _ => None
    end;
}.

Record FlashMessage := mkFlashMessage { fm_kind : FlashKind; fm_message : string }.

Definition flash_success (message : string) : FlashMessage := mkFlashMessage Flash_Success message.
Definition flash_info (message : string) : FlashMessage := mkFlashMessage Flash_Info message.
Definition flash_warning (message : string) : FlashMessage := mkFlashMessage Flash_Warning message.
Definition flash_error (message : string) : FlashMessage := mkFlashMessage Flash_Error message.

(** A derived struct is read from an object or from the list of its fields. *)
#[global] Instance flash_message_codec : Codec FlashMessage := {
  type_name := "FlashMessage";
  to_value m := JObject [("kind", to_value (fm_kind m)); ("message", to_value (fm_message m))];
  from_value v :=
    match v with
    | JObject entries =>
        kind ← obj_get "kind" entries ≫= from_value; message ← obj_get "message" entries ≫= from_value;
        Some (mkFlashMessage kind message)
    | JArray [k; m] => kind ← from_value k; message ← from_value m; Some (mkFlashMessage kind message)
    | _ => None
    end;
}.

Definition FlashMessages : Type := list FlashMessage.

Definition flash_is_empty (self : FlashMessages) : bool := match self with [] => true | _ => false end.
Definition flash_len (self : FlashMessages) : nat := length self.
Definition by_kind (self : FlashMessages) (kind : FlashKind) : FlashMessages :=
  filter (fun m => fm_kind m = kind) self.
Definition has_success (self : FlashMessages) : bool :=
  existsb (fun m => bool_decide (fm_kind m = Flash_Success)) self.
Definition has_errors (self : FlashMessages) : bool :=
  existsb (fun m => bool_decide (fm_kind m = Flash_Error)) self.

(** ** Authentication data *)

Record AuthSession := mkAuthSession {
  au_user_id : option string;
  au_roles : list string;
  au_authenticated_at : option Z;
  au_extra : gmap string string;
}.

Definition AuthSession_default : AuthSession := mkAuthSession None [] None ∅.

Definition is_authenticated (self : AuthSession) : bool := match au_user_id self with Some _ => true | None => false end.

(** [login] at the second [now]. *)
Definition auth_login (now : Z) (user_id : string) (roles : list string) (self : AuthSession) : AuthSession :=
  mkAuthSession (Some user_id) roles (Some now) (au_extra self).

Definition auth_login_with_extra (now : Z) (user_id : string) (roles : list string) (extra : gmap string string)
    (self : AuthSession) : AuthSession :=
  let self := auth_login now user_id roles self in
  mkAuthSession (au_user_id self) (au_roles self) (au_authenticated_at self) extra.

Definition auth_logout (self : AuthSession) : AuthSession := mkAuthSession None [] None ∅.

Definition auth_has_role (self : AuthSession) (role : string) : bool := existsb (fun r => String.eqb r role) (au_roles self).
Definition has_any_role (self : AuthSession) (roles : list string) : bool := existsb (auth_has_role self) roles.
Definition has_all_roles (self : AuthSession) (roles : list string) : bool := forallb (auth_has_role self) roles.

Definition get_extra (self : AuthSession) (key : string) : option string := au_extra self !! key.
Definition set_extra (key value : string) (self : AuthSession) : AuthSession :=
  mkAuthSession (au_user_id self) (au_roles self) (au_authenticated_at self) (<[key := value]> (au_extra self)).

(** [session_age]: in seconds. *)
Definition session_age (now : Z) (self : AuthSession) : option Z := (fun ts => now - ts) <$> au_authenticated_at self.

(** A missing field of an [Option] type is [None], a missing [extra] is empty. *)
Definition field_or {A} `{!Codec A} (absent : option A) (v : option json) : option A :=
  match v with Some v => from_value v | None => absent end.

#[global] Instance auth_session_codec : Codec AuthSession := {
  type_name := "AuthSession";
  to_value s := JObject [("user_id", to_value (au_user_id s)); ("roles", to_value (au_roles s));
                         ("authenticated_at", to_value (au_authenticated_at s)); ("extra", to_value (au_extra s))];
  from_value v :=
    match v with
    | JObject entries =>
        user_id ← field_or (Some None) (obj_get "user_id" entries);
        roles ← field_or None (obj_get "roles" entries);
        authenticated_at ← field_or (Some None) (obj_get "authenticated_at" entries);
        extra ← field_or (Some ∅) (obj_get "extra" entries);
        Some (mkAuthSession user_id roles authenticated_at extra)
    | JArray (u :: r :: a :: rest) =>
        user_id ← from_value u; roles ← from_value r; authenticated_at ← from_value a;
        extra ← match rest with [] => Some ∅ | [e] => from_value e | _ => None end;
        Some (mkAuthSession user_id roles authenticated_at extra)
    | _ => None
    end;
}.

(** ** The session handle *)

(** [tower_sessions::Session]: [W] is the state behind the handles [S]. An
    error is its text. *)
Class SessionApi (W S : Type) := {
  sess_get : S → string → M W string (option json);
  sess_insert : S → string → json → M W string unit;
  sess_remove : S → string → M W string (option json);
  sess_flush : S → M W string unit;
  sess_cycle_id : S → M W string unit;
  (** The text of the error for a value that is not of the type named. *)
  serde_error : string → json → string;
}.

(** The contents of a session as its handle shows them: a call that succeeds is
    seen at once by later calls of the same request, and by later requests once
    the request has been saved (below). A call reaches only its own session; one
    that fails leaves the contents, except that a failed [flush] may have cleared
    them. *)
Class SessionLaws (W S : Type) `{!SessionApi W S} := {
  sess_view : W → S → gmap string json;
  sess_get_law s k w r w' : sess_get s k w = (r, w') →
    (∀ s', sess_view w' s' = sess_view w s') ∧ (∀ v, r = Ok v → v = sess_view w s !! k);
  sess_insert_law s k v w r w' : sess_insert s k v w = (r, w') →
    (∀ s', s' ≠ s → sess_view w' s' = sess_view w s') ∧
    sess_view w' s = if is_ok r then <[k := v]> (sess_view w s) else sess_view w s;
  sess_remove_law s k w r w' : sess_remove s k w = (r, w') →
    (∀ s', s' ≠ s → sess_view w' s' = sess_view w s') ∧
    match r with
    | Ok v => v = sess_view w s !! k ∧ sess_view w' s = delete k (sess_view w s)
    | Err _ => sess_view w' s = sess_view w s
    end;
  sess_flush_law s w r w' : sess_flush s w = (r, w') →
    (∀ s', s' ≠ s → sess_view w' s' = sess_view w s') ∧
    (sess_view w' s = ∅ ∨ is_ok r = false ∧ sess_view w' s = sess_view w s);
  sess_cycle_id_law s w r w' : sess_cycle_id s w = (r, w') → ∀ s', sess_view w' s' = sess_view w s';
}.

(** The end of a request. [sess_kept] is what the store holds of a session, which
    is what the next request is shown; [sess_get], [sess_insert] and
    [sess_remove] work on the copy in the handle, while [flush] and [cycle_id]
    also delete the stored record. [sess_finish s failed] is what the session
    layer does once the handler has answered, with a server error when [failed]:
    an answer that is not one is saved; when saving fails, or the answer is a
    server error, the next request is shown the contents with all changes of the
    request or with none. *)
Class SessionSaves (W S : Type) := {
  sess_kept : W → S → gmap string json;
  sess_finish : S → bool → M W string unit;
}.

Class SessionSavesLaws (W S : Type) `{!SessionApi W S} `{!SessionLaws W S} `{!SessionSaves W S} := {
  sess_get_kept s k w s' : sess_kept (sess_get s k w).2 s' = sess_kept w s';
  sess_insert_kept s k v w s' : sess_kept (sess_insert s k v w).2 s' = sess_kept w s';
  sess_remove_kept s k w s' : sess_kept (sess_remove s k w).2 s' = sess_kept w s';
  sess_flush_kept s w s' : s' ≠ s → sess_kept (sess_flush s w).2 s' = sess_kept w s';
  sess_cycle_id_kept s w s' : s' ≠ s → sess_kept (sess_cycle_id s w).2 s' = sess_kept w s';
  sess_finish_law s failed w r w' : sess_finish s failed w = (r, w') →
    (∀ s', s' ≠ s → sess_view w' s' = sess_view w s' ∧ sess_kept w' s' = sess_kept w s') ∧
    (is_ok r = true → failed = false → sess_view w' s = sess_view w s) ∧
    (sess_view w' s = sess_view w s ∨ sess_view w' s = sess_kept w s) ∧
    sess_kept w' s = sess_view w' s;
}.

(** An audit event of the session layer: its kind, severity and source. *)
Definition SessionEvent : Type := AuditEventKind * AuditSeverity * AuditSource.

Record SessWorld (W : Type) := mkSessWorld {
  sw_store : W;
  (** Characters drawn from the random number generator so far. *)
  sw_draws : nat;
  sw_audit : list SessionEvent;
}.
Arguments mkSessWorld {W}.
Arguments sw_store {W}.
Arguments sw_draws {W}.
Arguments sw_audit {W}.

Section Operations.
Context `{HttpEnv} {W Sess : Type} `{!SessionApi W Sess}.

Abbreviation G := (M (SessWorld W) Error).

(** A call on the handle, its error under the caller's text. *)
Definition sess_call {A} (what : string) (m : M W string A) : G A := fun w =>
  let '(r, s) := m (sw_store w) in
  (map_err (fun e => Error_Session (what +:+ e)) r, mkSessWorld s (sw_draws w) (sw_audit w)).

(** The typed [get], [insert] and [remove] of the handle. *)
Definition decode A `{!Codec A} (v : option json) : result (option A) string :=
  match v with
  | None => Ok None
  | Some v => match from_value v with Some a => Ok (Some a) | None => Err (serde_error (type_name A) v) end
  end.

Definition typed_get A `{!Codec A} (s : Sess) (k : string) : M W string (option A) :=
  let! v := sess_get s k in lift (decode A v).
Definition typed_insert {A} `{!Codec A} (s : Sess) (k : string) (a : A) : M W string unit :=
  sess_insert s k (to_value a).
Definition typed_remove A `{!Codec A} (s : Sess) (k : string) : M W string (option A) :=
  let! v := sess_remove s k in lift (decode A v).

(** [impl SessionData for Session]. *)
Definition get_value A `{!Codec A} (s : Sess) (key : string) : G (option A) :=
  sess_call "Session get error: " (typed_get A s key).
Definition set_value {A} `{!Codec A} (s : Sess) (key : string) (value : A) : G unit :=
  sess_call "Session set error: " (typed_insert s key value).
Definition remove_value A `{!Codec A} (s : Sess) (key : string) : G (option A) :=
  sess_call "Session remove error: " (typed_remove A s key).
Definition has_key (s : Sess) (key : string) : G bool :=
  let! value := sess_call "Session check error: " (typed_get json s key) in
  ret match value with Some _ => true | None => false end.

(** *** Flash messages *)

Definition read_flash (s : Sess) : G FlashMessages :=
  let! messages := sess_call "Failed to read flash messages: " (typed_get (list FlashMessage) s FLASH_SESSION_KEY) in
  ret (default [] messages).

Definition flash_push (s : Sess) (message : FlashMessage) : G unit :=
  let! messages := read_flash s in
  sess_call "Failed to write flash messages: " (typed_insert s FLASH_SESSION_KEY (messages ++ [message])).

Definition flash_push_many (s : Sess) (new_messages : list FlashMessage) : G unit :=
  let! messages := read_flash s in
  sess_call "Failed to write flash messages: " (typed_insert s FLASH_SESSION_KEY (messages ++ new_messages)).

Definition flash_clear (s : Sess) : G unit :=
  let! _ := sess_call "Failed to clear flash messages: " (typed_remove (list FlashMessage) s FLASH_SESSION_KEY) in
  ret tt.

(** [FlashMessages::from_request_parts]: the session of the request, if any. *)
Definition flash_from_request (session : option Sess) : G FlashMessages :=
  let! s := lift (ok_or (Error_Session "Session not found in request extensions for flash messages") session) in
  let! messages := sess_call "Failed to read flash messages: " (typed_remove (list FlashMessage) s FLASH_SESSION_KEY) in
  ret (default [] messages).

(** *** Typed sessions *)

(** [ts_audit]: the logger of the request, as whether it audits
    authentication events, and the source to record. *)
Record TypedSession (T : Type) := mkTypedSession {
  ts_session : Sess;
  ts_data : T;
  ts_audit : option (bool * AuditSource);
}.
Arguments mkTypedSession {T}.
Arguments ts_session {T}.
Arguments ts_data {T}.
Arguments ts_audit {T}.

Section Typed.
Context {T : Type} `{!Codec T}.

(** The exclusive handle [&mut self] comes back with its new data, the error
    path included. *)
Definition with_data (self : TypedSession T) (data : T) : TypedSession T :=
  mkTypedSession (ts_session self) data (ts_audit self).

Definition ts_save (self : TypedSession T) : G unit :=
  sess_call "Failed to save session data: " (typed_insert (ts_session self) DATA_KEY (ts_data self)).

Definition ts_update (f : T → T) (self : TypedSession T) : G unit * TypedSession T :=
  let self := with_data self (f (ts_data self)) in (ts_save self, self).

(** [dflt]: [T::default()]. *)
Definition ts_clear (dflt : T) (self : TypedSession T) : G unit * TypedSession T :=
  (let! _ := sess_call "Failed to clear session data: " (typed_remove T (ts_session self) DATA_KEY) in ret tt,
   with_data self dflt).

Definition ts_destroy (self : TypedSession T) : G unit :=
  sess_call "Failed to destroy session: " (sess_flush (ts_session self)).

Definition ts_regenerate (self : TypedSession T) : G unit :=
  sess_call "Failed to regenerate session ID: " (sess_cycle_id (ts_session self)).

(** [TypedSession::from_request_parts]. [logger]: the request's audit logger,
    as whether it audits authentication events. *)
Definition ts_from_request (dflt : T) (session : option Sess) (logger : option bool) (r : Request)
    : G (TypedSession T) :=
  let! s := lift (ok_or (Error_Session "Session not found in request extensions. Is SessionManagerLayer configured?")
                    session) in
  let! data := sess_call "Failed to read session data: " (typed_get T s DATA_KEY) in
  ret (mkTypedSession s (default dflt data) ((fun l => (l, audit_source_for_request r)) <$> logger)).
End Typed.

Definition sess_log (e : SessionEvent) : G unit := fun w =>
  (Ok tt, mkSessWorld (sw_store w) (sw_draws w) (sw_audit w ++ [e])).

Definition source_with_subject (subject : option string) (s : AuditSource) : AuditSource :=
  mkAuditSource (src_ip s) (src_user_agent s) subject (src_request_id s).

(** [TypedSession::<AuthSession>::logout]. *)
Definition ts_logout (self : TypedSession AuthSession) : G unit * TypedSession AuthSession :=
  let subject := au_user_id (ts_data self) in
  let self := with_data self (auth_logout (ts_data self)) in
  (let! _ := ts_save self in
   match ts_audit self with
   | Some (true, source) => sess_log (AuthLogout, SevNotice, source_with_subject subject source)
   | _ => ret tt
   end, self).
End Operations.

Arguments TypedSession : clear implicits.
Arguments mkTypedSession {Sess T}.
Arguments ts_session {Sess T}.
Arguments ts_data {Sess T}.
Arguments ts_audit {Sess T}.
