(* ===== verification/Csrf.v ===== *)
(** * Protection against cross-site request forgery

    [src/acton-service/src/session/csrf.rs]: the token kept in the session, the
    HTML it is rendered into, and the layer that compares the token a request
    carries in a header with the session's. The layer is its gate: the request
    it hands on, or the response it answers with. *)

From S2P Require Import Prelude Text FrameworkError AuditEvent Http Cedar Sessions.

Local Open Scope string_scope.
Local Open Scope Z_scope.
Local Open Scope list_scope.
Local Open Scope monad_scope.

Definition CSRF_SESSION_KEY : string := "_csrf_token".

(** ** Rendering *)

Definition html_escape (s : string) : string :=
  replace "'" "&#x27;" (replace DQ "&quot;" (replace ">" "&gt;" (replace "<" "&lt;" (replace "&" "&amp;" s)))).

Definition as_hidden_field_named (self name : string) : string :=
  "<input type=" +:+ QUOTE +:+ "hidden" +:+ QUOTE +:+ " name=" +:+ QUOTE +:+ html_escape name +:+ QUOTE +:+
  " value=" +:+ QUOTE +:+ html_escape self +:+ QUOTE +:+ ">".

Definition as_hidden_field (self : string) : string :=
  "<input type=" +:+ QUOTE +:+ "hidden" +:+ QUOTE +:+ " name=" +:+ QUOTE +:+ "_csrf" +:+ QUOTE +:+
  " value=" +:+ QUOTE +:+ html_escape self +:+ QUOTE +:+ ">".

Definition as_meta_tag (self : string) : string :=
  "<meta name=" +:+ QUOTE +:+ "csrf-token" +:+ QUOTE +:+ " content=" +:+ QUOTE +:+ html_escape self +:+ QUOTE +:+ ">".

(** ** Comparison *)

(** [for (x, y) in a.bytes().zip(b.bytes()) { result |= x ^ y }]. *)
Definition compare_step (result : Z) (xy : ascii * ascii) : Z :=
  Z.lor result (Z.lxor (Z_of_byte xy.1) (Z_of_byte xy.2)).

Definition constant_time_compare (a b : string) : bool :=
  if negb (Nat.eqb (String.length a) (String.length b)) then false
  else foldl compare_step 0 (zip (str_bytes a) (str_bytes b)) =? 0.

(** ** Responses *)

Record CsrfResponse := mkCsrfResponse { cr_status : Z; cr_content_type : string; cr_body : string }.

Definition csrf_error_response (message : string) : CsrfResponse :=
  mkCsrfResponse 403 "application/json"
    ("{" +:+ QUOTE +:+ "error" +:+ QUOTE +:+ ": " +:+ QUOTE +:+ "csrf_validation_failed" +:+ QUOTE +:+ ", " +:+
     QUOTE +:+ "message" +:+ QUOTE +:+ ": " +:+ QUOTE +:+ message +:+ QUOTE +:+ "}").

(** ** Tokens and the layer *)

(** [rand::rng().sample_iter(&Alphanumeric)]: the [i]-th character drawn. *)
Class CsrfRandom := { alphanumeric : nat → ascii }.

Section Csrf.
Context `{HttpEnv} `{CsrfRandom} {W Sess : Type} `{!SessionApi W Sess}.

Abbreviation G := (M (SessWorld W) Error).
(** A gate that answers with a response. *)
Abbreviation Gate := (M (SessWorld W) CsrfResponse).

Definition csrf_generate (length : nat) : G string := fun w =>
  (Ok (String.string_of_list_ascii (alphanumeric <$> seq (sw_draws w) length)),
   mkSessWorld (sw_store w) (sw_draws w + length) (sw_audit w)).

Definition get_or_create (s : Sess) (length : nat) : G string :=
  let! existing := sess_call "Failed to read CSRF token: " (typed_get string s CSRF_SESSION_KEY) in
  match existing with
  | Some token => ret token
  | None =>
      let! token := csrf_generate length in
      sess_call "Failed to store CSRF token: " (typed_insert s CSRF_SESSION_KEY token) ;;
      ret token
  end.

Definition csrf_regenerate (s : Sess) (length : nat) : G string :=
  let! token := csrf_generate length in
  sess_call "Failed to store CSRF token: " (typed_insert s CSRF_SESSION_KEY token) ;;
  ret token.

(** [CsrfToken::from_request_parts]. *)
Definition csrf_from_request (session : option Sess) : G string :=
  let! s := lift (ok_or (Error_Session "Session not found in request extensions for CSRF") session) in
  get_or_create s 32.

(** [session.get(CSRF_SESSION_KEY).await.ok().flatten()]. *)
Definition expected_token (s : Sess) : Gate (option string) := fun w =>
  let '(r, w) := sess_call "" (typed_get string s CSRF_SESSION_KEY) w in
  (Ok (unwrap_or r None), w).

(** Header names are matched without their case. *)
Definition provided_token (config : CsrfConfig) (r : Request) : option string :=
  header_string (req_headers r) (str_map ascii_lower (cf_header_name config)).

Definition is_safe_method (config : CsrfConfig) (r : Request) : bool :=
  existsb (fun m => eq_ignore_ascii_case m (req_method r)) (cf_safe_methods config).

Definition refuse {A} (message : string) : Gate A := fail (csrf_error_response message).

(** [CsrfMiddleware::call] up to [inner.call(request)]. [session]: the
    [Session] among the request's extensions. *)
Definition csrf_call (config : CsrfConfig) (session : option Sess) (r : Request) : Gate Request :=
  if negb (cf_enabled config) then ret r
  else if is_safe_method config r then ret r
  else
  match session with
  | None => refuse "CSRF validation failed: no session"
  | Some s =>
      let! expected := expected_token s in
      match expected with
      | None => refuse "CSRF validation failed: no token in session"
      | Some expected =>
          match provided_token config r with
          | None => refuse "CSRF validation failed: no token provided"
          | Some provided =>
              if negb (constant_time_compare expected provided) then refuse "CSRF validation failed: invalid token"
              else ret r
          end
      end
  end.

(** The function form, with the session extracted beforehand. *)
Definition csrf_middleware (s : Sess) (config : CsrfConfig) (r : Request) : Gate Request :=
  if negb (cf_enabled config) then ret r
  else if is_safe_method config r then ret r
  else
  let! expected := expected_token s in
  match expected with
  | None => refuse "CSRF validation failed: no token in session"
  | Some expected =>
      match provided_token config r with
      | None => refuse "CSRF validation failed: no token provided"
      | Some provided =>
          if negb (constant_time_compare expected provided) then refuse "CSRF validation failed: invalid token"
          else ret r
      end
  end.
End Csrf.
