(* ===== verification/SessionSafety.v ===== *)
(** * Sessions: what reaches the next request

    What the operations of [Sessions] and [Csrf] guarantee over a session store
    that obeys [SessionLaws]: the data written is the data read later, each
    operation touches one key of one session, flash messages are delivered once
    and in order, the forgery gate lets through exactly the requests that carry
    their own session's token, and rendered tokens read back unchanged. *)

From S2P Require Import Prelude Text FrameworkError AuditEvent Http Cedar Sessions Csrf.

Local Open Scope string_scope.
Local Open Scope Z_scope.
Local Open Scope list_scope.
Local Open Scope monad_scope.

(** ** Codecs *)

Lemma mapM_fmap_Some {A B} (f : B → option A) (g : A → B) (l : list A) :
  (∀ x, x ∈ l → f (g x) = Some x) → mapM f (g <$> l) = Some l.
Proof.
  intros Hf. apply mapM_Some, Forall2_fmap_l, Forall_Forall2_diag, Forall_forall.
  intros x Hx. by apply Hf.
Qed.

#[global] Instance string_codec_laws : CodecLaws string.
Proof. by refine {| codec_ok _ := True |}. Defined.

#[global] Instance flash_messages_codec_laws : CodecLaws (list FlashMessage).
Proof. refine {| codec_ok _ := True |}. intros l _. cbn. apply mapM_fmap_Some. by intros [[] m] _. Defined.

Lemma i64_from_to z : - 2 ^ 63 ≤ z < 2 ^ 63 → i64_from_value (i64_to_value z) = Some z.
Proof.
  intros Hz. unfold i64_to_value. destruct (Z.ltb_spec z 0); cbn; [done|].
  by destruct (Z.ltb_spec z (2 ^ 63)); [|lia].
Qed.

Lemma string_map_from_to (m : gmap string string) : from_value (to_value m) = Some m.
Proof.
  cbn. rewrite (mapM_fmap_Some _ (prod_map id JString)) by (by intros [k v]). cbn. by rewrite list_to_map_to_list.
Qed.

(** The authentication time is an [i64]. *)
Definition auth_ok (s : AuthSession) : Prop :=
  match au_authenticated_at s with Some t => - 2 ^ 63 ≤ t < 2 ^ 63 | None => True end.

#[global] Instance auth_session_codec_laws : CodecLaws AuthSession.
Proof.
  refine {| codec_ok := auth_ok |}. intros [u r a e] Ha.
  assert (Er : mapM (from_value (A := string)) (to_value <$> r) = Some r) by (by apply mapM_fmap_Some).
  assert (Ee := string_map_from_to e).
  assert (Eu : from_value (A := option string) (to_value u) = Some u) by (by destruct u).
  assert (Et : from_value (A := option Z) (to_value a) = Some a).
  { destruct a as [t|]; [|done]. cbn. change (Some <$> i64_from_value (i64_to_value t) = Some (Some t)).
    by rewrite i64_from_to. }
  change (from_value (to_value (mkAuthSession u r a e))) with
    (u ← from_value (A := option string) (to_value u); r ← from_value (A := list string) (to_value r);
     a ← from_value (A := option Z) (to_value a); e ← from_value (A := gmap string string) (to_value e);
     Some (mkAuthSession u r a e)).
  rewrite Eu. cbn [mbind option_bind]. change (from_value (A := list string) (to_value r)) with
    (mapM (from_value (A := string)) (to_value <$> r)). rewrite Er. cbn [mbind option_bind].
  rewrite Et. cbn [mbind option_bind]. by rewrite Ee.
Defined.

(** ** Operations touch one key of one session *)

Section Safety.
Context `{HttpEnv} `{CsrfRandom} {W Sess : Type} `{!SessionApi W Sess} `{!SessionLaws W Sess} `{!EqDecision Sess}.

Abbreviation G := (M (SessWorld W) Error).

Definition view (w : SessWorld W) (s : Sess) : gmap string json := sess_view (sw_store w) s.

(** [m] writes at most the key [k] of the session [s]. *)
Definition touches {E A} (s : Sess) (k : string) (m : M (SessWorld W) E A) : Prop := ∀ w s' k',
  s' ≠ s ∨ k' ≠ k → view (m w).2 s' !! k' = view w s' !! k'.

(** [m] writes nothing. *)
Definition quiet {E A} (m : M (SessWorld W) E A) : Prop := ∀ w s', view (m w).2 s' = view w s'.

Lemma quiet_touches {E A} s k (m : M (SessWorld W) E A) : quiet m → touches s k m.
Proof. intros Hm w s' k' _. by rewrite Hm. Qed.

Lemma touches_bind {E A B} s k (m : M (SessWorld W) E A) (f : A → M (SessWorld W) E B) :
  touches s k m → (∀ a, touches s k (f a)) → touches s k (bind m f).
Proof.
  intros Hm Hf w s' k' Hk. specialize (Hm w s' k' Hk). unfold bind. destruct (m w) as [[a|e] w1]; [|done].
  by rewrite Hf.
Qed.

Lemma quiet_bind {E A B} (m : M (SessWorld W) E A) (f : A → M (SessWorld W) E B) :
  quiet m → (∀ a, quiet (f a)) → quiet (bind m f).
Proof.
  intros Hm Hf w s'. specialize (Hm w s'). unfold bind. destruct (m w) as [[a|e] w1]; [|done]. by rewrite Hf.
Qed.

Lemma quiet_pure {E A} (m : M (SessWorld W) E A) : (∀ w, sw_store (m w).2 = sw_store w) → quiet m.
Proof. intros Hm w s'. unfold view. by rewrite Hm. Qed.

Lemma quiet_generate n : quiet (csrf_generate n).
Proof. by apply quiet_pure. Qed.
Lemma quiet_log e : quiet (sess_log (W := W) e).
Proof. by apply quiet_pure. Qed.
Lemma quiet_ret {E A} (a : A) : quiet (E := E) (ret a).
Proof. by apply quiet_pure. Qed.
Lemma quiet_lift {E A} (r : result A E) : quiet (lift r).
Proof. by apply quiet_pure. Qed.
Lemma quiet_fail {E A} (e : E) : quiet (A := A) (fail e).
Proof. by apply quiet_pure. Qed.

Lemma sess_call_view {A} what (m : M W string A) w s :
  view (sess_call what m w).2 s = sess_view (m (sw_store w)).2 s.
Proof. unfold sess_call, view. by destruct (m _). Qed.

Lemma sess_call_Ok {A} what (m : M W string A) w a :
  (sess_call what m w).1 = Ok a ↔ (m (sw_store w)).1 = Ok a.
Proof. unfold sess_call. destruct (m _) as [[]]; cbn; split; congruence. Qed.

Lemma typed_get_spec A `{!Codec A} s k w :
  (∀ s', sess_view (typed_get A s k w).2 s' = sess_view w s') ∧
  ∀ o, (typed_get A s k w).1 = Ok o → decode A (sess_view w s !! k) = Ok o.
Proof.
  unfold typed_get, bind, lift. destruct (sess_get s k w) as [r w'] eqn:E. apply sess_get_law in E as [Hv Hr].
  destruct r as [v|e]; cbn; [|done]. by rewrite <- (Hr v).
Qed.

Lemma get_answers A `{!Codec A} s k w v :
  (sess_get s k w).1 = Ok v → (typed_get A s k w).1 = decode A (sess_view w s !! k).
Proof.
  unfold typed_get, bind, lift. destruct (sess_get s k w) as [r w'] eqn:E. apply sess_get_law in E as [_ Hr].
  cbn. intros ->. cbn. by rewrite (Hr v).
Qed.

Lemma quiet_get A `{!Codec A} what s k : quiet (sess_call what (typed_get A s k)).
Proof. intros w s'. rewrite sess_call_view. apply typed_get_spec. Qed.

Lemma typed_insert_spec {A} `{!Codec A} s k (a : A) w :
  (∀ s', s' ≠ s → sess_view (typed_insert s k a w).2 s' = sess_view w s') ∧
  sess_view (typed_insert s k a w).2 s =
    if is_ok (typed_insert s k a w).1 then <[k := to_value a]> (sess_view w s) else sess_view w s.
Proof. unfold typed_insert. destruct (sess_insert _ _ _ _) eqn:E. by apply sess_insert_law in E. Qed.

Lemma touches_insert {A} `{!Codec A} what s k (a : A) : touches s k (sess_call what (typed_insert s k a)).
Proof.
  intros w s' k' Hk. rewrite sess_call_view. unfold view.
  destruct (typed_insert_spec s k a (sw_store w)) as [Ho Hs].
  destruct (decide (s' = s)) as [->|]; [|by rewrite Ho]. rewrite Hs.
  destruct (is_ok _); [|done]. apply lookup_insert_ne. by destruct Hk.
Qed.

Lemma typed_remove_spec A `{!Codec A} s k w :
  (∀ s', s' ≠ s → sess_view (typed_remove A s k w).2 s' = sess_view w s') ∧
  (sess_view (typed_remove A s k w).2 s = delete k (sess_view w s) ∧
     (typed_remove A s k w).1 = decode A (sess_view w s !! k) ∨
   sess_view (typed_remove A s k w).2 s = sess_view w s ∧ is_ok (typed_remove A s k w).1 = false).
Proof.
  unfold typed_remove, bind, lift. destruct (sess_remove s k w) as [r w'] eqn:E.
  apply sess_remove_law in E as [Ho Hs]. destruct r as [v|e]; cbn; split; auto. destruct Hs as [-> ?]. by left.
Qed.

Lemma touches_remove A `{!Codec A} what s k : touches s k (sess_call what (typed_remove A s k)).
Proof.
  intros w s' k' Hk. rewrite sess_call_view. unfold view.
  destruct (typed_remove_spec A s k (sw_store w)) as [Ho Hs].
  destruct (decide (s' = s)) as [->|]; [|by rewrite Ho].
  destruct Hs as [[-> _]|[-> _]]; [|done]. apply lookup_delete_ne. by destruct Hk.
Qed.

Lemma quiet_cycle what s : quiet (sess_call what (sess_cycle_id s)).
Proof.
  intros w s'. rewrite sess_call_view. destruct (sess_cycle_id s _) eqn:E. by eapply sess_cycle_id_law in E.
Qed.
End Safety.

Create HintDb session discriminated.
#[export] Hint Resolve quiet_touches touches_bind quiet_bind quiet_generate quiet_log quiet_ret quiet_lift
  quiet_fail quiet_get touches_insert touches_remove quiet_cycle : session.

(** ** Requests as sequences of session operations *)

Inductive SessCmd :=
| CPush (m : FlashMessage)
| CPushMany (ms : list FlashMessage)
| CFlashClear
| CFlashRead
| CToken
| CRegenerate (length : nat)
| CLogin (now : Z) (user_id : string) (roles : list string)
| CLogout
| CSet (key value : string)
| CDestroy.

#[global] Instance SessCmd_eq_dec : EqDecision SessCmd.
Proof.
  assert (EqDecision FlashMessage) by solve_decision. solve_decision.
Defined.

Inductive SessReply := RUnit | RMessages (l : list FlashMessage) | RTokenIs (t : string).

(** The one key a command may write; [None]: the whole session. *)
Definition cmd_writes (c : SessCmd) : option string :=
  match c with
  | CPush _ | CPushMany _ | CFlashClear | CFlashRead => Some FLASH_SESSION_KEY
  | CToken | CRegenerate _ => Some CSRF_SESSION_KEY
  | CLogin _ _ _ | CLogout => Some DATA_KEY
  | CSet key _ => Some key
  | CDestroy => None
  end.

Section Runs.
Context `{HttpEnv} `{CsrfRandom} {W Sess : Type} `{!SessionApi W Sess} `{!SessionLaws W Sess} `{!EqDecision Sess}.

Abbreviation G := (M (SessWorld W) Error).

Definition reply {A} (f : A → SessReply) (m : G A) : G SessReply := let! a := m in ret (f a).

(** A handler that extracts the authentication data of the request [r], as
    [AuthSession]'s documentation has them: log in, save, change the id. *)
Definition login_handler (s : Sess) (r : Request) (now : Z) (user_id : string) (roles : list string) : G unit :=
  let! ts := ts_from_request AuthSession_default (Some s) None r in
  let '(save, ts) := ts_update (auth_login now user_id roles) ts in
  save ;; ts_regenerate ts.

Definition logout_handler (s : Sess) (r : Request) : G unit :=
  let! ts := ts_from_request AuthSession_default (Some s) (Some true) r in (ts_logout ts).1.

Definition destroy_handler (s : Sess) (r : Request) : G unit :=
  let! ts := ts_from_request AuthSession_default (Some s) None r in ts_destroy ts.

Definition sess_exec (r : Request) (s : Sess) (c : SessCmd) : G SessReply :=
  match c with
  | CPush m => reply (fun _ => RUnit) (flash_push s m)
  | CPushMany ms => reply (fun _ => RUnit) (flash_push_many s ms)
  | CFlashClear => reply (fun _ => RUnit) (flash_clear s)
  | CFlashRead => reply RMessages (flash_from_request (Some s))
  | CToken => reply RTokenIs (csrf_from_request (Some s))
  | CRegenerate length => reply RTokenIs (csrf_regenerate s length)
  | CLogin now user_id roles => reply (fun _ => RUnit) (login_handler s r now user_id roles)
  | CLogout => reply (fun _ => RUnit) (logout_handler s r)
  | CSet key value => reply (fun _ => RUnit) (set_value s key value)
  | CDestroy => reply (fun _ => RUnit) (destroy_handler s r)
  end.

(** Requests of any sessions, one after the other, with what each replies. *)
Fixpoint sess_run (cmds : list (Request * Sess * SessCmd)) (w : SessWorld W)
    : list (result SessReply Error) * SessWorld W :=
  match cmds with
  | [] => ([], w)
  | (r, s, c) :: cmds =>
      let '(out, w1) := sess_exec r s c w in
      let '(outs, w2) := sess_run cmds w1 in (out :: outs, w2)
  end.

(** Extraction of the typed session of a request, then [f] on it. *)
Lemma bind_from_request {T A} `{!Codec T} (dflt : T) s logger r (f : TypedSession Sess T → G A) w :
  bind (ts_from_request dflt (Some s) logger r) f w =
  (let! data := sess_call "Failed to read session data: " (typed_get T s DATA_KEY) in
   f (mkTypedSession s (default dflt data) ((fun l => (l, audit_source_for_request r)) <$> logger))) w.
Proof. unfold ts_from_request, bind, lift, ret. cbn. by destruct (sess_call _ _ _) as [[]]. Qed.

Lemma touches_from_request {T A} `{!Codec T} (dflt : T) s k logger r (f : TypedSession Sess T → G A) :
  (∀ d a, touches s k (f (mkTypedSession s d a))) → touches s k (bind (ts_from_request dflt (Some s) logger r) f).
Proof.
  intros Hf w. rewrite bind_from_request. apply touches_bind; [eauto with session|auto].
Qed.

Ltac step_touches := repeat (apply touches_bind; [eauto with session|intros ?]); eauto with session.

Lemma touches_get_or_create s n : touches s CSRF_SESSION_KEY (get_or_create s n).
Proof. unfold get_or_create. apply touches_bind; [eauto with session|]. intros [t|]; step_touches. Qed.

Lemma touches_flash s (l : FlashMessages → list FlashMessage) : touches s FLASH_SESSION_KEY
  (let! messages := read_flash s in
   sess_call "Failed to write flash messages: " (typed_insert s FLASH_SESSION_KEY (l messages))).
Proof. unfold read_flash. step_touches. Qed.

Lemma touches_save s d (a : option (bool * AuditSource)) :
  touches s DATA_KEY (ts_save (W := W) (T := AuthSession) (mkTypedSession s d a)).
Proof. apply touches_insert. Qed.

Lemma touches_logout s r : touches s DATA_KEY (logout_handler s r).
Proof.
  unfold logout_handler. apply touches_from_request. intros d a. cbn.
  apply touches_bind; [apply touches_save|]. intros _. destruct a as [[[] ?]|]; eauto with session.
Qed.

Lemma touches_login s r now u roles : touches s DATA_KEY (login_handler s r now u roles).
Proof.
  unfold login_handler. apply touches_from_request. intros d a. cbn.
  apply touches_bind; [apply touches_save|]. intros ?. apply quiet_touches, quiet_cycle.
Qed.

Lemma exec_touches r s c k : cmd_writes c = Some k → touches s k (sess_exec r s c).
Proof.
  intros E. destruct c; injection E as <- || discriminate E; (apply touches_bind; [|eauto with session]).
  - apply (touches_flash s (fun l => l ++ [m])).
  - apply (touches_flash s (fun l => l ++ ms)).
  - unfold flash_clear. step_touches.
  - unfold flash_from_request. cbn. apply (touches_bind s _ (sess_call _ _)); eauto with session.
  - apply touches_get_or_create.
  - unfold csrf_regenerate. step_touches.
  - apply touches_login.
  - apply touches_logout.
  - apply touches_insert.
Qed.

(** A command reaches only its own session. *)
Lemma exec_other r s s' c w : s' ≠ s → view (sess_exec r s' c w).2 s = view w s.
Proof.
  intros Hs. destruct (cmd_writes c) as [k|] eqn:Ek.
  { apply map_eq. intros k'. apply (exec_touches r s' c k Ek w). auto. }
  destruct c; try discriminate Ek. unfold sess_exec, reply, destroy_handler. unfold bind at 1.
  rewrite bind_from_request. unfold bind. destruct (sess_call _ (typed_get _ _ _) w) as [[d|e] w1] eqn:E.
  - assert (E1 : view w1 s = view w s) by (change w1 with (Ok (E := Error) d, w1).2; rewrite <- E; apply quiet_get).
    unfold ts_destroy. destruct (sess_call _ _ w1) as [o w2] eqn:E2.
    assert (view w2 s = view w1 s); [|by destruct o; cbn; congruence].
    change w2 with (o, w2).2. rewrite <- E2, sess_call_view. cbn. unfold view.
    destruct (sess_flush s' _) eqn:E3. apply sess_flush_law in E3 as [Ho _]. auto.
  - cbn. change w1 with (Err (A := option AuthSession) e, w1).2. rewrite <- E. apply quiet_get.
Qed.

(** No command on [s] writes its key [k]. *)
Definition leaves (s : Sess) (k : string) (cmds : list (Request * Sess * SessCmd)) : Prop :=
  Forall (fun '(_, s', c) => s' = s → cmd_writes c ≠ None ∧ cmd_writes c ≠ Some k) cmds.

Lemma exec_keeps r s k s' c w :
  (s' = s → cmd_writes c ≠ None ∧ cmd_writes c ≠ Some k) →
  view (sess_exec r s' c w).2 s !! k = view w s !! k.
Proof.
  intros Hc. destruct (decide (s' = s)) as [->|]; [|by rewrite exec_other].
  destruct Hc as [H1 H2]; [done|]. destruct (cmd_writes c) as [k'|] eqn:E; [|done].
  apply (exec_touches r s c k' E w). right. congruence.
Qed.

(** A key of a session stays as it is while no command on that session
    writes it. *)
Lemma run_keeps s k cmds w : leaves s k cmds → view (sess_run cmds w).2 s !! k = view w s !! k.
Proof.
  intros Hl. revert w. induction Hl as [|[[r s'] c] cmds Hc Hl IH]; intros w; [done|]. cbn.
  assert (E := exec_keeps r s k s' c w Hc). destruct (sess_exec r s' c w) as [o w1].
  specialize (IH w1). destruct (sess_run cmds w1) as [os w2]. cbn in *. congruence.
Qed.

(** *** Flash messages as a queue *)

Definition pending (w : SessWorld W) (s : Sess) (q : list FlashMessage) : Prop :=
  view w s !! FLASH_SESSION_KEY = None ∧ q = [] ∨ view w s !! FLASH_SESSION_KEY = Some (to_value q).

Lemma pending_decode w s q :
  pending w s q → ∃ o, decode (list FlashMessage) (view w s !! FLASH_SESSION_KEY) = Ok o ∧ default [] o = q.
Proof.
  intros [[-> ->]| ->]; unfold decode; [by exists None|]. rewrite from_to_value by done. by exists (Some q).
Qed.

Lemma pending_ext w w' s q :
  view w' s !! FLASH_SESSION_KEY = view w s !! FLASH_SESSION_KEY → pending w s q → pending w' s q.
Proof. unfold pending. by intros ->. Qed.

Lemma read_flash_spec s w q :
  pending w s q → view (read_flash s w).2 s = view w s ∧ ∀ l, (read_flash s w).1 = Ok l → l = q.
Proof.
  intros Hq. split; [apply quiet_bind; eauto with session|]. intros l. unfold read_flash, bind.
  destruct (sess_call _ _ w) as [[o|e] w1] eqn:E; [|done]. intros [= <-].
  destruct (pending_decode w s q Hq) as (o' & Ho' & <-). f_equal.
  enough (Ok (E := string) o = Ok o') by congruence. rewrite <- Ho'. symmetry.
  eapply typed_get_spec, sess_call_Ok. by rewrite E.
Qed.

Lemma sess_call_is_ok {A} what (m : M W string A) w : is_ok (sess_call what m w).1 = is_ok (m (sw_store w)).1.
Proof. unfold sess_call. by destruct (m _) as [[]]. Qed.

Lemma push_pending s (l : FlashMessages → list FlashMessage) w q :
  pending w s q →
  let m := (let! messages := read_flash s in
            sess_call "Failed to write flash messages: " (typed_insert s FLASH_SESSION_KEY (l messages))) in
  pending (m w).2 s (if is_ok (m w).1 then l q else q).
Proof.
  intros Hq. cbn. unfold bind. destruct (read_flash_spec s w q Hq) as [Hv Ho].
  destruct (read_flash s w) as [[o|e] w1]; cbn in *; [|eapply pending_ext; [by rewrite Hv|done]].
  rewrite (Ho o) by done. rewrite sess_call_is_ok. unfold pending. rewrite sess_call_view.
  destruct (typed_insert_spec s FLASH_SESSION_KEY (l q) (sw_store w1)) as [_ ->].
  destruct (is_ok _); [right; apply lookup_insert_eq|]. fold (view w1 s). by rewrite Hv.
Qed.

Lemma remove_pending {A} what s (f : option (list FlashMessage) → A) w q :
  pending w s q →
  let m := (let! o := sess_call what (typed_remove (list FlashMessage) s FLASH_SESSION_KEY) in ret (f o)) : G A in
  match (m w).1 with
  | Ok a => pending (m w).2 s [] ∧ ∃ o, a = f o ∧ default [] o = q
  | Err _ => pending (m w).2 s q
  end.
Proof.
  intros Hq. cbn. unfold bind. destruct (pending_decode w s q Hq) as (o & Ho & Hd).
  assert (Ev := sess_call_view what (typed_remove (list FlashMessage) s FLASH_SESSION_KEY) w s).
  assert (Er := sess_call_Ok what (typed_remove (list FlashMessage) s FLASH_SESSION_KEY) w).
  destruct (sess_call _ _ w) as [r w1]. cbn in Ev, Er. unfold view in Ho.
  destruct (typed_remove_spec (list FlashMessage) s FLASH_SESSION_KEY (sw_store w)) as [_ [[Hv Hr]|[Hv Hr]]].
  - rewrite (proj2 (Er o)) by (by rewrite Hr). cbn. split; [|eauto]. left. split; [|done].
    rewrite Ev, Hv. apply lookup_delete_eq.
  - destruct r as [a|e]; [by rewrite (proj1 (Er a)) in Hr|]. cbn; apply (pending_ext w); [by rewrite Ev, Hv|done].
Qed.

(** What a command does to the queue of its session, given whether it
    succeeded. *)
Definition queue_after (c : SessCmd) (ok : bool) (q : list FlashMessage) : list FlashMessage :=
  match c, ok with
  | CPush m, true => q ++ [m]
  | CPushMany ms, true => q ++ ms
  | CFlashClear, true | CFlashRead, true => []
  | _, _ => q
  end.

(** A command that may write the queue's key is a flash command. *)
Definition fair_to_flash (c : SessCmd) : Prop :=
  match c with CDestroy => False | CSet k _ => k ≠ FLASH_SESSION_KEY | _ => True end.

Lemma reply_ok {A} (f : A → SessReply) (m : G A) w :
  (reply f m w).2 = (m w).2 ∧ is_ok (reply f m w).1 = is_ok (m w).1 ∧
  (∀ x, (reply f m w).1 = Ok x → ∃ a, (m w).1 = Ok a ∧ x = f a).
Proof. unfold reply, bind. destruct (m w) as [[a|e] w1]; cbn; naive_solver. Qed.

Lemma exec_pending r s c w q :
  fair_to_flash c → pending w s q →
  let out := sess_exec r s c w in
  pending out.2 s (queue_after c (is_ok out.1) q) ∧
  (c = CFlashRead → ∀ x, out.1 = Ok x → x = RMessages q).
Proof.
  intros Hc Hq. cbn zeta.
  assert (Hother : cmd_writes c ≠ Some FLASH_SESSION_KEY → cmd_writes c ≠ None → pending (sess_exec r s c w).2 s q).
  { intros. eapply pending_ext; [|done]. by apply exec_keeps. }
  destruct c; try (split; [apply Hother; [cbn; discriminate || (intros [= ?]; by apply Hc)|done]|done]);
    unfold sess_exec.
  - destruct (reply_ok (fun _ => RUnit) (flash_push s m) w) as (-> & -> & _). split; [|done].
    assert (P := push_pending s (fun l => l ++ [m]) w q Hq). cbn in P. unfold flash_push. by destruct (is_ok _).
  - destruct (reply_ok (fun _ => RUnit) (flash_push_many s ms) w) as (-> & -> & _). split; [|done].
    assert (P := push_pending s (fun l => l ++ ms) w q Hq). cbn in P. unfold flash_push_many. by destruct (is_ok _).
  - destruct (reply_ok (fun _ => RUnit) (flash_clear s) w) as (-> & -> & _). split; [|done].
    assert (P := remove_pending "Failed to clear flash messages: " s (fun _ => tt) w q Hq). cbn in P.
    unfold flash_clear. destruct (bind _ _ w) as [[]]; cbn in *; [apply P|done].
  - destruct (reply_ok RMessages (flash_from_request (Some s)) w) as (-> & -> & Hx).
    assert (P := remove_pending "Failed to read flash messages: " s (default []) w q Hq). cbn in P.
    change (flash_from_request (Some s) w) with (bind (sess_call "Failed to read flash messages: "
      (typed_remove (list FlashMessage) s FLASH_SESSION_KEY)) (fun o => ret (default [] o)) w) in *.
    destruct (bind _ _ w) as [[a|e] w1]; cbn in *.
    + destruct P as [? (o & -> & <-)]. split; [done|]. intros _ x (b & [= <-] & ->)%Hx. done.
    + split; [done|]. intros _ x (b & ? & _)%Hx. done.
Qed.

(** The messages a command of the session adds, and those it hands out. *)
Definition accepted (s : Sess) (x : Request * Sess * SessCmd * result SessReply Error) : list FlashMessage :=
  let '(_, s', c, out) := x in
  if decide (s' = s) then
    match c, out with CPush m, Ok _ => [m] | CPushMany ms, Ok _ => ms | _, _ => [] end
  else [].

Definition delivered (s : Sess) (x : Request * Sess * SessCmd * result SessReply Error) : list FlashMessage :=
  let '(_, s', c, out) := x in
  if decide (s' = s) then match c, out with CFlashRead, Ok (RMessages l) => l | _, _ => [] end else [].

(** Commands on [s] that neither discard its messages nor write their key
    behind the flash interface. *)
Definition no_discard (s : Sess) (x : Request * Sess * SessCmd) : Prop :=
  x.1.2 = s → fair_to_flash x.2 ∧ x.2 ≠ CFlashClear.

Lemma exec_queue s r s' c w q :
  no_discard s (r, s', c) → pending w s q →
  ∃ q', pending (sess_exec r s' c w).2 s q' ∧
    q ++ accepted s (r, s', c, (sess_exec r s' c w).1) = delivered s (r, s', c, (sess_exec r s' c w).1) ++ q'.
Proof.
  intros Hc Hq. unfold accepted, delivered. destruct (decide (s' = s)) as [->|Hne].
  - destruct (Hc eq_refl) as [Hf Hcl]. destruct (exec_pending r s c w q Hf Hq) as [Hp Hr]. eexists. split; [exact Hp|].
    destruct (sess_exec r s c w) as [[x|e] w1]; cbn; destruct c; cbn; rewrite ?app_nil_r; try done.
    by rewrite (Hr eq_refl x).
  - exists q. split; [|by rewrite app_nil_r]. eapply pending_ext; [|done]. by rewrite exec_other.
Qed.

(** Within a request: the messages a session held and those it accepted are the
    ones it handed out followed by the ones it still holds. *)
Lemma run_queue s cmds w q :
  pending w s q → Forall (no_discard s) cmds →
  let '(outs, w') := sess_run cmds w in
  ∃ q', pending w' s q' ∧
    q ++ concat (accepted s <$> zip cmds outs) = concat (delivered s <$> zip cmds outs) ++ q'.
Proof.
  intros Hq Hc. revert w q Hq. induction Hc as [|[[r s'] c] cmds Hc _ IH]; intros w q Hq.
  { cbn. exists q. by rewrite app_nil_r. }
  destruct (exec_queue s r s' c w q Hc Hq) as (q1 & Hq1 & E1). cbn.
  destruct (sess_exec r s' c w) as [o w1]. specialize (IH w1 q1 Hq1). destruct (sess_run cmds w1) as [outs w2].
  destruct IH as (q2 & Hq2 & E2). exists q2. split; [done|]. cbn [fst] in E1. cbn [zip zip_with fmap list_fmap concat].
  by rewrite (assoc_L (++)), E1, <- !(assoc_L (++)), E2.
Qed.

Lemma run_other s cmds w : Forall (fun x => x.1.2 ≠ s) cmds → view (sess_run cmds w).2 s = view w s.
Proof.
  intros Hc. revert w. induction Hc as [|[[r s'] c] cmds Hc _ IH]; intros w; [done|]. cbn.
  assert (E := exec_other r s s' c w Hc). destruct (sess_exec r s' c w) as [o w1].
  specialize (IH w1). destruct (sess_run cmds w1). cbn in *. congruence.
Qed.
End Runs.

(** ** Requests that end in a save *)

(** A request: its session, the calls its handler makes, and whether it answers
    with a server error. *)
Record SessRequest (Sess : Type) := mkSessRequest {
  sq_request : Request;
  sq_session : Sess;
  sq_calls : list SessCmd;
  sq_failed : bool;
}.
Arguments mkSessRequest {Sess}.
Arguments sq_request {Sess}.
Arguments sq_session {Sess}.
Arguments sq_calls {Sess}.
Arguments sq_failed {Sess}.

Section Saved.
Context `{HttpEnv} `{CsrfRandom} {W Sess : Type} `{!SessionApi W Sess} `{!SessionLaws W Sess} `{!EqDecision Sess}
  `{!SessionSaves W Sess} `{!SessionSavesLaws W Sess}.

Definition calls (rq : SessRequest Sess) : list (Request * Sess * SessCmd) :=
  (fun c => (sq_request rq, sq_session rq, c)) <$> sq_calls rq.

(** One request: what its calls reply, and whether it answered without a server
    error and was saved. *)
Definition sess_serve (rq : SessRequest Sess) (w : SessWorld W) : list (result SessReply Error) * bool * SessWorld W :=
  let '(outs, w1) := sess_run (calls rq) w in
  let '(r, store) := sess_finish (sq_session rq) (sq_failed rq) (sw_store w1) in
  (outs, is_ok r && negb (sq_failed rq), mkSessWorld store (sw_draws w1) (sw_audit w1)).

Fixpoint sess_serve_all (rqs : list (SessRequest Sess)) (w : SessWorld W)
    : list (list (result SessReply Error) * bool) * SessWorld W :=
  match rqs with
  | [] => ([], w)
  | rq :: rqs =>
      let '(out, w1) := sess_serve rq w in
      let '(outs, w2) := sess_serve_all rqs w1 in (out :: outs, w2)
  end.

(** *** What calls do to the stored record *)

Definition kept (w : SessWorld W) (s : Sess) : gmap string json := sess_kept (sw_store w) s.

(** [m] leaves the stored record of [s]. *)
Definition stores {E A} (s : Sess) (m : M (SessWorld W) E A) : Prop := ∀ w, kept (m w).2 s = kept w s.

Lemma stores_bind {E A B} s (m : M (SessWorld W) E A) (f : A → M (SessWorld W) E B) :
  stores s m → (∀ a, stores s (f a)) → stores s (bind m f).
Proof.
  intros Hm Hf w. specialize (Hm w). unfold bind. destruct (m w) as [[a|e] w1]; [|done]. by rewrite Hf.
Qed.

Lemma stores_pure {E A} s (m : M (SessWorld W) E A) : (∀ w, sw_store (m w).2 = sw_store w) → stores s m.
Proof. intros Hm w. unfold kept. by rewrite Hm. Qed.

Lemma stores_call {A} s what (m : M W string A) : (∀ w, sess_kept (m w).2 s = sess_kept w s) → stores s (sess_call what m).
Proof. intros Hm w. unfold sess_call, kept. specialize (Hm (sw_store w)). by destruct (m _). Qed.

Lemma stores_get A `{!Codec A} s what s' k : stores s (sess_call what (typed_get A s' k)).
Proof.
  apply stores_call. intros w. unfold typed_get, bind, lift. assert (E := sess_get_kept s' k w s).
  by destruct (sess_get _ _ _) as [[]].
Qed.

Lemma stores_insert {A} `{!Codec A} s what s' k (a : A) : stores s (sess_call what (typed_insert s' k a)).
Proof. apply stores_call. intros w. apply sess_insert_kept. Qed.

Lemma stores_remove A `{!Codec A} s what s' k : stores s (sess_call what (typed_remove A s' k)).
Proof.
  apply stores_call. intros w. unfold typed_remove, bind, lift. assert (E := sess_remove_kept s' k w s).
  by destruct (sess_remove _ _ _) as [[]].
Qed.

Hint Resolve stores_get stores_insert stores_remove : core.
Ltac step_stores := repeat (apply stores_bind; [auto|intros ?]); auto; try (by apply stores_pure).

Lemma stores_from_request {T A} `{!Codec T} (dflt : T) s s' logger r (f : TypedSession Sess T → M (SessWorld W) Error A) :
  (∀ d a, stores s (f (mkTypedSession s' d a))) → stores s (bind (ts_from_request dflt (Some s') logger r) f).
Proof. intros Hf w. rewrite bind_from_request. apply stores_bind; auto. Qed.

(** Only destroying a session and logging in, which changes its id, delete its
    stored record before the request ends. *)
Definition keeps_record (c : SessCmd) : Prop := match c with CDestroy | CLogin _ _ _ => False | _ => True end.

Lemma exec_stores r s s' c : (s' = s → keeps_record c) → stores s (sess_exec r s' c).
Proof.
  intros Hc. destruct c; (apply stores_bind; [|intros ?; by apply stores_pure]).
  - unfold flash_push, read_flash. step_stores.
  - unfold flash_push_many, read_flash. step_stores.
  - unfold flash_clear. step_stores.
  - unfold flash_from_request. apply stores_bind; [by apply stores_pure|]. intros ?. step_stores.
  - unfold csrf_from_request. apply stores_bind; [by apply stores_pure|]. intros ?. unfold get_or_create.
    apply stores_bind; [auto|]. intros [t|]; [by apply stores_pure|].
    apply stores_bind; [by apply stores_pure|]. intros ?. step_stores.
  - unfold csrf_regenerate. apply stores_bind; [by apply stores_pure|]. intros ?. step_stores.
  - apply stores_from_request. intros d a. apply stores_bind; [apply stores_insert|]. intros ?.
    apply stores_call. intros w. apply sess_cycle_id_kept. naive_solver.
  - apply stores_from_request. intros d a. apply stores_bind; [apply stores_insert|]. intros ?.
    destruct a as [[[] ?]|]; by apply stores_pure.
  - apply stores_insert.
  - apply stores_from_request. intros d a. apply stores_call. intros w. apply sess_flush_kept. naive_solver.
Qed.

Lemma run_stores s cmds w : Forall (fun x => x.1.2 = s → keeps_record x.2) cmds → kept (sess_run cmds w).2 s = kept w s.
Proof.
  intros Hc. revert w. induction Hc as [|[[r s'] c] cmds Hc _ IH]; intros w; [done|]. cbn.
  assert (E := exec_stores r s s' c Hc w). destruct (sess_exec r s' c w) as [o w1].
  specialize (IH w1). destruct (sess_run cmds w1). cbn in *. congruence.
Qed.

(** *** Flash messages over requests *)

(** The messages of [s] that the counted requests accept, or hand out. *)
Fixpoint tally (messages : Request * Sess * SessCmd * result SessReply Error → list FlashMessage)
    (rqs : list (SessRequest Sess)) (outs : list (list (result SessReply Error) * bool)) (counted : list bool) : list FlashMessage :=
  match rqs, outs, counted with
  | rq :: rqs, (out, _) :: outs, b :: counted =>
      (if b then concat (messages <$> zip (calls rq) out) else []) ++ tally messages rqs outs counted
  | _, _, _ => []
  end.

(** What the requests have to leave alone: none clears or destroys the messages
    of [s] or writes their key behind the flash interface, and one of [s] that
    logs in is saved. *)
Definition flash_safe (s : Sess) (rq : SessRequest Sess) (out : list (result SessReply Error) * bool) : Prop :=
  Forall (no_discard s) (calls rq) ∧ (out.2 = true ∨ Forall (fun x => x.1.2 = s → keeps_record x.2) (calls rq)).

Lemma calls_session rq : Forall (fun x => x.1.2 = sq_session rq) (calls rq).
Proof. apply Forall_fmap, Forall_forall. done. Qed.

Lemma sess_serve_queue s rq w q :
  pending w s q → kept w s = view w s →
  let '(outs, ok, w') := sess_serve rq w in
  flash_safe s rq (outs, ok) →
  ∃ b q', (ok = true → b = true) ∧ pending w' s q' ∧ kept w' s = view w' s ∧
    q ++ (if b then concat (accepted s <$> zip (calls rq) outs) else []) =
      (if b then concat (delivered s <$> zip (calls rq) outs) else []) ++ q'.
Proof.
  intros Hq Hk. unfold sess_serve.
  assert (Hrun := run_queue s (calls rq) w q Hq). assert (Hst := run_stores s (calls rq) w).
  assert (Hot := run_other s (calls rq) w). destruct (sess_run (calls rq) w) as [outs w1]. cbn in Hst, Hot.
  destruct (sess_finish (sq_session rq) (sq_failed rq) (sw_store w1)) as [r st] eqn:Ef.
  apply sess_finish_law in Ef as (Ho & Hok & Hor & Hke). intros [Hnd Hrec]. destruct (Hrun Hnd) as (q1 & Hq1 & E1).
  assert (∀ w2, view w2 s = view w1 s → pending w2 s q1) as Hsame by (intros w2 E; eapply pending_ext; [|done]; by rewrite E).
  destruct (decide (sq_session rq = s)) as [Hs|Hs].
  - rewrite Hs in *. assert (sess_view st s = sess_view (sw_store w1) s ∨
      is_ok r && negb (sq_failed rq) = false ∧ sess_view st s = sess_kept (sw_store w1) s) as [E|[Hf E]].
    { destruct Hor as [|Hor]; [by left|]. destruct (is_ok r && negb (sq_failed rq)) eqn:Eok; [left|by right].
      apply andb_true_iff in Eok as [? ?%negb_true_iff]. auto. }
    + exists true, q1. split_and!; [done|by apply Hsame|done|done].
    + cbn in Hrec. rewrite Hf in Hrec. destruct Hrec as [|Hrec]; [done|]. exists false, q. rewrite Hf, app_nil_r.
      split_and!; [done| |done|done]. eapply pending_ext; [|done].
      unfold view, kept in *. cbn. by rewrite E, (Hst Hrec), Hk.
  - destruct (Ho s) as [Hv1 Hk1]; [done|]. exists true, q1.
    assert (Forall (fun x => x.1.2 ≠ s) (calls rq)) as Hne by (eapply Forall_impl; [apply calls_session|]; naive_solver).
    assert (Forall (fun x => x.1.2 = s → keeps_record x.2) (calls rq)) as Hne2 by (eapply Forall_impl; [exact Hne|]; naive_solver).
    specialize (Hst Hne2). specialize (Hot Hne). unfold view, kept in *. cbn.
    split_and!; [done|by apply Hsame|congruence|done].
Qed.

(** C17: Flash messages are delivered exactly once and in order. Take requests of
    any sessions, one after the other, whose session calls may fail at any point
    and whose session may fail to be saved at the end or not be saved because the
    answer is a server error. Every request that was saved counts, one that was
    not counts whole or not at all; then the messages that a session held and those accepted by the
    counted requests are the ones the counted requests handed out followed by the
    ones still held. The requests must not clear or destroy the session's
    messages or write their key behind the flash interface, and one that logs in,
    which deletes the stored record, must be saved. *)
Theorem flash_exactly_once s rqs w q :
  pending w s q → kept w s = view w s →
  let '(outs, w') := sess_serve_all rqs w in
  Forall2 (flash_safe s) rqs outs →
  ∃ counted q', Forall2 (fun out b => out.2 = true → b = true) outs counted ∧ pending w' s q' ∧
    q ++ tally (accepted s) rqs outs counted = tally (delivered s) rqs outs counted ++ q'.
Proof.
  revert w q. induction rqs as [|rq rqs IH]; intros w q Hq Hk; cbn.
  { intros _. exists [], q. by rewrite app_nil_r. }
  assert (P := sess_serve_queue s rq w q Hq Hk). destruct (sess_serve rq w) as [[out ok] w1].
  specialize (IH w1). destruct (sess_serve_all rqs w1) as [outs w2]. intros [Hs1 Hs2]%Forall2_cons.
  destruct (P Hs1) as (b & q1 & Hb & Hq1 & Hk1 & E1). destruct (IH q1 Hq1 Hk1 Hs2) as (bs & q2 & Hbs & Hq2 & E2).
  exists (b :: bs), q2. split; [by constructor|]. split; [done|]. by rewrite (assoc_L (++)), E1, <- !(assoc_L (++)), E2.
Qed.
End Saved.

(** ** The forgery gate *)

Lemma compare_fold_zero (l : list (ascii * ascii)) (acc : Z) :
  foldl compare_step acc l = 0 ↔ acc = 0 ∧ Forall (fun xy => xy.1 = xy.2) l.
Proof.
  revert acc. induction l as [|[x y] l IH]; intros acc; cbn; [by intuition|].
  rewrite IH, Forall_cons. unfold compare_step at 1. cbn. rewrite Z.lor_eq_0_iff, Z.lxor_eq_0_iff.
  assert (Z_of_byte x = Z_of_byte y ↔ x = y) as ->; [|tauto]. split; [|by intros ->].
  unfold Z_of_byte. intros E%N2Z.inj. by rewrite <- (ascii_N_embedding x), E, ascii_N_embedding.
Qed.

Lemma zip_equal {A} (l k : list A) : length l = length k → Forall (fun xy => xy.1 = xy.2) (zip l k) ↔ l = k.
Proof.
  revert k. induction l as [|x l IH]; intros [|y k] El; try done. injection El as El. cbn.
  rewrite Forall_cons, IH by done. cbn. naive_solver.
Qed.

Lemma length_str_bytes s : length (str_bytes s) = String.length s.
Proof. unfold str_bytes. induction s; cbn; auto. Qed.

Lemma compare_iff a b : constant_time_compare a b = true ↔ a = b.
Proof.
  unfold constant_time_compare. destruct (Nat.eqb_spec (String.length a) (String.length b)) as [El|El]; cbn.
  - rewrite Z.eqb_eq, compare_fold_zero, zip_equal by (by rewrite !length_str_bytes).
    split; [intros [_ E]; by apply str_bytes_inj|by intros ->].
  - split; [done|by intros ->].
Qed.

(** the comparison that looks at every byte is string equality: accumulating
    the exclusive or of the bytes neither misses a difference nor reports one
    that is not there. *)
Theorem constant_time_compare_eqb a b : constant_time_compare a b = String.eqb a b.
Proof.
  destruct (String.eqb_spec a b) as [->|Hne]; [by apply compare_iff|]. apply not_true_is_false. by rewrite compare_iff.
Qed.

Section Gate.
Context `{HttpEnv} `{CsrfRandom} {W Sess : Type} `{!SessionApi W Sess} `{!SessionLaws W Sess} `{!EqDecision Sess}.

(** The token kept in the session. *)
Definition session_token (w : SessWorld W) (s : Sess) (t : string) : Prop :=
  view w s !! CSRF_SESSION_KEY = Some (JString t).

Lemma decode_token (v : option json) t :
  decode string v = Ok (Some t) ↔ v = Some (JString t).
Proof. destruct v as [[]|]; cbn; naive_solver. Qed.

Lemma expected_token_spec s (w : SessWorld W) :
  (∀ s', view (expected_token s w).2 s' = view w s') ∧
  (∀ t, (expected_token s w).1 = Ok (Some t) → session_token w s t) ∧
  (∀ t v, session_token w s t → (sess_get s CSRF_SESSION_KEY (sw_store w)).1 = Ok v →
     (expected_token s w).1 = Ok (Some t)).
Proof.
  unfold expected_token.
  assert (Q := quiet_get string "" s CSRF_SESSION_KEY w).
  assert (E := sess_call_Ok "" (typed_get string s CSRF_SESSION_KEY) w).
  destruct (sess_call _ _ w) as [o w1]. cbn in *. split; [done|]. split.
  - intros t [= Ho]. destruct o as [o|]; [|done]. cbn in Ho. subst o. apply decode_token.
    by eapply typed_get_spec, E.
  - intros t v Ht Hg. apply (get_answers string) in Hg. fold (view w s) in Hg.
    rewrite (proj2 (decode_token _ t) Ht) in Hg. apply E in Hg. by rewrite Hg.
Qed.

(** What the gate does with an unsafe request. *)
Lemma csrf_gate_spec config session r w :
  cf_enabled config = true → is_safe_method config r = false →
  let '(out, w') := csrf_call (W := W) config session r w in
  (∀ s, view w' s = view w s) ∧
  match out with
  | Ok r' => r' = r ∧ ∃ s t, session = Some s ∧ session_token w s t ∧ provided_token config r = Some t
  | Err resp => cr_status resp = 403 ∧
      ∀ s t v, session = Some s → session_token w s t → provided_token config r = Some t →
        (sess_get s CSRF_SESSION_KEY (sw_store w)).1 ≠ Ok v
  end.
Proof.
  intros He Hm. unfold csrf_call. rewrite He, Hm. cbn.
  destruct session as [s|]; [|by cbn; naive_solver]. unfold bind.
  destruct (expected_token_spec s w) as (Hv & Ht & Hc).
  destruct (expected_token s w) as [[[t|]|] w1] eqn:E; cbn in *.
  - specialize (Ht t eq_refl). destruct (provided_token config r) as [p|]; cbn; [|by naive_solver].
    destruct (constant_time_compare t p) eqn:Ec; cbn.
    + apply compare_iff in Ec as ->. eauto 10.
    + split; [done|]. split; [done|]. intros s' t' v [= <-] Ht' [= ->]. unfold session_token in *.
      rewrite Ht in Ht'. injection Ht' as <-. by rewrite (proj2 (compare_iff t t)) in Ec.
  - split; [done|]. split; [done|]. intros s' t' v [= <-] Ht' _ Hg. by specialize (Hc t' v Ht' Hg).
  - unfold expected_token in E. by destruct (sess_call _ _ _).
Qed.

(** Handing out the token of a session that has one does not change it, and
    nothing but a new token, a write to its key or the end of the session does. *)
Definition keeps_token (s : Sess) (x : Request * Sess * SessCmd) : Prop :=
  x.1.2 = s →
  match x.2 with CRegenerate _ | CDestroy => False | CSet k _ => k ≠ CSRF_SESSION_KEY | _ => True end.

Lemma get_or_create_keeps s n w t :
  session_token w s t → session_token (get_or_create s n w).2 s t ∧
  ∀ u, (get_or_create s n w).1 = Ok u → u = t.
Proof.
  intros Ht. unfold get_or_create, bind.
  assert (Q := quiet_get string "Failed to read CSRF token: " s CSRF_SESSION_KEY w s).
  assert (E := sess_call_Ok "Failed to read CSRF token: " (typed_get string s CSRF_SESSION_KEY) w).
  assert (D := proj2 (typed_get_spec string s CSRF_SESSION_KEY (sw_store w))).
  destruct (sess_call _ _ w) as [[o|e] w1]; cbn in *; [|by unfold session_token; rewrite Q].
  specialize (D o (proj1 (E o) eq_refl)). fold (view w s) in D. rewrite (proj2 (decode_token _ t) Ht) in D.
  injection D as <-. cbn. unfold session_token. rewrite Q. naive_solver.
Qed.

Lemma exec_keeps_token r s s' c w t :
  keeps_token s (r, s', c) → session_token w s t → session_token (sess_exec r s' c w).2 s t.
Proof.
  intros Hc Ht. destruct (decide (s' = s)) as [->|]; [|unfold session_token; by rewrite exec_other].
  specialize (Hc eq_refl). cbn in Hc.
  destruct c; try done; try (unfold session_token; rewrite exec_keeps; [done|intros _; split; [done|];
    cbn; discriminate || congruence]).
  unfold sess_exec. destruct (reply_ok RTokenIs (csrf_from_request (Some s)) w) as (-> & _).
  by apply get_or_create_keeps.
Qed.

Lemma run_keeps_token s cmds w t :
  Forall (keeps_token s) cmds → session_token w s t → session_token (sess_run cmds w).2 s t.
Proof.
  intros Hc. revert w. induction Hc as [|[[r s'] c] cmds Hc _ IH]; intros w Ht; [done|]. cbn.
  assert (Ht1 := exec_keeps_token r s s' c w t Hc Ht). destruct (sess_exec r s' c w) as [o w1].
  specialize (IH w1 Ht1). by destruct (sess_run cmds w1).
Qed.

Lemma token_issued s n w t w' : get_or_create s n w = (Ok t, w') → session_token w' s t.
Proof.
  intros E. unfold get_or_create in E. apply bind_Ok in E as ([t'|] & w1 & E1 & E).
  - injection E as <- <-. unfold session_token.
    change w1 with (Ok (E := Error) (Some t'), w1).2. rewrite <- E1, quiet_get. apply decode_token.
    eapply typed_get_spec, sess_call_Ok. by rewrite E1.
  - apply bind_Ok in E as (u & w2 & _ & E). apply bind_Ok in E as ([] & w3 & E3 & [= <- <-]).
    unfold session_token. change w3 with (Ok (E := Error) tt, w3).2. rewrite <- E3, sess_call_view.
    destruct (typed_insert_spec s CSRF_SESSION_KEY u (sw_store w2)) as [_ ->].
    rewrite <- (sess_call_is_ok "Failed to store CSRF token: "), E3. apply lookup_insert_eq.
Qed.

(** C16: the forgery gate. Once a page of a session was given its token [t], then
    after any requests of this and other sessions that do not replace the token
    or end the session, an unsafe request of that session is handed on,
    unchanged, only if its header carries [t]; every other one is answered with
    status 403, and one that carries [t] is refused only when the session store
    fails. *)
Theorem csrf_token_protects config s n w0 t w1 cmds r :
  get_or_create s n w0 = (Ok t, w1) → Forall (keeps_token s) cmds →
  cf_enabled config = true → is_safe_method config r = false →
  let w2 := (sess_run cmds w1).2 in
  let '(out, w3) := csrf_call config (Some s) r w2 in
  (∀ s', view w3 s' = view w2 s') ∧
  match out with
  | Ok r' => r' = r ∧ provided_token config r = Some t
  | Err resp => cr_status resp = 403 ∧
      (provided_token config r = Some t → ∀ v, (sess_get s CSRF_SESSION_KEY (sw_store w2)).1 ≠ Ok v)
  end.
Proof.
  intros Hi%token_issued Hc He Hm w2. assert (Ht : session_token w2 s t) by (by apply run_keeps_token).
  assert (P := csrf_gate_spec config (Some s) r w2 He Hm). destruct (csrf_call _ _ _ w2) as [[r'|resp] w3];
    destruct P as [Hv P]; (split; [done|]).
  - destruct P as (-> & s' & t' & [= <-] & Ht' & Hp). split; [done|]. unfold session_token in *. congruence.
  - destruct P as [? P]. split; [done|]. intros Hp v. by eapply P.
Qed.

(** *** Authentication data *)

(** The authentication data written in the session. *)
Definition auth_saved (w : SessWorld W) (s : Sess) (d : AuthSession) : Prop :=
  view w s !! DATA_KEY = Some (to_value d) ∧ auth_ok d.

Lemma auth_saved_decode w s d : auth_saved w s d → decode AuthSession (view w s !! DATA_KEY) = Ok (Some d).
Proof. intros [-> Hd]. unfold decode. by rewrite from_to_value. Qed.

Lemma auth_read w s d o w' :
  auth_saved w s d →
  sess_call "Failed to read session data: " (typed_get AuthSession s DATA_KEY) w = (Ok o, w') → o = Some d.
Proof.
  intros Hd%auth_saved_decode E. enough (Ok (E := string) o = Ok (Some d)) by congruence. rewrite <- Hd. symmetry.
  eapply typed_get_spec, sess_call_Ok. by rewrite E.
Qed.

Lemma auth_extracted s logger r w d ts w' :
  auth_saved w s d → ts_from_request AuthSession_default (Some s) logger r w = (Ok ts, w') → ts_data ts = d.
Proof.
  intros Hd E. unfold ts_from_request in E. apply bind_Ok in E as (s0 & w1 & [= <- <-] & E).
  apply bind_Ok in E as (o & w2 & E & [= <- _]). cbn. by rewrite (auth_read w s d o w2).
Qed.

Lemma save_saved s d a w w' :
  auth_ok d → ts_save (mkTypedSession s d a) w = (Ok tt, w') → auth_saved w' s d.
Proof.
  intros Hd E. split; [|done]. unfold ts_save in E. change w' with (Ok (E := Error) tt, w').2.
  rewrite <- E, sess_call_view. cbn. destruct (typed_insert_spec s DATA_KEY d (sw_store w)) as [_ ->].
  rewrite <- (sess_call_is_ok "Failed to save session data: "). unfold ts_save in E. cbn in E. rewrite E.
  apply lookup_insert_eq.
Qed.

Lemma login_saves s r now u roles w w' :
  - 2 ^ 63 ≤ now < 2 ^ 63 → login_handler s r now u roles w = (Ok tt, w') →
  ∃ extra, auth_saved w' s (mkAuthSession (Some u) roles (Some now) extra).
Proof.
  intros Hn E. unfold login_handler in E. rewrite bind_from_request in E. apply bind_Ok in E as (d & w1 & _ & E).
  cbn in E. apply bind_Ok in E as ([] & w2 & E2 & E3). unfold ts_regenerate in E3. cbn in E3.
  eexists. apply save_saved in E2; [|done]. unfold auth_saved in *. unfold auth_login in E2.
  change w' with (Ok (E := Error) tt, w').2. rewrite <- E3, quiet_cycle. exact E2.
Qed.

Lemma logout_saves s r w d w' :
  auth_saved w s d → logout_handler s r w = (Ok tt, w') →
  auth_saved w' s AuthSession_default ∧
  sw_audit w' = sw_audit w ++
    [(AuthLogout, SevNotice, source_with_subject (au_user_id d) (audit_source_for_request r))].
Proof.
  intros Hd E. unfold logout_handler in E. rewrite bind_from_request in E. apply bind_Ok in E as (o & w1 & E1 & E).
  rewrite (auth_read w s d o w1 Hd E1) in E. cbn in E. apply bind_Ok in E as ([] & w2 & E2 & E).
  assert (A1 : sw_audit w1 = sw_audit w).
  { unfold sess_call in E1. destruct (typed_get _ _ _ _). by injection E1 as _ <-. }
  assert (A2 : sw_audit w2 = sw_audit w1).
  { unfold ts_save, sess_call in E2. destruct (typed_insert _ _ _ _). by injection E2 as _ <-. }
  injection E as <-. cbn. rewrite A2, A1. split; [|done]. by apply save_saved in E2.
Qed.

Lemma run_saved s cmds w d : leaves s DATA_KEY cmds → auth_saved w s d → auth_saved (sess_run cmds w).2 s d.
Proof. intros Hl [Hv Hd]. split; [|done]. by rewrite run_keeps. Qed.

(** authentication in a session. After a login was saved, every request of
    the session extracts that user, those roles and that time, whatever other
    operations and other sessions do in between; after the audited logout the
    session extracts as unauthenticated, without roles or extra data, and the
    trail ends in a logout event whose subject is the user who was logged in. *)
Theorem auth_session_lifecycle s r0 now u roles w0 w1 cmds1 r1 w3 cmds2 :
  - 2 ^ 63 ≤ now < 2 ^ 63 →
  login_handler s r0 now u roles w0 = (Ok tt, w1) → leaves s DATA_KEY cmds1 →
  logout_handler s r1 (sess_run cmds1 w1).2 = (Ok tt, w3) → leaves s DATA_KEY cmds2 →
  (∀ logger r ts w, ts_from_request AuthSession_default (Some s) logger r (sess_run cmds1 w1).2 = (Ok ts, w) →
     au_user_id (ts_data ts) = Some u ∧ au_roles (ts_data ts) = roles ∧ au_authenticated_at (ts_data ts) = Some now) ∧
  (∀ logger r ts w, ts_from_request AuthSession_default (Some s) logger r (sess_run cmds2 w3).2 = (Ok ts, w) →
     ts_data ts = AuthSession_default) ∧
  last (sw_audit w3) = Some (AuthLogout, SevNotice, source_with_subject (Some u) (audit_source_for_request r1)).
Proof.
  intros Hn (extra & Hs)%login_saves Hl1 Eo Hl2; [|done]. apply (run_saved s cmds1) in Hs; [|done].
  destruct (logout_saves _ _ _ _ _ Hs Eo) as [Hd Ha]. apply (run_saved s cmds2) in Hd; [|done]. split; [|split].
  - intros logger r ts w E. by rewrite (auth_extracted _ _ _ _ _ _ _ Hs E).
  - intros logger r ts w E. by rewrite (auth_extracted _ _ _ _ _ _ _ Hd E).
  - rewrite Ha. apply last_snoc.
Qed.
(** The two forms of the gate agree on a request that has a session. *)
Lemma csrf_forms_agree s config r w : csrf_middleware s config r w = csrf_call config (Some s) r w.
Proof. done. Qed.
End Gate.

(** ** Rendering *)

(** One pass over the text. *)
Definition escape_char (a : ascii) : string :=
  if Ascii.eqb a "&" then "&amp;" else if Ascii.eqb a "<" then "&lt;" else if Ascii.eqb a ">" then "&gt;"
  else if Ascii.eqb a DQ then "&quot;" else if Ascii.eqb a "'" then "&#x27;" else String a "".

Lemma html_escape_cons a s : html_escape (String a s) = escape_char a +:+ html_escape s.
Proof.
  unfold html_escape. rewrite (replace_app "&" "&amp;" (String a "") s : replace _ _ (String a s) = _).
  rewrite !replace_app. f_equal.
  destruct a as [[] [] [] [] [] [] [] []]; reflexivity.
Qed.

(** A reader of the five entities. *)
Definition read_entity (s : string) : option (ascii * string) :=
  match strip_prefix "amp;" s with Some t => Some ("&"%char, t) | None =>
  match strip_prefix "lt;" s with Some t => Some ("<"%char, t) | None =>
  match strip_prefix "gt;" s with Some t => Some (">"%char, t) | None =>
  match strip_prefix "quot;" s with Some t => Some (DQ, t) | None =>
  match strip_prefix "#x27;" s with Some t => Some ("'"%char, t) | None => None end end end end end.

Fixpoint html_unescape (fuel : nat) (s : string) : string :=
  match fuel, s with
  | S fuel, String a s =>
      if Ascii.eqb a "&" then
        match read_entity s with
        | Some (c, t) => String c (html_unescape fuel t)
        | None => String a (html_unescape fuel s)
        end
      else String a (html_unescape fuel s)
  | _, _ => s
  end.

Lemma html_unescape_char fuel a t : html_unescape (S fuel) (escape_char a +:+ t) = String a (html_unescape fuel t).
Proof. destruct a as [[] [] [] [] [] [] [] []]; reflexivity. Qed.

Lemma html_unescape_escape s fuel : (String.length s ≤ fuel)%nat → html_unescape fuel (html_escape s) = s.
Proof.
  revert fuel. induction s as [|a s IH]; intros [|fuel] Hf; cbn in Hf; try done; try lia.
  rewrite html_escape_cons, html_unescape_char, IH by lia. done.
Qed.

Definition is_html_special (c : ascii) : bool :=
  Ascii.eqb c "<" || Ascii.eqb c ">" || Ascii.eqb c DQ || Ascii.eqb c "'".

Lemma html_escape_no_special s : str_forallb (fun c => negb (is_html_special c)) (html_escape s) = true.
Proof.
  induction s as [|a s IH]; [done|]. rewrite html_escape_cons, str_forallb_app, IH, andb_true_r.
  by destruct a as [[] [] [] [] [] [] [] []].
Qed.

(** The value of an attribute: what stands before the next double quote. *)
Definition read_attribute (s : string) : option (string * string) :=
  v ← split_once DQ s; Some (html_unescape (String.length v.1) v.1, v.2).

(** A reader of the hidden field: its name and value. *)
Definition read_hidden_field (s : string) : option (string * string) :=
  s ← strip_prefix ("<input type=" +:+ QUOTE +:+ "hidden" +:+ QUOTE +:+ " name=" +:+ QUOTE) s;
  name ← read_attribute s;
  s ← strip_prefix (" value=" +:+ QUOTE) name.2;
  value ← read_attribute s;
  if String.eqb value.2 ">" then Some (name.1, value.1) else None.

Lemma html_escape_no_quote s : has_char DQ (html_escape s) = false.
Proof.
  unfold has_char. apply negb_false_iff. induction s as [|a s IH]; [done|].
  rewrite html_escape_cons, str_forallb_app, IH, andb_true_r. by destruct a as [[] [] [] [] [] [] [] []].
Qed.

Lemma length_html_escape s : (String.length s ≤ String.length (html_escape s))%nat.
Proof.
  induction s as [|a s IH]; [done|]. rewrite html_escape_cons, length_string_app. cbn [String.length].
  assert (1 ≤ String.length (escape_char a))%nat; [|lia].
  apply Nat.leb_le. by destruct a as [[] [] [] [] [] [] [] []].
Qed.

Lemma read_attribute_escaped s t : read_attribute (html_escape s +:+ QUOTE +:+ t) = Some (s, t).
Proof.
  unfold read_attribute. change (QUOTE +:+ t) with (String DQ t).
  rewrite split_once_app by apply html_escape_no_quote. cbn. by rewrite html_unescape_escape by apply length_html_escape.
Qed.

(** rendered tokens read back: whatever the name and the token contain, the
    hidden field has exactly the two attribute values it was made from, and
    neither can close its attribute or its tag. *)
Theorem hidden_field_roundtrip token name :
  read_hidden_field (as_hidden_field_named token name) = Some (name, token) ∧
  str_forallb (fun c => negb (is_html_special c)) (html_escape token) = true ∧
  read_hidden_field (as_hidden_field token) = Some ("_csrf", token).
Proof.
  assert (R : ∀ n t, read_hidden_field (as_hidden_field_named t n) = Some (n, t)).
  { intros n t. unfold read_hidden_field. change (as_hidden_field_named t n) with
      (("<input type=" +:+ QUOTE +:+ "hidden" +:+ QUOTE +:+ " name=" +:+ QUOTE) +:+
       (html_escape n +:+ QUOTE +:+ ((" value=" +:+ QUOTE) +:+ (html_escape t +:+ QUOTE +:+ ">")))).
    rewrite strip_prefix_app. cbn [mbind option_bind]. rewrite read_attribute_escaped. cbn [mbind option_bind snd].
    rewrite strip_prefix_app. cbn [mbind option_bind]. by rewrite read_attribute_escaped. }
  split; [apply R|]. split; [apply html_escape_no_special|]. apply (R "_csrf").
Qed.

(** ** A store of sessions in memory *)

(** Handles are numbers; the sessions from 10 on cannot be reached. *)
Abbreviation mem_sessions := (gmap nat (gmap string json)).

Definition mem_reach {A} (s : nat) (m : M mem_sessions string A) : M mem_sessions string A := fun w =>
  if decide (s < 10)%nat then m w else (Err "unreachable", w).

Definition mem_view (w : mem_sessions) (s : nat) : gmap string json := default ∅ (w !! s).

#[local] Instance mem_session_api : SessionApi mem_sessions nat := {
  sess_get s k := mem_reach s (fun w => (Ok (mem_view w s !! k), w));
  sess_insert s k v := mem_reach s (fun w => (Ok tt, <[s := <[k := v]> (mem_view w s)]> w));
  sess_remove s k := mem_reach s (fun w => (Ok (mem_view w s !! k), <[s := delete k (mem_view w s)]> w));
  sess_flush s := mem_reach s (fun w => (Ok tt, delete s w));
  sess_cycle_id s := mem_reach s (fun w => (Ok tt, w));
  serde_error type _ := "invalid type, expected " +:+ type;
}.

Lemma mem_view_insert w s s' m : mem_view (<[s := m]> w) s' = if decide (s' = s) then m else mem_view w s'.
Proof.
  unfold mem_view. destruct (decide (s' = s)) as [->|]; [by rewrite lookup_insert_eq|by rewrite lookup_insert_ne].
Qed.

Lemma mem_view_delete w s s' : mem_view (delete s w) s' = if decide (s' = s) then ∅ else mem_view w s'.
Proof.
  unfold mem_view. destruct (decide (s' = s)) as [->|]; [by rewrite lookup_delete_eq|by rewrite lookup_delete_ne].
Qed.

#[local] Instance mem_session_laws : SessionLaws mem_sessions nat.
Proof.
  refine {| sess_view := mem_view |}; cbn; unfold mem_reach; intros s *; destruct (decide (s < 10)%nat);
    intros [= <- <-]; cbn; repeat split; intros;
    rewrite ?mem_view_insert, ?mem_view_delete, ?decide_True, ?decide_False by done; naive_solver.
Defined.

#[local] Instance witness_csrf_random : CsrfRandom := { alphanumeric i := ascii_of_nat (97 + i mod 26) }.

Definition witness_session_world : SessWorld mem_sessions := mkSessWorld ∅ 0 [].

Definition witness_session_request : Request :=
  mkRequest "POST" "/form" {["x-csrf-token" := "abcdefghijklmnopqrstuvwxyzabcdef"]} None None None None None.

Definition witness_requests : list (Request * nat * SessCmd) :=
  let r := witness_session_request in
  [(r, 1%nat, CPush (flash_success "saved")); (r, 2%nat, CPush (flash_info "other")); (r, 11%nat, CFlashRead);
   (r, 1%nat, CPushMany [flash_error "one"; flash_warning "two"]); (r, 1%nat, CFlashRead); (r, 1%nat, CToken);
   (r, 1%nat, CPush (flash_info "later")); (r, 2%nat, CDestroy)].

#[local] Instance session_http_env : HttpEnv := {| header_to_str s := Some s; parse_ip s := Some s |}.

(** Handles with copies of their own over such a store: the copies, then the
    store. The sessions from 5 on cannot be saved. *)
Definition mem_saved : Type := mem_sessions * mem_sessions.

Definition in_copies {A} (m : M mem_sessions string A) : M mem_saved string A := fun w =>
  let '(r, copies) := m w.1 in (r, (copies, w.2)).

#[local] Instance mem_saved_api : SessionApi mem_saved nat := {
  sess_get s k := in_copies (sess_get s k);
  sess_insert s k v := in_copies (sess_insert s k v);
  sess_remove s k := in_copies (sess_remove s k);
  sess_flush s := fun w => let '(r, w) := in_copies (sess_flush s) w in (r, (w.1, delete s w.2));
  sess_cycle_id s := fun w => let '(r, w) := in_copies (sess_cycle_id s) w in (r, (w.1, delete s w.2));
  serde_error := serde_error (W := mem_sessions) (S := nat);
}.

#[local] Instance mem_saved_laws : SessionLaws mem_saved nat.
Proof.
  refine {| sess_view w := mem_view w.1 |}; cbn; unfold in_copies, mem_reach; intros s *; destruct (decide (s < 10)%nat);
    intros [= <- <-]; cbn; repeat split; intros;
    rewrite ?mem_view_insert, ?mem_view_delete, ?decide_True, ?decide_False by done; naive_solver.
Defined.

#[local] Instance mem_saves : SessionSaves mem_saved nat := {
  sess_kept w := mem_view w.2;
  sess_finish s failed := fun w =>
    if failed || bool_decide (5 ≤ s)%nat then
      (if failed then Ok tt else Err "unreachable", (<[s := mem_view w.2 s]> w.1, w.2))
    else (Ok tt, (w.1, <[s := mem_view w.1 s]> w.2));
}.

#[local] Instance mem_saves_laws : SessionSavesLaws mem_saved nat.
Proof.
  split; cbn; unfold in_copies, mem_reach; intros s *.
  1-3: by destruct (decide (s < 10)%nat).
  1-2: intros Hs; destruct (decide (s < 10)%nat); cbn; by rewrite mem_view_delete, decide_False.
  destruct failed; cbn; [|case_bool_decide]; intros [= <- <-]; cbn; split_and!; intros; try done;
    rewrite ?mem_view_insert, ?decide_True, ?decide_False by done; auto.
Qed.

(** The second request of session 1 reads its messages but ends in a server
    error, the third reads them again; session 6 is never saved. *)
Definition witness_saved_requests : list (SessRequest nat) :=
  let r := witness_session_request in
  [mkSessRequest r 1%nat [CPush (flash_success "saved"); CPushMany [flash_error "one"]] false;
   mkSessRequest r 1%nat [CFlashRead; CPush (flash_info "lost")] true;
   mkSessRequest r 6%nat [CPush (flash_info "other"); CDestroy] false;
   mkSessRequest r 1%nat [CFlashRead; CToken; CPush (flash_info "later")] false].

Definition witness_saved_world : SessWorld mem_saved := mkSessWorld (∅, ∅) 0 [].

Lemma flash_exactly_once_witness :
  let outs := (sess_serve_all witness_saved_requests witness_saved_world).1 in
  tally (delivered 1%nat) witness_saved_requests outs [true; false; true; true] = [flash_success "saved"; flash_error "one"] ∧
  ∃ counted q', Forall2 (fun out b => out.2 = true → b = true) outs counted ∧
    tally (accepted 1%nat) witness_saved_requests outs counted =
      tally (delivered 1%nat) witness_saved_requests outs counted ++ q'.
Proof.
  cbv zeta. split; [vm_compute; reflexivity|].
  pose proof (flash_exactly_once 1%nat witness_saved_requests witness_saved_world []) as P.
  destruct (sess_serve_all witness_saved_requests witness_saved_world) as [outs w'] eqn:E.
  destruct P as (counted & q' & Hb & _ & E').
  - left. split; [vm_compute; reflexivity|reflexivity].
  - vm_compute. reflexivity.
  - vm_compute in E. injection E as <- _.
    repeat constructor; cbn; intros; try discriminate; try done; right; repeat constructor; done.
  - exists counted, q'. split; [exact Hb|exact E'].
Defined.

Lemma csrf_token_protects_witness :
  let w1 := (get_or_create 1%nat 32 witness_session_world).2 in
  (csrf_call CsrfConfig_default (Some 1%nat) witness_session_request (sess_run witness_requests w1).2).1 =
    Ok witness_session_request ∧
  provided_token CsrfConfig_default witness_session_request = Some "abcdefghijklmnopqrstuvwxyzabcdef".
Proof.
  cbv zeta. assert (E : (csrf_call CsrfConfig_default (Some 1%nat) witness_session_request
    (sess_run witness_requests (get_or_create 1%nat 32 witness_session_world).2).2).1 = Ok witness_session_request)
    by (vm_compute; reflexivity).
  split; [exact E|].
  pose proof (csrf_token_protects CsrfConfig_default 1%nat 32 witness_session_world "abcdefghijklmnopqrstuvwxyzabcdef"
    (get_or_create 1%nat 32 witness_session_world).2 witness_requests witness_session_request) as P.
  cbv zeta in P. destruct (csrf_call _ _ _ _) as [out w3]. cbn in E. subst out.
  destruct P as (_ & _ & P); [vm_compute; reflexivity| |reflexivity|reflexivity|exact P].
  repeat constructor; intros; cbn in *; discriminate.
Defined.

Lemma auth_session_lifecycle_witness :
  let w1 := (login_handler 1%nat witness_session_request 1700000000 "ann" ["admin"] witness_session_world).2 in
  let w3 := (logout_handler 1%nat witness_session_request (sess_run witness_requests w1).2).2 in
  last (sw_audit w3) =
    Some (AuthLogout, SevNotice, source_with_subject (Some "ann") (audit_source_for_request witness_session_request)).
Proof.
  cbv zeta.
  apply (auth_session_lifecycle 1%nat witness_session_request 1700000000 "ann" ["admin"] witness_session_world
    (login_handler 1%nat witness_session_request 1700000000 "ann" ["admin"] witness_session_world).2
    witness_requests witness_session_request _ witness_requests).
  - lia.
  - vm_compute. reflexivity.
  - repeat constructor; intros; discriminate.
  - vm_compute. reflexivity.
  - repeat constructor; intros; discriminate.
Defined.
