(* ===== verification/Handlers.v ===== *)
(** * Repositories and collection handlers

    The abstractions a service's own handlers are written with:
    [src/acton-service/src/repository/] (filters, pagination, errors),
    [src/acton-service/src/handlers/] (list queries, response envelopes, API
    errors) and the response types of [responses.rs]. What is proved: the page
    arithmetic at machine width, that following the pages visits every item
    once, and what a repository failure shows to the client. *)

From S2P Require Import Prelude Text FrameworkError AuditEvent.

Local Open Scope string_scope.
Local Open Scope Z_scope.
Local Open Scope list_scope.

(** ** Machine arithmetic *)

Definition U32_MAX : Z := 2 ^ 32 - 1.
Definition U64_MAX : Z := 2 ^ 64 - 1.

Definition u64_saturating_add (x y : Z) : Z := Z.min (x + y) U64_MAX.
Definition saturating_sub (x y : Z) : Z := Z.max (x - y) 0.
Definition u64_mul (x y : Z) : Z := as_unsigned 64 (x * y).

(** ** Repositories *)

Inductive OrderDirection := Ascending | Descending.

Definition order_to_string (o : OrderDirection) : string :=
  match o with Ascending => "asc" | Descending => "desc" end.

Record Pagination := mkPagination { pg_offset : Z; pg_limit : Z }.

Definition first_page (limit : Z) : Pagination := mkPagination 0 limit.
Definition Pagination_default : Pagination := mkPagination 0 20.

(** The product wraps in a build without overflow checks. *)
Definition pagination_page (page_number page_size : Z) : Pagination :=
  mkPagination (u64_mul (saturating_sub page_number 1) page_size) page_size.

Inductive FilterOperator :=
| Equal | NotEqual | GreaterThan | GreaterThanOrEqual | LessThan | LessThanOrEqual | Like | In_ | IsNull | IsNotNull.

Definition filter_operator_to_string (op : FilterOperator) : string :=
  match op with
  | Equal => "=" | NotEqual => "!=" | GreaterThan => ">" | GreaterThanOrEqual => ">=" | LessThan => "<"
  | LessThanOrEqual => "<=" | Like => "LIKE" | In_ => "IN" | IsNull => "IS NULL" | IsNotNull => "IS NOT NULL"
  end.

(** A float is its bits. *)
Inductive FilterValue :=
| FV_String (s : string) | FV_Integer (n : Z) | FV_Float (bits : Z) | FV_Boolean (b : bool)
| FV_StringList (l : list string) | FV_IntegerList (l : list Z) | FV_Null.

Record FilterCondition := mkFilterCondition { fc_field : string; fc_operator : FilterOperator; fc_value : FilterValue }.

Definition filter_eq (field : string) (value : FilterValue) := mkFilterCondition field Equal value.
Definition filter_ne (field : string) (value : FilterValue) := mkFilterCondition field NotEqual value.
Definition filter_gt (field : string) (value : FilterValue) := mkFilterCondition field GreaterThan value.
Definition filter_gte (field : string) (value : FilterValue) := mkFilterCondition field GreaterThanOrEqual value.
Definition filter_lt (field : string) (value : FilterValue) := mkFilterCondition field LessThan value.
Definition filter_lte (field : string) (value : FilterValue) := mkFilterCondition field LessThanOrEqual value.
Definition filter_like (field pattern : string) := mkFilterCondition field Like (FV_String pattern).
Definition filter_in_strings (field : string) (values : list string) := mkFilterCondition field In_ (FV_StringList values).
Definition filter_in_integers (field : string) (values : list Z) := mkFilterCondition field In_ (FV_IntegerList values).
Definition filter_is_null (field : string) := mkFilterCondition field IsNull FV_Null.
Definition filter_is_not_null (field : string) := mkFilterCondition field IsNotNull FV_Null.

Inductive RepositoryOperation :=
| FindById | FindAll | Count | Exists_ | Create | Update | Delete | SoftDelete | Restore_ | BatchLoad.

Definition repository_operation_to_string (op : RepositoryOperation) : string :=
  match op with
  | FindById => "find_by_id" | FindAll => "find_all" | Count => "count" | Exists_ => "exists" | Create => "create"
  | Update => "update" | Delete => "delete" | SoftDelete => "soft_delete" | Restore_ => "restore"
  | BatchLoad => "batch_load"
  end.

Inductive RepositoryErrorKind :=
| Repo_NotFound | Repo_AlreadyExists | Repo_ConstraintViolation | Repo_ValidationFailed | Repo_ConnectionFailed
| Repo_Timeout | Repo_DatabaseError | Repo_SerializationError | Repo_Other.

Definition repository_kind_to_string (k : RepositoryErrorKind) : string :=
  match k with
  | Repo_NotFound => "not_found" | Repo_AlreadyExists => "already_exists"
  | Repo_ConstraintViolation => "constraint_violation" | Repo_ValidationFailed => "validation_failed"
  | Repo_ConnectionFailed => "connection_failed" | Repo_Timeout => "timeout" | Repo_DatabaseError => "database_error"
  | Repo_SerializationError => "serialization_error" | Repo_Other => "other"
  end.

Record RepositoryError := mkRepositoryError {
  re_operation : RepositoryOperation;
  re_kind : RepositoryErrorKind;
  re_message : string;
  re_entity_type : option string;
  re_entity_id : option string;
}.

Definition repo_new operation kind message : RepositoryError := mkRepositoryError operation kind message None None.
Definition repo_not_found (entity_type entity_id : string) : RepositoryError :=
  mkRepositoryError FindById Repo_NotFound "Entity not found" (Some entity_type) (Some entity_id).
Definition repo_already_exists (entity_type identifier : string) : RepositoryError :=
  mkRepositoryError Create Repo_AlreadyExists "Entity already exists" (Some entity_type) (Some identifier).
Definition repo_validation_failed message : RepositoryError := repo_new Create Repo_ValidationFailed message.
Definition repo_constraint_violation operation message : RepositoryError :=
  repo_new operation Repo_ConstraintViolation message.
Definition repo_connection_failed message : RepositoryError := repo_new FindById Repo_ConnectionFailed message.
Definition repo_timeout operation message : RepositoryError := repo_new operation Repo_Timeout message.
Definition repo_database_error operation message : RepositoryError := repo_new operation Repo_DatabaseError message.
Definition repo_serialization_error operation message : RepositoryError :=
  repo_new operation Repo_SerializationError message.
Definition repo_with_entity (entity_type entity_id : string) (e : RepositoryError) : RepositoryError :=
  mkRepositoryError (re_operation e) (re_kind e) (re_message e) (Some entity_type) (Some entity_id).
Definition repo_with_operation operation (e : RepositoryError) : RepositoryError :=
  mkRepositoryError operation (re_kind e) (re_message e) (re_entity_type e) (re_entity_id e).

Definition repo_is_retriable (e : RepositoryError) : bool :=
  match re_kind e with Repo_ConnectionFailed | Repo_Timeout => true | _ => false end.

(** [ [type: id]] when both are known. *)
Definition entity_suffix (entity_type entity_id : option string) : string :=
  match entity_type, entity_id with Some t, Some i => " [" +:+ t +:+ ": " +:+ i +:+ "]" | _, _ => "" end.

Definition repository_error_to_string (e : RepositoryError) : string :=
  "Repository " +:+ repository_kind_to_string (re_kind e) +:+ " error during " +:+
  repository_operation_to_string (re_operation e) +:+ ": " +:+ re_message e +:+
  entity_suffix (re_entity_type e) (re_entity_id e).

(** [RepositoryResult] and the [Repository] trait over the state [W]. *)
Abbreviation RepositoryResult A := (result A RepositoryError).

Class Repository (W Id Entity CreateT UpdateT : Type) := {
  find_by_id : Id → M W RepositoryError (option Entity);
  find_all : list FilterCondition → option (string * OrderDirection) → option Pagination → M W RepositoryError (list Entity);
  repo_count : list FilterCondition → M W RepositoryError Z;
  repo_exists : Id → M W RepositoryError bool;
  repo_create : CreateT → M W RepositoryError Entity;
  repo_update : Id → UpdateT → M W RepositoryError Entity;
  repo_delete : Id → M W RepositoryError bool;
}.

(** ** List queries *)

Definition DEFAULT_PER_PAGE : Z := 20.
Definition MAX_PER_PAGE : Z := 100.

Inductive SortOrder := Asc | Desc.

Definition sort_order_to_string (o : SortOrder) : string := match o with Asc => "asc" | Desc => "desc" end.
Definition sort_order_as_sql (o : SortOrder) : string := match o with Asc => "ASC" | Desc => "DESC" end.

Record ListQuery := mkListQuery {
  lq_page : option Z;
  lq_per_page : option Z;
  lq_sort : option string;
  lq_order : option SortOrder;
  lq_search : option string;
  lq_filter : list string;
}.

Definition ListQuery_new : ListQuery := mkListQuery None None None None None [].
Definition with_page (page : Z) (q : ListQuery) : ListQuery :=
  mkListQuery (Some page) (lq_per_page q) (lq_sort q) (lq_order q) (lq_search q) (lq_filter q).
Definition with_per_page (per_page : Z) (q : ListQuery) : ListQuery :=
  mkListQuery (lq_page q) (Some per_page) (lq_sort q) (lq_order q) (lq_search q) (lq_filter q).
Definition with_sort (sort : string) (q : ListQuery) : ListQuery :=
  mkListQuery (lq_page q) (lq_per_page q) (Some sort) (lq_order q) (lq_search q) (lq_filter q).
Definition with_order (order : SortOrder) (q : ListQuery) : ListQuery :=
  mkListQuery (lq_page q) (lq_per_page q) (lq_sort q) (Some order) (lq_search q) (lq_filter q).
Definition with_search (search : string) (q : ListQuery) : ListQuery :=
  mkListQuery (lq_page q) (lq_per_page q) (lq_sort q) (lq_order q) (Some search) (lq_filter q).
Definition with_filter (filter : string) (q : ListQuery) : ListQuery :=
  mkListQuery (lq_page q) (lq_per_page q) (lq_sort q) (lq_order q) (lq_search q) (lq_filter q ++ [filter]).
Definition with_filters (filters : list string) (q : ListQuery) : ListQuery :=
  mkListQuery (lq_page q) (lq_per_page q) (lq_sort q) (lq_order q) (lq_search q) filters.

Definition page_number (q : ListQuery) : Z := Z.max (default 1 (lq_page q)) 1.
Definition items_per_page (q : ListQuery) : Z :=
  Z.min (Z.max (default DEFAULT_PER_PAGE (lq_per_page q)) 1) MAX_PER_PAGE.
Definition query_offset (q : ListQuery) : Z := u64_mul (saturating_sub (page_number q) 1) (items_per_page q).
Definition sort_order (q : ListQuery) : SortOrder := default Asc (lq_order q).

Definition nonempty (o : option string) : bool := match o with Some s => negb (String.eqb s "") | None => false end.
Definition has_search (q : ListQuery) : bool := nonempty (lq_search q).
Definition has_filters (q : ListQuery) : bool := match lq_filter q with [] => false | _ => true end.
Definition has_sort (q : ListQuery) : bool := nonempty (lq_sort q).

(** ** Responses *)

Record ResponseMeta := mkResponseMeta { rm_request_id : option string; rm_processing_time_ms : option Z }.

Definition meta_with_request_id (id : string) (m : ResponseMeta) := mkResponseMeta (Some id) (rm_processing_time_ms m).
Definition meta_with_processing_time (ms : Z) (m : ResponseMeta) := mkResponseMeta (rm_request_id m) (Some ms).
Definition meta_is_empty (m : ResponseMeta) : bool :=
  match rm_request_id m, rm_processing_time_ms m with None, None => true | _, _ => false end.

Record ItemResponse (T : Type) := mkItemResponse { ir_data : T; ir_meta : option ResponseMeta }.
Arguments mkItemResponse {T}.
Arguments ir_data {T}.
Arguments ir_meta {T}.
Definition item_new {T} (data : T) : ItemResponse T := mkItemResponse data None.
Definition item_with_meta {T} (meta : ResponseMeta) (r : ItemResponse T) := mkItemResponse (ir_data r) (Some meta).
Definition item_map {T U} (f : T → U) (r : ItemResponse T) : ItemResponse U := mkItemResponse (f (ir_data r)) (ir_meta r).

Definition calculate_total_pages (total per_page : Z) : Z :=
  let pages := saturating_sub (u64_saturating_add total per_page) 1 / per_page in
  as_unsigned 32 (Z.min pages U32_MAX).

Record PaginationMeta := mkPaginationMeta {
  pm_page : Z;
  pm_per_page : Z;
  pm_total : Z;
  pm_total_pages : Z;
  pm_has_next : bool;
  pm_has_prev : bool;
}.

Definition PaginationMeta_new (page per_page total : Z) : PaginationMeta :=
  let per_page := if per_page =? 0 then 1 else per_page in
  let total_pages := calculate_total_pages total per_page in
  mkPaginationMeta page per_page total total_pages (page <? total_pages) (1 <? page).

Definition PaginationMeta_empty (per_page : Z) : PaginationMeta := PaginationMeta_new 1 per_page 0.
Definition meta_offset (m : PaginationMeta) : Z := u64_mul (saturating_sub (pm_page m) 1) (pm_per_page m).

Record ListResponse (T : Type) := mkListResponse {
  lr_data : list T;
  lr_pagination : PaginationMeta;
  lr_meta : option ResponseMeta;
}.
Arguments mkListResponse {T}.
Arguments lr_data {T}.
Arguments lr_pagination {T}.
Arguments lr_meta {T}.

Definition list_new {T} (data : list T) (pagination : PaginationMeta) : ListResponse T := mkListResponse data pagination None.
Definition list_empty {T} (per_page : Z) : ListResponse T := mkListResponse [] (PaginationMeta_empty per_page) None.
Definition list_with_meta {T} (meta : ResponseMeta) (r : ListResponse T) :=
  mkListResponse (lr_data r) (lr_pagination r) (Some meta).
Definition list_map {T U} (f : T → U) (r : ListResponse T) : ListResponse U :=
  mkListResponse (f <$> lr_data r) (lr_pagination r) (lr_meta r).

(** ** API errors *)

Inductive ApiOperation :=
| Api_List | Api_Get | Api_Create | Api_Update | Api_Delete | Api_SoftDelete | Api_Restore | Api_ListWithDeleted.

Definition api_operation_to_string (op : ApiOperation) : string :=
  match op with
  | Api_List => "list" | Api_Get => "get" | Api_Create => "create" | Api_Update => "update" | Api_Delete => "delete"
  | Api_SoftDelete => "soft_delete" | Api_Restore => "restore" | Api_ListWithDeleted => "list_with_deleted"
  end.

Inductive ApiErrorKind :=
| Api_NotFound | Api_AlreadyExists | Api_ValidationFailed | Api_Unauthorized | Api_Forbidden | Api_BadRequest
| Api_Conflict | Api_InternalError | Api_ServiceUnavailable.

Definition api_kind_to_string (k : ApiErrorKind) : string :=
  match k with
  | Api_NotFound => "not_found" | Api_AlreadyExists => "already_exists" | Api_ValidationFailed => "validation_failed"
  | Api_Unauthorized => "unauthorized" | Api_Forbidden => "forbidden" | Api_BadRequest => "bad_request"
  | Api_Conflict => "conflict" | Api_InternalError => "internal_error"
  | Api_ServiceUnavailable => "service_unavailable"
  end.

Definition status_code (k : ApiErrorKind) : Z :=
  match k with
  | Api_NotFound => 404 | Api_AlreadyExists | Api_Conflict => 409 | Api_ValidationFailed => 422
  | Api_Unauthorized => 401 | Api_Forbidden => 403 | Api_BadRequest => 400 | Api_InternalError => 500
  | Api_ServiceUnavailable => 503
  end.

Definition ascii_upper (c : ascii) : ascii :=
  if ((97 <=? code c) && (code c <=? 122))%N then ascii_of_N (code c - 32) else c.

Definition error_code (k : ApiErrorKind) : string := str_map ascii_upper (api_kind_to_string k).

Record ApiError := mkApiError {
  ae_operation : ApiOperation;
  ae_kind : ApiErrorKind;
  ae_message : string;
  ae_entity_type : option string;
  ae_entity_id : option string;
}.

Definition api_new operation kind message : ApiError := mkApiError operation kind message None None.
Definition api_not_found (entity_type entity_id : string) : ApiError :=
  mkApiError Api_Get Api_NotFound "Entity not found" (Some entity_type) (Some entity_id).
Definition api_already_exists (entity_type identifier : string) : ApiError :=
  mkApiError Api_Create Api_AlreadyExists "Entity already exists" (Some entity_type) (Some identifier).
Definition api_validation_failed message : ApiError := api_new Api_Create Api_ValidationFailed message.
Definition api_bad_request message : ApiError := api_new Api_List Api_BadRequest message.
Definition api_unauthorized message : ApiError := api_new Api_Get Api_Unauthorized message.
Definition api_forbidden message : ApiError := api_new Api_Get Api_Forbidden message.
Definition api_conflict operation message : ApiError := api_new operation Api_Conflict message.
Definition api_internal message : ApiError := api_new Api_Get Api_InternalError message.
Definition api_service_unavailable message : ApiError := api_new Api_Get Api_ServiceUnavailable message.
Definition api_with_entity (entity_type entity_id : string) (e : ApiError) : ApiError :=
  mkApiError (ae_operation e) (ae_kind e) (ae_message e) (Some entity_type) (Some entity_id).
Definition api_with_operation operation (e : ApiError) : ApiError :=
  mkApiError operation (ae_kind e) (ae_message e) (ae_entity_type e) (ae_entity_id e).
Definition api_is_retriable (e : ApiError) : bool :=
  match ae_kind e with Api_ServiceUnavailable => true | _ => false end.

Definition api_error_to_string (e : ApiError) : string :=
  "API " +:+ api_kind_to_string (ae_kind e) +:+ " error during " +:+ api_operation_to_string (ae_operation e) +:+
  ": " +:+ ae_message e +:+ entity_suffix (ae_entity_type e) (ae_entity_id e).

Record ApiErrorResponse := mkApiErrorResponse {
  aer_error : string;
  aer_code : string;
  aer_status : Z;
  aer_operation : option string;
  aer_entity_type : option string;
  aer_entity_id : option string;
}.

(** [IntoResponse]: the status and the JSON body. *)
Definition api_into_response (e : ApiError) : Z * ApiErrorResponse :=
  let status := status_code (ae_kind e) in
  (status, mkApiErrorResponse (ae_message e) (error_code (ae_kind e)) status
             (Some (api_operation_to_string (ae_operation e))) (ae_entity_type e) (ae_entity_id e)).

Definition repository_operation_to_api_operation (op : RepositoryOperation) : ApiOperation :=
  match op with
  | FindById => Api_Get | FindAll => Api_List | Count => Api_List | Exists_ => Api_Get | Create => Api_Create
  | Update => Api_Update | Delete => Api_Delete | SoftDelete => Api_SoftDelete | Restore_ => Api_Restore
  | BatchLoad => Api_List
  end.

Definition repository_kind_to_api_kind (k : RepositoryErrorKind) : ApiErrorKind :=
  match k with
  | Repo_NotFound => Api_NotFound
  | Repo_AlreadyExists => Api_AlreadyExists
  | Repo_ConstraintViolation => Api_Conflict
  | Repo_ValidationFailed => Api_ValidationFailed
  | Repo_ConnectionFailed | Repo_Timeout => Api_ServiceUnavailable
  | Repo_DatabaseError | Repo_SerializationError | Repo_Other => Api_InternalError
  end.

(** [From<RepositoryError> for ApiError]. *)
Definition api_from_repository (err : RepositoryError) : ApiError :=
  let kind := repository_kind_to_api_kind (re_kind err) in
  let message :=
    match kind with
    | Api_ServiceUnavailable => "Service temporarily unavailable"
    | Api_InternalError => "An internal error occurred"
    | _ => re_message err
    end in
  mkApiError (repository_operation_to_api_operation (re_operation err)) kind message
    (re_entity_type err) (re_entity_id err).

(** ** Collection handlers *)

(** The trait, with its handlers' calls reaching the state [W]. *)
Class CollectionHandler (W Id Entity CreateDto UpdateDto : Type) := {
  ch_list : ListQuery → M W ApiError (ListResponse Entity);
  ch_get : Id → M W ApiError (ItemResponse Entity);
  ch_create : CreateDto → M W ApiError (ItemResponse Entity);
  ch_update : Id → UpdateDto → M W ApiError (ItemResponse Entity);
  ch_delete : Id → M W ApiError unit;
}.

(** [repository.call().await?] in a handler. *)
Definition from_repo {W A} (m : M W RepositoryError A) : M W ApiError A := fun w =>
  let '(r, w) := m w in (map_err api_from_repository r, w).

(** A client of these types: the handler over a repository that the module's
    documentation ([handlers/mod.rs]) gives as its example. It is what an
    application writes, not code of the framework. *)
#[global] Instance repository_handler {W Id Entity CreateT UpdateT} `{!Repository W Id Entity CreateT UpdateT}
    (entity_type : string) (id_to_string : Id → string) (filters : list FilterCondition) : CollectionHandler W Id Entity CreateT UpdateT := {
  ch_list query := (
    let order := (fun s => (s, match sort_order query with Asc => Ascending | Desc => Descending end)) <$> lq_sort query in
    let pagination := Some (mkPagination (query_offset query) (items_per_page query)) in
    let! items := from_repo (find_all filters order pagination) in
    let! total := from_repo (repo_count filters) in
    ret (list_new items (PaginationMeta_new (page_number query) (items_per_page query) total)))%monad;
  ch_get id := (
    let! found := from_repo (find_by_id id) in
    let! item := lift (ok_or (api_not_found entity_type (id_to_string id)) found) in
    ret (item_new item))%monad;
  ch_create dto := (let! item := from_repo (repo_create dto) in ret (item_new item))%monad;
  ch_update id dto := (let! item := from_repo (repo_update id dto) in ret (item_new item))%monad;
  ch_delete id := (let! _ := from_repo (repo_delete id) in ret tt)%monad;
}.

(** ** Further responses *)

Record Created := mkCreated { cd_data : json; cd_location : option string }.
Definition created_new (data : json) : Created := mkCreated data None.
Definition created_with_location (location : string) (c : Created) : Created := mkCreated (cd_data c) (Some location).

(** [HeaderValue::from_str]: [None] for text that is no header value. *)
Class HeaderEnv := { header_value_from_str : string → option string }.

(** Status, headers the response adds, body. *)
Definition created_into_response `{HeaderEnv} (c : Created) : Z * list (string * string) * json :=
  (201, match cd_location c ≫= header_value_from_str with Some v => [("location", v)] | None => [] end, cd_data c).

Record FieldError := mkFieldError { fe_field : string; fe_code : string; fe_message : string }.

Record ValidationError := mkValidationError {
  ve_error : string;
  ve_code : string;
  ve_status : Z;
  ve_errors : gmap string (list FieldError);
}.

Definition ValidationError_new (error : string) : ValidationError := mkValidationError error "VALIDATION_ERROR" 422 ∅.

Definition add_field_error (field code message : string) (v : ValidationError) : ValidationError :=
  mkValidationError (ve_error v) (ve_code v) (ve_status v)
    (<[field := default [] (ve_errors v !! field) ++ [mkFieldError field code message]]> (ve_errors v)).

Definition validation_has_errors (v : ValidationError) : bool := negb (bool_decide (ve_errors v = ∅)).
Definition error_count (v : ValidationError) : nat := sum_list (length <$> (map_to_list (ve_errors v)).*2).

Record Conflict := mkConflict { cf_error : string; cf_code : option string; cf_detail : option string; cf_status : Z }.
Definition Conflict_new (error : string) : Conflict := mkConflict error None None 409.
Definition conflict_with_code (code : string) (c : Conflict) := mkConflict (cf_error c) (Some code) (cf_detail c) (cf_status c).
Definition conflict_with_detail (detail : string) (c : Conflict) := mkConflict (cf_error c) (cf_code c) (Some detail) (cf_status c).

Record Accepted := mkAccepted { ac_message : string; ac_status_url : option string; ac_status : Z }.
Definition Accepted_new : Accepted := mkAccepted "Request accepted for processing" None 202.
Definition accepted_with_message (message : string) (a : Accepted) := mkAccepted message (ac_status_url a) (ac_status a).
Definition accepted_with_status_url (url : string) (a : Accepted) := mkAccepted (ac_message a) (Some url) (ac_status a).

(** ** The page arithmetic *)

Definition ceil_div (n k : Z) : Z := (n + k - 1) / k.

(** At machine width the number of pages is the rounded-up quotient, capped at
    what a [u32] holds; neither the saturation nor the cast loses anything more. *)
Lemma total_pages_exact total per_page :
  fits 64 total → 1 ≤ per_page ≤ U32_MAX →
  calculate_total_pages total per_page = Z.min (ceil_div total per_page) U32_MAX.
Proof.
  unfold fits, U32_MAX. intros Ht Hp. unfold calculate_total_pages, saturating_sub, u64_saturating_add, ceil_div.
  assert (Hw : ∀ x, 0 ≤ x → as_unsigned 32 (Z.min x U32_MAX) = Z.min x U32_MAX).
  { intros x Hx. apply as_unsigned_small. unfold fits, U32_MAX. lia. }
  unfold U64_MAX. destruct (Z.leb_spec (total + per_page) (2 ^ 64 - 1)) as [Hle|Hgt].
  - rewrite (Z.min_l (total + per_page)), Z.max_l by lia. apply Hw. apply Z.div_pos; lia.
  - rewrite (Z.min_r (total + per_page)), Z.max_l by lia. rewrite Hw by (apply Z.div_pos; lia).
    assert (2 ^ 32 - 1 ≤ (2 ^ 64 - 1 - 1) / per_page) by (apply Z.div_le_lower_bound; nia).
    assert (2 ^ 32 - 1 ≤ (total + per_page - 1) / per_page) by (apply Z.div_le_lower_bound; nia).
    unfold U32_MAX. lia.
Qed.

(** The values the wire types allow. *)
Definition query_ok (q : ListQuery) : Prop :=
  match lq_page q with Some p => fits 32 p | None => True end ∧
  match lq_per_page q with Some p => fits 32 p | None => True end.

Lemma items_per_page_range q : 1 ≤ items_per_page q ≤ 100.
Proof. unfold items_per_page, MAX_PER_PAGE. lia. Qed.

Lemma page_number_range q : query_ok q → 1 ≤ page_number q < 2 ^ 32.
Proof. unfold query_ok, page_number, fits. destruct (lq_page q); intros [? _]; cbn [default]; cbv [default from_option id] in *; lia. Qed.

(** The offset of a query never overflows. *)
Lemma query_offset_exact q : query_ok q → query_offset q = (page_number q - 1) * items_per_page q.
Proof.
  intros Hq. assert (Hp := page_number_range q Hq). assert (Hi := items_per_page_range q).
  unfold query_offset, u64_mul, saturating_sub. rewrite Z.max_l by lia. apply as_unsigned_small. unfold fits. nia.
Qed.

(** A repository's own page offset does overflow. *)
Lemma repository_page_wraps : pg_offset (pagination_page (2 ^ 63 + 1) 2) = 0.
Proof. reflexivity. Qed.

(** ** Following the pages *)

(** What a repository promises about lists: it knows the rows a filter selects
    in the order asked for, a page is a slice of them, and the count is their
    number; reading, failed or not, changes none. *)
Class RepositoryReads (W Id Entity CreateT UpdateT : Type) `{!Repository W Id Entity CreateT UpdateT} := {
  rows : W → list FilterCondition → option (string * OrderDirection) → list Entity;
  rows_count w f o : fits 64 (Z.of_nat (length (rows w f o)));
  rows_order w f o o' : length (rows w f o) = length (rows w f o');
  find_all_law f o p w r w' : find_all (Id := Id) (CreateT := CreateT) (UpdateT := UpdateT) f o (Some p) w = (r, w') →
    (∀ f' o', rows w' f' o' = rows w f' o') ∧
    (∀ l, r = Ok l → l = take (Z.to_nat (pg_limit p)) (drop (Z.to_nat (pg_offset p)) (rows w f o)));
  count_law f w r w' : repo_count (Id := Id) (Entity := Entity) (CreateT := CreateT) (UpdateT := UpdateT) f w = (r, w') →
    (∀ f' o', rows w' f' o' = rows w f' o') ∧ (∀ n, r = Ok n → n = Z.of_nat (length (rows w f None)));
}.

Inductive Walk (A : Type) := Done (l : list A) | Failed (e : ApiError) | OutOfFuel.
Arguments Done {A}.
Arguments Failed {A}.
Arguments OutOfFuel {A}.

Section Pages.
Context {W Id Entity CreateT UpdateT : Type} `{!Repository W Id Entity CreateT UpdateT}
  `{!RepositoryReads W Id Entity CreateT UpdateT}.
Context (entity_type : string) (id_to_string : Id → string) (filters : list FilterCondition).

Definition listing := ch_list (CollectionHandler := repository_handler entity_type id_to_string filters).

(** A client that asks for the page after this one while [has_next] says so. *)
Fixpoint walk (fuel : nat) (q : ListQuery) (page : Z) (w : W) : Walk Entity * W :=
  match fuel with
  | O => (OutOfFuel, w)
  | S fuel =>
      match listing (with_page page q) w with
      | (Err e, w) => (Failed e, w)
      | (Ok r, w) =>
          if pm_has_next (lr_pagination r) then
            match walk fuel q (page + 1) w with
            | (Done l, w) => (Done (lr_data r ++ l), w)
            | x => x
            end
          else (Done (lr_data r), w)
      end
  end.

Definition query_order (q : ListQuery) : option (string * OrderDirection) :=
  (fun s => (s, match sort_order q with Asc => Ascending | Desc => Descending end)) <$> lq_sort q.

Lemma from_repo_Ok {A} (m : M W RepositoryError A) w a w' : from_repo m w = (Ok a, w') → m w = (Ok a, w').
Proof. unfold from_repo. destruct (m w) as [[]]; cbn; congruence. Qed.

(** One page. *)
Lemma listing_spec q w r w' :
  listing q w = (Ok r, w') →
  (∀ f o, rows w' f o = rows w f o) ∧
  lr_data r = take (Z.to_nat (items_per_page q)) (drop (Z.to_nat (query_offset q)) (rows w filters (query_order q))) ∧
  lr_pagination r =
    PaginationMeta_new (page_number q) (items_per_page q) (Z.of_nat (length (rows w filters (query_order q)))).
Proof.
  intros E. unfold listing in E. cbn in E. fold (query_order q) in E. apply bind_Ok in E as (l & w1 & E1 & E).
  apply bind_Ok in E as (n & w2 & E2 & [= <- <-]). apply from_repo_Ok in E1, E2.
  apply find_all_law in E1 as [H1 Hl]. apply count_law in E2 as [H2 Hn]. cbn.
  split; [intros; by rewrite H2, H1|]. split; [by apply Hl|]. rewrite (Hn n eq_refl), H1.
  by rewrite (rows_order w filters None (query_order q)).
Qed.

Lemma rows_after q w r w' : listing q w = (r, w') → ∀ f o, rows w' f o = rows w f o.
Proof.
  destruct r as [r|e]; [intros E; apply listing_spec in E as [? _]; done|]. intros E. unfold listing in E. cbn in E.
  fold (query_order q) in E. unfold bind, from_repo in E.
  destruct (find_all _ _ _ w) as [[l|e1] w1] eqn:E1; apply find_all_law in E1 as [H1 _]; cbn in E.
  - destruct (repo_count filters w1) as [[n|e2] w2] eqn:E2; apply count_law in E2 as [H2 _]; cbn in E; [done|].
    injection E as _ <-. intros. by rewrite H2.
  - by injection E as _ <-.
Qed.

(** The items from a page on. *)
Definition from_page (q : ListQuery) (page : Z) (l : list Entity) : list Entity :=
  drop (Z.to_nat ((page - 1) * items_per_page q)) l.

Lemma from_page_step q page l : 1 ≤ page →
  from_page q page l = take (Z.to_nat (items_per_page q)) (from_page q page l) ++ from_page q (page + 1) l.
Proof.
  intros Hp. assert (Hi := items_per_page_range q). unfold from_page.
  replace ((page + 1 - 1) * items_per_page q) with ((page - 1) * items_per_page q + items_per_page q) by ring.
  rewrite Z2Nat.inj_add by nia.
  by rewrite <- drop_drop, take_drop.
Qed.

Lemma no_next_last q page l :
  fits 64 (Z.of_nat (length l)) → Z.of_nat (length l) ≤ items_per_page q * U32_MAX → 1 ≤ page →
  (page <? calculate_total_pages (Z.of_nat (length l)) (items_per_page q)) = false → from_page q (page + 1) l = [].
Proof.
  intros Hf Hn Hp Hlt. assert (Hi := items_per_page_range q). apply Z.ltb_ge in Hlt.
  rewrite total_pages_exact in Hlt by (done || (unfold U32_MAX; lia)). unfold from_page. apply drop_ge.
  assert (Hc : ceil_div (Z.of_nat (length l)) (items_per_page q) ≤ U32_MAX).
  { unfold ceil_div. apply Z.lt_succ_r, Z.div_lt_upper_bound; lia. }
  rewrite Z.min_l in Hlt by done. unfold ceil_div in Hlt.
  assert (Z.of_nat (length l) ≤ page * items_per_page q); [|nia].
  assert (D := Z.div_mod (Z.of_nat (length l) + items_per_page q - 1) (items_per_page q) ltac:(lia)).
  assert (B := Z.mod_pos_bound (Z.of_nat (length l) + items_per_page q - 1) (items_per_page q) ltac:(lia)). nia.
Qed.

Lemma with_page_facts q page : 1 ≤ page < 2 ^ 32 →
  items_per_page (with_page page q) = items_per_page q ∧ query_order (with_page page q) = query_order q ∧
  page_number (with_page page q) = page ∧
  query_offset (with_page page q) = (page - 1) * items_per_page q.
Proof.
  intros Hp. assert (E : page_number (with_page page q) = page) by (unfold page_number; cbn; lia).
  split; [done|]. split; [done|]. split; [done|]. assert (Hi := items_per_page_range q).
  unfold query_offset, u64_mul, saturating_sub. rewrite E, Z.max_l by lia.
  change (items_per_page (with_page page q)) with (items_per_page q). apply as_unsigned_small. unfold fits. nia.
Qed.

Lemma walk_from fuel q page w l :
  rows w filters (query_order q) = l → Z.of_nat (length l) ≤ items_per_page q * U32_MAX →
  let pages := calculate_total_pages (Z.of_nat (length l)) (items_per_page q) in
  1 ≤ page → page < 2 ^ 32 → pages < page + Z.of_nat fuel → (0 < fuel)%nat →
  match (walk fuel q page w).1 with
  | Done l' => l' = from_page q page l
  | Failed _ => True
  | OutOfFuel => False
  end.
Proof.
  intros El Hn pages. revert page w El. induction fuel as [|fuel IH]; intros page w El Hp Hm Hf H0; [lia|].
  cbn [walk]. assert (Hc : fits 64 (Z.of_nat (length l))) by (rewrite <- El; apply rows_count).
  assert (Hi := items_per_page_range q).
  assert (Hpg : pages ≤ U32_MAX) by (unfold pages; rewrite total_pages_exact by (done || (unfold U32_MAX; lia)); lia).
  destruct (with_page_facts q page ltac:(lia)) as (Ei & Eo & En & Eq).
  destruct (listing (with_page page q) w) as [[r|e] w1] eqn:E; [|done].
  assert (Hr := rows_after _ _ _ _ E). apply listing_spec in E as (_ & Ed & Em).
  rewrite Eo, El, Ei, Eq in Ed. rewrite Eo, El, Ei, En in Em. rewrite Em. fold (from_page q page l) in Ed.
  unfold PaginationMeta_new. cbn [pm_has_next]. rewrite (proj2 (Z.eqb_neq (items_per_page q) 0)) by lia. fold pages.
  destruct (page <? pages) eqn:Elt.
  - apply Z.ltb_lt in Elt. unfold U32_MAX in Hpg.
    specialize (IH (page + 1) w1 ltac:(by rewrite Hr) ltac:(lia) ltac:(lia) ltac:(lia) ltac:(lia)).
    destruct (walk fuel q (page + 1) w1) as [[l'| |] w2]; cbn in *; [|done|done].
    rewrite Ed, IH. symmetry. by apply from_page_step.
  - cbn. rewrite Ed. rewrite (from_page_step q page l Hp) at 2.
    by rewrite (no_next_last q page l Hc Hn Hp Elt), app_nil_r.
Qed.

End Pages.

(** ** What a failure shows *)

(** A repository failure is reported as retriable exactly when it is, with
    status 503, and the text of a fault on the server's side stays there. *)
Lemma repository_failure_response e e' :
  api_is_retriable (api_from_repository e) = repo_is_retriable e ∧
  (repo_is_retriable e = true ↔ (api_into_response (api_from_repository e)).1 = 503) ∧
  (500 ≤ (api_into_response (api_from_repository e)).1 → re_kind e = re_kind e' → re_operation e = re_operation e' →
   re_entity_type e = re_entity_type e' → re_entity_id e = re_entity_id e' →
   api_into_response (api_from_repository e) = api_into_response (api_from_repository e')).
Proof.
  destruct e as [o k m t i], e' as [o' k' m' t' i']. cbn. split; [by destruct k|]. split; [by destruct k|].
  intros Hs <- <- <- <-. destruct k; cbn in *; done || lia.
Qed.

Lemma count_insert (m : gmap string (list FieldError)) i l :
  m !! i = None →
  sum_list (length <$> (map_to_list (<[i := l]> m)).*2) = (length l + sum_list (length <$> (map_to_list m).*2))%nat.
Proof.
  intros Hi. rewrite <- !length_join, <- length_app.
  change (l ++ mjoin (map_to_list m).*2) with (mjoin ((i, l) :: map_to_list m).*2).
  apply Permutation_length. by rewrite (map_to_list_insert m i l Hi).
Qed.

(** Each field error added is counted once. *)
Lemma error_count_add field code_ message v :
  error_count (add_field_error field code_ message v) = S (error_count v).
Proof.
  unfold error_count, add_field_error. cbn [ve_errors].
  destruct (ve_errors v !! field) as [l|] eqn:E; cbn [default from_option id].
  - rewrite <- (insert_delete_id (ve_errors v) field l E) at 2.
    rewrite <- (insert_delete_eq (ve_errors v) field (l ++ _)).
    rewrite !count_insert by apply lookup_delete_eq. rewrite length_app. cbn. lia.
  - by rewrite count_insert.
Qed.

(** ** A repository in memory *)

(** Rows are numbers, at most 1000 of them; listing fails while the flag is set. *)
Definition mem_rows (w : list Z * bool) : list Z := take 1000 w.1.

#[local] Instance mem_repository : Repository (list Z * bool) Z Z Z Z := {
  find_by_id id := fun w => (Ok (if decide (id ∈ mem_rows w) then Some id else None), w);
  find_all _ _ p := fun w =>
    (if w.2 then Err (repo_connection_failed "down")
     else Ok match p with
             | Some p => take (Z.to_nat (pg_limit p)) (drop (Z.to_nat (pg_offset p)) (mem_rows w))
             | None => mem_rows w
             end, w);
  repo_count _ := fun w => (Ok (Z.of_nat (length (mem_rows w))), w);
  repo_exists id := fun w => (Ok (bool_decide (id ∈ mem_rows w)), w);
  repo_create n := fun w => (Ok n, (w.1 ++ [n], w.2));
  repo_update id _ := fun w => (Ok id, w);
  repo_delete id := fun w => (Ok (bool_decide (id ∈ mem_rows w)), (filter (.≠ id) w.1, w.2));
}.

#[local] Instance mem_repository_reads : RepositoryReads (list Z * bool) Z Z Z Z.
Proof.
  refine {| rows w _ _ := mem_rows w |}.
  - intros w _ _. unfold fits, mem_rows. rewrite length_take. lia.
  - done.
  - cbn. intros f o p w r w' [= <- <-]. split; [done|]. destruct (w.2); naive_solver.
  - cbn. intros f w r w' [= <- <-]. naive_solver.
Defined.

