(* ===== verification/Versioning.v ===== *)
(** * API versions

    [src/acton-service/src/versioning.rs]: versions and their texts, deprecation
    headers, the builder of versioned routes and the version read back from a
    request path. A router is a parameter: the builder's result is the list of
    what it registers, in order ([router.nest(path, routes)] with the layer
    around the routes). *)

From S2P Require Import Prelude Text FrameworkError AuditEvent Cedar Handlers.

Local Open Scope string_scope.
Local Open Scope Z_scope.
Local Open Scope list_scope.

(** ** Text *)

(** [str::trim_start_matches(c)] and [str::trim_end_matches(c)]. *)
Fixpoint trim_start_matches (c : ascii) (s : string) : string :=
  match s with
  | EmptyString => EmptyString
  | String a t => if Ascii.eqb a c then trim_start_matches c t else s
  end.

Fixpoint trim_end_matches (c : ascii) (s : string) : string :=
  match s with
  | EmptyString => EmptyString
  | String a t =>
      match trim_end_matches c t with
      | EmptyString => if Ascii.eqb a c then EmptyString else String a EmptyString
      | t => String a t
      end
  end.

(** ** Versions *)

Inductive ApiVersion := V1 | V2 | V3 | V4 | V5.

#[global] Instance ApiVersion_eq_dec : EqDecision ApiVersion.
Proof. solve_decision. Defined.

(** [to_lowercase] maps no other character to a digit or to [v]. *)
Definition version_parse (s : string) : option ApiVersion :=
  match_str [("1", V1); ("2", V2); ("3", V3); ("4", V4); ("5", V5)]
    (trim_start_matches "v" (str_map ascii_lower s)).

Definition as_number (v : ApiVersion) : Z :=
  match v with V1 => 1 | V2 => 2 | V3 => 3 | V4 => 4 | V5 => 5 end.

Definition as_path_segment (v : ApiVersion) : string :=
  match v with V1 => "v1" | V2 => "v2" | V3 => "v3" | V4 => "v4" | V5 => "v5" end.

(** The derived order is that of the variants. *)
Definition version_is_deprecated (v latest : ApiVersion) : bool := as_number v <? as_number latest.

Definition starts_with_v (segment : string) : bool := starts_with segment "v" || starts_with segment "V".

Definition extract_version_from_path (path : string) : option ApiVersion :=
  find_segment ← List.find starts_with_v (split "/" path); version_parse find_segment.

(** ** Deprecation *)

Record DeprecationInfo := mkDeprecationInfo {
  di_version : ApiVersion;
  di_replacement : ApiVersion;
  di_sunset_date : option string;
  di_message : option string;
}.

Definition DeprecationInfo_new (version replacement : ApiVersion) : DeprecationInfo :=
  mkDeprecationInfo version replacement None None.
Definition with_sunset_date (date : string) (i : DeprecationInfo) : DeprecationInfo :=
  mkDeprecationInfo (di_version i) (di_replacement i) (Some date) (di_message i).
Definition with_message (message : string) (i : DeprecationInfo) : DeprecationInfo :=
  mkDeprecationInfo (di_version i) (di_replacement i) (di_sunset_date i) (Some message).

Definition deprecation_header (i : DeprecationInfo) : string :=
  "version=" +:+ QUOTE +:+ as_path_segment (di_version i) +:+ QUOTE.
Definition sunset_header (i : DeprecationInfo) : option string := di_sunset_date i.
Definition link_header (i : DeprecationInfo) : string :=
  "</" +:+ as_path_segment (di_replacement i) +:+ "/>; rel=" +:+ QUOTE +:+ "successor-version" +:+ QUOTE.
Definition warning_header (i : DeprecationInfo) (message : string) : string :=
  "299 - " +:+ QUOTE +:+ "API version " +:+ as_path_segment (di_version i) +:+ " is deprecated. Please migrate to version "
  +:+ as_path_segment (di_replacement i) +:+ ". " +:+ message +:+ QUOTE.

Section Headers.
Context `{HeaderEnv}.

Definition insert_header (name : string) (text : option string) (headers : gmap string string) : gmap string string :=
  match text ≫= header_value_from_str with Some v => <[name := v]> headers | None => headers end.

(** What the deprecation layer does to the headers of the response. *)
Definition deprecation_layer (i : DeprecationInfo) (headers : gmap string string) : gmap string string :=
  insert_header "warning" (warning_header i <$> di_message i)
    (insert_header "link" (Some (link_header i))
       (insert_header "sunset" (sunset_header i)
          (insert_header "deprecation" (Some (deprecation_header i)) headers))).

(** [VersionedRouter]. *)
Record VersionedRouter (R : Type) := mkVersionedRouter {
  vr_version : ApiVersion;
  vr_router : R;
  vr_deprecation : option DeprecationInfo;
}.
Arguments mkVersionedRouter {R}.
Arguments vr_version {R}.
Arguments vr_router {R}.
Arguments vr_deprecation {R}.

Definition versioned_router {R} (version : ApiVersion) (router : R) : VersionedRouter R := mkVersionedRouter version router None.
Definition deprecated {R} (info : DeprecationInfo) (r : VersionedRouter R) : VersionedRouter R :=
  mkVersionedRouter (vr_version r) (vr_router r) (Some info).
Definition router_is_deprecated {R} (r : VersionedRouter R) : bool :=
  match vr_deprecation r with Some _ => true | None => false end.

(** [into_router]: what its layer does to a response, and the attributes of
    the request counter. *)
Definition into_router_headers {R} (r : VersionedRouter R) (headers : gmap string string) : gmap string string :=
  match vr_deprecation r with Some i => deprecation_layer i headers | None => headers end.

Definition request_counter {R} (r : VersionedRouter R) : list (string * string) :=
  [("version", as_path_segment (vr_version r)); ("deprecated", if router_is_deprecated r then "true" else "false")] ++
  match vr_deprecation r with Some i => [("replacement_version", as_path_segment (di_replacement i))] | None => [] end.
End Headers.

(** ** The builder *)

Record VersionedApiBuilder (R F : Type) := mkVersionedApiBuilder {
  vb_versions : list (ApiVersion * R * option DeprecationInfo);
  vb_base_path : option string;
  vb_frontend_routes : option R;
  vb_fallback : option F;
}.
Arguments mkVersionedApiBuilder {R F}.
Arguments vb_versions {R F}.
Arguments vb_base_path {R F}.
Arguments vb_frontend_routes {R F}.
Arguments vb_fallback {R F}.

(** What [build_routes] registers: the health routes, the frontend routes, one
    nested router per version with its deprecation layer, the fallback. *)
Record RouteTable (R F : Type) := mkRouteTable {
  rt_fixed : list string;
  rt_frontend : option R;
  rt_mounts : list (string * R * option DeprecationInfo);
  rt_fallback : option F;
}.
Arguments mkRouteTable {R F}.
Arguments rt_fixed {R F}.
Arguments rt_frontend {R F}.
Arguments rt_mounts {R F}.
Arguments rt_fallback {R F}.

Definition normalize_base_path (path : string) : string :=
  if negb (starts_with path "/") then "/" +:+ trim_end_matches "/" path else trim_end_matches "/" path.

Section Builder.
Context {R F : Type}.

Definition builder_new : VersionedApiBuilder R F := mkVersionedApiBuilder [] None None None.
Definition with_base_path (path : string) (b : VersionedApiBuilder R F) : VersionedApiBuilder R F :=
  mkVersionedApiBuilder (vb_versions b) (Some (normalize_base_path path)) (vb_frontend_routes b) (vb_fallback b).
Definition add_version (version : ApiVersion) (router : R) (b : VersionedApiBuilder R F) : VersionedApiBuilder R F :=
  mkVersionedApiBuilder (vb_versions b ++ [(version, router, None)]) (vb_base_path b) (vb_frontend_routes b) (vb_fallback b).
Definition add_version_deprecated (version : ApiVersion) (router : R) (deprecation : DeprecationInfo)
    (b : VersionedApiBuilder R F) : VersionedApiBuilder R F :=
  mkVersionedApiBuilder (vb_versions b ++ [(version, router, Some deprecation)]) (vb_base_path b)
    (vb_frontend_routes b) (vb_fallback b).

(** The first entry of the version gets the deprecation. *)
Fixpoint deprecate_first (version : ApiVersion) (deprecation : DeprecationInfo)
    (l : list (ApiVersion * R * option DeprecationInfo)) : option (list (ApiVersion * R * option DeprecationInfo)) :=
  match l with
  | [] => None
  | (v, r, d) :: l =>
      if decide (v = version) then Some ((v, r, Some deprecation) :: l)
      else cons (v, r, d) <$> deprecate_first version deprecation l
  end.

(** [None]: the [expect] panics. *)
Definition deprecate_version (version : ApiVersion) (deprecation : DeprecationInfo) (b : VersionedApiBuilder R F)
    : option (VersionedApiBuilder R F) :=
  versions ← deprecate_first version deprecation (vb_versions b);
  Some (mkVersionedApiBuilder versions (vb_base_path b) (vb_frontend_routes b) (vb_fallback b)).

Definition with_frontend_routes (router : R) (b : VersionedApiBuilder R F) : VersionedApiBuilder R F :=
  mkVersionedApiBuilder (vb_versions b) (vb_base_path b) (Some router) (vb_fallback b).
Definition with_fallback (fallback : F) (b : VersionedApiBuilder R F) : VersionedApiBuilder R F :=
  mkVersionedApiBuilder (vb_versions b) (vb_base_path b) (vb_frontend_routes b) (Some fallback).

Definition version_count (b : VersionedApiBuilder R F) : nat := length (vb_versions b).
Definition has_version (b : VersionedApiBuilder R F) (version : ApiVersion) : bool :=
  existsb (fun '(v, _, _) => bool_decide (v = version)) (vb_versions b).

Definition mount_path (b : VersionedApiBuilder R F) (version : ApiVersion) : string :=
  let version_path := "/" +:+ as_path_segment version in
  match vb_base_path b with Some base => base +:+ version_path | None => version_path end.

Definition build_routes (b : VersionedApiBuilder R F) : RouteTable R F :=
  mkRouteTable ["/health"; "/ready"] (vb_frontend_routes b)
    ((fun '(version, router, deprecation) => (mount_path b version, router, deprecation)) <$> vb_versions b)
    (vb_fallback b).
End Builder.

(** ** Versions and their texts *)

Lemma version_parse_segment v : version_parse (as_path_segment v) = Some v.
Proof. by destruct v. Qed.

(** The order of the versions is the one of their numbers, and no version is
    deprecated by an older one. *)
Lemma version_is_deprecated_spec v latest : version_is_deprecated v latest = true ↔ as_number v < as_number latest.
Proof. apply Z.ltb_lt. Qed.

Lemma trim_end_matches_no_suffix c s t : trim_end_matches c s ≠ t +:+ String c "".
Proof.
  revert t. induction s as [|a s IH]; intros t; cbn [trim_end_matches]; [by destruct t|].
  destruct (trim_end_matches c s) as [|b u] eqn:E.
  - destruct (Ascii.eqb_spec a c) as [->|Ha]; [by destruct t|]. destruct t as [|x t]; [by intros [= ]|].
    change (String x t +:+ String c "") with (String x (t +:+ String c "")). intros [= _ Et]. by destruct t.
  - destruct t as [|x t]; [by intros [=]|]. change (String x t +:+ String c "") with (String x (t +:+ String c "")).
    intros [= _ Et]. by apply (IH t).
Qed.

Lemma trim_end_matches_cons c a s :
  a ≠ c → trim_end_matches c (String a s) = String a (trim_end_matches c s).
Proof.
  intros Ha. cbn. destruct (trim_end_matches c s); [|done]. by rewrite (proj2 (Ascii.eqb_neq a c)).
Qed.

(** A base path that names something starts with a slash and ends without. *)
Lemma normalize_base_path_ok path :
  (∃ c, c ≠ "/"%char ∧ has_char c path = true) →
  starts_with (normalize_base_path path) "/" = true ∧ ∀ t, normalize_base_path path ≠ t +:+ "/".
Proof.
  intros (c & Hc & Hp). unfold normalize_base_path. destruct (starts_with path "/") eqn:Es; cbn [negb].
  - split; [|intros t; apply trim_end_matches_no_suffix]. destruct path as [|a path]; [done|].
    assert (a = "/"%char) as ->.
    { unfold starts_with in Es. destruct (strip_prefix "/" _) eqn:E; [|done]. apply strip_prefix_Some in E.
      by injection E. }
    rewrite has_char_cons, (proj2 (Ascii.eqb_neq _ _)) in Hp by congruence. cbn in Hp.
    cbn [trim_end_matches]. destruct (trim_end_matches "/" path) eqn:Et; [|done].
    exfalso. clear Es. revert Hp Et. induction path as [|b path IH]; [done|]. rewrite has_char_cons. cbn [trim_end_matches].
    destruct (trim_end_matches "/" path) eqn:Et; [|done]. destruct (Ascii.eqb_spec b "/") as [->|]; [|done].
    rewrite (proj2 (Ascii.eqb_neq _ _)) by congruence. cbn. intros Hp _. by apply IH.
  - split; [done|]. intros t. destruct t as [|x t].
    + destruct path as [|a path]; [done|]. rewrite trim_end_matches_cons; [intros [=]|].
      intros ->. unfold starts_with in Es. cbn in Es. done.
    + change (String x t +:+ "/") with (String x (t +:+ "/")). intros [= _ E]. by apply (trim_end_matches_no_suffix "/" path t).
Qed.

(** Texts without a name are not normalized: an empty base path gives [//v1]. *)
Lemma empty_base_path_doubles_slash :
  mount_path (F := unit) (with_base_path "" (builder_new (R := unit))) V1 = "//v1" ∧ normalize_base_path "/" = "".
Proof. done. Qed.

(** ** The version of a request *)

Lemma split_app_sep c s t : split c (s +:+ String c t) = split c s ++ split c t.
Proof.
  induction s as [|a s IH].
  - change ("" +:+ String c t) with (String c t). cbn. by rewrite Ascii.eqb_refl.
  - change (String a s +:+ String c t) with (String a (s +:+ String c t)). cbn [split]. rewrite IH.
    destruct (Ascii.eqb a c); [done|]. by destruct (split_cons c s) as (w & ws & ->).
Qed.

Lemma find_skip {A} (f : A → bool) l k : Forall (fun x => f x = false) l → List.find f (l ++ k) = List.find f k.
Proof. induction 1 as [|x l Hx _ IH]; [done|]. cbn. by rewrite Hx. Qed.

(** What may follow the path a router is mounted at. *)
Definition path_tail (tail : string) : Prop := tail = "" ∨ ∃ t, tail = String "/" t.

Lemma split_segment v tail : path_tail tail → ∃ ws, split "/" (as_path_segment v +:+ tail) = as_path_segment v :: ws.
Proof.
  intros [->|[t ->]].
  - by destruct v; exists [].
  - rewrite split_app_sep. by destruct v; eexists.
Qed.

Lemma extract_segment v tail segments :
  Forall (fun s => starts_with_v s = false) segments → path_tail tail →
  List.find starts_with_v (segments ++ split "/" (as_path_segment v +:+ tail)) = Some (as_path_segment v).
Proof.
  intros Hs Ht. rewrite find_skip by done. destruct (split_segment v tail Ht) as [ws ->]. by destruct v.
Qed.

(** the version a handler reads from the request path is the version whose
    router serves it: the builder mounts every added router, in order and with
    its deprecation, at a path from which, with anything after it,
    [extract_version_from_path] gives back the version it was added for, as long
    as no segment of the base path starts with a v. *)
Theorem mounted_version_extracted {R F} (b : VersionedApiBuilder R F) i p r d :
  Forall (fun s => starts_with_v s = false) (split "/" (default "" (vb_base_path b))) →
  rt_mounts (build_routes b) !! i = Some (p, r, d) →
  ∃ v, vb_versions b !! i = Some (v, r, d) ∧
    ∀ tail, path_tail tail → extract_version_from_path (p +:+ tail) = Some v.
Proof.
  intros Hb. cbn. rewrite list_lookup_fmap_Some. intros ([[v r'] d'] & [= -> -> ->] & Hi). exists v.
  split; [done|]. intros tail Ht. unfold extract_version_from_path.
  assert (E : split "/" (mount_path b v +:+ tail) =
              split "/" (default "" (vb_base_path b)) ++ split "/" (as_path_segment v +:+ tail)).
  { rewrite <- split_app_sep. f_equal. unfold mount_path. destruct (vb_base_path b) as [base|]; cbn [default from_option id].
    - by rewrite string_app_assoc.
    - done. }
  rewrite E, extract_segment by done. cbn. apply version_parse_segment.
Qed.

Lemma mounted_version_extracted_witness :
  let b := add_version_deprecated V2 tt (DeprecationInfo_new V2 V3)
             (add_version V1 tt (with_base_path "api/" (builder_new (F := unit)))) in
  ∃ v, vb_versions b !! 1%nat = Some (v, tt, Some (DeprecationInfo_new V2 V3)) ∧
    ∀ tail, path_tail tail → extract_version_from_path ("/api/v2" +:+ tail) = Some v.
Proof.
  cbv zeta. eapply (mounted_version_extracted _ 1%nat "/api/v2").
  - repeat constructor.
  - reflexivity.
Defined.

(** A segment that merely starts with a v hides the version. *)
Lemma earlier_v_hides_version :
  extract_version_from_path "/vendors/v1/users" = None ∧
  extract_version_from_path "/api/v2/users" = Some V2.
Proof. done. Qed.

(** ** Deprecated versions announce it *)

(** Printable ASCII is accepted as a header value. *)
Class HeaderLaws `{HeaderEnv} := {
  printable_accepted s : str_forallb (fun c => (32 <=? code c)%N && (code c <? 127)%N) s = true →
    header_value_from_str s = Some s;
}.

Lemma deprecated_announced `{HeaderLaws} i headers :
  deprecation_layer i headers !! "deprecation" = Some (deprecation_header i) ∧
  deprecation_layer i headers !! "link" = Some (link_header i).
Proof.
  assert (Ed : header_value_from_str (deprecation_header i) = Some (deprecation_header i)).
  { apply printable_accepted. by destruct i as [[] ? ? ?]. }
  assert (El : header_value_from_str (link_header i) = Some (link_header i)).
  { apply printable_accepted. by destruct i as [? [] ? ?]. }
  unfold deprecation_layer, insert_header. cbn [mbind option_bind]. rewrite Ed, El.
  split; repeat case_match; by simplify_map_eq.
Qed.
