(* ===== verification/OAuth.v ===== *)
(** * OAuth: states and providers

    [src/acton-service/src/auth/oauth/]: the state manager over Redis
    ([state.rs]) and the three providers ([providers/]). The HTTP client, the
    [oauth2] client and the JSON text of the state data are parameters; random
    states are drawn from [oauth_random]. *)

From stdpp Require Import pretty.
From S2P Require Import Prelude Text FrameworkError AuditEvent RedisKv Backend Sessions Versioning.

Local Open Scope string_scope.
Local Open Scope Z_scope.
Local Open Scope list_scope.
Local Open Scope monad_scope.

(** ** States *)

Record StateData := mkStateData {
  sd_provider : string;
  sd_redirect_uri : option string;
  sd_created_at : Z;
  sd_extra : option json;
}.

(** [generate_state] (32 random bytes in URL-safe base64) at the [i]-th draw,
    and [serde_json] on the state data. *)
Class OAuthEnv := {
  oauth_random : nat → string;
  state_to_json : StateData → string;
  state_from_json : string → result StateData string;
}.

(** State data is read back as it was written; [state_data_ok] leaves out data
    whose JSON does not determine it (floats in [extra]). *)
Class OAuthLaws `{OAuthEnv} := {
  state_data_ok : StateData → Prop;
  state_json_roundtrip d : state_data_ok d → state_from_json (state_to_json d) = Ok d;
}.

Record RedisOAuthStateManager := mkRedisOAuthStateManager { os_key_prefix : string; os_ttl_secs : Z }.

Definition state_manager_new (ttl_secs : Z) : RedisOAuthStateManager := mkRedisOAuthStateManager "oauth:state:" ttl_secs.
Definition state_manager_with_prefix (ttl_secs : Z) (prefix : string) : RedisOAuthStateManager :=
  mkRedisOAuthStateManager prefix ttl_secs.

Definition state_key (self : RedisOAuthStateManager) (state : string) : string := os_key_prefix self +:+ state.

Section States.
Context `{OAuthEnv} `{ClockEnv} {R : Type} `{!RedisKv R}.

Abbreviation G := (M (BkWorld R) Error).

(** The generator is seeded afresh: each reading of the world draws anew. *)
Definition generate_state : G string := fun w =>
  (Ok (oauth_random (bk_tick w)), mkBkWorld (bk_store w) (S (bk_tick w))).

Definition create_state (self : RedisOAuthStateManager) (data : StateData) : G string :=
  let! state := generate_state in
  let key := state_key self state in
  let data_json := state_to_json data in
  bk_connection ;;
  bk_cmd "Failed to store OAuth state: " (KSetEx key data_json (os_ttl_secs self)) ;;
  ret state.

Definition validate_state (self : RedisOAuthStateManager) (state : string) : G StateData :=
  let key := state_key self state in
  bk_connection ;;
  let! reply := bk_cmd "Failed to retrieve OAuth state: " (KGetDel key) in
  match reply with
  | RStr (Some json) =>
      lift (map_err (fun e => Error_Internal ("Failed to deserialize state data: " +:+ e)) (state_from_json json))
  | _ => fail (Error_BadRequest "Invalid or expired OAuth state")
  end.
End States.

(** ** Providers *)

(** [serde_json::Value] by key and as a type: a missing key is [null]. *)
Definition json_index (v : json) (k : string) : json :=
  match v with JObject entries => default JNull (obj_get k entries) | _ => JNull end.
Definition as_str (v : json) : option string := match v with JString s => Some s | _ => None end.
Definition as_bool (v : json) : option bool := match v with JBool b => Some b | _ => None end.
Definition as_i64 (v : json) : option Z := i64_from_value v.
Definition is_null (v : json) : bool := match v with JNull => true | _ => false end.

Definition or_else {A} (o o' : option A) : option A := match o with Some _ => o | None => o' end.

Record OAuthTokens := mkOAuthTokens {
  ot_access_token : string;
  ot_refresh_token : option string;
  ot_expires_in : option Z;
  ot_token_type : string;
  ot_id_token : option string;
}.

Record OAuthUserInfo := mkOAuthUserInfo {
  ui_provider : string;
  ui_provider_user_id : string;
  ui_email : option string;
  ui_email_verified : bool;
  ui_name : option string;
  ui_picture : option string;
  ui_raw : json;
}.

(** A response: its status, whether it is a success, its text, its JSON. *)
Record HttpResponse := mkHttpResponse {
  hp_status : string;
  hp_success : bool;
  hp_text : string;
  hp_json : result json string;
}.

(** [oauth2]'s token response. *)
Record TokenResponse := mkTokenResponse { tk_access : string; tk_refresh : option string; tk_expires_in : option Z }.

Class OAuthHttp := {
  (** [get(url).bearer_auth(token).send()]. *)
  http_get : string → string → result HttpResponse string;
  (** [get(url).send()]. *)
  http_get_public : string → result HttpResponse string;
  exchange_code_request : string → result TokenResponse string;
  exchange_refresh_request : string → result TokenResponse string;
  (** The URL of the authorization request with its state and scopes. *)
  authorize_url : string → list string → string;
}.

Section Providers.
Context `{OAuthHttp}.

Definition default_scopes_or (defaults configured : list string) : list string :=
  match configured with [] => defaults | _ => configured end.

Definition google_default_scopes := default_scopes_or ["openid"; "email"; "profile"].
Definition github_default_scopes := default_scopes_or ["read:user"; "user:email"].
Definition custom_default_scopes := default_scopes_or ["openid"; "email"; "profile"].

(** The scopes asked for, in order. *)
Definition all_scopes (default_scopes additional_scopes : list string) : list string :=
  default_scopes ++ filter (.∉ default_scopes) additional_scopes.

Definition authorization_url (default_scopes : list string) (state : string) (additional_scopes : list string) : string :=
  authorize_url state (all_scopes default_scopes additional_scopes).

Definition tokens_of (t : TokenResponse) : OAuthTokens :=
  mkOAuthTokens (tk_access t) (tk_refresh t) (as_signed 64 <$> tk_expires_in t) "Bearer" None.

(** [provider]: [Google ], [GitHub ] or nothing, as it starts the text. *)
Definition exchange_code (what code : string) : result OAuthTokens Error :=
  (let? token_result := map_err (fun e => Error_External (what +:+ e)) (exchange_code_request code) in
   Ok (tokens_of token_result))%rust.

Definition google_refresh_token (refresh_token : string) : result OAuthTokens Error :=
  (let? token_result := map_err (fun e => Error_External ("Google token refresh failed: " +:+ e))
                          (exchange_refresh_request refresh_token) in
   Ok (tokens_of token_result))%rust.

Definition github_refresh_token (_ : string) : result OAuthTokens Error :=
  Err (Error_NotSupported "GitHub OAuth does not support refresh tokens").

Definition custom_refresh_token (refresh_token : string) : result OAuthTokens Error :=
  (let? token_result := map_err (fun e => Error_External ("Token refresh failed: " +:+ e))
                          (exchange_refresh_request refresh_token) in
   Ok (tokens_of token_result))%rust.

(** The user info document, with the texts of the provider's errors. *)
Definition fetch_user_info (fetch_failed request_failed parse_failed url access_token : string) : result json Error :=
  (let? response := map_err (fun e => Error_External (fetch_failed +:+ e)) (http_get url access_token) in
   if negb (hp_success response) then
     Err (Error_External (request_failed +:+ hp_status response +:+ " - " +:+ hp_text response))
   else map_err (fun e => Error_External (parse_failed +:+ e)) (hp_json response))%rust.

Definition google_get_user_info (access_token : string) : result OAuthUserInfo Error :=
  (let? user_info := fetch_user_info "Failed to fetch Google user info: " "Google user info request failed: "
                       "Failed to parse Google user info: " "https://www.googleapis.com/oauth2/v3/userinfo" access_token in
   let? sub := ok_or (Error_External "Missing sub in Google response") (as_str (json_index user_info "sub")) in
   Ok (mkOAuthUserInfo "google" sub (as_str (json_index user_info "email"))
         (default false (as_bool (json_index user_info "email_verified"))) (as_str (json_index user_info "name"))
         (as_str (json_index user_info "picture")) user_info))%rust.

Definition flag (v : json) (k : string) : bool := default false (as_bool (json_index v k)).

(** The first of the addresses that [pick] admits and that is a string. *)
Fixpoint first_email (pick : json → bool) (emails : list json) : option string :=
  match emails with
  | [] => None
  | e :: emails =>
      if pick e then match as_str (json_index e "email") with Some addr => Some addr | None => first_email pick emails end
      else first_email pick emails
  end.

Definition primary_email (emails : list json) : result string Error :=
  match first_email (fun e => flag e "primary" && flag e "verified") emails with
  | Some addr => Ok addr
  | None =>
      match first_email (fun e => flag e "verified") emails with
      | Some addr => Ok addr
      | None => Err (Error_External "No verified email found")
      end
  end.

Definition get_primary_email (access_token : string) : result string Error :=
  (let? response := map_err (fun e => Error_External ("Failed to fetch GitHub emails: " +:+ e))
                      (http_get "https://api.github.com/user/emails" access_token) in
   if negb (hp_success response) then Err (Error_External "Failed to fetch GitHub emails")
   else
     let? emails := map_err (fun e => Error_External ("Failed to parse GitHub emails: " +:+ e)) (hp_json response) in
     let? emails := match emails with
                    | JArray l => Ok l
                    | _ => Err (Error_External "Failed to parse GitHub emails: expected a sequence")
                    end in
     primary_email emails)%rust.

Definition github_get_user_info (access_token : string) : result OAuthUserInfo Error :=
  (let? user_info := fetch_user_info "Failed to fetch GitHub user info: " "GitHub user info request failed: "
                       "Failed to parse GitHub user info: " "https://api.github.com/user" access_token in
   let email := if is_null (json_index user_info "email")
                then match get_primary_email access_token with Ok e => Some e | Err _ => None end
                else as_str (json_index user_info "email") in
   let? id := ok_or (Error_External "Missing id in GitHub response") (as_i64 (json_index user_info "id")) in
   Ok (mkOAuthUserInfo "github" (pretty id) email true
         (or_else (as_str (json_index user_info "name")) (as_str (json_index user_info "login")))
         (as_str (json_index user_info "avatar_url")) user_info))%rust.

Definition custom_get_user_info (name : string) (userinfo_endpoint : option string) (access_token : string)
    : result OAuthUserInfo Error :=
  (let? endpoint := ok_or (Error_Internal "No userinfo endpoint configured for this provider") userinfo_endpoint in
   let? user_info := fetch_user_info "Failed to fetch user info: " "User info request failed: "
                       "Failed to parse user info: " endpoint access_token in
   let? sub := ok_or (Error_External "Missing sub claim in response") (as_str (json_index user_info "sub")) in
   Ok (mkOAuthUserInfo name sub (as_str (json_index user_info "email"))
         (default false (as_bool (json_index user_info "email_verified")))
         (or_else (as_str (json_index user_info "name")) (as_str (json_index user_info "preferred_username")))
         (as_str (json_index user_info "picture")) user_info))%rust.

(** The endpoints [CustomOidcProvider::from_discovery] takes from the issuer's
    document: authorization, token and user info. *)
Definition discovery_url (issuer_url : string) : string :=
  trim_end_matches "/" issuer_url +:+ "/.well-known/openid-configuration".

Definition discover (issuer_url : string) : result (string * string * option string) Error :=
  (let? response := map_err (fun e => Error_External ("Failed to fetch OIDC discovery: " +:+ e))
                      (http_get_public (discovery_url issuer_url)) in
   if negb (hp_success response) then Err (Error_External ("OIDC discovery failed: " +:+ hp_status response))
   else
     let? discovery := map_err (fun e => Error_External ("Failed to parse OIDC discovery: " +:+ e)) (hp_json response) in
     let? auth_url := ok_or (Error_External "Missing authorization_endpoint")
                        (as_str (json_index discovery "authorization_endpoint")) in
     let? token_url := ok_or (Error_External "Missing token_endpoint")
                         (as_str (json_index discovery "token_endpoint")) in
     Ok (auth_url, token_url, as_str (json_index discovery "userinfo_endpoint")))%rust.
End Providers.

(** ** A state is redeemed once *)

Section SingleUse.
Context `{OAuthEnv} `{ClockEnv} {R : Type} `{!RedisKv R} `{!RedisKvLaws R} `{!ClockLaws} `{!OAuthLaws}.
Context (self : RedisOAuthStateManager).

Inductive OAuthOp := OCreate (d : StateData) | OValidate (state : string).

(** What happened and when (the server's milliseconds): a state drawn for some
    data, whether or not the caller learned of it, and the outcome of a
    validation. *)
Inductive OAuthEvent := ECreate (d : StateData) (state : string) (t : Z) | EValidate (state : string) (out : option StateData) (t : Z).

Definition time_at (i : nat) : Z := millis (bk_clock i).

Definition oauth_exec (op : OAuthOp) (w : BkWorld R) : OAuthEvent * BkWorld R :=
  match op with
  | OCreate d =>
      let '(_, w') := create_state self d w in
      (ECreate d (oauth_random (bk_tick w)) (time_at (S (S (bk_tick w)))), w')
  | OValidate s =>
      let '(r, w') := validate_state self s w in
      (EValidate s (match r with Ok d => Some d | Err _ => None end) (time_at (S (bk_tick w))), w')
  end.

Fixpoint oauth_run (ops : list OAuthOp) (w : BkWorld R) : list OAuthEvent * BkWorld R :=
  match ops with
  | [] => ([], w)
  | op :: ops =>
      let '(e, w1) := oauth_exec op w in
      let '(es, w2) := oauth_run ops w1 in (e :: es, w2)
  end.

Definition op_ok (op : OAuthOp) : Prop := match op with OCreate d => state_data_ok d | OValidate _ => True end.

Definition redeems (s : string) (e : OAuthEvent) : Prop := ∃ d t, e = EValidate s (Some d) t.

(** The last thing that happened to the state [s]: it was drawn for [d] at [t],
    and not redeemed since. *)
Definition outstanding (tr : list OAuthEvent) (s : string) (d : StateData) (t : Z) : Prop :=
  ∃ pre post, tr = pre ++ ECreate d s t :: post ∧ Forall (fun e => ¬ redeems s e) post.

Definition oauth_inv (tr : list OAuthEvent) (w : BkWorld R) : Prop := ∀ s e,
  sees w (state_key self s) = Some e →
  ∃ d t, e = (VStr (state_to_json d), Some (t + 1000 * os_ttl_secs self)) ∧ state_data_ok d ∧ outstanding tr s d t.

Lemma outstanding_snoc tr s d t e : ¬ redeems s e → outstanding tr s d t → outstanding (tr ++ [e]) s d t.
Proof.
  intros He (pre & post & -> & Hp). exists pre, (post ++ [e]). split; [by rewrite <- app_assoc|].
  apply Forall_app; auto.
Qed.

Lemma outstanding_new tr s d t : outstanding (tr ++ [ECreate d s t]) s d t.
Proof. by exists tr, []. Qed.

Lemma state_key_inj s s' : state_key self s = state_key self s' → s = s'.
Proof. apply string_app_inj_l. Qed.

(** What is visible later was visible before. *)
Lemma connection_back (w : BkWorld R) r w' k e :
  bk_connection w = (r, w') → sees w' k = Some e → sees w k = Some e.
Proof.
  intros [Et Hs]%connection_inv. destruct w as [s i], w' as [s' i']. cbn in *. subst i'.
  intros E%(sees_later k i); [|lia]. revert E. unfold sees. cbn. by rewrite Hs.
Qed.

Lemma cmd_back what c (w : BkWorld R) r w' k e :
  bk_cmd what c w = (r, w') → sees w' k = Some e →
  sees w k = Some e ∨ k = cmd_key c ∧ cmd_effect (time_at (bk_tick w)) c (sees w k) = Some e.
Proof.
  intros (Et & d & Hs & _)%cmd_inv. destruct w as [s i], w' as [s' i']. cbn in *. subst i'.
  intros E%(sees_later k i); [|lia]. unfold sees in *. cbn in *. rewrite Hs in E.
  destruct (decide _) as [[_ Hk]|]; auto.
Qed.

Lemma sees_unexpired (w : BkWorld R) k v dl : sees w k = Some (v, Some dl) → time_at (bk_tick w) < dl.
Proof.
  unfold sees. rewrite (kv_later _ (millis (bk_clock (bk_tick w))) k _ (Z.le_refl _)).
  destruct (kv_see _ k _) as [[v' [dl'|]]|]; cbn; [|done..]. destruct (Z.ltb_spec (millis (bk_clock (bk_tick w))) dl');
    [intros [= <- <-]; done|done].
Qed.

Lemma getdel_inv what k (w : BkWorld R) reply w' :
  bk_cmd what (KGetDel k) w = (Ok reply, w') →
  sees w' k = None ∧ match reply with RStr (Some v) => ∃ dl, sees w k = Some (VStr v, dl) | _ => True end.
Proof.
  intros E. assert (E' := E). apply cmd_inv in E as (Et & d & Hs & Hr). destruct (Hr reply eq_refl) as [-> Hrep].
  cbn [cmd_key] in *. split.
  - destruct (sees w' k) as [e|] eqn:Es; [|done]. destruct w as [s i], w' as [s' i']. cbn in *. subst i'.
    apply (sees_later k i) in Es; [|lia]. unfold sees in Es. cbn in Es. rewrite Hs in Es.
    by rewrite decide_True in Es by done.
  - unfold sees. destruct (kv_see _ k (bk_store w)) as [[[v|ms] dl]|]; cbn in Hrep; apply same_reply_str in Hrep as ->;
      [by exists dl|done..].
Qed.

Lemma create_back d (w : BkWorld R) r w' k e :
  create_state self d w = (r, w') → sees w' k = Some e →
  sees w k = Some e ∨
  k = state_key self (oauth_random (bk_tick w)) ∧
  e = (VStr (state_to_json d), Some (time_at (S (S (bk_tick w))) + 1000 * os_ttl_secs self)).
Proof.
  unfold create_state, generate_state, bind. cbn. set (w1 := mkBkWorld (bk_store w) (S (bk_tick w))).
  assert (B1 : sees w1 k = Some e → sees w k = Some e).
  { destruct w as [st i]. apply (sees_later k i (S i)). lia. }
  destruct (bk_connection w1) as [[[]|err] w2] eqn:E2.
  - assert (T2 : bk_tick w2 = S (S (bk_tick w))) by (by apply connection_inv in E2 as [-> _]).
    destruct (bk_cmd _ _ w2) as [[rep|err] w3] eqn:E3; intros [= <- <-] Hs;
      (destruct (cmd_back _ _ _ _ _ _ _ E3 Hs) as [Hs2|[Hk He]];
       [left; exact (B1 (connection_back _ _ _ _ _ E2 Hs2))|right; split; [done|]; cbn in He; rewrite T2 in He; congruence]).
  - intros [= <- <-] Hs. left. exact (B1 (connection_back _ _ _ _ _ E2 Hs)).
Qed.

Lemma validate_back s (w : BkWorld R) r w' k e :
  validate_state self s w = (r, w') → sees w' k = Some e → sees w k = Some e.
Proof.
  unfold validate_state, bind. destruct (bk_connection w) as [[[]|err] w1] eqn:E1.
  - destruct (bk_cmd _ _ w1) as [rep w2] eqn:E2.
    assert (Hb : sees w2 k = Some e → sees w k = Some e).
    { intros Hs. destruct (cmd_back _ _ _ _ _ _ _ E2 Hs) as [Hs1|[_ He]]; [exact (connection_back _ _ _ _ _ E1 Hs1)|done]. }
    destruct rep as [[|[v|]|]|]; cbn; intros [= _ <-]; auto.
  - intros [= _ <-] Hs. exact (connection_back _ _ _ _ _ E1 Hs).
Qed.

(** A successful validation: the state was stored, is gone, and had not expired. *)
Lemma validate_Ok s (w : BkWorld R) d w' :
  validate_state self s w = (Ok d, w') →
  sees w' (state_key self s) = None ∧
  ∃ v dl, sees w (state_key self s) = Some (VStr v, dl) ∧ state_from_json v = Ok d ∧
    match dl with Some dl => time_at (S (bk_tick w)) < dl | None => True end.
Proof.
  unfold validate_state. intros ([] & w1 & E1 & E)%bind_Ok. apply bind_Ok in E as (rep & w2 & E2 & E).
  apply getdel_inv in E2 as [Hn Hv]. destruct rep as [|[v|]|]; try discriminate E.
  unfold lift in E. destruct (state_from_json v) as [d'|err] eqn:Ej; [|done]. injection E as -> <-. split; [done|].
  destruct Hv as [dl Hv]. exists v, dl. split; [exact (connection_back _ _ _ _ _ E1 Hv)|]. split; [done|].
  destruct dl as [dl|]; [|done]. apply sees_unexpired in Hv.
  apply connection_inv in E1 as [Et _]. by rewrite Et in Hv.
Qed.

(** The events so far account for every state in the store, after any operation;
    a validation that succeeds redeems an outstanding state. *)
Lemma exec_inv tr op w e w' :
  oauth_inv tr w → op_ok op → oauth_exec op w = (e, w') →
  oauth_inv (tr ++ [e]) w' ∧
  ∀ s d t, e = EValidate s (Some d) t → ∃ tc, outstanding tr s d tc ∧ t < tc + 1000 * os_ttl_secs self.
Proof.
  intros Hi Hop. destruct op as [d|s]; cbn [oauth_exec].
  - destruct (create_state self d w) as [r w1] eqn:E. intros [= <- <-]. split; [|done]. intros s' e' Hs.
    destruct (create_back _ _ _ _ _ _ E Hs) as [Hs0|[Hk ->]].
    + destruct (Hi s' e' Hs0) as (d' & t' & -> & Hd & Ho). exists d', t'. split; [done|]. split; [done|].
      apply outstanding_snoc; [|done]. by intros (? & ? & [=]).
    + apply state_key_inj in Hk as ->. eexists _, _. split; [done|]. split; [exact Hop|]. apply outstanding_new.
  - destruct (validate_state self s w) as [r w1] eqn:E. intros [= <- <-]. split.
    + intros s' e' Hs. destruct (Hi s' e' (validate_back _ _ _ _ _ _ E Hs)) as (d' & t' & -> & Hd & Ho).
      exists d', t'. split; [done|]. split; [done|]. apply outstanding_snoc; [|done]. intros (d0 & t0 & [= <- Hr _]).
      destruct r as [d1|]; [|done]. apply validate_Ok in E as [Hn _]. congruence.
    + intros s' d' t' [= <- Hr <-]. destruct r as [d1|]; [|done]. injection Hr as ->.
      apply validate_Ok in E as (_ & v & dl & Hs & Hj & Ht). destruct (Hi s _ Hs) as (d2 & tc & [= -> ->] & Hd & Ho).
      rewrite state_json_roundtrip in Hj by done. injection Hj as ->. by exists tc.
Qed.

Lemma oauth_run_inv ops tr w es w' :
  oauth_inv tr w → Forall op_ok ops → oauth_run ops w = (es, w') →
  ∀ pre s d t post, es = pre ++ EValidate s (Some d) t :: post →
  ∃ tc, outstanding (tr ++ pre) s d tc ∧ t < tc + 1000 * os_ttl_secs self.
Proof.
  revert tr w es. induction ops as [|op ops IH]; intros tr w es Hi Hok; cbn [oauth_run].
  { intros [= <- <-] [|? ?] ? ? ? ? [=]. }
  apply Forall_cons in Hok as [Hop Hok].
  destruct (oauth_exec op w) as [e w1] eqn:E. destruct (oauth_run ops w1) as [es1 w2] eqn:E1. intros [= <- <-].
  destruct (exec_inv tr op w e w1 Hi Hop E) as [Hi1 He]. intros [|e' pre] s d t post [= Hx Hp].
  - rewrite app_nil_r. by apply (He s d t).
  - subst e'. destruct (IH (tr ++ [e]) w1 es1 Hi1 Hok E1 pre s d t post Hp) as (tc & Ho & Ht).
    exists tc. split; [|done]. by rewrite <- app_assoc in Ho.
Qed.

(** C18: OAuth states are single use and tied to the flow that created them. In
    any sequence of calls, with failing connections and commands, from a store
    without states: whenever a validation returns data, that very state was drawn
    for exactly that data before, less than the time to live ago, and no other
    validation has returned it since. *)
Theorem oauth_state_single_use ops w es w' :
  (∀ s, sees w (state_key self s) = None) → Forall op_ok ops → oauth_run ops w = (es, w') →
  ∀ pre s d t post, es = pre ++ EValidate s (Some d) t :: post →
  ∃ before tc after, pre = before ++ ECreate d s tc :: after ∧
    Forall (fun e => ¬ redeems s e) after ∧ t < tc + 1000 * os_ttl_secs self.
Proof.
  intros Hn Hok E pre s d t post Hp. assert (Hi : oauth_inv [] w) by (intros s' e' Hs; by rewrite Hn in Hs).
  destruct (oauth_run_inv ops [] w es w' Hi Hok E pre s d t post Hp) as (tc & (before & after & Hb & Ha) & Ht).
  exists before, tc, after. done.
Qed.
End SingleUse.

(** ** Providers *)

Lemma first_email_spec pick emails addr :
  first_email pick emails = Some addr → ∃ e, e ∈ emails ∧ pick e = true ∧ as_str (json_index e "email") = Some addr.
Proof.
  induction emails as [|e emails IH]; [done|]. cbn. destruct (pick e) eqn:Ep.
  - destruct (as_str (json_index e "email")) as [a|] eqn:Ea; [intros [= <-]; exists e; by repeat constructor|].
    intros (e' & ? & ? & ?)%IH. exists e'. split; [by right|done].
  - intros (e' & ? & ? & ?)%IH. exists e'. split; [by right|done].
Qed.

(** The address taken from GitHub's list is one GitHub has verified. *)
Lemma primary_email_verified emails addr :
  primary_email emails = Ok addr → ∃ e, e ∈ emails ∧ flag e "verified" = true ∧ as_str (json_index e "email") = Some addr.
Proof.
  unfold primary_email. destruct (first_email (fun e => flag e "primary" && flag e "verified") emails) as [a|] eqn:E1.
  - intros [= <-]. apply first_email_spec in E1 as (e & ? & [_ ?]%andb_true_iff & ?). by exists e.
  - destruct (first_email (fun e => flag e "verified") emails) as [a|] eqn:E2; [|done]. intros [= <-].
    by apply first_email_spec.
Qed.

(** A user without any address is reported as having a verified one. *)
Lemma github_verified_without_email `{OAuthHttp} token info :
  github_get_user_info token = Ok info → ui_email_verified info = true.
Proof.
  unfold github_get_user_info. intros E. inv_result. done.
Qed.

(** Every scope of the configuration is asked for, and each one besides. *)
Lemma all_scopes_spec defaults additional s : s ∈ all_scopes defaults additional ↔ s ∈ defaults ∨ s ∈ additional.
Proof.
  unfold all_scopes. rewrite elem_of_app, list_elem_of_filter. destruct (decide (s ∈ defaults)); naive_solver.
Qed.

(** ** A run *)

(** State data without [extra], as the text of its code. *)
#[local] Instance witness_oauth_env : OAuthEnv := {
  oauth_random i := String (ascii_of_nat (65 + i)) "";
  state_to_json d := pos_text (encode (sd_provider d, sd_redirect_uri d, sd_created_at d));
  state_from_json s :=
    match countable.decode (text_pos s) with
    | Some (provider, redirect_uri, created_at) => Ok (mkStateData provider redirect_uri created_at None)
    | None => Err "expected state data"
    end;
}.

#[local] Instance witness_oauth_laws : OAuthLaws.
Proof.
  refine {| state_data_ok d := sd_extra d = None |}.
  intros [p r c x]. cbn. intros ->. by rewrite text_pos_text, decode_encode.
Defined.

#[local] Instance witness_oauth_clock : ClockEnv := {| bk_clock n := Z.of_nat n * 1000000000 |}.
#[local] Instance witness_oauth_clock_laws : ClockLaws.
Proof. split. cbn. intros. lia. Defined.

Definition witness_state_data : StateData := mkStateData "google" None 0 None.

(** Created, redeemed, and refused the second time. *)
Definition witness_oauth_ops : list OAuthOp :=
  [OCreate witness_state_data; OValidate "A"; OValidate "A"].

Lemma oauth_state_single_use_witness :
  let es := (oauth_run (state_manager_new 600) witness_oauth_ops (mkBkWorld (mkKvStore ∅ []) 0)).1 in
  es = [ECreate witness_state_data "A" 2000; EValidate "A" (Some witness_state_data) 4000; EValidate "A" None 6000] ∧
  ∃ before tc after, take 1 es = before ++ ECreate witness_state_data "A" tc :: after ∧
    Forall (fun e => ¬ redeems "A" e) after ∧ 4000 < tc + 1000 * 600.
Proof.
  cbv zeta.
  assert (E : (oauth_run (state_manager_new 600) witness_oauth_ops (mkBkWorld (mkKvStore ∅ []) 0)).1 =
    [ECreate witness_state_data "A" 2000; EValidate "A" (Some witness_state_data) 4000; EValidate "A" None 6000])
    by (vm_compute; reflexivity).
  split; [exact E|].
  destruct (oauth_run _ _ _) as [es w'] eqn:Er. cbn in E. subst es.
  eapply (oauth_state_single_use (state_manager_new 600) witness_oauth_ops (mkBkWorld (mkKvStore ∅ []) 0) _ w');
    [intros s; reflexivity|repeat constructor|exact Er|reflexivity].
Defined.
