(* ===== verification/Tls.v ===== *)
(** * Server TLS: credentials, their files and their reload

    [tls.rs], and the part of [service_builder.rs] that resolves a listener's
    credentials and starts the triggers that rotate them.

    The files can change between any two reads: the disk is a function of the
    number of reads made so far, so [M nat] is code that reads files. A
    [TlsConfigSource] is shared by its clones: a handle is an index into the heap
    of sources, and [Arc::ptr_eq] compares indices. rustls, its PEM parser and
    the standard hasher (whose algorithm is unspecified) are the class [TlsEnv];
    a file is read in one piece. Installing the crypto provider and logging are
    left out. *)

From S2P Require Import Prelude FrameworkError.

Local Open Scope Z_scope.
Local Open Scope string_scope.
Local Open Scope monad_scope.

(** ** Data *)

(** The [\[tls\]] and [\[grpc.tls\]] sections. *)
Record TlsConfig := mkTlsConfig {
  tls_enabled : bool;
  tls_cert_path : string;
  tls_key_path : string;
  tls_client_ca_path : option string;
  tls_client_auth_optional : bool;
  tls_reload_interval_secs : option Z;
  tls_reload_on_sighup : bool;
  tls_handshake_timeout_secs : option Z;
}.

(** What is hashed of a file. *)
Inductive HashWrite :=
| HPath (path : string)
| HLen (n : Z)
| HBytes (bs : bytes).

Class TlsEnv := {
  Anchor : Type;
  (** [CertificateDer::pem_*_iter(..).collect()] and [PrivateKeyDer::from_pem_*]. *)
  pem_certs : bytes → result (list bytes) string;
  pem_key : bytes → result bytes string;
  (** [RootCertStore::add] of one certificate. *)
  trust_anchor : bytes → result Anchor string;
  (** [WebPkiClientVerifier::builder(roots).build()]. *)
  client_verifier_builds : list Anchor → result unit string;
  (** [with_single_cert]: the pair is usable. *)
  single_cert : list bytes → bytes → result unit string;
  (** [DefaultHasher::finish]. *)
  hasher_finish : list HashWrite → Z;
}.

Inductive TlsListenerKind := Http | Grpc.

Definition TlsListenerKind_as_str (k : TlsListenerKind) : string :=
  match k with Http => "http" | Grpc => "grpc" end.

(** What one poll tick concluded. *)
Inductive ReloadTick :=
| Unchanged
| Reloaded (fingerprint : Z)
| ReadFailed
| ReloadFailed.

#[global] Instance ReloadTick_eq_dec : EqDecision ReloadTick.
Proof. solve_decision. Defined.

Definition DEFAULT_HANDSHAKE_TIMEOUT : Z := 10.
Definition HANDSHAKE_CHANNEL_CAPACITY : nat := 1024.

Section Tls.
Context `{TlsEnv}.

(** rustls' [ServerConfig]: the client verifier (roots, anonymous clients
    allowed), the certificate chain, the key, the protocols offered. *)
Record ServerConfig := mkServerConfig {
  sc_client_auth : option (list Anchor * bool);
  sc_cert_chain : list bytes;
  sc_key : bytes;
  sc_alpn_protocols : list string;
}.

Record TlsConfigSourceInner := mkSourceInner {
  src_current : ServerConfig;
  src_origin : option TlsConfig;
  src_initial_fingerprint : option Z;
}.

(** A handle: clones are equal handles. *)
Definition TlsConfigSource : Type := nat.

(** ** Files *)

(** What the file at a path holds at the moment of the [n]-th read. *)
Context (disk : nat → string → result bytes string).

Definition read (path : string) : M nat string bytes := fun n => (disk n path, S n).

Definition m_map_err {W E F A} (f : E → F) (m : M W E A) : M W F A := fun w =>
  let '(r, w) := m w in (map_err f r, w).

Fixpoint add_anchors (role path : string) (certs : list bytes) : result (list Anchor) Error :=
  match certs with
  | [] => Ok []
  | cert :: certs =>
      match trust_anchor cert with
      | Ok a => match add_anchors role path certs with Ok l => Ok (a :: l) | Err e => Err e end
      | Err e => Err (Error_Tls ("Failed to add " +:+ role +:+ " certificate from '" +:+ path +:+ "' to trust store: " +:+ e))
      end
  end.

Definition load_root_store (path role : string) : M nat Error (list Anchor) :=
  let! content := m_map_err (fun e => Error_Tls ("Failed to open " +:+ role +:+ " file '" +:+ path +:+ "': " +:+ e)) (read path) in
  let! ca_certs := lift (map_err (fun e => Error_Tls ("Failed to parse " +:+ role +:+ " certificates from '" +:+ path +:+ "': " +:+ e))
    (pem_certs content)) in
  match ca_certs with
  | [] => fail (Error_Tls ("The " +:+ role +:+ " file '" +:+ path +:+ "' contains no certificates"))
  | _ => lift (add_anchors role path ca_certs)
  end.

Definition load_client_ca_roots (path : string) : M nat Error (list Anchor) := load_root_store path "client CA".

Definition build_client_verifier (roots : list Anchor) (optional : bool) : result (list Anchor * bool) Error :=
  match client_verifier_builds roots with
  | Ok _ => Ok (roots, optional)
  | Err e => Err (Error_Tls ("Failed to build client certificate verifier: " +:+ e))
  end.

(** The client-authentication posture of the section. *)
Definition load_client_auth (tls_config : TlsConfig) : M nat Error (option (list Anchor * bool)) :=
  match tls_client_ca_path tls_config with
  | Some ca_path =>
      let! roots := load_client_ca_roots ca_path in
      let! verifier := lift (build_client_verifier roots (tls_client_auth_optional tls_config)) in
      ret (Some verifier)
  | None => ret None
  end.

Definition load_server_config (tls_config : TlsConfig) : M nat Error ServerConfig :=
  let! cert_pem := m_map_err (fun e => Error_Tls ("Failed to open TLS cert file '" +:+ tls_cert_path tls_config +:+ "': " +:+ e))
    (read (tls_cert_path tls_config)) in
  let! cert_chain := lift (map_err (fun e => Error_Tls ("Failed to parse TLS certificates: " +:+ e)) (pem_certs cert_pem)) in
  match cert_chain with
  | [] => fail (Error_Tls "TLS cert file contains no certificates")
  | _ =>
      let key_error e := Error_Tls ("Failed to parse TLS private key from '" +:+ tls_key_path tls_config +:+ "': " +:+ e) in
      let! key_pem := m_map_err key_error (read (tls_key_path tls_config)) in
      let! key := lift (map_err key_error (pem_key key_pem)) in
      let! client_auth := load_client_auth tls_config in
      let! _ := lift (map_err (fun e => Error_Tls ("Failed to build TLS server config: " +:+ e)) (single_cert cert_chain key)) in
      ret (mkServerConfig client_auth cert_chain key ["h2"; "http/1.1"])
  end.

(** The files a section names. *)
Definition credential_paths (tls_config : TlsConfig) : list string :=
  [tls_cert_path tls_config; tls_key_path tls_config] ++ option_list (tls_client_ca_path tls_config).

Definition hash_file (path : string) (content : bytes) : list HashWrite :=
  [HPath path; HLen (Z.of_nat (length content)); HBytes content].

Fixpoint hash_files (paths : list string) (hashed : list HashWrite) : M nat string (list HashWrite) :=
  match paths with
  | [] => ret hashed
  | path :: paths =>
      let! content := read path in
      hash_files paths (hashed ++ hash_file path content)
  end.

Definition fingerprint_credentials (tls_config : TlsConfig) : M nat string Z :=
  let! hashed := hash_files (credential_paths tls_config) [] in
  ret (hasher_finish hashed).

(** ** Sources *)

(** The reads made, the heap of sources, the next free index. *)
Record TlsWorld := mkTlsWorld {
  tw_reads : nat;
  tw_source : TlsConfigSource → TlsConfigSourceInner;
  tw_next : TlsConfigSource;
}.

Definition set_source (s : TlsConfigSource) (i : TlsConfigSourceInner) (w : TlsWorld) : TlsWorld :=
  mkTlsWorld (tw_reads w) (fun s' => if decide (s' = s) then i else tw_source w s') (tw_next w).

Definition reading {E A} (m : M nat E A) : M TlsWorld E A := fun w =>
  let '(r, n) := m (tw_reads w) in (r, mkTlsWorld n (tw_source w) (tw_next w)).

(** [Arc::new]. *)
Definition alloc {E} (i : TlsConfigSourceInner) : M TlsWorld E TlsConfigSource := fun w =>
  (Ok (tw_next w), mkTlsWorld (tw_reads w) (fun s => if decide (s = tw_next w) then i else tw_source w s) (S (tw_next w))).

Definition from_server_config {E} (server_config : ServerConfig) : M TlsWorld E TlsConfigSource :=
  alloc (mkSourceInner server_config None None).

Definition ok {A E} (r : result A E) : option A := match r with Ok a => Some a | Err _ => None end.

Definition from_tls_config (tls_config : TlsConfig) : M TlsWorld Error TlsConfigSource :=
  let! initial := m_map_err Error_Io (attempt (reading (fingerprint_credentials tls_config))) in
  let! server_config := reading (load_server_config tls_config) in
  alloc (mkSourceInner server_config (Some tls_config) (ok initial)).

Definition load (s : TlsConfigSource) (w : TlsWorld) : ServerConfig := src_current (tw_source w s).

Definition origin (s : TlsConfigSource) (w : TlsWorld) : option TlsConfig := src_origin (tw_source w s).

Definition initial_fingerprint (s : TlsConfigSource) (w : TlsWorld) : option Z := src_initial_fingerprint (tw_source w s).

Definition is_reloadable (s : TlsConfigSource) (w : TlsWorld) : bool :=
  match origin s w with Some _ => true | None => false end.

Definition ptr_eq (s s' : TlsConfigSource) : bool := bool_decide (s = s').

(** [current.store]. *)
Definition store {E} (s : TlsConfigSource) (server_config : ServerConfig) : M TlsWorld E unit := fun w =>
  (Ok tt, set_source s (mkSourceInner server_config (src_origin (tw_source w s)) (src_initial_fingerprint (tw_source w s))) w).

Definition not_reloadable : Error :=
  Error_Tls "TLS credentials cannot be reloaded: this source was built from an already-loaded ServerConfig and has no files to reread".

Definition reload (s : TlsConfigSource) : M TlsWorld Error unit := fun w =>
  match origin s w with
  | None => (Err not_reloadable, w)
  | Some tls_config => (let! server_config := reading (load_server_config tls_config) in store s server_config) w
  end.

(** ** The handle that reloads everything *)

Record TlsReloadHandle := mkReloadHandle {
  rh_http : option TlsConfigSource;
  rh_grpc : option TlsConfigSource;
}.

(** [Option::filter]. *)
Definition filter_opt {A} (p : A → bool) (o : option A) : option A := a ← o; if p a then Some a else None.

Definition TlsReloadHandle_new (http grpc : option TlsConfigSource) (w : TlsWorld) : TlsReloadHandle :=
  let http := filter_opt (fun s => is_reloadable s w) http in
  let grpc := filter_opt (fun g => match http with Some h => negb (ptr_eq h g) | None => true end)
    (filter_opt (fun s => is_reloadable s w) grpc) in
  mkReloadHandle http grpc.

Definition handle_is_empty (self : TlsReloadHandle) : bool :=
  match rh_http self, rh_grpc self with None, None => true | _, _ => false end.

Definition sources (self : TlsReloadHandle) : list (TlsListenerKind * TlsConfigSource) :=
  match rh_http self with Some http => [(Http, http)] | None => [] end ++
  match rh_grpc self with Some grpc => [(Grpc, grpc)] | None => [] end.

Fixpoint reload_each (l : list (TlsListenerKind * TlsConfigSource)) (w : TlsWorld)
    : list (TlsListenerKind * result unit Error) * TlsWorld :=
  match l with
  | [] => ([], w)
  | (listener, source) :: l =>
      let '(r, w) := reload source w in
      let '(rs, w) := reload_each l w in ((listener, r) :: rs, w)
  end.

Definition reload_all (self : TlsReloadHandle) (w : TlsWorld) : list (TlsListenerKind * result unit Error) * TlsWorld :=
  reload_each (sources self) w.

(** ** Polling *)

Definition reload_tick (source : TlsConfigSource) (last_seen : option Z) (w : TlsWorld) : ReloadTick * TlsWorld :=
  match origin source w with
  | None => (Unchanged, w)
  | Some tls_config =>
      match reading (fingerprint_credentials tls_config) w with
      | (Err _, w) => (ReadFailed, w)
      | (Ok fingerprint, w) =>
          if bool_decide (last_seen = Some fingerprint) then (Unchanged, w)
          else
            match reload source w with
            | (Ok _, w) => (Reloaded fingerprint, w)
            | (Err _, w) => (ReloadFailed, w)
            end
      end
  end.

(** One round of the poll task's loop: the baseline it goes on with. *)
Definition poll_round (source : TlsConfigSource) (last_seen : option Z) (w : TlsWorld) : option Z * TlsWorld :=
  match reload_tick source last_seen w with
  | (Reloaded fingerprint, w) => (Some fingerprint, w)
  | (_, w) => (last_seen, w)
  end.

(** A poll task: its source, listener, period, and the baseline it starts from. *)
Record ReloadPoll := mkReloadPoll {
  poll_source : TlsConfigSource;
  poll_listener : TlsListenerKind;
  poll_period : Z;
  poll_last_seen : option Z;
}.

Definition spawn_reload_poll (source : TlsConfigSource) (listener : TlsListenerKind) (period : Z) (w : TlsWorld) : ReloadPoll :=
  mkReloadPoll source listener period (initial_fingerprint source w).

Record TlsReloadTasks := mkReloadTasks {
  tasks_polls : list ReloadPoll;
  tasks_sighup : option TlsReloadHandle;
}.

Definition validate_handshake_timeout (tls_cfg : TlsConfig) (section : string) : result Z Error :=
  match tls_handshake_timeout_secs tls_cfg with
  | None => Ok DEFAULT_HANDSHAKE_TIMEOUT
  | Some 0 => Err (Error_Tls (section +:+ " sets handshake_timeout_secs = 0, which would elapse before any handshake could complete and so fail every connection. Omit the field to use the default of 10 seconds, or set a positive number of seconds."))
  | Some secs => Ok secs
  end.

Definition validate_reload_interval (tls_cfg : TlsConfig) (section : string) : result (option Z) Error :=
  match tls_reload_interval_secs tls_cfg with
  | None => Ok None
  | Some 0 => Err (Error_Tls (section +:+ " sets reload_interval_secs = 0, which would poll the certificate files without pause. Omit the field to disable polling, or set a positive number of seconds."))
  | Some secs => Ok (Some secs)
  end.

(** Whether the operator is warned that the section's triggers do nothing. *)
Definition reload_config_is_unusable (resolved : option TlsConfigSource) (tls_cfg : TlsConfig) (w : TlsWorld) : bool :=
  (match tls_reload_interval_secs tls_cfg with Some _ => true | None => false end || tls_reload_on_sighup tls_cfg) &&
  match resolved with Some s => negb (is_reloadable s w) | None => false end.

(** [signal_installs]: the operating system accepts the SIGHUP handler. *)
Definition install_reload_triggers (handle : TlsReloadHandle) (http_interval grpc_interval : option Z)
    (sighup signal_installs : bool) (w : TlsWorld) : TlsReloadTasks :=
  let poll (source : option TlsConfigSource) kind (interval : option Z) :=
    match source, interval with
    | Some source, Some period => [spawn_reload_poll source kind period w]
    | _, _ => []
    end in
  mkReloadTasks
    (poll (rh_http handle) Http http_interval ++ poll (rh_grpc handle) Grpc grpc_interval)
    (if sighup && negb (handle_is_empty handle) && signal_installs then Some handle else None).

(** ** Resolving the listeners' credentials ([ServiceBuilder::build]) *)

(** An enabled section is loaded; a failure is recorded. *)
Definition load_section (what : string) (tls_cfg : TlsConfig) (slot : option Error) (w : TlsWorld)
    : option TlsConfigSource * option Error * TlsWorld :=
  match from_tls_config tls_cfg w with
  | (Ok sc, w) => (Some sc, slot, w)
  | (Err e, w) => (None, record_startup_error slot (Error_Internal (what +:+ error_to_string e)), w)
  end.

Definition resolve_http_tls (override : option TlsConfigSource) (tls : option TlsConfig) (slot : option Error) (w : TlsWorld)
    : option TlsConfigSource * option Error * TlsWorld :=
  match override, tls with
  | Some source, _ => (Some source, slot, w)
  | None, Some tls_cfg =>
      if tls_enabled tls_cfg then
        load_section "TLS is enabled but its configuration failed to load; refusing to start a plaintext listener: " tls_cfg slot w
      else (None, slot, w)
  | None, None => (None, slot, w)
  end.

Definition resolve_grpc_tls (override : option TlsConfigSource) (grpc_tls : option TlsConfig)
    (http : option TlsConfigSource) (slot : option Error) (w : TlsWorld)
    : option TlsConfigSource * option Error * TlsWorld :=
  match override, grpc_tls with
  | Some source, _ => (Some source, slot, w)
  | None, Some grpc_tls =>
      if tls_enabled grpc_tls then
        load_section "gRPC TLS is enabled but its configuration failed to load; refusing to start a plaintext gRPC listener: " grpc_tls slot w
      else (None, slot, w)
  | None, None => (http, slot, w)
  end.

(** A validated setting of an enabled section, or its default. *)
Definition validated {A} (validate : TlsConfig → string → result A Error) (d : A) (section : string)
    (tls : option TlsConfig) (slot : option Error) : A * option Error :=
  match filter_opt tls_enabled tls with
  | Some tls_cfg =>
      match validate tls_cfg section with
      | Ok a => (a, slot)
      | Err e => (d, record_startup_error slot e)
      end
  | None => (d, slot)
  end.

Definition grpc_handshake_timeout (grpc_tls : option TlsConfig) (tls_handshake_timeout : Z) (slot : option Error) : Z * option Error :=
  match grpc_tls with
  | Some _ => validated validate_handshake_timeout DEFAULT_HANDSHAKE_TIMEOUT "[grpc.tls]" grpc_tls slot
  | None => (tls_handshake_timeout, slot)
  end.

Definition sighup_requested (tls : option TlsConfig) : bool :=
  match tls with Some t => tls_enabled t && tls_reload_on_sighup t | None => false end.

(** What the service keeps about TLS. *)
Record TlsListeners := mkTlsListeners {
  tl_http : option TlsConfigSource;
  tl_grpc : option TlsConfigSource;
  tl_http_interval : option Z;
  tl_grpc_interval : option Z;
  tl_http_timeout : Z;
  tl_grpc_timeout : Z;
  tl_sighup : bool;
}.

Definition resolve_tls (http_override grpc_override : option TlsConfigSource) (tls grpc_tls : option TlsConfig)
    (slot : option Error) (w : TlsWorld) : TlsListeners * option Error * TlsWorld :=
  let '(http, slot, w) := resolve_http_tls http_override tls slot w in
  let '(grpc, slot, w) := resolve_grpc_tls grpc_override grpc_tls http slot w in
  let '(http_interval, slot) := validated validate_reload_interval None "[tls]" tls slot in
  let '(grpc_interval, slot) := validated validate_reload_interval None "[grpc.tls]" grpc_tls slot in
  let '(http_timeout, slot) := validated validate_handshake_timeout DEFAULT_HANDSHAKE_TIMEOUT "[tls]" tls slot in
  let '(grpc_timeout, slot) := grpc_handshake_timeout grpc_tls http_timeout slot in
  (mkTlsListeners http grpc http_interval grpc_interval http_timeout grpc_timeout
     (sighup_requested tls || sighup_requested grpc_tls), slot, w).

(** [install_tls_reload_triggers]: the tasks, and the handle the hook is called
    with, when one is registered. *)
Definition install_tls_reload_triggers (self : TlsListeners) (hook signal_installs : bool) (w : TlsWorld)
    : TlsReloadTasks * option TlsReloadHandle :=
  let handle := TlsReloadHandle_new (tl_http self) (tl_grpc self) w in
  (install_reload_triggers handle (tl_http_interval self) (tl_grpc_interval self) (tl_sighup self) signal_installs w,
   if hook && negb (handle_is_empty handle) then Some handle else None).

(** ** Connection information *)

Record TlsConnectInfo := mkTlsConnectInfo {
  ci_remote_addr : string;
  ci_peer_certificates : option (list bytes);
}.

(** [PeerCertificates::leaf]: indexing the chain, which panics when empty. *)
Definition leaf (chain : list bytes) : option bytes := head chain.

Definition is_mutually_authenticated (self : TlsConnectInfo) : bool :=
  match ci_peer_certificates self with Some _ => true | None => false end.

(** [Connected::connect_info], from the chain rustls reports. *)
Definition connect_info (remote_addr : string) (peer_certificates : option (list bytes)) : TlsConnectInfo :=
  mkTlsConnectInfo remote_addr (filter_opt (fun chain => match chain with [] => false | _ => true end) peer_certificates).

(** ** What a reload of everything covers *)

(** Every reloadable source of the two listeners is reloaded, and none twice:
    credentials the gRPC listener shares are one entry. *)
Theorem reload_handle_exact http grpc w :
  NoDup (snd <$> sources (TlsReloadHandle_new http grpc w)) ∧
  ∀ s, s ∈ (snd <$> sources (TlsReloadHandle_new http grpc w)) ↔
    (http = Some s ∨ grpc = Some s) ∧ is_reloadable s w = true.
Proof.
  unfold TlsReloadHandle_new, sources, filter_opt, ptr_eq. cbn.
  destruct http as [h|]; cbn; [destruct (is_reloadable h w) eqn:Eh|];
    (destruct grpc as [g|]; cbn; [destruct (is_reloadable g w) eqn:Eg|]); cbn;
    try (case_bool_decide; cbn);
    (split; [repeat (apply NoDup_cons; split; [rewrite ?elem_of_cons, elem_of_nil; naive_solver|]); apply NoDup_nil_2|]);
    intros s; rewrite ?elem_of_cons, elem_of_nil; naive_solver congruence.
Qed.

(** ** Start-up *)

Lemma record_startup_error_Some slot e : ∃ e', record_startup_error slot e = Some e'.
Proof. destruct slot; eauto. Qed.

Lemma from_tls_config_origin c t s t' :
  from_tls_config c t = (Ok s, t') → s = tw_next t ∧ origin s t' = Some c ∧ (tw_next t < tw_next t')%nat ∧
    ∀ s', (s' < tw_next t)%nat → tw_source t' s' = tw_source t s'.
Proof.
  unfold from_tls_config, m_map_err, attempt, reading, bind. destruct (fingerprint_credentials c (tw_reads t)) as [r n]. cbn -[load_server_config].
  destruct (load_server_config c n) as [[cfg|e] n']; [|done]. cbn. intros [= <- <-]. unfold origin. cbn.
  rewrite decide_True by done. split_and!; [done..|lia|]. intros s' Hs. by rewrite decide_False by lia.
Qed.

Lemma load_section_None what c slot t o t' :
  load_section what c slot t = (o, None, t') →
  slot = None ∧ ∃ s, o = Some s ∧ origin s t' = Some c ∧ ∀ s', (s' < tw_next t)%nat → tw_source t' s' = tw_source t s'.
Proof.
  unfold load_section. destruct (from_tls_config c t) as [[s|e] t1] eqn:E.
  - intros [= <- -> <-]. apply from_tls_config_origin in E as (_ & ? & _ & ?). eauto.
  - destruct (record_startup_error_Some slot (Error_Internal (what +:+ error_to_string e))) as [e' ->]. by intros [=].
Qed.

Lemma validated_None {A} (validate : TlsConfig → string → result A Error) d section tls slot a :
  validated validate d section tls slot = (a, None) →
  slot = None ∧ match tls with Some c => if tls_enabled c then validate c section = Ok a else a = d | None => a = d end.
Proof.
  unfold validated, filter_opt. destruct tls as [c|]; cbn; [|by intros [= <- ->]]. destruct (tls_enabled c); cbn; [|by intros [= <- ->]].
  destruct (validate c section) as [a'|e]; [by intros [= <- ->]|].
  destruct (record_startup_error_Some slot e) as [e' ->]. by intros [=].
Qed.

Lemma resolve_http_None c t o t' :
  resolve_http_tls None (Some c) None t = (o, None, t') → tls_enabled c = true →
  ∃ s, o = Some s ∧ from_tls_config c t = (Ok s, t').
Proof.
  unfold resolve_http_tls, load_section. intros Hr He. rewrite He in Hr.
  destruct (from_tls_config c t) as [[s|e] t1]; [|done]. simplify_eq. eauto.
Qed.

Lemma resolve_grpc_None grpc_tls http slot t o t' :
  resolve_grpc_tls None grpc_tls http slot t = (o, None, t') →
  slot = None ∧ (∀ s', (s' < tw_next t)%nat → tw_source t' s' = tw_source t s') ∧
  match grpc_tls with
  | Some c => tls_enabled c = true → ∃ s, o = Some s ∧ origin s t' = Some c
  | None => o = http
  end.
Proof.
  unfold resolve_grpc_tls. destruct grpc_tls as [c|]; [|by intros [= <- -> <-]].
  destruct (tls_enabled c); [|by intros [= <- -> <-]]. intros (-> & s & -> & ? & ?)%load_section_None. eauto.
Qed.

Lemma validate_reload_interval_Ok c section i :
  validate_reload_interval c section = Ok i → i = tls_reload_interval_secs c ∧ i ≠ Some 0.
Proof. unfold validate_reload_interval. destruct (tls_reload_interval_secs c) as [[]|]; naive_solver. Qed.

Lemma validate_handshake_timeout_Ok c section i : validate_handshake_timeout c section = Ok i → i ≠ 0.
Proof. unfold validate_handshake_timeout, DEFAULT_HANDSHAKE_TIMEOUT. destruct (tls_handshake_timeout_secs c) as [[]|]; naive_solver. Qed.

Lemma grpc_handshake_timeout_None grpc_tls ht slot a :
  grpc_handshake_timeout grpc_tls ht slot = (a, None) →
  slot = None ∧ match grpc_tls with Some c => tls_enabled c = true → a ≠ 0 | None => a = ht end.
Proof.
  unfold grpc_handshake_timeout. destruct grpc_tls as [c|]; [|by intros [= <- ->]].
  intros [-> Hv]%validated_None. split; [done|]. intros He. rewrite He in Hv. by eapply validate_handshake_timeout_Ok.
Qed.

(** A service that starts has, on each listener whose section enables TLS,
    credentials made from that section; a gRPC listener without a section has the
    HTTP listener's; polling never has a period of zero, handshakes never a
    deadline of zero seconds when the configured numbers are not negative. *)
Theorem tls_startup_fail_closed tls grpc_tls w ls w' :
  resolve_tls None None tls grpc_tls None w = (ls, None, w') →
  (∀ c, tls = Some c → tls_enabled c = true →
    ∃ s t, tl_http ls = Some s ∧ from_tls_config c w = (Ok s, t) ∧ origin s w' = Some c ∧
      tl_http_interval ls = tls_reload_interval_secs c ∧ tl_http_interval ls ≠ Some 0 ∧ tl_http_timeout ls ≠ 0) ∧
  (∀ c, grpc_tls = Some c → tls_enabled c = true →
    ∃ s, tl_grpc ls = Some s ∧ origin s w' = Some c ∧ tl_grpc_interval ls ≠ Some 0 ∧ tl_grpc_timeout ls ≠ 0) ∧
  (grpc_tls = None → tl_grpc ls = tl_http ls ∧ tl_grpc_timeout ls = tl_http_timeout ls).
Proof.
  unfold resolve_tls. destruct (resolve_http_tls None tls None w) as [[http s1] w1] eqn:E1.
  destruct (resolve_grpc_tls None grpc_tls http s1 w1) as [[grpc s2] w2] eqn:E2.
  destruct (validated validate_reload_interval None "[tls]" tls s2) as [hi s3] eqn:E3.
  destruct (validated validate_reload_interval None "[grpc.tls]" grpc_tls s3) as [gi s4] eqn:E4.
  destruct (validated validate_handshake_timeout DEFAULT_HANDSHAKE_TIMEOUT "[tls]" tls s4) as [ht s5] eqn:E5.
  destruct (grpc_handshake_timeout grpc_tls ht s5) as [gt s6] eqn:E6. intros [= <- -> <-]. cbn.
  apply grpc_handshake_timeout_None in E6 as [-> H6]. apply validated_None in E5 as [-> H5].
  apply validated_None in E4 as [-> H4]. apply validated_None in E3 as [-> H3].
  apply resolve_grpc_None in E2 as (-> & Hkeep & H2). split_and!.
  - intros c -> He. rewrite He in H5, H3. apply resolve_http_None in E1 as (s & -> & Hf); [|done].
    destruct (from_tls_config_origin _ _ _ _ Hf) as (-> & Ho & Hlt & _). apply validate_reload_interval_Ok in H3 as [-> ?].
    exists (tw_next w), w1. split_and!; [done..| |done|done|by eapply validate_handshake_timeout_Ok].
    unfold origin in *. by rewrite Hkeep.
  - intros c -> He. rewrite He in H4. destruct (H2 He) as (s & -> & Ho). apply validate_reload_interval_Ok in H4 as [-> ?].
    exists s. split_and!; auto.
  - by intros ->.
Qed.
End Tls.
