(* ===== verification/TlsRotation.v ===== *)
(** * Rotation of TLS credentials

    Reloads of one source come from a poll task, from SIGHUP and from the
    application; each reads the files and stores what it loaded, and the runtime
    may interleave them. An event here is one such step: the reads of a reload or
    of a tick (the disk may change between any two of them), or the store that
    ends it. Whatever the interleaving, a source serves a configuration loaded
    from its own files with its own posture. A poll tick on settled files brings
    the source to them, when reloads do not overlap and a file does not return to
    an earlier content; both restrictions are needed. *)

From S2P Require Import Prelude FrameworkError Runs Tls.

Local Open Scope Z_scope.
Local Open Scope string_scope.
Local Open Scope list_scope.

Section Rotation.
Context `{TlsEnv} (disk : nat → string → result bytes string).

#[local] Arguments add_anchors : simpl never.
#[local] Arguments load_server_config : simpl never.
#[local] Arguments fingerprint_credentials : simpl never.

(** ** What a load amounts to *)

(** The files' contents, in the order of [credential_paths], read one after the
    other starting with the [n]-th read. *)
Fixpoint reads_from (n : nat) (paths : list string) (cs : list bytes) : Prop :=
  match paths, cs with
  | [], [] => True
  | p :: paths, c :: cs => disk n p = Ok c ∧ reads_from (S n) paths cs
  | _, _ => False
  end.

(** The configuration that given contents make. *)
Definition client_auth_of (c : TlsConfig) (ca : option bytes) : option (option (list Anchor * bool)) :=
  match tls_client_ca_path c, ca with
  | Some path, Some ca =>
      certs ← ok (pem_certs ca);
      match certs with
      | [] => None
      | _ =>
          roots ← ok (add_anchors "client CA" path certs);
          verifier ← ok (build_client_verifier roots (tls_client_auth_optional c));
          Some (Some verifier)
      end
  | None, None => Some None
  | _, _ => None
  end.

Definition config_of (c : TlsConfig) (cs : list bytes) : option ServerConfig :=
  match cs with
  | cert :: key :: cas =>
      chain ← ok (pem_certs cert);
      match chain with
      | [] => None
      | _ =>
          key ← ok (pem_key key);
          auth ← client_auth_of c (head cas);
          _ ← ok (single_cert chain key);
          Some (mkServerConfig auth chain key ["h2"; "http/1.1"])
      end
  | _ => None
  end.

Definition fingerprint_of (c : TlsConfig) (cs : list bytes) : Z :=
  hasher_finish (concat (zip_with hash_file (credential_paths c) cs)).

Definition n_files (c : TlsConfig) : nat := length (credential_paths c).

Lemma reads_from_length n paths cs : reads_from n paths cs → length cs = length paths.
Proof. revert n cs. induction paths as [|p ps IH]; intros n [|c cs]; cbn; [done..|]. intros [_ ?]. f_equal. eauto. Qed.

Lemma client_auth_Ok c n a n' :
  load_client_auth disk c n = (Ok a, n') ↔
  ∃ cas, reads_from n (option_list (tls_client_ca_path c)) cas ∧ client_auth_of c (head cas) = Some a ∧
    n' = (n + length (option_list (tls_client_ca_path c)))%nat.
Proof.
  unfold load_client_auth, client_auth_of. destruct (tls_client_ca_path c) as [path|]; cbn.
  2: { split; [intros [= <- <-]; exists []; cbn; auto with lia|].
       intros ([|] & Hr & Ha & ->); cbn in *; [|done]. simplify_eq. by rewrite Nat.add_0_r. }
  unfold load_client_ca_roots, load_root_store, bind, m_map_err, read, map_err, lift, ret, fail.
  replace (n + 1)%nat with (S n) by lia.
  split.
  - destruct (disk n path) as [content|] eqn:Ed; [|done].
    destruct (pem_certs content) as [[|cert certs]|] eqn:Ep; [done| |done].
    destruct (add_anchors _ _ _) as [roots|] eqn:Ea; [|done].
    destruct (build_client_verifier _ _) as [v|] eqn:Ev; [|done]. intros [= <- <-].
    exists [content]. cbn. rewrite Ep. cbn. rewrite Ea. cbn. by rewrite Ev.
  - intros ([|content [|]] & Hr & Ha & ->); cbn in *; try done; destruct Hr as [-> []] || destruct Hr as [-> _].
    destruct (pem_certs content) as [[|cert certs]|]; cbn in *; [done| |done].
    destruct (add_anchors _ _ _) as [roots|]; cbn in *; [|done].
    destruct (build_client_verifier _ _); cbn in *; by simplify_eq.
Qed.
Lemma load_server_config_Ok c n cfg n' :
  load_server_config disk c n = (Ok cfg, n') ↔
  ∃ cs, reads_from n (credential_paths c) cs ∧ config_of c cs = Some cfg ∧ n' = (n + n_files c)%nat.
Proof.
  unfold load_server_config, n_files, credential_paths, bind at 1 2, m_map_err at 1, read at 1, map_err at 1 2, lift at 1.
  cbn [app length]. split.
  - destruct (disk n (tls_cert_path c)) as [cert|] eqn:Ed; [|done].
    destruct (pem_certs cert) as [[|c0 chain]|] eqn:Ep; [done| |done]. cbn -[load_client_auth].
    unfold bind, m_map_err, read, lift, map_err.
    destruct (disk (S n) (tls_key_path c)) as [key|] eqn:Ek; [|done].
    destruct (pem_key key) as [k|] eqn:Epk; [|done].
    destruct (load_client_auth disk c (S (S n))) as [[auth|] n1] eqn:Ea; [|done].
    destruct (single_cert _ _) eqn:Es; [|done]. intros [= <- <-].
    apply client_auth_Ok in Ea as (cas & Hr & Ha & ->).
    exists (cert :: key :: cas). cbn. rewrite Ed, Ep. cbn. rewrite Epk. cbn. rewrite Ha. cbn. rewrite Es. split_and!; [done..|lia].
  - intros ([|cert [|key cas]] & Hr & Hc & ->); [done| |]; cbn in Hr; [by destruct Hr as [_ []]|].
    destruct Hr as (-> & E2 & Hr). cbn in Hc. destruct (pem_certs cert) as [[|c0 chain]|]; cbn in Hc; [done| |done].
    cbn -[load_client_auth]. unfold bind, m_map_err, read, lift, map_err. rewrite E2.
    destruct (pem_key key) as [k|]; cbn in Hc; [|done].
    destruct (client_auth_of c (head cas)) as [auth|] eqn:Ea; cbn in Hc; [|done].
    assert (load_client_auth disk c (S (S n)) = (Ok auth, (S (S n) + length (option_list (tls_client_ca_path c)))%nat)) as ->.
    { apply client_auth_Ok. eauto. }
    destruct (single_cert _ _); cbn in Hc; [|done]. simplify_eq. unfold ret. f_equal. lia.
Qed.

Lemma hash_files_Ok paths : ∀ acc n ws n',
  hash_files disk paths acc n = (Ok ws, n') ↔
  ∃ cs, reads_from n paths cs ∧ ws = acc ++ concat (zip_with hash_file paths cs) ∧ n' = (n + length paths)%nat.
Proof.
  induction paths as [|p ps IH]; intros acc n ws n'; cbn.
  - split; [intros [= <- <-]; exists []; cbn; rewrite app_nil_r; auto with lia|].
    intros ([|] & Hr & -> & ->); cbn in *; [|done]. by rewrite app_nil_r, Nat.add_0_r.
  - unfold bind, read. split.
    + destruct (disk n p) as [c|] eqn:Ed; [|done]. intros (cs & Hr & -> & ->)%IH.
      exists (c :: cs). cbn [reads_from zip_with concat length]. rewrite <- app_assoc. split_and!; [done..|lia].
    + intros ([|c cs] & Hr & -> & ->); cbn in Hr; [done|]. destruct Hr as [-> Hr]. apply IH.
      exists cs. cbn [zip_with concat length]. rewrite <- app_assoc. split_and!; [done..|lia].
Qed.

Lemma fingerprint_Ok c n f n' :
  fingerprint_credentials disk c n = (Ok f, n') ↔
  ∃ cs, reads_from n (credential_paths c) cs ∧ f = fingerprint_of c cs ∧ n' = (n + n_files c)%nat.
Proof.
  unfold fingerprint_credentials, bind at 1. split.
  - destruct (hash_files _ _ _ _) as [[ws|] n1] eqn:E; [|done]. intros [= <- <-].
    apply hash_files_Ok in E as (cs & Hr & -> & ->). by exists cs.
  - intros (cs & Hr & -> & ->).
    assert (hash_files disk (credential_paths c) [] n = (Ok (concat (zip_with hash_file (credential_paths c) cs)), (n + n_files c)%nat)) as ->.
    { apply hash_files_Ok. by exists cs. }
    done.
Qed.

(** ** Reloads in flight *)

(** A reload that has read its files and not yet stored what it loaded; one
    begun by a poll task also carries the task's number and the fingerprint. *)
Record Flight := mkFlight {
  fl_source : TlsConfigSource;
  fl_loaded : result ServerConfig Error;
  fl_poll : option (nat * Z);
}.

Record Rotation := mkRotation {
  ro_tls : TlsWorld;
  ro_polls : list ReloadPoll;
  ro_flight : list Flight;
}.

Inductive RotationEvent :=
| EvReload (s : TlsConfigSource)      (* SIGHUP or the application: read *)
| EvTick (i : nat)                    (* the i-th poll task: hash, perhaps read *)
| EvStore (k : nat).                  (* the k-th reload in flight: store *)

(** The reading half of [reload]. *)
Definition reload_read (s : TlsConfigSource) (poll : option (nat * Z)) (w : Rotation) : Rotation :=
  match origin s (ro_tls w) with
  | None => w
  | Some c =>
      let '(r, t) := reading (load_server_config disk c) (ro_tls w) in
      mkRotation t (ro_polls w) (ro_flight w ++ [mkFlight s r poll])
  end.

(** The reading half of [reload_tick]. *)
Definition tick_read (i : nat) (p : ReloadPoll) (w : Rotation) : Rotation :=
  match origin (poll_source p) (ro_tls w) with
  | None => w
  | Some c =>
      match reading (fingerprint_credentials disk c) (ro_tls w) with
      | (Err _, t) => mkRotation t (ro_polls w) (ro_flight w)
      | (Ok f, t) =>
          let w := mkRotation t (ro_polls w) (ro_flight w) in
          if bool_decide (poll_last_seen p = Some f) then w
          else reload_read (poll_source p) (Some (i, f)) w
      end
  end.

Definition set_last_seen (f : Z) (p : ReloadPoll) : ReloadPoll :=
  mkReloadPoll (poll_source p) (poll_listener p) (poll_period p) (Some f).

(** The storing half of both. *)
Definition reload_store (fl : Flight) (w : Rotation) : Rotation :=
  match fl_loaded fl with
  | Err _ => w
  | Ok cfg =>
      mkRotation (store (E := Error) (fl_source fl) cfg (ro_tls w)).2
        (match fl_poll fl with Some (i, f) => alter (set_last_seen f) i (ro_polls w) | None => ro_polls w end)
        (ro_flight w)
  end.

Definition rotation_step (e : RotationEvent) (w : Rotation) : option Rotation :=
  match e with
  | EvReload s => Some (reload_read s None w)
  | EvTick i => p ← ro_polls w !! i; Some (tick_read i p w)
  | EvStore k =>
      fl ← ro_flight w !! k;
      Some (reload_store fl (mkRotation (ro_tls w) (ro_polls w) (delete k (ro_flight w))))
  end.

(** Reloads that do not overlap. *)
Definition serial_step (e : RotationEvent) (w : Rotation) : option Rotation :=
  match e, ro_flight w with
  | EvStore _, _ | _, [] => rotation_step e w
  | _, _ => None
  end.

(** The two halves make up the code's [reload]. *)
Lemma reload_halves s t polls :
  ∀ r t', reload disk s t = (r, t') →
  after rotation_step (match origin s t with Some _ => [EvReload s; EvStore 0] | None => [EvReload s] end)
    (mkRotation t polls []) = Some (mkRotation t' polls []).
Proof.
  intros r t'. unfold reload. destruct (origin s t) as [c|] eqn:Eo.
  - cbn. unfold reload_read. cbn. rewrite Eo. unfold bind.
    destruct (reading (load_server_config disk c) t) as [[cfg|e] t1]; cbn; by intros [= <- <-].
  - intros [= <- <-]. cbn. unfold reload_read. cbn. by rewrite Eo.
Qed.

(** ... and its [reload_tick]. *)
Lemma tick_halves i p t polls o t' :
  polls !! i = Some p → reload_tick disk (poll_source p) (poll_last_seen p) t = (o, t') →
  ∃ es, (es = [EvTick i] ∨ es = [EvTick i; EvStore 0]) ∧
    after rotation_step es (mkRotation t polls []) =
      Some (mkRotation t' (match o with Reloaded f => alter (set_last_seen f) i polls | _ => polls end) []).
Proof.
  intros Hi. unfold reload_tick. cbn. destruct (origin (poll_source p) t) as [c|] eqn:Eo.
  2: { intros [= <- <-]. exists [EvTick i]. cbn. rewrite Hi. cbn. unfold tick_read. cbn. rewrite Eo. auto. }
  destruct (reading (fingerprint_credentials disk c) t) as [[f|e] t1] eqn:Ef.
  2: { intros [= <- <-]. exists [EvTick i]. cbn. rewrite Hi. cbn. unfold tick_read. cbn. rewrite Eo, Ef. auto. }
  destruct (bool_decide _) eqn:Eb.
  { intros [= <- <-]. exists [EvTick i]. cbn. rewrite Hi. cbn. unfold tick_read. cbn. rewrite Eo, Ef, Eb. auto. }
  assert (origin (poll_source p) t1 = Some c) as Eo1.
  { unfold reading in Ef. destruct (fingerprint_credentials disk c (tw_reads t)). by simplify_eq. }
  unfold reload. rewrite Eo1. unfold bind. exists [EvTick i; EvStore 0]. cbn. rewrite Hi. cbn.
  unfold tick_read, reload_read. cbn. rewrite Eo, Ef, Eb. cbn. rewrite Eo1.
  destruct (reading (load_server_config disk c) t1) as [[cfg|e] t2]; cbn in *; simplify_eq; auto.
Qed.

(** ** Whatever the interleaving *)

(** [cfg] was loaded from the files of [c], within the reads made so far. *)
Definition served (c : TlsConfig) (t : TlsWorld) (cfg : ServerConfig) : Prop :=
  ∃ n cs, reads_from n (credential_paths c) cs ∧ (n + n_files c ≤ tw_reads t)%nat ∧ config_of c cs = Some cfg.

(** What the section promises about every handshake. *)
Definition posture (c : TlsConfig) (cfg : ServerConfig) : Prop :=
  sc_cert_chain cfg ≠ [] ∧ sc_alpn_protocols cfg = ["h2"; "http/1.1"] ∧
  match tls_client_ca_path c with
  | Some _ => ∃ roots, roots ≠ [] ∧ sc_client_auth cfg = Some (roots, tls_client_auth_optional c)
  | None => sc_client_auth cfg = None
  end.

Lemma ok_Some {A E} (r : result A E) a : ok r = Some a ↔ r = Ok a.
Proof. destruct r; naive_solver. Qed.

Lemma add_anchors_nonempty role path cert certs roots : add_anchors role path (cert :: certs) = Ok roots → roots ≠ [].
Proof. unfold add_anchors. destruct (trust_anchor cert); [|done]. fold add_anchors. destruct (add_anchors role path certs); naive_solver. Qed.

Lemma config_of_posture c cs cfg : config_of c cs = Some cfg → posture c cfg.
Proof.
  unfold config_of. destruct cs as [|cert [|key cas]]; [done..|].
  intros (chain & _ & Hc)%bind_Some. destruct chain as [|c0 chain]; [done|].
  apply bind_Some in Hc as (k & _ & Hc). apply bind_Some in Hc as (auth & Ha & Hc).
  apply bind_Some in Hc as (_ & _ & Hc). simplify_eq. split_and!; [done..|]. cbn.
  unfold client_auth_of in Ha. destruct (tls_client_ca_path c) as [path|], (head cas) as [ca|]; try done; [|by simplify_eq].
  apply bind_Some in Ha as (certs & _ & Ha). destruct certs as [|c1 certs]; [done|].
  apply bind_Some in Ha as (roots & Hr%ok_Some & Ha). apply bind_Some in Ha as (v & Hv%ok_Some & Ha). simplify_eq.
  exists roots. split; [by eapply add_anchors_nonempty|]. unfold build_client_verifier in Hv.
  destruct (client_verifier_builds roots); by simplify_eq.
Qed.

Lemma hash_files_mono paths : ∀ acc n, (n ≤ (hash_files disk paths acc n).2)%nat.
Proof.
  induction paths as [|p ps IH]; intros acc n; cbn; [lia|]. unfold bind, read.
  destruct (disk n p); cbn; [|lia]. etrans; [|apply IH]. lia.
Qed.

Lemma fingerprint_mono c n : (n ≤ (fingerprint_credentials disk c n).2)%nat.
Proof.
  unfold fingerprint_credentials, bind. pose proof (hash_files_mono (credential_paths c) [] n).
  by destruct (hash_files _ _ _ _) as [[]].
Qed.

Lemma load_mono c n : (n ≤ (load_server_config disk c n).2)%nat.
Proof.
  unfold load_server_config, load_client_auth, load_client_ca_roots, load_root_store, m_map_err, read, lift, fail, ret, bind, map_err.
  repeat (case_match; simplify_eq; cbn); lia.
Qed.

(** A step reads and starts nothing, starts a reload, or ends one. *)
Inductive step_view (e : RotationEvent) (w w' : Rotation) : Prop :=
| view_quiet :
    tw_source (ro_tls w') = tw_source (ro_tls w) → ro_polls w' = ro_polls w → ro_flight w' = ro_flight w →
    (tw_reads (ro_tls w) ≤ tw_reads (ro_tls w'))%nat → step_view e w w'
| view_begin c m fl :
    tw_source (ro_tls w') = tw_source (ro_tls w) → ro_polls w' = ro_polls w → ro_flight w' = ro_flight w ++ [fl] →
    origin (fl_source fl) (ro_tls w) = Some c → (tw_reads (ro_tls w) ≤ m)%nat →
    load_server_config disk c m = (fl_loaded fl, tw_reads (ro_tls w')) →
    (∀ i f, fl_poll fl = Some (i, f) → ∃ p, e = EvTick i ∧ ro_polls w !! i = Some p ∧ poll_source p = fl_source fl ∧
       fingerprint_credentials disk c (tw_reads (ro_tls w)) = (Ok f, m)) →
    step_view e w w'
| view_store k fl :
    e = EvStore k → ro_flight w !! k = Some fl →
    w' = reload_store fl (mkRotation (ro_tls w) (ro_polls w) (delete k (ro_flight w))) → step_view e w w'.

Lemma reload_read_view s poll w c :
  origin s (ro_tls w) = Some c →
  ∃ r n, load_server_config disk c (tw_reads (ro_tls w)) = (r, n) ∧
    reload_read s poll w = mkRotation (mkTlsWorld n (tw_source (ro_tls w)) (tw_next (ro_tls w))) (ro_polls w)
      (ro_flight w ++ [mkFlight s r poll]).
Proof.
  intros Ho. unfold reload_read, reading. rewrite Ho.
  destruct (load_server_config disk c (tw_reads (ro_tls w))) as [r n]. eauto.
Qed.

Lemma step_cases e w w' : rotation_step e w = Some w' → step_view e w w'.
Proof.
  destruct e as [s|i|k]; cbn.
  - intros [= <-]. destruct (origin s (ro_tls w)) as [c|] eqn:Eo.
    + destruct (reload_read_view s None w c Eo) as (r & n & El & ->). by eapply view_begin; cbn.
    + unfold reload_read. rewrite Eo. by apply view_quiet.
  - intros (p & Hp & [= <-])%bind_Some. unfold tick_read, reading.
    destruct (origin (poll_source p) (ro_tls w)) as [c|] eqn:Eo; [|by apply view_quiet].
    pose proof (fingerprint_mono c (tw_reads (ro_tls w))) as Hm.
    destruct (fingerprint_credentials disk c (tw_reads (ro_tls w))) as [[f|e] m] eqn:Ef; cbn in Hm; [|by apply view_quiet].
    destruct (bool_decide _); [by apply view_quiet|]. set (w1 := mkRotation _ _ _).
    destruct (reload_read_view (poll_source p) (Some (i, f)) w1 c Eo) as (r & n & El & ->).
    eapply (view_begin _ _ _ c m); cbn; [done..|]. intros ? ? [= <- <-]. eauto.
  - intros (fl & Hfl & [= <-])%bind_Some. by eapply view_store.
Qed.

Lemma load_store s s' cfg t :
  load s (store (E := Error) s' cfg t).2 = if decide (s = s') then cfg else load s t.
Proof. unfold load. cbn. by case_decide. Qed.

Lemma origin_store s s' cfg t : origin s (store (E := Error) s' cfg t).2 = origin s t.
Proof. unfold origin. cbn. by case_decide; subst. Qed.

Lemma served_mono c t t' cfg : (tw_reads t ≤ tw_reads t')%nat → served c t cfg → served c t' cfg.
Proof. intros Hle (n & cs & ? & ? & ?). exists n, cs. split_and!; [done|lia|done]. Qed.

Lemma load_served c m r t :
  load_server_config disk c m = (r, tw_reads t) → ∀ cfg, r = Ok cfg → served c t cfg.
Proof. intros Hl cfg ->. apply load_server_config_Ok in Hl as (cs & ? & ? & ?). exists m, cs. split_and!; [done|lia|done]. Qed.

(** A source and the reloads of it under way. *)
Definition source_ok (c : TlsConfig) (s : TlsConfigSource) (w : Rotation) : Prop :=
  origin s (ro_tls w) = Some c ∧ served c (ro_tls w) (load s (ro_tls w)) ∧
  ∀ fl cfg, fl ∈ ro_flight w → fl_source fl = s → fl_loaded fl = Ok cfg → served c (ro_tls w) cfg.

Lemma source_ok_step c s e w w' : source_ok c s w → rotation_step e w = Some w' → source_ok c s w'.
Proof.
  intros (Ho & Hs & Hf) Hst%step_cases. destruct Hst as [Es Ep Ef Hle|c' m fl Es Ep Ef Eo Hm El _|k fl -> Hk ->].
  - unfold source_ok, origin, load in *. rewrite Es, Ef. split_and!; eauto using served_mono.
  - assert (tw_reads (ro_tls w) ≤ tw_reads (ro_tls w'))%nat as Hle.
    { pose proof (load_mono c' m) as Hl. rewrite El in Hl. cbn in Hl. lia. }
    unfold source_ok, origin, load in *. rewrite Es, Ef. split_and!; [done|eauto using served_mono|].
    intros fl' cfg [Hin|Hin]%elem_of_app; [eauto using served_mono|]. apply list_elem_of_singleton in Hin as ->.
    intros <- Hok. rewrite Ho in Eo. simplify_eq. by eapply load_served.
  - unfold reload_store. assert (fl ∈ ro_flight w) as Hin by (by eapply list_elem_of_lookup_2).
    assert (∀ fl', fl' ∈ delete k (ro_flight w) → fl' ∈ ro_flight w) as Hsub.
    { intros fl' Hin'. eapply elem_of_sublist; [exact Hin'|apply sublist_delete]. }
    destruct (fl_loaded fl) as [cfg|] eqn:El; unfold source_ok; cbn [ro_tls ro_polls ro_flight]; [|split_and!; eauto].
    rewrite origin_store, load_store. split_and!; [done| |].
    + case_decide; subst; [|done]. eauto.
    + intros fl' cfg' Hin' Es El'. apply (Hf fl'); auto.
Qed.

Lemma from_tls_config_ok c t s t' polls :
  from_tls_config disk c t = (Ok s, t') → source_ok c s (mkRotation t' polls []).
Proof.
  unfold from_tls_config, m_map_err, attempt, reading, bind.
  destruct (fingerprint_credentials disk c (tw_reads t)) as [r n]. cbn.
  destruct (load_server_config disk c n) as [[cfg|e] n'] eqn:El; [|done]. cbn. intros [= <- <-].
  unfold source_ok, origin, load. cbn. rewrite decide_True by done. cbn. split_and!; [done| |].
  - by eapply load_served; [exact El|].
  - intros fl cfg' []%not_elem_of_nil.
Qed.

(** C24: Whatever reloads of a source are started, by whichever trigger, however
    they interleave and whatever happens to the files meanwhile: the source keeps
    the section it was made from, and the configuration it serves is one that was
    loaded in full from that section's files. So a certificate chain is always
    there, both protocols are offered, and a listener that demands client
    certificates goes on demanding them, against roots that are not empty; a
    reload that fails leaves every source as it was. *)
Theorem tls_never_downgraded c t s t' polls w :
  from_tls_config disk c t = (Ok s, t') → reachable rotation_step (mkRotation t' polls []) w →
  origin s (ro_tls w) = Some c ∧
  served c (ro_tls w) (load s (ro_tls w)) ∧ posture c (load s (ro_tls w)) ∧
  (∀ s' e t'', reload disk s' (ro_tls w) = (Err e, t'') → ∀ s'', load s'' t'' = load s'' (ro_tls w)).
Proof.
  intros Hs Hr. assert (source_ok c s w) as (Ho & Hv & _).
  { eapply reachable_inv; [|intros; by eapply source_ok_step|exact Hr]. by eapply from_tls_config_ok. }
  split_and!; [done|done| |].
  - destruct Hv as (n & cs & _ & _ & Hc). by eapply config_of_posture.
  - intros s' e t''. unfold reload, bind, reading. destruct (origin s' (ro_tls w)) as [c'|]; [|by intros [= <- <-]].
    destruct (load_server_config disk c' _) as [[cfg|] n]; [done|]. by intros [= <- <-].
Qed.

(** ** The files settle *)

Lemma reads_final_iff (final : string → bytes) paths : ∀ n cs,
  (∀ m p, p ∈ paths → (n ≤ m)%nat → disk m p = Ok (final p)) → reads_from n paths cs ↔ cs = final <$> paths.
Proof.
  induction paths as [|p ps IH]; intros n [|b cs] Hd; cbn; try naive_solver.
  rewrite (Hd n p) by (set_solver || lia). rewrite (IH (S n) cs); [naive_solver|].
  intros m p' Hp Hm. apply Hd; [set_solver|lia].
Qed.

Section Settled.
Context (c : TlsConfig) (s : TlsConfigSource) (i : nat) (final : string → bytes) (T : nat) (cfg : ServerConfig).

(** From the [T]-th read on the files hold [final], and a file that holds its
    final content keeps it. *)
Hypothesis arrived : ∀ p, p ∈ credential_paths c → disk T p = Ok (final p).
Hypothesis keeps : ∀ n m p, p ∈ credential_paths c → disk n p = Ok (final p) → (n ≤ m)%nat → disk m p = Ok (final p).
Hypothesis loads : config_of c (final <$> credential_paths c) = Some cfg.
(** No other content that was read has the fingerprint of the final one. *)
Hypothesis distinct : ∀ n cs, reads_from n (credential_paths c) cs →
  fingerprint_of c cs = fingerprint_of c (final <$> credential_paths c) → cs = final <$> credential_paths c.

Lemma reads_settled n cs : (T ≤ n)%nat → reads_from n (credential_paths c) cs ↔ cs = final <$> credential_paths c.
Proof. intros Hn. apply reads_final_iff. intros m p Hp Hm. eapply keeps; [done|by apply arrived|lia]. Qed.

(** Once a fingerprint of the final content was taken, later reads see it. *)
Lemma reads_later paths : ∀ n m cs,
  paths ⊆ credential_paths c → reads_from n paths (final <$> paths) → (n + length paths ≤ m)%nat →
  reads_from m paths cs → cs = final <$> paths.
Proof.
  induction paths as [|p ps IH]; intros n m [|b cs] Hsub Hr Hm Hc; cbn in *; try done.
  destruct Hr as [Hd Hr], Hc as [Hc Hc']. rewrite (keeps n m p) in Hc; [|apply Hsub; left|done|lia]. simplify_eq. f_equal.
  eapply (IH (S n) (S m)); [set_solver|done|lia|done].
Qed.

Lemma load_settled n r n' : (T ≤ n)%nat → load_server_config disk c n = (r, n') → r = Ok cfg.
Proof.
  intros Hn Hl. assert (load_server_config disk c n = (Ok cfg, (n + n_files c)%nat)) as Hl'; [|congruence].
  apply load_server_config_Ok. exists (final <$> credential_paths c). by rewrite reads_settled.
Qed.

Lemma fingerprint_settled n : (T ≤ n)%nat →
  fingerprint_credentials disk c n = (Ok (fingerprint_of c (final <$> credential_paths c)), (n + n_files c)%nat).
Proof. intros Hn. apply fingerprint_Ok. exists (final <$> credential_paths c). by rewrite reads_settled. Qed.

(** A baseline was hashed before read [m]. *)
Definition hashed_before (b : option Z) (m : nat) : Prop :=
  ∀ f, b = Some f → ∃ n cs, reads_from n (credential_paths c) cs ∧ f = fingerprint_of c cs ∧ (n + n_files c ≤ m)%nat.

(** [cfg'] was loaded after the baseline [b] was hashed. *)
Definition newer (b : option Z) (cfg' : ServerConfig) (reads : nat) : Prop :=
  ∃ m cs, reads_from m (credential_paths c) cs ∧ config_of c cs = Some cfg' ∧ (m + n_files c ≤ reads)%nat ∧ hashed_before b m.

Definition baseline (w : Rotation) (b : option Z) : Prop :=
  ∃ p, ro_polls w !! i = Some p ∧ poll_source p = s ∧ poll_last_seen p = b.

(** What is served is newer than the baseline, also once the reload under way
    has stored. *)
Definition poll_ok (w : Rotation) : Prop :=
  origin s (ro_tls w) = Some c ∧
  (∃ b, baseline w b ∧ newer b (load s (ro_tls w)) (tw_reads (ro_tls w)) ∧
    ∀ fl, fl ∈ ro_flight w →
      (∀ cfg', fl_loaded fl = Ok cfg' → fl_source fl = s →
         newer (match fl_poll fl with Some (j, f) => if decide (j = i) then Some f else b | None => b end) cfg'
           (tw_reads (ro_tls w))) ∧
      (∀ f, fl_poll fl = Some (i, f) → fl_source fl = s)) ∧
  (length (ro_flight w) ≤ 1)%nat.

Lemma newer_final cfg' reads :
  newer (Some (fingerprint_of c (final <$> credential_paths c))) cfg' reads → cfg' = cfg.
Proof.
  intros (m & cs & Hr & Hc & _ & Hb). destruct (Hb _ eq_refl) as (n & ds & Hd & Hf & Hn).
  rewrite (distinct n ds Hd) in Hd by done. rewrite (reads_later (credential_paths c) n m cs) in Hc; [congruence|done..].
Qed.

Lemma hashed_before_le b m m' : (m ≤ m')%nat → hashed_before b m → hashed_before b m'.
Proof. intros Hle Hb f Hf. destruct (Hb f Hf) as (n & cs & ? & ? & ?). exists n, cs. split_and!; [done..|lia]. Qed.

Lemma newer_reads b cfg' n n' : (n ≤ n')%nat → newer b cfg' n → newer b cfg' n'.
Proof. intros Hle (m & cs & ? & ? & ? & ?). exists m, cs. split_and!; [done..|lia|done]. Qed.

Lemma newer_load b m cfg' reads :
  load_server_config disk c m = (Ok cfg', reads) → hashed_before b m → newer b cfg' reads.
Proof. intros (cs & ? & ? & ->)%load_server_config_Ok Hb. exists m, cs. by split_and!. Qed.

Lemma newer_before b cfg' n : newer b cfg' n → hashed_before b n.
Proof. intros (m & cs & _ & _ & Hm & Hb). eapply hashed_before_le; [|exact Hb]. lia. Qed.

Lemma fingerprint_before f n m : fingerprint_credentials disk c n = (Ok f, m) → hashed_before (Some f) m.
Proof. intros (cs & Hr & -> & ->)%fingerprint_Ok f' [= <-]. by exists n, cs. Qed.

Lemma serial_inv e w w' : serial_step e w = Some w' →
  rotation_step e w = Some w' ∧ (ro_flight w = [] ∨ ∃ k, e = EvStore k).
Proof. unfold serial_step. destruct e, (ro_flight w); naive_solver. Qed.

Lemma baseline_alter w j f b :
  baseline w b → i ≠ j → ∀ t fls, baseline (mkRotation t (alter (set_last_seen f) j (ro_polls w)) fls) b.
Proof. intros (p & Hp & ? & ?) Hne t fls. exists p. cbn. by rewrite list_lookup_alter_ne. Qed.

Lemma baseline_set w f b :
  baseline w b → ∀ t fls, baseline (mkRotation t (alter (set_last_seen f) i (ro_polls w)) fls) (Some f).
Proof. intros (p & Hp & ? & ?) t fls. exists (set_last_seen f p). cbn. rewrite list_lookup_alter_eq, Hp. by split_and!. Qed.

(** Between reloads. *)
Lemma poll_ok_idle w b :
  origin s (ro_tls w) = Some c → baseline w b → newer b (load s (ro_tls w)) (tw_reads (ro_tls w)) →
  ro_flight w = [] → poll_ok w.
Proof.
  intros Ho Hb Hn Hf. split_and!; [done| |by rewrite Hf; cbn; lia]. exists b. split_and!; [done..|].
  rewrite Hf. by intros fl ?%elem_of_nil.
Qed.

Lemma poll_ok_begin w w' b c' m fl e :
  baseline w b → newer b (load s (ro_tls w)) (tw_reads (ro_tls w)) → origin s (ro_tls w) = Some c →
  ro_flight w = [] → tw_source (ro_tls w') = tw_source (ro_tls w) → ro_polls w' = ro_polls w →
  ro_flight w' = [fl] → origin (fl_source fl) (ro_tls w) = Some c' → (tw_reads (ro_tls w) ≤ m)%nat →
  load_server_config disk c' m = (fl_loaded fl, tw_reads (ro_tls w')) →
  (∀ j f, fl_poll fl = Some (j, f) → ∃ p, e = EvTick j ∧ ro_polls w !! j = Some p ∧ poll_source p = fl_source fl ∧
     fingerprint_credentials disk c' (tw_reads (ro_tls w)) = (Ok f, m)) →
  poll_ok w'.
Proof.
  intros Hb Hn Ho Hf Es Ep Ef Eo Hm El Hp.
  assert (tw_reads (ro_tls w) ≤ tw_reads (ro_tls w'))%nat as Hle.
  { pose proof (load_mono c' m) as Hl. rewrite El in Hl. cbn in Hl. lia. }
  split_and!; [unfold origin in *; by rewrite Es| |by rewrite Ef; cbn; lia].
  exists b. split_and!; [unfold baseline in *; by rewrite Ep| |].
  - unfold load in *. rewrite Es. by eapply newer_reads.
  - rewrite Ef. intros fl' ->%list_elem_of_singleton. split.
    + intros cfg' Hl Hs. rewrite Hs, Ho in Eo. simplify_eq. rewrite Hl in El. eapply newer_load; [exact El|].
      assert (hashed_before b m) by (eapply hashed_before_le; [exact Hm|by eapply newer_before]).
      destruct (fl_poll fl) as [[j f]|] eqn:Efp; [|done]. case_decide; [|done]. subst.
      destruct (Hp i f eq_refl) as (p & _ & _ & _ & Hfp). by eapply fingerprint_before.
    + intros f Hfp. destruct (Hp i f Hfp) as (p & _ & Hi & Hs & _). destruct Hb as (p' & Hi' & Hs' & _). congruence.
Qed.

Lemma poll_ok_step e w w' : poll_ok w → serial_step e w = Some w' → poll_ok w'.
Proof.
  intros (Ho & (b & Hb & Hn & Hfl) & Hlen) (Hst & Hser)%serial_inv. pose proof (step_cases _ _ _ Hst) as Hv.
  destruct Hv as [Es Ep Ef Hle|c' m fl Es Ep Ef Eo Hm El Hp|k fl -> Hk ->].
  - unfold poll_ok, origin, load, baseline in *. rewrite Es, Ep, Ef. split_and!; [done| |done].
    exists b. split_and!; [done|by eapply newer_reads|]. intros fl Hin. destruct (Hfl fl Hin) as [H1 H2].
    split; [|done]. intros cfg' Hl Hs. eapply newer_reads; [exact Hle|auto].
  - destruct Hser as [Hnil|(k & ->)].
    2: { exfalso. cbn in Hst. apply bind_Some in Hst as (fl' & Hk & Hw). simplify_eq.
         apply (f_equal length) in Ef. unfold reload_store in Ef.
         apply lookup_lt_Some in Hk as Hlt.
         destruct (fl_loaded fl'); cbn in Ef; rewrite length_app, length_delete in Ef by eauto; cbn in Ef; lia. }
    rewrite Hnil in Ef. eapply (poll_ok_begin w w' b); eauto.
  - destruct (ro_flight w) as [|fl0 [|]] eqn:Ef; [done| |cbn in Hlen; lia]. destruct k; [|done]. cbn in Hk. simplify_eq.
    destruct (Hfl fl ltac:(set_solver)) as [H1 H2]. unfold reload_store. cbn.
    destruct (fl_loaded fl) as [cfg'|] eqn:El; [|by eapply (poll_ok_idle _ b)].
    assert (origin s (store (E := Error) (fl_source fl) cfg' (ro_tls w)).2 = Some c) as Ho' by (by rewrite origin_store).
    destruct (decide (fl_source fl = s)) as [Es|Es].
    + specialize (H1 cfg' eq_refl Es).
      destruct (fl_poll fl) as [[j f]|]; [case_decide; [subst j|]|];
        (eapply poll_ok_idle; [exact Ho'|..|done]; cycle 1;
          [unfold load; cbn; rewrite decide_True by done; exact H1|eauto using baseline_set, baseline_alter]).
    + eapply (poll_ok_idle _ b); [exact Ho'| |unfold load; cbn; rewrite decide_False by done; exact Hn|done].
      destruct (fl_poll fl) as [[j f]|]; [|done]. apply baseline_alter; [done|].
      intros <-. by apply Es, (H2 f).
Qed.

(** From a tick on settled files on: every reload under way loads them. *)
Definition settled (w : Rotation) : Prop :=
  origin s (ro_tls w) = Some c ∧ (T ≤ tw_reads (ro_tls w))%nat ∧
  (∀ fl, fl ∈ ro_flight w → fl_source fl = s → fl_loaded fl = Ok cfg) ∧
  (load s (ro_tls w) = cfg ∨ ∃ fl, fl ∈ ro_flight w ∧ fl_source fl = s).

Lemma settled_step e w w' : settled w → rotation_step e w = Some w' → settled w'.
Proof.
  intros (Ho & Ht & Hfl & Hl) Hst%step_cases. destruct Hst as [Es Ep Ef Hle|c' m fl Es Ep Ef Eo Hm El Hp|k fl -> Hk ->].
  - unfold settled, origin, load in Ho, Hl |- *. rewrite Es, Ef. split_and!; [done|lia|done..].
  - pose proof (load_mono c' m) as Hmono. rewrite El in Hmono. cbn in Hmono.
    unfold settled, origin, load in Ho, Hl, Eo |- *. rewrite Es, Ef. split_and!; [done|lia| |].
    + intros fl' [?|Hin]%elem_of_app Hs; [auto|]. apply list_elem_of_singleton in Hin as ->.
      rewrite Hs, Ho in Eo. injection Eo as <-. eapply load_settled; [|exact El]. lia.
    + destruct Hl as [|(fl' & ? & ?)]; [by left|]. right. exists fl'. split; [set_solver|done].
  - assert (∀ fl', fl' ∈ delete k (ro_flight w) → fl' ∈ ro_flight w) as Hsub.
    { intros fl' Hin'. eapply elem_of_sublist; [exact Hin'|apply sublist_delete]. }
    pose proof (list_elem_of_lookup_2 _ _ _ Hk) as Hin. unfold reload_store.
    destruct (decide (fl_source fl = s)) as [Es|Es].
    + rewrite (Hfl fl Hin Es). unfold settled. cbn [ro_tls ro_flight]. rewrite origin_store, load_store.
      split_and!; [done|cbn; lia|auto|]. left. by rewrite decide_True.
    + assert (load s (ro_tls w) = cfg ∨ ∃ fl', fl' ∈ delete k (ro_flight w) ∧ fl_source fl' = s) as Hl'.
      { destruct Hl as [?|(fl' & Hin' & ?)]; [by left|right]. exists fl'. split; [|done].
        rewrite delete_take_drop. rewrite <- (take_drop_middle _ _ _ Hk) in Hin'. set_solver. }
      destruct (fl_loaded fl); unfold settled; cbn [ro_tls ro_flight]; [|split_and!; auto].
      rewrite origin_store, load_store, decide_False by congruence. split_and!; [done|cbn; lia|auto|done].
Qed.

Lemma tick_settles w w1 :
  poll_ok w → (T ≤ tw_reads (ro_tls w))%nat → ro_flight w = [] → rotation_step (EvTick i) w = Some w1 → settled w1.
Proof.
  intros (Ho & (b & (p & Hp & Hs & Hb) & Hn & _) & _) Ht Hf. cbn. rewrite Hp. cbn. intros [= <-].
  unfold tick_read, reading. rewrite Hs, Ho, fingerprint_settled by done. case_bool_decide as Heq.
  - rewrite Heq in Hb. subst b. apply newer_final in Hn. unfold settled. cbn. rewrite Hf.
    split_and!; [done|lia|by intros fl ?%elem_of_nil|by left].
  - set (w1 := mkRotation _ _ _). assert (origin s (ro_tls w1) = Some c) as Ho1 by done.
    destruct (reload_read_view s (Some (i, fingerprint_of c (final <$> credential_paths c))) w1 c Ho1) as (r & n & El & ->).
    assert (r = Ok cfg) as -> by (eapply load_settled; [|exact El]; cbn; lia).
    pose proof (load_mono c (tw_reads (ro_tls w1))) as Hmono. rewrite El in Hmono. cbn in Hmono.
    unfold settled. cbn. rewrite Hf. split_and!; [done|lia| |].
    + by intros fl ->%list_elem_of_singleton.
    + right. eexists. split; [by apply list_elem_of_singleton|done].
Qed.

Lemma spawned_poll_ok t t0 polls listener period :
  from_tls_config disk c t = (Ok s, t0) → polls !! i = Some (spawn_reload_poll s listener period t0) →
  poll_ok (mkRotation t0 polls []).
Proof.
  intros Hf Hp. destruct (from_tls_config_ok _ _ _ _ polls Hf) as (Ho & _ & _). cbn in Ho.
  eapply (poll_ok_idle _ (initial_fingerprint s t0)); [done| |clear Hp|done].
  { eexists. split_and!; [exact Hp|done..]. }
  revert Hf. unfold from_tls_config, m_map_err, attempt, reading, bind. cbn.
  destruct (fingerprint_credentials disk c (tw_reads t)) as [r n] eqn:Ef. cbn.
  destruct (load_server_config disk c n) as [[cfg'|e] n'] eqn:El; [|done]. cbn. intros [= <- <-].
  unfold load, initial_fingerprint. cbn. rewrite decide_True by done. cbn.
  eapply newer_load; [exact El|]. destruct r as [f|]; cbn; [|done]. by eapply fingerprint_before.
Qed.

(** C25: A rotation is picked up. A source was loaded from its section's files and
    polled from then on, with any reloads by other triggers, none overlapping
    another. Once the files hold contents that load, the poll's next tick is
    enough: whenever no reload is under way from then on, and however reloads
    interleave from then on, the source serves the configuration of those
    contents. This covers a rotation that happened while the service was
    starting, between any two of its reads. It takes that a file which has its
    final content keeps it, and that no earlier content has the same fingerprint. *)
Theorem rotation_is_picked_up t t0 polls listener period w w1 w' :
  from_tls_config disk c t = (Ok s, t0) → polls !! i = Some (spawn_reload_poll s listener period t0) →
  reachable serial_step (mkRotation t0 polls []) w → (T ≤ tw_reads (ro_tls w))%nat → ro_flight w = [] →
  rotation_step (EvTick i) w = Some w1 → reachable rotation_step w1 w' → ro_flight w' = [] →
  load s (ro_tls w') = cfg.
Proof.
  intros Hf Hp Hr Ht Hnil Hst Hr' Hnil'.
  assert (poll_ok w) as Hok.
  { eapply reachable_inv; [|intros; by eapply poll_ok_step|exact Hr]. by eapply spawned_poll_ok. }
  assert (settled w') as (_ & _ & _ & [Hl|(fl & Hin & _)]); [|done|by rewrite Hnil' in Hin; apply elem_of_nil in Hin].
  eapply reachable_inv; [|intros; by eapply settled_step|exact Hr']. by eapply tick_settles.
Qed.
End Settled.
End Rotation.

(** ** Examples *)

Module RotationExample.

(** A PEM file is its own certificate or key; contents are hashed without loss. *)
Definition weigh (w : HashWrite) : Z :=
  match w with HBytes bs => le_value bs | HLen n => n | HPath _ => 0 end.

#[global] Instance example_env : TlsEnv := {|
  Anchor := bytes;
  pem_certs bs := Ok (match bs with [] => [] | _ => [bs] end);
  pem_key bs := Ok bs;
  trust_anchor bs := Ok bs;
  client_verifier_builds _ := Ok tt;
  single_cert _ _ := Ok tt;
  hasher_finish := foldr (fun w acc => weigh w + 1000 * acc) 0;
|}.

Definition section : TlsConfig := mkTlsConfig true "cert" "key" None false (Some 60) true None.

Definition old (p : string) : bytes := str_bytes (if String.eqb p "cert" then "A" else "K").
Definition new (p : string) : bytes := str_bytes (if String.eqb p "cert" then "B" else "L").

(** The files change before the read given; [until_read] also ends the change. *)
Definition rotated (at_read : nat) (n : nat) (p : string) : result bytes string :=
  Ok (if (n <? at_read)%nat then old p else new p).
Definition rolled_back (from_read until_read : nat) (n : nat) (p : string) : result bytes string :=
  Ok (if (from_read <=? n)%nat && (n <? until_read)%nat then new p else old p).

Definition serving (certs : string → bytes) : ServerConfig :=
  mkServerConfig None [certs "cert"] (certs "key") ["h2"; "http/1.1"].

Definition empty_world : TlsWorld := mkTlsWorld 0%nat (fun _ => mkSourceInner (serving old) None None) 0%nat.

(** A service that loaded its files and polls them. *)
Definition started (disk : nat → string → result bytes string) : TlsWorld := (from_tls_config disk section empty_world).2.
Definition polling (disk : nat → string → result bytes string) : Rotation :=
  mkRotation (started disk) [spawn_reload_poll 0%nat Http 60 (started disk)] [].

Definition run disk (es : list RotationEvent) : Rotation :=
  default (polling disk) (after (rotation_step disk) es (polling disk)).

(** The section whose files are rotated while the service loads them. *)
Definition mid_startup : nat → string → result bytes string := rotated 3.

Lemma rotated_distinct k n cs :
  reads_from (rotated k) n (credential_paths section) cs →
  fingerprint_of section cs = fingerprint_of section (new <$> credential_paths section) →
  cs = new <$> credential_paths section.
Proof.
  destruct cs as [|a [|b [|]]]; cbn -[rotated fingerprint_of]; try tauto. intros (Ha & Hb & _).
  unfold rotated in Ha, Hb. destruct (n <? k)%nat, (S n <? k)%nat; simplify_eq; vm_compute; congruence.
Qed.

Lemma rotated_keeps k n m p : rotated k n p = Ok (new p) → (n ≤ m)%nat → p ∈ credential_paths section → rotated k m p = Ok (new p).
Proof.
  unfold rotated. intros Hn Hle Hp. destruct (Nat.ltb_spec m k); [|done]. destruct (Nat.ltb_spec n k); [|lia].
  exfalso. cbn in Hp. rewrite !elem_of_cons in Hp. destruct Hp as [->|[->|[]%elem_of_nil]]; vm_compute in Hn; congruence.
Qed.
End RotationExample.

Lemma tls_never_downgraded_witness :
  posture RotationExample.section (load 0%nat (ro_tls (RotationExample.run RotationExample.mid_startup [EvTick 0; EvStore 0]))).
Proof.
  eapply (tls_never_downgraded RotationExample.mid_startup RotationExample.section RotationExample.empty_world 0%nat
    (RotationExample.started RotationExample.mid_startup) (ro_polls (RotationExample.polling RotationExample.mid_startup))); [reflexivity|].
  eapply (after_reachable _ [EvTick 0; EvStore 0]); [apply reach_init|reflexivity].
Defined.

Lemma rotation_is_picked_up_witness :
  load 0%nat (ro_tls (RotationExample.run RotationExample.mid_startup [EvTick 0; EvStore 0])) = RotationExample.serving RotationExample.new.
Proof.
  eapply (rotation_is_picked_up RotationExample.mid_startup RotationExample.section 0%nat 0%nat RotationExample.new 3%nat
    (RotationExample.serving RotationExample.new)) with (t := RotationExample.empty_world)
    (t0 := RotationExample.started RotationExample.mid_startup) (polls := ro_polls (RotationExample.polling RotationExample.mid_startup))
    (listener := Http) (period := 60)
    (w := RotationExample.polling RotationExample.mid_startup)
    (w1 := RotationExample.run RotationExample.mid_startup [EvTick 0]).
  - intros p _. reflexivity.
  - intros n m p Hp Hn Hle. by eapply RotationExample.rotated_keeps.
  - reflexivity.
  - apply RotationExample.rotated_distinct.
  - reflexivity.
  - reflexivity.
  - apply reach_init.
  - vm_compute. lia.
  - reflexivity.
  - reflexivity.
  - eapply (after_reachable _ [EvStore 0]); [apply reach_init|reflexivity].
  - reflexivity.
Defined.

(** ** Behaviour that looks unintended *)

(** A tick that sees the fingerprint it has as its baseline does nothing. *)
Lemma tick_unchanged `{TlsEnv} disk c i w w1 p n f :
  ro_polls w !! i = Some p → origin (poll_source p) (ro_tls w) = Some c → poll_last_seen p = Some f →
  fingerprint_credentials disk c (tw_reads (ro_tls w)) = (Ok f, n) →
  rotation_step disk (EvTick i) w = Some w1 →
  tw_source (ro_tls w1) = tw_source (ro_tls w) ∧ ro_polls w1 = ro_polls w ∧ ro_flight w1 = ro_flight w ∧ tw_reads (ro_tls w1) = n.
Proof.
  intros Hp Ho Hl Hf. cbn. rewrite Hp. cbn. intros [= <-]. unfold tick_read, reading. rewrite Ho, Hf, Hl, bool_decide_true by done. done.
Qed.

(** The poll keeps a configuration that is not the files', for good. *)
Definition stranded `{TlsEnv} (disk : nat → string → result bytes string) (c : TlsConfig) (s : TlsConfigSource) (final : string → bytes) (w : Rotation) : Prop :=
  origin s (ro_tls w) = Some c ∧ ro_flight w = [] ∧
  config_of c (final <$> credential_paths c) ≠ Some (load s (ro_tls w)) ∧
  (∀ n p, (tw_reads (ro_tls w) ≤ n)%nat → disk n p = Ok (final p)) ∧
  ∃ p, ro_polls w = [p] ∧ poll_source p = s ∧ poll_last_seen p = Some (fingerprint_of c (final <$> credential_paths c)).

Lemma stranded_tick `{TlsEnv} disk c s final w w1 :
  stranded disk c s final w → rotation_step disk (EvTick 0) w = Some w1 →
  stranded disk c s final w1 ∧ load s (ro_tls w1) = load s (ro_tls w).
Proof.
  intros (Ho & Hf & Hne & Hd & p & Hp & Hs & Hb) Hst.
  assert (fingerprint_credentials disk c (tw_reads (ro_tls w)) =
    (Ok (fingerprint_of c (final <$> credential_paths c)), (tw_reads (ro_tls w) + n_files c)%nat)) as Hfp.
  { apply fingerprint_Ok. exists (final <$> credential_paths c). split_and!; [|done..].
    apply (reads_final_iff disk final); [auto|done]. }
  destruct (tick_unchanged disk c 0 w w1 p _ _ ltac:(by rewrite Hp) ltac:(by rewrite Hs) Hb Hfp Hst) as (Es & Ep & Ef & En).
  unfold stranded, origin, load in *. rewrite Es, Ep, Ef, En. split; [|done]. split_and!; [done..| |eauto].
  intros n q Hn. apply Hd. lia.
Qed.

(** However many ticks follow. *)
Lemma stranded_forever `{TlsEnv} disk c s final w k w' :
  stranded disk c s final w → after (rotation_step disk) (replicate k (EvTick 0)) w = Some w' →
  load s (ro_tls w') = load s (ro_tls w) ∧ config_of c (final <$> credential_paths c) ≠ Some (load s (ro_tls w')).
Proof.
  revert w. induction k as [|k IH]; intros w Hs; cbn -[rotation_step].
  - intros [= <-]. split; [done|]. apply Hs.
  - destruct (rotation_step disk (EvTick 0) w) as [w1|] eqn:E1; [|done]. intros Ha.
    destruct (stranded_tick _ _ _ _ _ _ Hs E1) as [Hs1 Hl]. destruct (IH w1 Hs1 Ha) as [-> ?]. by rewrite <- Hl in *.
Qed.

Module RotationRaces.
Import RotationExample.

(** Reloads are not serialized. A SIGHUP read the old files; the poll then saw
    the rotated ones, loaded and stored them; then the first reload stored. The
    old certificate is served, and since the poll's baseline is the new files'
    fingerprint, no tick ever replaces it. *)
Definition overlap : list RotationEvent := [EvReload 0%nat; EvTick 0; EvStore 1; EvStore 0].

Lemma overlapping_reloads_strand : stranded (rotated 6) section 0%nat new (run (rotated 6) overlap).
Proof.
  refine (conj _ (conj _ (conj _ (conj _ _)))); [vm_compute; reflexivity..|intros [=]%(f_equal (fmap sc_cert_chain))| |].
  - intros n p Hn. unfold rotated. destruct (Nat.ltb_spec n 6); [|done]. revert Hn. vm_compute (tw_reads _). lia.
  - eexists. refine (conj _ (conj _ _)); vm_compute; reflexivity.
Qed.

(** Reloads do not overlap here. The files were rotated between the fingerprint
    and the load that start a source, and rotated back afterwards: the source
    serves the certificate that was withdrawn, with the restored files'
    fingerprint as its baseline. *)
Lemma rollback_during_startup_strands : stranded (rolled_back 2 4) section 0%nat old (run (rolled_back 2 4) []).
Proof.
  refine (conj _ (conj _ (conj _ (conj _ _)))); [vm_compute; reflexivity..|intros [=]%(f_equal (fmap sc_cert_chain))| |].
  - intros n p Hn. unfold rolled_back. destruct (Nat.ltb_spec n 4); [|by rewrite andb_false_r]. revert Hn. vm_compute (tw_reads _). lia.
  - eexists. refine (conj _ (conj _ _)); vm_compute; reflexivity.
Qed.
End RotationRaces.
