(* ===== verification/TlsListener.v ===== *)
(** * The TLS listener: handshakes off the accept path

    [handshake_pump] and [TlsListener] of [tls.rs], on a source whose
    credentials rotate meanwhile. One event per step of a task: the pump takes a
    TCP connection and the configuration of that moment, the connection's own
    task ends its handshake or runs into the deadline, the server takes a
    finished connection from the channel. A full channel makes senders wait, in
    order of arrival. What a handshake comes to is rustls' business: a parameter,
    with the documented meaning of a client verifier as its law. *)

From S2P Require Import Prelude FrameworkError Runs Tls TlsRotation.

Local Open Scope Z_scope.
Local Open Scope list_scope.

(** How the handshake with a client ends. *)
Inductive Handshake :=
| HsStalls
| HsFails
| HsCompletes (peer_certificates : option (list bytes)).

Class Rustls `{TlsEnv} := {
  Client : Type;
  handshake : ServerConfig → Client → Handshake;
  (** The chain is one that the roots vouch for. *)
  vouched : list Anchor → list bytes → Prop;
}.

(** [with_client_cert_verifier] and [with_no_client_auth]. *)
Class RustlsLaws `{Rustls} := {
  verifier_demands cfg client roots peer :
    sc_client_auth cfg = Some (roots, false) → handshake cfg client = HsCompletes peer →
    ∃ chain, peer = Some chain ∧ chain ≠ [] ∧ vouched roots chain;
  verifier_checks cfg client roots chain :
    sc_client_auth cfg = Some (roots, true) → handshake cfg client = HsCompletes (Some chain) → vouched roots chain;
  no_verifier cfg client peer :
    sc_client_auth cfg = None → handshake cfg client = HsCompletes peer → peer = None;
}.

Section Listener.
Context `{Rustls} (disk : nat → string → result bytes string).

(** A connection whose handshake is under way, with the configuration it was
    accepted under and its deadline. *)
Record Pending := mkPending {
  pd_id : nat;
  pd_addr : string;
  pd_client : Client;
  pd_config : ServerConfig;
  pd_deadline : Z;
}.

Record Established := mkEstablished {
  es_id : nat;
  es_addr : string;
  es_client : Client;
  es_config : ServerConfig;
  es_peer : option (list bytes);
}.

Record Listener := mkListener {
  ln_rotation : Rotation;
  ln_source : TlsConfigSource;
  ln_timeout : Z;
  ln_now : Z;
  ln_next : nat;
  ln_pending : list Pending;
  ln_channel : list Established;
  ln_waiting : list Established;
  ln_served : list Established;
}.

(** [with_config_source] and [with_handshake_timeout]. *)
Definition with_config_source (rotation : Rotation) (source : TlsConfigSource) (timeout now : Z) : Listener :=
  mkListener rotation source timeout now 0 [] [] [] [].

Inductive ListenerEvent :=
| LRotate (e : RotationEvent)
| LAccept (addr : string) (client : Client)
| LHandshake (id : nat)
| LTimeout (id : nat)
| LServe
| LClock (d : Z).

Definition set_rotation (r : Rotation) (l : Listener) : Listener :=
  mkListener r (ln_source l) (ln_timeout l) (ln_now l) (ln_next l) (ln_pending l) (ln_channel l) (ln_waiting l) (ln_served l).
Definition set_pending (ps : list Pending) (l : Listener) : Listener :=
  mkListener (ln_rotation l) (ln_source l) (ln_timeout l) (ln_now l) (ln_next l) ps (ln_channel l) (ln_waiting l) (ln_served l).
Definition set_now (now : Z) (l : Listener) : Listener :=
  mkListener (ln_rotation l) (ln_source l) (ln_timeout l) now (ln_next l) (ln_pending l) (ln_channel l) (ln_waiting l) (ln_served l).
Definition set_queue (channel waiting served : list Established) (l : Listener) : Listener :=
  mkListener (ln_rotation l) (ln_source l) (ln_timeout l) (ln_now l) (ln_next l) (ln_pending l) channel waiting served.

(** The pump accepts: a snapshot of the credentials, a task with a deadline. *)
Definition pump_accept (addr : string) (client : Client) (l : Listener) : Listener :=
  mkListener (ln_rotation l) (ln_source l) (ln_timeout l) (ln_now l) (S (ln_next l))
    (ln_pending l ++ [mkPending (ln_next l) addr client (load (ln_source l) (ro_tls (ln_rotation l))) (ln_now l + ln_timeout l)])
    (ln_channel l) (ln_waiting l) (ln_served l).

(** [tx.send(..)]: into the channel, or behind the senders already waiting. *)
Definition send (d : Established) (l : Listener) : Listener :=
  if bool_decide (ln_waiting l = [] ∧ (length (ln_channel l) < HANDSHAKE_CHANNEL_CAPACITY)%nat)
  then set_queue (ln_channel l ++ [d]) (ln_waiting l) (ln_served l) l
  else set_queue (ln_channel l) (ln_waiting l ++ [d]) (ln_served l) l.

Definition find_pending (id : nat) (l : Listener) : option Pending :=
  snd <$> list_find (fun p => pd_id p = id) (ln_pending l).

Definition drop_pending (id : nat) (l : Listener) : Listener :=
  set_pending (filter (fun p => pd_id p ≠ id) (ln_pending l)) l.

(** The connection's task: [timeout(handshake_timeout, acceptor.accept(stream))]. *)
Definition handshake_task (id : nat) (l : Listener) : option Listener :=
  p ← find_pending id l;
  match handshake (pd_config p) (pd_client p) with
  | HsStalls => None
  | HsFails => Some (drop_pending id l)
  | HsCompletes peer =>
      Some (send (mkEstablished id (pd_addr p) (pd_client p) (pd_config p) peer) (drop_pending id l))
  end.

Definition timeout_task (id : nat) (l : Listener) : option Listener :=
  p ← find_pending id l;
  if bool_decide (pd_deadline p ≤ ln_now l) then Some (drop_pending id l) else None.

(** [rx.recv()]: a permit is freed and goes to the first sender waiting. *)
Definition serve (l : Listener) : option Listener :=
  match ln_channel l with
  | [] => None
  | d :: channel =>
      Some (match ln_waiting l with
            | [] => set_queue channel [] (ln_served l ++ [d]) l
            | d' :: waiting => set_queue (channel ++ [d']) waiting (ln_served l ++ [d]) l
            end)
  end.

Definition listener_step (e : ListenerEvent) (l : Listener) : option Listener :=
  match e with
  | LRotate e => r ← rotation_step disk e (ln_rotation l); Some (set_rotation r l)
  | LAccept addr client => Some (pump_accept addr client l)
  | LHandshake id => handshake_task id l
  | LTimeout id => timeout_task id l
  | LServe => serve l
  | LClock d => if bool_decide (0 ≤ d) then Some (set_now (ln_now l + d) l) else None
  end.

Definition queue (l : Listener) : list Established := ln_channel l ++ ln_waiting l.

(** ** Who is connected *)

Lemma queue_send d l : queue (send d l) = queue l ++ [d].
Proof.
  unfold send, queue. case_bool_decide as Hb; cbn; [|by rewrite app_assoc]. destruct Hb as [-> _]. by rewrite !app_nil_r.
Qed.

Lemma serve_queue l l' : serve l = Some l' →
  ∃ d, queue l = d :: queue l' ∧ ln_served l' = ln_served l ++ [d] ∧ ln_pending l' = ln_pending l ∧
    ln_rotation l' = ln_rotation l ∧ ln_source l' = ln_source l.
Proof.
  unfold serve, queue. destruct (ln_channel l) as [|d channel]; [done|].
  destruct (ln_waiting l) as [|d' waiting]; intros [= <-]; exists d; cbn; split_and!; try done. by rewrite <- app_assoc.
Qed.

Lemma find_pending_elem id l p : find_pending id l = Some p → p ∈ ln_pending l ∧ pd_id p = id.
Proof.
  unfold find_pending. intros ([k q] & Hf & ->)%fmap_Some. apply list_find_Some in Hf as (Hk & ? & _).
  split; [by eapply list_elem_of_lookup_2|done].
Qed.

(** The channel's bound, and that nobody waits while there is room. *)
Definition bounded (l : Listener) : Prop :=
  (length (ln_channel l) ≤ HANDSHAKE_CHANNEL_CAPACITY)%nat ∧
  (ln_waiting l ≠ [] → length (ln_channel l) = HANDSHAKE_CHANNEL_CAPACITY).

Lemma bounded_send d l : bounded l → bounded (send d l).
Proof.
  unfold bounded, send. intros [Hle Hw]. case_bool_decide as Hb; cbn.
  - destruct Hb as [-> ?]. rewrite length_app. cbn. split; [lia|done].
  - split; [done|]. intros _. destruct (decide (ln_waiting l = [])); [|auto]. destruct (decide (length (ln_channel l) < HANDSHAKE_CHANNEL_CAPACITY)%nat); [tauto|lia].
Qed.

Lemma bounded_serve l l' : bounded l → serve l = Some l' → bounded l'.
Proof.
  unfold bounded, serve. intros [Hle Hw]. destruct (ln_channel l) as [|d channel]; [done|].
  destruct (ln_waiting l) as [|d' waiting]; intros [= <-]; cbn in *; [split; [lia|done]|].
  specialize (Hw ltac:(done)). rewrite length_app. cbn. split; [lia|intros _; lia].
Qed.

Lemma bounded_step e l l' : bounded l → listener_step e l = Some l' → bounded l'.
Proof.
  intros Hb. destruct e as [e|addr client|id|id| |d]; cbn.
  - by intros (r & _ & [= <-])%bind_Some.
  - by intros [= <-].
  - intros (p & _ & Hs)%bind_Some. destruct (handshake _ _); [done|by simplify_eq|]. simplify_eq. by apply bounded_send.
  - intros (p & _ & Hs)%bind_Some. case_bool_decide; by simplify_eq.
  - by apply bounded_serve.
  - case_bool_decide; [|done]. by intros [= <-].
Qed.

(** *** The bound is on the channel only *)

(** A peer whose handshake completes, while nobody else is in one. *)
Lemma accept_and_finish addr client peer l :
  ln_pending l = [] → handshake (load (ln_source l) (ro_tls (ln_rotation l))) client = HsCompletes peer →
  ∃ l', after listener_step [LAccept addr client; LHandshake (ln_next l)] l = Some l' ∧ ln_pending l' = [] ∧
    ln_source l' = ln_source l ∧ ln_rotation l' = ln_rotation l ∧ ln_served l' = ln_served l ∧
    length (queue l') = S (length (queue l)).
Proof.
  intros Hp Hh. cbn -[HANDSHAKE_CHANNEL_CAPACITY]. unfold handshake_task, find_pending, pump_accept. cbn. rewrite Hp. cbn.
  rewrite decide_True by done. cbn. rewrite Hh. eexists. split; [done|].
  match goal with |- context [send ?d ?l0] => set (e := d); set (k := l0) end.
  assert (Hq := queue_send e k). assert (queue k = queue l) as Hk by done.
  assert (ln_pending k = []) as Hpk by (cbn; by rewrite decide_False by naive_solver).
  rewrite Hq, Hk, length_app. cbn. unfold send. case_bool_decide; cbn; split_and!; try done; lia.
Qed.

(** When the server takes no connection, any number of finished ones pile up:
    those that the channel does not hold are kept by tasks that wait to send. *)
Lemma finished_connections_unbounded client peer l n :
  bounded l → ln_pending l = [] → handshake (load (ln_source l) (ro_tls (ln_rotation l))) client = HsCompletes peer →
  ∃ l', reachable listener_step l l' ∧ ln_served l' = ln_served l ∧ (n ≤ length (ln_waiting l'))%nat.
Proof.
  intros Hb Hp Hh. assert (∀ n, ∃ l', reachable listener_step l l' ∧ bounded l' ∧ ln_pending l' = [] ∧
    ln_source l' = ln_source l ∧ ln_rotation l' = ln_rotation l ∧ ln_served l' = ln_served l ∧ (n ≤ length (queue l'))%nat) as Hn.
  { clear n. induction n as [|n (l1 & Hr & Hb1 & Hp1 & Hs1 & Hr1 & Hsv & Hl)]; [exists l; split_and!; try done; [constructor|lia]|].
    destruct (accept_and_finish "" client peer l1) as (l2 & Ha & Hp2 & Hs2 & Hr2 & Hsv2 & Hl2); [done|congruence|].
    exists l2. split_and!; try congruence; [by eapply after_reachable| |lia].
    by eapply (after_inv _ (fun _ => True) bounded) in Ha; [|intros; by eapply bounded_step|repeat constructor|]. }
  destruct (Hn (n + HANDSHAKE_CHANNEL_CAPACITY)%nat) as (l' & Hr & [Hc _] & _ & _ & _ & Hs & Hl).
  exists l'. split; [done|]. split; [done|]. unfold queue in Hl. rewrite length_app in Hl. lia.
Qed.

(** Loaded, in full, from the section's files. *)
Definition from_files (c : TlsConfig) (cfg : ServerConfig) : Prop :=
  ∃ n cs, reads_from disk n (credential_paths c) cs ∧ config_of c cs = Some cfg.

Definition shook_hands (c : TlsConfig) (d : Established) : Prop :=
  from_files c (es_config d) ∧ handshake (es_config d) (es_client d) = HsCompletes (es_peer d).

Definition connections_ok (c : TlsConfig) (l : Listener) : Prop :=
  source_ok disk c (ln_source l) (ln_rotation l) ∧
  Forall (fun p => from_files c (pd_config p)) (ln_pending l) ∧
  Forall (shook_hands c) (queue l ++ ln_served l).

Lemma connections_drop c id l : connections_ok c l → connections_ok c (drop_pending id l).
Proof. intros (? & Hp & ?). split_and!; [done| |done]. cbn. apply Forall_forall. intros p [_ Hin]%list_elem_of_filter. by eapply Forall_forall in Hp. Qed.

Lemma connections_send c d l : connections_ok c l → shook_hands c d → connections_ok c (send d l).
Proof.
  intros (Hs & Hp & Hq) Hd. unfold connections_ok. rewrite queue_send.
  assert (ln_served (send d l) = ln_served l ∧ ln_pending (send d l) = ln_pending l ∧
    ln_source (send d l) = ln_source l ∧ ln_rotation (send d l) = ln_rotation l) as (-> & -> & -> & ->)
    by (unfold send; by case_bool_decide).
  split_and!; [done..|]. apply Forall_app in Hq as [? ?]. rewrite !Forall_app, Forall_singleton. tauto.
Qed.

Lemma connections_step c e l l' : connections_ok c l → listener_step e l = Some l' → connections_ok c l'.
Proof.
  intros Hok. pose proof Hok as (Hs & Hp & Hq). destruct e as [e|addr client|id|id| |d]; cbn.
  - intros (r & Hr & [= <-])%bind_Some. split_and!; [by eapply source_ok_step|done..].
  - intros [= <-]. split_and!; [done| |done]. cbn. apply Forall_app. split; [done|]. constructor; [|constructor]. cbn.
    destruct Hs as (_ & (n & cs & ? & _ & ?) & _). by exists n, cs.
  - intros (p & Hf & Hh)%bind_Some. apply find_pending_elem in Hf as [Hin _].
    destruct (handshake _ _) as [| |peer] eqn:E; [done| |]; simplify_eq; [by apply connections_drop|].
    apply connections_send; [by apply connections_drop|]. split; [|done]. cbn. by eapply Forall_forall in Hp.
  - intros (p & _ & Ht)%bind_Some. case_bool_decide; simplify_eq. by apply connections_drop.
  - intros (d & Eq & Es & Ep & Er & Eo)%serve_queue. unfold connections_ok. rewrite Es, Ep, Er, Eo. split_and!; [done..|].
    rewrite Eq in Hq. cbn in Hq. apply Forall_cons in Hq as [? Hq]. apply Forall_app in Hq as [? ?].
    rewrite !Forall_app, Forall_singleton. tauto.
  - case_bool_decide; [|done]. by intros [= <-].
Qed.

Lemma reads_from_nth paths : ∀ n cs k p, reads_from disk n paths cs → paths !! k = Some p → ∃ b, cs !! k = Some b ∧ disk (n + k)%nat p = Ok b.
Proof.
  induction paths as [|q ps IH]; intros n [|b cs] [|k] p; cbn; try done.
  - intros [? _] [= ->]. exists b. by rewrite Nat.add_0_r.
  - intros [_ Hr] Hk. destruct (IH (S n) cs k p Hr Hk) as (b' & ? & ?). exists b'. by rewrite Nat.add_succ_r.
Qed.

(** The roots are those of the client CA file. *)
Lemma from_files_roots c path cfg :
  from_files c cfg → tls_client_ca_path c = Some path →
  ∃ n ca certs roots, disk n path = Ok ca ∧ pem_certs ca = Ok certs ∧ add_anchors "client CA" path certs = Ok roots ∧
    sc_client_auth cfg = Some (roots, tls_client_auth_optional c).
Proof.
  intros (n & cs & Hr & Hc) Hp.
  destruct (reads_from_nth _ n cs 2 path Hr) as (ca & Hca & Hd); [by unfold credential_paths; rewrite Hp|].
  unfold config_of in Hc. destruct cs as [|cert [|key [|ca' cas]]]; [done..|]. cbn in Hca. simplify_eq.
  apply bind_Some in Hc as ([|c0 chain] & _ & Hc); [done|].
  apply bind_Some in Hc as (k & _ & Hc). apply bind_Some in Hc as (auth & Ha & Hc).
  apply bind_Some in Hc as (_ & _ & Hc). simplify_eq. unfold client_auth_of in Ha. cbn [head] in Ha. rewrite Hp in Ha.
  apply bind_Some in Ha as ([|c1 certs] & Hpem%ok_Some & Ha); [done|].
  apply bind_Some in Ha as (roots & Hroots%ok_Some & Ha). apply bind_Some in Ha as (v & Hv%ok_Some & Ha). simplify_eq.
  exists (n + 2)%nat, ca, (c1 :: certs), roots. split_and!; [done..|].
  unfold build_client_verifier in Hv. destruct (client_verifier_builds roots); by simplify_eq.
Qed.

(** C26: A listener whose section names a client CA and does not make client
    certificates optional serves nobody without one. Whatever reloads happen, in
    whatever order, and whatever the files hold meanwhile: each connection the
    server is handed reports the verified chain of its peer, not empty, vouched
    for by the roots of a client CA file that was read from the path the section
    names. The channel to the server never holds more than its capacity, and a
    task waits to send only while the channel is full; how many tasks wait with a
    finished connection is not bounded ([finished_connections_unbounded]). *)
Theorem served_connections_authenticated `{!RustlsLaws} c path t s t0 polls timeout now l :
  from_tls_config disk c t = (Ok s, t0) →
  tls_client_ca_path c = Some path → tls_client_auth_optional c = false →
  reachable listener_step (with_config_source (mkRotation t0 polls []) s timeout now) l →
  ((length (ln_channel l) ≤ HANDSHAKE_CHANNEL_CAPACITY)%nat ∧
   (ln_waiting l ≠ [] → length (ln_channel l) = HANDSHAKE_CHANNEL_CAPACITY)) ∧
  ∀ d, d ∈ ln_served l →
    ∃ n ca certs roots chain,
      disk n path = Ok ca ∧ pem_certs ca = Ok certs ∧ add_anchors "client CA" path certs = Ok roots ∧
      vouched roots chain ∧ chain ≠ [] ∧
      connect_info (es_addr d) (es_peer d) = mkTlsConnectInfo (es_addr d) (Some chain) ∧
      is_mutually_authenticated (connect_info (es_addr d) (es_peer d)) = true.
Proof.
  intros Hs Hp Ho Hr. split.
  { change (bounded l). eapply reachable_inv; [|intros; by eapply bounded_step|exact Hr]. split; cbn; [lia|done]. }
  assert (connections_ok c l) as (_ & _ & Hq).
  { eapply reachable_inv; [|intros; by eapply connections_step|exact Hr]. split_and!; [by eapply from_tls_config_ok|constructor..]. }
  intros d Hd. apply Forall_app in Hq as [_ Hq]. rewrite Forall_forall in Hq. destruct (Hq d Hd) as [Hf Hh].
  destruct (from_files_roots c path _ Hf Hp) as (n & ca & certs & roots & ? & ? & ? & Ha). rewrite Ho in Ha.
  destruct (verifier_demands _ _ _ _ Ha Hh) as (chain & Epeer & Hne & Hv).
  exists n, ca, certs, roots, chain. split_and!; [done..| |]; rewrite Epeer; by destruct chain.
Qed.

(** ** Who waits for whom *)

Lemma find_pending_app id (ps qs : list Pending) p :
  snd <$> list_find (fun p => pd_id p = id) ps = Some p → snd <$> list_find (fun p => pd_id p = id) (ps ++ qs) = Some p.
Proof. intros ([k q] & Hf & ->)%fmap_Some. by rewrite (list_find_app_l _ _ _ _ _ Hf). Qed.

Lemma find_filter_ne id id' (ps : list Pending) :
  id ≠ id' → snd <$> list_find (fun p => pd_id p = id) (filter (fun p => pd_id p ≠ id') ps) =
    snd <$> list_find (fun p => pd_id p = id) ps.
Proof.
  intros Hne. induction ps as [|q ps IH]; [done|]. rewrite filter_cons. destruct (decide (pd_id q ≠ id')) as [Hq|Hq]; cbn.
  - destruct (decide (pd_id q = id)) as [Hi|Hi]; [done|]. revert IH.
    destruct (list_find _ (filter _ ps)) as [[]|], (list_find _ ps) as [[]|]; cbn; congruence.
  - destruct (decide (pd_id q = id)) as [Hi|Hi]; [exfalso; apply Hq; congruence|]. rewrite IH.
    by destruct (list_find _ ps) as [[]|].
Qed.

Lemma find_filter_eq id (ps : list Pending) :
  snd <$> list_find (fun p => pd_id p = id) (filter (fun p => pd_id p ≠ id) ps) = None.
Proof.
  apply fmap_None, list_find_None, Forall_forall. by intros p [? _]%list_elem_of_filter.
Qed.

Lemma drop_same id l : find_pending id (drop_pending id l) = None.
Proof. apply find_filter_eq. Qed.

Lemma drop_other id id' l : id ≠ id' → find_pending id (drop_pending id' l) = find_pending id l.
Proof. apply find_filter_ne. Qed.

Lemma find_send id d l : find_pending id (send d l) = find_pending id l.
Proof. unfold send. by case_bool_decide. Qed.

Lemma now_send d l : ln_now (send d l) = ln_now l.
Proof. unfold send. by case_bool_decide. Qed.

(** Only its own task ends a handshake, and the clock goes forward. *)
Lemma pending_step e l l' id p :
  find_pending id l = Some p → listener_step e l = Some l' →
  find_pending id l' = Some p ∨ find_pending id l' = None ∧ (e = LHandshake id ∨ e = LTimeout id).
Proof.
  intros Hf. destruct e as [e|addr client|id'|id'| |d]; cbn.
  - intros (r & _ & [= <-])%bind_Some. by left.
  - intros [= <-]. left. by apply find_pending_app.
  - intros (q & _ & Hh)%bind_Some. destruct (decide (id = id')) as [<-|Hne].
    + right. destruct (handshake _ _); simplify_eq; rewrite ?find_send, drop_same; auto.
    + left. destruct (handshake _ _); simplify_eq; by rewrite ?find_send, drop_other.
  - intros (q & _ & Hh)%bind_Some. case_bool_decide; simplify_eq. destruct (decide (id = id')) as [<-|Hne].
    + right. rewrite drop_same. auto.
    + left. by rewrite drop_other.
  - intros (d & _ & _ & Ep & _)%serve_queue. left. unfold find_pending. by rewrite Ep.
  - case_bool_decide; [|done]. intros [= <-]. by left.
Qed.

Lemma now_step e l l' : listener_step e l = Some l' → ln_now l ≤ ln_now l'.
Proof.
  destruct e as [e|addr client|id'|id'| |d]; cbn.
  - intros (r & _ & [= <-])%bind_Some. cbn. lia.
  - intros [= <-]. cbn. lia.
  - intros (q & _ & Hh)%bind_Some. destruct (handshake _ _); simplify_eq; rewrite ?now_send; cbn; lia.
  - intros (q & _ & Hh)%bind_Some. case_bool_decide; simplify_eq. cbn. lia.
  - unfold serve. destruct (ln_channel l); [done|]. destruct (ln_waiting l); intros [= <-]; cbn; lia.
  - case_bool_decide; [|done]. intros [= <-]. cbn. lia.
Qed.

(** A finished connection moves up only when one is served. *)
Lemma queue_step e l l' k d :
  queue l !! k = Some d → listener_step e l = Some l' →
  queue l' !! k = Some d ∨ e = LServe.
Proof.
  intros Hk. destruct e as [e|addr client|id'|id'| |x]; cbn.
  - intros (r & _ & [= <-])%bind_Some. by left.
  - intros [= <-]. by left.
  - intros (q & _ & Hh)%bind_Some. left. destruct (handshake _ _); simplify_eq; [done|].
    rewrite queue_send. by apply lookup_app_l_Some.
  - intros (q & _ & Hh)%bind_Some. left. case_bool_decide; by simplify_eq.
  - by right.
  - case_bool_decide; [|done]. intros [= <-]. by left.
Qed.

Section Live.
Context (r : Run listener_step).
Hypothesis starts_bounded : bounded (run_at r 0).
(** The server goes on taking connections. *)
Hypothesis serves : weakly_fair listener_step r (fun e => e = LServe).

Lemma any_event : only_from listener_step r 0 (fun _ => True).
Proof. by intros m e _ _. Qed.

Lemma always_bounded m : bounded (run_at r m).
Proof. eapply (run_inv listener_step r 0 (fun _ => True) bounded); [apply any_event|intros; by eapply bounded_step|done|lia]. Qed.

Lemma queued_is_served n d : d ∈ queue (run_at r n) → ∃ m, (n ≤ m)%nat ∧ d ∈ ln_served (run_at r m).
Proof.
  intros [k Hk]%list_elem_of_lookup.
  eapply (queue_leads listener_step r (fun _ => True) (fun e => e = LServe) bounded (fun k l => queue l !! k = Some d)
    (fun l => d ∈ ln_served l) 0); [done|apply any_event|intros; apply always_bounded| | | |lia|exact Hk].
  - intros j e l l' _ _ Hj Hst. destruct (queue_step _ _ _ _ _ Hj Hst) as [Hl | ->]; [by left|right].
    apply serve_queue in Hst as (d' & Eq & Es & _). rewrite Eq in Hj. unfold nearer.
    destruct j as [|j]; cbn in Hj; [left|by right]. injection Hj as ->. rewrite Es. apply elem_of_app. right. by left.
  - intros j l [_ Hw] Hj. unfold enabled. exists LServe. cbn. unfold serve, queue in *.
    destruct (ln_channel l) as [|d' channel]; [|by destruct (ln_waiting l); eauto].
    destruct (ln_waiting l); [done|]. specialize (Hw ltac:(done)). done.
  - intros j e l l' -> _ _ Hj Hst. apply serve_queue in Hst as (d' & Eq & Es & _). rewrite Eq in Hj. unfold nearer.
    destruct j as [|j]; cbn in Hj; [left|by right]. injection Hj as ->. rewrite Es. apply elem_of_app. right. by left.
Qed.

Lemma pending_until id p : until listener_step (fun _ => True) bounded
  (fun l => find_pending id l = Some p) (fun l => find_pending id l = None).
Proof. intros e l l' _ _ Hp Hst. destruct (pending_step _ _ _ _ _ Hp Hst) as [?|[? _]]; auto. Qed.

Lemma stalled_is_dropped n m id p :
  weakly_fair listener_step r (fun e => e = LHandshake id ∨ e = LTimeout id) →
  find_pending id (run_at r n) = Some p → (n ≤ m)%nat → pd_deadline p ≤ ln_now (run_at r m) →
  ∃ k, (n ≤ k)%nat ∧ find_pending id (run_at r k) = None.
Proof.
  intros Hfair Hp Hnm Hd.
  destruct (run_until listener_step r (fun _ => True) bounded _ _ n (m - n) ltac:(by intros ???) (fun m _ => always_bounded m)
    (pending_until id p) Hp) as [Hpm|(k & ? & ?)]; [|by exists k].
  replace (m - n + n)%nat with m in Hpm by lia.
  destruct (leads_to_fair listener_step r (fun _ => True) (fun e => e = LHandshake id ∨ e = LTimeout id) bounded
    (fun l => find_pending id l = Some p ∧ pd_deadline p ≤ ln_now l) (fun l => find_pending id l = None) m) as (k & ? & ?);
    [done|by intros ???|intros; apply always_bounded| | | |done|exists k; split; [lia|done]].
  - intros e l l' _ _ [Hf Hl] Hst. pose proof (now_step _ _ _ Hst). destruct (pending_step _ _ _ _ _ Hf Hst) as [?|[? _]]; [left|by right].
    split; [done|lia].
  - intros l _ [Hf Hl]. exists (LTimeout id). cbn. unfold timeout_task. rewrite Hf. cbn. rewrite bool_decide_true by done. eauto.
  - intros e l l' [-> | ->] _ _ [Hf _] Hst; destruct (pending_step _ _ _ _ _ Hf Hst) as [Hf'|[? _]]; [|done| |done]; exfalso; revert Hst Hf'; cbn.
    + unfold handshake_task. rewrite Hf. cbn. destruct (handshake _ _); [done|..]; intros [= <-]; rewrite ?find_send, drop_same; done.
    + unfold timeout_task. rewrite Hf. cbn. case_bool_decide; [|done]. intros [= <-]. by rewrite drop_same.
Qed.

Lemma completing_is_queued n id p peer :
  weakly_fair listener_step r (fun e => e = LHandshake id ∨ e = LTimeout id) →
  find_pending id (run_at r n) = Some p → handshake (pd_config p) (pd_client p) = HsCompletes peer →
  ∃ m, (n ≤ m)%nat ∧
    (mkEstablished id (pd_addr p) (pd_client p) (pd_config p) peer ∈ queue (run_at r m) ∨ pd_deadline p ≤ ln_now (run_at r m)).
Proof.
  intros Hfair Hp Hh.
  apply (leads_to_fair listener_step r (fun _ => True) (fun e => e = LHandshake id ∨ e = LTimeout id) bounded
    (fun l => find_pending id l = Some p)
    (fun l => mkEstablished id (pd_addr p) (pd_client p) (pd_config p) peer ∈ queue l ∨ pd_deadline p ≤ ln_now l) n);
    [done|by intros ???|intros; apply always_bounded| | | |done].
  - intros e l l' _ _ Hf Hst. destruct (pending_step _ _ _ _ _ Hf Hst) as [?|[_ [-> | ->]]]; [by left|right..]; revert Hst; cbn.
    + unfold handshake_task. rewrite Hf. cbn. rewrite Hh. intros [= <-]. left. rewrite queue_send. apply elem_of_app. right. by left.
    + unfold timeout_task. rewrite Hf. cbn. case_bool_decide; [|done]. intros [= <-]. by right.
  - intros l _ Hf. exists (LHandshake id). cbn. unfold handshake_task. rewrite Hf. cbn. rewrite Hh. eauto.
  - intros e l l' [-> | ->] _ _ Hf; cbn.
    + unfold handshake_task. rewrite Hf. cbn. rewrite Hh. intros [= <-]. left. rewrite queue_send. apply elem_of_app. right. by left.
    + unfold timeout_task. rewrite Hf. cbn. case_bool_decide; [|done]. intros [= <-]. by right.
Qed.

(** C27: Peers do not wait for each other. In every run in which the server goes
    on taking connections and the tasks of connection [id] are not starved, with
    any number of other peers that stall: if its client completes the handshake,
    connection [id] is served, unless its deadline passes first; and once its
    deadline has passed, it holds a handshake task no longer. *)
Theorem peers_do_not_block n id p :
  weakly_fair listener_step r (fun e => e = LHandshake id ∨ e = LTimeout id) →
  find_pending id (run_at r n) = Some p →
  (∀ peer, handshake (pd_config p) (pd_client p) = HsCompletes peer →
    ∃ m, (n ≤ m)%nat ∧
      (mkEstablished id (pd_addr p) (pd_client p) (pd_config p) peer ∈ ln_served (run_at r m) ∨
       pd_deadline p ≤ ln_now (run_at r m))) ∧
  (∀ m, (n ≤ m)%nat → pd_deadline p ≤ ln_now (run_at r m) → ∃ k, (n ≤ k)%nat ∧ find_pending id (run_at r k) = None).
Proof.
  intros Hfair Hp. split; [|intros m; by eapply stalled_is_dropped].
  intros peer Hh. destruct (completing_is_queued n id p peer Hfair Hp Hh) as (m & Hm & [Hq|Hd]); [|by exists m; auto].
  destruct (queued_is_served m _ Hq) as (k & ? & ?). exists k. split; [lia|by left].
Qed.
End Live.
End Listener.

(** ** Example *)

Module ListenerExample.
Import RotationExample.

Inductive ExampleClient := Stalls | Anonymous | Presents (cert : bytes).

#[global] Instance example_rustls : Rustls := {|
  Client := ExampleClient;
  handshake cfg client :=
    match client, sc_client_auth cfg with
    | Stalls, _ => HsStalls
    | _, None => HsCompletes None
    | Anonymous, Some (_, optional) => if optional then HsCompletes None else HsFails
    | Presents cert, Some (roots, _) => if bool_decide (cert ∈ (roots : list bytes)) then HsCompletes (Some [cert]) else HsFails
    end;
  vouched roots chain := Forall (fun cert => cert ∈ (roots : list bytes)) chain;
|}.

#[global] Instance example_rustls_laws : RustlsLaws.
Proof.
  split.
  - intros cfg [| |cert] roots peer Hc; cbn; rewrite ?Hc; [done..|]. case_bool_decide; [|done]. intros [= <-].
    eexists. split_and!; [done..|]. by repeat constructor.
  - intros cfg [| |cert] roots chain Hc; cbn; rewrite ?Hc; [done..|]. case_bool_decide; [|done]. intros [= <-]. by repeat constructor.
  - intros cfg [| |cert] peer Hc; cbn; rewrite ?Hc; [done|..]; by intros [= <-].
Qed.

(** A section with client certificates required. *)
Definition mutual : TlsConfig := mkTlsConfig true "cert" "key" (Some "ca") false None false None.
Definition files (_ : nat) (p : string) : result bytes string := Ok (str_bytes p).
Definition world : TlsWorld := (from_tls_config files mutual empty_world).2.
Definition listening : Listener := with_config_source (mkRotation world [] []) 0%nat 10 0.

(** One peer stalls, one presents a certificate and is served. *)
Definition day : list ListenerEvent :=
  [LAccept "10.0.0.9" Stalls; LAccept "10.0.0.1" (Presents (str_bytes "ca")); LHandshake 1; LServe; LClock 11; LTimeout 0].
Definition evening : Listener := default listening (after (listener_step files) day listening).

Lemma day_passes : after (listener_step files) day listening = Some evening.
Proof.
  assert (bool_decide (is_Some (after (listener_step files) day listening)) = true) as [l Hl]%bool_decide_eq_true
    by (vm_compute; reflexivity).
  unfold evening. by rewrite Hl.
Qed.

Definition served_today : option Established := head (ln_served evening).

(** The peer that stalls. *)
Definition staller : Pending := mkPending 0 "10.0.0.9" (Stalls : Client) (load 0%nat world) 10.

Lemma guest_served : ∃ d, served_today = Some d ∧ es_addr d = "10.0.0.1"%string ∧ d ∈ ln_served evening.
Proof.
  assert (es_addr <$> served_today = Some "10.0.0.1"%string) as (d & Hd & ->)%fmap_Some by (vm_compute; reflexivity).
  exists d. split_and!; [done..|]. unfold served_today in Hd. destruct (ln_served evening); cbn in Hd; [done|]. simplify_eq. by left.
Qed.
End ListenerExample.

Lemma served_connections_authenticated_witness :
  ∃ d, ListenerExample.served_today = Some d ∧ is_mutually_authenticated (connect_info (es_addr d) (es_peer d)) = true.
Proof.
  destruct (served_connections_authenticated ListenerExample.files ListenerExample.mutual "ca" RotationExample.empty_world 0%nat
    ListenerExample.world [] 10 0 ListenerExample.evening) as [_ Hd].
  - reflexivity.
  - reflexivity.
  - reflexivity.
  - eapply after_reachable; [apply reach_init|exact ListenerExample.day_passes].
  - destruct ListenerExample.guest_served as (d & Ed & _ & Hin). exists d. split; [exact Ed|].
    destruct (Hd d Hin) as (_ & _ & _ & _ & _ & _ & _ & _ & _ & _ & _ & Ha). exact Ha.
Defined.

Lemma peers_do_not_block_witness :
  ∃ m, let l := states (listener_step ListenerExample.files) ListenerExample.day ListenerExample.listening m in
    find_pending 0 l = None.
Proof.
  destruct (peers_do_not_block ListenerExample.files
    (finite_run _ ListenerExample.day ListenerExample.listening ListenerExample.evening ListenerExample.day_passes)) with
    (n := 1%nat) (id := 0%nat)
    (p := ListenerExample.staller) as [_ Hd].
  - split; cbn; [lia|done].
  - apply finite_run_fair. intros (e & l & -> & [=]).
  - apply finite_run_fair. intros (e & l & [-> | ->] & [=]).
  - reflexivity.
  - destruct (Hd 5%nat ltac:(lia) ltac:(vm_compute; congruence)) as (k & _ & Hk). exists k. exact Hk.
Defined.
