(* ===== verification/ClientTls.v ===== *)
(** * Client TLS: the identity a service calls others with

    [client_tls.rs]. Files are read as in [Tls]; rustls, reqwest and tonic are
    the class [ClientTlsEnv], their builders records of what the code puts into
    them. A rotating source holds two independent cells, the key it presents and
    the anchors it verifies peers against; a reload reads everything, then
    stores the one and the other. *)

From stdpp Require Import pretty.
From S2P Require Import Prelude FrameworkError Text Runs Tls.

Local Open Scope Z_scope.
Local Open Scope string_scope.
Local Open Scope list_scope.
Local Open Scope monad_scope.

(** The [\[client_identity\]] section. *)
Record ClientIdentityConfig := mkClientIdentityConfig {
  cid_enabled : bool;
  cid_cert_path : string;
  cid_key_path : string;
  cid_root_ca_path : option string;
  cid_exclusive_roots : bool;
  cid_connect_timeout_secs : option Z;
}.

Definition HTTP_ALPN : list string := ["h2"; "http/1.1"].
Definition GRPC_ALPN : list string := ["h2"].
Definition PEER_CA_ROLE : string := "peer CA".
Definition DEFAULT_CLIENT_CONNECT_TIMEOUT : Z := 30.

Class ClientTlsEnv `{TlsEnv} := {
  SigningKey : Type;
  ServerName : Type;
  (** [CryptoProvider::get_default], after the attempt to install one. *)
  provider_installed : bool;
  load_private_key : bytes → result SigningKey string;
  keys_match : list bytes → SigningKey → result unit string;
  (** [webpki_roots::TLS_SERVER_ROOTS]. *)
  TLS_SERVER_ROOTS : list Anchor;
  server_verifier_builds : list Anchor → result unit string;
  (** [ClientConfig::with_client_auth_cert]. *)
  client_auth_cert : list bytes → bytes → result unit string;
  reqwest_identity_from_pem : bytes → result unit string;
  reqwest_certificates_from_pem : bytes → result (list bytes) string;
  reqwest_client_builds : result unit string;
  (** [ServerName::try_from]. *)
  server_name_try_from : string → result ServerName string;
}.

(** [concat_identity_pem]. *)
Definition NEWLINE : ascii := byte_of_Z 10.

Definition ends_with_newline (bs : bytes) : bool := bool_decide (last bs = Some NEWLINE).

Definition concat_identity_pem (cert_pem key_pem : bytes) : bytes :=
  cert_pem ++ (if ends_with_newline cert_pem then [] else [NEWLINE]) ++ key_pem.

Section ClientTls.
Context `{ClientTlsEnv} (disk : nat → string → result bytes string).

Record IdentityMaterial := mkIdentityMaterial {
  im_cert_pem : bytes;
  im_key_pem : bytes;
  im_chain : list bytes;
  im_key : bytes;
}.

Record CertifiedKey := mkCertifiedKey {
  ck_chain : list bytes;
  ck_signing_key : SigningKey;
}.

Definition certified_key_from_material (material : IdentityMaterial) (config : ClientIdentityConfig)
    : result CertifiedKey Error :=
  if provider_installed then
    match load_private_key (im_key material) with
    | Err e => Err (Error_Tls ("Client identity private key from '" +:+ cid_key_path config +:+ "' is not usable by the configured crypto provider: " +:+ e))
    | Ok signing_key =>
        match keys_match (im_chain material) signing_key with
        | Err e => Err (Error_Tls ("Client identity private key '" +:+ cid_key_path config +:+ "' does not match the certificate in '" +:+ cid_cert_path config +:+ "': " +:+ e))
        | Ok _ => Ok (mkCertifiedKey (im_chain material) signing_key)
        end
    end
  else Err (Error_Tls "No rustls crypto provider is installed; enable exactly one of the `crypto-aws-lc-rs` or `crypto-ring` features").

Definition load_identity_material (config : ClientIdentityConfig) : M nat Error IdentityMaterial :=
  let! cert_pem := m_map_err (fun e => Error_Tls ("Failed to open client identity cert file '" +:+ cid_cert_path config +:+ "': " +:+ e))
    (read disk (cid_cert_path config)) in
  let! key_pem := m_map_err (fun e => Error_Tls ("Failed to open client identity key file '" +:+ cid_key_path config +:+ "': " +:+ e))
    (read disk (cid_key_path config)) in
  let! chain := lift (map_err (fun e => Error_Tls ("Failed to parse client identity certificates from '" +:+ cid_cert_path config +:+ "': " +:+ e))
    (pem_certs cert_pem)) in
  match chain with
  | [] => fail (Error_Tls ("Client identity cert file '" +:+ cid_cert_path config +:+ "' contains no certificates"))
  | _ =>
      let! key := lift (map_err (fun e => Error_Tls ("Failed to parse client identity private key from '" +:+ cid_key_path config +:+ "': " +:+ e))
        (pem_key key_pem)) in
      let material := mkIdentityMaterial cert_pem key_pem chain key in
      let! _ := lift (certified_key_from_material material config) in
      ret material
  end.

Definition build_root_store (config : ClientIdentityConfig) : M nat Error (list Anchor) :=
  match cid_root_ca_path config with
  | None => ret TLS_SERVER_ROOTS
  | Some path =>
      let! peer_roots := load_root_store disk path PEER_CA_ROLE in
      ret ((if cid_exclusive_roots config then [] else TLS_SERVER_ROOTS) ++ peer_roots)
  end.

Definition read_validated_ca_bundle (path : string) : M nat Error bytes :=
  let! _ := load_root_store disk path PEER_CA_ROLE in
  m_map_err (fun e => Error_Tls ("Failed to read " +:+ PEER_CA_ROLE +:+ " file '" +:+ path +:+ "': " +:+ e)) (read disk path).

(** [WebPkiServerVerifier]: the anchors it checks against. *)
Definition build_peer_verifier (config : ClientIdentityConfig) : M nat Error (list Anchor) :=
  let! roots := build_root_store config in
  let! _ := lift (map_err (fun e => Error_Tls ("Failed to build a peer certificate verifier from the configured " +:+ PEER_CA_ROLE +:+ " roots: " +:+ e))
    (server_verifier_builds roots)) in
  ret roots.

(** ** One-shot clients *)

(** rustls' [ClientConfig]. *)
Record ClientConfig := mkClientConfig {
  cc_roots : list Anchor;
  cc_chain : list bytes;
  cc_key : bytes;
  cc_alpn_protocols : list string;
}.

Definition load_rustls_client_config (config : ClientIdentityConfig) : M nat Error ClientConfig :=
  let! material := load_identity_material config in
  let! roots := build_root_store config in
  let! _ := lift (map_err (fun e => Error_Tls ("Failed to build rustls client config: " +:+ e))
    (client_auth_cert (im_chain material) (im_key material))) in
  ret (mkClientConfig roots (im_chain material) (im_key material) []).

(** [reqwest::Identity], as the buffer it was made from. *)
Definition load_reqwest_identity (config : ClientIdentityConfig) : M nat Error bytes :=
  let! material := load_identity_material config in
  let joined := concat_identity_pem (im_cert_pem material) (im_key_pem material) in
  let! _ := lift (map_err (fun e => Error_Tls ("Failed to build a reqwest identity from '" +:+ cid_cert_path config +:+ "' and '" +:+ cid_key_path config +:+ "': " +:+ e))
    (reqwest_identity_from_pem joined)) in
  ret joined.

(** [reqwest::ClientBuilder]: identity, added roots, whether the built-in ones count. *)
Record ReqwestBuilder := mkReqwestBuilder {
  rb_identity : bytes;
  rb_roots : list bytes;
  rb_built_in_roots : bool;
}.

Definition reqwest_client_builder (config : ClientIdentityConfig) : M nat Error ReqwestBuilder :=
  let! identity := load_reqwest_identity config in
  match cid_root_ca_path config with
  | Some path =>
      let! pem := read_validated_ca_bundle path in
      let! certs := lift (map_err (fun e => Error_Tls ("Failed to build reqwest certificates from " +:+ PEER_CA_ROLE +:+ " file '" +:+ path +:+ "': " +:+ e))
        (reqwest_certificates_from_pem pem)) in
      ret (mkReqwestBuilder identity certs (negb (cid_exclusive_roots config)))
  | None => ret (mkReqwestBuilder identity [] true)
  end.

(** [tonic::transport::ClientTlsConfig]: identity, CA certificate, trust anchors. *)
Record TonicTlsConfig := mkTonicTlsConfig {
  tt_identity : bytes * bytes;
  tt_ca_certificate : option bytes;
  tt_trust_anchors : list Anchor;
}.

Definition tonic_client_tls_config (config : ClientIdentityConfig) : M nat Error TonicTlsConfig :=
  let! material := load_identity_material config in
  let identity := (im_cert_pem material, im_key_pem material) in
  match cid_root_ca_path config with
  | None => ret (mkTonicTlsConfig identity None TLS_SERVER_ROOTS)
  | Some path =>
      let! pem := read_validated_ca_bundle path in
      ret (mkTonicTlsConfig identity (Some pem) (if cid_exclusive_roots config then [] else TLS_SERVER_ROOTS))
  end.

(** ** The rotating source *)

(** The client built by [reqwest::Client::builder()]: the protocols it offers and
    its connect timeout, which nothing sets. *)
Record HttpClient := mkHttpClient {
  hc_alpn_protocols : list string;
  hc_connect_timeout : option Z;
}.

(** The client handed out, the two cells, and where a reload reads from. *)
Record ClientIdentitySource := mkClientIdentitySource {
  cis_client : HttpClient;
  cis_resolver : CertifiedKey;
  cis_verifier : list Anchor;
  cis_origin : ClientIdentityConfig;
}.

(** [ResolvesClientCert::resolve] and [has_certs]: the hints are ignored. *)
Definition resolve (self : ClientIdentitySource) (root_hint_subjects : list bytes) (sigschemes : list Z) : option CertifiedKey :=
  Some (cis_resolver self).
Definition has_certs (self : ClientIdentitySource) : bool := true.

Definition prepare_reload (origin : ClientIdentityConfig) : M nat Error (CertifiedKey * list Anchor) :=
  let! material := load_identity_material origin in
  let! key := lift (certified_key_from_material material origin) in
  let! verifier := build_peer_verifier origin in
  ret (key, verifier).

(** The HTTP client is built once, with [HTTP_ALPN]. *)
Definition build_client (config : ClientIdentityConfig) : result HttpClient Error :=
  match reqwest_client_builds with
  | Ok _ => Ok (mkHttpClient HTTP_ALPN None)
  | Err e => Err (Error_Tls ("Failed to build a reqwest client for the identity in '" +:+ cid_cert_path config +:+ "': " +:+ e))
  end.

Definition from_config (config : ClientIdentityConfig) : M nat Error ClientIdentitySource :=
  let! material := load_identity_material config in
  let! key := lift (certified_key_from_material material config) in
  let! verifier := build_peer_verifier config in
  let! client := lift (build_client config) in
  ret (mkClientIdentitySource client key verifier config).

Definition store_resolver (key : CertifiedKey) (self : ClientIdentitySource) : ClientIdentitySource :=
  mkClientIdentitySource (cis_client self) key (cis_verifier self) (cis_origin self).
Definition store_verifier (verifier : list Anchor) (self : ClientIdentitySource) : ClientIdentitySource :=
  mkClientIdentitySource (cis_client self) (cis_resolver self) verifier (cis_origin self).

(** The state: the source and the reads made. *)
Definition reload_identity : M (ClientIdentitySource * nat) Error unit := fun '(self, n) =>
  match prepare_reload (cis_origin self) n with
  | (Ok (key, verifier), n) => (Ok tt, (store_verifier verifier (store_resolver key self), n))
  | (Err e, n) => (Err e, (self, n))
  end.

Definition connect_timeout (self : ClientIdentitySource) : Z :=
  default DEFAULT_CLIENT_CONNECT_TIMEOUT (filter_opt (fun secs => bool_decide (secs > 0)) (cid_connect_timeout_secs (cis_origin self))).

(** ** gRPC channels *)

Record Uri := mkUri {
  uri_text : string;
  uri_scheme : option string;
  uri_host : option string;
  uri_port : option Z;
}.

Record RotatingTlsConnector := mkRotatingTlsConnector {
  rtc_alpn_protocols : list string;
  rtc_connect_timeout : Z;
}.

Definition grpc_channel (self : ClientIdentitySource) (endpoint : Uri) : result RotatingTlsConnector Error :=
  if bool_decide (uri_scheme endpoint = Some "https")
  then Ok (mkRotatingTlsConnector GRPC_ALPN (connect_timeout self))
  else Err (Error_Internal ("gRPC endpoint '" +:+ uri_text endpoint +:+ "' must use the https scheme to present a client identity, but it uses '" +:+ default "(none)" (uri_scheme endpoint) +:+ "'")).

(** [str::strip_suffix]. *)
Definition strip_suffix_char (c : ascii) (s : string) : option string :=
  match rev (str_bytes s) with
  | x :: rest => if bool_decide (x = c) then Some (String.string_of_list_ascii (rev rest)) else None
  | [] => None
  end.

Definition connect_host (host : string) : string :=
  default host (strip_prefix "[" host ≫= strip_suffix_char "]").

Definition resolve_target (host : string) : result (string * ServerName) Error :=
  match server_name_try_from (connect_host host) with
  | Ok server_name => Ok (connect_host host, server_name)
  | Err e => Err (Error_Internal ("gRPC endpoint host '" +:+ connect_host host +:+ "' is not a valid TLS server name: " +:+ e))
  end.

(** What a connection attempt dials and verifies before it touches the network. *)
Definition connect_tls_target (uri : Uri) : result (string * Z * ServerName) Error :=
  match uri_host uri with
  | None => Err (Error_Internal ("gRPC endpoint '" +:+ uri_text uri +:+ "' has no host to connect to"))
  | Some host =>
      let port := default 443 (uri_port uri) in
      match resolve_target host with
      | Ok (connect_host, server_name) => Ok (connect_host, port, server_name)
      | Err e => Err e
      end
  end.

(** The outcomes of the three awaits of [connect_tls_unbounded]; [None] is a step
    that does not end within the budget of [connect_tls]. *)
Record Attempt := mkAttempt {
  at_tcp : option (result unit string);
  at_nodelay : result unit string;
  at_handshake : option (result unit string);
}.

Definition timed_out (uri : Uri) (budget : Z) : Error :=
  Error_Internal ("Connecting to gRPC endpoint '" +:+ uri_text uri +:+ "' exceeded the " +:+ pretty budget +:+ "s connect timeout before the TLS handshake completed").

Definition connect_tls (uri : Uri) (budget : Z) (attempt : Attempt) : result (string * Z * ServerName) Error :=
  match connect_tls_target uri with
  | Err e => Err e
  | Ok target =>
      match at_tcp attempt with
      | None => Err (timed_out uri budget)
      | Some (Err e) => Err (Error_Internal ("Failed to connect to gRPC endpoint '" +:+ uri_text uri +:+ "': " +:+ e))
      | Some (Ok _) =>
          match at_nodelay attempt with
          | Err e => Err (Error_Internal ("Failed to disable Nagle's algorithm on the connection to '" +:+ uri_text uri +:+ "': " +:+ e))
          | Ok _ =>
              match at_handshake attempt with
              | None => Err (timed_out uri budget)
              | Some (Err e) => Err (Error_Internal ("TLS handshake with gRPC endpoint '" +:+ uri_text uri +:+ "' failed: " +:+ e))
              | Some (Ok _) => Ok target
              end
          end
      end
  end.

(** ** Reloads in flight *)

(** A reload that has read everything; whether its key is stored already. *)
Record IdentityFlight := mkIdentityFlight {
  if_key : CertifiedKey;
  if_verifier : list Anchor;
  if_key_stored : bool;
}.

Record Identity := mkIdentity {
  id_source : ClientIdentitySource;
  id_reads : nat;
  id_flight : list IdentityFlight;
}.

Inductive IdentityEvent :=
| IPrepare
| IStoreKey (k : nat)
| IStoreVerifier (k : nat).

Definition identity_step (e : IdentityEvent) (w : Identity) : option Identity :=
  match e with
  | IPrepare =>
      Some (match prepare_reload (cis_origin (id_source w)) (id_reads w) with
            | (Ok (key, verifier), n) => mkIdentity (id_source w) n (id_flight w ++ [mkIdentityFlight key verifier false])
            | (Err _, n) => mkIdentity (id_source w) n (id_flight w)
            end)
  | IStoreKey k =>
      fl ← id_flight w !! k;
      if if_key_stored fl then None
      else Some (mkIdentity (store_resolver (if_key fl) (id_source w)) (id_reads w)
                   (<[k := mkIdentityFlight (if_key fl) (if_verifier fl) true]> (id_flight w)))
  | IStoreVerifier k =>
      fl ← id_flight w !! k;
      if if_key_stored fl
      then Some (mkIdentity (store_verifier (if_verifier fl) (id_source w)) (id_reads w) (delete k (id_flight w)))
      else None
  end.

(** Without overlap, the three steps are the code's [reload]. *)
Lemma reload_identity_steps self n r self' n' :
  reload_identity (self, n) = (r, (self', n')) →
  after identity_step (match r with Ok _ => [IPrepare; IStoreKey 0; IStoreVerifier 0] | Err _ => [IPrepare] end)
    (mkIdentity self n []) = Some (mkIdentity self' n' []).
Proof.
  unfold reload_identity. cbn -[prepare_reload]. destruct (prepare_reload (cis_origin self) n) as [[[key v]|e] m] eqn:E;
    intros [= <- <- <-]; cbn -[prepare_reload]; by rewrite E.
Qed.

(** ** What is installed *)

(** A key that the files of the section gave: a chain that is not empty, with the
    key that belongs to it. *)
Definition key_ok (key : CertifiedKey) : Prop :=
  ck_chain key ≠ [] ∧ keys_match (ck_chain key) (ck_signing_key key) = Ok tt.

(** Anchors according to the section: the built-in ones unless they are excluded
    by a bundle, and the bundle's, which is not empty. *)
Definition anchors_ok (c : ClientIdentityConfig) (roots : list Anchor) : Prop :=
  match cid_root_ca_path c with
  | None => roots = TLS_SERVER_ROOTS
  | Some path =>
      ∃ n ca certs bundle, disk n path = Ok ca ∧ pem_certs ca = Ok certs ∧ add_anchors PEER_CA_ROLE path certs = Ok bundle ∧
        bundle ≠ [] ∧ roots = (if cid_exclusive_roots c then [] else TLS_SERVER_ROOTS) ++ bundle
  end.

Lemma certified_key_ok material c key :
  certified_key_from_material material c = Ok key → ck_chain key = im_chain material ∧ keys_match (ck_chain key) (ck_signing_key key) = Ok tt.
Proof.
  unfold certified_key_from_material. destruct provider_installed; [|done]. destruct (load_private_key _) as [sk|]; [|done].
  destruct (keys_match _ sk) as [[]|] eqn:E; [|done]. intros [= <-]. done.
Qed.

Lemma identity_material_ok c n material n' : load_identity_material c n = (Ok material, n') → im_chain material ≠ [].
Proof.
  unfold load_identity_material. intros (cert & n1 & _ & Hk)%bind_Ok. apply bind_Ok in Hk as (key & n2 & _ & Hk).
  apply bind_Ok in Hk as (chain & n3 & _ & Hk). destruct chain as [|c0 chain]; [done|].
  apply bind_Ok in Hk as (k & n4 & _ & Hk). apply bind_Ok in Hk as (ck & n5 & _ & Hk). by injection Hk as <- <-.
Qed.

Lemma load_root_store_ok path role n roots n' :
  load_root_store disk path role n = (Ok roots, n') →
  ∃ ca certs, disk n path = Ok ca ∧ pem_certs ca = Ok certs ∧ add_anchors role path certs = Ok roots ∧ roots ≠ [].
Proof.
  unfold load_root_store, bind, m_map_err, read, lift, map_err. destruct (disk n path) as [ca|]; [|done].
  destruct (pem_certs ca) as [[|c0 certs]|] eqn:E; [done| |done].
  destruct (add_anchors role path (c0 :: certs)) as [l|] eqn:Ea; [|done]. intros [= <- <-].
  exists ca, (c0 :: certs). split_and!; [done..|]. revert Ea. cbn. destruct (trust_anchor c0); [|done].
  destruct (add_anchors role path certs); [|done]. by intros [= <-].
Qed.

Lemma build_root_store_ok c n roots n' : build_root_store c n = (Ok roots, n') → anchors_ok c roots.
Proof.
  unfold build_root_store, anchors_ok. destruct (cid_root_ca_path c) as [path|]; [|by intros [= <- <-]].
  intros (bundle & n1 & (ca & certs & ? & ? & ? & ?)%load_root_store_ok & Hk)%bind_Ok. injection Hk as <- <-.
  exists n, ca, certs, bundle. by split_and!.
Qed.

Lemma peer_verifier_ok c n roots n' : build_peer_verifier c n = (Ok roots, n') → anchors_ok c roots.
Proof.
  unfold build_peer_verifier. intros (r & n1 & Hb & Hk)%bind_Ok. apply bind_Ok in Hk as (u & n2 & _ & Hk).
  injection Hk as <- <-. by eapply build_root_store_ok.
Qed.

Lemma prepare_reload_ok c n key roots n' : prepare_reload c n = (Ok (key, roots), n') → key_ok key ∧ anchors_ok c roots.
Proof.
  unfold prepare_reload. intros (m & n1 & Hm & Hk)%bind_Ok. apply bind_Ok in Hk as (k & n2 & Hc & Hk).
  apply bind_Ok in Hk as (v & n3 & Hv & Hk). injection Hk as <- <- <-. injection Hc as Hc _.
  apply certified_key_ok in Hc as [Hch ?]. split; [|by eapply peer_verifier_ok]. split; [|done].
  rewrite Hch. by eapply identity_material_ok.
Qed.

Definition identity_ok (c : ClientIdentityConfig) (w : Identity) : Prop :=
  cis_origin (id_source w) = c ∧ key_ok (cis_resolver (id_source w)) ∧ anchors_ok c (cis_verifier (id_source w)) ∧
  Forall (fun fl => key_ok (if_key fl) ∧ anchors_ok c (if_verifier fl)) (id_flight w).

Lemma identity_ok_step c e w w' : identity_ok c w → identity_step e w = Some w' → identity_ok c w'.
Proof.
  intros (Ho & Hk & Ha & Hf). destruct e as [|k|k]; cbn -[prepare_reload].
  - intros [= <-]. destruct (prepare_reload _ _) as [[[key v]|e] n] eqn:E; [|by split_and!].
    apply prepare_reload_ok in E as [? ?]. rewrite Ho in *. split_and!; [done..|]. cbn. apply Forall_app. split; [done|]. by apply Forall_singleton.
  - intros (fl & Hfl & Hs)%bind_Some. destruct (if_key_stored fl); [done|]. simplify_eq.
    pose proof (Forall_lookup_1 _ _ _ _ Hf Hfl) as [? ?]. split_and!; [done..|]. cbn. by apply Forall_insert.
  - intros (fl & Hfl & Hs)%bind_Some. destruct (if_key_stored fl); [|done]. simplify_eq.
    pose proof (Forall_lookup_1 _ _ _ _ Hf Hfl) as [? ?]. split_and!; [done..|]. cbn. by apply Forall_delete.
Qed.

Lemma from_config_prepare c n self n' :
  from_config c n = (Ok self, n') →
  cis_origin self = c ∧ prepare_reload c n = (Ok (cis_resolver self, cis_verifier self), n').
Proof.
  unfold from_config, prepare_reload. intros (m & n1 & Hm & Hk)%bind_Ok. apply bind_Ok in Hk as (k & n2 & Hc & Hk).
  apply bind_Ok in Hk as (v & n3 & Hv & Hk). apply bind_Ok in Hk as (cl & n4 & Hb & Hk). injection Hk as <- <-.
  injection Hb as _ <-. split; [done|]. unfold bind at 1. rewrite Hm. unfold bind at 1. rewrite Hc. unfold bind. by rewrite Hv.
Qed.

(** Reloads that do not overlap. *)
Definition identity_serial_step (e : IdentityEvent) (w : Identity) : option Identity :=
  match e, id_flight w with
  | IPrepare, _ :: _ => None
  | _, _ => identity_step e w
  end.

(** Between reloads, key and anchors were read by one reload. *)
Definition whole (c : ClientIdentityConfig) (key : CertifiedKey) (roots : list Anchor) : Prop :=
  ∃ n n', prepare_reload c n = (Ok (key, roots), n').

Definition paired (c : ClientIdentityConfig) (w : Identity) : Prop :=
  cis_origin (id_source w) = c ∧
  match id_flight w with
  | [] => whole c (cis_resolver (id_source w)) (cis_verifier (id_source w))
  | [fl] => whole c (if_key fl) (if_verifier fl) ∧
      if if_key_stored fl then cis_resolver (id_source w) = if_key fl
      else whole c (cis_resolver (id_source w)) (cis_verifier (id_source w))
  | _ => False
  end.

Lemma paired_step c e w w' : paired c w → identity_serial_step e w = Some w' → paired c w'.
Proof.
  intros [Ho Hp]. unfold identity_serial_step. destruct (id_flight w) as [|fl [|]] eqn:Ef; [| |done].
  - destruct e as [|k|k]; cbn -[prepare_reload]; rewrite ?Ef; [|done..]. intros [= <-].
    destruct (prepare_reload _ _) as [[[key v]|e] n] eqn:E; split; [done| |done|done]. cbn. split; [|done]. rewrite <- Ho. by exists (id_reads w), n.
  - destruct Hp as [Hw Hp]. destruct e as [|[|k]|[|k]]; cbn; rewrite ?Ef; try done; cbn.
    + destruct (if_key_stored fl); [done|]. intros [= <-]. by split.
    + destruct (if_key_stored fl); [|done]. intros [= <-]. split; [done|]. cbn. by rewrite Hp.
Qed.

(** C28: An identity is never lost or weakened. Whatever reloads are started, however
    they interleave and whatever the files hold: each handshake is answered with
    a certificate, whose chain is not empty and whose key belongs to it, and
    checks its peer against the anchors the section asks for, those of a bundle
    read from the section's path included and the built-in ones exactly when they
    are not excluded. A failed reload changes nothing. If reloads do not overlap,
    then between them certificate and anchors were read by one and the same
    reload. *)
Theorem client_identity_kept c n self n' :
  from_config c n = (Ok self, n') →
  (∀ w, reachable identity_step (mkIdentity self n' []) w →
    (∀ hints schemes, ∃ key, resolve (id_source w) hints schemes = Some key ∧ key_ok key) ∧
    anchors_ok c (cis_verifier (id_source w))) ∧
  (∀ self n e self' n', reload_identity (self, n) = (Err e, (self', n')) → self' = self) ∧
  (∀ w, reachable identity_serial_step (mkIdentity self n' []) w → id_flight w = [] →
    ∃ m m', prepare_reload c m = (Ok (cis_resolver (id_source w), cis_verifier (id_source w)), m')).
Proof.
  intros Hf. destruct (from_config_prepare _ _ _ _ Hf) as [Ho Hp]. split_and!.
  - intros w Hr. assert (identity_ok c w) as (_ & Hk & Ha & _).
    { eapply reachable_inv; [|intros; by eapply identity_ok_step|exact Hr].
      apply prepare_reload_ok in Hp as [? ?]. split_and!; [done..|constructor]. }
    split; [|done]. intros hints schemes. by eexists.
  - intros self0 m e self' m'. unfold reload_identity. destruct (prepare_reload (cis_origin self0) m) as [[[key v]|e0] m0]; [by intros [=]|]. by intros [= _ <- _].
  - intros w Hr Hnil. assert (paired c w) as [_ Hw]; [|rewrite Hnil in Hw; exact Hw].
    eapply reachable_inv; [|intros; by eapply paired_step|exact Hr]. split; [done|]. by exists n, n'.
Qed.

(** ** The three transports trust the same peers *)

Lemma material_content c (content : string → bytes) n m n' :
  (∀ n p, disk n p = Ok (content p)) → load_identity_material c n = (Ok m, n') →
  im_cert_pem m = content (cid_cert_path c) ∧ im_key_pem m = content (cid_key_path c).
Proof.
  intros Hd. unfold load_identity_material, m_map_err, read. intros (cert & n1 & Hc & Hk)%bind_Ok. rewrite Hd in Hc. cbn in Hc. simplify_eq.
  apply bind_Ok in Hk as (key & n2 & Hc & Hk). rewrite Hd in Hc. cbn in Hc. simplify_eq.
  apply bind_Ok in Hk as (chain & n3 & _ & Hk). destruct chain as [|c0 chain]; [done|].
  apply bind_Ok in Hk as (k & n4 & _ & Hk). apply bind_Ok in Hk as (ck & n5 & _ & Hk). by injection Hk as <- <-.
Qed.

Lemma bundle_content (content : string → bytes) path n pem n' :
  (∀ n p, disk n p = Ok (content p)) → read_validated_ca_bundle path n = (Ok pem, n') → pem = content path.
Proof.
  intros Hd. unfold read_validated_ca_bundle. intros (roots & n1 & _ & Hk)%bind_Ok. revert Hk.
  unfold m_map_err, read. rewrite Hd. by intros [= <- _].
Qed.

(** On files that do not change, the rustls configuration, the reqwest client and
    the tonic configuration agree on whether the built-in anchors count, and on
    the bundle they add to them. *)
Theorem transports_agree c (content : string → bytes) n rc n1 rb n2 tt n3 :
  (∀ m p, disk m p = Ok (content p)) →
  load_rustls_client_config c n = (Ok rc, n1) → reqwest_client_builder c n = (Ok rb, n2) → tonic_client_tls_config c n = (Ok tt, n3) →
  rb_identity rb = concat_identity_pem (content (cid_cert_path c)) (content (cid_key_path c)) ∧
  tt_identity tt = (content (cid_cert_path c), content (cid_key_path c)) ∧
  match cid_root_ca_path c with
  | None => cc_roots rc = TLS_SERVER_ROOTS ∧ rb_built_in_roots rb = true ∧ rb_roots rb = [] ∧
      tt_trust_anchors tt = TLS_SERVER_ROOTS ∧ tt_ca_certificate tt = None
  | Some path =>
      rb_built_in_roots rb = negb (cid_exclusive_roots c) ∧
      tt_trust_anchors tt = (if cid_exclusive_roots c then [] else TLS_SERVER_ROOTS) ∧
      tt_ca_certificate tt = Some (content path) ∧ reqwest_certificates_from_pem (content path) = Ok (rb_roots rb) ∧
      ∃ bundle certs, pem_certs (content path) = Ok certs ∧ add_anchors PEER_CA_ROLE path certs = Ok bundle ∧
        cc_roots rc = tt_trust_anchors tt ++ bundle
  end.
Proof.
  intros Hd Hrc Hrb Htt.
  apply bind_Ok in Hrc as (m1 & k1 & _ & Hk). apply bind_Ok in Hk as (roots & k2 & Hroots & Hk).
  apply bind_Ok in Hk as (u & k3 & _ & Hk). injection Hk as <- _. cbn [cc_roots].
  apply bind_Ok in Hrb as (id & j1 & Hid & Hrb). apply bind_Ok in Hid as (m2 & j2 & Hm2 & Hid).
  apply bind_Ok in Hid as (u2 & j3 & _ & Hid). injection Hid as <- _.
  apply bind_Ok in Htt as (m3 & i1 & Hm3 & Htt).
  destruct (material_content _ _ _ _ _ Hd Hm2) as [E3 E4], (material_content _ _ _ _ _ Hd Hm3) as [E1 E2].
  rewrite E1, E2 in Htt. rewrite E3, E4 in Hrb.
  unfold build_root_store in Hroots. destruct (cid_root_ca_path c) as [path|].
  2: { injection Hrb as <- _. injection Htt as <- _. injection Hroots as <- _. by split_and!. }
  apply bind_Ok in Hrb as (pem & j4 & Hpem & Hrb). apply bind_Ok in Hrb as (certs & j5 & Hcerts & Hrb). injection Hrb as <- _.
  apply bind_Ok in Htt as (pem' & i2 & Hpem' & Htt). injection Htt as <- _.
  apply (bundle_content content) in Hpem as ->; [|done]. apply (bundle_content content) in Hpem' as ->; [|done].
  injection Hcerts as Hcerts _. apply map_err_Ok in Hcerts.
  apply bind_Ok in Hroots as (bundle & k4 & (ca & cs & Hca & ? & ? & _)%load_root_store_ok & Hk). injection Hk as <- _.
  rewrite Hd in Hca. injection Hca as <-. split_and!; try done. by exists bundle, cs.
Qed.
End ClientTls.

(** ** The joined buffer *)

(** The lines of a buffer: what stands between newlines, and a last line only
    when something stands after the last newline. *)
Fixpoint lines_of (current : bytes) (bs : bytes) : list bytes :=
  match bs with
  | [] => match current with [] => [] | _ => [current] end
  | b :: bs => if bool_decide (b = NEWLINE) then current :: lines_of [] bs else lines_of (current ++ [b]) bs
  end.

Definition pem_lines (bs : bytes) : list bytes := lines_of [] bs.

Lemma lines_of_app_newline a bs : ∀ cur, lines_of cur (a ++ NEWLINE :: bs) = lines_of cur (a ++ [NEWLINE]) ++ lines_of [] bs.
Proof.
  induction a as [|b a IH]; intros cur; cbn; [by rewrite bool_decide_true|]. case_bool_decide; [|done]. cbn. by rewrite IH.
Qed.

Lemma lines_of_unfinished a : ∀ cur, last (cur ++ a) ≠ Some NEWLINE → cur ++ a ≠ [] → last a ≠ Some NEWLINE →
  lines_of cur (a ++ [NEWLINE]) = lines_of cur a.
Proof.
  induction a as [|b a IH]; intros cur Hl Hne Ha; cbn.
  - rewrite bool_decide_true by done. rewrite app_nil_r in Hne. by destruct cur.
  - case_bool_decide as Hb.
    + f_equal. subst b. destruct a as [|b' a]; [done|]. apply IH; [done..|].
      by rewrite last_cons in Ha; destruct (last (b' :: a)).
    + destruct a as [|b' a]; [cbn; rewrite (bool_decide_true _ eq_refl); by destruct cur|].
      apply IH.
      * by rewrite <- app_assoc.
      * by destruct cur.
      * by rewrite last_cons in Ha; destruct (last (b' :: a)).
Qed.

(** The two files are joined line by line: whether or not the certificate file
    ends with a newline, no line of it runs into the key's. *)
Theorem concat_identity_lines cert key :
  cert ≠ [] → pem_lines (concat_identity_pem cert key) = pem_lines cert ++ pem_lines key.
Proof.
  intros Hne. unfold pem_lines, concat_identity_pem, ends_with_newline. case_bool_decide as Hl; cbn.
  - apply last_Some in Hl as [a ->]. rewrite <- app_assoc. cbn. apply lines_of_app_newline.
  - rewrite lines_of_app_newline. f_equal. by apply lines_of_unfinished.
Qed.

Lemma concat_identity_lines_witness :
  pem_lines (concat_identity_pem (str_bytes "END CERTIFICATE") (str_bytes "BEGIN KEY")) = [str_bytes "END CERTIFICATE"; str_bytes "BEGIN KEY"].
Proof. apply (concat_identity_lines (str_bytes "END CERTIFICATE") (str_bytes "BEGIN KEY")). discriminate. Defined.

(** ** Where a channel connects *)

Section Target.
Context `{ClientTlsEnv}.

(** The certificate is checked for the very host that is dialled; the brackets of
    an IPv6 literal belong to neither. *)
Theorem dialled_host_is_verified uri budget attempt host port name :
  connect_tls uri budget attempt = Ok (host, port, name) →
  server_name_try_from host = Ok name ∧
  ∃ h, uri_host uri = Some h ∧ host = connect_host h ∧ port = default 443 (uri_port uri).
Proof.
  unfold connect_tls, connect_tls_target, resolve_target. destruct (uri_host uri) as [h|]; [|done].
  destruct (server_name_try_from (connect_host h)) as [sn|] eqn:E; [|done].
  destruct (at_tcp attempt) as [[]|]; [|done..]. destruct (at_nodelay attempt); [|done].
  destruct (at_handshake attempt) as [[]|]; [|done..]. intros [= <- <- <-]. eauto.
Qed.

Lemma connect_host_ipv6 (inner : string) : connect_host ("[" +:+ inner +:+ "]") = inner.
Proof.
  unfold connect_host. rewrite strip_prefix_app. cbn. unfold strip_suffix_char, str_bytes.
  assert (String.list_ascii_of_string (inner +:+ "]") = String.list_ascii_of_string inner ++ ["]"%char]) as ->.
  { induction inner as [|a i IH]; [done|]. rewrite <- string_cons_app. cbn. by rewrite IH. }
  rewrite rev_app_distr. cbn. rewrite rev_involutive. apply String.string_of_list_ascii_of_string.
Qed.

(** A channel is made for [https] only, offers HTTP/2 only, and its bound is not zero. *)
Theorem grpc_channel_bounded self endpoint connector :
  grpc_channel self endpoint = Ok connector →
  uri_scheme endpoint = Some "https" ∧ rtc_alpn_protocols connector = ["h2"] ∧ 0 < rtc_connect_timeout connector.
Proof.
  unfold grpc_channel. case_bool_decide; [|done]. intros [= <-]. split_and!; [done..|]. cbn. unfold connect_timeout, filter_opt.
  destruct (cid_connect_timeout_secs (cis_origin self)) as [t|]; cbn; [|done]. case_bool_decide; cbn; [lia|done].
Qed.

(** *** Behaviour that looks unintended *)

(** The configured connect timeout bounds gRPC channels and nothing else: the
    HTTP client the source hands out has none. *)
Lemma http_client_unbounded disk c n self n' : from_config disk c n = (Ok self, n') → hc_connect_timeout (cis_client self) = None.
Proof.
  unfold from_config. intros (m & n1 & _ & Hk)%bind_Ok. apply bind_Ok in Hk as (k & n2 & _ & Hk).
  apply bind_Ok in Hk as (v & n3 & _ & Hk). apply bind_Ok in Hk as (cl & n4 & Hb & Hk). injection Hk as <- _. cbn.
  injection Hb as Hb _. unfold build_client in Hb. destruct reqwest_client_builds; [|done]. by injection Hb as <-.
Qed.

(** A bundle is read a second time after it was validated, and that second
    content is what is handed on. *)
Lemma bundle_used_is_not_the_one_validated disk path n pem n' :
  read_validated_ca_bundle disk path n = (Ok pem, n') → disk (S n) path = Ok pem.
Proof.
  unfold read_validated_ca_bundle. intros (roots & n1 & Hl & Hk)%bind_Ok.
  assert (n1 = S n) as ->.
  { revert Hl. unfold load_root_store, bind, m_map_err, read, lift, fail, map_err. destruct (disk n path) as [ca|]; [|done].
    destruct (pem_certs ca) as [[|]|]; [done| |done]. by intros [= _ <-]. }
  revert Hk. unfold m_map_err, read. destruct (disk (S n) path); [|done]. by intros [= <- _].
Qed.

(** Between its two stores, a reload shows the new certificate with the old anchors. *)
Lemma half_applied_is_observable disk self n key roots n' :
  prepare_reload disk (cis_origin self) n = (Ok (key, roots), n') →
  ∃ w, after (identity_step disk) [IPrepare; IStoreKey 0] (mkIdentity self n []) = Some w ∧
    cis_resolver (id_source w) = key ∧ cis_verifier (id_source w) = cis_verifier self.
Proof. intros Hp. cbn -[prepare_reload]. rewrite Hp. eexists. split_and!; reflexivity. Qed.
End Target.

(** ** Example *)

Module ClientTlsExample.

#[global] Instance client_example_tls : TlsEnv := {|
  Anchor := bytes;
  pem_certs bs := Ok (match bs with [] => [] | _ => [bs] end);
  pem_key bs := Ok bs;
  trust_anchor bs := Ok bs;
  client_verifier_builds _ := Ok tt;
  single_cert _ _ := Ok tt;
  hasher_finish _ := 0;
|}.

(** A key belongs to the certificate with the same bytes. *)
#[global] Instance client_example_env : ClientTlsEnv := {|
  SigningKey := bytes;
  ServerName := string;
  provider_installed := true;
  load_private_key bs := Ok bs;
  keys_match chain key := if bool_decide (head chain = Some key) then Ok tt else Err "mismatch";
  TLS_SERVER_ROOTS := [str_bytes "public"];
  server_verifier_builds _ := Ok tt;
  client_auth_cert _ _ := Ok tt;
  reqwest_identity_from_pem _ := Ok tt;
  reqwest_certificates_from_pem bs := Ok [bs];
  reqwest_client_builds := Ok tt;
  server_name_try_from s := Ok s;
|}.

Definition identity : ClientIdentityConfig := mkClientIdentityConfig true "cert" "key" (Some "ca") true None.

(** The pair is rotated between the fifth and the sixth read. *)
Definition disk (n : nat) (p : string) : result bytes string :=
  Ok (str_bytes (if String.eqb p "ca" then "ca" else if (n <? 5)%nat then "A" else "B")).

Definition source : ClientIdentitySource :=
  mkClientIdentitySource (mkHttpClient HTTP_ALPN None) (mkCertifiedKey [str_bytes "A"] (str_bytes "A" : SigningKey)) [str_bytes "ca" : Anchor] identity.

Lemma source_made : from_config disk identity 0%nat = (Ok source, 3%nat).
Proof. vm_compute. reflexivity. Qed.
End ClientTlsExample.

Lemma client_identity_kept_witness :
  anchors_ok ClientTlsExample.disk ClientTlsExample.identity [str_bytes "ca" : Anchor] ∧
  ∃ m m', prepare_reload ClientTlsExample.disk ClientTlsExample.identity m =
    (Ok (cis_resolver ClientTlsExample.source, [str_bytes "ca" : Anchor]), m').
Proof.
  destruct (client_identity_kept ClientTlsExample.disk ClientTlsExample.identity 0%nat ClientTlsExample.source 3%nat
    ClientTlsExample.source_made) as (H1 & _ & H3).
  split.
  - apply (H1 (mkIdentity ClientTlsExample.source 3%nat [])). apply reach_init.
  - apply (H3 (mkIdentity ClientTlsExample.source 3%nat [])); [apply reach_init|reflexivity].
Defined.
