(* ===== verification/Syslog.v ===== *)
(** * Audit export to syslog

    [audit/syslog.rs]: the RFC 5424 line of an event and how it is sent. The
    reader below is the receiving side as the format defines it; with it, a line
    is shown to carry every input of the chain's hash. The text of a [Uuid] and
    of the header's timestamp are the class [SyslogEnv]. *)

From stdpp Require Import pretty.
From S2P Require Import Prelude FrameworkError AuditEvent AuditChain Text.

Local Open Scope string_scope.
Local Open Scope Z_scope.
Local Open Scope list_scope.

Class SyslogEnv := {
  (** [Display for Uuid]. *)
  uuid_text : bytes → string;
  (** [timestamp.format(..)] of the header. *)
  format_timestamp : Z → string;
  (** [str::parse::<SocketAddr>]. *)
  parse_socket_addr : string → result string string;
}.

(** The documented form of a [Uuid] (hexadecimal digits and hyphens, one text per
    value) and of the timestamp. *)
Class SyslogLaws `{SyslogEnv} := {
  uuid_chars id : str_forallb (fun c => is_hex c || Ascii.eqb c "-") (uuid_text id) = true;
  uuid_text_inj id id' : length id = 16%nat → length id' = 16%nat → uuid_text id = uuid_text id' → id = id';
  timestamp_word t : has_char " " (format_timestamp t) = false;
}.

Record SyslogConfig := mkSyslogConfig {
  sy_transport : string;
  sy_address : string;
  sy_facility : Z;            (* u8 *)
  sy_app_name : option string;
}.

Inductive SyslogTransport := Udp | Tcp.

Record SyslogSender := mkSyslogSender {
  sn_address : string;
  sn_facility : Z;
  sn_app_name : string;
  sn_transport : SyslogTransport;
}.

(** [escape_sd_value]. *)
Definition BACKSLASH : ascii := Ascii.ascii_of_nat 92.

Definition escape_sd_value (s : string) : string :=
  replace "]" (String BACKSLASH "]") (replace DQ (String BACKSLASH QUOTE) (replace BACKSLASH (String BACKSLASH (String BACKSLASH "")) s)).

Section Syslog.
Context `{ChainEnv} `{SyslogEnv}.

Definition sender_new (config : SyslogConfig) : result SyslogSender string :=
  match parse_socket_addr (sy_address config) with
  | Err e => Err e
  | Ok address =>
      Ok (mkSyslogSender address (sy_facility config) (default "acton" (sy_app_name config))
        (if String.eqb (sy_transport config) "tcp" then Tcp else Udp))
  end.

(** The parameters of an event, in the order of the line: name and value. *)
Definition opt_param {A} (name : string) (f : A → string) (o : option A) : list (string * string) :=
  match o with Some a => [(name, f a)] | None => [] end.

Definition sd_params (event : AuditEvent) : list (string * string) :=
  [("event_id", uuid_text (ev_id event));
   ("ts", to_rfc3339 (ev_timestamp event));
   ("kind", kind_to_string (ev_kind event));
   ("severity", pretty (as_syslog_severity (ev_severity event)));
   ("service", ev_service_name event)] ++
  opt_param "src_ip" id (src_ip (ev_source event)) ++
  opt_param "ua" id (src_user_agent (ev_source event)) ++
  opt_param "subject" id (src_subject (ev_source event)) ++
  opt_param "request_id" id (src_request_id (ev_source event)) ++
  opt_param "method" id (ev_method event) ++
  opt_param "path" id (ev_path event) ++
  opt_param "status" pretty (ev_status_code event) ++
  opt_param "duration_ms" pretty (ev_duration_ms event) ++
  opt_param "metadata" canonical_json (ev_metadata event) ++
  opt_param "prev_hash" id (ev_previous_hash event) ++
  opt_param "hash" id (ev_hash event) ++
  [("seq", pretty (ev_sequence event))].

(** Which values the code prints as they are. *)
Definition unescaped (name : string) : bool :=
  existsb (String.eqb name) ["event_id"; "severity"; "status"; "duration_ms"; "seq"].

Definition render_param (p : string * string) : string :=
  p.1 +:+ "=" +:+ QUOTE +:+ (if unescaped p.1 then p.2 else escape_sd_value p.2) +:+ QUOTE.

Definition pri (self : SyslogSender) (event : AuditEvent) : Z :=
  sn_facility self * 8 + as_syslog_severity (ev_severity event).

Definition format_rfc5424 (self : SyslogSender) (event : AuditEvent) : string :=
  let structured_data := "[audit@49610 " +:+ join " " (map render_param (sd_params event)) +:+ "]" in
  let msg := kind_to_string (ev_kind event) +:+ " seq=" +:+ pretty (ev_sequence event) in
  "<" +:+ pretty (pri self event) +:+ ">1 " +:+ format_timestamp (ev_timestamp event) +:+ " " +:+
  ev_service_name event +:+ " " +:+ sn_app_name self +:+ " - " +:+ kind_to_string (ev_kind event) +:+ " " +:+
  structured_data +:+ " " +:+ msg.

(** [send]: what goes out, if the socket does its part. *)
Inductive Sent := Datagram (address : string) (payload : bytes) | Stream (address : string) (payload : bytes).

Definition send_syslog (self : SyslogSender) (event : AuditEvent) (io : result unit string) : result Sent string :=
  let message := format_rfc5424 self event in
  match io with
  | Err e => Err e
  | Ok _ =>
      Ok (match sn_transport self with
          | Udp => Datagram (sn_address self) (str_bytes message)
          | Tcp => Stream (sn_address self) (str_bytes (message +:+ String (Ascii.ascii_of_nat 10) ""))
          end)
  end.
End Syslog.

(** ** The receiving side *)

(** The value of a parameter: up to the first quote that no backslash precedes. *)
Fixpoint read_value (s : string) : option (string * string) :=
  match s with
  | EmptyString => None
  | String c s =>
      if Ascii.eqb c DQ then Some ("", s)
      else if Ascii.eqb c BACKSLASH then
        match s with
        | EmptyString => None
        | String d s => match read_value s with Some (v, rest) => Some (String d v, rest) | None => None end
        end
      else match read_value s with Some (v, rest) => Some (String c v, rest) | None => None end
  end.

(** Parameters up to the closing bracket. *)
Fixpoint read_params (fuel : nat) (s : string) : option (list (string * string)) :=
  match fuel with
  | O => None
  | S fuel =>
      '(name, s) ← split_once "=" s;
      s ← strip_prefix QUOTE s;
      '(value, s) ← read_value s;
      match s with
      | String c s =>
          if Ascii.eqb c "]" then Some [(name, value)]
          else if Ascii.eqb c " " then ps ← read_params fuel s; Some ((name, value) :: ps)
          else None
      | EmptyString => None
      end
  end.

(** A line: six words of header, then the structured data. *)
Definition read_line (s : string) : option (list (string * string)) :=
  '(_, s) ← split_once " " s;
  '(_, s) ← split_once " " s;
  '(_, s) ← split_once " " s;
  '(_, s) ← split_once " " s;
  '(_, s) ← split_once " " s;
  '(_, s) ← split_once " " s;
  s ← strip_prefix "[audit@49610 " s;
  read_params (String.length s) s.

(** ** Escaping *)

Definition special (a : ascii) : bool := Ascii.eqb a BACKSLASH || Ascii.eqb a DQ || Ascii.eqb a "]".

Definition esc_char (a : ascii) : string := if special a then String BACKSLASH (String a "") else String a "".

Lemma escape_cons a s : escape_sd_value (String a s) = esc_char a +:+ escape_sd_value s.
Proof.
  unfold escape_sd_value.
  rewrite (replace_app BACKSLASH (String BACKSLASH (String BACKSLASH "")) (String a "") s : replace _ _ (String a s) = _).
  rewrite !replace_app. f_equal. destruct a as [[] [] [] [] [] [] [] []]; reflexivity.
Qed.

Lemma read_value_escape v rest : read_value (escape_sd_value v +:+ String DQ rest) = Some (v, rest).
Proof.
  induction v as [|a v IH]; [reflexivity|]. rewrite escape_cons, string_app_assoc. unfold esc_char.
  destruct (special a) eqn:E.
  - change (String BACKSLASH (String a "") +:+ ?x) with (String BACKSLASH (String a x)). cbn [read_value].
    change (Ascii.eqb BACKSLASH DQ) with false. change (Ascii.eqb BACKSLASH BACKSLASH) with true. cbn iota. by rewrite IH.
  - change (String a "" +:+ ?x) with (String a x). cbn [read_value].
    apply orb_false_iff in E as [[E1 E2]%orb_false_iff _]. by rewrite E1, E2, IH.
Qed.

Lemma escape_plain v : str_forallb (fun c => negb (special c)) v = true → escape_sd_value v = v.
Proof.
  induction v as [|a v IH]; [done|]. cbn [str_forallb]. intros [Ha Hv]%andb_true_iff. rewrite escape_cons, (IH Hv).
  unfold esc_char. by rewrite (proj1 (negb_true_iff _) Ha).
Qed.

Lemma pretty_go_digits x : ∀ s, str_forallb is_digit s = true → str_forallb is_digit (pretty_N_go x s) = true.
Proof.
  induction (N.lt_wf_0 x) as [x _ IH]; intros s Hs. assert (x = 0 ∨ 0 < x)%N as [->|Hx] by lia; [by rewrite pretty_N_go_0|].
  rewrite pretty_N_go_step by done. apply IH; [by apply N.div_lt|]. cbn [str_forallb]. rewrite Hs, andb_true_r.
  unfold pretty_N_char. by repeat case_match.
Qed.

Definition numeral (c : ascii) : bool := is_digit c || Ascii.eqb c "-".

Lemma pretty_numeral (z : Z) : str_forallb numeral (pretty z) = true.
Proof.
  assert (∀ n : N, str_forallb numeral (pretty n) = true) as HN.
  { intros n. apply (str_forallb_impl is_digit); [intros c Hc; unfold numeral; by rewrite Hc|].
    unfold pretty, pretty_N. case_decide; [done|]. by apply pretty_go_digits. }
  destruct z as [|p|p]; [done|apply (HN (Npos p))|]. change (pretty (Zneg p)) with ("-" +:+ pretty (Npos p)).
  change ("-" +:+ pretty (Npos p)) with (String "-" (pretty (Npos p))). cbn [str_forallb]. by rewrite HN.
Qed.

Lemma numeral_plain s : str_forallb numeral s = true → str_forallb (fun c => negb (special c)) s = true.
Proof. apply str_forallb_impl. by intros [[] [] [] [] [] [] [] []]. Qed.

Lemma numeral_word s : str_forallb numeral s = true → has_char " " s = false.
Proof.
  intros Hs. unfold has_char. apply negb_false_iff. revert Hs. apply str_forallb_impl. by intros [[] [] [] [] [] [] [] []].
Qed.

(** ** A line reads back *)

(** Two plain values need no escaping: numbers and ids. *)
Definition plain_value (p : string * string) : Prop :=
  unescaped p.1 = true → escape_sd_value p.2 = p.2.

Definition param_ok (p : string * string) : Prop := has_char "=" p.1 = false ∧ plain_value p.

Lemma render_param_eq p : plain_value p → render_param p = p.1 +:+ "=" +:+ QUOTE +:+ escape_sd_value p.2 +:+ QUOTE.
Proof. unfold render_param, plain_value. destruct (unescaped p.1); [|done]. intros E. by rewrite E. Qed.

Lemma read_param_step name value rest : has_char "=" name = false →
  ∃ s1, split_once "=" ((name +:+ "=" +:+ QUOTE +:+ escape_sd_value value +:+ QUOTE) +:+ rest) = Some (name, s1) ∧
    (strip_prefix QUOTE s1 ≫= read_value) = Some (value, rest).
Proof.
  intros Hn. exists (QUOTE +:+ (escape_sd_value value +:+ (QUOTE +:+ rest))). split.
  - rewrite !string_app_assoc. change ("=" +:+ ?x) with (String "=" x). by apply split_once_app.
  - rewrite strip_prefix_app. cbn [mbind option_bind]. change (QUOTE +:+ rest) with (String DQ rest). apply read_value_escape.
Qed.

Lemma read_params_join p ps : ∀ fuel rest, Forall param_ok (p :: ps) → (length (p :: ps) ≤ fuel)%nat →
  read_params fuel (join " " (map render_param (p :: ps)) +:+ String "]" rest) = Some (p :: ps).
Proof.
  revert p. induction ps as [|q ps IH]; intros [name value] fuel rest Hok Hf;
    apply Forall_cons in Hok as [[Hn Hp] Hok]; destruct fuel as [|fuel]; [cbn in Hf; lia| |cbn in Hf; lia|]; cbn [fst snd] in *.
  - change (join " " (map render_param [(name, value)])) with (render_param (name, value)). rewrite (render_param_eq _ Hp).
    cbn [fst snd]. destruct (read_param_step name value (String "]" rest) Hn) as (s1 & E1 & E2).
    cbn [read_params]. rewrite E1. cbn [mbind option_bind]. destruct (strip_prefix QUOTE s1); [|done]. cbn in E2 |- *. by rewrite E2.
  - cbn [map]. rewrite join_cons by done. rewrite (render_param_eq _ Hp). cbn [fst snd]. rewrite string_app_assoc.
    destruct (read_param_step name value ((" " +:+ join " " (map render_param (q :: ps))) +:+ String "]" rest) Hn) as (s1 & E1 & E2).
    cbn [read_params]. cbn [map] in E1, E2 |- *. rewrite E1. cbn [mbind option_bind]. destruct (strip_prefix QUOTE s1) as [s2|]; [|done].
    cbn [mbind option_bind] in E2 |- *. rewrite E2. rewrite string_app_assoc. change (" " +:+ ?x) with (String " " x).
    cbn [mbind option_bind]. change (Ascii.eqb " " "]") with false. change (Ascii.eqb " " " ") with true. cbn iota.
    change (render_param q :: map render_param ps) with (map render_param (q :: ps)).
    rewrite (IH q fuel rest); [done|done|cbn in Hf |- *; lia].
Qed.

Lemma length_join_params ps : Forall (fun s => s ≠ "") ps → (length ps ≤ S (String.length (join " " ps)))%nat.
Proof.
  induction 1 as [|s ps Hs _ IH]; [cbn; lia|]. destruct ps as [|t ps]; [cbn; lia|]. rewrite join_cons by done.
  rewrite !length_string_app. cbn [length String.length] in *. lia.
Qed.

Lemma render_nonempty p : render_param p ≠ "".
Proof. unfold render_param. destruct p as [[|a n] v]; discriminate. Qed.

Section Lines.
Context `{ChainEnv} `{SyslogLaws}.

Lemma sd_params_ok event : Forall param_ok (sd_params event).
Proof.
  assert (∀ z : Z, escape_sd_value (pretty z) = pretty z) as Hz by (intros z; apply escape_plain, numeral_plain, pretty_numeral).
  assert (escape_sd_value (uuid_text (ev_id event)) = uuid_text (ev_id event)) as Hid.
  { apply escape_plain. eapply str_forallb_impl; [|apply uuid_chars]. by intros [[] [] [] [] [] [] [] []]. }
  assert (∀ A name (f : A → string) o, has_char "=" name = false → (∀ a, unescaped name = true → escape_sd_value (f a) = f a) →
    Forall param_ok (opt_param name f o)) as Hopt.
  { intros A name f [a|] Hn Hf; cbn; [|constructor]. apply Forall_singleton. split; [done|]. intros Hu. by apply Hf. }
  unfold sd_params. repeat apply Forall_app_2; try (apply Hopt; [reflexivity|intros a Hu; first [discriminate Hu|apply Hz]]);
    repeat constructor; first [reflexivity|intros Hu; first [discriminate Hu|apply Hz|apply Hid]].
Qed.

(** The header's words must be words. *)
Definition header_ok (s : SyslogSender) (event : AuditEvent) : Prop :=
  has_char " " (ev_service_name event) = false ∧ has_char " " (sn_app_name s) = false ∧
  has_char " " (kind_to_string (ev_kind event)) = false.

Lemma split_word_sp w rest : has_char " " w = false → split_once " " (w +:+ " " +:+ rest) = Some (w, rest).
Proof. intros Hw. change (" " +:+ rest) with (String " " rest). by apply split_once_app. Qed.

Lemma has_char_app c s t : has_char c (s +:+ t) = has_char c s || has_char c t.
Proof. unfold has_char. by rewrite str_forallb_app, negb_andb. Qed.

Lemma read_line_words w1 w2 w3 w4 w5 w6 rest :
  Forall (fun w => has_char " " w = false) [w1; w2; w3; w4; w5; w6] →
  read_line (w1 +:+ " " +:+ w2 +:+ " " +:+ w3 +:+ " " +:+ w4 +:+ " " +:+ w5 +:+ " " +:+ w6 +:+ " " +:+ rest) =
  (strip_prefix "[audit@49610 " rest ≫= fun s => read_params (String.length s) s).
Proof.
  rewrite !Forall_cons. intros (? & ? & ? & ? & ? & ? & _). unfold read_line.
  do 6 (rewrite split_word_sp by done; cbn [mbind option_bind]). done.
Qed.

Lemma read_line_format s event : header_ok s event → read_line (format_rfc5424 s event) = Some (sd_params event).
Proof.
  intros (Hs & Ha & Hk).
  set (rest := "[audit@49610 " +:+ (join " " (map render_param (sd_params event)) +:+
    String "]" (" " +:+ kind_to_string (ev_kind event) +:+ " seq=" +:+ pretty (ev_sequence event)))).
  transitivity (read_line (("<" +:+ pretty (pri s event) +:+ ">1") +:+ " " +:+ format_timestamp (ev_timestamp event) +:+ " " +:+
    ev_service_name event +:+ " " +:+ sn_app_name s +:+ " " +:+ "-" +:+ " " +:+ kind_to_string (ev_kind event) +:+ " " +:+ rest)).
  { f_equal. unfold format_rfc5424, rest. rewrite !string_app_assoc. reflexivity. }
  rewrite read_line_words.
  - unfold rest. rewrite strip_prefix_app. cbn [mbind option_bind]. pose proof (sd_params_ok event) as Hok.
    destruct (sd_params event) as [|p ps] eqn:E; [done|]. apply read_params_join; [done|].
    pose proof (length_join_params (map render_param (p :: ps))) as Hl. rewrite length_map in Hl.
    rewrite length_string_app. cbn [String.length]. etrans; [apply Hl|lia].
    apply Forall_forall. intros x (q & -> & _)%list_elem_of_fmap. apply render_nonempty.
  - repeat apply Forall_cons_2; try done; [|apply timestamp_word].
    rewrite !has_char_app, (numeral_word _ (pretty_numeral _)). done.
Qed.

(** ** A line carries the hash's inputs *)

Lemma assoc_opt_ne {A} k name (f : A → string) o l : String.eqb k name = false → assoc k (opt_param name f o ++ l) = assoc k l.
Proof. intros E. destruct o; cbn; by rewrite ?E. Qed.

Lemma assoc_opt_eq {A} name (f : A → string) o l :
  assoc name (opt_param name f o ++ l) = match o with Some a => Some (f a) | None => assoc name l end.
Proof. destruct o; cbn; by rewrite ?String.eqb_refl. Qed.

Lemma same_opt {A} (f : A → string) (o o' : option A) :
  match o with Some a => Some (f a) | None => None end = match o' with Some a => Some (f a) | None => None end → f <$> o = f <$> o'.
Proof. by destruct o, o'. Qed.

Lemma fmap_id_eq {A} (o o' : option A) : id <$> o = id <$> o' → o = o'.
Proof. destruct o, o'; cbn; congruence. Qed.

Lemma fmap_pretty_eq (o o' : option Z) : pretty <$> o = pretty <$> o' → o = o'.
Proof. destruct o, o'; cbn; intros Heq; simplify_eq; [f_equal; by apply (inj pretty)|done]. Qed.

(** Look a parameter up in both. *)
Ltac same_param name H :=
  let E := fresh "E" in
  pose proof (f_equal (assoc name) H) as E; unfold sd_params in E; cbn [app assoc] in E;
  repeat first [rewrite assoc_opt_ne in E by reflexivity | rewrite assoc_opt_eq in E];
  cbn [assoc] in E; lazy beta iota delta [String.eqb Ascii.eqb Bool.eqb] in E; try (apply same_opt in E).

Lemma sd_params_determine e e' :
  length (ev_id e) = 16%nat → length (ev_id e') = 16%nat → sd_params e = sd_params e' →
  hash_fields_v2 e = hash_fields_v2 e' ∧ recompute_hash e = recompute_hash e' ∧ ev_hash e = ev_hash e' ∧
  ev_previous_hash e = ev_previous_hash e' ∧ ev_sequence e = ev_sequence e'.
Proof.
  intros Hl Hl' Hp.
  same_param "event_id" Hp. same_param "ts" Hp. same_param "kind" Hp. same_param "severity" Hp. same_param "service" Hp.
  same_param "src_ip" Hp. same_param "ua" Hp. same_param "subject" Hp. same_param "request_id" Hp. same_param "method" Hp.
  same_param "path" Hp. same_param "status" Hp. same_param "duration_ms" Hp. same_param "metadata" Hp.
  same_param "prev_hash" Hp. same_param "hash" Hp. same_param "seq" Hp.
  apply fmap_id_eq in E4, E5, E6, E7, E8, E9, E13, E14. apply fmap_pretty_eq in E10, E11.
  injection E as Eid. apply uuid_text_inj in Eid; [|done..]. injection E0 as Ets. injection E1 as Ekind. injection E3 as Esvc.
  injection E2 as Esev%(inj pretty). injection E15 as Eseq%(inj pretty).
  split_and!; [| |done..].
  - unfold hash_fields_v2. rewrite Eid, Ets, Ekind, Esev, Esvc, E4, E5, E6, E7, E8, E9, E10, E11, E13, Eseq.
    by rewrite !option_fmap_compose, E12.
  - unfold recompute_hash, compute_hash_v2, hash_input_v2, compute_hash_v1, hash_fields_v2.
    rewrite E14, Eid, Ets, Ekind, Esev, Esvc, E4, E5, E6, E7, E8, E9, E10, E11, E13, Eseq.
    by rewrite !option_fmap_compose, E12.
Qed.

Lemma map_Some_inj {A B} (g : A → B) l : ∀ l', map (fun x => Some (g x)) l = map (fun x => Some (g x)) l' → map g l = map g l'.
Proof. induction l as [|x l IH]; intros [|y l']; cbn; [done..|]. intros [= E1 E2]. by rewrite E1, (IH l'). Qed.

Lemma verify_from_params es : ∀ es' prev, Forall (fun e => length (ev_id e) = 16%nat) es → Forall (fun e => length (ev_id e) = 16%nat) es' →
  map sd_params es = map sd_params es' → verify_from prev es = verify_from prev es'.
Proof.
  induction es as [|e es IH]; intros [|e' es'] prev Hl Hl' Hp; [done..|]. cbn [map] in Hp. apply cons_eq_inv in Hp as [Hp Hps].
  apply Forall_cons in Hl as [? ?], Hl' as [? ?].
  destruct (sd_params_determine e e') as (_ & Er & Eh & Ep & Es); [done..|]. cbn. rewrite Er, Eh, Ep, Es.
  repeat case_decide; [|done..]. by apply IH.
Qed.

(** C29: The syslog messages are enough to verify the chain, as long as each is
    received whole and host, application name and event kind hold no blank
    ([header_ok]; [custom_kind_breaks_header] and, for the framing on TCP,
    [newline_forges_record] show that this is needed). The messages of such events
    read back as their parameters, whatever the parameters' values hold; events
    rebuilt from the parameters that were read, knowing nothing else, get the
    verdict of the original chain, to the place of the first break; and so do any
    such events with the same messages. *)
Theorem syslog_lines_verify s es :
  Forall (header_ok s) es → Forall (fun e => length (ev_id e) = 16%nat) es →
  map (fun e => read_line (format_rfc5424 s e)) es = map (fun e => Some (sd_params e)) es ∧
  ∀ es', Forall (fun e => length (ev_id e) = 16%nat) es' →
    map (fun e => Some (sd_params e)) es' = map (fun e => read_line (format_rfc5424 s e)) es ∨
    (Forall (header_ok s) es' ∧ map (format_rfc5424 s) es' = map (format_rfc5424 s) es) →
    verify_chain es' = verify_chain es.
Proof.
  intros Hh Hl.
  assert (∀ es, Forall (header_ok s) es →
    map (fun e => read_line (format_rfc5424 s e)) es = map (fun e => Some (sd_params e)) es) as Hread.
  { intros l Hl'. apply map_ext_Forall. eapply Forall_impl; [exact Hl'|]. intros e. apply read_line_format. }
  split; [by apply Hread|]. intros es' Hl' Hr.
  assert (map (fun e => Some (sd_params e)) es' = map (fun e => Some (sd_params e)) es) as E.
  { rewrite <- (Hread es Hh). destruct Hr as [Hr|[Hh' Hr]]; [done|]. rewrite <- (Hread es' Hh').
    rewrite <- !(map_map (format_rfc5424 s) read_line). by rewrite Hr. }
  rewrite !verify_chain_eq. apply verify_from_params; [done..|]. by apply map_Some_inj.
Qed.

(** The priority is a priority when the facility is one: at most 191, and below
    [u16]'s limit for any [u8]. *)
Lemma pri_bounds s event : fits 8 (sn_facility s) → 0 ≤ pri s event < 2 ^ 16 ∧ (sn_facility s ≤ 23 → pri s event ≤ 191).
Proof. unfold fits, pri. pose proof (as_syslog_severity_bound (ev_severity event)). lia. Qed.
End Lines.

(** ** Example *)

Module SyslogExample.

Definition nibble (a b c d : bool) : ascii :=
  match String.get (N.to_nat ((if a then 1 else 0) + (if b then 2 else 0) + (if c then 4 else 0) + (if d then 8 else 0))%N) "0123456789abcdef" with
  | Some x => x
  | None => "0"%char
  end.

Fixpoint hex (bs : bytes) : string :=
  match bs with
  | [] => ""
  | Ascii a b c d e f g h :: bs => String (nibble e f g h) (String (nibble a b c d) (hex bs))
  end.

Lemma hex_inj bs : ∀ bs', hex bs = hex bs' → bs = bs'.
Proof.
  assert (∀ a b c d a' b' c' d', nibble a b c d = nibble a' b' c' d' → a = a' ∧ b = b' ∧ c = c' ∧ d = d') as Hn.
  { by intros [] [] [] [] [] [] [] []. }
  induction bs as [|[a b c d e f g h] bs IH]; intros [|[a' b' c' d' e' f' g' h'] bs']; cbn [hex]; [done..|].
  intros [= (-> & -> & -> & ->)%Hn (-> & -> & -> & ->)%Hn ->%IH]. done.
Qed.

Lemma hex_chars bs : str_forallb (fun c => is_hex c || Ascii.eqb c "-") (hex bs) = true.
Proof. induction bs as [|[a b c d e f g h] bs IH]; [done|]. cbn [hex str_forallb]. rewrite IH. by destruct a, b, c, d, e, f, g, h. Qed.

#[global] Instance example_syslog : SyslogEnv := {|
  uuid_text := hex;
  format_timestamp _ := "2026-01-02T03:04:05.000000Z";
  parse_socket_addr s := Ok s;
|}.

#[global] Instance example_syslog_laws : SyslogLaws.
Proof. split; [apply hex_chars|intros id id' _ _; apply hex_inj|done]. Qed.

Definition sender : SyslogSender := mkSyslogSender "127.0.0.1:514" 13 "acton" Tcp.

(** Values that hold every character the format escapes. *)
Definition awkward : AuditEvent :=
  with_source (AuditEvent_new (replicate 16 (byte_of_Z 171)) 0 HttpRequest SevWarning "api")
    (mkAuditSource (Some "10.0.0.1") (Some ("a" +:+ QUOTE +:+ "]" +:+ String BACKSLASH "")) None None).

Definition exported : list AuditEvent := fst (seal_all (H := witness_env) (chain_new "api") [awkward; awkward]).

(** An event whose subject holds a line of its own. *)
Definition forged : string := "<108>1 2026-01-02T03:04:05.000000Z api acton - auth.logout - auth.logout seq=9".
Definition injecting : AuditEvent :=
  with_source (AuditEvent_new (replicate 16 (byte_of_Z 171)) 0 AuthLoginFailed SevWarning "api")
    (mkAuditSource None None (Some ("mallory" +:+ String (Ascii.ascii_of_nat 10) forged +:+ String (Ascii.ascii_of_nat 10) "")) None).
End SyslogExample.

Lemma syslog_lines_verify_witness :
  map (fun e => read_line (format_rfc5424 (H := witness_env) SyslogExample.sender e)) SyslogExample.exported =
    map (fun e => Some (sd_params (H := witness_env) e)) SyslogExample.exported ∧
  verify_chain (H := witness_env) SyslogExample.exported = Ok tt.
Proof.
  destruct (@syslog_lines_verify witness_env _ _ SyslogExample.sender SyslogExample.exported) as [Hread Hv].
  - repeat constructor.
  - repeat constructor.
  - split; [exact Hread|]. etransitivity; [apply (Hv SyslogExample.exported)|].
    + repeat constructor.
    + right. split; [repeat constructor|reflexivity].
    + vm_compute. reflexivity.
Defined.

(** ** Behaviour that looks unintended *)

(** Newlines are not escaped, and on TCP a newline ends a record: an event whose
    subject holds one is received as several records, one of them the subject's. *)
Lemma newline_forges_record :
  In SyslogExample.forged
    (split (Ascii.ascii_of_nat 10) (format_rfc5424 (H := witness_env) SyslogExample.sender SyslogExample.injecting)).
Proof. vm_compute. right. left. reflexivity. Qed.

(** The header's fields are not escaped either: the name of a custom event with a
    space in it moves the structured data, which a receiver then does not find. *)
Lemma custom_kind_breaks_header :
  read_line (format_rfc5424 (H := witness_env) SyslogExample.sender
    (AuditEvent_new (replicate 16 (byte_of_Z 171)) 0 (Custom "report exported") SevNotice "api")) = None.
Proof. vm_compute. reflexivity. Qed.
