(* ===== verification/ConfigAudit.v ===== *)
(** * Configuration auditing

    [audit/config_audit.rs], with the start-up step of [service_builder.rs] that
    records the configuration: redaction, fingerprint, drift. A [serde_json] map
    holds its keys once and in order, so an object is its list of entries and
    equality of values is equality of the lists; field names are ASCII. Loading
    and serializing a configuration, and [serde_json::to_string], are
    parameters. *)

From S2P Require Import Prelude AuditEvent AuditChain Text AuditHttp.

Local Open Scope string_scope.
Local Open Scope Z_scope.
Local Open Scope list_scope.

(** ** Values *)

Section JsonInd.
Context (P : json → Prop) (Hscalar : ∀ v, match v with JArray _ | JObject _ => False | _ => True end → P v)
  (Harray : ∀ items, Forall P items → P (JArray items))
  (Hobject : ∀ entries, Forall (fun kv => P (snd kv)) entries → P (JObject entries)).

(** Induction through arrays and objects. *)
Fixpoint json_nested_ind (v : json) : P v :=
  match v with
  | JArray items => Harray items ((fix go l : Forall P l :=
      match l with [] => Forall_nil_2 P | x :: l => Forall_cons_2 P x l (json_nested_ind x) (go l) end) items)
  | JObject entries => Hobject entries ((fix go l : Forall (fun kv => P (snd kv)) l :=
      match l with [] => Forall_nil_2 _ | kv :: l => Forall_cons_2 _ kv l (json_nested_ind (snd kv)) (go l) end) entries)
  | JNull => Hscalar JNull I
  | JBool b => Hscalar (JBool b) I
  | JNumber n => Hscalar (JNumber n) I
  | JString s => Hscalar (JString s) I
  end.
End JsonInd.

#[global] Instance json_number_eq_dec : EqDecision json_number.
Proof. solve_decision. Defined.

(** [PartialEq for Value]. *)
Fixpoint json_eqb (v w : json) : bool :=
  match v, w with
  | JNull, JNull => true
  | JBool a, JBool b => Bool.eqb a b
  | JNumber a, JNumber b => bool_decide (a = b)
  | JString a, JString b => String.eqb a b
  | JArray a, JArray b =>
      (fix go a b := match a, b with
        | [], [] => true
        | x :: a, y :: b => json_eqb x y && go a b
        | _, _ => false
        end) a b
  | JObject a, JObject b =>
      (fix go a b := match a, b with
        | [], [] => true
        | (k, x) :: a, (k', y) :: b => String.eqb k k' && json_eqb x y && go a b
        | _, _ => false
        end) a b
  | _, _ => false
  end.

(** ** Redaction *)

Definition REDACTED : string := "[REDACTED]".

Definition SENSITIVE_PATTERNS : list string :=
  ["password"; "secret"; "key"; "token"; "auth_token"; "encryption_key"; "url"; "key_path"].

Definition is_sensitive_field (field_name : string) : bool :=
  let lower := str_map ascii_lower field_name in
  existsb (fun pattern => String.eqb lower pattern || ends_with lower ("_" +:+ pattern)) SENSITIVE_PATTERNS.

Definition is_object (v : json) : bool := match v with JObject _ => true | _ => false end.

Fixpoint redact_config (value : json) : json :=
  match value with
  | JObject map_ => JObject (map (fun kv =>
      (fst kv, if is_sensitive_field (fst kv)
               then match snd kv with JObject _ => redact_config (snd kv) | _ => JString REDACTED end
               else redact_config (snd kv))) map_)
  | JArray arr => JArray (map redact_config arr)
  | other => other
  end.

Section Fingerprint.
(** [serde_json::to_string]. *)
Context `{ChainEnv} (json_to_string : json → string).

Definition compute_config_fingerprint (redacted_config : json) : string :=
  blake3_hex (str_bytes (json_to_string redacted_config)).

(** [enabled_features] is fixed at compile time: an argument. *)
Definition build_config_loaded_event (uuid : bytes) (now : Z) (features : list string)
    (service_name config_hash : string) (redacted_config : json) (environment : string) : AuditEvent :=
  set_metadata (AuditEvent_new uuid now ConfigLoaded SevInformational service_name)
    (Some (JObject [("config_hash", JString config_hash); ("enabled_features", JArray (map JString features));
                    ("environment", JString environment); ("redacted_config", redacted_config)])).

(** The step of [ServiceBuilder::build]: [audit_config_events] when there is a
    logger, and the serialized configuration. *)
Definition record_config (logger : option bool) (config_value : result json string) (uuid : bytes) (now : Z)
    (features : list string) (service_name environment : string) : option string * list AuditEvent :=
  match logger, config_value with
  | Some true, Ok config_value =>
      let redacted := redact_config config_value in
      let fingerprint := compute_config_fingerprint redacted in
      (Some fingerprint, [build_config_loaded_event uuid now features service_name fingerprint redacted environment])
  | _, _ => (None, [])
  end.

(** ** Drift *)

Record DriftCheckResult := mkDriftCheckResult {
  drift_detected : bool;
  active_hash : string;
  disk_hash : string;
  changed_sections : list string;
}.

Definition find_changed_sections (active disk : json) : list string :=
  match active, disk with
  | JObject active_map, JObject disk_map =>
      concat (map (fun kv : string * json => match assoc (fst kv) disk_map with
                             | Some disk_val => if json_eqb (snd kv) disk_val then [] else [fst kv]
                             | None => [fst kv +:+ " (removed from disk)"]
                             end) active_map) ++
      concat (map (fun kv : string * json => match assoc (fst kv) active_map with
                             | Some _ => []
                             | None => [fst kv +:+ " (new on disk)"]
                             end) disk_map)
  | _, _ => []
  end.

Definition emit_drift_event (uuid : bytes) (now : Z) (service_name active_hash disk_hash : string)
    (changed_sections : list string) : AuditEvent :=
  set_metadata (AuditEvent_new uuid now ConfigDriftDetected SevWarning service_name)
    (Some (JObject [("active_hash", JString active_hash); ("changed_sections", JArray (map JString changed_sections));
                    ("disk_hash", JString disk_hash)])).

Inductive DriftResponse :=
| DriftUnavailable                   (* 503 *)
| DriftFailed (message : string)     (* 500 *)
| DriftChecked (r : DriftCheckResult).

(** [drift_check_handler]: the state's fingerprint, the reloaded configuration and
    its serialization, the active one ([unwrap_or_default]), the logger. *)
Definition drift_check_handler (config_fingerprint : option string) (disk_config : result (result json string) string)
    (active_config : result json string) (logger : option (string * bool)) (uuid : bytes) (now : Z)
    : DriftResponse * list AuditEvent :=
  match config_fingerprint with
  | None => (DriftUnavailable, [])
  | Some active_hash =>
      match disk_config with
      | Err e => (DriftFailed ("Failed to reload config from disk: " +:+ e), [])
      | Ok (Err e) => (DriftFailed ("Failed to serialize disk config: " +:+ e), [])
      | Ok (Ok disk_serialized) =>
          let disk_redacted := redact_config disk_serialized in
          let disk_hash := compute_config_fingerprint disk_redacted in
          let drift_detected := negb (String.eqb active_hash disk_hash) in
          let changed_sections :=
            if drift_detected
            then find_changed_sections (redact_config (unwrap_or active_config JNull)) disk_redacted else [] in
          (DriftChecked (mkDriftCheckResult drift_detected active_hash disk_hash changed_sections),
           match logger with
           | Some (service_name, true) =>
               if drift_detected then [emit_drift_event uuid now service_name active_hash disk_hash changed_sections] else []
           | _ => []
           end)
      end
  end.
End Fingerprint.

(** ** What redaction keeps *)

#[local] Arguments is_sensitive_field : simpl never.

Lemma json_eqb_eq v : ∀ w, json_eqb v w = true ↔ v = w.
Proof.
  induction v as [v Hv|items IH|entries IH] using json_nested_ind; intros w.
  - destruct v, w; cbn; try done; rewrite ?Bool.eqb_true_iff, ?bool_decide_eq_true, ?String.eqb_eq; naive_solver.
  - destruct w as [| | | |b|]; cbn; try done. revert b. induction IH as [|x l Hx _ IHl]; intros [|y b]; cbn; try done.
    rewrite andb_true_iff, Hx, IHl. split; [intros [-> [= ->]]; done|by intros [= -> ->]].
  - destruct w as [| | | | |b]; cbn; try done. revert b. induction IH as [|[k x] l Hx _ IHl]; intros [|[k' y] b]; cbn in *; try done.
    rewrite !andb_true_iff, String.eqb_eq, (Hx y), IHl. split; [intros [[-> ->] [= ->]]; done|by intros [= -> -> ->]].
Qed.

(** A document without sensitive values: under a sensitive name stands an object
    or the sentinel, at every depth. *)
Fixpoint no_secrets (v : json) : Prop :=
  match v with
  | JObject entries => (fix go l := match l with
      | [] => True
      | kv :: l => (is_sensitive_field (fst kv) = true → is_object (snd kv) = true ∨ snd kv = JString REDACTED) ∧
                   no_secrets (snd kv) ∧ go l
      end) entries
  | JArray items => (fix go l := match l with [] => True | x :: l => no_secrets x ∧ go l end) items
  | _ => True
  end.

(** C31: Redacted configurations are free of secrets: whatever was serialized, under
    every sensitive name, at every depth, the result holds an object or the
    sentinel. *)
Theorem redacted_no_secrets v : no_secrets (redact_config v).
Proof.
  induction v as [v Hv|items IH|entries IH] using json_nested_ind.
  - by destruct v.
  - cbn. induction IH; cbn; auto.
  - cbn. induction IH as [|[k x] l Hx _ IHl]; cbn in *; [done|]. split_and!; [| |done].
    + intros ->. destruct x; cbn; auto.
    + destruct (is_sensitive_field k); [|done]. by destruct x.
Qed.

(** Two configurations with the same public part: they differ only in values,
    other than objects, under sensitive names. *)
Inductive same_public : json → json → Prop :=
| sp_scalar v : match v with JArray _ | JObject _ => False | _ => True end → same_public v v
| sp_array l k : Forall2 same_public l k → same_public (JArray l) (JArray k)
| sp_object l k :
    Forall2 (fun kv kw : string * json => fst kv = fst kw ∧
      ((is_sensitive_field (fst kv) = true ∧ is_object (snd kv) = false ∧ is_object (snd kw) = false) ∨
       (same_public (snd kv) (snd kw) ∧ (is_sensitive_field (fst kv) = true → is_object (snd kv) = true)))) l k →
    same_public (JObject l) (JObject k).

Lemma redact_scalar v : match v with JArray _ | JObject _ => False | _ => True end → redact_config v = v.
Proof. by destruct v. Qed.

Definition redact_entry (kv : string * json) : string * json :=
  (fst kv, if is_sensitive_field (fst kv)
           then match snd kv with JObject _ => redact_config (snd kv) | _ => JString REDACTED end
           else redact_config (snd kv)).

Lemma redact_entry_eq k x k' y :
  (∀ w, redact_config x = redact_config w ↔ same_public x w) →
  redact_entry (k, x) = redact_entry (k', y) ↔
  k = k' ∧ ((is_sensitive_field k = true ∧ is_object x = false ∧ is_object y = false) ∨
            (same_public x y ∧ (is_sensitive_field k = true → is_object x = true))).
Proof.
  intros Hx. unfold redact_entry. cbn. split.
  - intros [= -> He]. split; [done|]. destruct (is_sensitive_field k') eqn:Ek.
    + destruct x, y; cbn in *; try discriminate He; auto. right. split; [|done]. by apply Hx.
    + right. split; [by apply Hx|done].
  - intros [-> [(Ek & Ex & Ey)|[Hs Ho]]]; f_equal.
    + rewrite Ek. by destruct x, y.
    + apply Hx in Hs. destruct (is_sensitive_field k'); [|done]. specialize (Ho eq_refl). destruct x; try done.
      destruct y; try done; by rewrite Hs.
Qed.

(** Redaction hides the secrets and nothing else: two configurations redact to
    the same document, and so have the same fingerprint and the same audit event,
    exactly when they differ only in values, other than objects, under sensitive
    names. *)
Theorem redaction_exact v w : redact_config v = redact_config w ↔ same_public v w.
Proof.
  revert w. induction v as [v Hv|items IH|entries IH] using json_nested_ind; intros w.
  - rewrite (redact_scalar v Hv). split.
    + intros He. destruct w; try (rewrite <- (redact_scalar _ Hv) in He; destruct v; try done; simplify_eq/=; by constructor).
    + intros Hs. destruct Hs; [|done..]. by rewrite redact_scalar.
  - split.
    + destruct w as [| | | |k|]; cbn; try discriminate. intros [= He]. constructor. revert k He.
      induction IH as [|x l Hx _ IHl]; intros [|y k]; cbn; try discriminate; [constructor|]. intros [= E1 E2].
      constructor; [by apply Hx|auto].
    + intros Hs. inversion Hs as [? Hf|? k HF|]; subst; [destruct Hf|]. clear Hs. cbn. f_equal. induction HF as [|x y l k Hxy _ IHF]; [done|].
      apply Forall_cons in IH as [Hx Hl]. cbn. f_equal; [by apply Hx|auto].
  - split.
    + destruct w as [| | | | |k]; cbn; try discriminate. intros [= He]. constructor. revert k He.
      induction IH as [|[n x] l Hx _ IHl]; intros [|[n' y] k]; [constructor|discriminate|discriminate|].
      cbn [map]. intros [E1 E2]%cons_eq_inv. constructor; [|auto]. by apply (redact_entry_eq n x n' y).
    + intros Hs. inversion Hs as [? Hf| |? k HF]; subst; [destruct Hf|]. clear Hs. cbn. f_equal. induction HF as [|[n x] [n' y] l k Hxy _ IHF]; [done|].
      apply Forall_cons in IH as [Hx Hl]. cbn [map]. f_equal; [|auto]. by apply (redact_entry_eq n x n' y).
Qed.

(** ** Drift *)

Lemma assoc_In {A} k (l : list (string * A)) v : assoc k l = Some v → In (k, v) l.
Proof. induction l as [|[k' x] l IH]; cbn; [done|]. destruct (String.eqb_spec k k'); [intros [= ->]; subst; by left|auto]. Qed.

Lemma assoc_NoDup {A} k v (l : list (string * A)) : NoDup (map fst l) → In (k, v) l → assoc k l = Some v.
Proof.
  induction l as [|[k' x] l IH]; cbn; [done|]. rewrite NoDup_cons. intros [Hn Hd] [[= -> ->]|Hin]; [by rewrite String.eqb_refl|].
  destruct (String.eqb_spec k k') as [->|]; [|auto]. exfalso. apply Hn. apply list_elem_of_In, in_map_iff. by exists (k', v).
Qed.

Lemma concat_map_nil {A B} (f : A → list B) l : concat (map f l) = [] ↔ ∀ x, In x l → f x = [].
Proof.
  induction l as [|x l IH]; cbn; [naive_solver|]. split.
  - intros [? ?]%app_eq_nil y [->|Hy]; [done|]. by apply IH.
  - intros Hf. rewrite (Hf x) by auto. apply IH. auto.
Qed.

(** No section is reported exactly when the two hold the same sections. *)
Theorem changed_sections_exact active disk :
  NoDup (map fst active) → NoDup (map fst disk) →
  find_changed_sections (JObject active) (JObject disk) = [] ↔ ∀ k v, In (k, v) active ↔ In (k, v) disk.
Proof.
  intros Ha Hd. cbn. split.
  - intros [H1 H2]%app_eq_nil. rewrite concat_map_nil in H1, H2. intros k v. split; intros Hin.
    + specialize (H1 (k, v) Hin). cbn in H1. destruct (assoc k disk) as [w|] eqn:E; [|done].
      destruct (json_eqb v w) eqn:Ev; [|done]. apply json_eqb_eq in Ev as ->. by apply assoc_In.
    + specialize (H2 (k, v) Hin). cbn in H2. destruct (assoc k active) as [w|] eqn:E; [|done]. apply assoc_In in E.
      specialize (H1 (k, w) E). cbn in H1. rewrite (assoc_NoDup k v disk Hd Hin) in H1. destruct (json_eqb w v) eqn:Ev; [|done].
      apply json_eqb_eq in Ev as ->. done.
  - intros Heq. apply app_nil. rewrite !concat_map_nil. split; intros [k v] Hin; cbn.
    + rewrite (assoc_NoDup k v disk Hd) by by apply Heq. by rewrite (proj2 (json_eqb_eq v v) eq_refl).
    + by rewrite (assoc_NoDup k v active Ha) by by apply Heq.
Qed.

Section Drift.
Context `{ChainEnv} (json_to_string : json → string).

(** C30: Drift is reported for a change of the public configuration and for nothing
    else. The fingerprint recorded at start-up, compared later with a
    configuration that loads and serializes, gives a result that says drift
    exactly when the two differ in more than values under sensitive names, unless
    the two redacted documents collide; the event is sent exactly then, when
    configuration events are on; and neither the result nor the event depends on
    those values. *)
Theorem drift_exact uuid now features name env active disk logger uuid' now' fp events :
  record_config json_to_string (Some true) (Ok active) uuid now features name env = (Some fp, events) →
  (compute_config_fingerprint json_to_string (redact_config active) = compute_config_fingerprint json_to_string (redact_config disk) →
     redact_config active = redact_config disk) →
  ∃ r sent, drift_check_handler json_to_string (Some fp) (Ok (Ok disk)) (Ok active) logger uuid' now' = (DriftChecked r, sent) ∧
    (drift_detected r = false ↔ same_public active disk) ∧
    (sent ≠ [] ↔ drift_detected r = true ∧ ∃ service, logger = Some (service, true)) ∧
    ∀ active' disk', same_public active active' → same_public disk disk' →
      drift_check_handler json_to_string (Some fp) (Ok (Ok disk')) (Ok active') logger uuid' now' = (DriftChecked r, sent).
Proof.
  cbn -[redact_config]. intros [= <- _] Hnc. eexists _, _. split; [reflexivity|]. split_and!.
  - cbn -[redact_config]. rewrite negb_false_iff, String.eqb_eq, <- redaction_exact. split; [auto|by intros ->].
  - cbn -[redact_config]. destruct logger as [[service []]|]; [|naive_solver..]. destruct (String.eqb _ _); cbn; naive_solver.
  - intros active' disk' Ha%redaction_exact Hd%redaction_exact. unfold unwrap_or. by rewrite <- Ha, <- Hd.
Qed.
End Drift.

(** ** Example and behaviour that looks unintended *)

Module ConfigExample.
Definition config (secret port : string) : json :=
  JObject [("database", JObject [("url", JString secret); ("pool", JString port)])].

(** The alert section of a configuration, as its documentation shows it. *)
Definition alerting : json :=
  JObject [("audit", JObject [("alerts", JObject [("webhooks", JArray [
    JObject [("headers", JObject [("Authorization", JString "Bearer s3cret")]); ("url", JString "https://hooks")]])])])].
End ConfigExample.

Lemma drift_exact_witness :
  ∃ r sent, drift_check_handler (H := witness_env) (fun v => match v with
      | JObject [(_, JObject [_; (_, JString p)])] => p | _ => "" end)
      (record_config (H := witness_env) (fun v => match v with JObject [(_, JObject [_; (_, JString p)])] => p | _ => "" end)
        (Some true) (Ok (ConfigExample.config "a" "1")) [] 0 [] "svc" "dev").1
      (Ok (Ok (ConfigExample.config "b" "2"))) (Ok (ConfigExample.config "a" "1")) (Some ("svc", true)) [] 0 = (DriftChecked r, sent) ∧ sent ≠ [].
Proof.
  destruct (@drift_exact witness_env (fun v => match v with JObject [(_, JObject [_; (_, JString p)])] => p | _ => "" end)
    [] 0 [] "svc" "dev" (ConfigExample.config "a" "1") (ConfigExample.config "b" "2") (Some ("svc", true)) [] 0 _ _ eq_refl)
    as (r & sent & Hr & Hd & Hs & _).
  - vm_compute. discriminate.
  - exists r, sent. split; [exact Hr|]. apply Hs. split; [|by exists "svc"].
    apply (f_equal fst) in Hr. vm_compute in Hr. by injection Hr as <-.
Defined.

(** Headers are values of a map whose keys are the header names, and Authorization
    is none of the patterns: the credential stays in the redacted configuration. *)
Lemma authorization_header_not_redacted : redact_config ConfigExample.alerting =
  JObject [("audit", JObject [("alerts", JObject [("webhooks", JArray [
    JObject [("headers", JObject [("Authorization", JString "Bearer s3cret")]); ("url", JString REDACTED)]])])])].
Proof. vm_compute. reflexivity. Qed.

(** A change of a secret on disk is not drift. *)
Lemma secret_change_is_no_drift `{ChainEnv} json_to_string uuid now :
  (drift_check_handler json_to_string
     (Some (compute_config_fingerprint json_to_string (redact_config (ConfigExample.config "old" "5"))))
     (Ok (Ok (ConfigExample.config "new" "5"))) (Ok (ConfigExample.config "old" "5")) (Some ("svc", true)) uuid now).2 = [].
Proof.
  assert (redact_config (ConfigExample.config "old" "5") = redact_config (ConfigExample.config "new" "5")) as E by reflexivity.
  cbn -[redact_config ConfigExample.config]. rewrite E, String.eqb_refl. reflexivity.
Qed.
