(* ===== verification/Libsql.v ===== *)
(** * libsql tables

    What the Turso backends have in common: every operation opens a connection
    and runs statements on one table, whose rows keep times as RFC 3339 text. A
    connection or statement that fails changes nothing ([lq_faults], oldest
    first); reading the next row of an answer can fail too ([lq_reads]). The
    loops [while let Ok(Some(row)) = rows.next().await] end at such a failure as
    they do at the last row. A backend is proved against the list of records its
    rows were made from. *)

From S2P Require Import Prelude FrameworkError AuditChain.

Local Open Scope string_scope.
Local Open Scope Z_scope.
Local Open Scope list_scope.
Local Open Scope monad_scope.

(** ** Times as text *)

(** [DateTime::parse_from_rfc3339], in UTC. *)
Class TimeText `{ChainEnv} := { parse_rfc3339 : string → result Z string }.

(** Nanoseconds of the years 0 to 9999, which print with four digits. *)
Definition four_digit_year (t : Z) : Prop := -62167219200 * 10 ^ 9 ≤ t < 253402300800 * 10 ^ 9.

(** Text is compared byte by byte. [to_rfc3339] prints the fraction with as many
    digits as it needs, followed by [+00:00], and a plus sign comes before the
    point and the digits: the order of the texts is that of the times. *)
Class TimeTextLaws `{TimeText} := {
  parse_to_rfc3339 t : four_digit_year t → parse_rfc3339 (to_rfc3339 t) = Ok t;
  parse_empty : is_ok (parse_rfc3339 "") = false;
  rfc3339_order t t' : four_digit_year t → four_digit_year t' →
    String.leb (to_rfc3339 t) (to_rfc3339 t') = bool_decide (t ≤ t');
}.

Definition text_before (s s' : string) : bool := negb (String.leb s' s).

(** ** Tables *)

Record LqDb (R : Type) := mkLqDb {
  lq_rows : list R;
  lq_triggers : list string;
  lq_faults : list (option string);
  lq_reads : list (option string);
}.
Arguments mkLqDb {R}.
Arguments lq_rows {R}.
Arguments lq_triggers {R}.
Arguments lq_faults {R}.
Arguments lq_reads {R}.

Section Libsql.
Context {R : Type}.

Abbreviation L := (M (LqDb R) Error).

(** A call of the driver, with the text its failure is reported under. *)
Definition lq_call (what : string) : L unit := fun db =>
  match lq_faults db with
  | [] => (Ok tt, db)
  | fault :: faults =>
      (match fault with Some msg => Err (Error_Internal (what +:+ msg)) | None => Ok tt end,
       mkLqDb (lq_rows db) (lq_triggers db) faults (lq_reads db))
  end.

(** [self.db.connect()]. *)
Definition lq_connect (what : string) : L unit := lq_call what.

(** [conn.execute(..)]: the statement's effect, or the text of the constraint it
    violates. *)
Definition lq_execute {A} (what : string) (stmt : list R → result (A * list R) string) : L A :=
  lq_call what ;; fun db =>
  match stmt (lq_rows db) with
  | Ok (a, rows) => (Ok a, mkLqDb rows (lq_triggers db) (lq_faults db) (lq_reads db))
  | Err msg => (Err (Error_Internal (what +:+ msg)), db)
  end.

(** [CREATE TRIGGER IF NOT EXISTS] and [DROP TRIGGER IF EXISTS]. *)
Definition lq_create_trigger (what name : string) : L unit :=
  lq_call what ;; fun db =>
  (Ok tt, mkLqDb (lq_rows db) (if bool_decide (name ∈ lq_triggers db) then lq_triggers db else name :: lq_triggers db)
            (lq_faults db) (lq_reads db)).

Definition lq_drop_trigger (what name : string) : L unit :=
  lq_call what ;; fun db =>
  (Ok tt, mkLqDb (lq_rows db) (filter (fun n => n ≠ name) (lq_triggers db)) (lq_faults db) (lq_reads db)).

(** [DELETE .. WHERE P] on a table whose trigger [guard], when it is there, aborts
    the deletion of a row: the number of rows deleted. *)
Definition lq_delete (what guard abort : string) (P : R → bool) : L Z :=
  lq_call what ;; fun db =>
  let deleted := List.filter P (lq_rows db) in
  if bool_decide (guard ∈ lq_triggers db) && negb (bool_decide (deleted = []))
  then (Err (Error_Internal (what +:+ abort)), db)
  else (Ok (Z.of_nat (length deleted)),
        mkLqDb (List.filter (fun r => negb (P r)) (lq_rows db)) (lq_triggers db) (lq_faults db) (lq_reads db)).

(** [conn.query(..)]: the rows the answer will yield. *)
Definition lq_query (what : string) (select : list R → list R) : L (list R) :=
  lq_call what ;; fun db => (Ok (select (lq_rows db)), db).

(** One [rows.next()]: the failure, if it fails. *)
Definition lq_next (db : LqDb R) : option string * LqDb R :=
  match lq_reads db with
  | [] => (None, db)
  | read :: reads => (read, mkLqDb (lq_rows db) (lq_triggers db) (lq_faults db) reads)
  end.

(** [while let Ok(Some(row)) = rows.next().await { v.push(parse(&row)?) }]. *)
Fixpoint lq_collect {A} (parse : R → result A Error) (rows : list R) : L (list A) := fun db =>
  let '(read, db) := lq_next db in
  match read, rows with
  | Some _, _ | None, [] => (Ok [], db)
  | None, row :: rows => (let! a := lift (parse row) in let! l := lq_collect parse rows in ret (a :: l)) db
  end.

(** [match rows.next().await { Ok(Some(row)) => .., Ok(None) => .., Err(e) => .. }]. *)
Definition lq_first {A} (what : string) (parse : R → result A Error) (rows : list R) : L (option A) := fun db =>
  let '(read, db) := lq_next db in
  match read, rows with
  | Some msg, _ => (Err (Error_Internal (what +:+ msg)), db)
  | None, [] => (Ok None, db)
  | None, row :: _ => (let! a := lift (parse row) in ret (Some a)) db
  end.

Lemma wp_attempt {A} (m : L A) Q db : wp m (fun r db' => Q (Ok r) db') db → wp (attempt m) Q db.
Proof. unfold wp, attempt. by destruct (m db). Qed.

(** Calls that leave the triggers as they are. *)
Definition quiet {A} (m : L A) : Prop := ∀ db, lq_triggers (m db).2 = lq_triggers db.

Lemma quiet_call what : quiet (lq_call what).
Proof. intros db. unfold lq_call. by destruct (lq_faults db). Qed.

Lemma lq_quiet_pure {A} (r : result A Error) : quiet (lift r).
Proof. done. Qed.

Lemma lq_quiet_bind {A B} (m : L A) (k : A → L B) : quiet m → (∀ a, quiet (k a)) → quiet (bind m k).
Proof. intros Hm Hk db. specialize (Hm db). unfold bind. destruct (m db) as [[a|e] db1]; [|done]. by rewrite Hk. Qed.

Lemma quiet_execute {A} what (stmt : _ → result (A * _) _) : quiet (lq_execute what stmt).
Proof. apply lq_quiet_bind; [apply quiet_call|]. intros _ db. by destruct (stmt (lq_rows db)) as [[]|]. Qed.

Lemma quiet_query what select : quiet (lq_query what select).
Proof. apply lq_quiet_bind; [apply quiet_call|done]. Qed.

Lemma lq_next_triggers db : lq_triggers (lq_next db).2 = lq_triggers db.
Proof. unfold lq_next. by destruct (lq_reads db). Qed.

Lemma quiet_collect {A} (parse : R → result A Error) rows : quiet (lq_collect parse rows).
Proof.
  induction rows as [|row rows IH]; intros db; cbn; pose proof (lq_next_triggers db) as Hn; destruct (lq_next db) as [[] db1]; try done.
  rewrite <- Hn. unfold bind at 1, lift. destruct (parse row) as [a|e]; [|done]. by apply (lq_quiet_bind _ _ IH).
Qed.

Lemma quiet_first {A} what (parse : R → result A Error) rows : quiet (lq_first what parse rows).
Proof.
  intros db. unfold lq_first. pose proof (lq_next_triggers db) as Hn. destruct (lq_next db) as [[] db1]; [done|]. destruct rows; [done|].
  rewrite <- Hn. unfold bind, lift. by destruct (parse r).
Qed.

(** [UPDATE .. WHERE P]: the number of rows affected and the table. *)
Definition lq_update (P : R → bool) (f : R → R) (rows : list R) : Z * list R :=
  (Z.of_nat (length (List.filter P rows)), map (fun r => if P r then f r else r) rows).

(** [ORDER BY column DESC] on text. *)
Definition text_desc (key : R → string) (r r' : R) : Prop := String.le (key r') (key r).
#[global] Instance text_desc_dec key r r' : Decision (text_desc key r r').
Proof. unfold text_desc. apply _. Defined.
#[global] Instance text_desc_trans key : Transitive (text_desc key).
Proof. intros r1 r2 r3 H1 H2. unfold text_desc in *. by etrans. Qed.
#[global] Instance text_desc_total key : Total (text_desc key).
Proof. intros r1 r2. unfold text_desc. apply (total String.le). Qed.

Definition order_desc (key : R → string) (rows : list R) : list R := merge_sort (text_desc key) rows.

(** [ORDER BY column ASC] on integers. *)
Definition int_asc (key : R → Z) (r r' : R) : Prop := key r ≤ key r'.
#[global] Instance int_asc_dec key r r' : Decision (int_asc key r r').
Proof. unfold int_asc. apply _. Defined.
#[global] Instance int_asc_trans key : Transitive (int_asc key).
Proof. intros r1 r2 r3. unfold int_asc. lia. Qed.
#[global] Instance int_asc_total key : Total (int_asc key).
Proof. intros r1 r2. unfold int_asc. lia. Qed.

Definition order_asc (key : R → Z) (rows : list R) : list R := merge_sort (int_asc key) rows.

(** [ORDER BY column ASC] on text that may be [NULL], which comes first. *)
Definition opt_le {T} (le : T → T → Prop) (o o' : option T) : Prop :=
  match o, o' with Some t, Some t' => le t t' | Some _, None => False | None, _ => True end.
Definition text_asc (key : R → option string) (r r' : R) : Prop := opt_le String.le (key r) (key r').
#[global] Instance text_asc_dec key r r' : Decision (text_asc key r r').
Proof. unfold text_asc, opt_le. destruct (key r), (key r'); apply _. Defined.
#[global] Instance text_asc_trans key : Transitive (text_asc key).
Proof.
  intros r1 r2 r3. unfold text_asc, opt_le. destruct (key r1), (key r2), (key r3); try done. intros ? ?. by etrans.
Qed.
#[global] Instance text_asc_total key : Total (text_asc key).
Proof. intros r1 r2. unfold text_asc, opt_le. destruct (key r1), (key r2); auto. apply (total String.le). Qed.

Definition order_text_asc (key : R → option string) (rows : list R) : list R := merge_sort (text_asc key) rows.

(** [OFFSET ?] likewise: a negative offset is none. *)
Definition lq_offset (offset : Z) (rows : list R) : list R :=
  let n := as_signed 64 offset in if n <? 0 then rows else drop (Z.to_nat n) rows.

(** [SELECT COUNT(..)]: an [i64] read [as u64], and zero when its row cannot be read. *)
Definition lq_count (what : string) (P : R → bool) : L Z :=
  lq_call what ;; fun db =>
  let n := Z.of_nat (length (List.filter P (lq_rows db))) in
  let '(read, db) := lq_next db in
  (Ok (match read with None => as_unsigned 64 n | Some _ => 0 end), db).

(** [LIMIT ?] with a [usize] bound [as i64]: a negative limit is none. *)
Definition lq_limit (limit : Z) (rows : list R) : list R :=
  let n := as_signed 64 limit in if n <? 0 then rows else take (Z.to_nat n) rows.

(** ** Tables that hold records *)

Section Rep.
Context {A : Type} (insert_row : A → R) (ok : A → Prop) (calm : Prop).

(** The rows are those of [l], and when [calm] no call and no read fails. *)
Definition lq_rep (l : list A) (db : LqDb R) : Prop :=
  lq_rows db = map insert_row l ∧ Forall ok l ∧ (calm → lq_faults db = [] ∧ lq_reads db = []).

Lemma wp_call what l db (Q : result unit Error → LqDb R → Prop) :
  lq_rep l db → (∀ db', lq_rep l db' → Q (Ok tt) db') → (∀ e db', ¬ calm → lq_rep l db' → Q (Err e) db') →
  wp (lq_call what) Q db.
Proof.
  intros (Er & Hok & Hc) Ho He. unfold wp, lq_call. destruct (lq_faults db) as [|f fs] eqn:Ef.
  { apply Ho. unfold lq_rep. cbn. by rewrite Ef. }
  assert (¬ calm) as Hnc by (intros HC; by destruct (Hc HC)).
  destruct f; [apply He|apply Ho]; try exact Hnc; by split_and!.
Qed.

(** A read keeps the table; it fails only when not [calm]. *)
Lemma next_rep l db : lq_rep l db → lq_rep l (lq_next db).2 ∧ ((lq_next db).1 = None ∨ ¬ calm).
Proof.
  intros (Er & Hok & Hc). unfold lq_next. destruct (lq_reads db) as [|x xs] eqn:Ex.
  { split; [|by left]. unfold lq_rep. cbn. by rewrite Ex. }
  assert (¬ calm) as Hnc by (intros HC; by destruct (Hc HC)). split; [|by right]. by split_and!.
Qed.

(** A statement on the records: what it answers and what it leaves. *)
Lemma wp_execute {B} what stmt (spec : result (B * list A) string) l db (Q : result B Error → LqDb R → Prop) :
  lq_rep l db →
  match spec with
  | Ok (b, l') => stmt (map insert_row l) = Ok (b, map insert_row l') ∧ Forall ok l'
  | Err _ => ∃ msg, stmt (map insert_row l) = Err msg
  end →
  (∀ e db', ¬ calm ∨ is_ok spec = false → lq_rep l db' → Q (Err e) db') →
  (∀ b l' db', spec = Ok (b, l') → lq_rep l' db' → Q (Ok b) db') →
  wp (lq_execute what stmt) Q db.
Proof.
  intros Hr Hs He Ho. apply wp_bind. eapply wp_call; [exact Hr| |by auto]. intros db' Hr'.
  unfold wp. pose proof Hr' as (Er & Hok & Hc). rewrite Er. destruct spec as [[b l']|].
  - destruct Hs as [-> Hok']. by eapply Ho.
  - destruct Hs as [msg ->]. apply He; auto.
Qed.

(** A statement that leaves the rows alone. *)
Lemma wp_nop what l db (Q : result unit Error → LqDb R → Prop) :
  lq_rep l db → (∀ e db', ¬ calm → lq_rep l db' → Q (Err e) db') → (∀ db', lq_rep l db' → Q (Ok tt) db') →
  wp (lq_execute what (fun rows => Ok (tt, rows))) Q db.
Proof.
  intros Hr He Ho. pose proof Hr as (_ & Hok & _). eapply (wp_execute _ _ (Ok (tt, l))); [exact Hr|done| |].
  - intros e db' [?|?] ?; [by apply He|done].
  - by intros [] l' db' [= <-] ?; apply Ho.
Qed.

Lemma wp_query what select sel l db (Q : result (list R) Error → LqDb R → Prop) :
  lq_rep l db → select (map insert_row l) = map insert_row sel →
  (∀ e db', ¬ calm → lq_rep l db' → Q (Err e) db') → (∀ db', lq_rep l db' → Q (Ok (map insert_row sel)) db') →
  wp (lq_query what select) Q db.
Proof.
  intros Hr Hs He Ho. apply wp_bind. eapply wp_call; [exact Hr| |by auto]. intros db' Hr'.
  unfold wp. cbn. pose proof Hr' as (-> & _). rewrite Hs. by apply Ho.
Qed.

Lemma filter_rep (P : R → bool) (Q : A → Prop) `{∀ a, Decision (Q a)} l :
  Forall (fun a => P (insert_row a) = bool_decide (Q a)) l →
  List.filter P (map insert_row l) = map insert_row (filter Q l).
Proof.
  induction 1 as [|a l Ha _ IH]; [done|]. cbn [map List.filter]. rewrite Ha, IH, filter_cons.
  case_bool_decide; by case_decide.
Qed.

Lemma wp_drop_trigger what name l db (Q : result unit Error → LqDb R → Prop) :
  lq_rep l db → (∀ e db', ¬ calm → lq_rep l db' → Q (Err e) db') →
  (∀ db', lq_rep l db' → name ∉ lq_triggers db' → Q (Ok tt) db') → wp (lq_drop_trigger what name) Q db.
Proof.
  intros Hr He Ho. apply wp_bind. eapply wp_call; [exact Hr| |exact He]. intros db' Hr'. unfold wp. cbn. apply Ho; [exact Hr'|].
  cbn. intros [? _]%list_elem_of_filter. done.
Qed.

Lemma wp_create_trigger what name l db (Q : result unit Error → LqDb R → Prop) :
  lq_rep l db → (∀ e db', ¬ calm → lq_rep l db' → Q (Err e) db') →
  (∀ db', lq_rep l db' → name ∈ lq_triggers db' → Q (Ok tt) db') → wp (lq_create_trigger what name) Q db.
Proof.
  intros Hr He Ho. apply wp_bind. eapply wp_call; [exact Hr| |exact He]. intros db' Hr'. unfold wp. cbn. apply Ho; [exact Hr'|].
  cbn. case_bool_decide; [done|]. by left.
Qed.

Lemma wp_delete what guard abort P (Q : A → Prop) `{∀ a, Decision (Q a)} l db (post : result Z Error → LqDb R → Prop) :
  lq_rep l db → guard ∉ lq_triggers db → Forall (fun a => P (insert_row a) = bool_decide (Q a)) l →
  (∀ e db', ¬ calm → lq_rep l db' → post (Err e) db') →
  (∀ db', lq_rep (filter (fun a => ¬ Q a) l) db' → post (Ok (Z.of_nat (length (filter Q l)))) db') →
  wp (lq_delete what guard abort P) post db.
Proof.
  intros Hr Hg HP He Ho. pose proof (quiet_call what db) as Ht. unfold lq_delete, wp, bind.
  pose proof (wp_call what l db (fun r db' => match r with Ok _ => lq_rep l db' | Err _ => ¬ calm ∧ lq_rep l db' end) Hr) as Hw.
  unfold wp in Hw. destruct (lq_call what db) as [[[]|e] db'].
  - cbn in Ht. rewrite Ht, bool_decide_false by done. cbn in *. destruct Hw as (Er & Hok & Hc); [done|by split|].
    rewrite Er, (filter_rep _ Q), length_map by done. apply Ho. split_and!; try done.
    + cbn. apply filter_rep. eapply Forall_impl; [exact HP|]. cbn. intros a ->. by rewrite bool_decide_not.
    + rewrite Forall_forall in *. intros a [_ ?]%list_elem_of_filter. auto.
  - destruct Hw as [? ?]; [done|by split|]. by apply He.
Qed.

(** Reading the rows of an answer: all of them, or the first ones when a read
    fails. *)
Lemma wp_collect {B} (parse : R → result B Error) g sel l (Q : result (list B) Error → LqDb R → Prop) :
  Forall (fun a => parse (insert_row a) = Ok (g a)) sel → ∀ db, lq_rep l db →
  (∀ db', lq_rep l db' → Q (Ok (map g sel)) db') → (∀ k db', ¬ calm → lq_rep l db' → Q (Ok (map g (take k sel))) db') →
  wp (lq_collect parse (map insert_row sel)) Q db.
Proof.
  intros Hp. revert Q. induction Hp as [|a sel Ha Hp IH]; intros Q db Hr Ho Hc; unfold wp; cbn;
    destruct (next_rep l db Hr) as [Hr' Hn]; destruct (lq_next db) as [[msg|] db']; cbn in Hr', Hn.
  - apply (Hc 0%nat); [by destruct Hn|done].
  - by apply Ho.
  - apply (Hc 0%nat); [by destruct Hn|done].
  - unfold bind at 1, lift. rewrite Ha. change (wp (let! l := lq_collect parse (map insert_row sel) in ret (g a :: l)) Q db').
    apply wp_bind, IH; [done|..]; intros; unfold wp; cbn; [by apply Ho|]. by apply (Hc (S k)).
Qed.

(** Reading one row: that row, or an error when the read fails. *)
Lemma wp_first {B} what (parse : R → result B Error) g sel l db (Q : result (option B) Error → LqDb R → Prop) :
  lq_rep l db → Forall (fun a => parse (insert_row a) = Ok (g a)) sel →
  (∀ db', lq_rep l db' → Q (Ok (g <$> head sel)) db') → (∀ e db', ¬ calm → lq_rep l db' → Q (Err e) db') →
  wp (lq_first what parse (map insert_row sel)) Q db.
Proof.
  intros Hr Hp Ho He. unfold wp, lq_first. destruct (next_rep l db Hr) as [Hr' Hn]. destruct (lq_next db) as [[msg|] db']; cbn in Hr', Hn.
  - apply He; [by destruct Hn|done].
  - destruct Hp as [|a sel Ha _]; [by apply Ho|]. cbn. unfold bind, lift. rewrite Ha. by apply Ho.
Qed.

Lemma update_rep (P : R → bool) (Q : A → Prop) `{∀ a, Decision (Q a)} f g l :
  Forall (fun a => P (insert_row a) = bool_decide (Q a) ∧ (Q a → f (insert_row a) = insert_row (g a))) l →
  lq_update P f (map insert_row l) =
    (Z.of_nat (length (filter Q l)), map insert_row (map (fun a => if decide (Q a) then g a else a) l)).
Proof.
  intros Hl. unfold lq_update. f_equal.
  - rewrite (filter_rep P Q), length_map; [done|]. eapply Forall_impl; [exact Hl|]. by intros a [].
  - rewrite !map_map. apply map_ext_Forall. eapply Forall_impl; [exact Hl|]. intros a [-> Hf]. cbn.
    case_bool_decide; case_decide; by auto.
Qed.

Lemma sorted_map_inv (S1 : R → R → Prop) (S2 : A → A → Prop) l :
  Forall ok l → (∀ a a', ok a → ok a' → S1 (insert_row a) (insert_row a') → S2 a a') →
  Sorted S1 (map insert_row l) → Sorted S2 l.
Proof.
  intros Hok HS. induction Hok as [|a l Ha Hl IH]; cbn; [constructor|].
  intros [Hs Hh]%Sorted_inv. constructor; [by apply IH|]. destruct Hl as [|a' l Ha' Hl]; [constructor|].
  apply HdRel_inv in Hh. constructor. by apply HS.
Qed.

Lemma sort_rep (S1 : R → R → Prop) `{∀ r r', Decision (S1 r r')} `{!Total S1} (S2 : A → A → Prop) l :
  Forall ok l → (∀ a a', ok a → ok a' → S1 (insert_row a) (insert_row a') → S2 a a') →
  ∃ l', merge_sort S1 (map insert_row l) = map insert_row l' ∧ l' ≡ₚ l ∧ Sorted S2 l'.
Proof.
  intros Hok HS.
  assert (merge_sort S1 (map insert_row l) ≡ₚ map insert_row l) as Hs by apply merge_sort_Permutation.
  destruct (Permutation_map_inv insert_row l Hs) as (l' & E & Hp). symmetry in Hp.
  exists l'. split; [done|]. split; [done|]. apply (sorted_map_inv S1); [by rewrite Hp|done|].
  rewrite <- E. apply Sorted_merge_sort, _.
Qed.

Lemma order_asc_rep key (pos : A → Z) l :
  Forall ok l → (∀ a, ok a → key (insert_row a) = pos a) →
  ∃ l', order_asc key (map insert_row l) = map insert_row l' ∧ l' ≡ₚ l ∧ Sorted (fun a a' => pos a ≤ pos a') l'.
Proof. intros Hok Hk. apply sort_rep; [apply _|done|]. intros a a' Ha Ha'. unfold int_asc. by rewrite !Hk. Qed.

Lemma limit_rep limit l : 0 ≤ limit < 2 ^ 63 →
  lq_limit limit (map insert_row l) = map insert_row (take (Z.to_nat limit) l).
Proof.
  intros Hl. unfold lq_limit. rewrite as_signed_small by done.
  destruct (Z.ltb_spec limit 0); [lia|]. by rewrite firstn_map.
Qed.

Lemma offset_rep offset l : 0 ≤ offset < 2 ^ 63 →
  lq_offset offset (map insert_row l) = map insert_row (drop (Z.to_nat offset) l).
Proof.
  intros Hl. unfold lq_offset. rewrite as_signed_small by done. destruct (Z.ltb_spec offset 0); [lia|]. by rewrite skipn_map.
Qed.

Lemma order_text_asc_rep `{TimeTextLaws} key (time : A → option Z) l :
  Forall ok l → (∀ a, ok a → (∀ t, time a = Some t → four_digit_year t) ∧ key (insert_row a) = to_rfc3339 <$> time a) →
  ∃ l', order_text_asc key (map insert_row l) = map insert_row l' ∧ l' ≡ₚ l ∧ Sorted (fun a a' => opt_le Z.le (time a) (time a')) l'.
Proof.
  intros Hok Hk. apply sort_rep; [apply _|done|]. intros a a' [Ha Ea]%Hk [Ha' Ea']%Hk. unfold text_asc. rewrite Ea, Ea'.
  destruct (time a) as [t|], (time a') as [t'|]; try done. cbn. unfold String.le. rewrite rfc3339_order by auto. by rewrite bool_decide_spec.
Qed.

Lemma order_desc_rep `{TimeTextLaws} key (time : A → Z) l :
  Forall ok l → (∀ a, ok a → four_digit_year (time a) ∧ key (insert_row a) = to_rfc3339 (time a)) →
  ∃ l', order_desc key (map insert_row l) = map insert_row l' ∧ l' ≡ₚ l ∧
    Sorted (fun a a' => time a' ≤ time a) l'.
Proof.
  intros Hok Hk. apply sort_rep; [apply _|done|]. intros a a' [Ha Ea]%Hk [Ha' Ea']%Hk.
  unfold text_desc, String.le. rewrite Ea, Ea', rfc3339_order by done. by rewrite bool_decide_spec.
Qed.

Lemma rep_ok l db : lq_rep l db → Forall ok l.
Proof. by intros (_ & ? & _). Qed.

Lemma ok_filter (P : A → Prop) `{∀ a, Decision (P a)} l : Forall ok l → Forall ok (filter P l).
Proof. rewrite !Forall_forall. intros Hl a [_ ?]%list_elem_of_filter. auto. Qed.

(** *** Operations that implement a specification *)

Section Refine.
Context {Op Reply : Type} (spec : Op → list A → Reply → list A → Prop) (refuses : Op → list A → Prop)
  (cut : Op → list A → Reply → Prop).
Context (parse : R → result A Error) (parses : ∀ a, ok a → parse (insert_row a) = Ok a).

(** A call ends as the specification says. It fails without effect when it is
    refused, or, unless [calm], because a call of the driver or a read failed; and a
    failed read can also make it answer from part of the rows ([cut]), again
    without effect. *)
Definition post (op : Op) (l : list A) (r : result Reply Error) (db : LqDb R) : Prop :=
  match r with
  | Ok reply => (∃ l', spec op l reply l' ∧ lq_rep l' db) ∨ (¬ calm ∧ cut op l reply ∧ lq_rep l db)
  | Err _ => (¬ calm ∨ refuses op l) ∧ lq_rep l db
  end.

Lemma post_ok op l reply l' db : spec op l reply l' → lq_rep l' db → post op l (Ok reply) db.
Proof. intros. left. by exists l'. Qed.

Lemma post_fault op l e db : ¬ calm → lq_rep l db → post op l (Err e) db.
Proof. split; [by left|done]. Qed.

Lemma parses_all l : Forall ok l → Forall (fun a => parse (insert_row a) = Ok (id a)) l.
Proof. intros Hl. eapply Forall_impl; [exact Hl|]. exact parses. Qed.

(** An operation that only connects and runs one statement. *)
Lemma refine_execute {B} op (answer : B → Reply) (out : result (B * list A) string) c what stmt l db :
  lq_rep l db →
  match out with
  | Ok (b, l') => stmt (map insert_row l) = Ok (b, map insert_row l') ∧ Forall ok l' ∧ spec op l (answer b) l'
  | Err _ => (∃ msg, stmt (map insert_row l) = Err msg) ∧ refuses op l
  end →
  wp (let! b := (lq_connect c ;; lq_execute what stmt) in ret (answer b)) (post op l) db.
Proof.
  intros Hr Hs. apply wp_bind, wp_bind. eapply wp_call; [exact Hr| |intros; by apply post_fault].
  clear db Hr. intros db Hr. eapply (wp_execute what stmt out); [exact Hr|by destruct out as [[b l']|]; naive_solver|..].
  - intros e db' Hc Hr'. split; [|done]. destruct Hc as [?|Hc]; [by left|]. right. destruct out as [[]|]; [done|]. by destruct Hs.
  - intros b l' db' -> Hr'. eapply post_ok; [|exact Hr']. by destruct Hs as (_ & _ & ?).
Qed.

(** Operations that read: the statement selects rows, which read back as they
    were written. *)
Lemma refine_first op c what what' select sel (answer : option A → Reply) l db :
  lq_rep l db → Forall ok sel → select (map insert_row l) = map insert_row sel → spec op l (answer (head sel)) l →
  wp (let! o := (lq_connect c ;; let! rows := lq_query what select in lq_first what' parse rows) in ret (answer o)) (post op l) db.
Proof.
  intros Hr Hok Hs Hspec. apply wp_bind, wp_bind. eapply wp_call; [exact Hr| |intros; by apply post_fault].
  clear db Hr. intros db Hr. apply wp_bind. eapply wp_query; [exact Hr|exact Hs|intros; by apply post_fault|].
  clear db Hr. intros db Hr. eapply wp_first; [exact Hr|by apply parses_all| |intros; by apply post_fault].
  intros db' Hr'. eapply post_ok; [|exact Hr']. by destruct sel.
Qed.

Lemma refine_collect_then {B} op c what select sel (f : list A → B) (answer : B → Reply) l db :
  lq_rep l db → Forall ok sel → select (map insert_row l) = map insert_row sel →
  spec op l (answer (f sel)) l → (∀ k, cut op l (answer (f (take k sel)))) →
  wp (let! b := (lq_connect c ;; let! rows := lq_query what select in let! es := lq_collect parse rows in ret (f es)) in ret (answer b))
    (post op l) db.
Proof.
  intros Hr Hok Hs Hspec Hcut. apply wp_bind, wp_bind. eapply wp_call; [exact Hr| |intros; by apply post_fault].
  clear db Hr. intros db Hr. apply wp_bind. eapply wp_query; [exact Hr|exact Hs|intros; by apply post_fault|].
  clear db Hr. intros db Hr. apply wp_bind. eapply wp_collect; [by apply parses_all|exact Hr|..].
  - intros db' Hr'. rewrite map_id. by eapply post_ok.
  - intros k db' Hn Hr'. rewrite map_id. right. split; [done|]. split; [apply Hcut|done].
Qed.

Lemma refine_collect op c what select sel (answer : list A → Reply) l db :
  lq_rep l db → Forall ok sel → select (map insert_row l) = map insert_row sel →
  spec op l (answer sel) l → (∀ k, cut op l (answer (take k sel))) →
  wp (let! es := (lq_connect c ;; let! rows := lq_query what select in lq_collect parse rows) in ret (answer es)) (post op l) db.
Proof.
  intros Hr Hok Hs Hspec Hcut.
  pose proof (refine_collect_then op c what select sel id answer l db Hr Hok Hs Hspec Hcut) as Hw.
  unfold wp in *. enough (∀ db, (let! es := (lq_connect c ;; let! rows := lq_query what select in lq_collect parse rows) in ret (answer es)) db =
    (let! es := (lq_connect c ;; let! rows := lq_query what select in let! es := lq_collect parse rows in ret (id es)) in ret (answer es)) db) as -> by exact Hw.
  clear. intros db. unfold bind. destruct (lq_connect c db) as [[] db1]; [|done]. destruct (lq_query what select db1) as [[rows|] db2]; [|done].
  by destruct (lq_collect parse rows db2) as [[] ?].
Qed.

(** Runs of the specification, with the calls that failed and the answers that
    were cut short. *)
Inductive trace : list A → list Op → list (result Reply Error) → list A → Prop :=
| trace_nil l : trace l [] [] l
| trace_ok l op reply l1 ops replies l' :
    spec op l reply l1 → trace l1 ops replies l' → trace l (op :: ops) (Ok reply :: replies) l'
| trace_err l op e ops replies l' :
    ¬ calm ∨ refuses op l → trace l ops replies l' → trace l (op :: ops) (Err e :: replies) l'
| trace_cut l op reply ops replies l' :
    ¬ calm → cut op l reply → trace l ops replies l' → trace l (op :: ops) (Ok reply :: replies) l'.

Fixpoint run_ops (exec : Op → L Reply) (ops : list Op) (db : LqDb R) : list (result Reply Error) * LqDb R :=
  match ops with
  | [] => ([], db)
  | op :: ops => let '(r, db) := exec op db in let '(rs, db) := run_ops exec ops db in (r :: rs, db)
  end.

Lemma run_refines exec (op_ok : Op → Prop) ops :
  (∀ op l db, op_ok op → lq_rep l db → wp (exec op) (post op l) db) → Forall op_ok ops →
  ∀ l db, lq_rep l db → ∃ l', trace l ops (run_ops exec ops db).1 l' ∧ lq_rep l' (run_ops exec ops db).2.
Proof.
  intros Hop. induction 1 as [|op ops Ho _ IH]; intros l db Hr; cbn; [by exists l; split; [constructor|]|].
  pose proof (Hop op l db Ho Hr) as Hp. unfold wp in Hp. destruct (exec op db) as [r db1]. cbn in Hp.
  destruct r as [reply|e].
  - destruct Hp as [(l1 & Hs & Hr1)|(Hn & Hcut & Hr1)].
    + destruct (IH l1 db1 Hr1) as (l' & Ht & Hr'). exists l'. destruct (run_ops exec ops db1). split; [|done]. by eapply trace_ok.
    + destruct (IH l db1 Hr1) as (l' & Ht & Hr'). exists l'. destruct (run_ops exec ops db1). split; [|done]. by apply trace_cut.
  - destruct Hp as (Hc & Hr1). destruct (IH l db1 Hr1) as (l' & Ht & Hr'). exists l'.
    destruct (run_ops exec ops db1). split; [|done]. by apply trace_err.
Qed.

(** What the specification keeps is kept. *)
Lemma trace_keeps (I : list A → Prop) :
  (∀ op l reply l', spec op l reply l' → I l → I l') → ∀ l ops replies l', trace l ops replies l' → I l → I l'.
Proof. intros Hs. induction 1; eauto. Qed.
End Refine.
End Rep.
End Libsql.

(** ** Example: times as binary text *)

Module TimeExample.
Local Close Scope monad_scope.

Fixpoint binary (n : nat) (z : Z) : string :=
  match n with
  | O => ""
  | S n => String (if z <? 2 ^ Z.of_nat n then "0" else "1") (binary n (z mod 2 ^ Z.of_nat n))
  end.

Fixpoint from_binary (s : string) : Z :=
  match s with
  | EmptyString => 0
  | String c s => (if Ascii.eqb c "1" then 2 ^ Z.of_nat (String.length s) else 0) + from_binary s
  end.

Lemma binary_length n : ∀ z, String.length (binary n z) = n.
Proof. induction n as [|n IH]; intros z; [done|]. cbn. by rewrite IH. Qed.

Lemma from_binary_binary n : ∀ z, 0 ≤ z < 2 ^ Z.of_nat n → from_binary (binary n z) = z.
Proof.
  induction n as [|n IH]; intros z Hz; [cbn in *; lia|]. cbn [binary from_binary]. rewrite binary_length.
  rewrite Nat2Z.inj_succ, Z.pow_succ_r in Hz by lia. assert (0 < 2 ^ Z.of_nat n) by (apply Z.pow_pos_nonneg; lia).
  rewrite IH by (apply Z.mod_pos_bound; lia). destruct (z <? 2 ^ Z.of_nat n) eqn:E; cbn.
  - apply Z.ltb_lt in E. rewrite Z.mod_small; lia.
  - apply Z.ltb_ge in E. assert (z mod 2 ^ Z.of_nat n = z - 2 ^ Z.of_nat n) as ->; [|lia].
    symmetry. apply (Z.mod_unique _ _ 1); lia.
Qed.

Lemma binary_order n : ∀ a b, 0 ≤ a < 2 ^ Z.of_nat n → 0 ≤ b < 2 ^ Z.of_nat n →
  String.leb (binary n a) (binary n b) = bool_decide (a ≤ b).
Proof.
  induction n as [|n IH]; intros a b Ha Hb; [assert (a = 0 ∧ b = 0) as [-> ->] by (change (2 ^ Z.of_nat 0) with 1 in *; lia); done|].
  rewrite Nat2Z.inj_succ, Z.pow_succ_r in Ha, Hb by lia. assert (0 < 2 ^ Z.of_nat n) by (apply Z.pow_pos_nonneg; lia).
  assert (∀ z, 0 ≤ z < 2 * 2 ^ Z.of_nat n → z mod 2 ^ Z.of_nat n = if z <? 2 ^ Z.of_nat n then z else z - 2 ^ Z.of_nat n) as Hm.
  { intros z Hz. destruct (Z.ltb_spec z (2 ^ Z.of_nat n)); [apply Z.mod_small; lia|]. symmetry. apply (Z.mod_unique _ _ 1); lia. }
  specialize (IH (a mod 2 ^ Z.of_nat n) (b mod 2 ^ Z.of_nat n)). rewrite !Hm in IH by lia. unfold String.leb in *. cbn [binary]. rewrite !Hm by lia.
  revert IH. destruct (Z.ltb_spec a (2 ^ Z.of_nat n)), (Z.ltb_spec b (2 ^ Z.of_nat n)); cbn; intros IH.
  - apply IH; lia.
  - by rewrite bool_decide_true by lia.
  - by rewrite bool_decide_false by lia.
  - etrans; [apply IH; lia|]. apply bool_decide_ext. lia.
Qed.

Definition epoch : Z := 62167219200 * 10 ^ 9.

#[export] Instance binary_chain : ChainEnv := {| to_rfc3339 := fun t => binary 69 (t + epoch); blake3_hex := blake3_hex (ChainEnv := witness_env);
  scalar_to_string := scalar_to_string (ChainEnv := witness_env) |}.

#[export] Instance binary_text : TimeText := {|
  parse_rfc3339 s := if String.eqb s "" then Err "too short" else Ok (from_binary s - epoch) |}.

#[export] Instance binary_text_laws : TimeTextLaws.
Proof.
  assert (∀ t, four_digit_year t → 0 ≤ t + epoch < 2 ^ Z.of_nat 69) as Hr.
  { intros t. unfold four_digit_year, epoch. change (2 ^ Z.of_nat 69) with 590295810358705651712. lia. }
  split.
  - intros t Ht%Hr. cbn [parse_rfc3339 binary_text to_rfc3339 binary_chain].
    destruct (String.eqb_spec (binary 69 (t + epoch)) "") as [E|_]; [by apply (f_equal String.length) in E; rewrite binary_length in E|].
    rewrite from_binary_binary by done. f_equal. lia.
  - done.
  - intros t t' Ht%Hr Ht'%Hr. cbn [to_rfc3339 binary_chain]. rewrite binary_order by done. apply bool_decide_ext. lia.
Qed.
End TimeExample.
