(* ===== verification/TursoKeys.v ===== *)
(** * Signing keys in Turso

    [src/acton-service/src/auth/key_rotation/storage/turso.rs] on the tables of
    [Libsql]: the rows, the operations of the trait, and the proof that, whatever
    connections, statements and reads fail, they are operations on a list of
    keys. Reading the columns of a row cannot fail: their
    types are those of the table. *)

From stdpp Require Import pretty.
From S2P Require Import Prelude FrameworkError AuditChain KeyStorage Libsql.

Local Open Scope string_scope.
Local Open Scope Z_scope.
Local Open Scope list_scope.
Local Open Scope monad_scope.

(** A row of [signing_keys]: text in every column. *)
Record TkRow := mkTkRow {
  tk_kid : string;
  tk_format : string;
  tk_key_material : string;
  tk_status : string;
  tk_created_at : string;
  tk_activated_at : option string;
  tk_draining_since : option string;
  tk_retired_at : option string;
  tk_drain_expires_at : option string;
  tk_service_name : string;
  tk_key_hash : string;
}.

Section TursoKeys.
Context `{TimeText}.

(** Text of a violated constraint. *)
Context (unique_kid : string).

Abbreviation K := (M (LqDb TkRow) Error).

(** The values [store_key] binds. *)
Definition tk_insert_row (key : SigningKeyMetadata) : TkRow :=
  mkTkRow (key_kid key) (format_to_string (key_format key)) (key_material key)
    (key_status_to_string (key_status key)) (to_rfc3339 (key_created_at key))
    (to_rfc3339 <$> key_activated_at key) (to_rfc3339 <$> key_draining_since key)
    (to_rfc3339 <$> key_retired_at key) (to_rfc3339 <$> key_drain_expires_at key)
    (key_service_name key) (key_hash key).

(** [NULL] cannot be read as text, and counts as no time. *)
Definition parse_optional_timestamp (index : Z) (column : option string) : result (option Z) Error :=
  match column with
  | Some s =>
      if String.eqb s "" then Ok None
      else match parse_rfc3339 s with
           | Ok dt => Ok (Some dt)
           | Err e => Err (Error_Internal ("Failed to parse timestamp at column " +:+ pretty index +:+ ": " +:+ e))
           end
  | None => Ok None
  end.

Definition row_to_metadata (row : TkRow) : result SigningKeyMetadata Error :=
  (let? format := map_err (fun e => Error_Internal ("Invalid key format in database: " +:+ e)) (format_from_str (tk_format row)) in
   let? status := map_err (fun e => Error_Internal ("Invalid key status in database: " +:+ e)) (key_status_from_str (tk_status row)) in
   let? created_at := map_err (fun e => Error_Internal ("Failed to parse created_at: " +:+ e)) (parse_rfc3339 (tk_created_at row)) in
   let? activated_at := parse_optional_timestamp 5 (tk_activated_at row) in
   let? draining_since := parse_optional_timestamp 6 (tk_draining_since row) in
   let? retired_at := parse_optional_timestamp 7 (tk_retired_at row) in
   let? drain_expires_at := parse_optional_timestamp 8 (tk_drain_expires_at row) in
   Ok (mkKey (tk_kid row) format (tk_key_material row) status created_at activated_at draining_since retired_at
         drain_expires_at (tk_service_name row) (tk_key_hash row)))%rust.

Definition tk_connect : K unit := lq_connect "Failed to connect for key rotation: ".

Definition tk_initialize : K unit :=
  tk_connect ;;
  lq_execute "Failed to create signing_keys table: " (fun rows => Ok (tt, rows)) ;;
  lq_execute "Failed to create signing_keys status index: " (fun rows => Ok (tt, rows)) ;;
  lq_execute "Failed to create signing_keys service index: " (fun rows => Ok (tt, rows)).

Definition tk_store_key (key : SigningKeyMetadata) : K unit :=
  tk_connect ;;
  lq_execute "Failed to store signing key: " (fun rows =>
    if bool_decide (key_kid key ∈ tk_kid <$> rows) then Err unique_kid else Ok (tt, rows ++ [tk_insert_row key])).

Definition tk_get_active_key (service_name : string) : K (option SigningKeyMetadata) :=
  tk_connect ;;
  let! rows := lq_query "Failed to get active signing key: " (fun rows => take 1
    (List.filter (fun r => String.eqb (tk_service_name r) service_name && String.eqb (tk_status r) "active") rows)) in
  lq_first "Failed to read signing key row: " row_to_metadata rows.

Definition tk_get_key_by_kid (kid : string) : K (option SigningKeyMetadata) :=
  tk_connect ;;
  let! rows := lq_query "Failed to get signing key by kid: " (List.filter (fun r => String.eqb (tk_kid r) kid)) in
  lq_first "Failed to read signing key row: " row_to_metadata rows.

Definition tk_get_verification_keys (service_name : string) : K (list SigningKeyMetadata) :=
  tk_connect ;;
  let! rows := lq_query "Failed to get verification keys: " (fun rows => order_desc tk_created_at
    (List.filter (fun r => String.eqb (tk_service_name r) service_name &&
                           (String.eqb (tk_status r) "active" || String.eqb (tk_status r) "draining")) rows)) in
  lq_collect row_to_metadata rows.

(** The columns an [UPDATE] sets. *)
Definition tk_set_status (status : string) (activated draining retired : option string) (r : TkRow) : TkRow :=
  mkTkRow (tk_kid r) (tk_format r) (tk_key_material r) status (tk_created_at r) activated draining retired
    (tk_drain_expires_at r) (tk_service_name r) (tk_key_hash r).

Definition tk_update_key_status (kid : string) (new_status : KeyStatus) (timestamp : Z) : K unit :=
  tk_connect ;;
  let ts := to_rfc3339 timestamp in
  let! affected := lq_execute "Failed to update signing key status: " (fun rows => Ok
    match new_status with
    | KeyActive => lq_update (fun r => String.eqb (tk_kid r) kid)
        (fun r => tk_set_status "active" (Some ts) (tk_draining_since r) (tk_retired_at r) r) rows
    | KeyDraining => lq_update (fun r => String.eqb (tk_kid r) kid && String.eqb (tk_status r) "active")
        (fun r => tk_set_status "draining" (tk_activated_at r) (Some ts) (tk_retired_at r) r) rows
    | KeyRetired => lq_update (fun r => String.eqb (tk_kid r) kid && String.eqb (tk_status r) "draining")
        (fun r => tk_set_status "retired" (tk_activated_at r) (tk_draining_since r) (Some ts) r) rows
    end) in
  if affected =? 0
  then fail (Error_Conflict ("Key '" +:+ kid +:+ "' was not updated to '" +:+ key_status_to_string new_status +:+
         "' -- it may not exist or is not in the expected state"))
  else ret tt.

(** [drain_expires_at <= ?1], which is not true of [NULL]. *)
Definition tk_retire_expired_draining_keys (now : Z) : K Z :=
  tk_connect ;;
  let now_str := to_rfc3339 now in
  lq_execute "Failed to retire expired draining keys: " (fun rows => Ok
    (lq_update (fun r => String.eqb (tk_status r) "draining" &&
                         match tk_drain_expires_at r with Some d => String.leb d now_str | None => false end)
       (fun r => tk_set_status "retired" (tk_activated_at r) (tk_draining_since r) (Some now_str) r) rows)).

#[global] Instance TursoKeyRotationStorage : KeyRotationStorage (LqDb TkRow) := {|
  ks_initialize := tk_initialize;
  ks_store_key := tk_store_key;
  ks_get_active_key := tk_get_active_key;
  ks_get_key_by_kid := tk_get_key_by_kid;
  ks_get_verification_keys := tk_get_verification_keys;
  ks_update_key_status := tk_update_key_status;
  ks_retire_expired_draining_keys := tk_retire_expired_draining_keys;
|}.
End TursoKeys.

(** ** The trait as operations on a list of keys *)

Inductive KeyOp :=
| KoInitialize
| KoStore (key : SigningKeyMetadata)
| KoActive (service_name : string)
| KoByKid (kid : string)
| KoVerification (service_name : string)
| KoUpdate (kid : string) (new_status : KeyStatus) (timestamp : Z)
| KoRetire (now : Z).

Inductive KeyReply :=
| KrUnit
| KrKey (key : option SigningKeyMetadata)
| KrKeys (keys : list SigningKeyMetadata)
| KrCount (n : Z).

Definition key_op {S} `{!KeyRotationStorage S} (op : KeyOp) : M S Error KeyReply :=
  match op with
  | KoInitialize => ks_initialize ;; ret KrUnit
  | KoStore key => ks_store_key key ;; ret KrUnit
  | KoActive service_name => let! o := ks_get_active_key service_name in ret (KrKey o)
  | KoByKid kid => let! o := ks_get_key_by_kid kid in ret (KrKey o)
  | KoVerification service_name => let! keys := ks_get_verification_keys service_name in ret (KrKeys keys)
  | KoUpdate kid new_status timestamp => ks_update_key_status kid new_status timestamp ;; ret KrUnit
  | KoRetire now => let! n := ks_retire_expired_draining_keys now in ret (KrCount n)
  end.

(** What a successful operation answers and does. *)
Definition key_spec (op : KeyOp) (l : list SigningKeyMetadata) (reply : KeyReply) (l' : list SigningKeyMetadata) : Prop :=
  match op, reply with
  | KoInitialize, KrUnit => l' = l
  | KoStore key, KrUnit => (key_kid key ∉ key_kid <$> l) ∧ l' = l ++ [key]
  | KoActive service_name, KrKey o => l' = l ∧ o = head (filter (active_in service_name) l)
  | KoByKid kid, KrKey o => l' = l ∧ o = head (filter (fun k => key_kid k = kid) l)
  | KoVerification service_name, KrKeys keys =>
      l' = l ∧ keys ≡ₚ filter (verifies_in service_name) l ∧
      Sorted (fun k k' => key_created_at k' ≤ key_created_at k) keys
  | KoUpdate kid new_status timestamp, KrUnit =>
      (∃ k, k ∈ l ∧ key_kid k = kid ∧ is_Some (transition new_status timestamp k)) ∧
      l' = transition_where kid new_status timestamp l
  | KoRetire now, KrCount n =>
      n = Z.of_nat (length (filter (drained_by now) l)) ∧
      l' = map (fun k => if decide (drained_by now k) then retire KeyRetired now k else k) l
  | _, _ => False
  end.

(** What it must refuse. *)
Definition key_refuses (op : KeyOp) (l : list SigningKeyMetadata) : Prop :=
  match op with
  | KoStore key => key_kid key ∈ key_kid <$> l
  | KoUpdate kid new_status timestamp => ∀ k, k ∈ l → key_kid k = kid → transition new_status timestamp k = None
  | _ => False
  end.

(** An answer cut short by a failed read: the first of the verification keys. *)
Definition key_cut (op : KeyOp) (l : list SigningKeyMetadata) (reply : KeyReply) : Prop :=
  match op, reply with
  | KoVerification _, KrKeys keys => ∃ rest, key_spec op l (KrKeys (keys ++ rest)) l
  | _, _ => False
  end.

(** Times of four-digit years. *)
Definition in_range (o : option Z) : Prop := match o with Some t => four_digit_year t | None => True end.

Definition key_in_range (k : SigningKeyMetadata) : Prop :=
  four_digit_year (key_created_at k) ∧ in_range (key_activated_at k) ∧ in_range (key_draining_since k) ∧
  in_range (key_retired_at k) ∧ in_range (key_drain_expires_at k).

Definition op_in_range (op : KeyOp) : Prop :=
  match op with
  | KoStore key => key_in_range key
  | KoUpdate _ _ t | KoRetire t => four_digit_year t
  | _ => True
  end.

(** ** The backend implements them *)

Section Refine.
Context `{TimeTextLaws} (unique_kid : string) (calm : Prop).

#[local] Instance turso_keys : KeyRotationStorage (LqDb TkRow) := TursoKeyRotationStorage unique_kid.

Abbreviation rep := (lq_rep tk_insert_row key_in_range calm).

Lemma optional_timestamp_roundtrip index t : in_range t → parse_optional_timestamp index (to_rfc3339 <$> t) = Ok t.
Proof.
  intros Ht. destruct t as [t|]; [|done]. cbn. pose proof (parse_to_rfc3339 t Ht) as Hp.
  destruct (String.eqb_spec (to_rfc3339 t) "") as [E|_]; [|by rewrite Hp].
  rewrite E in Hp. pose proof parse_empty as Hn. by rewrite Hp in Hn.
Qed.

Lemma row_to_metadata_roundtrip k : key_in_range k → row_to_metadata (tk_insert_row k) = Ok k.
Proof.
  intros (Hc & Ha & Hd & Hr & He). unfold row_to_metadata. cbn -[parse_optional_timestamp].
  rewrite format_from_to_string, key_status_from_to_string, parse_to_rfc3339 by done. cbn -[parse_optional_timestamp].
  rewrite !optional_timestamp_roundtrip by done. by destruct k.
Qed.

Lemma status_eqb (st : KeyStatus) (k : SigningKeyMetadata) :
  String.eqb (key_status_to_string (key_status k)) (key_status_to_string st) = bool_decide (key_status k = st).
Proof. by destruct (key_status k), st. Qed.

Abbreviation kpost := (post tk_insert_row key_in_range calm key_spec key_refuses key_cut).
Abbreviation refines op := (∀ l db, rep l db → wp (key_op op) (kpost op l) db).

Lemma refine_store key : key_in_range key → refines (KoStore key).
Proof.
  intros Hk l db Hr. pose proof (rep_ok _ _ _ _ _ Hr) as Hok.
  apply (refine_execute _ _ _ _ _ _ _ (fun _ => KrUnit) (if bool_decide (key_kid key ∈ key_kid <$> l) then Err "" else Ok (tt, l ++ [key]))); [exact Hr|].
  assert ((tk_kid <$> map tk_insert_row l) = key_kid <$> l) as -> by (rewrite <- list_fmap_compose; done).
  case_bool_decide; [by split; [eexists|]|]. rewrite map_app. split_and!; [done| |done..].
  apply Forall_app. split; [done|by apply Forall_singleton].
Qed.

Lemma refine_active service_name : refines (KoActive service_name).
Proof.
  intros l db Hr. pose proof (rep_ok _ _ _ _ _ Hr) as Hok.
  eapply (refine_first _ _ _ _ _ _ _ row_to_metadata_roundtrip _ _ _ _ _ (take 1 (filter (active_in service_name) l))); [exact Hr|..].
  - by apply Forall_take, ok_filter.
  - rewrite (filter_rep _ _ (active_in service_name)), <- firstn_map; [done|]. apply Forall_true. intros k. cbn.
    rewrite (status_eqb KeyActive). unfold active_in. destruct (String.eqb_spec (key_service_name k) service_name); repeat case_bool_decide; naive_solver.
  - cbn. split; [done|]. by destruct (filter _ l).
Qed.

Lemma refine_by_kid kid : refines (KoByKid kid).
Proof.
  intros l db Hr. pose proof (rep_ok _ _ _ _ _ Hr) as Hok.
  eapply (refine_first _ _ _ _ _ _ _ row_to_metadata_roundtrip _ _ _ _ _ (filter (fun k => key_kid k = kid) l)); [exact Hr| |..|done].
  - by apply ok_filter.
  - apply filter_rep. apply Forall_true. intros k. cbn. by destruct (String.eqb_spec (key_kid k) kid); case_bool_decide.
Qed.

Lemma refine_verification service_name : refines (KoVerification service_name).
Proof.
  intros l db Hr. pose proof (rep_ok _ _ _ _ _ Hr) as Hok.
  destruct (order_desc_rep tk_insert_row key_in_range tk_created_at key_created_at (filter (verifies_in service_name) l))
    as (sel & Hsel & Hp & Hsorted); [by apply ok_filter|by intros k [? _]|].
  eapply (refine_collect _ _ _ _ _ _ _ row_to_metadata_roundtrip _ _ _ _ sel); [exact Hr|rewrite Hp; by apply ok_filter| |done|].
  2:{ intros n. exists (drop n sel). cbn. by rewrite take_drop. }
  erewrite filter_rep; [exact Hsel|]. apply Forall_true. intros k. cbn.
  rewrite (status_eqb KeyActive), (status_eqb KeyDraining). unfold verifies_in.
  destruct (String.eqb_spec (key_service_name k) service_name); repeat case_bool_decide; naive_solver.
Qed.

(** The transition to a status, on the rows and keys it applies to. *)
Lemma refine_transition st t kid (Q : SigningKeyMetadata → Prop) `{∀ k, Decision (Q k)} what e stmt P f g l db :
  rep l db → (∀ rows, stmt rows = Ok (lq_update P f rows)) →
  (∀ k, P (tk_insert_row k) = bool_decide (Q k) ∧ (Q k → f (tk_insert_row k) = tk_insert_row (g k))) →
  (∀ k, key_in_range k → key_in_range (g k)) →
  (∀ k, Q k ↔ key_kid k = kid ∧ is_Some (transition st t k)) → (∀ k, Q k → transition st t k = Some (g k)) →
  wp ((tk_connect ;; let! affected := lq_execute what stmt in if affected =? 0 then fail e else ret tt) ;; ret KrUnit)
    (kpost (KoUpdate kid st t) l) db.
Proof.
  intros Hr Hst HPQ Hg HQ Htr. apply wp_bind, wp_bind. eapply wp_call; [exact Hr| |intros; by apply post_fault].
  clear db Hr. intros db Hr. pose proof (rep_ok _ _ _ _ _ Hr) as Hok. apply wp_bind.
  eapply (wp_execute _ _ _ _ _ (Ok (Z.of_nat (length (filter Q l)), map (fun k => if decide (Q k) then g k else k) l))); [exact Hr|..].
  { rewrite Hst, (update_rep _ _ Q _ g) by (apply Forall_true; auto). split; [done|].
    apply Forall_map. eapply Forall_impl; [exact Hok|]. intros k Hk. cbn. case_decide; auto. }
  { intros e' db' [?|?] ?; [by apply post_fault|done]. }
  clear db Hr. intros n l' db [= <- <-] Hr. destruct (filter Q l) as [|k ks] eqn:Ef.
  - change (kpost (KoUpdate kid st t) l (Err e) db). split.
    + right. intros k Hk Hkid. destruct (transition st t k) eqn:E; [|done]. exfalso.
      eapply (filter_nil_inv Q); [exact Ef|exact Hk|]. apply HQ. split; [done|]. by rewrite E.
    + by rewrite map_if_none in Hr.
  - assert (k ∈ filter Q l) as [HQk Hin]%list_elem_of_filter by (rewrite Ef; left).
    change (kpost (KoUpdate kid st t) l (Ok KrUnit) db). left. eexists. split; [|exact Hr]. split.
    + exists k. split; [done|]. by apply HQ.
    + apply map_ext_in. intros k' _. specialize (HQ k'). specialize (Htr k'). destruct (decide (Q k')) as [Hq|Hq].
      * rewrite (proj1 (proj1 HQ Hq)), decide_True, (Htr Hq) by done. done.
      * case_decide; [|done]. destruct (transition st t k') eqn:E; [|done]. exfalso. apply Hq, HQ. split; [done|]. by eexists.
Qed.

Lemma refine_update_op kid st t : four_digit_year t → refines (KoUpdate kid st t).
Proof.
  intros Ht l db Hr. destruct st.
  - eapply (refine_transition _ _ _ (fun k => key_kid k = kid)); [exact Hr|done| | | |].
    + intros k. cbn. split; [by destruct (String.eqb_spec (key_kid k) kid); case_bool_decide|]. by instantiate (1 := activate KeyActive t).
    + intros k (? & ? & ? & ? & ?). by split_and!.
    + intros k. cbn. naive_solver.
    + done.
  - eapply (refine_transition _ _ _ (fun k => key_kid k = kid ∧ key_status k = KeyActive)); [exact Hr|done| | | |].
    + intros k. cbn. rewrite (status_eqb KeyActive). split; [|by instantiate (1 := drain KeyDraining t)].
      destruct (String.eqb_spec (key_kid k) kid); repeat case_bool_decide; naive_solver.
    + intros k (? & ? & ? & ? & ?). by split_and!.
    + intros k. cbn. destruct (key_status k); unfold is_Some; naive_solver.
    + intros k [_ Hs]. cbn. by rewrite Hs.
  - eapply (refine_transition _ _ _ (fun k => key_kid k = kid ∧ key_status k = KeyDraining)); [exact Hr|done| | | |].
    + intros k. cbn. rewrite (status_eqb KeyDraining). split; [|by instantiate (1 := retire KeyRetired t)].
      destruct (String.eqb_spec (key_kid k) kid); repeat case_bool_decide; naive_solver.
    + intros k (? & ? & ? & ? & ?). by split_and!.
    + intros k. cbn. destruct (key_status k); unfold is_Some; naive_solver.
    + intros k [_ Hs]. cbn. by rewrite Hs.
Qed.

Lemma refine_retire now : four_digit_year now → refines (KoRetire now).
Proof.
  intros Ht l db Hr. pose proof (rep_ok _ _ _ _ _ Hr) as Hok.
  apply (refine_execute _ _ _ _ _ _ _ KrCount (Ok (Z.of_nat (length (filter (drained_by now) l)),
    map (fun k => if decide (drained_by now k) then retire KeyRetired now k else k) l))); [exact Hr|]. split_and!; [| |done..].
  - erewrite (update_rep _ _ (drained_by now) _ (retire KeyRetired now)); [done|].
    eapply Forall_impl; [exact Hok|]. intros k (_ & _ & _ & _ & Hk). split; [|done]. cbn. rewrite (status_eqb KeyDraining).
    apply eq_iff_eq_true. rewrite andb_true_iff, !bool_decide_eq_true. unfold drained_by.
    destruct (key_drain_expires_at k) as [d|]; cbn; [rewrite rfc3339_order, bool_decide_eq_true by done|]; naive_solver.
  - apply Forall_map. eapply Forall_impl; [exact Hok|]. intros k (? & ? & ? & ? & ?). cbn. case_decide; by split_and!.
Qed.

Lemma refine_initialize : refines KoInitialize.
Proof.
  intros l db Hr. apply wp_bind, wp_bind. eapply wp_call; [exact Hr| |intros; by apply post_fault]. clear db Hr. intros db Hr.
  do 2 (apply wp_bind; eapply wp_nop; [exact Hr|intros; by apply post_fault|]; clear db Hr; intros db Hr).
  eapply wp_nop; [exact Hr|intros; by apply post_fault|]. intros db' Hr'. left. by exists l.
Qed.

(** What a change of status does: a key is drained only when it is active and
    retired only when it is draining, while it can be made active whatever its
    status, also after it was retired ([retired_key_reactivated]). *)
Lemma transition_from kid st t l l' k' :
  key_spec (KoUpdate kid st t) l KrUnit l' → k' ∈ l' →
  k' ∈ l ∨ ∃ k, k ∈ l ∧ key_kid k = kid ∧ key_kid k' = kid ∧ key_material k' = key_material k ∧ key_status k' = st ∧
    (st = KeyDraining → key_status k = KeyActive) ∧ (st = KeyRetired → key_status k = KeyDraining).
Proof.
  intros [_ ->] (k & -> & Hk)%list_elem_of_fmap. case_decide as Hkid; [|by left]. unfold transition.
  destruct st; [|destruct (key_status k) eqn:E; try by left..]; right; exists k; split_and!; naive_solver.
Qed.

(** C34: Turso keeps signing keys in a list. Started on a table that holds the keys
    of a list, any sequence of operations at times of four-digit years, with any
    connections, statements and reads failing, answers as the operations on that
    list do: a key is stored once, look-ups find what is there, verification keys
    come newest first. A change of status drains only an active key and retires
    only a draining one, and makes any key active, whatever its status. A failed
    call changes nothing; a failed read leaves an error or, from the verification
    keys, the first of them only ([key_cut]). If nothing fails, only a second key
    with the same id and a change of status that no key allows are refused. This
    rests on the order of RFC 3339 texts being that of the times. *)
Theorem turso_keys_refine l ops db :
  lq_rep tk_insert_row key_in_range calm l db → Forall op_in_range ops →
  (∃ l', trace calm key_spec key_refuses key_cut l ops (run_ops key_op ops db).1 l' ∧
    lq_rep tk_insert_row key_in_range calm l' (run_ops key_op ops db).2) ∧
  (∀ kid st t l l' k', key_spec (KoUpdate kid st t) l KrUnit l' → k' ∈ l' →
     k' ∈ l ∨ ∃ k, k ∈ l ∧ key_kid k = kid ∧ key_kid k' = kid ∧ key_material k' = key_material k ∧ key_status k' = st ∧
       (st = KeyDraining → key_status k = KeyActive) ∧ (st = KeyRetired → key_status k = KeyDraining)).
Proof.
  intros Hr Ho. split; [|exact transition_from]. apply (run_refines _ _ _ _ _ _ key_op op_in_range); [|done..].
  intros []; cbn [op_in_range]; eauto using refine_initialize, refine_store, refine_active, refine_by_kid, refine_verification, refine_update_op, refine_retire.
Qed.
End Refine.

(** ** Example and behaviour that looks unintended *)

Module TursoKeysExample.
Export TimeExample.

Definition signing (kid : string) (st : KeyStatus) (created : Z) : SigningKeyMetadata :=
  mkKey kid PasetoV4Local "c2VjcmV0" st created (Some created) None None None "api" "h".

Definition stored : list SigningKeyMetadata := [signing "k1" KeyDraining 5; signing "k2" KeyActive 7].

(** A table with the two keys, on which the calls in [faults] and the reads in [reads] fail. *)
Definition table (faults reads : list (option string)) : LqDb TkRow := mkLqDb (map tk_insert_row stored) [] faults reads.

Definition session : list KeyOp :=
  [KoStore (signing "k3" KeyActive 9); KoUpdate "k2" KeyDraining 9; KoVerification "api"; KoActive "api"].
End TursoKeysExample.
Import TursoKeysExample.

(** The first connection fails, and the second row of the verification keys
    cannot be read; the rest of the session runs. *)
Lemma turso_keys_refine_witness :
  let db := table [Some "busy"] [None; Some "connection reset"] in
  let replies := (run_ops (key_op (KeyRotationStorage0 := TursoKeyRotationStorage "UNIQUE")) session db).1 in
  (∃ l', trace False key_spec key_refuses key_cut stored session replies l') ∧
  map is_ok replies = [false; true; true; true] ∧
  ∃ keys, replies !! 2%nat = Some (Ok (KrKeys keys)) ∧ map key_kid keys = ["k2"].
Proof.
  split; [|split; [vm_compute; reflexivity|eexists; split; vm_compute; reflexivity]].
  destruct (@turso_keys_refine _ _ _ "UNIQUE" False stored session (table [Some "busy"] [None; Some "connection reset"])) as [(l' & Ht & _) _].
  - split_and!; [done| |done]. repeat apply Forall_cons_2; [..|apply Forall_nil_2]; repeat split; vm_compute; done.
  - repeat apply Forall_cons_2; [..|apply Forall_nil_2]; repeat split; vm_compute; done.
  - by exists l'.
Defined.

(** A failure while the rows of an answer are read ends the list and not the
    call: verification keys are missing without an error. *)
Lemma verification_keys_truncated :
  ∃ keys, (tk_get_verification_keys "api" (table [] [None; Some "connection reset"])).1 = Ok keys ∧ map key_kid keys = ["k2"].
Proof. eexists. split; vm_compute; reflexivity. Qed.

(** A retired key becomes active again: the update to active has no guard. *)
Lemma retired_key_reactivated :
  let db := mkLqDb (map tk_insert_row [signing "k1" KeyRetired 5]) [] [] [] in
  ∃ k, (tk_get_active_key "api" (tk_update_key_status "k1" KeyActive 9 db).2).1 = Ok (Some k) ∧ key_kid k = "k1".
Proof. eexists. split; vm_compute; reflexivity. Qed.
