(* ===== verification/TursoAudit.v ===== *)
(** * The audit log in Turso

    [src/acton-service/src/audit/storage/turso.rs] on the tables of [Libsql]: the
    rows, the operations of the trait and the triggers that keep events from
    being changed, with the proof that, whatever connections, statements and reads
    fail, the operations are those on a list of events. Reading the columns of a row cannot fail: their types are those of
    the table. *)

From S2P Require Import Prelude FrameworkError AuditEvent AuditChain AuditStorage Libsql.

Local Open Scope string_scope.
Local Open Scope Z_scope.
Local Open Scope list_scope.
Local Open Scope monad_scope.

(** What the backend uses of the uuid and serde_json crates. *)
Class TursoAuditEnv := {
  uuid_to_string : bytes → string;
  uuid_parse_str : string → result bytes string;
  serde_to_string : json → string;
  serde_from_str : string → option json;
}.

Class TursoAuditLaws `{TursoAuditEnv} := {
  uuid_roundtrip id : length id = 16%nat → uuid_parse_str (uuid_to_string id) = Ok id;
}.

(** A row of [audit_events]. *)
Record TaRow := mkTaRow {
  ta_id : string;
  ta_timestamp : string;
  ta_kind : string;
  ta_severity : Z;
  ta_source_ip : option string;
  ta_source_user_agent : option string;
  ta_source_subject : option string;
  ta_source_request_id : option string;
  ta_method : option string;
  ta_path : option string;
  ta_status_code : option Z;
  ta_duration_ms : option Z;
  ta_service_name : string;
  ta_metadata : option string;
  ta_hash : option string;
  ta_previous_hash : option string;
  ta_sequence : Z;
}.

Definition NO_UPDATE : string := "audit_no_update".
Definition NO_DELETE : string := "audit_no_delete".
Definition IMMUTABLE : string := "audit events are immutable".

Section TursoAudit.
Context `{TimeText} `{TursoAuditEnv}.

(** Text of a violated constraint. *)
Context (constraint_msg : string).

Abbreviation T := (M (LqDb TaRow) Error).

(** The values [append] binds. *)
Definition ta_insert_row (event : AuditEvent) : TaRow :=
  mkTaRow (uuid_to_string (ev_id event)) (to_rfc3339 (ev_timestamp event)) (kind_to_string (ev_kind event))
    (as_syslog_severity (ev_severity event))
    (src_ip (ev_source event)) (src_user_agent (ev_source event))
    (src_subject (ev_source event)) (src_request_id (ev_source event))
    (ev_method event) (ev_path event) (ev_status_code event) (as_signed 64 <$> ev_duration_ms event)
    (ev_service_name event) (serde_to_string <$> ev_metadata event)
    (ev_hash event) (ev_previous_hash event) (as_signed 64 (ev_sequence event)).

Definition ta_row_to_event (row : TaRow) : result AuditEvent Error :=
  (let? id := map_err (fun e => Error_Internal ("Failed to parse UUID: " +:+ e)) (uuid_parse_str (ta_id row)) in
   let? timestamp := map_err (fun e => Error_Internal ("Failed to parse timestamp: " +:+ e)) (parse_rfc3339 (ta_timestamp row)) in
   Ok (mkAuditEvent id timestamp (parse_event_kind (ta_kind row)) (parse_severity (as_signed 16 (ta_severity row)))
         (mkAuditSource (ta_source_ip row) (ta_source_user_agent row) (ta_source_subject row) (ta_source_request_id row))
         (ta_method row) (ta_path row) (as_unsigned 16 <$> ta_status_code row) (as_unsigned 64 <$> ta_duration_ms row)
         (ta_service_name row) (ta_metadata row ≫= serde_from_str) (ta_hash row) (ta_previous_hash row)
         (as_unsigned 64 (ta_sequence row))))%rust.

Definition ta_initialize : T unit :=
  lq_connect "Failed to connect for audit init: " ;;
  lq_execute "Failed to create audit_events table: " (fun rows => Ok (tt, rows)) ;;
  lq_execute "Failed to create audit index: " (fun rows => Ok (tt, rows)) ;;
  lq_execute "Failed to create audit timestamp index: " (fun rows => Ok (tt, rows)) ;;
  lq_create_trigger "Failed to create update trigger: " NO_UPDATE ;;
  lq_create_trigger "Failed to create delete trigger: " NO_DELETE.

(** Primary key [id], unique [sequence], non-null [hash]. *)
Definition ta_violates (rows : list TaRow) (row : TaRow) : bool :=
  bool_decide (ta_id row ∈ ta_id <$> rows) || bool_decide (ta_sequence row ∈ ta_sequence <$> rows) ||
  bool_decide (ta_hash row = None).

Definition ta_append (event : AuditEvent) : T unit :=
  lq_connect "Failed to connect for audit append: " ;;
  lq_execute "Failed to append audit event: " (fun rows =>
    if ta_violates rows (ta_insert_row event) then Err constraint_msg else Ok (tt, rows ++ [ta_insert_row event])).

Definition ta_latest : T (option AuditEvent) :=
  lq_connect "Failed to connect for audit query: " ;;
  let! rows := lq_query "Failed to query latest audit event: " (fun rows => take 1 (reverse (order_asc ta_sequence rows))) in
  lq_first "Failed to read audit event row: " ta_row_to_event rows.

Definition ta_query_range (from to : Z) (limit : nat) : T (list AuditEvent) :=
  lq_connect "Failed to connect for audit query: " ;;
  let! rows := lq_query "Failed to query audit events: " (fun rows => lq_limit (Z.of_nat limit) (order_asc ta_sequence
    (List.filter (fun r => String.leb (to_rfc3339 from) (ta_timestamp r) && String.leb (ta_timestamp r) (to_rfc3339 to)) rows))) in
  lq_collect ta_row_to_event rows.

Definition ta_query_before (cutoff : Z) (limit : nat) : T (list AuditEvent) :=
  lq_connect "Failed to connect for audit query: " ;;
  let! rows := lq_query "Failed to query audit events before cutoff: " (fun rows => lq_limit (Z.of_nat limit) (order_asc ta_sequence
    (List.filter (fun r => text_before (ta_timestamp r) (to_rfc3339 cutoff)) rows))) in
  lq_collect ta_row_to_event rows.

(** The trigger is dropped, the rows deleted, and the trigger reinstated whatever
    the deletion did; a failure to reinstate it is logged. *)
Definition ta_purge_before (cutoff : Z) : T Z :=
  lq_connect "Failed to connect for audit purge: " ;;
  lq_drop_trigger "Failed to drop audit_no_delete trigger: " NO_DELETE ;;
  let! result := attempt (lq_delete "Failed to purge audit events: " NO_DELETE IMMUTABLE
    (fun r => text_before (ta_timestamp r) (to_rfc3339 cutoff))) in
  let! _ := attempt (lq_create_trigger "" NO_DELETE) in
  lift result.

Definition ta_verify_chain (from_sequence : Z) : T (option Z) :=
  lq_connect "Failed to connect for chain verify: " ;;
  let! rows := lq_query "Failed to fetch events for verification: " (fun rows => order_asc ta_sequence
    (List.filter (fun r => as_signed 64 from_sequence <=? ta_sequence r) rows)) in
  let! events := lq_collect ta_row_to_event rows in
  ret (match verify_chain events with Ok _ => None | Err e => Some (cve_sequence e) end).

(** [ensure_ready] is the trait's default. *)
#[global] Instance TursoAuditStorage : AuditStorage (LqDb TaRow) := {|
  st_append := ta_append;
  st_latest := ta_latest;
  st_query_range := ta_query_range;
  st_query_before := ta_query_before;
  st_purge_before := ta_purge_before;
  st_verify_chain := ta_verify_chain;
  st_ensure_ready := ret tt;
|}.
End TursoAudit.

(** ** The trait as operations on a list of events *)

Inductive AuditOp :=
| AoAppend (event : AuditEvent)
| AoLatest
| AoRange (from to : Z) (limit : nat)
| AoBefore (cutoff : Z) (limit : nat)
| AoPurge (cutoff : Z)
| AoVerify (from_sequence : Z).

Inductive AuditReply :=
| ArUnit
| ArEvent (event : option AuditEvent)
| ArEvents (events : list AuditEvent)
| ArCount (n : Z)
| ArVerdict (broken : option Z).

Definition audit_op {S} `{!AuditStorage S} (op : AuditOp) : M S Error AuditReply :=
  match op with
  | AoAppend event => st_append event ;; ret ArUnit
  | AoLatest => let! o := st_latest in ret (ArEvent o)
  | AoRange from to limit => let! es := st_query_range from to limit in ret (ArEvents es)
  | AoBefore cutoff limit => let! es := st_query_before cutoff limit in ret (ArEvents es)
  | AoPurge cutoff => let! n := st_purge_before cutoff in ret (ArCount n)
  | AoVerify from_sequence => let! o := st_verify_chain from_sequence in ret (ArVerdict o)
  end.

(** [s] holds the events of [l] in sequence order. *)
Definition in_sequence (l s : list AuditEvent) : Prop :=
  s ≡ₚ l ∧ Sorted (fun e e' => ev_sequence e ≤ ev_sequence e') s.

Definition audit_spec `{ChainEnv} (op : AuditOp) (l : list AuditEvent) (reply : AuditReply) (l' : list AuditEvent) : Prop :=
  match op, reply with
  | AoAppend event, ArUnit =>
      l' = l ++ [event] ∧ (ev_id event ∉ ev_id <$> l) ∧ (ev_sequence event ∉ ev_sequence <$> l)
  | AoLatest, ArEvent o => l' = l ∧ ∃ s, in_sequence l s ∧ o = last s
  | AoRange from to limit, ArEvents es =>
      l' = l ∧ ∃ s, in_sequence (filter (fun e => from ≤ ev_timestamp e ∧ ev_timestamp e ≤ to) l) s ∧ es = take limit s
  | AoBefore cutoff limit, ArEvents es => l' = l ∧ ∃ s, in_sequence (filter (before cutoff) l) s ∧ es = take limit s
  | AoPurge cutoff, ArCount n =>
      l' = filter (fun e => ¬ before cutoff e) l ∧ n = Z.of_nat (length (filter (before cutoff) l))
  | AoVerify from_sequence, ArVerdict o =>
      l' = l ∧ ∃ s, in_sequence (filter (fun e => from_sequence ≤ ev_sequence e) l) s ∧
        o = match verify_chain s with Ok _ => None | Err e => Some (cve_sequence e) end
  | _, _ => False
  end.

Definition audit_refuses (op : AuditOp) (l : list AuditEvent) : Prop :=
  match op with
  | AoAppend event => ev_id event ∈ ev_id <$> l ∨ ev_sequence event ∈ ev_sequence <$> l ∨ ev_hash event = None
  | _ => False
  end.

(** An answer cut short by a failed read: the first events of a listing, or the
    verdict on the first events of the chain. *)
Definition audit_cut `{ChainEnv} (op : AuditOp) (l : list AuditEvent) (reply : AuditReply) : Prop :=
  match op, reply with
  | AoRange _ _ _, ArEvents es | AoBefore _ _, ArEvents es => ∃ rest, audit_spec op l (ArEvents (es ++ rest)) l
  | AoVerify from_sequence, ArVerdict o =>
      ∃ s k, in_sequence (filter (fun e => from_sequence ≤ ev_sequence e) l) s ∧
        o = match verify_chain (take k s) with Ok _ => None | Err e => Some (cve_sequence e) end
  | _, _ => False
  end.

(** Events the columns keep whole: with a four-digit year, a sequence number that
    is an [i64], and metadata that survives [serde_json]. *)
Definition event_kept `{TursoAuditEnv} (e : AuditEvent) : Prop :=
  event_ok e ∧ four_digit_year (ev_timestamp e) ∧ ev_sequence e < 2 ^ 63 ∧
  match ev_metadata e with Some m => serde_from_str (serde_to_string m) = Some m | None => True end.

Definition audit_op_ok `{TursoAuditEnv} (op : AuditOp) : Prop :=
  match op with
  | AoAppend event => event_kept event
  | AoLatest => True
  | AoRange from to limit => four_digit_year from ∧ four_digit_year to ∧ Z.of_nat limit < 2 ^ 63
  | AoBefore cutoff limit => four_digit_year cutoff ∧ Z.of_nat limit < 2 ^ 63
  | AoPurge cutoff => four_digit_year cutoff
  | AoVerify from_sequence => 0 ≤ from_sequence < 2 ^ 63
  end.

Section Refine.
Context `{TimeTextLaws} `{!TursoAuditEnv} `{!TursoAuditLaws} (constraint_msg : string) (calm : Prop).

#[local] Instance turso_audit : AuditStorage (LqDb TaRow) := TursoAuditStorage constraint_msg.

Abbreviation rep := (lq_rep ta_insert_row event_kept calm).
Abbreviation apost := (post ta_insert_row event_kept calm audit_spec audit_refuses audit_cut).
Abbreviation refines op := (∀ l db, rep l db → wp (audit_op op) (apost op l) db).

Lemma ta_roundtrip e : event_kept e → ta_row_to_event (ta_insert_row e) = Ok e.
Proof.
  intros ((Hid & Hst & Hd & Hs) & Ht & Hq & Hm). unfold ta_row_to_event. cbn -[as_signed as_unsigned].
  rewrite uuid_roundtrip, parse_to_rfc3339 by done. cbn -[as_signed as_unsigned].
  rewrite parse_event_kind_to_string, as_unsigned_signed_opt, as_unsigned_signed by (done || lia).
  assert (parse_severity (as_signed 16 (as_syslog_severity (ev_severity e))) = ev_severity e) as -> by by destruct (ev_severity e).
  assert ((serde_to_string <$> ev_metadata e) ≫= serde_from_str = ev_metadata e) as -> by by destruct (ev_metadata e).
  assert (as_unsigned 16 <$> ev_status_code e = ev_status_code e) as ->.
  { destruct (ev_status_code e) as [c|]; [|done]. cbn -[as_unsigned]. by rewrite as_unsigned_small. }
  by destruct e as [? ? ? ? []].
Qed.

Lemma kept_sequence e : event_kept e → ta_sequence (ta_insert_row e) = ev_sequence e.
Proof. intros ((_ & _ & _ & Hs) & _ & Hq & _). apply as_signed_small. unfold fits in Hs. lia. Qed.

Lemma kept_id_inj e e' : event_kept e → event_kept e' → uuid_to_string (ev_id e) = uuid_to_string (ev_id e') → ev_id e = ev_id e'.
Proof.
  intros ((Hi & _) & _) ((Hi' & _) & _) E. apply uuid_roundtrip in Hi, Hi'. rewrite E in Hi. congruence.
Qed.

(** Rows selected by time and put in sequence order. *)
Lemma select_rep (P : TaRow → bool) (Q : AuditEvent → Prop) `{∀ e, Decision (Q e)} l :
  Forall event_kept l → (∀ e, event_kept e → P (ta_insert_row e) = bool_decide (Q e)) →
  ∃ s, order_asc ta_sequence (List.filter P (map ta_insert_row l)) = map ta_insert_row s ∧ Forall event_kept s ∧ in_sequence (filter Q l) s.
Proof.
  intros Hl HP. rewrite (filter_rep _ _ Q) by (eapply Forall_impl; [exact Hl|exact HP]).
  assert (Forall event_kept (filter Q l)) as Hf by by apply ok_filter.
  destruct (order_asc_rep ta_insert_row event_kept ta_sequence ev_sequence (filter Q l) Hf kept_sequence) as (s & Hs & Hp & Ho).
  exists s. split_and!; [done|by rewrite Hp|by split].
Qed.

Lemma before_rep cutoff e : four_digit_year cutoff → event_kept e →
  text_before (ta_timestamp (ta_insert_row e)) (to_rfc3339 cutoff) = bool_decide (before cutoff e).
Proof.
  intros Hc (_ & He & _). unfold text_before, before. cbn. rewrite rfc3339_order by done.
  repeat case_bool_decide; cbn; lia || done.
Qed.

Lemma elem_rep {B C} (f : TaRow → B) (g : AuditEvent → C) event l :
  event_kept event → Forall event_kept l →
  (∀ e e', event_kept e → event_kept e' → f (ta_insert_row e) = f (ta_insert_row e') ↔ g e = g e') →
  f (ta_insert_row event) ∈ f <$> map ta_insert_row l ↔ g event ∈ g <$> l.
Proof.
  intros He Hl Hfg. rewrite Forall_forall in Hl. rewrite !list_elem_of_fmap. split.
  - intros (r & E & Hin). apply list_elem_of_fmap in Hin as (e & -> & Hin). exists e. split; [|done]. apply Hfg; auto.
  - intros (e & E & Hin). exists (ta_insert_row e). split; [apply Hfg; auto|]. apply list_elem_of_fmap. by exists e.
Qed.

Lemma refine_append event : event_kept event → refines (AoAppend event).
Proof.
  intros He l db Hr. pose proof (rep_ok _ _ _ _ _ Hr) as Hok.
  apply (refine_execute _ _ _ _ _ _ _ (fun _ => ArUnit)
    (if decide (audit_refuses (AoAppend event) l) then Err "" else Ok (tt, l ++ [event]))); [exact Hr|].
  assert (ta_violates (map ta_insert_row l) (ta_insert_row event) = bool_decide (audit_refuses (AoAppend event) l)) as ->.
  { apply eq_iff_eq_true. unfold ta_violates. rewrite !orb_true_iff, !bool_decide_eq_true.
    rewrite (elem_rep ta_id ev_id), (elem_rep ta_sequence ev_sequence).
    - cbn. naive_solver.
    - done.
    - done.
    - intros e e' Hk Hk'. by rewrite !kept_sequence.
    - done.
    - done.
    - intros e e' Hk Hk'. split; [by apply kept_id_inj|]. cbn. by intros ->. }
  case_bool_decide as Hc; case_decide; try done.
  - by split; [eexists|].
  - rewrite map_app. split_and!; [done| |cbn; split_and!; naive_solver]. apply Forall_app. split; [done|by apply Forall_singleton].
Qed.

Lemma refine_latest : refines AoLatest.
Proof.
  intros l db Hr. pose proof (rep_ok _ _ _ _ _ Hr) as Hok.
  destruct (order_asc_rep ta_insert_row event_kept ta_sequence ev_sequence l Hok kept_sequence) as (s & Hs & Hp & Ho).
  eapply (refine_first _ _ _ _ _ _ _ ta_roundtrip _ _ _ _ _ (take 1 (reverse s))); [exact Hr|..].
  - apply Forall_take, Forall_reverse. by rewrite Hp.
  - rewrite Hs, <- firstn_map. f_equal. by rewrite <- (fmap_reverse ta_insert_row).
  - split; [done|]. exists s. split; [by split|]. rewrite <- head_reverse. by destruct (reverse s).
Qed.

Lemma refine_range from to limit : audit_op_ok (AoRange from to limit) → refines (AoRange from to limit).
Proof.
  intros (Hf & Ht & Hn) l db Hr. pose proof (rep_ok _ _ _ _ _ Hr) as Hok.
  destruct (select_rep (fun r => String.leb (to_rfc3339 from) (ta_timestamp r) && String.leb (ta_timestamp r) (to_rfc3339 to))
    (fun e => from ≤ ev_timestamp e ∧ ev_timestamp e ≤ to) l Hok) as (s & Hs & Hk & Hi).
  { intros e (_ & He & _). cbn. rewrite !rfc3339_order by done. repeat case_bool_decide; naive_solver. }
  eapply (refine_collect _ _ _ _ _ _ _ ta_roundtrip _ _ _ _ (take limit s)); [exact Hr|by apply Forall_take|..].
  - rewrite Hs, limit_rep, Nat2Z.id by lia. done.
  - split; [done|]. by exists s.
  - intros n. exists (drop n (take limit s)). cbn. rewrite take_drop. split; [done|]. by exists s.
Qed.

Lemma refine_before cutoff limit : audit_op_ok (AoBefore cutoff limit) → refines (AoBefore cutoff limit).
Proof.
  intros (Hc & Hn) l db Hr. pose proof (rep_ok _ _ _ _ _ Hr) as Hok.
  destruct (select_rep (fun r => text_before (ta_timestamp r) (to_rfc3339 cutoff)) (before cutoff) l Hok) as (s & Hs & Hk & Hi).
  { intros e. by apply before_rep. }
  eapply (refine_collect _ _ _ _ _ _ _ ta_roundtrip _ _ _ _ (take limit s)); [exact Hr|by apply Forall_take|..].
  - rewrite Hs, limit_rep, Nat2Z.id by lia. done.
  - split; [done|]. by exists s.
  - intros n. exists (drop n (take limit s)). cbn. rewrite take_drop. split; [done|]. by exists s.
Qed.

Lemma refine_verify from_sequence : 0 ≤ from_sequence < 2 ^ 63 → refines (AoVerify from_sequence).
Proof.
  intros Hf l db Hr. pose proof (rep_ok _ _ _ _ _ Hr) as Hok.
  destruct (select_rep (fun r => as_signed 64 from_sequence <=? ta_sequence r) (fun e => from_sequence ≤ ev_sequence e) l Hok) as (s & Hs & Hk & Hi).
  { intros e He. rewrite kept_sequence, as_signed_small by done. by destruct (Z.leb_spec from_sequence (ev_sequence e)); case_bool_decide; try lia. }
  eapply (refine_collect_then _ _ _ _ _ _ _ ta_roundtrip _ _ _ _ s (fun es => match verify_chain es with Ok _ => None | Err e => Some (cve_sequence e) end));
    [exact Hr|done|exact Hs|split; [done|]; by exists s|]. intros n. by exists s, n.
Qed.

(** After a purge the trigger is there again, unless something failed. *)
Lemma refine_purge cutoff l db : four_digit_year cutoff → rep l db →
  wp (audit_op (AoPurge cutoff)) (fun r db' => apost (AoPurge cutoff) l r db' ∧ (calm → NO_DELETE ∈ lq_triggers db')) db.
Proof.
  set (Q := fun r db' => apost (AoPurge cutoff) l r db' ∧ (calm → NO_DELETE ∈ lq_triggers db')). intros Hc Hr. pose proof (rep_ok _ _ _ _ _ Hr) as Hok.
  assert (∀ e db', ¬ calm → rep l db' → Q (Err e) db') as Hfault.
  { intros. split; [by apply post_fault|done]. }
  apply wp_bind, wp_bind. eapply wp_call; [exact Hr| |by intros; apply Hfault]. clear db Hr. intros db Hr.
  apply wp_bind. eapply wp_drop_trigger; [exact Hr|by intros; apply Hfault|]. clear db Hr. intros db Hr Hg.
  assert (∀ l1 r db1, rep l1 db1 → (∀ db', rep l1 db' → apost (AoPurge cutoff) l (match r with Ok n => Ok (ArCount n) | Err e => Err e end) db') →
    wp (let! _ := attempt (lq_create_trigger "" NO_DELETE) in lift r)
      (fun r db' => match r with Ok n => wp (ret (ArCount n)) Q db' | Err e => Q (Err e) db' end) db1) as Hlast.
  { intros l1 r db1 Hr1 Hp. apply wp_bind, wp_attempt.
    eapply wp_create_trigger; [exact Hr1|..]; intros; destruct r; by split; [apply Hp|]. }
  apply wp_bind, wp_attempt. eapply wp_delete; [exact Hr|exact Hg| | |].
  - eapply Forall_impl; [exact Hok|]. intros e He. by apply before_rep.
  - intros e db1 Hn Hr1. eapply Hlast; [exact Hr1|]. intros db' Hr'. by apply post_fault.
  - intros db1 Hr1. eapply Hlast; [exact Hr1|]. intros db' Hr'. by eapply post_ok.
Qed.

Lemma refine_audit_op op l db : audit_op_ok op → rep l db → wp (audit_op op) (apost op l) db.
Proof.
  destruct op as [e| |from to n|c n|c|q]; cbn [audit_op_ok]; intros Ho Hr;
    eauto using refine_append, refine_latest, refine_range, refine_before, refine_verify.
  eapply wp_wand; [by apply refine_purge|]. by intros r db' [? _].
Qed.

Lemma audit_op_guarded op l db : audit_op_ok op → rep l db → calm → NO_DELETE ∈ lq_triggers db →
  NO_DELETE ∈ lq_triggers (audit_op op db).2.
Proof.
  intros Ho Hr HC Hg. destruct op as [e| |from to n|c n|c|q]; cbn [audit_op_ok] in Ho.
  5: { pose proof (refine_purge c l db Ho Hr) as [_ Hp]. by apply Hp. }
  all: match goal with |- _ ∈ lq_triggers (snd (?m _)) => enough (quiet m) as Hq by (rewrite Hq; exact Hg) end;
    cbv [audit_op st_append st_latest st_query_range st_query_before st_verify_chain turso_audit TursoAuditStorage
         ta_append ta_latest ta_query_range ta_query_before ta_verify_chain];
    repeat first [ apply quiet_call | apply quiet_execute | apply quiet_query | apply quiet_collect | apply quiet_first
                 | apply lq_quiet_pure | apply lq_quiet_bind; [|intros ?] ].
Qed.

(** C32: Turso keeps the audit log as a list of events. Started on a table that
    holds the events of a list, any sequence of operations at times of four-digit
    years, with any connections, statements and reads failing, answers as the
    operations on that list do: an event is appended once and whole, ranges come
    in sequence order, a purge removes exactly the events before its cutoff, and
    the verdict of a verification is that of the chain check on the stored events.
    A failed call changes nothing. A failed read leaves an error from the look-up
    of the latest event, but from the others an answer on the first rows only
    ([audit_cut]): part of a range, or the verdict on part of the chain
    ([truncated_read_verifies]). If nothing fails, only a second event with the
    same id or number, or one without a hash, is refused, and the trigger that
    forbids deletion is in place after every call. *)
Theorem turso_audit_refine l ops db :
  lq_rep ta_insert_row event_kept calm l db → Forall audit_op_ok ops →
  (∃ l', trace calm audit_spec audit_refuses audit_cut l ops (run_ops audit_op ops db).1 l' ∧
    lq_rep ta_insert_row event_kept calm l' (run_ops audit_op ops db).2) ∧
  (calm → NO_DELETE ∈ lq_triggers db → NO_DELETE ∈ lq_triggers (run_ops audit_op ops db).2).
Proof.
  intros Hr Ho. split.
  { apply (run_refines _ _ _ _ _ _ audit_op audit_op_ok); [|done..]. apply refine_audit_op. }
  intros HC. revert l db Hr. induction Ho as [|op ops Hop Ho IH]; intros l db Hr Hg; [done|]. cbn.
  pose proof (refine_audit_op op l db Hop Hr) as Hp. pose proof (audit_op_guarded op l db Hop Hr HC Hg) as Hg'. unfold wp in Hp.
  destruct (audit_op op db) as [r db1]. cbn in Hp, Hg'.
  assert (∃ l1, rep l1 db1) as [l1 Hr1] by (destruct r; [destruct Hp as [(l1 & _ & ?)|(_ & _ & ?)]|destruct Hp]; eauto).
  specialize (IH l1 db1 Hr1 Hg'). by destruct (run_ops audit_op ops db1).
Qed.
End Refine.

(** ** Example and behaviour that looks unintended *)

Module TursoAuditExample.
Export TimeExample.

#[export] Instance example_audit_env : TursoAuditEnv := {|
  uuid_to_string := String.string_of_list_ascii;
  uuid_parse_str s := Ok (str_bytes s);
  serde_to_string _ := "null";
  serde_from_str _ := None;
|}.

#[export] Instance example_audit_laws : TursoAuditLaws.
Proof. split. intros id _. cbn. unfold str_bytes. by rewrite String.list_ascii_of_string_of_list_ascii. Qed.

Definition logged (n : Z) : AuditEvent :=
  AuditEvent_new (replicate 16 (byte_of_Z n)) (n * 10) AuthLogout SevNotice "api".

Definition chain : list AuditEvent := (seal_all (chain_new "api") [logged 1; logged 2; logged 3]).1.

(** The same log with its last event altered afterwards. *)
Definition altered : list AuditEvent :=
  match chain with
  | [e1; e2; e3] => [e1; e2; mkAuditEvent (ev_id e3) (ev_timestamp e3) AuthLoginSuccess (ev_severity e3) (ev_source e3) (ev_method e3) (ev_path e3)
      (ev_status_code e3) (ev_duration_ms e3) (ev_service_name e3) (ev_metadata e3) (ev_hash e3) (ev_previous_hash e3) (ev_sequence e3)]
  | _ => []
  end.

(** A table on which the calls in [faults] and the reads in [reads] fail. *)
Definition table (events : list AuditEvent) (faults reads : list (option string)) : LqDb TaRow :=
  mkLqDb (map ta_insert_row events) [NO_DELETE; NO_UPDATE] faults reads.

Definition session : list AuditOp :=
  map AoAppend chain ++ [AoVerify 1; AoLatest; AoBefore 25 10; AoPurge 15; AoRange 0 100 10].
End TursoAuditExample.
Import TursoAuditExample.

Lemma turso_audit_refine_witness :
  let end_ := run_ops (audit_op (AuditStorage0 := TursoAuditStorage "UNIQUE")) session (table [] [] []) in
  (∃ l', trace True audit_spec audit_refuses audit_cut [] session end_.1 l') ∧ NO_DELETE ∈ lq_triggers end_.2 ∧
  map is_ok end_.1 = replicate 8 true ∧ end_.1 !! 3%nat = Some (Ok (ArVerdict None)) ∧ end_.1 !! 6%nat = Some (Ok (ArCount 1)).
Proof.
  destruct (@turso_audit_refine _ _ _ _ _ "UNIQUE" True [] session (table [] [] [])) as [(l' & Ht & _) Hg].
  - split_and!; [done|by apply Forall_nil_2|done].
  - repeat apply Forall_cons_2; [..|apply Forall_nil_2]; repeat split; vm_compute; done.
  - split; [by exists l'|]. split; [apply Hg; [done|by left]|]. split_and!; vm_compute; reflexivity.
Defined.

(** A failure while the rows of an answer are read ends the list and not the
    call: the altered log is reported as broken when everything is read, and as
    intact when the connection is lost after two rows. *)
Lemma truncated_read_verifies :
  (ta_verify_chain 1 (table altered [] [])).1 = Ok (Some 3) ∧
  (ta_verify_chain 1 (table altered [] [None; None; Some "connection reset"])).1 = Ok None.
Proof. split; vm_compute; reflexivity. Qed.

(** Likewise the events to archive before a purge: fewer are returned, and the
    purge then deletes them all. *)
Lemma truncated_read_loses_events :
  ∃ es db, ta_query_before 35 10 (table chain [] [None; Some "connection reset"]) = (Ok es, db) ∧ length es = 1%nat ∧
    (ta_purge_before 35 db).1 = Ok 3.
Proof. eexists _, _. split_and!; vm_compute; reflexivity. Qed.

(** If the trigger cannot be reinstated the call succeeds and the log is left
    open to deletion. *)
Lemma purge_leaves_log_open :
  ∃ db, ta_purge_before 15 (table chain [None; None; None; Some "busy"] []) = (Ok 1, db) ∧ NO_DELETE ∉ lq_triggers db.
Proof.
  eexists. split; [vm_compute; reflexivity|]. cbn. intros Hin. apply list_elem_of_singleton in Hin. discriminate Hin.
Qed.
