(* ===== verification/TursoAccounts.v ===== *)
(** * Accounts in Turso

    [src/acton-service/src/accounts/storage/turso.rs] on the tables of [Libsql]:
    the rows, the operations of the trait, and the proof that, whatever
    connections, statements and reads fail, they are operations on a list of
    accounts. Reading the columns of a row cannot fail: their types
    are those of the table. *)

From S2P Require Import Prelude FrameworkError AuditEvent AuditChain Accounts AccountStorage AccountLifecycle Libsql.

Local Open Scope string_scope.
Local Open Scope Z_scope.
Local Open Scope list_scope.
Local Open Scope monad_scope.

(** [serde_json] on role lists and on metadata. *)
Class AccountText := {
  roles_to_string : list string → string;
  roles_from_str : string → option (list string);
  metadata_to_string : json → string;
  metadata_from_str : string → option json;
}.

Class AccountTextLaws `{AccountText} := { roles_roundtrip roles : roles_from_str (roles_to_string roles) = Some roles }.

(** A row of [accounts]: text in every column but [email_verified] and
    [failed_login_count]. *)
Abbreviation TcRow := (AccountOf string string string Z string string).

Section TursoAccounts.
Context `{TypeIdEnv} `{TimeText} `{AccountText}.

(** Text of a violated constraint; what [AccountId::new] and [Utc::now] return for
    a row whose id or time does not parse. *)
Context (unique_msg : string) (fresh_id : TcRow → AccountId) (utc_now : TcRow → Z).

Abbreviation T := (M (LqDb TcRow) Error).

Definition parse_datetime (s : string) : option Z :=
  match parse_rfc3339 s with Ok dt => Some dt | Err _ => None end.

Definition tc_row_to_account (row : TcRow) : result Account Error :=
  Ok (mkAccount (unwrap_or (AccountId_from_str (acc_id row)) (fresh_id row))
    (acc_email row) (acc_username row) (acc_password_hash row)
    (unwrap_or (status_from_str (acc_status row)) PendingVerification)
    (default [] (roles_from_str (acc_roles row)))
    (negb (acc_email_verified row =? 0))
    (acc_email_verified_at row ≫= parse_datetime) (acc_last_login_at row ≫= parse_datetime)
    (acc_locked_at row ≫= parse_datetime) (acc_locked_reason row)
    (acc_disabled_at row ≫= parse_datetime) (acc_disabled_reason row)
    (acc_expires_at row ≫= parse_datetime) (acc_password_changed_at row ≫= parse_datetime)
    (as_unsigned 32 (acc_failed_login_count row)) (acc_metadata row ≫= metadata_from_str)
    (default (utc_now row) (parse_datetime (acc_created_at row)))
    (default (utc_now row) (parse_datetime (acc_updated_at row)))).

(** [opt_dt]. *)
Definition opt_dt (dt : option Z) : option string := to_rfc3339 <$> dt.

(** The values [create] binds. *)
Definition tc_insert_row (account : Account) : TcRow :=
  mkAccount (aid_as_str (acc_id account)) (acc_email account) (acc_username account) (acc_password_hash account)
    (status_to_string (acc_status account)) (roles_to_string (acc_roles account))
    (if acc_email_verified account then 1 else 0)
    (opt_dt (acc_email_verified_at account)) (opt_dt (acc_last_login_at account))
    (opt_dt (acc_locked_at account)) (acc_locked_reason account)
    (opt_dt (acc_disabled_at account)) (acc_disabled_reason account)
    (opt_dt (acc_expires_at account)) (opt_dt (acc_password_changed_at account))
    (acc_failed_login_count account) (metadata_to_string <$> acc_metadata account)
    (to_rfc3339 (acc_created_at account)) (to_rfc3339 (acc_updated_at account)).

Definition tc_conn : T unit := lq_connect "Failed to connect: ".

Definition tc_initialize : T unit :=
  lq_connect "Failed to connect for accounts init: " ;;
  lq_execute "Failed to create accounts table: " (fun rows => Ok (tt, rows)) ;;
  lq_execute "Failed to create email index: " (fun rows => Ok (tt, rows)) ;;
  lq_execute "Failed to create status index: " (fun rows => Ok (tt, rows)).

Definition tc_create (account : Account) : T unit :=
  tc_conn ;;
  lq_execute "Failed to create account: " (fun rows =>
    let row := tc_insert_row account in
    if bool_decide (acc_id row ∈ acc_id <$> rows) || bool_decide (acc_email row ∈ acc_email <$> rows)
    then Err unique_msg else Ok (tt, rows ++ [row])).

(** A [SELECT] on a key. *)
Definition tc_get (what : string) (P : TcRow → bool) : T (option Account) :=
  tc_conn ;;
  let! rows := lq_query what (List.filter P) in
  lq_first "Failed to read row: " tc_row_to_account rows.

Definition tc_get_by_id (id : string) : T (option Account) :=
  tc_get "Failed to get account: " (fun r => String.eqb (acc_id r) id).
Definition tc_get_by_email (email : string) : T (option Account) :=
  tc_get "Failed to get account by email: " (fun r => String.eqb (acc_email r) email).
Definition tc_get_by_username (username : string) : T (option Account) :=
  tc_get "Failed to get account by username: " (fun r => bool_decide (acc_username r = Some username)).

(** [UPDATE accounts SET .. WHERE id = ?1]. *)
Definition tc_update_where (id : string) (f : TcRow → TcRow) (rows : list TcRow) : list TcRow :=
  (lq_update (fun r => String.eqb (acc_id r) id) f rows).2.

(** Every column but [id] and [created_at]. *)
Definition tc_update (now : Z) (account : Account) : T unit :=
  tc_conn ;;
  lq_execute "Failed to update account: " (fun rows =>
    let row := set_updated_at (to_rfc3339 now) (tc_insert_row account) in
    if bool_decide (acc_id row ∈ acc_id <$> rows) &&
       bool_decide (acc_email row ∈ acc_email <$> List.filter (fun r => negb (String.eqb (acc_id r) (acc_id row))) rows)
    then Err unique_msg
    else Ok (tt, tc_update_where (acc_id row) (fun r => set_created_at (acc_created_at r) row) rows)).

Definition tc_update_status (now : Z) (id : string) (status : AccountStatus) (reason : option string) : T unit :=
  tc_conn ;;
  let now := to_rfc3339 now in
  let status_str := status_to_string status in
  lq_execute "Failed to update status: " (fun rows => Ok (tt, tc_update_where id
    match status with
    | Disabled => fun r => set_updated_at now (set_status status_str (set_disabled_at (Some now) (set_disabled_reason reason r)))
    | Locked => fun r => set_updated_at now (set_status status_str (set_locked_at (Some now) (set_locked_reason reason r)))
    | Active => fun r => set_updated_at now (set_status status_str
        (set_locked_at None (set_locked_reason None (set_disabled_at None (set_disabled_reason None r)))))
    | _ => fun r => set_updated_at now (set_status status_str r)
    end rows)).

Definition tc_has_status (status_filter : option AccountStatus) (r : TcRow) : bool :=
  match status_filter with Some status => String.eqb (acc_status r) (status_to_string status) | None => true end.

Definition tc_list (status_filter : option AccountStatus) (limit offset : Z) : T (list Account) :=
  tc_conn ;;
  let! rows := lq_query "Failed to list accounts: " (fun rows => lq_limit limit (lq_offset offset
    (order_desc acc_created_at (List.filter (tc_has_status status_filter) rows)))) in
  lq_collect tc_row_to_account rows.

Definition tc_count (status_filter : option AccountStatus) : T Z :=
  tc_conn ;; lq_count "Failed to count accounts: " (tc_has_status status_filter).

Definition tc_delete (id : string) : T bool :=
  tc_conn ;;
  lq_execute "Failed to delete account: " (fun rows =>
    Ok (0 <? Z.of_nat (length (List.filter (fun r => String.eqb (acc_id r) id) rows)),
        List.filter (fun r => negb (String.eqb (acc_id r) id)) rows)).

Definition tc_record_login (now : Z) (id : string) : T unit :=
  tc_conn ;;
  let now := to_rfc3339 now in
  lq_execute "Failed to record login: " (fun rows => Ok (tt, tc_update_where id
    (fun r => set_updated_at now (set_failed_login_count 0 (set_last_login_at (Some now) r))) rows)).

Definition tc_find_expired (now limit : Z) : T (list Account) :=
  tc_conn ;;
  let! rows := lq_query "Failed to find expired: " (fun rows => lq_limit limit (order_text_asc acc_expires_at
    (List.filter (fun r => match acc_expires_at r with
                           | Some t => text_before t (to_rfc3339 now) && negb (String.eqb (acc_status r) "expired")
                           | None => false end) rows))) in
  lq_collect tc_row_to_account rows.

Definition tc_find_inactive (cutoff limit : Z) : T (list Account) :=
  tc_conn ;;
  let! rows := lq_query "Failed to find inactive: " (fun rows => lq_limit limit (order_text_asc acc_last_login_at
    (List.filter (fun r => String.eqb (acc_status r) "active" &&
                           match acc_last_login_at r with Some t => text_before t (to_rfc3339 cutoff) | None => true end) rows))) in
  lq_collect tc_row_to_account rows.

#[global] Instance TursoAccountStorage : AccountStorage (LqDb TcRow) := {|
  as_create := tc_create;
  as_get_by_id := tc_get_by_id;
  as_get_by_email := tc_get_by_email;
  as_get_by_username := tc_get_by_username;
  as_update := tc_update;
  as_update_status := tc_update_status;
  as_list := tc_list;
  as_count := tc_count;
  as_delete := tc_delete;
  as_record_login := tc_record_login;
  as_find_expired := tc_find_expired;
  as_find_inactive := tc_find_inactive;
|}.
End TursoAccounts.

(** ** The trait as operations on a list of accounts *)

Inductive AccountOp `{TypeIdEnv} :=
| AcCreate (account : Account)
| AcById (id : string)
| AcByEmail (email : string)
| AcByUsername (username : string)
| AcUpdate (now : Z) (account : Account)
| AcStatus (now : Z) (id : string) (status : AccountStatus) (reason : option string)
| AcList (status : option AccountStatus) (limit offset : Z)
| AcCount (status : option AccountStatus)
| AcDelete (id : string)
| AcLogin (now : Z) (id : string)
| AcExpired (now limit : Z)
| AcInactive (cutoff limit : Z).

Inductive AccountReply `{TypeIdEnv} :=
| AyUnit
| AyAccount (account : option Account)
| AyAccounts (accounts : list Account)
| AyCount (n : Z)
| AyDeleted (b : bool).

Section Spec.
Context `{TypeIdEnv}.

Definition account_op {S} `{!AccountStorage S} (op : AccountOp) : M S Error AccountReply :=
  match op with
  | AcCreate account => as_create account ;; ret AyUnit
  | AcById id => let! o := as_get_by_id id in ret (AyAccount o)
  | AcByEmail email => let! o := as_get_by_email email in ret (AyAccount o)
  | AcByUsername username => let! o := as_get_by_username username in ret (AyAccount o)
  | AcUpdate now account => as_update now account ;; ret AyUnit
  | AcStatus now id status reason => as_update_status now id status reason ;; ret AyUnit
  | AcList status limit offset => let! l := as_list status limit offset in ret (AyAccounts l)
  | AcCount status => let! n := as_count status in ret (AyCount n)
  | AcDelete id => let! b := as_delete id in ret (AyDeleted b)
  | AcLogin now id => as_record_login now id ;; ret AyUnit
  | AcExpired now limit => let! l := as_find_expired now limit in ret (AyAccounts l)
  | AcInactive cutoff limit => let! l := as_find_inactive cutoff limit in ret (AyAccounts l)
  end.

Definition expired_by (now : Z) (a : Account) : Prop :=
  from_option (fun t => t < now) False (acc_expires_at a) ∧ acc_status a ≠ Expired.
#[global] Instance expired_by_dec now a : Decision (expired_by now a).
Proof. unfold expired_by. destruct (acc_expires_at a); cbn; apply _. Defined.

Definition inactive_before (cutoff : Z) (a : Account) : Prop :=
  acc_status a = Active ∧ from_option (fun t => t < cutoff) True (acc_last_login_at a).
#[global] Instance inactive_before_dec cutoff a : Decision (inactive_before cutoff a).
Proof. unfold inactive_before. destruct (acc_last_login_at a); cbn; apply _. Defined.

Definition account_spec (op : AccountOp) (l : list Account) (reply : AccountReply) (l' : list Account) : Prop :=
  match op, reply with
  | AcCreate account, AyUnit =>
      l' = l ++ [account] ∧ (acc_key account ∉ acc_key <$> l) ∧ (acc_email account ∉ acc_email <$> l)
  | AcById id, AyAccount o => l' = l ∧ o = select_one (fun a => acc_key a = id) l
  | AcByEmail email, AyAccount o => l' = l ∧ o = select_one (fun a => acc_email a = email) l
  | AcByUsername username, AyAccount o => l' = l ∧ o = select_one (fun a => acc_username a = Some username) l
  | AcUpdate now account, AyUnit =>
      ¬ (acc_key account ∈ acc_key <$> l ∧ acc_email account ∈ acc_email <$> filter (fun a => acc_key a ≠ acc_key account) l) ∧
      l' = update_where (acc_key account) (fun old => set_created_at (acc_created_at old) (set_updated_at now account)) l
  | AcStatus now id status reason, AyUnit => l' = update_where id (apply_status now status reason) l
  | AcList status limit offset, AyAccounts es =>
      l' = l ∧ ∃ s, s ≡ₚ filter (has_status status) l ∧ Sorted (fun a a' => acc_created_at a' ≤ acc_created_at a) s ∧
        es = take (Z.to_nat limit) (drop (Z.to_nat offset) s)
  | AcCount status, AyCount n => l' = l ∧ n = as_unsigned 64 (Z.of_nat (length (filter (has_status status) l)))
  | AcDelete id, AyDeleted b => l' = filter (fun a => acc_key a ≠ id) l ∧ b = bool_decide (id ∈ acc_key <$> l)
  | AcLogin now id, AyUnit => l' = update_where id (apply_login now) l
  | AcExpired now limit, AyAccounts es =>
      l' = l ∧ ∃ s, s ≡ₚ filter (expired_by now) l ∧ Sorted (fun a a' => opt_le Z.le (acc_expires_at a) (acc_expires_at a')) s ∧
        es = take (Z.to_nat limit) s
  | AcInactive cutoff limit, AyAccounts es =>
      l' = l ∧ ∃ s, s ≡ₚ filter (inactive_before cutoff) l ∧
        Sorted (fun a a' => opt_le Z.le (acc_last_login_at a) (acc_last_login_at a')) s ∧ es = take (Z.to_nat limit) s
  | _, _ => False
  end.

Definition account_refuses (op : AccountOp) (l : list Account) : Prop :=
  match op with
  | AcCreate account => acc_key account ∈ acc_key <$> l ∨ acc_email account ∈ acc_email <$> l
  | AcUpdate _ account =>
      acc_key account ∈ acc_key <$> l ∧ acc_email account ∈ acc_email <$> filter (fun a => acc_key a ≠ acc_key account) l
  | _ => False
  end.

(** An answer cut short by a failed read: the first accounts of a listing, or a
    count of zero. *)
Definition account_cut (op : AccountOp) (l : list Account) (reply : AccountReply) : Prop :=
  match op, reply with
  | AcList _ _ _, AyAccounts es | AcExpired _ _, AyAccounts es | AcInactive _ _, AyAccounts es =>
      ∃ rest, account_spec op l (AyAccounts (es ++ rest)) l
  | AcCount _, AyCount n => n = 0
  | _, _ => False
  end.

(** *** Ids and addresses stay distinct *)

Definition distinct (l : list Account) : Prop := NoDup (acc_key <$> l) ∧ NoDup (acc_email <$> l).

Lemma update_where_none id f l : id ∉ acc_key <$> l → update_where id f l = l.
Proof.
  intros Hid. induction l as [|a l IH]; [done|]. cbn in *. apply not_elem_of_cons in Hid as [Ha Hl].
  rewrite decide_False by done. f_equal. by apply IH.
Qed.

(** An update of one account to an address that no other account has. *)
Lemma update_where_distinct id f l :
  (∀ a, a ∈ l → acc_key a = id → acc_key (f a) = id ∧ acc_email (f a) ∉ acc_email <$> filter (fun b => acc_key b ≠ id) l) →
  distinct l → distinct (update_where id f l).
Proof.
  intros Hf [Hk He]. split.
  { replace (acc_key <$> update_where id f l) with (acc_key <$> l); [done|]. unfold update_where.
    change (map ?g l) with (g <$> l). rewrite <- list_fmap_compose. apply list_fmap_ext. intros i a Ha%list_elem_of_lookup_2.
    cbn. case_decide as Hid; [|done]. destruct (Hf a Ha Hid). congruence. }
  induction l as [|a l IH]; [done|]. cbn in Hk, He. apply NoDup_cons in Hk as [Hka Hk], He as [Hea He].
  change (acc_email <$> update_where id f (a :: l)) with
    (acc_email (if decide (acc_key a = id) then f a else a) :: (acc_email <$> update_where id f l)).
  case_decide as Hid.
  - rewrite update_where_none by (by rewrite <- Hid). apply NoDup_cons. split; [|done].
    destruct (Hf a) as [_ Hn]; [left|done|]. contradict Hn. apply list_elem_of_fmap in Hn as (b & Eb & Hb).
    apply list_elem_of_fmap. exists b. split; [done|]. apply list_elem_of_filter. split; [|by right].
    intros Hbid. apply Hka. rewrite Hid, <- Hbid. by apply list_elem_of_fmap_2.
  - apply NoDup_cons. split.
    + intros (b & Eb & (b0 & -> & Hb0)%list_elem_of_fmap)%list_elem_of_fmap. case_decide as Hb.
      * destruct (Hf b0) as [_ Hn]; [by right|done|]. apply Hn. rewrite <- Eb. apply list_elem_of_fmap_2.
        apply list_elem_of_filter. split; [done|left].
      * apply Hea. rewrite Eb. by apply list_elem_of_fmap_2.
    + apply IH; [|done..]. intros b Hb Hbid. destruct (Hf b) as [? Hn]; [by right|done|]. split; [done|].
      contradict Hn. rewrite filter_cons, decide_True by done. by right.
Qed.

(** An update that keeps id and address. *)
Lemma update_where_same id f l :
  (∀ a, acc_key (f a) = acc_key a ∧ acc_email (f a) = acc_email a) → distinct l → distinct (update_where id f l).
Proof.
  intros Hf Hd. apply update_where_distinct; [|done]. intros a Ha Hid. destruct (Hf a) as [-> ->]. split; [done|].
  intros (b & Eb & [Hb Hbl]%list_elem_of_filter)%list_elem_of_fmap. apply Hb. rewrite <- Hid. f_equal.
  destruct Hd as [_ He]. symmetry. by eapply (NoDup_fmap_elem_inj acc_email l).
Qed.

Lemma account_spec_distinct op l reply l' : account_spec op l reply l' → distinct l → distinct l'.
Proof.
  destruct op, reply; cbn; try done; intros Hs Hd;
    try (assert (l' = l) as -> by (apply Hs || (by destruct Hs)); exact Hd).
  - destruct Hs as (-> & Hk & He), Hd as [Hdk Hde]. unfold distinct. rewrite !fmap_app. split; apply NoDup_app;
      (split; [done|]; split; [|apply NoDup_singleton]); intros x Hx ->%list_elem_of_singleton; done.
  - destruct Hs as [Hfree ->]. apply update_where_distinct; [|done]. intros a Ha Hid. split; [done|].
    intros Hin. apply Hfree. split; [|done]. rewrite <- Hid. by apply list_elem_of_fmap_2.
  - subst l'. apply update_where_same; [|done]. intros a. by destruct status.
  - destruct Hs as [-> _]. destruct Hd as [Hdk Hde].
    split; [eapply sublist_NoDup; [exact Hdk|]|eapply sublist_NoDup; [exact Hde|]]; apply fmap_sublist, sublist_filter.
  - subst l'. by apply update_where_same.
Qed.
End Spec.

(** Accounts the columns keep whole. *)
Definition in_years (o : option Z) : Prop := ∀ t, o = Some t → four_digit_year t.

Definition account_kept `{TypeIdEnv} `{AccountText} (a : Account) : Prop :=
  mti_prefix (aid_mti (acc_id a)) = AccountId_PREFIX ∧ fits 32 (acc_failed_login_count a) ∧
  four_digit_year (acc_created_at a) ∧ four_digit_year (acc_updated_at a) ∧
  in_years (acc_email_verified_at a) ∧ in_years (acc_last_login_at a) ∧ in_years (acc_locked_at a) ∧
  in_years (acc_disabled_at a) ∧ in_years (acc_expires_at a) ∧ in_years (acc_password_changed_at a) ∧
  match acc_metadata a with Some m => metadata_from_str (metadata_to_string m) = Some m | None => True end.

Definition account_op_ok `{TypeIdEnv} `{AccountText} (op : AccountOp) : Prop :=
  match op with
  | AcCreate account => account_kept account
  | AcUpdate now account => four_digit_year now ∧ account_kept account
  | AcStatus now _ _ _ | AcLogin now _ => four_digit_year now
  | AcList _ limit offset => 0 ≤ limit < 2 ^ 63 ∧ 0 ≤ offset < 2 ^ 63
  | AcExpired now limit | AcInactive now limit => four_digit_year now ∧ 0 ≤ limit < 2 ^ 63
  | _ => True
  end.

Section Refine.
Context `{TypeIdEnv} `{!TypeIdLaws} `{TimeTextLaws} `{AccountTextLaws}.
Context (unique_msg : string) (fresh_id : TcRow → AccountId) (utc_now : TcRow → Z) (calm : Prop).

#[local] Instance turso_accounts : AccountStorage (LqDb TcRow) := TursoAccountStorage unique_msg fresh_id utc_now.

Abbreviation rep := (lq_rep tc_insert_row account_kept calm).
Abbreviation cpost := (post tc_insert_row account_kept calm account_spec account_refuses account_cut).
Abbreviation refines op := (∀ l db, rep l db → wp (account_op op) (cpost op l) db).
Abbreviation parse := (tc_row_to_account fresh_id utc_now).

Lemma opt_dt_roundtrip o : in_years o → opt_dt o ≫= parse_datetime = o.
Proof.
  intros Ho. destruct o as [t|]; [|done]. cbn. unfold parse_datetime. by rewrite parse_to_rfc3339 by by apply Ho.
Qed.

Lemma tc_roundtrip a : account_kept a → parse (tc_insert_row a) = Ok a.
Proof.
  intros (Hid & Hf & Hc & Hu & Hev & Hl & Hlo & Hd & He & Hp & Hm). unfold tc_row_to_account. cbn -[as_unsigned opt_dt].
  rewrite status_from_to_string, roles_roundtrip, !opt_dt_roundtrip, as_unsigned_small by done.
  unfold parse_datetime. rewrite !parse_to_rfc3339 by done. cbn.
  rewrite (proj2 (AccountId_from_str_Ok _ (acc_id a)) (conj eq_refl Hid)). cbn.
  assert ((metadata_to_string <$> acc_metadata a) ≫= metadata_from_str = acc_metadata a) as -> by by destruct (acc_metadata a).
  assert (negb ((if acc_email_verified a then 1 else 0) =? 0) = acc_email_verified a) as -> by by destruct (acc_email_verified a).
  by destruct a.
Qed.

Lemma id_eqb a id : String.eqb (acc_id (tc_insert_row a)) id = bool_decide (acc_key a = id).
Proof. unfold acc_key. cbn. by destruct (String.eqb_spec (aid_as_str (acc_id a)) id); case_bool_decide. Qed.

Lemma status_eqb_account a st : String.eqb (acc_status (tc_insert_row a)) (status_to_string st) = bool_decide (acc_status a = st).
Proof. cbn. by destruct (acc_status a), st. Qed.

(** An [UPDATE] of one account. *)
Lemma update_where_rep id f g l :
  Forall (fun a => acc_key a = id → f (tc_insert_row a) = tc_insert_row (g a)) l →
  tc_update_where id f (map tc_insert_row l) = map tc_insert_row (update_where id g l).
Proof.
  intros Hl. unfold tc_update_where. rewrite (update_rep _ _ (fun a => acc_key a = id) _ g); [done|].
  eapply Forall_impl; [exact Hl|]. intros a Ha. split; [apply id_eqb|exact Ha].
Qed.

Lemma kept_update_where id g l :
  Forall account_kept l → (∀ a, account_kept a → account_kept (g a)) → Forall account_kept (update_where id g l).
Proof. intros Hl Hg. apply Forall_map. eapply Forall_impl; [exact Hl|]. intros a Ha. cbn. case_decide; auto. Qed.

Lemma refine_update_where op id f g c what l db :
  rep l db → (∀ a, f (tc_insert_row a) = tc_insert_row (g a)) → (∀ a, account_kept a → account_kept (g a)) →
  account_spec op l AyUnit (update_where id g l) →
  wp ((lq_connect c ;; lq_execute what (fun rows => Ok (tt, tc_update_where id f rows))) ;; ret AyUnit) (cpost op l) db.
Proof.
  intros Hr Hf Hg Hs. pose proof (rep_ok _ _ _ _ _ Hr) as Hok.
  apply (refine_execute _ _ _ _ _ _ _ (fun _ => AyUnit) (Ok (tt, update_where id g l))); [exact Hr|]. split_and!; [|by apply kept_update_where|done].
  rewrite (update_where_rep _ _ g); [done|]. apply Forall_true. auto.
Qed.

Lemma keys_rep l : acc_id <$> map tc_insert_row l = acc_key <$> l.
Proof. by rewrite <- list_fmap_compose. Qed.
Lemma emails_rep l : acc_email <$> map tc_insert_row l = acc_email <$> l.
Proof. by rewrite <- list_fmap_compose. Qed.

Lemma refine_create account : account_kept account → refines (AcCreate account).
Proof.
  intros Hk l db Hr. pose proof (rep_ok _ _ _ _ _ Hr) as Hok.
  apply (refine_execute _ _ _ _ _ _ _ (fun _ => AyUnit)
    (if decide (account_refuses (AcCreate account) l) then Err "" else Ok (tt, l ++ [account]))); [exact Hr|].
  rewrite keys_rep, emails_rep. unfold account_refuses. change (acc_id (tc_insert_row account)) with (acc_key account).
  change (acc_email (tc_insert_row account)) with (acc_email account).
  case_decide as Hd; [split; [|done]; exists unique_msg; repeat case_bool_decide; naive_solver|].
  split_and!; [|by apply Forall_app; split; [|by apply Forall_singleton]|cbn; split_and!; naive_solver].
  rewrite map_app. rewrite !bool_decide_false by naive_solver. done.
Qed.

(** The single-row look-ups. *)
Lemma refine_get op what P (Q : Account → Prop) `{∀ a, Decision (Q a)} l db :
  rep l db → (∀ a, P (tc_insert_row a) = bool_decide (Q a)) → account_spec op l (AyAccount (select_one Q l)) l →
  wp (let! o := tc_get fresh_id utc_now what P in ret (AyAccount o)) (cpost op l) db.
Proof.
  intros Hr HPQ Hs. pose proof (rep_ok _ _ _ _ _ Hr) as Hok.
  eapply (refine_first _ _ _ _ _ _ _ tc_roundtrip _ _ _ _ _ (filter Q l)); [exact Hr|by apply ok_filter| |done].
  apply filter_rep. by apply Forall_true.
Qed.

Lemma refine_by_id id : refines (AcById id).
Proof. intros l db Hr. apply (refine_get _ _ _ (fun a => acc_key a = id)); [done|intros; apply id_eqb|done]. Qed.

Lemma refine_by_email email : refines (AcByEmail email).
Proof.
  intros l db Hr. apply (refine_get _ _ _ (fun a => acc_email a = email)); [done| |done].
  intros a. cbn. by destruct (String.eqb_spec (acc_email a) email); case_bool_decide.
Qed.

Lemma refine_by_username username : refines (AcByUsername username).
Proof. intros l db Hr. by apply (refine_get _ _ _ (fun a => acc_username a = Some username)). Qed.

Lemma refine_update now account : four_digit_year now → account_kept account → refines (AcUpdate now account).
Proof.
  intros Ht Hk l db Hr. pose proof (rep_ok _ _ _ _ _ Hr) as Hok.
  set (g := fun old : Account => set_created_at (acc_created_at old) (set_updated_at now account)).
  apply (refine_execute _ _ _ _ _ _ _ (fun _ => AyUnit)
    (if decide (account_refuses (AcUpdate now account) l) then Err "" else Ok (tt, update_where (acc_key account) g l))); [exact Hr|].
  cbv zeta beta.
  change (acc_id (set_updated_at (to_rfc3339 now) (tc_insert_row account))) with (acc_key account).
  change (acc_email (set_updated_at (to_rfc3339 now) (tc_insert_row account))) with (acc_email account).
  rewrite keys_rep, (filter_rep _ _ (fun a => acc_key a ≠ acc_key account)), emails_rep.
  2:{ apply Forall_true. intros a. rewrite id_eqb. by rewrite bool_decide_not. }
  case_decide as Hd; cbn in Hd.
  - split; [|done]. exists unique_msg. destruct Hd. by rewrite !bool_decide_true.
  - split_and!; [|apply kept_update_where; [done|]|by split].
    + rewrite <- bool_decide_and, bool_decide_false by done. rewrite (update_where_rep _ _ g); [done|]. by apply Forall_true.
    + intros a (_ & _ & Hc & _). destruct Hk as (? & ? & _ & _ & ? & ? & ? & ? & ? & ? & ?). by split_and!.
Qed.

Lemma in_years_some now : four_digit_year now → in_years (Some now).
Proof. by intros Ht t [= <-]. Qed.
Lemma in_years_none : in_years None.
Proof. done. Qed.
#[local] Hint Resolve in_years_some in_years_none : core.

Lemma refine_status now id st reason : four_digit_year now → refines (AcStatus now id st reason).
Proof.
  intros Ht l db Hr. eapply (refine_update_where _ id _ (apply_status now st reason)); [exact Hr|by destruct st| |done].
  intros a (? & ? & ? & ? & ? & ? & ? & ? & ? & ? & ?). destruct st; split_and!; cbn; auto.
Qed.

Lemma refine_login now id : four_digit_year now → refines (AcLogin now id).
Proof.
  intros Ht l db Hr. eapply (refine_update_where _ id _ (apply_login now)); [exact Hr|done| |done].
  intros a (? & ? & ? & ? & ? & ? & ? & ? & ? & ? & ?); split_and!; cbn; auto; by unfold fits.
Qed.

Lemma has_status_rep status a : tc_has_status status (tc_insert_row a) = bool_decide (has_status status a).
Proof. destruct status as [st|]; [apply status_eqb_account|done]. Qed.

Lemma refine_list status limit offset : 0 ≤ limit < 2 ^ 63 → 0 ≤ offset < 2 ^ 63 → refines (AcList status limit offset).
Proof.
  intros Hl Ho l db Hr. pose proof (rep_ok _ _ _ _ _ Hr) as Hok.
  destruct (order_desc_rep tc_insert_row account_kept acc_created_at acc_created_at (filter (has_status status) l))
    as (s & Hs & Hp & Hsorted); [by apply ok_filter|by intros a (_ & _ & ? & _)|].
  eapply (refine_collect _ _ _ _ _ _ _ tc_roundtrip _ _ _ _ (take (Z.to_nat limit) (drop (Z.to_nat offset) s))); [exact Hr|..].
  - apply Forall_take, Forall_drop. rewrite Hp. by apply ok_filter.
  - erewrite filter_rep; [|apply Forall_true; apply has_status_rep]. by rewrite Hs, offset_rep, limit_rep.
  - split; [done|]. by exists s.
  - intros n. eexists (drop n _). cbn. rewrite take_drop. split; [done|]. by exists s.
Qed.

Lemma refine_count status : refines (AcCount status).
Proof.
  intros l db Hr. apply wp_bind, wp_bind. eapply wp_call; [exact Hr| |intros; by apply post_fault].
  clear db Hr. intros db Hr. apply wp_bind. eapply wp_call; [exact Hr| |intros; by apply post_fault].
  clear db Hr. intros db Hr. unfold wp. pose proof Hr as (Er & _). rewrite Er. destruct (next_rep _ _ _ l db Hr) as [Hr' Hn].
  destruct (lq_next db) as [[msg|] db']; cbn -[as_unsigned] in *.
  { right. split; [by destruct Hn|]. by split. }
  left. exists l. split; [|done]. split; [done|].
  rewrite (filter_rep _ _ (has_status status)), length_map; [done|]. apply Forall_true, has_status_rep.
Qed.

Lemma refine_delete id : refines (AcDelete id).
Proof.
  intros l db Hr. pose proof (rep_ok _ _ _ _ _ Hr) as Hok.
  apply (refine_execute _ _ _ _ _ _ _ AyDeleted (Ok (bool_decide (id ∈ acc_key <$> l), filter (fun a => acc_key a ≠ id) l))); [exact Hr|].
  split_and!; [|by apply ok_filter|done].
  rewrite (filter_rep _ (fun r => negb (String.eqb (acc_id r) id)) (fun a => acc_key a ≠ id)).
  2:{ apply Forall_true. intros a. rewrite id_eqb. by rewrite bool_decide_not. }
  rewrite (filter_rep _ (fun r => String.eqb (acc_id r) id) (fun a => acc_key a = id)) by (apply Forall_true; intros a; apply id_eqb).
  rewrite length_map. do 2 f_equal. apply eq_iff_eq_true. rewrite Z.ltb_lt, bool_decide_eq_true, list_elem_of_fmap. split.
  - intros Hl. destruct (filter (fun a => acc_key a = id) l) as [|a s] eqn:E; [cbn in Hl; lia|].
    assert (a ∈ filter (fun a => acc_key a = id) l) as [? ?]%list_elem_of_filter by (rewrite E; left). by exists a.
  - intros (a & -> & Ha). destruct (filter _ l) as [|a' s] eqn:E; [|cbn; lia].
    exfalso. by eapply (filter_nil_inv (fun b => acc_key b = acc_key a)).
Qed.

(** The two selections by time. *)
Lemma refine_selection op what (P : TcRow → bool) (Q : Account → Prop) `{∀ a, Decision (Q a)} key (time : Account → option Z) limit l db :
  rep l db → 0 ≤ limit < 2 ^ 63 → (∀ a, account_kept a → P (tc_insert_row a) = bool_decide (Q a)) →
  (∀ a, account_kept a → in_years (time a) ∧ key (tc_insert_row a) = to_rfc3339 <$> time a) →
  (∀ s, s ≡ₚ filter Q l → Sorted (fun a a' => opt_le Z.le (time a) (time a')) s →
        account_spec op l (AyAccounts (take (Z.to_nat limit) s)) l) →
  (∀ es rest, account_spec op l (AyAccounts (es ++ rest)) l → account_cut op l (AyAccounts es)) →
  wp (let! es := (tc_conn ;; let! rows := lq_query what (fun rows => lq_limit limit (order_text_asc key (List.filter P rows))) in
                  lq_collect parse rows) in ret (AyAccounts es)) (cpost op l) db.
Proof.
  intros Hr Hl HPQ Hk Hs Hcut. pose proof (rep_ok _ _ _ _ _ Hr) as Hok.
  destruct (order_text_asc_rep tc_insert_row account_kept key time (filter Q l)) as (s & Es & Hp & Hsorted); [by apply ok_filter|done|].
  eapply (refine_collect _ _ _ _ _ _ _ tc_roundtrip _ _ _ _ (take (Z.to_nat limit) s)); [exact Hr|..|by apply Hs|].
  3: { intros n. eapply (Hcut _ (drop n _)). rewrite take_drop. by apply Hs. }
  - apply Forall_take. rewrite Hp. by apply ok_filter.
  - erewrite filter_rep; [|eapply Forall_impl; [exact Hok|exact HPQ]]. by rewrite Es, limit_rep.
Qed.

Lemma text_before_rep t now : four_digit_year t → four_digit_year now → text_before (to_rfc3339 t) (to_rfc3339 now) = bool_decide (t < now).
Proof. intros Ht Hn. unfold text_before. rewrite rfc3339_order by done. rewrite <- bool_decide_not. apply bool_decide_ext. lia. Qed.

Lemma refine_expired now limit : four_digit_year now → 0 ≤ limit < 2 ^ 63 → refines (AcExpired now limit).
Proof.
  intros Ht Hl l db Hr. apply (refine_selection _ _ _ (expired_by now) _ acc_expires_at); [done..| | | |by eexists].
  - intros a Ha. assert (in_years (acc_expires_at a)) as Hy by (by destruct Ha as (_ & _ & _ & _ & _ & _ & _ & _ & ? & _)).
    rewrite (status_eqb_account a Expired : String.eqb (acc_status (tc_insert_row a)) "expired" = _).
    apply eq_iff_eq_true. rewrite bool_decide_eq_true. unfold expired_by. cbn. unfold opt_dt.
    destruct (acc_expires_at a) as [t|]; cbn; [|naive_solver].
    rewrite text_before_rep by auto. rewrite andb_true_iff, negb_true_iff, bool_decide_eq_true, bool_decide_eq_false. done.
  - intros a (_ & _ & _ & _ & _ & _ & _ & _ & ? & _). done.
  - intros s Hp Hs. split; [done|]. by exists s.
Qed.

Lemma refine_inactive cutoff limit : four_digit_year cutoff → 0 ≤ limit < 2 ^ 63 → refines (AcInactive cutoff limit).
Proof.
  intros Ht Hl l db Hr. apply (refine_selection _ _ _ (inactive_before cutoff) _ acc_last_login_at); [done..| | | |by eexists].
  - intros a Ha. assert (in_years (acc_last_login_at a)) as Hy by (by destruct Ha as (_ & _ & _ & _ & _ & ? & _)).
    rewrite (status_eqb_account a Active : String.eqb (acc_status (tc_insert_row a)) "active" = _).
    apply eq_iff_eq_true. rewrite bool_decide_eq_true. unfold inactive_before. cbn. unfold opt_dt.
    destruct (acc_last_login_at a) as [t|]; cbn; [rewrite text_before_rep by auto|]; rewrite andb_true_iff, ?bool_decide_eq_true; naive_solver.
  - intros a (_ & _ & _ & _ & _ & ? & _). done.
  - intros s Hp Hs. split; [done|]. by exists s.
Qed.

(** C33: Turso keeps accounts in a list. Started on a table that holds the accounts
    of a list, any sequence of operations at times of four-digit years, with any
    connections, statements and reads failing, answers as the operations on that
    list do: look-ups and counts find what is there, lists come newest first and
    are cut by limit and offset, expired and inactive accounts come oldest first,
    changes of status and logins write the columns they name. Ids and addresses
    stay distinct: an account is neither created with an id or address nor updated
    to an address that another account has. A failed call changes nothing. A failed
    read leaves an error from the look-ups, but from a listing its first accounts
    only, and from a count zero ([account_cut]). If nothing fails, only a second
    account with the same id or address is refused. Roles and metadata are assumed
    to read back from their JSON text. *)
Theorem turso_accounts_refine l ops db :
  lq_rep tc_insert_row account_kept calm l db → Forall account_op_ok ops →
  ∃ l', trace calm account_spec account_refuses account_cut l ops (run_ops account_op ops db).1 l' ∧
    lq_rep tc_insert_row account_kept calm l' (run_ops account_op ops db).2 ∧
    (NoDup (acc_key <$> l) ∧ NoDup (acc_email <$> l) → NoDup (acc_key <$> l') ∧ NoDup (acc_email <$> l')).
Proof.
  intros Hr Ho.
  enough (∃ l', trace calm account_spec account_refuses account_cut l ops (run_ops account_op ops db).1 l' ∧
    lq_rep tc_insert_row account_kept calm l' (run_ops account_op ops db).2) as (l' & Ht & Hr').
  { exists l'. split_and!; [done..|]. exact (trace_keeps _ _ _ _ distinct account_spec_distinct _ _ _ _ Ht). }
  apply (run_refines _ _ _ _ _ _ account_op account_op_ok); [|done..].
  clear l ops db Hr Ho. intros [] l db Ho Hr; cbn [account_op_ok] in Ho; try match type of Ho with _ ∧ _ => destruct Ho end;
    eauto using refine_create, refine_by_id, refine_by_email, refine_by_username,
    refine_update, refine_status, refine_list, refine_count, refine_delete, refine_login, refine_expired, refine_inactive.
Qed.
End Refine.

(** ** Example and behaviour that looks unintended *)

Module TursoAccountsExample.
Export TimeExample.

(** Roles written with a mark before each character and an end after each role. *)
Fixpoint mark (s rest : string) : string :=
  match s with EmptyString => String ";" rest | String c s => String "x" (String c (mark s rest)) end.
Fixpoint write_roles (roles : list string) : string :=
  match roles with [] => "" | r :: rs => mark r (write_roles rs) end.
Fixpoint read_roles (s : string) : option (list string) :=
  match s with
  | EmptyString => Some []
  | String _ EmptyString => Some [""]
  | String ";" s => cons "" <$> read_roles s
  | String _ (String c s) => match read_roles s with Some (r :: rs) => Some (String c r :: rs) | _ => None end
  end.

Lemma read_mark r : ∀ rest rs, read_roles rest = Some rs → read_roles (mark r rest) = Some (r :: rs).
Proof.
  induction r as [|c r IH]; intros rest rs E; cbn; [|by rewrite (IH rest rs E)].
  destruct rest; [by injection E as <-|]. by rewrite E.
Qed.

#[export] Instance marked_text : AccountText := {|
  roles_to_string := write_roles; roles_from_str := read_roles;
  metadata_to_string _ := "null"; metadata_from_str _ := Some JNull;
|}.

#[export] Instance marked_text_laws : AccountTextLaws.
Proof. split. intros roles. induction roles as [|r rs IH]; [done|]. cbn in *. by apply read_mark. Qed.

#[export] Existing Instance witness_typeid.
#[export] Existing Instance witness_typeid_laws.

Definition account (n : nat) (email : string) (status : AccountStatus) (created : Z) : Account :=
  mkAccount (@mkAccountId witness_typeid (AccountId_PREFIX, n)) email None None status ["user"; "admin"] true (Some created) None None None None None
    (Some (created + 10)) None 2 (Some JNull) created created.

Definition stored : list Account := [account 1 "a@x.org" Active 5; account 2 "b@x.org" Locked 7].

(** A table with the two accounts, on which the calls in [faults] and the reads in [reads] fail. *)
Definition table (faults reads : list (option string)) : LqDb TcRow := mkLqDb (map tc_insert_row stored) [] faults reads.

Definition session : list AccountOp :=
  [AcLogin 20 "0_acct"; AcCreate (account 3 "a@x.org" Active 9); AcLogin 20 "0_acct";
   AcStatus 21 "00_acct" Active None; AcExpired 16 10; AcList (Some Active) 1 1; AcCount None].

Lemma kept_account n email status created : 0 ≤ created < 1000 → account_kept (account n email status created).
Proof.
  intros Hc. assert (∀ t, 0 ≤ t < 2000 → four_digit_year t) as Hy by (unfold four_digit_year; lia).
  split_and!; try (apply in_years_some, Hy); try apply Hy; cbn; try lia; done.
Qed.

#[export] Instance backend : AccountStorage (LqDb TcRow) :=
  TursoAccountStorage "UNIQUE" (fun _ => @mkAccountId witness_typeid (AccountId_PREFIX, O)) (fun _ => 0).
End TursoAccountsExample.
Import TursoAccountsExample.

(** The first connection fails, the second account with an address is refused,
    and the last count cannot be read; the rest of the session runs. *)
Lemma turso_accounts_refine_witness :
  let db := table [Some "busy"] (replicate 4 None ++ [Some "connection reset"]) in
  let replies := (run_ops account_op session db).1 in
  (∃ l', trace False account_spec account_refuses account_cut stored session replies l' ∧
     NoDup (acc_key <$> l') ∧ NoDup (acc_email <$> l')) ∧
  map is_ok replies = [false; false; true; true; true; true; true] ∧
  (∃ es, replies !! 4%nat = Some (Ok (AyAccounts es)) ∧ map acc_email es = ["a@x.org"]) ∧
  (∃ es, replies !! 5%nat = Some (Ok (AyAccounts es)) ∧ map acc_email es = ["a@x.org"]) ∧
  replies !! 6%nat = Some (Ok (AyCount 0)).
Proof.
  split; [|split_and!; [vm_compute; reflexivity|eexists; split; vm_compute; reflexivity..|vm_compute; reflexivity]].
  destruct (@turso_accounts_refine _ _ _ _ _ _ _ "UNIQUE" (fun _ => @mkAccountId witness_typeid (AccountId_PREFIX, O)) (fun _ => 0) False stored session
    (table [Some "busy"] (replicate 4 None ++ [Some "connection reset"]))) as (l' & Ht & _ & Hd).
  - split_and!; [done| |done]. repeat apply Forall_cons_2; [..|apply Forall_nil_2]; apply kept_account; lia.
  - repeat apply Forall_cons_2; [..|apply Forall_nil_2]; first [exact I|apply kept_account; lia|cbn; unfold four_digit_year; lia].
  - exists l'. split; [exact Ht|]. apply Hd. split; (eapply bool_decide_eq_true_1; vm_compute; reflexivity).
Defined.

(** A failure while rows are read ends the list and not the call: accounts are
    missing from a page without an error. *)
Lemma account_list_truncated :
  ∃ es, (as_list None 10 0 (table [] [None; Some "connection reset"])).1 = Ok es ∧ map acc_email es = ["b@x.org"].
Proof. eexists. split; vm_compute; reflexivity. Qed.

(** A count whose row cannot be read is zero. *)
Lemma unread_count_is_zero : (as_count None (table [] [Some "connection reset"])).1 = Ok 0.
Proof. vm_compute. reflexivity. Qed.
