(* ===== verification/AuditDecorators.v ===== *)
(** * Audited storages and providers

    [src/acton-service/src/audit/logger.rs] and [audit/decorators.rs]: the logger
    that hands events to the audit agent, and the wrappers that log what happens
    to refresh tokens, API keys and OAuth codes. The mailbox of the agent is the
    list of the events sent to it. The operations of the wrapped storage are those
    of its trait, whatever the backend. *)

From S2P Require Import Prelude Text FrameworkError AuditEvent AuditHttp RedisKv Backend RefreshTokens Password ApiKeys ApiKeySafety OAuth.

Local Open Scope string_scope.
Local Open Scope Z_scope.
Local Open Scope list_scope.
Local Open Scope monad_scope.

(** The id and the time [AuditEvent::new] draws for the [n]-th event of a logger. *)
Class EventEnv := { event_stamp : nat → bytes * Z }.

(** ** The logger *)

(** [AuditLogger] less the agent's handle. *)
Record AuditLogger := mkAuditLogger { al_service_name : string; al_config : AuditConfig }.

(** What a wrapper holds: the wrapped backend, and the agent's mailbox behind the
    logger. *)
Record Audited (S : Type) := mkAudited { au_inner : S; au_sent : list AuditEvent }.
Arguments mkAudited {S}.
Arguments au_inner {S}.
Arguments au_sent {S}.

Section Logger.
Context `{EventEnv} {S : Type} (logger : AuditLogger).

Abbreviation A := (M (BkWorld (Audited S)) Error).

Definition sent (w : BkWorld (Audited S)) : list AuditEvent := au_sent (bk_store w).

(** The world of the wrapped backend. *)
Definition plain (w : BkWorld (Audited S)) : BkWorld S := mkBkWorld (au_inner (bk_store w)) (bk_tick w).

(** A call of [self.inner]. *)
Definition inner {B} (m : M (BkWorld S) Error B) : A B := fun w =>
  let '(r, w') := m (plain w) in (r, mkBkWorld (mkAudited (bk_store w') (sent w)) (bk_tick w')).

(** [AuditEvent::new]. *)
Definition new_event (kind : AuditEventKind) (severity : AuditSeverity) (service_name : string) : A AuditEvent := fun w =>
  let '(uuid, now) := event_stamp (length (sent w)) in (Ok (AuditEvent_new uuid now kind severity service_name), w).

(** The outcome of [send] is dropped. *)
Definition logger_log (event : AuditEvent) : A unit := fun w =>
  (Ok tt, mkBkWorld (mkAudited (au_inner (bk_store w)) (sent w ++ [event])) (bk_tick w)).

Definition log_auth (kind : AuditEventKind) (severity : AuditSeverity) (source : AuditSource) : A unit :=
  let! event := new_event kind severity (al_service_name logger) in
  logger_log (with_source event source).

Definition log_custom (name : string) (severity : AuditSeverity) (metadata : option json) : A unit :=
  let! event := new_event (Custom name) severity (al_service_name logger) in
  logger_log (set_metadata event metadata).

Definition subject_source (subject : option string) : AuditSource := mkAuditSource None None subject None.

(** [emit] of [decorators.rs]. *)
Definition emit_auth (kind : AuditEventKind) (severity : AuditSeverity) (source : AuditSource) (metadata : json) : A unit :=
  if negb (ac_audit_auth_events (al_config logger)) then ret tt
  else
    let! event := new_event kind severity (al_service_name logger) in
    logger_log (with_metadata (with_source event source) metadata).

(** ** Refresh tokens *)

Section Refresh.
Context `{!RefreshTokenStorage S}.

Definition refresh_metadata (family_id old_token_id new_token_id : string) : json :=
  JObject [("family_id", JString family_id); ("new_token_id", JString new_token_id); ("old_token_id", JString old_token_id)].

Definition audited_rotate (old_token_id new_token_id user_id family_id : string) (expires_at : Z)
    (metadata : RefreshTokenMetadata) : A unit :=
  inner (rts_rotate old_token_id new_token_id user_id family_id expires_at metadata) ;;
  let source := mkAuditSource (rtm_ip_address metadata) (rtm_user_agent metadata) (Some user_id) None in
  emit_auth AuthTokenRefresh SevNotice source (refresh_metadata family_id old_token_id new_token_id).

#[global] Instance AuditedRefreshStorage : RefreshTokenStorage (Audited S) := {|
  rts_store token_id user_id family_id expires_at metadata := inner (rts_store token_id user_id family_id expires_at metadata);
  rts_get token_id := inner (rts_get token_id);
  rts_revoke token_id := inner (rts_revoke token_id);
  rts_revoke_family family_id := inner (rts_revoke_family family_id);
  rts_revoke_all_for_user user_id := inner (rts_revoke_all_for_user user_id);
  rts_rotate := audited_rotate;
  rts_cleanup_expired := inner rts_cleanup_expired;
|}.
End Refresh.

(** ** API keys *)

Section ApiKeys.
Context `{!ApiKeyStorage S}.

Definition created_metadata (key : ApiKey) : json :=
  JObject [("key_id", JString (ak_id key)); ("name", JString (ak_name key)); ("prefix", JString (ak_prefix key));
           ("scopes", JArray (map JString (ak_scopes key)))].

Definition audited_create (key : ApiKey) : A unit :=
  inner (aks_create key) ;;
  emit_auth AuthApiKeyCreated SevNotice (subject_source (Some (ak_user_id key))) (created_metadata key).

Definition audited_revoke (id : string) : A unit :=
  inner (aks_revoke id) ;;
  emit_auth AuthApiKeyRevoked SevNotice (subject_source None) (JObject [("key_id", JString id)]).

#[global] Instance AuditedApiKeyStorage : ApiKeyStorage (Audited S) := {|
  aks_get_by_prefix prefix := inner (aks_get_by_prefix prefix);
  aks_get_by_id id := inner (aks_get_by_id id);
  aks_create := audited_create;
  aks_update_last_used id := inner (aks_update_last_used id);
  aks_revoke := audited_revoke;
  aks_list_by_user user_id := inner (aks_list_by_user user_id);
  aks_delete id := inner (aks_delete id);
|}.
End ApiKeys.
End Logger.

(** ** OAuth providers *)

(** The trait. *)
Class OAuthProvider (S : Type) := {
  op_name : string;
  op_authorization_url : string → list string → string;
  op_exchange_code : string → M (BkWorld S) Error OAuthTokens;
  op_get_user_info : string → M (BkWorld S) Error OAuthUserInfo;
  op_refresh_token : string → M (BkWorld S) Error OAuthTokens;
}.

Section OAuth.
Context `{EventEnv} {S : Type} (logger : AuditLogger) `{!OAuthProvider S}.

Definition callback_metadata (r : result OAuthTokens Error) : json :=
  match r with
  | Ok _ => JObject [("outcome", JString "success"); ("provider", JString op_name)]
  | Err e => JObject [("error", JString (error_to_string e)); ("outcome", JString "failure"); ("provider", JString op_name)]
  end.

Definition audited_exchange_code (code : string) : M (BkWorld (Audited S)) Error OAuthTokens :=
  let! r := attempt (inner (op_exchange_code code)) in
  match r with
  | Ok tokens =>
      emit_auth logger AuthOAuthCallback SevNotice (subject_source None) (callback_metadata r) ;;
      ret tokens
  | Err e =>
      emit_auth logger AuthOAuthCallback SevWarning (subject_source None) (callback_metadata r) ;;
      fail e
  end.

#[global] Instance AuditedOAuthProvider : OAuthProvider (Audited S) := {|
  op_name := op_name;
  op_authorization_url := op_authorization_url;
  op_exchange_code := audited_exchange_code;
  op_get_user_info access_token := inner (op_get_user_info access_token);
  op_refresh_token refresh_token := inner (op_refresh_token refresh_token);
|}.
End OAuth.

(** ** Calls and their answers *)

Inductive RtReply := RtUnit | RtData (d : option RefreshTokenData) | RtCount (n : Z).

Definition rt_call {S} `{!RefreshTokenStorage S} (op : RtOp) : M (BkWorld S) Error RtReply :=
  match op with
  | Rt_Store id u f e m => rts_store id u f e m ;; ret RtUnit
  | Rt_Get id => let! d := rts_get id in ret (RtData d)
  | Rt_Revoke id => rts_revoke id ;; ret RtUnit
  | Rt_RevokeFamily f => let! n := rts_revoke_family f in ret (RtCount n)
  | Rt_RevokeUser u => let! n := rts_revoke_all_for_user u in ret (RtCount n)
  | Rt_Rotate o n u f e m => rts_rotate o n u f e m ;; ret RtUnit
  | Rt_Cleanup => let! n := rts_cleanup_expired in ret (RtCount n)
  end.

Inductive AkReply := AkUnit | AkKey (k : option ApiKey) | AkKeys (l : list ApiKey).

Definition ak_call {S} `{!ApiKeyStorage S} (op : AkOp) : M (BkWorld S) Error AkReply :=
  match op with
  | AkGetByPrefix p => let! k := aks_get_by_prefix p in ret (AkKey k)
  | AkGetById id => let! k := aks_get_by_id id in ret (AkKey k)
  | AkCreate k => aks_create k ;; ret AkUnit
  | AkUpdateLastUsed id => aks_update_last_used id ;; ret AkUnit
  | AkRevoke id => aks_revoke id ;; ret AkUnit
  | AkListByUser u => let! l := aks_list_by_user u in ret (AkKeys l)
  | AkDelete id => aks_delete id ;; ret AkUnit
  end.

Inductive OaOp := OaExchange (code : string) | OaUserInfo (access_token : string) | OaRefresh (refresh_token : string).

Inductive OaReply := OaTokens (t : OAuthTokens) | OaUser (u : OAuthUserInfo).

Definition oa_call {S} `{!OAuthProvider S} (op : OaOp) : M (BkWorld S) Error OaReply :=
  match op with
  | OaExchange code => let! t := op_exchange_code code in ret (OaTokens t)
  | OaUserInfo access_token => let! u := op_get_user_info access_token in ret (OaUser u)
  | OaRefresh refresh_token => let! t := op_refresh_token refresh_token in ret (OaTokens t)
  end.

Fixpoint run_calls {W Op Reply} (call : Op → M W Error Reply) (ops : list Op) (w : W) : list (result Reply Error) * W :=
  match ops with
  | [] => ([], w)
  | op :: ops => let '(r, w) := call op w in let '(rs, w) := run_calls call ops w in (r :: rs, w)
  end.

(** ** What is logged *)

(** An event before its id and time are drawn. *)
Record Draft := mkDraft { df_kind : AuditEventKind; df_severity : AuditSeverity; df_source : AuditSource; df_metadata : json }.

(** Refresh tokens: every rotation that succeeded. *)
Definition refresh_drafts (op : RtOp) (r : result RtReply Error) : option Draft :=
  match op, r with
  | Rt_Rotate o n u f _ m, Ok _ => Some (mkDraft AuthTokenRefresh SevNotice
      (mkAuditSource (rtm_ip_address m) (rtm_user_agent m) (Some u) None)
      (JObject [("family_id", JString f); ("new_token_id", JString n); ("old_token_id", JString o)]))
  | _, _ => None
  end.

(** API keys: every creation and revocation that succeeded. *)
Definition api_key_drafts (op : AkOp) (r : result AkReply Error) : option Draft :=
  match op, r with
  | AkCreate k, Ok _ => Some (mkDraft AuthApiKeyCreated SevNotice (mkAuditSource None None (Some (ak_user_id k)) None)
      (JObject [("key_id", JString (ak_id k)); ("name", JString (ak_name k)); ("prefix", JString (ak_prefix k));
                ("scopes", JArray (map JString (ak_scopes k)))]))
  | AkRevoke id, Ok _ => Some (mkDraft AuthApiKeyRevoked SevNotice AuditSource_default (JObject [("key_id", JString id)]))
  | _, _ => None
  end.

(** OAuth: every exchange of a code, with its outcome. *)
Definition oauth_drafts (provider : string) (op : OaOp) (r : result OaReply Error) : option Draft :=
  match op, r with
  | OaExchange _, Ok _ => Some (mkDraft AuthOAuthCallback SevNotice AuditSource_default
      (JObject [("outcome", JString "success"); ("provider", JString provider)]))
  | OaExchange _, Err e => Some (mkDraft AuthOAuthCallback SevWarning AuditSource_default
      (JObject [("error", JString (error_to_string e)); ("outcome", JString "failure"); ("provider", JString provider)]))
  | _, _ => None
  end.

Section Exact.
Context `{EventEnv} {S : Type} (logger : AuditLogger).

(** The events of some drafts, sent after [n] others. *)
Fixpoint events_of (n : nat) (drafts : list Draft) : list AuditEvent :=
  match drafts with
  | [] => []
  | d :: drafts =>
      mkAuditEvent (event_stamp n).1 (event_stamp n).2 (df_kind d) (df_severity d) (df_source d)
        None None None None (al_service_name logger) (Some (df_metadata d)) None None 0 :: events_of (Datatypes.S n) drafts
  end.

(** Any sequence of calls answers and leaves the backend as without the wrapper,
    and sends the events of the drafts in order, or none when the configuration
    does not audit authentication. *)
Definition exactly_audited {Op Reply} (call : Op → M (BkWorld S) Error Reply) (audited : Op → M (BkWorld (Audited S)) Error Reply)
    (drafts : Op → result Reply Error → option Draft) : Prop :=
  ∀ ops w,
    let '(replies, w') := run_calls audited ops w in
    run_calls call ops (plain w) = (replies, plain w') ∧
    sent w' = sent w ++ (if ac_audit_auth_events (al_config logger)
                         then events_of (length (sent w)) (omap (fun '(op, r) => drafts op r) (zip ops replies)) else []).

(** One call. *)
Definition audits {Reply} (m : M (BkWorld S) Error Reply) (a : M (BkWorld (Audited S)) Error Reply)
    (draft : result Reply Error → option Draft) : Prop :=
  ∀ w, let '(r, w') := a w in
    m (plain w) = (r, plain w') ∧
    sent w' = sent w ++ (if ac_audit_auth_events (al_config logger)
                         then events_of (length (sent w)) (option_list (draft r)) else []).

Lemma events_of_app n ds ds' : events_of n (ds ++ ds') = events_of n ds ++ events_of (n + length ds) ds'.
Proof.
  revert n. induction ds as [|d ds IH]; intros n; cbn; [by rewrite Nat.add_0_r|].
  by rewrite IH, <- Nat.add_succ_comm.
Qed.

Lemma events_of_length n ds : length (events_of n ds) = length ds.
Proof. revert n. induction ds; intros n; cbn; auto. Qed.

Lemma audited_runs {Op Reply} (call : Op → M (BkWorld S) Error Reply) audited drafts :
  (∀ op, audits (call op) (audited op) (drafts op)) → exactly_audited call audited drafts.
Proof.
  intros Hop ops. induction ops as [|op ops IH]; intros w; cbn.
  { split; [done|]. by destruct (ac_audit_auth_events _); rewrite app_nil_r. }
  specialize (Hop op w). destruct (audited op w) as [r w1]. destruct Hop as [Hc Hs].
  specialize (IH w1). destruct (run_calls audited ops w1) as [rs w2]. destruct IH as [Hr Hs'].
  rewrite Hc, Hr. split; [done|]. rewrite Hs', Hs, <- app_assoc. f_equal.
  destruct (ac_audit_auth_events _); [|done]. rewrite length_app, events_of_length.
  rewrite <- events_of_app. f_equal. cbn. by destruct (drafts op r).
Qed.

Lemma plain_inner {B} (m : M (BkWorld S) Error B) w :
  m (plain w) = ((inner m w).1, plain (inner m w).2) ∧ sent (inner m w).2 = sent w.
Proof. unfold inner, plain. by destruct (m _) as [r []]. Qed.

Lemma audits_inner {B Reply} (m : M (BkWorld S) Error B) (answer : B → Reply) draft :
  (∀ r, draft r = None) →
  audits (let! b := m in ret (answer b)) (let! b := inner m in ret (answer b)) draft.
Proof.
  intros Hd w. unfold bind. destruct (plain_inner m w) as [-> Hs]. destruct (inner m w) as [r w']. cbn in Hs.
  destruct r; cbn; rewrite Hd; (split; [done|]); rewrite Hs; by destruct (ac_audit_auth_events _); rewrite app_nil_r.
Qed.

(** [emit] after a call. *)
Lemma emit_spec kind severity source metadata (w : BkWorld (Audited S)) :
  emit_auth logger kind severity source metadata w =
    (Ok tt, mkBkWorld (mkAudited (au_inner (bk_store w))
       (sent w ++ if ac_audit_auth_events (al_config logger)
                  then events_of (length (sent w)) [mkDraft kind severity source metadata] else [])) (bk_tick w)).
Proof.
  unfold emit_auth. destruct (ac_audit_auth_events (al_config logger)); cbn.
  - unfold bind, new_event, logger_log. cbn. by destruct (event_stamp (length (sent w))).
  - rewrite app_nil_r. by destruct w as [[] ?].
Qed.

Lemma audits_emit {Reply} (m : M (BkWorld S) Error unit) kind severity source metadata (reply : Reply) draft :
  (∀ e, draft (Err e) = None) → draft (Ok reply) = Some (mkDraft kind severity source metadata) →
  audits (m ;; ret reply) ((inner m ;; emit_auth logger kind severity source metadata) ;; ret reply) draft.
Proof.
  intros He Ho w. unfold bind. destruct (plain_inner m w) as [-> Hs]. destruct (inner m w) as [[[]|e] w']; cbn in Hs |- *.
  - rewrite emit_spec. cbn. rewrite Ho, Hs. done.
  - rewrite He. split; [done|]. rewrite Hs. by destruct (ac_audit_auth_events _); rewrite app_nil_r.
Qed.
End Exact.

Section Wrappers.
Context `{EventEnv} {S : Type} (logger : AuditLogger).

Lemma audits_exchange `{!OAuthProvider S} code :
  audits logger (oa_call (OaExchange code)) (oa_call (OAuthProvider0 := AuditedOAuthProvider logger) (OaExchange code))
    (oauth_drafts op_name (OaExchange code)).
Proof.
  intros w. cbn [oa_call op_exchange_code AuditedOAuthProvider]. unfold audited_exchange_code, bind, attempt.
  destruct (plain_inner (op_exchange_code code) w) as [-> Hs]. destruct (inner (op_exchange_code code) w) as [r w']. cbn in Hs.
  destruct r; rewrite emit_spec, Hs; split; by destruct w'.
Qed.

(** Auditing is exact and transparent. Whatever the backend and whatever calls
    are made in whatever order, the audited refresh token storage, API key storage
    and OAuth provider answer and store exactly as the wrapped ones do. If the
    configuration audits authentication, the agent is sent, in order, one event
    for every rotation that succeeded, for every API key that was created or
    revoked, and for every exchange of a code with its outcome, and nothing else;
    otherwise it is sent nothing. *)
Theorem audited_backends_exact `{!RefreshTokenStorage S} `{!ApiKeyStorage S} `{!OAuthProvider S} :
  exactly_audited logger rt_call (rt_call (RefreshTokenStorage0 := AuditedRefreshStorage logger)) refresh_drafts ∧
  exactly_audited logger ak_call (ak_call (ApiKeyStorage0 := AuditedApiKeyStorage logger)) api_key_drafts ∧
  exactly_audited logger oa_call (oa_call (OAuthProvider0 := AuditedOAuthProvider logger)) (oauth_drafts op_name).
Proof.
  split_and!; apply audited_runs; intros [];
    first [by apply audits_exchange | by apply audits_inner | by apply (audits_inner logger _ (fun _ => RtUnit)) |
           by apply (audits_inner logger _ (fun _ => AkUnit)) | by apply audits_emit].
Qed.

(** ** The contracts carry over *)

#[local] Ltac case_inner := match goal with |- context [?m (plain ?w)] => destruct (m (plain w)) as [[] []] end.

#[global] Instance AuditedRefresh_Laws `{!RefreshTokenStorage S} `{!RefreshTokenLaws S} :
  @RefreshTokenLaws (Audited S) (AuditedRefreshStorage logger).
Proof.
  refine (@Build_RefreshTokenLaws (Audited S) (AuditedRefreshStorage logger) (fun id w => rt_dead id (plain w)) _ _ _ _).
  - intros id w d w' Hd. cbn. unfold inner. destruct (rts_get id (plain w)) as [r w1] eqn:E. intros [= -> _]. by eapply rt_dead_get.
  - intros op id w Hc Hd. apply (rt_dead_kept op id) in Hd; [|done]. revert Hd.
    enough (plain (rt_run (RefreshTokenStorage0 := AuditedRefreshStorage logger) op w).2 = (rt_run op (plain w)).2) as -> by done.
    destruct op; cbn; unfold ignore, audited_rotate, bind, inner; case_inner; try done. by rewrite emit_spec.
  - intros id w w'. cbn. unfold inner. destruct (rts_revoke id (plain w)) as [r []] eqn:E. intros [= -> <-]. by eapply rt_dead_revoke.
  - intros old new u f e m w w'. cbn. unfold audited_rotate, bind, inner.
    destruct (rts_rotate old new u f e m (plain w)) as [[[]|] []] eqn:E; [|done]. rewrite emit_spec. intros [= <-] Hne. by eapply rt_dead_rotate.
Qed.

#[global] Instance AuditedApiKey_Laws `{!ApiKeyStorage S} `{!ApiKeyLaws S} :
  @ApiKeyLaws (Audited S) (AuditedApiKeyStorage logger).
Proof.
  assert (∀ op w, plain (ak_run (ApiKeyStorage0 := AuditedApiKeyStorage logger) op w).2 = (ak_run op (plain w)).2) as Hrun.
  { intros op w. destruct op; cbn; unfold ignore, audited_create, audited_revoke, bind, inner;
      case_inner; try done; by rewrite emit_spec. }
  refine (@Build_ApiKeyLaws (Audited S) (AuditedApiKeyStorage logger) (fun w => akl_wf (plain w)) (fun id w => akl_dead id (plain w))
    (fun p w => akl_free p (plain w)) _ _ _ _ _).
  - intros op w. rewrite Hrun. apply akl_wf_kept.
  - intros op id w. rewrite Hrun. apply akl_dead_kept.
  - intros id w w' Hw. cbn. unfold audited_revoke, bind, inner.
    destruct (aks_revoke id (plain w)) as [[[]|] []] eqn:E; [|done]. rewrite emit_spec. intros [= <-]. by eapply akl_dead_revoke.
  - intros p w k w' Hw Hd. cbn. unfold inner. destruct (aks_get_by_prefix p (plain w)) as [r w1] eqn:E. intros [= -> _]. by eapply akl_dead_get.
  - intros k w w1 r w2 Hw Hf. cbn. unfold audited_create, bind, inner.
    destruct (aks_create k (plain w)) as [[[]|] []] eqn:E; [|done]. rewrite emit_spec. intros [= <-]. cbn.
    destruct (aks_get_by_prefix _ _) as [r' []] eqn:Eg. intros [= -> _]. by eapply akl_created.
Qed.

(** The event of a creation does not depend on the key's hash. *)
Lemma created_event_hides_hash k h r :
  api_key_drafts (AkCreate (mkApiKey (ak_id k) (ak_user_id k) (ak_name k) (ak_prefix k) h (ak_scopes k) (ak_rate_limit k)
    (ak_is_revoked k) (ak_last_used_at k) (ak_expires_at k) (ak_created_at k))) r = api_key_drafts (AkCreate k) r.
Proof. by destruct r. Qed.
End Wrappers.
