(* ===== verification/LazyStorage.v ===== *)
(** * Lazily attached audit storage

    [src/acton-service/src/audit/storage/lazy.rs]: an audit storage that builds its
    backend from the connection a pool agent hands over, on first use. First one
    call after another, as an instance of the storage trait; then the resolution
    of many callers at once, one event per await point. *)

From S2P Require Import Prelude FrameworkError AuditEvent AuditChain AuditStorage Runs Libsql TursoAudit.

Local Open Scope string_scope.
Local Open Scope Z_scope.
Local Open Scope list_scope.
Local Open Scope monad_scope.

(** [InitializableStorage], with [from_conn] as the choice of a database. *)
Class InitializableStorage (S : Type) := {
  is_init_schema : M S Error unit;
  is_backend_name : string;
}.

(** [init_schema] leaves the stored events alone. *)
Class InitializableLaws (S : Type) `{!InitializableStorage S} `{AuditStorageLaws S} := {
  is_init_keeps s r s' : st_inv s → is_init_schema s = (r, s') → st_inv s' ∧ st_contents s' = st_contents s;
}.

(** ** The backends *)

(** [PgAuditStorage::initialize]: table, two indexes, and the block that creates the
    two rules where they are missing. *)
Definition pg_ddl (what : string) (effect : PgDb → PgDb) : M PgDb Error unit := fun db =>
  let '(fault, db) := pg_exec db in
  match fault with Some msg => (pg_failed what msg, db) | None => (Ok tt, effect db) end.

Definition pg_initialize : M PgDb Error unit :=
  pg_ddl "Failed to create audit_events table: " id ;;
  pg_ddl "Failed to create audit index: " id ;;
  pg_ddl "Failed to create audit timestamp index: " id ;;
  pg_ddl "Failed to create audit immutability rules: " (fun db => mkPgDb (pg_rows db) true true (pg_faults db)).

#[global] Instance PgInitializable : InitializableStorage PgDb := {|
  is_init_schema := pg_initialize; is_backend_name := "PostgreSQL" |}.

#[global] Instance TursoInitializable : InitializableStorage (LqDb TaRow) := {|
  is_init_schema := ta_initialize; is_backend_name := "Turso" |}.

Lemma pg_ddl_rows what effect db : (∀ db, pg_rows (effect db) = pg_rows db) → pg_rows (pg_ddl what effect db).2 = pg_rows db.
Proof.
  intros He. unfold pg_ddl. destruct (pg_exec db) as [[f|] db1] eqn:E; apply pg_exec_rows in E as [E _]; cbn; [done|].
  by rewrite He.
Qed.

Lemma pg_initialize_rows db : pg_rows (pg_initialize db).2 = pg_rows db.
Proof.
  unfold pg_initialize, bind. repeat match goal with |- context [pg_ddl ?what ?f ?db] =>
    pose proof (pg_ddl_rows what f db (fun _ => eq_refl)); destruct (pg_ddl what f db) as [[] ?]; cbn in * end; congruence.
Qed.

(** A start puts back the rules that keep the log append-only, and touches no row. *)
Lemma pg_initialize_protects db db' :
  pg_initialize db = (Ok tt, db') → pg_no_update db' = true ∧ pg_no_delete db' = true ∧ pg_rows db' = pg_rows db.
Proof.
  intros E. pose proof (pg_initialize_rows db) as Hr. rewrite E in Hr. split_and!; [..|done].
  all: unfold pg_initialize in E; repeat apply bind_Ok in E as (? & ? & _ & E); revert E; unfold pg_ddl;
    match goal with |- context [pg_exec ?db] => destruct (pg_exec db) as [[] ?] end; by intros [= <-].
Qed.

#[global] Instance PgInitializableLaws `{PgEnv} `{ChainEnv} : InitializableLaws PgDb.
Proof.
  split. intros s r s' Hi E. pose proof (pg_initialize_rows s) as Hr. cbn in E. rewrite E in Hr. cbn in *.
  unfold pg_inv, pg_contents in *. by rewrite Hr.
Qed.

(** ** One call after another *)

(** The pool agent's handle, the resolved backend, and the database behind each
    connection. *)
Record Lazy (C S : Type) := mkLazy { lz_shared : option C; lz_resolved : option C; lz_db : C → S }.
Arguments mkLazy {C S}.
Arguments lz_shared {C S}.
Arguments lz_resolved {C S}.
Arguments lz_db {C S}.

Section Lazy.
Context {C S : Type} `{EqDecision C} `{!AuditStorage S} `{!InitializableStorage S}.

Abbreviation Z_ := (M (Lazy C S) Error).

(** [LazyAuditStorage::new]. *)
Definition lazy_new (shared : option C) (dbs : C → S) : Lazy C S := mkLazy shared None dbs.

(** An operation of the backend built from [conn]. *)
Definition on_backend {A} (conn : C) (m : M S Error A) : Z_ A := fun w =>
  let '(r, s) := m (lz_db w conn) in
  (r, mkLazy (lz_shared w) (lz_resolved w) (fun c => if decide (c = conn) then s else lz_db w c)).

Definition not_connected : Error :=
  Error_Internal ("audit storage unavailable: the " +:+ is_backend_name (S := S) +:+ " connection pool has not finished connecting").

(** [resolve], when no other caller is under way. *)
Definition resolve : Z_ C := fun w =>
  match lz_resolved w with
  | Some conn => (Ok conn, w)
  | None =>
      (let! conn := lift (ok_or not_connected (lz_shared w)) in
       on_backend conn is_init_schema ;;
       fun w => (Ok conn, mkLazy (lz_shared w) (Some conn) (lz_db w))) w
  end.

Definition through {A} (m : M S Error A) : Z_ A := let! conn := resolve in on_backend conn m.

#[global] Instance LazyAuditStorage : AuditStorage (Lazy C S) := {|
  st_append event := through (st_append event);
  st_latest := through st_latest;
  st_query_range from to limit := through (st_query_range from to limit);
  st_query_before cutoff limit := through (st_query_before cutoff limit);
  st_purge_before cutoff := through (st_purge_before cutoff);
  st_verify_chain from_sequence := through (st_verify_chain from_sequence);
  st_ensure_ready := let! _ := resolve in ret tt;
|}.

(** *** It meets the contract of the trait *)

Context `{!AuditStorageLaws S} `{!InitializableLaws S}.

Definition attached (w : Lazy C S) : option C := match lz_resolved w with Some c => Some c | None => lz_shared w end.

Definition lazy_inv (w : Lazy C S) : Prop := ∀ c, st_inv (lz_db w c).

Definition lazy_contents (w : Lazy C S) : list AuditEvent :=
  match attached w with Some c => st_contents (lz_db w c) | None => [] end.

Lemma on_backend_inv {A} conn (m : M S Error A) w r w' (f : list AuditEvent → list AuditEvent) :
  (∀ s s', st_inv s → m s = (r, s') → st_inv s' ∧ st_contents s' = f (st_contents s)) →
  lazy_inv w → on_backend conn m w = (r, w') →
  lazy_inv w' ∧ lz_resolved w' = lz_resolved w ∧ lz_shared w' = lz_shared w ∧
  st_contents (lz_db w' conn) = f (st_contents (lz_db w conn)) ∧ (∀ r' s', m (lz_db w conn) = (r', s') → r' = r).
Proof.
  intros Hm Hi. unfold on_backend. destruct (m (lz_db w conn)) as [r0 s] eqn:E. intros [= -> <-].
  destruct (Hm _ _ (Hi conn) E) as [Hs Hc]. split_and!; [|done|done| |naive_solver].
  - intros c. cbn. case_decide; [done|apply Hi].
  - cbn. by rewrite decide_True.
Qed.

Lemma resolve_inv w r w' : lazy_inv w → resolve w = (r, w') →
  lazy_inv w' ∧ lazy_contents w' = lazy_contents w ∧ lz_shared w' = lz_shared w ∧
  match r with
  | Ok c => attached w = Some c ∧ lz_resolved w' = Some c
  | Err _ => lz_resolved w = None ∧ lz_resolved w' = None
  end.
Proof.
  intros Hi. unfold resolve. destruct (lz_resolved w) as [c|] eqn:Er; [intros [= <- <-]; split_and!; [done..|unfold attached; by rewrite Er|done]|].
  unfold bind, lift. destruct (lz_shared w) as [c|] eqn:Es; cbn; [|intros [= <- <-]; by rewrite Es].
  destruct (on_backend c is_init_schema w) as [r0 w1] eqn:E.
  apply (on_backend_inv _ _ _ _ _ id) in E as (Hi1 & Hr1 & Hs1 & Hc1 & _); [|intros; by eapply is_init_keeps|done].
  assert (lazy_contents w = st_contents (lz_db w c)) as Hw by (unfold lazy_contents, attached; by rewrite Er, Es).
  destruct r0; intros [= <- <-]; (split_and!; [done| |cbn; congruence|cbn; try congruence..]).
  - rewrite Hw. unfold lazy_contents, attached. cbn. by rewrite Hc1.
  - unfold attached. by rewrite Er.
  - rewrite Hw. unfold lazy_contents, attached. by rewrite Hr1, Er, Hs1, Es, Hc1.
Qed.

(** An operation through the wrapper does to the contents what it does in the
    backend, or fails without effect. *)
Lemma through_inv {A} (m : M S Error A) w r w' (f : list AuditEvent → list AuditEvent) (Q : list AuditEvent → Prop) :
  (∀ s s', st_inv s → m s = (r, s') → st_inv s' ∧ st_contents s' = f (st_contents s) ∧ Q (st_contents s)) →
  lazy_inv w → through m w = (r, w') →
  lazy_inv w' ∧ (lazy_contents w' = f (lazy_contents w) ∧ Q (lazy_contents w) ∨ lazy_contents w' = lazy_contents w ∧ ∃ e, r = Err e).
Proof.
  intros Hm Hi. unfold through, bind. destruct (resolve w) as [r1 w1] eqn:E1.
  apply resolve_inv in E1 as (Hi1 & Hc1 & Hs1 & Hr1); [|done]. destruct r1 as [c|e]; [|intros [= <- <-]; split; [done|right; eauto]].
  destruct Hr1 as [Ha Hr1]. intros E2.
  assert (lazy_contents w = st_contents (lz_db w1 c)) as Hw by (rewrite <- Hc1; unfold lazy_contents, attached; by rewrite Hr1).
  assert (Q (st_contents (lz_db w1 c))) as HQ.
  { revert E2. unfold on_backend. destruct (m (lz_db w1 c)) as [r0 s] eqn:E. intros [= -> _]. by destruct (Hm _ _ (Hi1 c) E) as (_ & _ & ?). }
  apply (on_backend_inv _ _ _ _ _ f) in E2 as (Hi2 & Hr2 & Hs2 & Hc2 & _); [|intros s s' ? ?; destruct (Hm s s') as (? & ? & _); auto|done].
  split; [done|left]. rewrite Hw. split; [|done]. rewrite <- Hc2. unfold lazy_contents, attached. by rewrite Hr2, Hr1.
Qed.

#[global] Instance LazyAuditStorageLaws : AuditStorageLaws (Lazy C S).
Proof.
  refine (@Build_AuditStorageLaws (Lazy C S) LazyAuditStorage lazy_inv lazy_contents _ _ _ _).
  - intros cutoff limit w es w' Hi E.
    eapply (through_inv _ _ _ _ id (fun l => es = take limit (filter (before cutoff) l))) in E as (Hi' & Hc); [|
      |done]. { destruct Hc as [[Hc Hq]|[_ [e [=]]]]. done. }
    intros s s' Hs Hm. by apply st_query_before_ok in Hm as (? & ? & ?).
  - intros cutoff limit w e w' Hi E. eapply (through_inv _ _ _ _ id (fun _ => True)) in E as (Hi' & Hc); [|
      |done]. { split; [done|]. by destruct Hc as [[Hc _]|[Hc _]]. }
    intros s s' Hs Hm. by apply st_query_before_err in Hm as (? & ?).
  - intros cutoff w n w' Hi E.
    eapply (through_inv _ _ _ _ (filter (fun e => ¬ before cutoff e)) (fun _ => True)) in E as (Hi' & Hc); [|
      |done]. { destruct Hc as [[Hc _]|[_ [e [=]]]]. done. }
    intros s s' Hs Hm. by apply st_purge_before_ok in Hm as (? & ?).
  - intros cutoff w e w' Hi E. eapply (through_inv _ _ _ _ id (fun _ => True)) in E as (Hi' & Hc); [|
      |done]. { split; [done|]. by destruct Hc as [[Hc _]|[Hc _]]. }
    intros s s' Hs Hm. by apply st_purge_before_err in Hm as (? & ?).
Qed.
End Lazy.

(** ** Many callers at once *)

(** Where a caller of [resolve] stands: before its first look at [resolved], waiting
    for the lock, before its second look, before it reads the handle, while
    [init_schema] runs, before it stores the backend, and at the end. *)
Inductive LzPc (C : Type) :=
| PcFirst
| PcLock
| PcSecond
| PcShared
| PcInit (conn : C)
| PcStore (conn : C)
| PcDone (conn : C)
| PcFailed.
Arguments PcFirst {C}.
Arguments PcLock {C}.
Arguments PcSecond {C}.
Arguments PcShared {C}.
Arguments PcInit {C}.
Arguments PcStore {C}.
Arguments PcDone {C}.
Arguments PcFailed {C}.

(** The handle, the resolved backend, the holder of [init_lock], the callers, the
    runs of [init_schema] that ended, and how many callers were dropped between a
    run that succeeded and the store. *)
Record LzSys (C : Type) := mkLzSys {
  ls_shared : option C;
  ls_resolved : option C;
  ls_lock : option nat;
  ls_callers : gmap nat (LzPc C);
  ls_inits : list (C * bool);
  ls_dropped : nat;
}.
Arguments mkLzSys {C}.
Arguments ls_shared {C}.
Arguments ls_resolved {C}.
Arguments ls_lock {C}.
Arguments ls_callers {C}.
Arguments ls_inits {C}.
Arguments ls_dropped {C}.

(** A caller arrives, the pool agent writes its handle, a caller takes its next
    step, its [init_schema] ends well or badly, its future is dropped. *)
Inductive LzEvent (C : Type) :=
| LzCall (id : nat)
| LzPool (conn : option C)
| LzRun (id : nat)
| LzInit (id : nat) (ok : bool)
| LzDrop (id : nat).
Arguments LzCall {C}.
Arguments LzPool {C}.
Arguments LzRun {C}.
Arguments LzInit {C}.
Arguments LzDrop {C}.

Section Concurrent.
Context {C : Type}.

Definition lz_new (shared : option C) : LzSys C := mkLzSys shared None None ∅ [] 0.

Definition at_pc (id : nat) (pc : LzPc C) (w : LzSys C) : LzSys C :=
  mkLzSys (ls_shared w) (ls_resolved w) (ls_lock w) (<[id := pc]> (ls_callers w)) (ls_inits w) (ls_dropped w).

(** The guard is dropped. *)
Definition release (w : LzSys C) : LzSys C :=
  mkLzSys (ls_shared w) (ls_resolved w) None (ls_callers w) (ls_inits w) (ls_dropped w).

Definition holds_lock (pc : LzPc C) : bool :=
  match pc with PcSecond | PcShared | PcInit _ | PcStore _ => true | _ => false end.

Definition finished (pc : LzPc C) : bool := match pc with PcDone _ | PcFailed => true | _ => false end.

Definition lz_run (id : nat) (pc : LzPc C) (w : LzSys C) : option (LzSys C) :=
  match pc with
  | PcFirst => Some (at_pc id (match ls_resolved w with Some conn => PcDone conn | None => PcLock end) w)
  | PcLock =>
      match ls_lock w with
      | None => Some (at_pc id PcSecond (mkLzSys (ls_shared w) (ls_resolved w) (Some id) (ls_callers w) (ls_inits w) (ls_dropped w)))
      | Some _ => None
      end
  | PcSecond =>
      match ls_resolved w with
      | Some conn => Some (at_pc id (PcDone conn) (release w))
      | None => Some (at_pc id PcShared w)
      end
  | PcShared =>
      match ls_shared w with
      | Some conn => Some (at_pc id (PcInit conn) w)
      | None => Some (at_pc id PcFailed (release w))
      end
  | PcStore conn =>
      Some (at_pc id (PcDone conn) (mkLzSys (ls_shared w) (Some conn) None (ls_callers w) (ls_inits w) (ls_dropped w)))
  | PcInit _ | PcDone _ | PcFailed => None
  end.

Definition lz_step (e : LzEvent C) (w : LzSys C) : option (LzSys C) :=
  match e with
  | LzCall id => match ls_callers w !! id with None => Some (at_pc id PcFirst w) | Some _ => None end
  | LzPool conn => Some (mkLzSys conn (ls_resolved w) (ls_lock w) (ls_callers w) (ls_inits w) (ls_dropped w))
  | LzRun id => ls_callers w !! id ≫= fun pc => lz_run id pc w
  | LzInit id ok =>
      match ls_callers w !! id with
      | Some (PcInit conn) =>
          let w := mkLzSys (ls_shared w) (ls_resolved w) (ls_lock w) (ls_callers w) (ls_inits w ++ [(conn, ok)]) (ls_dropped w) in
          Some (if ok : bool then at_pc id (PcStore conn) w else at_pc id PcFailed (release w))
      | _ => None
      end
  | LzDrop id =>
      match ls_callers w !! id with
      | Some pc =>
          if finished pc then None
          else Some (mkLzSys (ls_shared w) (ls_resolved w) (if holds_lock pc then None else ls_lock w)
                       (delete id (ls_callers w)) (ls_inits w)
                       (ls_dropped w + match pc with PcStore _ => 1 | _ => 0 end)%nat)
      | None => None
      end
  end.

(** *** The schema is set up once *)

(** Runs of [init_schema] that succeeded. *)
Definition set_up (w : LzSys C) : list C := omap (fun '(conn, ok) => if ok : bool then Some conn else None) (ls_inits w).

(** The backend a caller is about to store. *)
Definition is_store (o : option (LzPc C)) : nat := match o with Some (PcStore _) => 1 | _ => 0 end.
Definition storing (w : LzSys C) : nat := is_store (ls_lock w ≫= fun id => ls_callers w !! id).

(** What a caller's position says about the rest. *)
Definition pc_ok (w : LzSys C) (pc : LzPc C) : Prop :=
  match pc with
  | PcFirst | PcLock | PcSecond | PcFailed => True
  | PcShared | PcInit _ => ls_resolved w = None
  | PcStore conn => ls_resolved w = None ∧ conn ∈ set_up w
  | PcDone conn => ls_resolved w = Some conn
  end.

Record lz_inv (w : LzSys C) : Prop := {
  li_lock id : ls_lock w = Some id ↔ ∃ pc, ls_callers w !! id = Some pc ∧ holds_lock pc = true;
  li_pc id pc : ls_callers w !! id = Some pc → pc_ok w pc;
  li_resolved conn : ls_resolved w = Some conn → conn ∈ set_up w;
  li_count : length (set_up w) = ((if ls_resolved w is Some _ then 1 else 0) + storing w + ls_dropped w)%nat;
}.

Lemma lz_inv_new shared : lz_inv (lz_new shared).
Proof. split; cbn; try done. intros id. split; [done|]. intros (pc & E & _). by rewrite lookup_empty in E. Qed.

(** One caller moves from [o] to [o'] ([None]: not there); the lock follows. *)
Definition opt_holds (o : option (LzPc C)) : bool := match o with Some pc => holds_lock pc | None => false end.

Record moved (id : nat) (o o' : option (LzPc C)) (w w' : LzSys C) : Prop := {
  mv_from : ls_callers w !! id = o;
  mv_to : ls_callers w' = partial_alter (fun _ => o') id (ls_callers w);
  mv_lock : ls_lock w' = if opt_holds o' then Some id else if opt_holds o then None else ls_lock w;
  mv_take : opt_holds o' = true → opt_holds o = true ∨ ls_lock w = None;
}.

Section Moved.
Context {id : nat} {o o' : option (LzPc C)} {w w' : LzSys C} (Hw : lz_inv w) (Hm : moved id o o' w w').

Lemma moved_holder : opt_holds o = true ↔ ls_lock w = Some id.
Proof.
  rewrite (li_lock w Hw), (mv_from _ _ _ _ _ Hm). destruct o as [pc|]; cbn; split; [by eexists|by intros (? & [= <-] & ?)|done|by intros (? & ? & ?)].
Qed.

Lemma moved_to j : ls_callers w' !! j = if decide (j = id) then o' else ls_callers w !! j.
Proof. rewrite (mv_to _ _ _ _ _ Hm). case_decide as E; [subst; apply lookup_partial_alter_eq|by apply lookup_partial_alter_ne]. Qed.

Lemma moved_lock j : ls_lock w' = Some j ↔ ∃ pc, ls_callers w' !! j = Some pc ∧ holds_lock pc = true.
Proof.
  rewrite (mv_lock _ _ _ _ _ Hm), moved_to. pose proof moved_holder as Hh. pose proof (mv_take _ _ _ _ _ Hm) as Ht.
  pose proof (li_lock w Hw j) as Hj. case_decide as E.
  - subst j. assert ((if opt_holds o then None else ls_lock w) ≠ Some id) as Hn.
    { destruct (opt_holds o); [done|]. intros Hl. by apply Hh in Hl. }
    destruct o' as [pc'|]; cbn; [|split; [done|by intros (? & ? & _)]].
    destruct (holds_lock pc') eqn:Ep; (split; [|intros (? & [= <-] & ?)]); [by eexists|done..|congruence].
  - destruct (opt_holds o') eqn:Eo.
    + split; [congruence|]. intros Hp. apply Hj in Hp. destruct (Ht eq_refl) as [Ho|Ho]; [apply Hh in Ho|]; congruence.
    + destruct (opt_holds o) eqn:Eo2; [|done]. split; [done|]. intros Hp. apply Hj in Hp. destruct Hh as [Hh _].
      rewrite (Hh eq_refl) in Hp. congruence.
Qed.

Lemma moved_storing : (storing w' + is_store o = storing w + is_store o')%nat.
Proof.
  pose proof moved_holder as Hh. pose proof (mv_take _ _ _ _ _ Hm) as Ht.
  assert (∀ p, opt_holds p = false → is_store p = 0%nat) as Hs by (intros [[]|]; done).
  unfold storing. rewrite (mv_lock _ _ _ _ _ Hm). destruct (opt_holds o') eqn:Eo'.
  - cbn. rewrite moved_to, decide_True by done. destruct (Ht eq_refl) as [Ho|Ho].
    + apply Hh in Ho. rewrite Ho. cbn. rewrite (mv_from _ _ _ _ _ Hm). lia.
    + rewrite Ho. cbn. rewrite (Hs o); [lia|]. destruct (opt_holds o); [|done]. destruct Hh as [Hh _]. specialize (Hh eq_refl). congruence.
  - rewrite (Hs o') by done. destruct (opt_holds o) eqn:Eo.
    + destruct Hh as [Hh _]. rewrite Hh by done. cbn. rewrite (mv_from _ _ _ _ _ Hm). lia.
    + rewrite (Hs o) by done. destruct (ls_lock w) as [j|] eqn:El; [|done]. cbn. rewrite moved_to.
      case_decide as Ej; [|lia]. subst. by destruct Hh as [_ Hh]; specialize (Hh eq_refl).
Qed.

(** The invariant after a move, from what the moving caller did. *)
Lemma moved_inv :
  set_up w ⊆ set_up w' → (∀ pc, o' = Some pc → pc_ok w' pc) →
  ls_resolved w' = ls_resolved w ∨ ls_resolved w = None ∧ opt_holds o = true →
  (∀ conn, ls_resolved w' = Some conn → conn ∈ set_up w') →
  (length (set_up w') + (if ls_resolved w is Some _ then 1 else 0) + is_store o + ls_dropped w =
   length (set_up w) + (if ls_resolved w' is Some _ then 1 else 0) + is_store o' + ls_dropped w')%nat →
  lz_inv w'.
Proof.
  intros Hsub Ho Hres Hin Hn. split; [apply moved_lock| |done|].
  - intros j pc. rewrite moved_to. case_decide as E; [apply Ho|]. intros Hj.
    pose proof (li_pc w Hw j pc Hj) as Hpc. destruct Hres as [Hres|[Hnone Hh]].
    + destruct pc; cbn in *; rewrite ?Hres; try done. destruct Hpc. split; [done|by apply Hsub].
    + apply moved_holder in Hh. destruct (holds_lock pc) eqn:Ep.
      * assert (ls_lock w = Some j) as Hl by (apply (li_lock w Hw); eauto). congruence.
      * destruct pc; cbn in *; try done. congruence.
  - pose proof moved_storing. pose proof (li_count w Hw). lia.
Qed.
End Moved.

Lemma set_up_snoc w w' conn (ok : bool) : ls_inits w' = ls_inits w ++ [(conn, ok)] →
  set_up w' = set_up w ++ if ok then [conn] else [].
Proof. intros E. unfold set_up. rewrite E, omap_app. by destruct ok. Qed.

#[local] Ltac step_caller id o o' := eapply (moved_inv (id := id) (o := o) (o' := o'));
  [eassumption|split; [eassumption|reflexivity|cbn; try congruence; auto|cbn; try done; auto]|cbn..].
#[local] Ltac count := unfold set_up; cbn -[omap length]; lia.

Lemma lz_inv_step e w w' : lz_inv w → lz_step e w = Some w' → lz_inv w'.
Proof.
  intros Hw. assert (∀ id pc, ls_callers w !! id = Some pc → holds_lock pc = true → ls_lock w = Some id) as Hl
    by (intros id pc ? ?; apply (li_lock w Hw); eauto).
  pose proof (li_resolved w Hw) as Hres.
  destruct e as [id|conn|id|id ok|id]; cbn.
  - destruct (ls_callers w !! id) eqn:E; [done|]. intros [= <-].
    step_caller id (@None (LzPc C)) (Some (@PcFirst C)); [done|by intros pc [= <-]|by left|done|count].
  - intros [= <-]. destruct Hw as [H1 H2 H3 H4]. split; [exact H1| |exact H3|exact H4].
    intros j pc Hj. specialize (H2 j pc Hj). by destruct pc.
  - destruct (ls_callers w !! id) as [pc|] eqn:E; [|done]. cbn. pose proof (li_pc w Hw id pc E) as Hpc. specialize (Hl id pc E).
    destruct pc as [| | | |conn|conn|conn|]; cbn in *; try done.
    + destruct (ls_resolved w) as [conn|] eqn:Er; intros [= <-].
      * step_caller id (Some (@PcFirst C)) (Some (PcDone conn)); [done|by intros pc [= <-]|by left|by rewrite Er|rewrite Er; count].
      * step_caller id (Some (@PcFirst C)) (Some (@PcLock C)); [done|by intros pc [= <-]|by left|by rewrite Er|rewrite Er; count].
    + destruct (ls_lock w) eqn:El; [done|]. intros [= <-].
      step_caller id (Some (@PcLock C)) (Some (@PcSecond C)); [done|by intros pc [= <-]|by left|done|count].
    + destruct (ls_resolved w) as [conn|] eqn:Er; intros [= <-].
      * step_caller id (Some (@PcSecond C)) (Some (PcDone conn)); [done|by intros pc [= <-]|by left|by rewrite Er|rewrite Er; count].
      * step_caller id (Some (@PcSecond C)) (Some (@PcShared C)); [done|by intros pc [= <-]|by left|by rewrite Er|rewrite Er; count].
    + destruct (ls_shared w) as [conn|]; intros [= <-].
      * step_caller id (Some (@PcShared C)) (Some (PcInit conn)); [done|by intros pc [= <-]|by left|done|count].
      * step_caller id (Some (@PcShared C)) (Some (@PcFailed C)); [done|by intros pc [= <-]|by left|done|count].
    + destruct Hpc as [Hnone Hin]. intros [= <-].
      step_caller id (Some (PcStore conn)) (Some (PcDone conn)); [done|by intros pc [= <-]|by right|by intros ? [= <-]|rewrite Hnone; count].
  - destruct (ls_callers w !! id) as [[]|] eqn:E; try done. pose proof (li_pc w Hw id _ E) as Hpc. specialize (Hl id _ E eq_refl). cbn in Hpc.
    intros Hw'. assert (set_up w' = set_up w ++ if ok then [conn] else []) as Hu by (apply set_up_snoc; destruct ok; by injection Hw' as <-).
    assert (ls_resolved w' = ls_resolved w ∧ ls_dropped w' = ls_dropped w) as [Er Ed] by (destruct ok; by injection Hw' as <-).
    eapply (moved_inv (id := id) (o := Some (PcInit conn)) (o' := Some (if ok then PcStore conn else PcFailed))); [done| |..];
      rewrite ?Hu, ?Er, ?Ed, ?Hpc.
    + destruct ok; injection Hw' as <-; by split; auto.
    + intros x Hx. apply elem_of_app. by left.
    + intros pc [= <-]. destruct ok; [|done]. cbn. rewrite Er, Hu. split; [done|]. apply elem_of_app. right. by apply list_elem_of_singleton.
    + by left.
    + done.
    + rewrite length_app. destruct ok; cbn; lia.
  - destruct (ls_callers w !! id) as [pc|] eqn:E; [|done]. destruct (finished pc) eqn:Ef; [done|]. intros [= <-].
    step_caller id (Some pc) (@None (LzPc C)); [done|done|by left|done|]. destruct pc; count.
Qed.

Lemma lz_resolved_stays e w w' conn : lz_inv w → lz_step e w = Some w' → ls_resolved w = Some conn → ls_resolved w' = Some conn.
Proof.
  intros Hw Hs Hr. destruct e as [id|c|id|id ok|id]; cbn in Hs; [..|destruct (ls_callers w !! id) as [pc|]; [|done]; destruct (finished pc); [done|]; by injection Hs as <-].
  - destruct (ls_callers w !! id); [done|]. by injection Hs as <-.
  - by injection Hs as <-.
  - destruct (ls_callers w !! id) as [pc|] eqn:E; [|done]. pose proof (li_pc w Hw id pc E) as Hpc.
    destruct pc; cbn in *; try done; [by injection Hs as <-| | | |by destruct Hpc; congruence].
    + destruct (ls_lock w); [done|]. by injection Hs as <-.
    + rewrite Hr in Hs. by injection Hs as <-.
    + congruence.
  - destruct (ls_callers w !! id) as [[]|]; try done. destruct ok; by injection Hs as <-.
Qed.

(** Some caller can go on. *)
Lemma lz_progress w id pc : lz_inv w → ls_callers w !! id = Some pc → finished pc = false →
  ∃ j e, (e = LzRun j ∨ e = LzInit j true) ∧ is_Some (lz_step e w).
Proof.
  intros Hw E Hf. assert (∀ j q, ls_callers w !! j = Some q → finished q = false → q ≠ PcLock ∨ ls_lock w = None →
    ∃ e, (e = LzRun j ∨ e = LzInit j true) ∧ is_Some (lz_step e w)) as Hgo.
  { intros j q Ej Hq Hl. destruct q; try done;
      [exists (LzRun j)|exists (LzRun j)|exists (LzRun j)|exists (LzRun j)|exists (LzInit j true)|exists (LzRun j)];
      (split; [auto|]); cbn; rewrite Ej; cbn; try by eexists.
    - destruct Hl as [Hl| ->]; [done|by eexists].
    - destruct (ls_resolved w); by eexists.
    - destruct (ls_shared w); by eexists. }
  destruct (ls_lock w) as [j|] eqn:El; [|exists id; eauto].
  destruct (proj1 (li_lock w Hw j) El) as (q & Ej & Hq). exists j. eapply Hgo; [exact Ej|by destruct q|left; by destruct q].
Qed.

(** C35: The audit storage is attached once. Whatever callers arrive at whatever
    time and are dropped at whatever await point, and however the pool's handle
    changes: every caller that gets a backend gets the same one, its schema was
    set up before, and it stays the backend whatever the pool does later; one
    caller at a time sets the schema up, and it is set up once, or once more for
    every caller that was dropped after setting it up and before storing the
    backend; and while a caller waits, some caller can go on. *)
Theorem lazy_attached_once shared es w :
  after lz_step es (lz_new shared) = Some w →
  (∀ id conn, ls_callers w !! id = Some (PcDone conn) → ls_resolved w = Some conn ∧ conn ∈ set_up w) ∧
  (∀ id id' pc pc', ls_callers w !! id = Some pc → ls_callers w !! id' = Some pc' →
     holds_lock pc = true → holds_lock pc' = true → id = id') ∧
  (length (set_up w) ≤ 1 + ls_dropped w)%nat ∧
  (∀ conn e w', ls_resolved w = Some conn → lz_step e w = Some w' → ls_resolved w' = Some conn) ∧
  (∀ id pc, ls_callers w !! id = Some pc → finished pc = false →
     ∃ j e, (e = LzRun j ∨ e = LzInit j true) ∧ is_Some (lz_step e w)).
Proof.
  intros Ha. assert (lz_inv w) as Hw.
  { eapply (after_inv _ (fun _ => True)); [intros; by eapply lz_inv_step|by apply Forall_true|apply lz_inv_new|exact Ha]. }
  split_and!.
  - intros id conn E. pose proof (li_pc w Hw id _ E) as Hr. split; [done|]. by apply li_resolved.
  - intros id id' pc pc' E E' Hp Hp'. assert (ls_lock w = Some id ∧ ls_lock w = Some id') as [? ?] by (split; apply (li_lock w Hw); eauto). congruence.
  - pose proof (li_count w Hw) as Hc. unfold storing in Hc. destruct (ls_lock w) as [j|] eqn:El; cbn in Hc; [|destruct (ls_resolved w); lia].
    destruct (ls_callers w !! j) as [[]|] eqn:Ej; cbn in Hc; try (destruct (ls_resolved w); lia).
    pose proof (li_pc w Hw j _ Ej) as [Hn _]. rewrite Hn in Hc. lia.
  - intros conn e w' Hr Hs. by eapply lz_resolved_stays.
  - intros id pc E Hf. by eapply lz_progress.
Qed.
End Concurrent.

(** Two callers meet before the pool is there and two after; the last finds the
    backend although the pool has been replaced. *)
Definition lazy_history : list (LzEvent nat) :=
  [LzCall 0; LzRun 0; LzRun 0; LzRun 0; LzRun 0; LzPool (Some 7%nat); LzCall 1; LzCall 2; LzRun 1; LzRun 2; LzRun 2; LzRun 2; LzRun 2;
   LzInit 2 true; LzPool (Some 8%nat); LzRun 2; LzRun 1; LzRun 1; LzCall 3; LzRun 3].

Lemma lazy_attached_once_witness :
  ∃ w, after lz_step lazy_history (lz_new None) = Some w ∧
    map (fun id => ls_callers w !! id) [0; 1; 2; 3]%nat = [Some PcFailed; Some (PcDone 7%nat); Some (PcDone 7%nat); Some (PcDone 7%nat)] ∧
    ls_resolved w = Some 7%nat ∧ (7%nat ∈ set_up w) ∧ (length (set_up w) ≤ 1)%nat.
Proof.
  exists (default (lz_new None) (after lz_step lazy_history (lz_new None))). split; [vm_compute; reflexivity|]. split; [vm_compute; reflexivity|].
  destruct (lazy_attached_once None lazy_history (default (lz_new None) (after lz_step lazy_history (lz_new None))))
    as (Hd & _ & Hn & _ & _); [vm_compute; reflexivity|].
  destruct (Hd 1%nat 7%nat) as [Hr Hs]; [vm_compute; reflexivity|]. split_and!; [exact Hr|exact Hs|exact Hn].
Defined.

(** A caller that is dropped after setting the schema up leaves it to be set up
    again. *)
Lemma dropped_caller_repeats_setup :
  ∃ w, after lz_step [LzCall 0; LzRun 0; LzRun 0; LzRun 0; LzRun 0; LzInit 0 true; LzDrop 0;
    LzCall 1; LzRun 1; LzRun 1; LzRun 1; LzRun 1; LzInit 1 true; LzRun 1] (lz_new (Some 7%nat)) = Some w ∧ set_up w = [7; 7]%nat.
Proof. eexists. split; vm_compute; reflexivity. Qed.
