(* ===== verification/Sse.v ===== *)
(** * Server-sent events

    [src/acton-service/src/sse/{broadcast,connection,config}.rs]: the broadcaster
    with its global channel, its named channels and its table of connections. The
    channels are those of [tokio::sync::broadcast], given by a class with their
    documented behaviour. *)

From S2P Require Import Prelude.

Local Open Scope string_scope.
Local Open Scope Z_scope.
Local Open Scope list_scope.

(** ** Messages, connections, configuration *)

Record BroadcastMessage := mkBroadcastMessage { bm_event_type : option string; bm_data : string; bm_id : option string }.

Definition message_new (data : string) : BroadcastMessage := mkBroadcastMessage None data None.
Definition message_named (event_type data : string) : BroadcastMessage := mkBroadcastMessage (Some event_type) data None.

(** The outcome of [serde_json::to_string] is an argument. *)
Definition message_json (serialized : result string string) : result BroadcastMessage string :=
  (let? data := serialized in Ok (mkBroadcastMessage None data None))%rust.
Definition message_json_named (event_type : string) (serialized : result string string) : result BroadcastMessage string :=
  (let? data := serialized in Ok (mkBroadcastMessage (Some event_type) data None))%rust.
Definition message_with_id (id : string) (m : BroadcastMessage) : BroadcastMessage :=
  mkBroadcastMessage (bm_event_type m) (bm_data m) (Some id).

(** A UUID as a number. *)
Definition ConnectionId := Z.

Record SseConnection := mkSseConnection {
  sc_id : ConnectionId;
  sc_user_id : option string;
  sc_client_ip : option string;
  sc_last_event_id : option string;
  sc_subscribed_channels : list string;
}.

Definition connection_new (id : ConnectionId) : SseConnection := mkSseConnection id None None None [].
Definition connection_authenticated (id : ConnectionId) (user_id : string) : SseConnection :=
  mkSseConnection id (Some user_id) None None [].
Definition with_client_ip (ip : string) (c : SseConnection) : SseConnection :=
  mkSseConnection (sc_id c) (sc_user_id c) (Some ip) (sc_last_event_id c) (sc_subscribed_channels c).
Definition with_last_event_id (id : string) (c : SseConnection) : SseConnection :=
  mkSseConnection (sc_id c) (sc_user_id c) (sc_client_ip c) (Some id) (sc_subscribed_channels c).
Definition with_channel (channel : string) (c : SseConnection) : SseConnection :=
  mkSseConnection (sc_id c) (sc_user_id c) (sc_client_ip c) (sc_last_event_id c) (sc_subscribed_channels c ++ [channel]).
Definition is_subscribed (channel : string) (c : SseConnection) : bool :=
  existsb (fun c => String.eqb c channel) (sc_subscribed_channels c).

Record SseConfig := mkSseConfig {
  se_keep_alive_interval_secs : Z;
  se_keep_alive_text : option string;
  se_default_retry_ms : Z;
  se_max_connections_per_client : Z;
  se_connection_timeout_secs : Z;
}.
Definition SseConfig_default : SseConfig := mkSseConfig 15 None 3000 10 0.

(** In milliseconds. *)
Definition keep_alive_interval (self : SseConfig) : Z := 1000 * se_keep_alive_interval_secs self.
Definition default_retry (self : SseConfig) : Z := se_default_retry_ms self.
Definition connection_timeout (self : SseConfig) : option Z :=
  if se_connection_timeout_secs self =? 0 then None else Some (1000 * se_connection_timeout_secs self).

(** ** Broadcast channels *)

(** What [recv] returns once there is something: a message, or how many were
    overwritten before the receiver read them. *)
Inductive Received := Got (m : BroadcastMessage) | Lagged (n : nat).

(** [tokio::sync::broadcast]: a channel's state, and its receivers by number. [recv]
    that would wait is [None]. A send without receivers gives the message back. *)
Class BroadcastLib := {
  bc_chan : Type;
  bc_channel : Z → bc_chan * nat;
  bc_subscribe : bc_chan → bc_chan * nat;
  bc_send : BroadcastMessage → bc_chan → result Z BroadcastMessage * bc_chan;
  bc_recv : nat → bc_chan → option Received * bc_chan;
  bc_drop : nat → bc_chan → bc_chan;
}.

(** Its documentation, on the messages each receiver has yet to see: a new
    receiver sees what is sent from then on; a send reaches every receiver, and
    fails when there is none; a receiver gets its messages in order and takes
    nothing from the others; when it lags it is told how many of its oldest
    messages were overwritten, and what the channel can hold is left. *)
Class BroadcastLaws `{BroadcastLib} := {
  bc_pending : bc_chan → gmap nat (list BroadcastMessage);
  bc_capacity : bc_chan → Z;
  bc_channel_law capacity c rx : bc_channel capacity = (c, rx) → bc_pending c = {[rx := []]} ∧ capacity ≤ bc_capacity c;
  bc_subscribe_law c c' rx : bc_subscribe c = (c', rx) →
    bc_pending c !! rx = None ∧ bc_pending c' = <[rx := []]> (bc_pending c) ∧ bc_capacity c' = bc_capacity c;
  bc_send_law m c r c' : bc_send m c = (r, c') →
    bc_capacity c' = bc_capacity c ∧
    if decide (bc_pending c = ∅) then r = Err m ∧ bc_pending c' = bc_pending c
    else r = Ok (Z.of_nat (size (bc_pending c))) ∧ bc_pending c' = (fun q => q ++ [m]) <$> bc_pending c;
  bc_recv_law rx c o c' : bc_recv rx c = (o, c') →
    bc_capacity c' = bc_capacity c ∧
    match bc_pending c !! rx, o with
    | Some q, None => q = [] ∧ bc_pending c' = bc_pending c
    | Some q, Some (Got m) => ∃ q', q = m :: q' ∧ bc_pending c' = <[rx := q']> (bc_pending c)
    | Some q, Some (Lagged n) => (0 < n)%nat ∧ bc_capacity c ≤ Z.of_nat (length q) - Z.of_nat n ∧ bc_pending c' = <[rx := drop n q]> (bc_pending c)
    | None, _ => bc_pending c' = bc_pending c   (* no receiver has this number *)
    end;
  bc_drop_law rx c : bc_pending (bc_drop rx c) = delete rx (bc_pending c) ∧ bc_capacity (bc_drop rx c) = bc_capacity c;
}.

(** ** The broadcaster *)

Record SseBroadcaster `{BroadcastLib} := mkSseBroadcaster {
  sb_sender : bc_chan;
  sb_channels : gmap string bc_chan;
  sb_connections : gmap ConnectionId (list string);
  sb_capacity : Z;
}.

Section Broadcaster.
Context `{BroadcastLib}.

(** A receiver: its channel ([None]: the global one) and its number there. *)
Definition Receiver : Type := option string * nat.

(** [broadcast::channel] panics on a capacity of zero or above half of [usize]; the
    first receiver is dropped. *)
Definition with_capacity (capacity : Z) : option SseBroadcaster :=
  if (capacity <=? 0) || (2 ^ 63 <=? capacity) then None
  else let '(sender, rx) := bc_channel capacity in Some (mkSseBroadcaster _ (bc_drop rx sender) ∅ ∅ capacity).

Definition broadcaster_new : option SseBroadcaster := with_capacity 256.

Definition set_sender (c : bc_chan) (s : SseBroadcaster) : SseBroadcaster :=
  mkSseBroadcaster _ c (sb_channels s) (sb_connections s) (sb_capacity s).
Definition set_channel (channel : string) (c : bc_chan) (s : SseBroadcaster) : SseBroadcaster :=
  mkSseBroadcaster _ (sb_sender s) (<[channel := c]> (sb_channels s)) (sb_connections s) (sb_capacity s).
Definition set_connections (f : gmap ConnectionId (list string) → gmap ConnectionId (list string)) (s : SseBroadcaster) : SseBroadcaster :=
  mkSseBroadcaster _ (sb_sender s) (sb_channels s) (f (sb_connections s)) (sb_capacity s).

Definition subscribe (s : SseBroadcaster) : Receiver * SseBroadcaster :=
  let '(sender, rx) := bc_subscribe (sb_sender s) in ((None, rx), set_sender sender s).

Definition subscribe_channel (channel : string) (s : SseBroadcaster) : Receiver * SseBroadcaster :=
  match sb_channels s !! channel with
  | Some sender => let '(sender, rx) := bc_subscribe sender in ((Some channel, rx), set_channel channel sender s)
  | None => let '(sender, receiver) := bc_channel (sb_capacity s) in ((Some channel, receiver), set_channel channel sender s)
  end.

Definition register (id : ConnectionId) : SseBroadcaster → SseBroadcaster := set_connections <[id := []]>.
Definition register_with_channels (id : ConnectionId) (channels : list string) : SseBroadcaster → SseBroadcaster :=
  set_connections <[id := channels]>.
Definition unregister (id : ConnectionId) : SseBroadcaster → SseBroadcaster := set_connections (delete id).

Definition broadcast (message : BroadcastMessage) (s : SseBroadcaster) : result Z BroadcastMessage * SseBroadcaster :=
  let '(r, sender) := bc_send message (sb_sender s) in (r, set_sender sender s).

Definition broadcast_to_channel (channel : string) (message : BroadcastMessage) (s : SseBroadcaster)
    : result Z BroadcastMessage * SseBroadcaster :=
  match sb_channels s !! channel with
  | Some sender => let '(r, sender) := bc_send message sender in (r, set_channel channel sender s)
  | None => (Ok 0, s)
  end.

Definition connection_count (s : SseBroadcaster) : Z := Z.of_nat (size (sb_connections s)).
Definition channel_count (s : SseBroadcaster) : Z := Z.of_nat (size (sb_channels s)).
Definition has_channel (channel : string) (s : SseBroadcaster) : bool := bool_decide (is_Some (sb_channels s !! channel)).
Definition connection_channels (id : ConnectionId) (s : SseBroadcaster) : option (list string) := sb_connections s !! id.

(** The channel a receiver belongs to. It holds it alive. *)
Definition topic (t : option string) (s : SseBroadcaster) : option bc_chan :=
  match t with None => Some (sb_sender s) | Some channel => sb_channels s !! channel end.
Definition set_topic (t : option string) (c : bc_chan) (s : SseBroadcaster) : SseBroadcaster :=
  match t with None => set_sender c s | Some channel => set_channel channel c s end.

(** [receiver.recv()] and the drop of a receiver. *)
Definition recv (rx : Receiver) (s : SseBroadcaster) : option Received * SseBroadcaster :=
  match topic rx.1 s with
  | Some c => let '(o, c) := bc_recv rx.2 c in (o, set_topic rx.1 c s)
  | None => (None, s)
  end.
Definition drop_receiver (rx : Receiver) (s : SseBroadcaster) : SseBroadcaster :=
  match topic rx.1 s with Some c => set_topic rx.1 (bc_drop rx.2 c) s | None => s end.
End Broadcaster.

(** ** Calls *)

Inductive SseOp :=
| SsSubscribe (t : option string)
| SsBroadcast (message : BroadcastMessage)
| SsToChannel (channel : string) (message : BroadcastMessage)
| SsRecv (rx : Receiver)
| SsDrop (rx : Receiver)
| SsRegister (id : ConnectionId) (channels : list string)
| SsUnregister (id : ConnectionId).

Inductive SseReply :=
| SrReceiver (rx : Receiver)
| SrSent (r : result Z BroadcastMessage)
| SrReceived (o : option Received)
| SrDone.

(** The message an operation sends to a channel. *)
Definition sends_to (t : option string) (op : SseOp) : option BroadcastMessage :=
  match op with
  | SsBroadcast m => if decide (t = None) then Some m else None
  | SsToChannel channel m => if decide (t = Some channel) then Some m else None
  | _ => None
  end.

(** What a receiver was told. *)
Definition taken (rx : Receiver) (p : SseOp * SseReply) : option Received :=
  match p with
  | (SsRecv rx', SrReceived o) => if decide (rx' = rx) then o else None
  | _ => None
  end.

(** Read against the messages sent to it, a receiver's answers are these messages
    in order; it skips the oldest, and says how many, only when at least
    [capacity] later ones were sent. *)
Inductive accounted (capacity : Z) : list Received → list BroadcastMessage → list BroadcastMessage → Prop :=
| acc_nil q : accounted capacity [] q q
| acc_got m l q q' : accounted capacity l q q' → accounted capacity (Got m :: l) (m :: q) q'
| acc_lag n l q q' : (0 < n)%nat → capacity ≤ Z.of_nat (length q) - Z.of_nat n → accounted capacity l (drop n q) q' →
    accounted capacity (Lagged n :: l) q q'.

Section Calls.
Context `{BroadcastLib}.

Definition subscribe_to (t : option string) : SseBroadcaster → Receiver * SseBroadcaster :=
  match t with None => subscribe | Some channel => subscribe_channel channel end.

Definition sse_exec (op : SseOp) (s : SseBroadcaster) : SseReply * SseBroadcaster :=
  match op with
  | SsSubscribe t => let '(rx, s) := subscribe_to t s in (SrReceiver rx, s)
  | SsBroadcast m => let '(r, s) := broadcast m s in (SrSent r, s)
  | SsToChannel channel m => let '(r, s) := broadcast_to_channel channel m s in (SrSent r, s)
  | SsRecv rx => let '(o, s) := recv rx s in (SrReceived o, s)
  | SsDrop rx => (SrDone, drop_receiver rx s)
  | SsRegister id channels => (SrDone, register_with_channels id channels s)
  | SsUnregister id => (SrDone, unregister id s)
  end.

Fixpoint sse_run (ops : list SseOp) (s : SseBroadcaster) : list SseReply * SseBroadcaster :=
  match ops with
  | [] => ([], s)
  | op :: ops => let '(r, s) := sse_exec op s in let '(rs, s) := sse_run ops s in (r :: rs, s)
  end.
End Calls.

(** ** Delivery by channel *)

Section Delivery.
Context `{BroadcastLaws}.

Definition pending_of (rx : Receiver) (s : SseBroadcaster) : option (list BroadcastMessage) :=
  topic rx.1 s ≫= fun c => bc_pending c !! rx.2.

Definition roomy (s : SseBroadcaster) : Prop := ∀ t c, topic t s = Some c → sb_capacity s ≤ bc_capacity c.

Lemma topic_set t t' c s : topic t' (set_topic t c s) = if decide (t' = t) then Some c else topic t' s.
Proof.
  destruct t as [n|], t' as [n'|]; cbn; try by case_decide. destruct (decide (n' = n)) as [->|Hn].
  - rewrite decide_True by done. apply lookup_insert_eq.
  - rewrite decide_False by congruence. by apply lookup_insert_ne.
Qed.

Lemma pending_set t c rx s : pending_of rx (set_topic t c s) = if decide (rx.1 = t) then bc_pending c !! rx.2 else pending_of rx s.
Proof. unfold pending_of. rewrite topic_set. by case_decide. Qed.

Lemma roomy_set t c s : roomy s → sb_capacity s ≤ bc_capacity c → roomy (set_topic t c s) ∧ sb_capacity (set_topic t c s) = sb_capacity s.
Proof.
  intros Hs Hc. assert (sb_capacity (set_topic t c s) = sb_capacity s) as E by by destruct t. split; [|done].
  intros t' c'. rewrite topic_set, E. case_decide; [by intros [= <-]|apply Hs].
Qed.

(** Subscribing leaves the other receivers alone. *)
Lemma subscribe_spec t s rx s' : roomy s → subscribe_to t s = (rx, s') →
  rx.1 = t ∧ pending_of rx s' = Some [] ∧ roomy s' ∧ sb_capacity s' = sb_capacity s ∧
  (∀ rx' q, pending_of rx' s = Some q → rx' ≠ rx ∧ pending_of rx' s' = Some q).
Proof.
  intros Hs E. assert (∃ c i, rx = (t, i) ∧ s' = set_topic t c s ∧
    ((∃ c0, topic t s = Some c0 ∧ bc_subscribe c0 = (c, i)) ∨ topic t s = None ∧ bc_channel (sb_capacity s) = (c, i))) as (c & i & -> & -> & Hc).
  { destruct t as [n|]; cbn in E.
    - unfold subscribe_channel in E. cbn. destruct (sb_channels s !! n) as [c0|];
        [destruct (bc_subscribe c0) as [c i] eqn:Ec|destruct (bc_channel (sb_capacity s)) as [c i] eqn:Ec];
        injection E as <- <-; exists c, i; eauto 7.
    - unfold subscribe in E. destruct (bc_subscribe (sb_sender s)) as [c i] eqn:Ec. injection E as <- <-. exists c, i. cbn. eauto 7. }
  assert (bc_pending c !! i = Some [] ∧ sb_capacity s ≤ bc_capacity c ∧
    ∀ j q, pending_of (t, j) s = Some q → j ≠ i ∧ bc_pending c !! j = Some q) as (Hi & Hcap & Ho).
  { destruct Hc as [(c0 & Et & Ec)|[Et Ec]].
    - apply bc_subscribe_law in Ec as (Hn & -> & ->). rewrite lookup_insert_eq. split; [done|]. split; [by eapply Hs|].
      unfold pending_of. cbn. rewrite Et. cbn. intros j q Hj. assert (j ≠ i) as Hne by congruence. by rewrite lookup_insert_ne.
    - apply bc_channel_law in Ec as [-> ?]. rewrite lookup_singleton_eq. split; [done|]. split; [done|].
      unfold pending_of. cbn. by rewrite Et. }
  destruct (roomy_set t c s Hs Hcap). split_and!; [done|rewrite pending_set; cbn; by rewrite decide_True|done|done|].
  intros [t' j] q Hq. rewrite pending_set. cbn. case_decide as E'; [subst t'|by split; [congruence|]].
  destruct (Ho j q Hq). by split; [congruence|].
Qed.

(** A send to the channel of a receiver reaches it. *)
Lemma send_spec t m s c r c' : roomy s → topic t s = Some c → bc_send m c = (r, c') →
  roomy (set_topic t c' s) ∧ sb_capacity (set_topic t c' s) = sb_capacity s ∧
  ∀ rx q, pending_of rx s = Some q →
    pending_of rx (set_topic t c' s) = Some (q ++ if decide (rx.1 = t) then [m] else []) ∧
    (rx.1 = t → ∃ n, r = Ok n ∧ 0 < n).
Proof.
  intros Hs Et E. apply bc_send_law in E as [Ec E].
  destruct (roomy_set t c' s Hs) as [Hr Hcap]; [rewrite Ec; by eapply Hs|]. split_and!; [done|done|].
  intros rx q Hq. rewrite pending_set. destruct (decide (rx.1 = t)) as [Ht|Ht]; [|by rewrite app_nil_r].
  unfold pending_of in Hq. rewrite Ht, Et in Hq. cbn in Hq. rewrite decide_False in E.
  2:{ intros Hn. by rewrite Hn, lookup_empty in Hq. }
  destruct E as [-> ->]. rewrite lookup_fmap, Hq. split; [done|]. intros _. eexists. split; [done|].
  assert (size (bc_pending c) ≠ 0%nat); [|lia]. apply map_size_non_empty_iff. intros Hn. by rewrite Hn, lookup_empty in Hq.
Qed.

Lemma exec_roomy op s reply s' : roomy s → sse_exec op s = (reply, s') → roomy s' ∧ sb_capacity s' = sb_capacity s.
Proof.
  intros Hs. destruct op as [t|m|n m|rx|rx|id l|id]; cbn.
  - destruct (subscribe_to t s) as [rx s1] eqn:E. intros [= _ <-]. by apply subscribe_spec in E as (_ & _ & ? & ? & _).
  - unfold broadcast. destruct (bc_send m (sb_sender s)) as [r c'] eqn:E. intros [= _ <-].
    by destruct (send_spec None m s (sb_sender s) r c') as (? & ? & _).
  - unfold broadcast_to_channel. destruct (sb_channels s !! n) as [c|] eqn:Ec; [|by intros [= _ <-]].
    destruct (bc_send m c) as [r c'] eqn:E. intros [= _ <-]. by destruct (send_spec (Some n) m s c r c') as (? & ? & _).
  - unfold recv. destruct (topic rx.1 s) as [c|] eqn:Et; [|by intros [= _ <-]].
    destruct (bc_recv rx.2 c) as [o c'] eqn:E. intros [= _ <-]. apply bc_recv_law in E as [Ec _].
    apply roomy_set; [done|]. rewrite Ec. by eapply Hs.
  - intros [= _ <-]. unfold drop_receiver. destruct (topic rx.1 s) as [c|] eqn:Et; [|done].
    apply roomy_set; [done|]. destruct (bc_drop_law rx.2 c) as [_ ->]. by eapply Hs.
  - intros [= _ <-]. split; [|done]. intros t c. by destruct t; [apply (Hs (Some _))|apply (Hs None)].
  - intros [= _ <-]. split; [|done]. intros t c. by destruct t; [apply (Hs (Some _))|apply (Hs None)].
Qed.

Lemma sse_exec_pending op s reply s' rx q :
  roomy s → pending_of rx s = Some q → op ≠ SsDrop rx → sse_exec op s = (reply, s') →
  ∃ q', pending_of rx s' = Some q' ∧
    accounted (sb_capacity s) (option_list (taken rx (op, reply))) (q ++ option_list (sends_to rx.1 op)) q' ∧
    (is_Some (sends_to rx.1 op) → ∃ n, reply = SrSent (Ok n) ∧ 0 < n).
Proof.
  intros Hs Hq Hne. assert (accounted (sb_capacity s) [] (q ++ []) q) as Hsame by (rewrite app_nil_r; constructor).
  destruct op as [t|m|n m|rx'|rx'|id l|id]; cbn.
  - destruct (subscribe_to t s) as [rx' s1] eqn:E. intros [= <- <-]. apply subscribe_spec in E as (_ & _ & _ & _ & Ho); [|done].
    exists q. split; [by apply Ho|]. by split; [|intros []].
  - unfold broadcast. destruct (bc_send m (sb_sender s)) as [r c'] eqn:E. intros [= <- <-].
    destruct (send_spec None m s (sb_sender s) r c' Hs eq_refl E) as (_ & _ & Hp). destruct (Hp rx q Hq) as [Hp1 Hp2].
    repeat case_decide; try done; (eexists; split; [exact Hp1|]); cbn; (split; [constructor|]); [|by intros []].
    intros _. destruct Hp2 as (k & -> & ?); [done|]. eauto.
  - unfold broadcast_to_channel. destruct (sb_channels s !! n) as [c|] eqn:Ec.
    + destruct (bc_send m c) as [r c'] eqn:E. intros [= <- <-].
      destruct (send_spec (Some n) m s c r c' Hs Ec E) as (_ & _ & Hp). destruct (Hp rx q Hq) as [Hp1 Hp2].
      repeat case_decide; try done; (eexists; split; [exact Hp1|]); cbn; (split; [constructor|]); [|by intros []].
      intros _. destruct Hp2 as (k & -> & ?); [done|]. eauto.
    + intros [= <- <-]. exists q. split; [done|]. rewrite decide_False; [by split; [|intros []]|].
      intros Ht. unfold pending_of in Hq. rewrite Ht in Hq. cbn in Hq. by rewrite Ec in Hq.
  - unfold recv. destruct (topic rx'.1 s) as [c|] eqn:Et.
    2:{ intros [= <- <-]. exists q. split; [done|]. split; [by case_decide|by intros []]. }
    destruct (bc_recv rx'.2 c) as [o c'] eqn:E. intros [= <- <-]. rewrite pending_set. apply bc_recv_law in E as [Ec E].
    pose proof (Hs _ _ Et) as Hcap. destruct (decide (rx' = rx)) as [->|Hrx].
    + unfold pending_of in Hq. rewrite Et in Hq. cbn in Hq. rewrite Hq in E. rewrite decide_True by done. rewrite app_nil_r.
      destruct o as [[m|k]|].
      * destruct E as (q' & -> & ->). exists q'. rewrite lookup_insert_eq. split; [done|]. split; [by repeat constructor|by intros []].
      * destruct E as (Hk & Hlen & ->). eexists. rewrite lookup_insert_eq. split; [done|]. split; [|by intros []].
        constructor; [done|lia|constructor].
      * destruct E as [-> ->]. exists []. rewrite Hq. split; [done|]. split; [constructor|by intros []].
    + exists q. split; [|by split; [|intros []]]. case_decide as Ht; [|done].
      unfold pending_of in Hq. rewrite Ht, Et in Hq. cbn in Hq. assert (rx'.2 ≠ rx.2) as Hi by (destruct rx, rx'; cbn in *; congruence).
      destruct (bc_pending c !! rx'.2) as [q0|]; [|by rewrite E]. destruct o as [[m|k]|].
      * destruct E as (q' & _ & ->). by rewrite lookup_insert_ne.
      * destruct E as (_ & _ & ->). by rewrite lookup_insert_ne.
      * by destruct E as [_ ->].
  - intros [= <- <-]. exists q. split; [|by split; [|intros []]]. unfold drop_receiver.
    destruct (topic rx'.1 s) as [c|] eqn:Et; [|done]. rewrite pending_set. case_decide as Ht; [|done].
    destruct (bc_drop_law rx'.2 c) as [-> _]. unfold pending_of in Hq. rewrite Ht, Et in Hq. cbn in Hq.
    rewrite lookup_delete_ne; [done|]. intros Hi. apply Hne. f_equal. destruct rx, rx'; cbn in *; congruence.
  - intros [= <- <-]. exists q. split; [by destruct rx as [[] ?]|by split; [|intros []]].
  - intros [= <- <-]. exists q. split; [by destruct rx as [[] ?]|by split; [|intros []]].
Qed.

Lemma accounted_extend capacity l q q' more :
  0 ≤ capacity → accounted capacity l q q' → accounted capacity l (q ++ more) (q' ++ more).
Proof.
  intros Hcap. induction 1 as [| |n l q q' Hn Hc _ IH]; cbn; constructor; [done|done|rewrite length_app; lia|]. by rewrite drop_app_le by lia.
Qed.

Lemma accounted_app capacity l l' q q1 q2 :
  accounted capacity l q q1 → accounted capacity l' q1 q2 → accounted capacity (l ++ l') q q2.
Proof. induction 1; intros; cbn; [done|constructor; auto..]. Qed.

Lemma run_roomy ops : ∀ s replies s', roomy s → sse_run ops s = (replies, s') → roomy s' ∧ sb_capacity s' = sb_capacity s.
Proof.
  induction ops as [|op ops IH]; cbn; intros s replies s' Hs; [by intros [= _ <-]|].
  destruct (sse_exec op s) as [r s1] eqn:E1. destruct (sse_run ops s1) as [rs s2] eqn:E2. intros [= _ <-].
  apply exec_roomy in E1 as [Hr1 <-]; [|done]. by eapply IH.
Qed.

(** The same over a sequence of calls. *)
Lemma run_pending ops : ∀ s replies s' rx q,
  0 ≤ sb_capacity s → roomy s → pending_of rx s = Some q → (SsDrop rx ∉ ops) → sse_run ops s = (replies, s') →
  (∃ rest, pending_of rx s' = Some rest ∧
     accounted (sb_capacity s) (omap (taken rx) (zip ops replies)) (q ++ omap (sends_to rx.1) ops) rest) ∧
  ∀ op reply, (op, reply) ∈ zip ops replies → is_Some (sends_to rx.1 op) → ∃ n, reply = SrSent (Ok n) ∧ 0 < n.
Proof.
  induction ops as [|op ops IH]; cbn [sse_run]; intros s replies s' rx q Hcap Hs Hq Hd.
  { intros [= <- <-]. split; [|by intros ? ? ?%elem_of_nil]. exists q. split; [done|]. rewrite app_nil_r. constructor. }
  destruct (sse_exec op s) as [r s1] eqn:E1. destruct (sse_run ops s1) as [rs s2] eqn:E2. intros [= <- <-].
  destruct (exec_roomy op s r s1 Hs E1) as [Hs1 Hc1].
  destruct (sse_exec_pending op s r s1 rx q) as (q1 & Hq1 & Ha1 & Hn1); [done|done|set_solver|done|].
  destruct (IH s1 rs s2 rx q1) as ((rest & Hrest & Ha) & Hn); [by rewrite Hc1|done|done|set_solver|done|]. rewrite Hc1 in Ha. split.
  - exists rest. split; [done|].
    assert (∀ {X Y} (f : X → option Y) x l, omap f (x :: l) = option_list (f x) ++ omap f l) as Hom by (intros X Y f x l; cbn; by destruct (f x)).
    change (zip (op :: ops) (r :: rs)) with ((op, r) :: zip ops rs). rewrite !Hom.
    eapply accounted_app; [|exact Ha]. rewrite app_assoc. by apply accounted_extend.
  - intros op' reply' [[= -> ->]|Hin]%elem_of_cons; [exact Hn1|by eapply Hn].
Qed.

(** C36: Every subscriber gets what its channel is sent. After any calls to a new
    broadcaster, take a receiver of the global channel or of a named one and any
    further calls, those of other subscribers and other channels included: as long
    as it is not dropped, the answers it was given are the messages sent to its
    channel since it subscribed, each once and in order, and the rest is still
    waiting for it; messages are skipped only with their number reported, and only
    those that at least as many later ones as the capacity overtook; and every
    broadcast to its channel is reported as delivered to somebody. *)
Theorem sse_delivers capacity before s t ops s0 r1 rx s1 replies s2 :
  with_capacity capacity = Some s0 → sse_run before s0 = (r1, s) → subscribe_to t s = (rx, s1) →
  (SsDrop rx ∉ ops) → sse_run ops s1 = (replies, s2) →
  (∃ rest, pending_of rx s2 = Some rest ∧
     accounted capacity (omap (taken rx) (zip ops replies)) (omap (sends_to t) ops) rest) ∧
  ∀ op reply, (op, reply) ∈ zip ops replies → is_Some (sends_to t op) → ∃ n, reply = SrSent (Ok n) ∧ 0 < n.
Proof.
  intros E0 Er Es Hd Eo. unfold with_capacity in E0. destruct ((capacity <=? 0) || (2 ^ 63 <=? capacity)) eqn:Hcap; [done|].
  apply orb_false_iff in Hcap as [Hcap%Z.leb_gt _]. destruct (bc_channel capacity) as [c i] eqn:Ec. injection E0 as <-.
  apply run_roomy in Er as [Hs Ecap].
  2:{ intros [n|] c'; cbn; [by rewrite lookup_empty|]. intros [= <-]. destruct (bc_drop_law i c) as [_ ->]. by apply bc_channel_law in Ec as [_ ?]. }
  apply subscribe_spec in Es as (<- & Hp & Hs1 & Ecap1 & _); [|done]. cbn in Ecap. rewrite Ecap in Ecap1.
  rewrite <- Ecap1 in Hcap |- *. apply (run_pending ops s1 replies s2 rx []); [lia|done..].
Qed.
End Delivery.

(** ** Example and behaviour that looks unintended *)

Module SseExample.

(** A channel as the messages each receiver has yet to see. *)
Record Chan := mkChan { cn_capacity : nat; cn_pending : gmap nat (list BroadcastMessage) }.

#[export] Instance queues : BroadcastLib := {|
  bc_chan := Chan;
  bc_channel capacity := (mkChan (Z.to_nat capacity) {[0%nat := []]}, 0%nat);
  bc_subscribe c :=
    let rx := fresh (dom (cn_pending c)) in (mkChan (cn_capacity c) (<[rx := []]> (cn_pending c)), rx);
  bc_send m c :=
    if decide (cn_pending c = ∅) then (Err m, c)
    else (Ok (Z.of_nat (size (cn_pending c))), mkChan (cn_capacity c) ((fun q => q ++ [m]) <$> cn_pending c));
  bc_recv rx c :=
    match cn_pending c !! rx with
    | Some q =>
        let excess := (length q - cn_capacity c)%nat in
        if decide (0 < excess)%nat then (Some (Lagged excess), mkChan (cn_capacity c) (<[rx := drop excess q]> (cn_pending c)))
        else match q with
             | m :: q => (Some (Got m), mkChan (cn_capacity c) (<[rx := q]> (cn_pending c)))
             | [] => (None, c)
             end
    | None => (None, c)
    end;
  bc_drop rx c := mkChan (cn_capacity c) (delete rx (cn_pending c));
|}.

#[export] Instance queues_laws : BroadcastLaws.
Proof.
  refine {| bc_pending := cn_pending : @bc_chan queues → _; bc_capacity := (fun c => Z.of_nat (cn_capacity c)) : @bc_chan queues → Z |}; cbn.
  - intros capacity c rx [= <- <-]. cbn. split; [done|lia].
  - intros c c' rx [= <- <-]. split; [|done]. apply not_elem_of_dom, is_fresh.
  - intros m c r c'. by case_decide; intros [= <- <-].
  - intros rx c o c'. destruct (cn_pending c !! rx) as [q|]; [|by intros [= <- <-]].
    case_decide as Hd; [intros [= <- <-]; cbn; split_and!; [done|lia|lia|done]|]. destruct q; intros [= <- <-]; cbn; eauto.
  - done.
Defined.

Definition m (n : string) : BroadcastMessage := message_new n.

(** A subscriber of [news] and a slow one, with room for two messages. *)
Definition calls : list SseOp :=
  [SsToChannel "news" (m "1"); SsBroadcast (m "x"); SsRecv (Some "news", 0%nat); SsToChannel "news" (m "2"); SsToChannel "news" (m "3");
   SsToChannel "news" (m "4"); SsSubscribe (Some "news"); SsRecv (Some "news", 0%nat); SsRecv (Some "news", 0%nat)].
End SseExample.
Import SseExample.

Lemma sse_delivers_witness :
  ∃ s0 replies s2, with_capacity 2 = Some s0 ∧ sse_run calls (subscribe_to (Some "news") s0).2 = (replies, s2) ∧
    omap (taken (Some "news", 0%nat)) (zip calls replies) = [Got (m "1"); Lagged 1; Got (m "3")] ∧
    accounted 2 [Got (m "1"); Lagged 1; Got (m "3")] [m "1"; m "2"; m "3"; m "4"] [m "4"].
Proof.
  set (s0 := default (mkSseBroadcaster queues (mkChan 0 ∅) ∅ ∅ 0) (with_capacity 2)).
  set (out := sse_run calls (subscribe_to (Some "news") s0).2).
  exists s0, out.1, out.2. split; [vm_compute; reflexivity|]. split; [apply surjective_pairing|]. split; [vm_compute; reflexivity|].
  destruct (sse_delivers 2 [] s0 (Some "news") calls s0 [] (Some "news", 0%nat) (subscribe_to (Some "news") s0).2 out.1 out.2)
    as [(rest & Hp & Ha) _]; [vm_compute; reflexivity|reflexivity|vm_compute; reflexivity| |apply surjective_pairing|].
  - intros Hin. repeat (apply elem_of_cons in Hin as [Hin|Hin]; [discriminate Hin|]). by apply elem_of_nil in Hin.
  - assert (rest = [m "4"]) as -> by (vm_compute in Hp; by injection Hp as <-). exact Ha.
Defined.

(** Once its last subscriber has left, a named channel stays, and sending to it is
    an error and not zero deliveries. *)
Lemma abandoned_channel_send_fails :
  ∃ s0, broadcaster_new = Some s0 ∧
    let '(rx, s1) := subscribe_channel "news" s0 in let s2 := drop_receiver rx s1 in
    has_channel "news" s2 = true ∧ (broadcast_to_channel "news" (m "1") s2).1 = Err (m "1") ∧
    (broadcast_to_channel "other" (m "1") s2).1 = Ok 0.
Proof. eexists. split; [reflexivity|]. vm_compute. split_and!; reflexivity. Qed.

(** Registering a connection with channels subscribes it to none of them. *)
Lemma registration_does_not_subscribe :
  ∃ s0, broadcaster_new = Some s0 ∧
    let s1 := register_with_channels 7 ["news"] s0 in
    connection_channels 7 s1 = Some ["news"] ∧ has_channel "news" s1 = false ∧ (broadcast (m "1") s1).1 = Err (m "1").
Proof. eexists. split; [reflexivity|]. vm_compute. split_and!; reflexivity. Qed.
